(* ===== verification/_CoqProject ===== *)
-Q . S2P
Prelude.v
GoLib.v
Peer.v
RoundRobin.v
Picker.v
SmoothWRR.v
LeastConn.v
Candidates.v
IPHash.v
Hash.v
CHash.v
Random.v
Guarantees.v
Release.v
Breaker.v
Golden.v
Concurrency.v
Searches.v
Health.v
Termination.v
Http.v
Body.v
ClientIP.v
Addresses.v
Parsing.v
Balancers.v
Config.v
RoundTrip.v
Decisions.v
Attempts.v
Trip.v
Exhaustion.v
Failover.v
Contract.v
Traffic.v
Setup.v
Service.v
