(* ===== verification/Prelude.v ===== *)
(** * cslb: client-side load balancing, verified

    cslb is a Go library: an [http.RoundTripper] that sends each request to one
    of several backends, chosen by an algorithm of nginx's upstream module, and
    retries on the next backend when an attempt fails.  This development models
    all of its non-test code (src/*.go) and proves what makes it correct.

    ** The program and the files that model it

    - Prelude: integers of 64 and 32 bits with their wrap-around ([+!], [-!],
      [*!], [/!]), [outcome] (a Go operation returns or panics), counting in
      lists, automation.
    - GoLib: what the code uses of time, crc32, sort, strconv, strings.
    - Peer (balancer.go, util.go): [Peer], its [init], [BuildGroups],
      [peerAvailable].  A [*Peer] is an address ([PeerId]) of a heap that all
      pickers and goroutines share; [World] adds the clock and the random
      source.  [M P A] is the monad of an operation on a picker [P].
    - RoundRobin (roundrobin.go): [RoundRobin], [RRPicker], smooth weighted
      round-robin, the backup phase, [commitPeer], the releases [done] and
      [doneNeutral], which every other picker inherits.
    - LeastConn, IPHash, Hash, CHash, Random (the files of these names): one
      module per algorithm with its balancer, picker and [Pick].  Candidates
      holds the weighted walk and the candidate test three of them share.
    - Picker (balancer.go): the interface [Picker] as a class, its contract
      [PickerLaws], discharged by an instance per algorithm, and the clients
      [PickOne], [PickWithRetry] proved against the contract alone.
      Balancers: the interface [Balancer] and the sum [AnyPicker] of all
      pickers, an instance of the contract.
    - Http: errors ([errors.Is], [errors.Join], wrapping), requests, responses,
      bodies, and the outside world [IO]: streams and temporary files, an
      oracle for the failures of their operations, contexts, a log of
      selections, exchanges and releases.  [RoundTripper_ok] and [GetBody_ok]
      state what is assumed of a foreign RoundTripper and of a GetBody.
    - Body (transport.go, prepareBody to readBodyWithFactory), ClientIP
      (clientIP and the parts of net and strings it uses), Config (the types,
      options, validation, registration, NewTransportE), RoundTrip (RoundTrip
      and all it calls; the loop body is [attempt_round], cut at the calls into
      [rewrite_request], [attach_body], [send] and [conclude]).

    ** What is proved

    - SmoothWRR: the single pass equals the textbook algorithm (raise all, take
      the first maximum, pay); the sum of current weights is conserved; from
      rest the selections repeat one block of total-weight requests that serves
      every peer its weight, and at every point the deviation is bounded on both
      sides.
    - Guarantees: selection never panics, takes only a peer that is up, below
      max_conns, untried and not in quarantine; finds one if there is one; uses
      backups only when no primary can serve.  Release: the accounting of a
      release, its being undone by a neutral one, the exclusive probe.
    - LeastConn, Candidates, Random, IPHash, Hash, CHash: each algorithm against
      a reference: minimal load, shares of the weighted walk, equality of the
      binary search with it, two choices, affinity, failover order, the sorted
      ring and its minimal disruption.  Golden: the vectors of testdata, as a
      test of the model.
    - Concurrency: the critical sections of concurrent requests interleave in
      any order; the connection count is the number of holders and max_conns is
      never exceeded; every Pick is a sequence of those sections.  Traffic: so
      is a whole RoundTrip, whatever other requests do between its steps, and
      it holds no peer when it returns: no connection leaks.
    - Breaker, Searches, Health: in every interleaving of requests, whatever
      their algorithm, each peer implements a circuit breaker, a state machine
      over its history: after max_fails failures it is probed once per
      fail_timeout, except that a search that began within the fail_timeout does
      not renew it; a neutral release undoes the probe of its own request, unless
      it is out of date.  Breaker has the specification and one peer, event by
      event, Health the executions.
    - Termination: the candidate loops end within their budget.
    - Attempts, Trip: a request to a configured upstream ends without a panic;
      peers are tried once and released once; a non-idempotent request is not
      replayed after it was sent; the body reaches each attempt whole; nothing
      is left open; the result is that of the last attempt; health follows the
      decisions, which Decisions tabulates.  Exhaustion: RoundTrip gives up only
      when every peer was tried or turned down by a selection of the request.
      Contract: the calls that reach no upstream, rejected or passed through.
    - Setup: which configurations are accepted, and that each becomes a balancer
      of its algorithm with its servers in order; every transport NewTransportE
      builds satisfies the hypotheses that the theorems about pickers and
      RoundTrip have on balancers, peers and addresses.  Service: its upstreams
      are those of its options, and it answers every request to them, one after
      the other; with one reliable server the answer is one that need not be
      retried, whatever the other servers do (the argument is in Failover).
    - Addresses, Parsing: the texts of an address, dotted or in hexadecimal
      groups, are parsed to the bytes they stand for, and no other text is, from
      each of the places where clientIP looks, in order of precedence.

    ** Bounds and fuel

    Candidate loops take fuel; Termination shows their budgets suffice for it.
    RoundTrip takes the number of rounds as fuel and the theorems hold for any
    fuel above [remaining], the selections its picker can still make.
    PickWithRetry likewise.  Loops of ClientIP consume a byte per round.
    Weights of an upstream are assumed to add up to less than 2^32
    ([config_fits]), below the overflow Hash describes.  The body buffer is
    assumed below math.MaxInt64, where Body shows that the body is lost.
    The breaker of Health assumes an execution too short to overflow the failure
    counter.

    ** Findings

    Hash.hash_total_weight_panic, LeastConn.least_conn_overflow,
    Release.ip_hash_double_probe and Body.prepareBody_max_limit are defects at
    extreme inputs or clock readings; Decisions.contract_error_is_retried
    contradicts a comment of transport.go.

    ** Not modelled

    http.Transport, TLS, dialing and httptrace (a [RoundTripper] with a flag
    for the standard one; its clone and the default one are parameters), url.Parse
    (a parameter giving scheme and host), the file system below streams with
    faults.  A context is the sequence of results of its Err; it interrupts an
    exchange only through the RoundTripper.  A RoundTripper that panics, so that
    only the deferred cleanup runs, is outside [RoundTripper_ok].  The mutexes
    are the atomicity of the critical sections; data races on fields read
    outside them are not modelled.  Tests, benchmarks and examples are not part
    of the program. *)

From stdpp Require Export base gmap sets list strings fin_maps.
From Stdlib Require Export ZArith Lia.

#[global] Open Scope Z_scope.

(** ** Go integers

    [int] is the 64-bit signed integer of the supported platforms, [uint32]
    and [uint64] the unsigned ones.  A value is a [Z] in range and every
    arithmetic operation of the code wraps around. *)

Definition wrap_int (z : Z) : Z := (z + 2 ^ 63) mod 2 ^ 64 - 2 ^ 63.
Definition wrap_u32 (z : Z) : Z := z mod 2 ^ 32.
Definition wrap_u64 (z : Z) : Z := z mod 2 ^ 64.

Definition max_int : Z := 2 ^ 63 - 1.
Definition min_int : Z := - 2 ^ 63.
Definition is_int (z : Z) : Prop := min_int <= z <= max_int.

Definition int_add (a b : Z) : Z := wrap_int (a + b).
Definition int_sub (a b : Z) : Z := wrap_int (a - b).
Definition int_mul (a b : Z) : Z := wrap_int (a * b).
Definition int_quot (a b : Z) : Z := wrap_int (Z.quot a b).

Declare Scope go_scope.
Delimit Scope go_scope with go.
Infix "+!" := int_add (at level 50, left associativity) : go_scope.
Infix "-!" := int_sub (at level 50, left associativity) : go_scope.
Infix "*!" := int_mul (at level 40, left associativity) : go_scope.
Infix "/!" := int_quot (at level 40, left associativity) : go_scope.
#[global] Open Scope go_scope.

Create HintDb cslb discriminated.

Lemma wrap_int_id z : is_int z → wrap_int z = z.
Proof.
  unfold is_int, min_int, max_int, wrap_int. intros H.
  rewrite Z.mod_small; lia.
Qed.

Lemma wrap_int_range z : is_int (wrap_int z).
Proof.
  unfold is_int, min_int, max_int, wrap_int.
  pose proof (Z.mod_pos_bound (z + 2 ^ 63) (2 ^ 64) ltac:(lia)). lia.
Qed.

(** Wrapping is congruence modulo 2^64: it can be pulled out of sums. *)
Lemma wrap_int_cong a b : a mod 2 ^ 64 = b mod 2 ^ 64 → wrap_int a = wrap_int b.
Proof.
  unfold wrap_int. intros H.
  by rewrite (Z.add_mod a), (Z.add_mod b), H by lia.
Qed.

Lemma wrap_int_mod z : wrap_int z mod 2 ^ 64 = z mod 2 ^ 64.
Proof.
  unfold wrap_int. rewrite Zminus_mod_idemp_l. f_equal. lia.
Qed.

Lemma wrap_int_add_l a b : wrap_int (wrap_int a + b) = wrap_int (a + b).
Proof.
  apply wrap_int_cong. by rewrite Z.add_mod, wrap_int_mod, <-Z.add_mod by lia.
Qed.

Lemma wrap_int_add_r a b : wrap_int (a + wrap_int b) = wrap_int (a + b).
Proof. rewrite Z.add_comm, wrap_int_add_l. f_equal. lia. Qed.

Lemma wrap_int_sub_l a b : wrap_int (wrap_int a - b) = wrap_int (a - b).
Proof. apply (wrap_int_add_l a (- b)). Qed.

Lemma wrap_int_sub_r a b : wrap_int (a - wrap_int b) = wrap_int (a - b).
Proof.
  apply wrap_int_cong. by rewrite Zminus_mod, wrap_int_mod, <-Zminus_mod by lia.
Qed.

Lemma wrap_u64_range z : 0 <= wrap_u64 z < 2 ^ 64.
Proof. apply Z.mod_pos_bound. lia. Qed.

Lemma wrap_u32_range z : 0 <= wrap_u32 z < 2 ^ 32.
Proof. apply Z.mod_pos_bound. lia. Qed.

#[export] Hint Resolve wrap_int_range : cslb.

(** Unfold the operators and remove the wrap where the value is in range. *)
Ltac unwrap_int :=
  unfold int_add, int_sub, int_mul, int_quot in *;
  repeat match goal with
  | |- context [wrap_int ?z] =>
      rewrite (wrap_int_id z) by (unfold is_int, min_int, max_int in *; lia)
  | H : context [wrap_int ?z] |- _ =>
      rewrite (wrap_int_id z) in H by (unfold is_int, min_int, max_int in *; lia)
  end.
Ltac int_lia := unwrap_int; unfold is_int, min_int, max_int in *; lia.

(** ** Outcomes

    A Go operation returns or panics. *)

Inductive panic :=
  | IndexOutOfRange
  | DivideByZero
  | NilDereference
  | MakeSliceCap.

Inductive outcome (A : Type) :=
  | Ret (a : A)
  | Panic (why : panic).
Arguments Ret {A} a.
Arguments Panic {A} why.

(** [total o Q]: [o] does not panic and its value satisfies [Q]. *)
Definition total {A} (o : outcome A) (Q : A → Prop) : Prop :=
  match o with Ret a => Q a | Panic _ => False end.

Lemma total_Ret {A} (o : outcome A) Q : total o Q ↔ ∃ a, o = Ret a ∧ Q a.
Proof.
  destruct o; split; cbn; [by eauto|by intros (? & [= <-] & ?)|done|by intros (? & ? & _)].
Qed.

(** ** Counting the elements of a list *)

Section count.
Context {A : Type}.
Implicit Types (l : list A).

Lemma filter_none (P : A → Prop) `{∀ x, Decision (P x)} l :
  (∀ x, x ∈ l → ¬ P x) → filter P l = [].
Proof.
  induction l as [|x l IH]; intros Hl; [done|]. rewrite filter_cons_False.
  - apply IH. intros y Hy. apply Hl. by right.
  - apply Hl. by left.
Qed.

Lemma length_filter_none (P : A → Prop) `{∀ x, Decision (P x)} l :
  (∀ x, x ∈ l → ¬ P x) → length (filter P l) = 0%nat.
Proof. intros Hl. by rewrite filter_none. Qed.

Lemma filter_true (P : A → Prop) `{∀ x, Decision (P x)} l :
  (∀ x, x ∈ l → P x) → filter P l = l.
Proof.
  induction l as [|x l IH]; intros Hl; [done|]. rewrite filter_cons, decide_True.
  - f_equal. apply IH. intros y Hy. apply Hl. by right.
  - apply Hl. by left.
Qed.

Lemma length_filter_all (P : A → Prop) `{∀ x, Decision (P x)} l :
  (∀ x, x ∈ l → P x) → length (filter P l) = length l.
Proof. intros Hl. by rewrite filter_true. Qed.

Lemma length_filter_ext (P Q : A → Prop) `{∀ x, Decision (P x), ∀ x, Decision (Q x)} l :
  (∀ x, x ∈ l → P x ↔ Q x) → length (filter P l) = length (filter Q l).
Proof.
  induction l as [|x l IH]; intros Hl; [done|]. rewrite !filter_cons.
  pose proof (Hl x ltac:(by left)). specialize (IH ltac:(intros; apply Hl; by right)).
  repeat case_decide; cbn; try tauto; lia.
Qed.

Lemma length_filter_fmap {B} (f : B → A) (P : A → Prop) `{∀ x, Decision (P x)} (l : list B) :
  length (filter P (f <$> l)) = length (filter (λ y, P (f y)) l).
Proof.
  induction l as [|y l IH]; [done|]. rewrite fmap_cons, !filter_cons.
  case_decide; cbn; lia.
Qed.
End count.
