(* ===== verification/GoLib.v ===== *)
(** * The parts of the Go standard library the package computes with

    [time.Time], [hash/crc32], [encoding/binary], [sort] and [strings], as
    executable functions, with the facts the components use. *)

From S2P Require Import Prelude.
From stdpp Require Import pretty sorting.
From Stdlib Require Import Ascii Sorted.
#[local] Open Scope Z_scope.

(** ** time

    A [time.Time] carries a wall clock reading and, when it comes from
    [time.Now], a monotonic one; [Sub] and [Before] compare the monotonic
    readings when both values have one.  Readings are in nanoseconds and the
    zero Time is wall reading 0.  [Sub] saturates. *)

Record Time := MkTime { wall : Z; mono : option Z }.

Definition zero_time : Time := MkTime 0 None.

#[export] Instance Time_eq_dec : EqDecision Time.
Proof. solve_decision. Defined.

Definition sat_int (z : Z) : Z := Z.max min_int (Z.min max_int z).

Definition time_diff (t u : Time) : Z :=
  match mono t, mono u with
  | Some a, Some b => a - b
  | _, _ => wall t - wall u
  end.

Definition time_Sub (t u : Time) : Z := sat_int (time_diff t u).
Definition time_Before (t u : Time) : bool := time_diff t u <? 0.

Definition Second : Z := 1000000000.

Lemma time_Before_irrefl t : time_Before t t = false.
Proof.
  unfold time_Before, time_diff. destruct (mono t); apply Z.ltb_ge; lia.
Qed.

Lemma time_Sub_diag t : time_Sub t t = 0.
Proof. unfold time_Sub, time_diff, sat_int, min_int, max_int. destruct (mono t); lia. Qed.

(** ** hash/crc32: the IEEE polynomial, reflected *)

Definition crc_bit (c : Z) : Z :=
  if Z.testbit c 0 then Z.lxor (Z.shiftr c 1) 0xEDB88320 else Z.shiftr c 1.

Definition crc_byte (c b : Z) : Z := Nat.iter 8 crc_bit (Z.lxor c b).

Definition ChecksumIEEE (bs : list Z) : Z :=
  Z.lxor (fold_left crc_byte bs 0xFFFFFFFF) 0xFFFFFFFF.

(** The bytes of a Go string. *)
Definition bytes_of_string (s : string) : list Z :=
  (λ c, Z.of_N (Ascii.N_of_ascii c)) <$> String.list_ascii_of_string s.

Example crc_check_value :
  ChecksumIEEE (bytes_of_string "123456789") = 0xCBF43926.
Proof. vm_compute. reflexivity. Qed.

Definition is_u32 (z : Z) : Prop := 0 <= z < 2 ^ 32.
Definition is_byte (z : Z) : Prop := 0 <= z < 256.

Lemma lxor_bound n a b :
  0 <= n → 0 <= a < 2 ^ n → 0 <= b < 2 ^ n → 0 <= Z.lxor a b < 2 ^ n.
Proof.
  intros Hn Ha Hb.
  assert (0 <= Z.lxor a b) by (apply Z.lxor_nonneg; lia).
  split; [done|].
  destruct (decide (Z.lxor a b = 0)) as [->|]; [lia|].
  apply Z.log2_lt_pow2; [lia|].
  pose proof (Z.log2_lxor a b ltac:(lia) ltac:(lia)).
  destruct (decide (n = 0)) as [->|].
  - replace a with 0 in * by lia. replace b with 0 in * by lia. by cbn in *.
  - assert (Z.log2 a < n).
    { destruct (decide (a = 0)) as [->|]; [cbn; lia|]. apply Z.log2_lt_pow2; lia. }
    assert (Z.log2 b < n).
    { destruct (decide (b = 0)) as [->|]; [cbn; lia|]. apply Z.log2_lt_pow2; lia. }
    lia.
Qed.

Lemma crc_bit_u32 c : is_u32 c → is_u32 (crc_bit c).
Proof.
  unfold is_u32, crc_bit. intros Hc.
  assert (0 <= Z.shiftr c 1 < 2 ^ 32).
  { rewrite Z.shiftr_div_pow2 by lia. change (2 ^ 1) with 2.
    pose proof (Z.div_pos c 2). pose proof (Z.div_le_upper_bound c 2 c). lia. }
  destruct (Z.testbit c 0); [|done]. by apply lxor_bound.
Qed.

Lemma crc_byte_u32 c b : is_u32 c → is_byte b → is_u32 (crc_byte c b).
Proof.
  intros Hc Hb. unfold crc_byte.
  assert (H : is_u32 (Z.lxor c b))
    by (apply lxor_bound; unfold is_u32, is_byte in *; lia).
  revert H. generalize (Z.lxor c b) as x. intros x Hx. generalize 8%nat as n.
  intros n. induction n; cbn; auto using crc_bit_u32.
Qed.

Lemma ChecksumIEEE_u32 bs : Forall is_byte bs → is_u32 (ChecksumIEEE bs).
Proof.
  intros Hbs. unfold ChecksumIEEE.
  assert (∀ c, is_u32 c → is_u32 (fold_left crc_byte bs c)) as Hf.
  { induction Hbs as [|b bs Hb _ IH]; cbn [fold_left]; auto using crc_byte_u32. }
  apply lxor_bound; [lia| |lia]. apply Hf. unfold is_u32. lia.
Qed.

Lemma bytes_of_string_byte s : Forall is_byte (bytes_of_string s).
Proof.
  unfold bytes_of_string. apply Forall_fmap, Forall_true. intros c.
  unfold is_byte. cbn. pose proof (Ascii.N_ascii_bounded c). lia.
Qed.

#[export] Hint Resolve ChecksumIEEE_u32 bytes_of_string_byte : cslb.

(** ** encoding/binary: [LittleEndian.PutUint32] at an offset of a buffer *)

Definition le_bytes (v : Z) : list Z :=
  [Z.land v 255; Z.land (Z.shiftr v 8) 255;
   Z.land (Z.shiftr v 16) 255; Z.land (Z.shiftr v 24) 255].

Definition PutUint32 (off : nat) (v : Z) (buf : list Z) : list Z :=
  take off buf ++ le_bytes v ++ drop (off + 4) buf.

(** ** sort

    [Search n f] is the binary search of sort.Search, with fuel [n]; the
    interval [i, j) shrinks at every round, so the fuel is never exhausted
    ([Search_spec]). *)

Fixpoint Search_loop (fuel : nat) (f : nat → bool) (i j : nat) : nat :=
  match fuel with
  | O => i
  | S fuel =>
      if (i <? j)%nat then
        let h := Nat.div2 (i + j) in
        if f h then Search_loop fuel f i h else Search_loop fuel f (S h) j
      else i
  end.

Definition Search (n : nat) (f : nat → bool) : nat := Search_loop n f 0 n.

Lemma Search_loop_spec fuel f i j :
  (i ≤ j)%nat → (j - i ≤ fuel)%nat →
  (∀ a b, (a ≤ b < j)%nat → f a = true → f b = true) →
  let r := Search_loop fuel f i j in
  (i ≤ r ≤ j)%nat ∧ (∀ k, (i ≤ k < r)%nat → f k = false) ∧
  (∀ k, (r ≤ k < j)%nat → f k = true).
Proof.
  revert i j. induction fuel as [|fuel IH]; intros i j Hij Hf Hm; cbn [Search_loop].
  { split_and!; intros; lia. }
  destruct (Nat.ltb_spec i j); [|split_and!; intros; lia].
  pose proof (Nat.div2_div (i + j)) as Hd. set (h := Nat.div2 (i + j)) in *.
  assert (i ≤ h < j)%nat as Hh.
  { rewrite Hd. pose proof (Nat.div_mod_eq (i + j) 2).
    pose proof (Nat.mod_upper_bound (i + j) 2 ltac:(lia)). lia. }
  clearbody h. destruct (f h) eqn:Efh.
  - destruct (IH i h) as (? & ? & Ht); [lia|lia|intros a b ??; apply (Hm a b); [lia|done]|].
    split_and!; [lia|lia|auto|]. intros k Hk.
    destruct (decide (k < h)%nat); [apply Ht; lia|]. apply (Hm h); auto; lia.
  - destruct (IH (S h) j) as (? & Hl & ?); [lia|lia|auto|].
    split_and!; [lia|lia| |auto]. intros k Hk.
    destruct (decide (k ≤ h)%nat); [|apply Hl; lia].
    destruct (f k) eqn:Ek; [|done]. rewrite (Hm k h) in Efh; [done|lia|done].
Qed.

Lemma Search_spec n f :
  (∀ a b, (a ≤ b < n)%nat → f a = true → f b = true) →
  (Search n f ≤ n)%nat ∧ (∀ k, (k < Search n f)%nat → f k = false) ∧
  (∀ k, (Search n f ≤ k < n)%nat → f k = true).
Proof.
  intros Hm. destruct (Search_loop_spec n f 0 n) as (? & H1 & H2); [lia|lia|auto|].
  unfold Search. split_and!; [lia| |auto]. intros k ?. apply H1. lia.
Qed.

Lemma Search_le n f : (Search n f ≤ n)%nat.
Proof.
  unfold Search. assert (∀ fuel i j, (i ≤ j)%nat → (Search_loop fuel f i j ≤ j)%nat) as Hl;
    [|by apply Hl; lia].
  induction fuel as [|fuel IH]; intros i j Hij; cbn [Search_loop]; [done|].
  destruct (Nat.ltb_spec i j); [|done].
  pose proof (Nat.div2_div (i + j)) as Hd. rewrite Hd.
  pose proof (Nat.div_mod_eq (i + j) 2). pose proof (Nat.mod_upper_bound (i + j) 2 ltac:(lia)).
  destruct (f _); [|apply IH; lia]. specialize (IH i ((i + j) / 2)%nat). lia.
Qed.

(** [SliceStable]: the stable sort by an integer key.  A stable sort has one
    result, whatever the algorithm; here by insertion. *)

Section stable_sort.
Context {A : Type} (key : A → Z).

Fixpoint sort_insert (x : A) (l : list A) : list A :=
  match l with
  | [] => [x]
  | y :: l' => if key x <=? key y then x :: l else y :: sort_insert x l'
  end.

Definition SliceStable (l : list A) : list A := foldr sort_insert [] l.

Definition key_le (a b : A) : Prop := key a <= key b.

Lemma sort_insert_perm x l : Permutation (sort_insert x l) (x :: l).
Proof.
  induction l as [|y l IH]; cbn; [done|]. destruct (_ <=? _); [done|].
  rewrite IH. apply perm_swap.
Qed.

Lemma SliceStable_perm l : Permutation (SliceStable l) l.
Proof. induction l as [|x l IH]; cbn; [done|]. by rewrite sort_insert_perm, IH. Qed.

Lemma elem_of_SliceStable x l : x ∈ SliceStable l ↔ x ∈ l.
Proof. by rewrite SliceStable_perm. Qed.

Lemma sort_insert_sorted x l :
  StronglySorted key_le l → StronglySorted key_le (sort_insert x l).
Proof.
  induction 1 as [|y l Hl IH Hy]; cbn; [repeat constructor|].
  destruct (Z.leb_spec (key x) (key y)).
  - constructor; [by constructor|]. constructor; [done|].
    eapply Forall_impl; [exact Hy|]. unfold key_le. intros; lia.
  - constructor; [done|]. rewrite sort_insert_perm.
    constructor; [unfold key_le; lia|done].
Qed.

Lemma SliceStable_sorted l : StronglySorted key_le (SliceStable l).
Proof. induction l; cbn; [constructor|by apply sort_insert_sorted]. Qed.

(** Stability: the elements of one key keep their order. *)
Lemma sort_insert_filter k x l :
  StronglySorted key_le l →
  filter (λ a, key a = k) (sort_insert x l) = filter (λ a, key a = k) (x :: l).
Proof.
  induction 1 as [|y l Hl IH Hy]; cbn -[filter]; [done|].
  destruct (Z.leb_spec (key x) (key y)); [done|].
  rewrite filter_cons, IH, !filter_cons.
  repeat case_decide; try done. lia.
Qed.

Lemma SliceStable_stable k l :
  filter (λ a, key a = k) (SliceStable l) = filter (λ a, key a = k) l.
Proof.
  induction l as [|x l IH]; [done|].
  change (SliceStable (x :: l)) with (sort_insert x (SliceStable l)).
  rewrite sort_insert_filter by apply SliceStable_sorted.
  by rewrite !filter_cons, IH.
Qed.
End stable_sort.

(** ** strconv, strings *)

(** [strconv.Itoa] *)
Definition Itoa (z : Z) : string := pretty z.

(** [strings.Index], and the slices [s[:j]] and [s[j:]] of a string *)
Definition strings_Index (s sub : string) : option nat := String.index 0 sub s.
Definition str_to (j : nat) (s : string) : string := String.substring 0 j s.
Definition str_from (j : nat) (s : string) : string :=
  String.substring j (String.length s - j) s.

(** *** Strings *)

Lemma append_cons a s t : String a s +:+ t = String a (s +:+ t).
Proof. done. Qed.

Lemma length_append s t : String.length (s +:+ t) = (String.length s + String.length t)%nat.
Proof. induction s as [|a s IH]; [done|]. rewrite append_cons. cbn [String.length Nat.add]. by rewrite IH. Qed.

Fixpoint str_forall (f : ascii → bool) (s : string) : bool :=
  match s with
  | EmptyString => true
  | String a s => f a && str_forall f s
  end.

Definition is_digit (a : ascii) : bool :=
  (48 <=? Ascii.nat_of_ascii a)%nat && (Ascii.nat_of_ascii a <=? 57)%nat.

Definition not_char (c a : ascii) : bool := negb (Ascii.eqb a c).

Lemma strings_Index_app c p s t :
  str_forall (not_char c) s = true → String.prefix (String c p) t = true →
  strings_Index (s +:+ t) (String c p) = Some (String.length s).
Proof.
  unfold strings_Index. intros Hs Ht. induction s as [|a s IH].
  - destruct t as [|b t]; [done|]. change (EmptyString +:+ String b t) with (String b t).
    cbn [String.index]. by rewrite Ht.
  - cbn in Hs. apply andb_true_iff in Hs as [Ha Hs]. unfold not_char in Ha.
    rewrite append_cons. cbn [String.index String.prefix].
    destruct (Ascii.ascii_dec c a) as [->|]; [by rewrite Ascii.eqb_refl in Ha|].
    by rewrite IH.
Qed.

Lemma strings_Index_none c p s :
  str_forall (not_char c) s = true → strings_Index s (String c p) = None.
Proof.
  unfold strings_Index. intros Hs. induction s as [|a s IH]; [done|].
  cbn in Hs. apply andb_true_iff in Hs as [Ha Hs]. unfold not_char in Ha.
  cbn [String.index String.prefix].
  destruct (Ascii.ascii_dec c a) as [->|]; [by rewrite Ascii.eqb_refl in Ha|].
  by rewrite IH.
Qed.

Lemma str_forall_app f s t : str_forall f (s +:+ t) = str_forall f s && str_forall f t.
Proof.
  induction s as [|a s IH]; [done|]. rewrite append_cons. cbn [str_forall].
  by rewrite IH, andb_assoc.
Qed.

Lemma str_forall_impl (f g : ascii → bool) s :
  (∀ a, f a = true → g a = true) → str_forall f s = true → str_forall g s = true.
Proof.
  intros Hfg. induction s as [|a s IH]; cbn; [done|].
  intros [? ?]%andb_true_iff. apply andb_true_iff. auto.
Qed.

Lemma str_forall_get f s i a :
  str_forall f s = true → String.get i s = Some a → f a = true.
Proof.
  revert i. induction s as [|b s IH]; intros i; cbn; [done|].
  intros [? ?]%andb_true_iff. destruct i; [by intros [= ->]|by apply IH].
Qed.

Lemma substring_all s : String.substring 0 (String.length s) s = s.
Proof. induction s as [|a s IH]; cbn; [done|by rewrite IH]. Qed.

Lemma str_to_app s t : str_to (String.length s) (s +:+ t) = s.
Proof.
  unfold str_to. induction s as [|a s IH]; [by destruct t|].
 rewrite append_cons. cbn [String.length String.substring]. by rewrite IH.
Qed.

Lemma str_from_app s t : str_from (String.length s) (s +:+ t) = t.
Proof.
  unfold str_from. rewrite length_append.
  replace (_ + _ - _)%nat with (String.length t) by lia.
  induction s as [|a s IH]; [apply substring_all|].
  done.
Qed.
