(* ===== verification/Peer.v ===== *)
(** * Peers, peer groups and the shared memory (balancer.go, util.go)

    A [*Peer] is an address [PeerId] into a shared [Heap]; the mutable fields of
    a peer are read and written through it, so two groups, pickers or requests
    that hold the same pointer see the same state.  A [World] is the heap
    together with the sources of nondeterminism the code reads: the clock
    (the sequence of the values [time.Now] returns) and the number of random
    draws made.  Operations of a picker of type [P] are computations of the
    state monad [M P], which may panic. *)

From S2P Require Import Prelude GoLib.
#[local] Open Scope Z_scope.
#[local] Open Scope go_scope.

(** ** serverFieldSet *)

Definition serverFieldWeight : Z := Z.shiftl 1 0.
Definition serverFieldMaxFails : Z := Z.shiftl 1 1.
Definition serverFieldFailTimeout : Z := Z.shiftl 1 2.

Definition has (set field : Z) : bool := negb (Z.land set field =? 0).

(** ** Peer *)

Abbreviation PeerId := nat (only parsing).

Record Peer := MkPeer {
  Addr : string;
  Weight : Z;
  Down : bool;
  MaxConns : Z;
  MaxFails : Z;
  FailTimeout : Z;
  Backup : bool;
  explicit : Z;
  currentWeight : Z;
  effectiveWeight : Z;
  conns : Z;
  fails : Z;
  accessed : Time;
  checked : Time;
  checkedSeq : Z;
}.

(** The zero [Peer] of Go, also the value read at an address never written. *)
Definition zero_peer : Peer :=
  MkPeer "" 0 false 0 0 0 false 0 0 0 0 0 zero_time zero_time 0.

#[export] Instance Peer_inhabited : Inhabited Peer := populate zero_peer.

(** Field updates. *)

Definition set_Weight (w : Z) (p : Peer) : Peer :=
  MkPeer (Addr p) w (Down p) (MaxConns p) (MaxFails p) (FailTimeout p) (Backup p)
    (explicit p) (currentWeight p) (effectiveWeight p) (conns p) (fails p)
    (accessed p) (checked p) (checkedSeq p).

Definition set_MaxFails (n : Z) (p : Peer) : Peer :=
  MkPeer (Addr p) (Weight p) (Down p) (MaxConns p) n (FailTimeout p) (Backup p)
    (explicit p) (currentWeight p) (effectiveWeight p) (conns p) (fails p)
    (accessed p) (checked p) (checkedSeq p).

Definition set_FailTimeout (d : Z) (p : Peer) : Peer :=
  MkPeer (Addr p) (Weight p) (Down p) (MaxConns p) (MaxFails p) d (Backup p)
    (explicit p) (currentWeight p) (effectiveWeight p) (conns p) (fails p)
    (accessed p) (checked p) (checkedSeq p).

Definition set_weights (cw ew : Z) (p : Peer) : Peer :=
  MkPeer (Addr p) (Weight p) (Down p) (MaxConns p) (MaxFails p) (FailTimeout p)
    (Backup p) (explicit p) cw ew (conns p) (fails p)
    (accessed p) (checked p) (checkedSeq p).

Definition set_currentWeight (cw : Z) (p : Peer) : Peer :=
  set_weights cw (effectiveWeight p) p.
Definition set_effectiveWeight (ew : Z) (p : Peer) : Peer :=
  set_weights (currentWeight p) ew p.

Definition set_conns (n : Z) (p : Peer) : Peer :=
  MkPeer (Addr p) (Weight p) (Down p) (MaxConns p) (MaxFails p) (FailTimeout p)
    (Backup p) (explicit p) (currentWeight p) (effectiveWeight p) n (fails p)
    (accessed p) (checked p) (checkedSeq p).

Definition set_fails (n : Z) (p : Peer) : Peer :=
  MkPeer (Addr p) (Weight p) (Down p) (MaxConns p) (MaxFails p) (FailTimeout p)
    (Backup p) (explicit p) (currentWeight p) (effectiveWeight p) (conns p) n
    (accessed p) (checked p) (checkedSeq p).

Definition set_accessed (t : Time) (p : Peer) : Peer :=
  MkPeer (Addr p) (Weight p) (Down p) (MaxConns p) (MaxFails p) (FailTimeout p)
    (Backup p) (explicit p) (currentWeight p) (effectiveWeight p) (conns p) (fails p)
    t (checked p) (checkedSeq p).

(** [Peer.setChecked]: the timestamp and its version counter. *)
Definition setChecked (t : Time) (p : Peer) : Peer :=
  MkPeer (Addr p) (Weight p) (Down p) (MaxConns p) (MaxFails p) (FailTimeout p)
    (Backup p) (explicit p) (currentWeight p) (effectiveWeight p) (conns p) (fails p)
    (accessed p) t (wrap_u64 (checkedSeq p + 1)).

(** [Peer.init] *)
Definition init (p : Peer) : Peer :=
  let p := if Weight p <=? 0 then set_Weight 1 p else p in
  let p := if (MaxFails p =? 0) && negb (has (explicit p) serverFieldMaxFails)
           then set_MaxFails 1 p else p in
  let p := if (FailTimeout p =? 0) && negb (has (explicit p) serverFieldFailTimeout)
           then set_FailTimeout (10 * Second) p else p in
  let p := set_effectiveWeight (Weight p) p in
  set_currentWeight 0 p.

(** ** PeerGroup, BuildGroups *)

Abbreviation Heap := (gmap nat Peer) (only parsing).

Record PeerGroup := MkGroup {
  Peers : list PeerId;
  TotalWeight : Z;
  single : bool;
}.

Definition group_add (g : PeerGroup) (p : PeerId) (w : Z) : PeerGroup :=
  MkGroup (Peers g ++ [p]) (TotalWeight g +! w) (single g).

Fixpoint BuildGroups_loop (peers : list (option PeerId)) (primary backup : PeerGroup)
    (h : Heap) : PeerGroup * PeerGroup * Heap :=
  match peers with
  | [] => (primary, backup, h)
  | None :: rest => BuildGroups_loop rest primary backup h
  | Some p :: rest =>
      let h := <[p := init (h !!! p)]> h in
      if Backup (h !!! p)
      then BuildGroups_loop rest primary (group_add backup p (Weight (h !!! p))) h
      else BuildGroups_loop rest (group_add primary p (Weight (h !!! p))) backup h
  end.

Definition BuildGroups (peers : list (option PeerId)) (h : Heap)
    : PeerGroup * option PeerGroup * Heap :=
  let '(primary, backup, h) :=
    BuildGroups_loop peers (MkGroup [] 0 false) (MkGroup [] 0 false) h in
  if (length (Peers backup) =? 0)%nat then
    (MkGroup (Peers primary) (TotalWeight primary) (length (Peers primary) =? 1)%nat,
     None, h)
  else (primary, Some backup, h).

(** ** The world and the state monad *)

Record World := MkWorld {
  heap : gmap nat Peer;
  clock : nat → Time;   (* the values of successive calls of time.Now *)
  ticks : nat;          (* calls of time.Now so far *)
  draws : nat;          (* random numbers drawn so far *)
}.

Definition set_heap (h : Heap) (w : World) : World :=
  MkWorld h (clock w) (ticks w) (draws w).
Definition tick (w : World) : World :=
  MkWorld (heap w) (clock w) (S (ticks w)) (draws w).
Definition count_draw (w : World) : World :=
  MkWorld (heap w) (clock w) (ticks w) (S (draws w)).

Definition M (P A : Type) : Type := P → World → outcome (A * P * World).

#[export] Instance M_ret P : MRet (M P) := λ A a p w, Ret (a, p, w).
#[export] Instance M_bind P : MBind (M P) := λ A B k m p w,
  match m p w with
  | Ret (a, p', w') => k a p' w'
  | Panic why => Panic why
  end.

Definition throw {P A} (why : panic) : M P A := λ _ _, Panic why.

(** The picker's own fields. *)
Definition self {P} : M P P := λ p w, Ret (p, p, w).
Definition put {P} (p : P) : M P unit := λ _ w, Ret (tt, p, w).
Definition update {P} (f : P → P) : M P unit := λ p w, Ret (tt, f p, w).

(** Loads and stores through a [*Peer]. *)
Definition load {P} (x : PeerId) : M P Peer := λ p w, Ret (heap w !!! x, p, w).
Definition store {P} (x : PeerId) (f : Peer → Peer) : M P unit := λ p w,
  Ret (tt, p, set_heap (<[x := f (heap w !!! x)]> (heap w)) w).

(** [time.Now()] *)
Definition Now {P} : M P Time := λ p w, Ret (clock w (ticks w), p, tick w).

(** [s[i]] of a slice *)
Definition index {P A} (l : list A) (i : nat) : M P A :=
  match l !! i with Some a => mret a | None => throw IndexOutOfRange end.

(** A computation of an embedded struct, run on the embedding one. *)
Definition zoom {P Q A} (get : P → Q) (set : Q → P → P) (m : M Q A) : M P A :=
  λ p w, match m (get p) w with
         | Ret (a, q, w') => Ret (a, set q p, w')
         | Panic why => Panic why
         end.

(** ** Availability (util.go, repeated inline by the algorithms) *)

Definition failed_out (pr : Peer) (now : Time) : bool :=
  (0 <? MaxFails pr) && (MaxFails pr <=? fails pr) &&
  (time_Sub now (checked pr) <=? FailTimeout pr).

Definition conns_full (pr : Peer) : bool :=
  (0 <? MaxConns pr) && (MaxConns pr <=? conns pr).

Definition peerAvailable {P} (peer : PeerId) : M P bool :=
  now ← Now;
  pr ← load peer;
  mret (if failed_out pr now then false
        else if conns_full pr then false else true).

(** ** Weakest preconditions

    [wp m Q p w]: run from [p] and [w], [m] does not panic and its result,
    picker and world satisfy [Q]. *)

Definition wp {P A} (m : M P A) (Q : A → P → World → Prop) (p : P) (w : World) : Prop :=
  match m p w with
  | Ret (a, p', w') => Q a p' w'
  | Panic _ => False
  end.

(** ** What selection and release do to a peer

    [static] is the configuration, which no operation of a picker changes;
    [tuned] is the effect of a smooth weighted pass: the two running weights
    move, the effective weight upwards and never past the weight.
    [committed] is the effect of choosing a peer: one more connection and
    possibly a fresh [checked] timestamp. *)

Definition static (pr : Peer) :=
  (Addr pr, Weight pr, Down pr, MaxConns pr, MaxFails pr, FailTimeout pr,
   Backup pr, explicit pr).

Definition tuned (pr pr' : Peer) : Prop :=
  ∃ cw ew, pr' = set_weights cw ew pr ∧
    effectiveWeight pr <= ew <= Z.max (effectiveWeight pr) (Weight pr).

Definition committed (pr pr' : Peer) : Prop :=
  pr' = set_conns (conns pr +! 1) pr ∨
  ∃ now, pr' = set_conns (conns pr +! 1) (setChecked now pr).

Definition htuned (h h' : Heap) : Prop := ∀ q, tuned (h !!! q) (h' !!! q).

Definition hselected (x : PeerId) (h h' : Heap) : Prop :=
  (∃ pr, tuned (h !!! x) pr ∧ committed pr (h' !!! x)) ∧
  ∀ q, q ≠ x → tuned (h !!! q) (h' !!! q).

(** The well-formedness of a peer: a positive weight and an effective weight
    between zero and it, every counter in the range of [int]. *)
Record peer_ok (pr : Peer) : Prop := {
  ok_Weight : 1 <= Weight pr <= max_int;
  ok_effective : 0 <= effectiveWeight pr <= Weight pr;
  ok_conns : is_int (conns pr);
  ok_fails : is_int (fails pr);
  ok_MaxFails : is_int (MaxFails pr);
}.

(** What [BuildGroups] needs of a caller's peer: machine integers. *)
Definition peer_typed (pr : Peer) : Prop :=
  is_int (Weight pr) ∧ is_int (conns pr) ∧ is_int (fails pr) ∧ is_int (MaxFails pr).

Definition heap_ok (h : Heap) (xs : list PeerId) : Prop :=
  ∀ x, x ∈ xs → peer_ok (h !!! x).

(** Time only moves forward: the clock readings are fixed and the counters of
    readings and draws grow. *)
Definition wext (w w' : World) : Prop :=
  clock w' = clock w ∧ (ticks w ≤ ticks w')%nat ∧ (draws w ≤ draws w')%nat.

(** [choosable h x c t0 t1]: in heap [h], peer [x] is up, below [max_conns] and,
    at some reading of the clock [c] with index in [t0, t1), not failed out;
    [unchoosable] is the complement up to the reading. *)
Definition choosable (h : Heap) (x : PeerId) (c : nat → Time) (t0 t1 : nat) : Prop :=
  Down (h !!! x) = false ∧ conns_full (h !!! x) = false ∧
  ∃ i, (t0 ≤ i < t1)%nat ∧ failed_out (h !!! x) (c i) = false.

Definition unchoosable (h : Heap) (x : PeerId) (c : nat → Time) (t0 t1 : nat) : Prop :=
  Down (h !!! x) = true ∨ conns_full (h !!! x) = true ∨
  ∃ i, (t0 ≤ i < t1)%nat ∧ failed_out (h !!! x) (c i) = true.

(** The exact weight of a group, before wrap-around. *)
Definition sum_weights (h : Heap) (xs : list PeerId) : Z :=
  foldr (λ x acc, Weight (h !!! x) + acc) 0 xs.

Definition group_peers (h : Heap) (bk : bool) (peers : list (option PeerId)) : list PeerId :=
  filter (λ x, Backup (h !!! x) = bk) (omap id peers).

(** What BuildGroups appends to a group: the peers [xs] with the weights they
    have after [init]. *)
Definition init_weight_sum (h : Heap) (xs : list PeerId) : Z :=
  foldr (λ x acc, Weight (init (h !!! x)) + acc) 0 xs.

Definition group_ext (h : Heap) (g g' : PeerGroup) (xs : list PeerId) : Prop :=
  Peers g' = Peers g ++ xs ∧
  TotalWeight g' = wrap_int (TotalWeight g + init_weight_sum h xs) ∧
  single g' = single g.

(** ** Lemmas *)

Section wp_rules.
Context {P : Type}.
Implicit Types (p : P) (w : World).

Lemma wp_ret {A} (a : A) Q p w : wp (mret a) Q p w ↔ Q a p w.
Proof. done. Qed.

Lemma wp_bind {A B} (m : M P A) (k : A → M P B) Q p w :
  wp (m ≫= k) Q p w ↔ wp m (λ a, wp (k a) Q) p w.
Proof. unfold wp, mbind, M_bind. by destruct (m p w) as [[[a p'] w']|]. Qed.

Lemma wp_load x Q p w : wp (load x) Q p w ↔ Q (heap w !!! x) p w.
Proof. done. Qed.

Lemma wp_store x f Q p w :
  wp (store x f) Q p w ↔
  Q tt p (set_heap (<[x := f (heap w !!! x)]> (heap w)) w).
Proof. done. Qed.

Lemma wp_Now Q p w : wp Now Q p w ↔ Q (clock w (ticks w)) p (tick w).
Proof. done. Qed.

Lemma wp_self Q p w : wp self Q p w ↔ Q p p w.
Proof. done. Qed.

Lemma wp_put Q p p' w : wp (put p') Q p w ↔ Q tt p' w.
Proof. done. Qed.

Lemma wp_update (f : P → P) Q p w : wp (update f) Q p w ↔ Q tt (f p) w.
Proof. done. Qed.

Lemma wp_index {A} (l : list A) i a Q p w :
  l !! i = Some a → Q a p w → wp (index l i) Q p w.
Proof. unfold index, wp. by intros ->. Qed.

Lemma wp_mono {A} (m : M P A) (Q Q' : A → P → World → Prop) p w :
  wp m Q p w → (∀ a p' w', Q a p' w' → Q' a p' w') → wp m Q' p w.
Proof. unfold wp. destruct (m p w) as [[[a p'] w']|]; auto. Qed.

Lemma wp_zoom {R A} (get : P → R) (set : R → P → P) (m : M R A) Q p w :
  wp (zoom get set m) Q p w ↔ wp m (λ a r, Q a (set r p)) (get p) w.
Proof. unfold wp, zoom. by destruct (m (get p) w) as [[[a r] w']|]. Qed.

Lemma wp_exists {A} (m : M P A) Q p w :
  wp m Q p w ↔ ∃ a p' w', m p w = Ret (a, p', w') ∧ Q a p' w'.
Proof.
  unfold wp. destruct (m p w) as [[[a p'] w']|].
  - split; [by eauto|]. by intros (? & ? & ? & [= <- <- <-] & ?).
  - split; [done|]. by intros (? & ? & ? & ? & ?).
Qed.

Lemma bind_Ret {A B} (m : M P A) (k : A → M P B) p w a p' w' :
  m p w = Ret (a, p', w') → (m ≫= k) p w = k a p' w'.
Proof. unfold mbind, M_bind. by intros ->. Qed.

(** Inversion of a computation that returned. *)
Lemma bind_inv {A B} (m : M P A) (k : A → M P B) p w b p' w' :
  (m ≫= k) p w = Ret (b, p', w') →
  ∃ a p1 w1, m p w = Ret (a, p1, w1) ∧ k a p1 w1 = Ret (b, p', w').
Proof. unfold mbind, M_bind. destruct (m p w) as [[[a p1] w1]|]; [eauto|done]. Qed.

(** The specification of the result at hand. *)
Lemma wp_returns {A} (m : M P A) Q p w :
  wp m Q p w → wp m (λ a p' w', m p w = Ret (a, p', w') ∧ Q a p' w') p w.
Proof. unfold wp. by destruct (m p w) as [[[? ?] ?]|]. Qed.

Lemma wp_eq {A} (m : M P A) Q p w a p' w' :
  m p w = Ret (a, p', w') → wp m Q p w ↔ Q a p' w'.
Proof. unfold wp. by intros ->. Qed.
End wp_rules.

(** Take apart an equation [m p w = Ret _] step by step. *)
Ltac inv_ret H :=
  repeat match type of H with
  | (_ ≫= _) _ _ = Ret _ =>
      let a := fresh "a" in let p := fresh "p" in let w := fresh "w" in
      let E := fresh "E" in
      apply bind_inv in H as (a & p & w & E & H)
  end.

Create Rewrite HintDb wp.
#[export] Hint Rewrite @wp_ret @wp_bind @wp_load @wp_store @wp_Now @wp_self
  @wp_put @wp_update @wp_zoom : wp.
Ltac wp_simpl := repeat (autorewrite with wp; cbn beta).

#[export] Instance wext_preorder : PreOrder wext.
Proof.
  unfold wext. split; [done|]. intros a b c (-> & ? & ?) (-> & ? & ?).
  split_and!; [done|lia..].
Qed.

Lemma wext_tick w : wext w (tick w).
Proof. split_and!; cbn; [done|lia..]. Qed.

Lemma wext_set_heap h w : wext w (set_heap h w).
Proof. done. Qed.

#[export] Hint Resolve wext_tick wext_set_heap : cslb.

Lemma choosable_mono h x c t0 t1 t0' t1' :
  (t0' ≤ t0)%nat → (t1 ≤ t1')%nat → choosable h x c t0 t1 → choosable h x c t0' t1'.
Proof.
  intros ?? (? & ? & i & ? & ?). split_and!; [done..|]. exists i. split; [lia|done].
Qed.

Lemma unchoosable_mono h x c t0 t1 t0' t1' :
  (t0' ≤ t0)%nat → (t1 ≤ t1')%nat → unchoosable h x c t0 t1 → unchoosable h x c t0' t1'.
Proof.
  intros ?? [?|[?|(i & ? & ?)]]; [by left|by right; left|].
  right; right. exists i. split; [lia|done].
Qed.

#[export] Instance tuned_preorder : PreOrder tuned.
Proof.
  split.
  - intros pr. exists (currentWeight pr), (effectiveWeight pr).
    split; [by destruct pr|lia].
  - intros a b c (cw & ew & -> & ?) (cw' & ew' & -> & ?). cbn in *.
    exists cw', ew'. split; [done|lia].
Qed.

#[export] Instance htuned_preorder : PreOrder htuned.
Proof.
  split; [intros h q; reflexivity|].
  intros a b c H1 H2 q. etransitivity; [apply H1|apply H2].
Qed.

Lemma tuned_static pr pr' : tuned pr pr' → static pr' = static pr.
Proof. by intros (? & ? & -> & _). Qed.

Lemma tuned_conns pr pr' : tuned pr pr' → conns pr' = conns pr.
Proof. by intros (? & ? & -> & _). Qed.

Lemma tuned_fails pr pr' : tuned pr pr' → fails pr' = fails pr.
Proof. by intros (? & ? & -> & _). Qed.

Lemma tuned_checked pr pr' :
  tuned pr pr' → checked pr' = checked pr ∧ checkedSeq pr' = checkedSeq pr ∧
                 accessed pr' = accessed pr.
Proof. by intros (? & ? & -> & _). Qed.

Lemma tuned_ok pr pr' : tuned pr pr' → peer_ok pr → peer_ok pr'.
Proof. intros (? & ? & -> & ?) []. split; cbn; try done. lia. Qed.

Lemma committed_static pr pr' : committed pr pr' → static pr' = static pr.
Proof. by intros [->|[? ->]]. Qed.

Lemma committed_conns pr pr' : committed pr pr' → conns pr' = conns pr +! 1.
Proof. by intros [->|[? ->]]. Qed.

Lemma committed_ok pr pr' : committed pr pr' → peer_ok pr → peer_ok pr'.
Proof.
  intros [->|[? ->]] []; split; cbn; try done; apply wrap_int_range.
Qed.

Lemma tuned_set_weights pr cw ew :
  effectiveWeight pr <= ew <= Z.max (effectiveWeight pr) (Weight pr) →
  tuned pr (set_weights cw ew pr).
Proof. intros. by exists cw, ew. Qed.

(** A smooth weighted pass changes nothing the availability tests read. *)
Lemma tuned_failed_out pr pr' now :
  tuned pr pr' → failed_out pr' now = failed_out pr now.
Proof. by intros (? & ? & -> & _). Qed.

Lemma tuned_conns_full pr pr' : tuned pr pr' → conns_full pr' = conns_full pr.
Proof. by intros (? & ? & -> & _). Qed.

Lemma tuned_Down pr pr' : tuned pr pr' → Down pr' = Down pr.
Proof. by intros (? & ? & -> & _). Qed.

Lemma tuned_Weight pr pr' : tuned pr pr' → Weight pr' = Weight pr.
Proof. by intros (? & ? & -> & _). Qed.

Lemma tuned_Addr pr pr' : tuned pr pr' → Addr pr' = Addr pr.
Proof. by intros (? & ? & -> & _). Qed.

Lemma choosable_tuned h h' x c t0 t1 :
  htuned h h' → choosable h' x c t0 t1 → choosable h x c t0 t1.
Proof.
  intros Ht (Hd & Hc & i & Hi & Hf). specialize (Ht x).
  rewrite (tuned_Down _ _ Ht) in Hd. rewrite (tuned_conns_full _ _ Ht) in Hc.
  rewrite (tuned_failed_out _ _ _ Ht) in Hf. split_and!; [done..|eauto].
Qed.

Lemma unchoosable_tuned h h' x c t0 t1 :
  htuned h h' → unchoosable h' x c t0 t1 → unchoosable h x c t0 t1.
Proof.
  intros Ht. specialize (Ht x). unfold unchoosable.
  rewrite (tuned_Down _ _ Ht), (tuned_conns_full _ _ Ht).
  intros [?|[?|(i & Hi & Hf)]]; [by left|by right; left|].
  rewrite (tuned_failed_out _ _ _ Ht) in Hf. right; right. eauto.
Qed.

#[export] Hint Resolve tuned_static tuned_conns tuned_fails tuned_ok
  committed_static committed_conns committed_ok : cslb.

(** Reading a heap after a write. *)
Lemma heap_insert_eq (h : Heap) x pr : <[x := pr]> h !!! x = pr.
Proof. apply lookup_total_insert_eq. Qed.

Lemma heap_insert_ne (h : Heap) x y pr : x ≠ y → <[x := pr]> h !!! y = h !!! y.
Proof. apply lookup_total_insert_ne. Qed.

Lemma heap_insert (h : Heap) x y pr :
  <[x := pr]> h !!! y = if decide (x = y) then pr else h !!! y.
Proof. case_decide; subst; [apply heap_insert_eq|by apply heap_insert_ne]. Qed.

Lemma htuned_insert h x pr : tuned (h !!! x) pr → htuned h (<[x := pr]> h).
Proof. intros H q. rewrite heap_insert. case_decide; [by subst|reflexivity]. Qed.

Lemma hselected_conns x h h' q :
  hselected x h h' →
  conns (h' !!! q) = if decide (q = x) then conns (h !!! q) +! 1 else conns (h !!! q).
Proof.
  intros [(pr & Ht & Hc) Ho]. case_decide; subst; [|auto with cslb].
  rewrite (committed_conns _ _ Hc). by rewrite (tuned_conns _ _ Ht).
Qed.

Lemma hselected_static x h h' q :
  hselected x h h' → static (h' !!! q) = static (h !!! q).
Proof.
  intros [(pr & Ht & Hc) Ho]. destruct (decide (q = x)); subst; [|auto with cslb].
  rewrite (committed_static _ _ Hc). auto with cslb.
Qed.

Lemma hselected_ok x h h' q :
  hselected x h h' → peer_ok (h !!! q) → peer_ok (h' !!! q).
Proof.
  intros [(pr & Ht & Hc) Ho]. destruct (decide (q = x)); subst; eauto with cslb.
Qed.

Lemma htuned_selected h1 h2 h3 x :
  htuned h1 h2 → hselected x h2 h3 → hselected x h1 h3.
Proof.
  intros H1 [(pr & Ht & Hc) Ho]. split.
  - exists pr. split; [etransitivity; [apply H1|done]|done].
  - intros q Hq. etransitivity; [apply H1|auto].
Qed.

(** The projections of [static] used to carry facts across an operation. *)
Lemma static_fields pr pr' :
  static pr' = static pr →
  Addr pr' = Addr pr ∧ Weight pr' = Weight pr ∧ Down pr' = Down pr ∧
  MaxConns pr' = MaxConns pr ∧ MaxFails pr' = MaxFails pr ∧
  FailTimeout pr' = FailTimeout pr ∧ Backup pr' = Backup pr ∧
  explicit pr' = explicit pr.
Proof. unfold static. intros [=]. done. Qed.

(** ** init and BuildGroups *)

Lemma init_eq pr :
  init pr =
  let w := if Weight pr <=? 0 then 1 else Weight pr in
  MkPeer (Addr pr) w (Down pr) (MaxConns pr)
    (if (MaxFails pr =? 0) && negb (has (explicit pr) serverFieldMaxFails)
     then 1 else MaxFails pr)
    (if (FailTimeout pr =? 0) && negb (has (explicit pr) serverFieldFailTimeout)
     then 10 * Second else FailTimeout pr)
    (Backup pr) (explicit pr) 0 w (conns pr) (fails pr)
    (accessed pr) (checked pr) (checkedSeq pr).
Proof.
  destruct pr as [a W d mc mf ft b e cw ew c f ac ch sq]. cbv delta [init].
  cbn [Weight]. destruct (W <=? 0); cbn -[has Z.mul];
    destruct ((mf =? 0) && _); cbn -[has Z.mul];
    destruct ((ft =? 0) && _); reflexivity.
Qed.

Lemma init_keeps pr :
  Addr (init pr) = Addr pr ∧ Down (init pr) = Down pr ∧
  MaxConns (init pr) = MaxConns pr ∧ Backup (init pr) = Backup pr ∧
  explicit (init pr) = explicit pr ∧ conns (init pr) = conns pr ∧
  fails (init pr) = fails pr ∧ checked (init pr) = checked pr ∧
  accessed (init pr) = accessed pr.
Proof. by rewrite init_eq. Qed.

Lemma init_Backup pr : Backup (init pr) = Backup pr.
Proof. by rewrite init_eq. Qed.

Lemma init_weights pr :
  Weight (init pr) = (if Weight pr <=? 0 then 1 else Weight pr) ∧
  effectiveWeight (init pr) = Weight (init pr) ∧ currentWeight (init pr) = 0.
Proof. by rewrite init_eq. Qed.

Lemma init_idemp pr : init (init pr) = init pr.
Proof.
  rewrite !init_eq. cbn -[has Z.mul].
  assert ((if (if Weight pr <=? 0 then 1 else Weight pr) <=? 0 then 1
           else if Weight pr <=? 0 then 1 else Weight pr)
          = if Weight pr <=? 0 then 1 else Weight pr) as ->.
  { destruct (Z.leb_spec (Weight pr) 0); [done|]. by rewrite (proj2 (Z.leb_gt _ _)). }
  f_equal.
  - destruct ((MaxFails pr =? 0) && negb _) eqn:E; [done|by rewrite E].
  - destruct ((FailTimeout pr =? 0) && negb _) eqn:E; [done|by rewrite E].
Qed.

Lemma init_ok pr :
  is_int (Weight pr) → is_int (conns pr) → is_int (fails pr) → is_int (MaxFails pr) →
  peer_ok (init pr).
Proof.
  intros HW ???. destruct (init_weights pr) as (EW & EE & _).
  destruct (init_keeps pr) as (_ & _ & _ & _ & _ & Ec & Ef & _).
  assert (1 <= Weight (init pr) <= max_int).
  { rewrite EW. unfold is_int, max_int in *. case_match; lia. }
  split; rewrite ?EE, ?Ec, ?Ef; try done; [lia|].
  rewrite init_eq. cbn -[has is_int]. 
  destruct (_ && negb _); [unfold is_int, min_int, max_int; lia|done].
Qed.

Section BuildGroups_facts.
Implicit Types (h : Heap) (peers : list (option nat)).

Lemma heap_init_Backup h p q :
  Backup (<[p := init (h !!! p)]> h !!! q) = Backup (h !!! q).
Proof. rewrite heap_insert. case_decide; subst; [apply init_Backup|done]. Qed.

Lemma heap_init_init h p q :
  init (<[p := init (h !!! p)]> h !!! q) = init (h !!! q).
Proof. rewrite heap_insert. case_decide; subst; [apply init_idemp|done]. Qed.

Lemma group_peers_init h p bk peers :
  group_peers (<[p := init (h !!! p)]> h) bk peers = group_peers h bk peers.
Proof.
  unfold group_peers. apply list_filter_iff. intros q. by rewrite heap_init_Backup.
Qed.

Lemma init_weight_sum_init h p xs :
  init_weight_sum (<[p := init (h !!! p)]> h) xs = init_weight_sum h xs.
Proof.
  unfold init_weight_sum. induction xs as [|x xs IH]; cbn [foldr]; [done|].
  by rewrite heap_init_init, IH.
Qed.

Lemma group_ext_add h g g' p xs :
  group_ext h (group_add g p (Weight (init (h !!! p)))) g' xs →
  group_ext h g g' (p :: xs).
Proof.
  intros (HP & HT & HS). unfold group_add in *. cbn [Peers TotalWeight single] in *.
  split_and!; [| |done].
  - by rewrite HP, <-app_assoc.
  - rewrite HT. unfold int_add. rewrite wrap_int_add_l. f_equal.
    unfold init_weight_sum. cbn [foldr]. lia.
Qed.

Lemma heap_init_cons h p q peers :
  (if decide (Some q ∈ peers) then init (<[p := init (h !!! p)]> h !!! q)
   else <[p := init (h !!! p)]> h !!! q) =
  if decide (Some q ∈ Some p :: peers) then init (h !!! q) else h !!! q.
Proof.
  rewrite heap_init_init, heap_insert.
  destruct (decide (Some q ∈ Some p :: peers)) as [Hq|Hq];
    rewrite elem_of_cons in Hq; repeat case_decide; naive_solver.
Qed.

Lemma BuildGroups_loop_spec peers primary backup h :
  is_int (TotalWeight primary) → is_int (TotalWeight backup) →
  ∃ g1 g2 h', BuildGroups_loop peers primary backup h = (g1, g2, h') ∧
    group_ext h primary g1 (group_peers h false peers) ∧
    group_ext h backup g2 (group_peers h true peers) ∧
    ∀ q, h' !!! q = if decide (Some q ∈ peers) then init (h !!! q) else h !!! q.
Proof.
  revert primary backup h.
  induction peers as [|[p|] peers IH]; intros g1 g2 h H1 H2; cbn [BuildGroups_loop].
  - exists g1, g2, h. split; [done|].
    split; [|split]; [unfold group_ext; cbn; rewrite app_nil_r, Z.add_0_r..|].
    + by rewrite wrap_int_id.
    + by rewrite wrap_int_id.
    + intros q. case_decide as Hq; [by apply not_elem_of_nil in Hq|done].
  - rewrite heap_init_Backup, heap_insert_eq.
    unfold group_peers. cbn [omap list_omap id]. rewrite !filter_cons.
    destruct (Backup (h !!! p)) eqn:EB;
      (edestruct (IH) as (g1' & g2' & h' & -> & HP & HB & Hh);
       [..|exists g1', g2', h'; split; [done|]]);
      [apply H1|apply wrap_int_range| |apply wrap_int_range|apply H2|];
      rewrite !group_peers_init in *;
      unfold group_ext in HP, HB; rewrite !init_weight_sum_init in *.
    all: rewrite ?decide_True, ?decide_False by done.
    all: split_and!; [..|intros q; rewrite Hh; apply heap_init_cons].
    all: try done; by apply group_ext_add.
  - destruct (IH g1 g2 h H1 H2) as (g1' & g2' & h' & -> & HP & HB & Hh).
    exists g1', g2', h'. split_and!; [done..|]. intros q. rewrite Hh.
    apply decide_ext. rewrite elem_of_cons. naive_solver.
Qed.
End BuildGroups_facts.

(** The outcome of [BuildGroups], field by field. *)
Lemma BuildGroups_facts peers h :
  ∃ g b h', BuildGroups peers h = (g, b, h') ∧
    Peers g = group_peers h false peers ∧
    TotalWeight g = wrap_int (init_weight_sum h (Peers g)) ∧
    single g = match b with None => (length (Peers g) =? 1)%nat | Some _ => false end ∧
    match b with
    | None => group_peers h true peers = []
    | Some bg => Peers bg = group_peers h true peers ∧ Peers bg ≠ [] ∧
        TotalWeight bg = wrap_int (init_weight_sum h (Peers bg)) ∧ single bg = false
    end ∧
    ∀ q, h' !!! q = if decide (Some q ∈ peers) then init (h !!! q) else h !!! q.
Proof.
  unfold BuildGroups.
  destruct (BuildGroups_loop_spec peers (MkGroup [] 0 false) (MkGroup [] 0 false) h)
    as (g1 & g2 & h' & -> & (HP1 & HT1 & HS1) & (HP2 & HT2 & HS2) & Hh);
    [unfold is_int, min_int, max_int; cbn; lia..|].
  cbn [Peers TotalWeight single app] in *. rewrite Z.add_0_l in *.
  destruct (Nat.eqb_spec (length (Peers g2)) 0) as [E|E].
  - eexists _, None, h'. split; [done|]. cbn [Peers TotalWeight single].
    split_and!; [done|by rewrite HT1, HP1|done| |done].
    rewrite <-HP2. by apply length_zero_iff_nil.
  - exists g1, (Some g2), h'.
    split_and!; [done|done|by rewrite HT1, HP1|done|done| |by rewrite HT2, HP2|done|done].
    intros Hn. by rewrite Hn in E.
Qed.

Lemma elem_of_group_peers (h : Heap) bk peers x :
  x ∈ group_peers h bk peers ↔ Some x ∈ peers ∧ Backup (h !!! x) = bk.
Proof.
  unfold group_peers. rewrite list_elem_of_filter, list_elem_of_omap.
  naive_solver.
Qed.

Lemma init_weight_sum_after (peers : list (option nat)) (h h' : Heap) (xs : list nat) :
  (∀ q, h' !!! q = if decide (Some q ∈ peers) then init (h !!! q) else h !!! q) →
  (∀ x, x ∈ xs → Some x ∈ peers) →
  init_weight_sum h xs = sum_weights h' xs.
Proof.
  intros Hh. unfold init_weight_sum, sum_weights.
  induction xs as [|x xs IH]; cbn [foldr]; intros Hx; [done|].
  rewrite Hh, decide_True, IH by (intros; apply Hx; set_solver). done.
Qed.

(** [BuildGroups] drops the nil pointers and splits the rest, in order, by
    their Backup flag; the total weight of a group is the machine sum of the
    weights after [init]; the single-peer fast path is on exactly for one
    primary peer without backups; peers not in the list are untouched and the
    listed ones are initialised once, even when a pointer occurs twice. *)
Theorem BuildGroups_partition (peers : list (option PeerId)) (h : Heap) :
  ∃ g b h', BuildGroups peers h = (g, b, h') ∧
    Peers g = group_peers h false peers ∧
    match b with
    | Some bg => Peers bg = group_peers h true peers ∧ Peers bg ≠ [] ∧
        TotalWeight bg = wrap_int (sum_weights h' (Peers bg)) ∧ single bg = false
    | None => group_peers h true peers = []
    end ∧
    TotalWeight g = wrap_int (sum_weights h' (Peers g)) ∧
    (single g = true ↔ b = None ∧ length (Peers g) = 1%nat) ∧
    ∀ q, h' !!! q = if decide (Some q ∈ peers) then init (h !!! q) else h !!! q.
Proof.
  destruct (BuildGroups_facts peers h) as (g & b & h' & E & HP & HT & HS & HB & Hh).
  exists g, b, h'. split_and!; [done|done| | | |done].
  - destruct b as [bg|]; [|done]. destruct HB as (HP2 & ? & HT2 & ?).
    split_and!; [done|done| |done]. rewrite HT2. f_equal.
    apply (init_weight_sum_after peers); [done|]. rewrite HP2.
    intros x Hx. by apply elem_of_group_peers in Hx as [? _].
  - rewrite HT. f_equal. apply (init_weight_sum_after peers); [done|]. rewrite HP.
    intros x Hx. by apply elem_of_group_peers in Hx as [? _].
  - rewrite HS. destruct b; [split; [done|by intros [? _]]|].
    rewrite Nat.eqb_eq. naive_solver.
Qed.
