(* ===== verification/RoundRobin.v ===== *)
(** * Round-robin: balancer, per-request picker, release (roundrobin.go)

    [RRPicker] is the per-request state every algorithm embeds.  Its
    operations run in [M RRPicker]; the critical section of a group's mutex is
    one application of such an operation. *)

From S2P Require Import Prelude GoLib Peer.
#[local] Open Scope Z_scope.
#[local] Open Scope go_scope.

(** ** Definitions *)

Record RoundRobin := MkRoundRobin {
  rr_primary : PeerGroup;
  rr_backup : option PeerGroup;
}.

Definition NewRoundRobin (peers : list (option PeerId)) (h : Heap) : RoundRobin * Heap :=
  let '(primary, backup, h) := BuildGroups peers h in
  (MkRoundRobin primary backup, h).

Record probeCheck := MkProbe { prior : Time; seq : Z }.

Record RRPicker := MkRRPicker {
  primary : PeerGroup;
  backup : option PeerGroup;
  tried : gset nat;
  backupPhase : bool;
  probeChecked : gmap nat probeCheck;  (* a nil Go map reads as the empty one *)
}.

Definition NewRRPicker (primary : PeerGroup) (backup : option PeerGroup) : RRPicker :=
  MkRRPicker primary backup ∅ false ∅.

Definition NewPicker (rr : RoundRobin) : RRPicker :=
  NewRRPicker (rr_primary rr) (rr_backup rr).

Definition set_tried (t : gset nat) (rr : RRPicker) : RRPicker :=
  MkRRPicker (primary rr) (backup rr) t (backupPhase rr) (probeChecked rr).
Definition set_probes (m : gmap nat probeCheck) (rr : RRPicker) : RRPicker :=
  MkRRPicker (primary rr) (backup rr) (tried rr) (backupPhase rr) m.
Definition enter_backup (rr : RRPicker) : RRPicker :=
  MkRRPicker (primary rr) (backup rr) (tried rr) true (probeChecked rr).

Definition Tried (p : PeerId) (rr : RRPicker) : bool := bool_decide (p ∈ tried rr).
Definition SetTried (p : PeerId) : M RRPicker unit :=
  update (λ rr, set_tried ({[p]} ∪ tried rr) rr).

(** [smoothWeightedPeer]: one pass over the eligible peers, then the winner
    pays the total.  [bump] is what the pass does to an eligible peer,
    [better] the comparison with the best peer so far. *)
Definition bump (p : Peer) : Peer :=
  let p := set_currentWeight (currentWeight p +! effectiveWeight p) p in
  if effectiveWeight p <? Weight p
  then set_effectiveWeight (effectiveWeight p +! 1) p else p.

Definition better {P} (best : option PeerId) (peer : PeerId) : M P bool :=
  match best with
  | None => mret true
  | Some b =>
      br ← load b;
      pr ← load peer;
      mret (currentWeight br <? currentWeight pr)
  end.

Fixpoint smooth_loop {P} (peers : list PeerId) (eligible : PeerId → M P bool)
    (best : option PeerId) (total : Z) : M P (option PeerId * Z) :=
  match peers with
  | [] => mret (best, total)
  | peer :: rest =>
      ok ← eligible peer;
      if negb ok then smooth_loop rest eligible best total else
      pr ← load peer;
      store peer bump;;
      (is_better ← better best peer;
       smooth_loop rest eligible (if is_better : bool then Some peer else best)
         (total +! effectiveWeight pr))
  end.

Definition smoothWeightedPeer {P} (peers : list PeerId) (eligible : PeerId → M P bool)
    : M P (option PeerId) :=
  r ← smooth_loop peers eligible None 0;
  let '(best, total) := r in
  match best with
  | Some b =>
      store b (λ p, set_currentWeight (currentWeight p -! total) p);;
      mret (Some b)
  | None => mret None
  end.

Definition commitPeer (peer : PeerId) (now : Time) : M RRPicker PeerId :=
  pr ← load peer;
  (if FailTimeout pr <? time_Sub now (checked pr) then
     let prior := checked pr in
     store peer (setChecked now);;
     (pr ← load peer;
     update (λ rr, set_probes
       (<[peer := MkProbe prior (checkedSeq pr)]> (probeChecked rr)) rr))
   else mret tt);;
  store peer (λ p, set_conns (conns p +! 1) p);;
  SetTried peer;;
  mret peer.

(** The eligibility test of [pickFromGroup]. *)
Definition rr_eligible (now : Time) (peer : PeerId) : M RRPicker bool :=
  rr ← self;
  if Tried peer rr then mret false else
  pr ← load peer;
  if Down pr then mret false else
  if failed_out pr now then mret false else
  if conns_full pr then mret false else
  mret true.

Definition pickFromGroup (group : PeerGroup) : M RRPicker (option PeerId) :=
  if single group then
    peer ← index (Peers group) 0;
    rr ← self;
    pr ← load peer;
    if Tried peer rr || Down pr || conns_full pr then mret None else
    store peer (λ p, set_conns (conns p +! 1) p);;
    SetTried peer;;
    mret (Some peer)
  else
    now ← Now;
    best ← smoothWeightedPeer (Peers group) (rr_eligible now);
    match best with
    | None => mret None
    | Some b => p ← commitPeer b now; mret (Some p)
    end.

Definition pickFromCurrentGroup (group : PeerGroup)
    (pick : PeerGroup → M RRPicker (option PeerId)) : M RRPicker (option PeerId) :=
  if single group then pickFromGroup group else pick group.

Definition backupGroupForPick : M RRPicker (option PeerGroup) :=
  rr ← self;
  match backup rr with
  | None => mret None
  | Some b =>
      if (length (Peers b) =? 0)%nat then mret None else
      (if negb (backupPhase rr)
       then update (λ rr, set_tried (tried rr ∖ list_to_set (Peers b)) (enter_backup rr))
       else mret tt);;
      mret (Some b)
  end.

Definition pickWithBackup (pick : PeerGroup → M RRPicker (option PeerId))
    : M RRPicker (option PeerId) :=
  rr ← self;
  p ← (if negb (backupPhase rr) then pickFromCurrentGroup (primary rr) pick
       else mret None);
  match p with
  | Some x => mret (Some x)
  | None =>
      group ← backupGroupForPick;
      match group with
      | Some g => pickFromCurrentGroup g pick
      | None => mret None
      end
  end.

Definition Pick : M RRPicker (option PeerId) := pickWithBackup pickFromGroup.

(** [done]: the three kinds of release.  [done_group] is the group that owns a
    peer, [fail_peer] and [succeed_peer] what an outcome does to it. *)
Definition done_group (rr : RRPicker) (pr : Peer) : PeerGroup :=
  if Backup pr
  then match backup rr with Some b => b | None => primary rr end
  else primary rr.

Definition fail_peer (now : Time) (p : Peer) : Peer :=
  let p := set_fails (fails p +! 1) p in
  let p := set_accessed now p in
  let p := setChecked now p in
  let p := if 0 <? MaxFails p
           then set_effectiveWeight (effectiveWeight p -! (Weight p /! MaxFails p)) p
           else p in
  if effectiveWeight p <? 0 then set_effectiveWeight 0 p else p.

Definition succeed_peer (p : Peer) : Peer :=
  if time_Before (accessed p) (checked p) then set_fails 0 p else p.

Definition done (peer : option PeerId) (failed neutral : bool) : M RRPicker unit :=
  match peer with
  | None => mret tt
  | Some peer =>
      rr ← self;
      pr ← load peer;
      if single (done_group rr pr) then
        store peer (set_fails 0);;
        store peer (λ p, set_conns (conns p -! 1) p)
      else if neutral then
        (match probeChecked rr !! peer with
         | Some probe =>
             (if checkedSeq pr =? seq probe
              then store peer (setChecked (prior probe)) else mret tt);;
             update (λ rr, set_probes (delete peer (probeChecked rr)) rr)
         | None => mret tt
         end);;
        store peer (λ p, set_conns (conns p -! 1) p)
      else
        now ← Now;
        store peer (if failed then fail_peer now else succeed_peer);;
        store peer (λ p, set_conns (conns p -! 1) p)
  end.

Definition Done (peer : option PeerId) (failed : bool) : M RRPicker unit :=
  done peer failed false.
Definition doneNeutral (peer : option PeerId) : M RRPicker unit :=
  done peer false true.

(** ** Invariants and specifications *)

(** What a critical section promises about the picker: the groups stay, the
    chosen peer is recorded as tried, and a selection that advanced [checked]
    is recorded as a probe. *)
Definition same_groups (rr rr' : RRPicker) : Prop :=
  primary rr' = primary rr ∧ backup rr' = backup rr.

Definition probe_rel (x : PeerId) (rr rr' : RRPicker) (pr pr' : Peer) : Prop :=
  (probeChecked rr' = probeChecked rr ∧ checked pr' = checked pr ∧
   checkedSeq pr' = checkedSeq pr) ∨
  (checkedSeq pr' = wrap_u64 (checkedSeq pr + 1) ∧
   FailTimeout pr < time_Sub (checked pr') (checked pr) ∧
   probeChecked rr' =
     <[x := MkProbe (checked pr) (checkedSeq pr')]> (probeChecked rr)).

Definition cs_post (members : list PeerId) (rr : RRPicker) (w : World)
    (r : option PeerId) (rr' : RRPicker) (w' : World) : Prop :=
  wext w w' ∧
  match r with
  | None => rr' = rr ∧ htuned (heap w) (heap w')
  | Some x =>
      same_groups rr rr' ∧ backupPhase rr' = backupPhase rr ∧
      x ∈ members ∧ x ∉ tried rr ∧ tried rr' = ({[x]} ∪ tried rr) ∧
      hselected x (heap w) (heap w') ∧
      probe_rel x rr rr' (heap w !!! x) (heap w' !!! x) ∧
      Down (heap w !!! x) = false ∧ conns_full (heap w !!! x) = false
  end.

(** The precise outcome in a group with several peers: a chosen peer was not
    failed out, and without one every member was tried or unavailable. *)
Definition cs_exact (members : list PeerId) (rr : RRPicker) (w : World)
    (r : option PeerId) (w' : World) : Prop :=
  match r with
  | None => ∀ x, x ∈ members → x ∈ tried rr ∨
      unchoosable (heap w) x (clock w) (ticks w) (ticks w')
  | Some x => choosable (heap w) x (clock w) (ticks w) (ticks w')
  end.

(** The groups of a picker, as [BuildGroups] makes them: the single-peer fast
    path only without backups, the backup flag telling the groups apart. *)
Record groups_wf (g : PeerGroup) (b : option PeerGroup) (h : Heap) : Prop := {
  gw_single : single g = true → b = None ∧ ∃ x, Peers g = [x];
  gw_primary : ∀ x, x ∈ Peers g → Backup (h !!! x) = false;
  gw_primary_ok : heap_ok h (Peers g);
  gw_backup_single : ∀ bg, b = Some bg → single bg = false;
  gw_backup : ∀ bg x, b = Some bg → x ∈ Peers bg → Backup (h !!! x) = true;
  gw_backup_ok : ∀ bg, b = Some bg → heap_ok h (Peers bg);
}.

Definition rr_wf (rr : RRPicker) (h : Heap) : Prop :=
  groups_wf (primary rr) (backup rr) h.

Definition backup_members (rr : RRPicker) : list PeerId :=
  match backup rr with Some b => Peers b | None => [] end.

(** The tried set a selection starts from: entering the backup phase forgets
    the backup peers. *)
Definition base_tried (rr rr' : RRPicker) : gset nat :=
  if backupPhase rr' && negb (backupPhase rr)
  then tried rr ∖ list_to_set (backup_members rr) else tried rr.

(** ** The contract of [Pick]

    What one call promises about the peers and the picker, whatever the
    algorithm. *)
Record pick_post (rr : RRPicker) (w : World) (r : option PeerId)
    (rr' : RRPicker) (w' : World) : Prop := {
  pp_wext : wext w w';
  pp_groups : same_groups rr rr';
  pp_phase : backupPhase rr = true → backupPhase rr' = true;
  pp_result :
    match r with
    | None => htuned (heap w) (heap w') ∧ tried rr' = base_tried rr rr'
    | Some x =>
        (x ∈ Peers (primary rr) ∨ backupPhase rr' = true ∧ x ∈ backup_members rr) ∧
        x ∉ base_tried rr rr' ∧
        tried rr' = ({[x]} ∪ base_tried rr rr') ∧
        hselected x (heap w) (heap w') ∧
        probe_rel x rr rr' (heap w !!! x) (heap w' !!! x) ∧
        Down (heap w !!! x) = false ∧ conns_full (heap w !!! x) = false
    end;
}.

(** All the members of a list were tried before or are unavailable. *)
Definition exhausted (xs : list PeerId) (t : gset nat) (w w' : World) : Prop :=
  ∀ x, x ∈ xs → x ∈ t ∨ unchoosable (heap w) x (clock w) (ticks w) (ticks w').

(** When [Pick] gives up, and when it enters the backup phase. *)
Record pick_exact (rr : RRPicker) (w : World) (r : option PeerId)
    (rr' : RRPicker) (w' : World) : Prop := {
  pe_none : r = None →
    (backupPhase rr = false → exhausted (Peers (primary rr)) (tried rr) w w') ∧
    exhausted (backup_members rr) (base_tried rr rr') w w';
  pe_some : ∀ x, r = Some x → single (primary rr) = false →
    choosable (heap w) x (clock w) (ticks w) (ticks w');
  pe_backup : ∀ x, r = Some x → backupPhase rr' = true → backupPhase rr = false →
    exhausted (Peers (primary rr)) (tried rr) w w';
}.

(** What a release does: one connection less on the peer, its configuration
    and the other peers untouched. *)
Definition released (x : PeerId) (h h' : Heap) : Prop :=
  static (h' !!! x) = static (h !!! x) ∧
  conns (h' !!! x) = conns (h !!! x) -! 1 ∧
  ∀ q, q ≠ x → h' !!! q = h !!! q.

(** ** Smooth weighted selection: what any use of it guarantees *)

Lemma bump_eq pr :
  bump pr = set_weights (currentWeight pr +! effectiveWeight pr)
    (if effectiveWeight pr <? Weight pr then effectiveWeight pr +! 1
     else effectiveWeight pr) pr.
Proof. unfold bump. cbn. by destruct (_ <? _). Qed.

Lemma bump_tuned pr : peer_ok pr → tuned pr (bump pr).
Proof.
  intros []. rewrite bump_eq. apply tuned_set_weights.
  destruct (Z.ltb_spec (effectiveWeight pr) (Weight pr)); [|lia]. int_lia.
Qed.

Section smooth_sound.
Context {P : Type} (p0 : P) (h0 : Heap) (w0 : World).
Context (peers : list nat) (eligible : nat → M P bool).
Context (E N : nat → nat → Prop).
Hypothesis E_mono : ∀ x t t', (t ≤ t')%nat → E x t → E x t'.
Hypothesis N_mono : ∀ x t t', (t ≤ t')%nat → N x t → N x t'.
Hypothesis peers_ok : heap_ok h0 peers.
Hypothesis eligible_spec : ∀ x w,
  x ∈ peers → wext w0 w → htuned h0 (heap w) →
  wp (eligible x) (λ b p' w', p' = p0 ∧ heap w' = heap w ∧ wext w w' ∧
    if b then E x (ticks w') else N x (ticks w')) p0 w.

Lemma smooth_loop_sound xs best total w :
  xs ⊆ peers → wext w0 w → htuned h0 (heap w) →
  wp (smooth_loop xs eligible best total)
     (λ r p' w', p' = p0 ∧ wext w w' ∧ htuned h0 (heap w') ∧
        match r.1 with
        | Some x => best = Some x ∨ x ∈ xs ∧ E x (ticks w')
        | None => best = None ∧ ∀ x, x ∈ xs → N x (ticks w')
        end) p0 w.
Proof.
  revert best total w. induction xs as [|x xs IH]; intros best total w Hxs Hw Hh.
  { cbn [smooth_loop]. wp_simpl. split_and!; [done..|].
    destruct best; cbn; [by left|]. split; [done|]. set_solver. }
  cbn [smooth_loop]. wp_simpl.
  eapply wp_mono; [apply eligible_spec; [set_solver|done|done]|].
  intros ok p' w' (-> & Hh' & Hext & HE).
  assert (wext w0 w') as Hw' by (by rewrite Hw).
  assert (∀ best' total' w2, wext w' w2 → htuned h0 (heap w2) →
    best' = Some x ∧ ok = true ∨ best' = best ∧ (best ≠ None ∨ ok = false) →
    wp (smooth_loop xs eligible best' total')
       (λ r p' w', p' = p0 ∧ wext w w' ∧ htuned h0 (heap w') ∧
          match r.1 with
          | Some y => best = Some y ∨ y ∈ x :: xs ∧ E y (ticks w')
          | None => best = None ∧ ∀ y, y ∈ x :: xs → N y (ticks w')
          end) p0 w2) as Hrec.
  { intros best' total' w2 Hw2 Hh2 Hb. eapply wp_mono.
    - apply IH; [set_solver|by rewrite Hw'|done].
    - intros [r t] p3 w3 (-> & Hw3 & Hh3 & Hr). cbn in *.
      assert (ticks w' ≤ ticks w3)%nat by (transitivity (ticks w2); apply Hw2 || apply Hw3).
      split_and!; [done|by rewrite Hext, Hw2|done|].
      destruct r as [y|].
      + destruct Hr as [->|[? ?]]; [|right; split; [set_solver|done]].
        destruct Hb as [[Hb ->]|[<- _]]; [|by left].
        injection Hb as <-. right. split; [set_solver|]. by eapply E_mono.
      + destruct Hr as [-> Hr], Hb as [[? _]|[? [?|?]]]; [congruence..|]. subst.
        split; [done|]. intros y [->|?]%elem_of_cons; [by eapply N_mono|auto]. }
  destruct ok; cbn [negb].
  - wp_simpl.
    set (w2 := set_heap _ w').
    assert (htuned h0 (heap w2)) as Hh2.
    { etransitivity; [exact Hh|]. rewrite <-Hh'. apply htuned_insert, bump_tuned.
      rewrite Hh'. eapply tuned_ok; [apply Hh|]. apply peers_ok. set_solver. }
    unfold better. destruct best as [b|]; wp_simpl.
    + apply Hrec; [done|done|]. case_match; [by left|right]. split; [done|by left].
    + apply Hrec; [done|done|]. by left.
  - apply Hrec; [done|by rewrite Hh'|]. right. split; [done|by right].
Qed.

Lemma smoothWeightedPeer_sound w :
  wext w0 w → htuned h0 (heap w) →
  wp (smoothWeightedPeer peers eligible)
     (λ r p' w', p' = p0 ∧ wext w w' ∧ htuned h0 (heap w') ∧
        match r with
        | Some x => x ∈ peers ∧ E x (ticks w')
        | None => ∀ x, x ∈ peers → N x (ticks w')
        end) p0 w.
Proof.
  intros Hw Hh. unfold smoothWeightedPeer. wp_simpl.
  eapply wp_mono; [by apply smooth_loop_sound|].
  intros [[b|] total] p' w' (-> & Hext & Hh' & Hr); cbn in Hr; wp_simpl.
  - destruct Hr as [|[? ?]]; [done|]. split_and!; [done|done| |done|done].
    etransitivity; [exact Hh'|]. apply htuned_insert.
    unfold set_currentWeight. apply tuned_set_weights. lia.
  - by destruct Hr as [_ Hr].
Qed.
End smooth_sound.

(** ** Committing a selection *)

Lemma commitPeer_spec x now rr w :
  wp (commitPeer x now) (λ r rr' w',
    r = x ∧ wext w w' ∧ same_groups rr rr' ∧ backupPhase rr' = backupPhase rr ∧
    tried rr' = ({[x]} ∪ tried rr) ∧
    committed (heap w !!! x) (heap w' !!! x) ∧
    (∀ q, q ≠ x → heap w' !!! q = heap w !!! q) ∧
    probe_rel x rr rr' (heap w !!! x) (heap w' !!! x)) rr w.
Proof.
  unfold commitPeer, SetTried. wp_simpl.
  destruct (Z.ltb_spec (FailTimeout (heap w !!! x)) (time_Sub now (checked (heap w !!! x))));
    wp_simpl; unfold set_heap; cbn [heap]; rewrite ?heap_insert_eq.
  - split_and!; try done.
    + right. by exists now.
    + intros q Hq. by rewrite !heap_insert_ne.
    + by right.
  - split_and!; try done.
    + by left.
    + intros q Hq. by rewrite heap_insert_ne.
    + by left.
Qed.

Lemma committed_selected h h1 h2 x :
  htuned h h1 → committed (h1 !!! x) (h2 !!! x) →
  (∀ q, q ≠ x → h2 !!! q = h1 !!! q) → hselected x h h2.
Proof.
  intros Ht Hc Ho. split; [by exists (h1 !!! x)|].
  intros q Hq. rewrite (Ho q Hq). apply Ht.
Qed.

Lemma probe_rel_tuned x rr rr' pr1 pr2 pr3 :
  tuned pr1 pr2 → probe_rel x rr rr' pr2 pr3 → probe_rel x rr rr' pr1 pr3.
Proof.
  intros (cw & ew & -> & _). unfold probe_rel. by cbn.
Qed.

(** Committing after a smooth pass that found [x] choosable: the shape all the
    algorithms end their critical section with. *)
Lemma commit_post members x now rr w w1 :
  wext w w1 → htuned (heap w) (heap w1) → x ∈ members → x ∉ tried rr →
  choosable (heap w) x (clock w) (ticks w) (ticks w1) →
  wp (commitPeer x now) (λ r rr' w', r = x ∧
    cs_post members rr w (Some x) rr' w' ∧ cs_exact members rr w (Some x) w') rr w1.
Proof.
  intros Hw Ht Hx Hn Hc. eapply wp_mono; [apply commitPeer_spec|].
  intros r rr' w' (-> & Hw' & Hg & Hb & Htr & Hcm & Ho & Hp).
  split; [done|]. split.
  - pose proof Hc as (? & ? & _). split; [by rewrite Hw|].
    split_and!; try done; [by apply Hg..|by eapply committed_selected|].
    eapply probe_rel_tuned; [apply Ht|done].
  - eapply choosable_mono; [..|exact Hc]; [done|apply Hw'].
Qed.

(** ** Selection in one group *)

Section pick_group.
Context (group : PeerGroup).

Lemma rr_eligible_spec rr now i w0 w x :
  clock w0 i = now → (ticks w0 ≤ i < ticks w)%nat → wext w0 w →
  htuned (heap w0) (heap w) →
  wp (rr_eligible now x) (λ b rr' w', rr' = rr ∧ heap w' = heap w ∧ wext w w' ∧
    if b then x ∉ tried rr ∧ choosable (heap w0) x (clock w0) (ticks w0) (ticks w')
    else x ∈ tried rr ∨
         unchoosable (heap w0) x (clock w0) (ticks w0) (ticks w')) rr w.
Proof.
  intros Hnow Hi Hw Ht. unfold rr_eligible. wp_simpl. unfold Tried.
  specialize (Ht x).
  case_bool_decide; wp_simpl; [split_and!; by auto|].
  rewrite (tuned_Down _ _ Ht), (tuned_failed_out _ _ _ Ht), (tuned_conns_full _ _ Ht).
  destruct (Down _) eqn:ED; wp_simpl; [split_and!; try done; right; by left|].
  destruct (failed_out _ _) eqn:EF; wp_simpl.
  { split_and!; try done. right; right; right. exists i. by rewrite Hnow. }
  destruct (conns_full _) eqn:EC; wp_simpl.
  { split_and!; try done. right; right; by left. }
  split_and!; try done. split_and!; try done. exists i. by rewrite Hnow.
Qed.

Lemma pickFromGroup_spec rr w :
  single group = false → heap_ok (heap w) (Peers group) →
  wp (pickFromGroup group) (λ r rr' w',
    cs_post (Peers group) rr w r rr' w' ∧ cs_exact (Peers group) rr w r w') rr w.
Proof.
  intros Hs Hok. unfold pickFromGroup. rewrite Hs. wp_simpl.
  eapply wp_mono.
  { eapply (smoothWeightedPeer_sound rr (heap w) (tick w) (Peers group) _
      (λ x t, x ∉ tried rr ∧ choosable (heap w) x (clock w) (ticks w) t)
      (λ x t, x ∈ tried rr ∨ unchoosable (heap w) x (clock w) (ticks w) t));
      [| |done| |done|reflexivity].
    - intros x t t' ? [? ?]. split; [done|].
      by apply (choosable_mono _ _ _ (ticks w) t).
    - intros x t t' ? [?|?]; [by left|right].
      by apply (unchoosable_mono _ _ _ (ticks w) t).
    - intros x w1 Hx Hw1 Hh1. eapply rr_eligible_spec;
        [done| |by rewrite <-wext_tick in Hw1|done].
      destruct Hw1 as (_ & ? & _). cbn in *. lia. }
  intros r rr' w' (-> & Hw & Hh & Hr). assert (wext w w') by (by rewrite <-wext_tick in Hw).
  destruct r as [x|].
  - destruct Hr as (Hx & Hn & Hc). wp_simpl.
    eapply wp_mono; [by apply commit_post|]. intros r rr'' w'' (-> & ?). by wp_simpl.
  - by wp_simpl.
Qed.

(** The single-peer fast path: no clock, no failure accounting. *)
Lemma pickFromGroup_single rr w x :
  single group = true → Peers group = [x] →
  wp (pickFromGroup group) (λ r rr' w',
    cs_post (Peers group) rr w r rr' w' ∧
    (r = None ↔ x ∈ tried rr ∨ Down (heap w !!! x) = true ∨
                conns_full (heap w !!! x) = true)) rr w.
Proof.
  intros Hs HP. unfold pickFromGroup. rewrite Hs, HP. wp_simpl.
  apply wp_index with (a := x); [done|]. wp_simpl. unfold Tried, SetTried.
  case_bool_decide; cbn [orb]; wp_simpl.
  { split; [by split|]. split; [by left|done]. }
  destruct (Down _) eqn:ED; cbn [orb]; wp_simpl.
  { split; [by split|]. split; [by auto|done]. }
  destruct (conns_full _) eqn:EC; wp_simpl.
  { split; [by split|]. split; [by auto|done]. }
  split; [|by naive_solver].
  split; [done|]. unfold set_heap; cbn [heap]. split_and!; try done.
  - by left.
  - split; [exists (heap w !!! x); split; [reflexivity|left]|].
    + by rewrite heap_insert_eq.
    + intros q Hq. by rewrite heap_insert_ne.
  - left. by rewrite heap_insert_eq.
Qed.
End pick_group.

(** ** Selection over the primary and the backup group *)

Lemma groups_wf_mono g b h h' :
  (∀ q, static (h' !!! q) = static (h !!! q)) →
  (∀ q, peer_ok (h !!! q) → peer_ok (h' !!! q)) →
  groups_wf g b h → groups_wf g b h'.
Proof.
  intros Hs Ho []. assert (∀ q, Backup (h' !!! q) = Backup (h !!! q)) as HB.
  { intros q. apply (static_fields _ _ (Hs q)). }
  split; try done; intros; rewrite ?HB; eauto; unfold heap_ok in *; eauto.
Qed.

Lemma groups_wf_tuned g b h h' : htuned h h' → groups_wf g b h → groups_wf g b h'.
Proof. intros Ht. apply groups_wf_mono; intros q; specialize (Ht q); eauto with cslb. Qed.

Lemma groups_wf_selected g b h h' x :
  hselected x h h' → groups_wf g b h → groups_wf g b h'.
Proof.
  intros Ht. apply groups_wf_mono; intros q.
  - by eapply hselected_static.
  - by eapply hselected_ok.
Qed.

Section pick_with_backup.
Context (pick : PeerGroup → M RRPicker (option PeerId)).
Hypothesis pick_spec : ∀ group rr w,
  single group = false → heap_ok (heap w) (Peers group) →
  wp (pick group) (λ r rr' w',
    cs_post (Peers group) rr w r rr' w' ∧ cs_exact (Peers group) rr w r w') rr w.

Definition current_post (g : PeerGroup) (rr : RRPicker) (w : World)
    (r : option PeerId) (rr' : RRPicker) (w' : World) : Prop :=
  cs_post (Peers g) rr w r rr' w' ∧
  (r = None → exhausted (Peers g) (tried rr) w w') ∧
  (∀ x, r = Some x → single g = false →
    choosable (heap w) x (clock w) (ticks w) (ticks w')).

Lemma pickFromCurrentGroup_spec g rr w :
  (single g = true → ∃ x, Peers g = [x]) → heap_ok (heap w) (Peers g) →
  wp (pickFromCurrentGroup g pick) (current_post g rr w) rr w.
Proof.
  intros Hs Hok. unfold pickFromCurrentGroup. destruct (single g) eqn:Es.
  - destruct (Hs eq_refl) as [x Hx].
    eapply wp_mono; [by apply (pickFromGroup_single g rr w x)|].
    intros r rr' w' (Hp & Hr). split_and!; [done| |intros; congruence].
    intros Hn y. rewrite Hx. intros ->%list_elem_of_singleton.
    apply Hr in Hn as [?|[?|?]]; [by left|right..]; [by left|by right; left].
  - eapply wp_mono; [by apply pick_spec|].
    intros r rr' w' (Hp & He). split_and!; [done|by intros ->|by intros ? ->].
Qed.

Lemma exhausted_weaken xs t w w1 w2 w3 :
  wext w w1 → htuned (heap w) (heap w1) → wext w2 w3 →
  exhausted xs t w1 w2 → exhausted xs t w w3.
Proof.
  intros (Hc & Ht & _) Hh (_ & Ht' & _) H x Hx.
  destruct (H x Hx) as [?|Hu]; [by left|right].
  eapply unchoosable_tuned; [exact Hh|]. rewrite <-Hc. by eapply unchoosable_mono.
Qed.

Lemma backupGroupForPick_spec rr w :
  wp backupGroupForPick (λ g rr' w', w' = w ∧ same_groups rr rr' ∧
    probeChecked rr' = probeChecked rr ∧
    match g with
    | None => rr' = rr ∧ backup_members rr = []
    | Some b => backup rr = Some b ∧ backupPhase rr' = true ∧
        tried rr' = base_tried rr rr'
    end) rr w.
Proof.
  unfold backupGroupForPick, base_tried, backup_members. wp_simpl.
  destruct (backup rr) as [b|] eqn:Eb; wp_simpl; [|by split_and!].
  destruct (Nat.eqb_spec (length (Peers b)) 0) as [El|]; wp_simpl.
  { split_and!; try done. by apply length_zero_iff_nil. }
  destruct (backupPhase rr) eqn:Ep; cbn [negb]; wp_simpl; rewrite ?Ep, ?Eb;
    by split_and!.
Qed.

Lemma backup_pass_post rr w w1 b rr2 r rr3 w3 :
  wext w w1 → htuned (heap w) (heap w1) →
  (backupPhase rr = false → exhausted (Peers (primary rr)) (tried rr) w w1) →
  same_groups rr rr2 → probeChecked rr2 = probeChecked rr → backup rr = Some b →
  backupPhase rr2 = true → tried rr2 = base_tried rr rr2 →
  current_post b rr2 w1 r rr3 w3 → single b = false →
  pick_post rr w r rr3 w3 ∧ pick_exact rr w r rr3 w3.
Proof.
  intros Hw1 Hh1 Hex1 [Hg2 Hb2] Hp2 Eb Eph Etr ((Hw3 & Hcs) & Hn & Hc) Es.
  assert (backupPhase rr3 = true) as Eph3.
  { destruct r; [destruct Hcs as (_ & -> & _)|destruct Hcs as [-> _]]; done. }
  assert (base_tried rr rr3 = tried rr2) as Hbase.
  { rewrite Etr. unfold base_tried. by rewrite Eph3, Eph. }
  assert (backup_members rr = Peers b) as Hbm by (unfold backup_members; by rewrite Eb).
  assert (wext w w3) as Hw by (by rewrite Hw1).
  assert (backupPhase rr = false → exhausted (Peers (primary rr)) (tried rr) w w3) as Hex.
  { intros Ep. eapply exhausted_weaken; [| |exact Hw3|by apply Hex1]; done. }
  destruct r as [x|].
  - destruct Hcs as ([Hg3 Hb3] & _ & Hx & Hnt & Ht & Hs & Hp & Hd & Hf).
    pose proof (Hh1 x) as Htx. split; split; try done.
    + split; congruence.
    + rewrite Hbase, Hbm. split_and!; try done; [by right|by eapply htuned_selected| | |].
      * apply (probe_rel_tuned _ _ _ _ _ _ Htx). unfold probe_rel.
        rewrite <-Hp2. exact Hp.
      * by rewrite <-(tuned_Down _ _ Htx).
      * by rewrite <-(tuned_conns_full _ _ Htx).
    + intros y [= <-] _. specialize (Hc x eq_refl Es).
      eapply choosable_tuned; [exact Hh1|]. rewrite <-(proj1 Hw1).
      eapply choosable_mono; [apply Hw1|done|exact Hc].
  - destruct Hcs as [-> Hh3]. split; split; try done.
    + split; [by rewrite Hh1|by rewrite Hbase].
    + intros _. split; [exact Hex|]. rewrite Hbase, Hbm.
      eapply exhausted_weaken; [exact Hw1|done|reflexivity|by apply Hn].
Qed.

(** Both passes: the primary group, then the backup group. *)
Lemma pickWithBackup_spec rr w :
  rr_wf rr (heap w) →
  wp (pickWithBackup pick) (λ r rr' w',
    pick_post rr w r rr' w' ∧ pick_exact rr w r rr' w') rr w.
Proof.
  intros Hwf. unfold pickWithBackup. wp_simpl.
  apply wp_mono with (Q := λ r rr' w', wext w w' ∧ match r with
    | Some x => backupPhase rr = false ∧ current_post (primary rr) rr w (Some x) rr' w'
    | None => rr' = rr ∧ htuned (heap w) (heap w') ∧
        (backupPhase rr = false → exhausted (Peers (primary rr)) (tried rr) w w')
    end).
  { destruct (backupPhase rr) eqn:Ep; cbn [negb]; wp_simpl.
    - split_and!; [done|done|reflexivity|done].
    - eapply wp_mono.
      { apply pickFromCurrentGroup_spec; [|apply Hwf]. intros Hs. by apply Hwf. }
      intros r rr' w' Hr. pose proof Hr as ((Hw & Hcs) & Hn & _).
      split; [done|]. destruct r; [done|]. destruct Hcs as [-> ?]. eauto. }
  intros r rr1 w1 (Hw1 & Hr). destruct r as [x|]; wp_simpl.
  - destruct Hr as (Ep & (_ & Hg & Hb & Hcs) & _ & Hc).
    assert (base_tried rr rr1 = tried rr) as Hbase by (unfold base_tried; by rewrite Hb, Ep).
    destruct Hcs as (Hx & Hn & Ht & Hs & Hp & Hd & Hf).
    split; split; try done; rewrite ?Hbase; [congruence|by split_and!; auto|].
    intros ? _ Hb1 Hb2. by rewrite Hb, Hb2 in Hb1.
  - destruct Hr as (-> & Hh1 & Hex1).
    eapply wp_mono; [apply backupGroupForPick_spec|].
    intros g rr2 w2 (-> & Hg2 & Hp2 & Hr2).
    destruct g as [b|]; wp_simpl.
    + destruct Hr2 as (Eb & Eph & Etr).
      pose proof (groups_wf_tuned _ _ _ _ Hh1 Hwf) as Hwf1.
      eapply wp_mono.
      { apply pickFromCurrentGroup_spec.
        - intros Hs. by rewrite (gw_backup_single _ _ _ Hwf) in Hs.
        - by apply (gw_backup_ok _ _ _ Hwf1). }
      intros r rr3 w3 Hr3.
      eapply (backup_pass_post rr w w1 b rr2); try done.
      by apply (gw_backup_single _ _ _ Hwf).
    + destruct Hr2 as [-> Hbm]. assert (base_tried rr rr = tried rr) as Hbase.
      { unfold base_tried. by destruct (backupPhase rr). }
      split; split; try done; rewrite ?Hbase, ?Hbm; try done.
      intros _. split; [done|]. intros ? ?. set_solver.
Qed.
End pick_with_backup.

(** ** Release *)

Lemma fail_peer_eq now p :
  fail_peer now p =
  let ew := if 0 <? MaxFails p
            then effectiveWeight p -! (Weight p /! MaxFails p)
            else effectiveWeight p in
  set_weights (currentWeight p) (Z.max 0 ew)
    (setChecked now (set_accessed now (set_fails (fails p +! 1) p))).
Proof.
  unfold fail_peer. cbn. destruct (0 <? MaxFails p); cbn;
    match goal with |- context [?e <? 0] => destruct (Z.ltb_spec e 0) as [H|H] end;
    [rewrite Z.max_l by lia|rewrite Z.max_r by lia|rewrite Z.max_l by lia
    |rewrite Z.max_r by lia]; done.
Qed.

(** The penalty never leaves [0, Weight]: no clamping beyond the code's own is
    needed, and no overflow happens. *)
Lemma penalty_bounds p :
  peer_ok p → 0 < MaxFails p →
  effectiveWeight p -! (Weight p /! MaxFails p)
    = effectiveWeight p - Z.quot (Weight p) (MaxFails p) ∧
  0 <= Z.quot (Weight p) (MaxFails p) <= Weight p.
Proof.
  intros [] HM.
  assert (0 <= Z.quot (Weight p) (MaxFails p) <= Weight p) as Hq.
  { split; [apply Z.quot_pos; lia|]. apply Z.quot_le_upper_bound; [lia|nia]. }
  split; [|done]. int_lia.
Qed.

Lemma fail_peer_ok now p : peer_ok p → peer_ok (fail_peer now p).
Proof.
  intros Hok. rewrite fail_peer_eq. pose proof Hok as [].
  split; cbn; try done; [|apply wrap_int_range].
  destruct (Z.ltb_spec 0 (MaxFails p)) as [HM|]; [|lia].
  destruct (penalty_bounds p Hok HM) as [-> ?]. lia.
Qed.

Lemma fail_peer_static now p : static (fail_peer now p) = static p.
Proof. by rewrite fail_peer_eq. Qed.

Lemma fail_peer_conns now p : conns (fail_peer now p) = conns p.
Proof. by rewrite fail_peer_eq. Qed.

Lemma succeed_peer_cases p :
  succeed_peer p = set_fails 0 p ∨ succeed_peer p = p.
Proof. unfold succeed_peer. case_match; auto. Qed.

Lemma succeed_peer_ok p : peer_ok p → peer_ok (succeed_peer p).
Proof. intros []. destruct (succeed_peer_cases p) as [-> | ->]; by split. Qed.

Section release.
Context (rr : RRPicker) (w : World) (x : nat).
Let pr := heap w !!! x.
Let upd (pr' : Peer) : Heap := <[x := set_conns (conns pr -! 1) pr']> (heap w).

Lemma done_single_eq failed neutral :
  single (done_group rr pr) = true →
  done (Some x) failed neutral rr w =
    Ret (tt, rr, set_heap (upd (set_fails 0 pr)) w).
Proof.
  intros Hs. unfold done, self, load, store, mbind, M_bind. fold pr. rewrite Hs.
  unfold upd, set_heap; cbn. by rewrite heap_insert_eq, insert_insert_eq.
Qed.

Lemma done_outcome_eq failed :
  single (done_group rr pr) = false →
  done (Some x) failed false rr w =
    Ret (tt, rr, set_heap (upd (if failed then fail_peer (clock w (ticks w)) pr
                                else succeed_peer pr)) (tick w)).
Proof.
  intros Hs. unfold done, self, load, store, Now, mbind, M_bind. fold pr. rewrite Hs.
  unfold upd, set_heap, tick; cbn -[fail_peer succeed_peer lookup_total].
  rewrite heap_insert_eq, insert_insert_eq. unfold pr.
  destruct failed; [by rewrite fail_peer_conns|].
  by destruct (succeed_peer_cases (heap w !!! x)) as [-> | ->].
Qed.

(** A neutral release: the probe is handed back if nobody wrote [checked]. *)
Lemma done_neutral_eq failed :
  single (done_group rr pr) = false →
  done (Some x) failed true rr w =
    match probeChecked rr !! x with
    | Some probe =>
        Ret (tt, set_probes (delete x (probeChecked rr)) rr,
             set_heap (upd (if checkedSeq pr =? seq probe
                            then setChecked (prior probe) pr else pr)) w)
    | None => Ret (tt, rr, set_heap (upd pr) w)
    end.
Proof.
  intros Hs. unfold done, self, load, store, update, mret, M_ret, mbind, M_bind.
  fold pr. rewrite Hs. destruct (probeChecked rr !! x) as [probe|]; [|done].
  destruct (checkedSeq pr =? seq probe); [|done].
  unfold upd, set_heap; cbn -[lookup_total]. by rewrite heap_insert_eq, insert_insert_eq.
Qed.

Lemma done_released failed neutral :
  wp (done (Some x) failed neutral) (λ _ rr' w',
    wext w w' ∧ same_groups rr rr' ∧ backupPhase rr' = backupPhase rr ∧
    tried rr' = tried rr ∧ released x (heap w) (heap w') ∧
    ∀ q, peer_ok (heap w !!! q) → peer_ok (heap w' !!! q)) rr w.
Proof.
  assert (∀ pr' w', heap w' = heap w → conns pr' = conns pr → static pr' = static pr →
    (peer_ok pr → peer_ok pr') →
    released x (heap w) (heap (set_heap (upd pr') w')) ∧
    ∀ q, peer_ok (heap w !!! q) → peer_ok (heap (set_heap (upd pr') w') !!! q)) as Hupd.
  { intros pr' w' Hw Hc Hs Hok. unfold upd, set_heap, released; cbn [heap].
    split.
    - rewrite heap_insert_eq. split_and!; [done|done|].
      intros q Hq. by rewrite heap_insert_ne.
    - intros q Hq. rewrite heap_insert. case_decide; [subst|done].
      destruct (Hok Hq). split; try done. apply wrap_int_range. }
  destruct (single (done_group rr pr)) eqn:Es.
  - apply wp_exists. eexists _, _, _. split; [by apply done_single_eq|].
    split_and!; try done; apply Hupd; try done; by intros [].
  - destruct neutral.
    + apply wp_exists. pose proof (done_neutral_eq failed Es) as He.
      destruct (probeChecked rr !! x) as [probe|].
      * eexists _, _, _. split; [exact He|].
        split_and!; try done; apply Hupd; try done; destruct (_ =? _); try done;
          by intros [].
      * eexists _, _, _. split; [exact He|]. split_and!; try done; by apply Hupd.
    + apply wp_exists. eexists _, _, _. split; [by apply done_outcome_eq|].
      split_and!; try done; [apply wext_tick| |]; apply Hupd; try done.
      all: destruct failed; [|destruct (succeed_peer_cases pr) as [-> | ->]]; try done.
      all: rewrite ?fail_peer_conns, ?fail_peer_static; try done.
      all: try apply fail_peer_ok. all: by intros [].
Qed.
End release.

(** ** Construction *)

Lemma NewRoundRobin_wf peers (h : Heap) rr h' :
  (∀ x, Some x ∈ peers → peer_typed (h !!! x)) →
  NewRoundRobin peers h = (rr, h') →
  groups_wf (rr_primary rr) (rr_backup rr) h'.
Proof.
  intros Hty. unfold NewRoundRobin.
  destruct (BuildGroups_facts peers h) as (g & b & h1 & -> & HP & _ & HS & HB & Hh).
  intros [= <- <-]. cbn [rr_primary rr_backup].
  assert (∀ bk x, x ∈ group_peers h bk peers →
    Backup (h1 !!! x) = bk ∧ peer_ok (h1 !!! x)) as Hg.
  { intros bk x [Hx Hb]%elem_of_group_peers. rewrite Hh, decide_True by done.
    rewrite init_Backup. split; [done|]. destruct (Hty x Hx) as (? & ? & ? & ?).
    by apply init_ok. }
  split.
  - intros Hs. rewrite HS in Hs. destruct b; [done|]. split; [done|].
    apply Nat.eqb_eq in Hs. destruct (Peers g) as [|x [|]]; try done. by exists x.
  - rewrite HP. intros x Hx. by apply (Hg false).
  - rewrite HP. intros x Hx. by apply (Hg false).
  - intros bg ->. apply HB.
  - intros bg x -> Hx. apply (Hg true). by rewrite <-(proj1 HB).
  - intros bg -> x Hx. apply (Hg true). by rewrite <-(proj1 HB).
Qed.
