(* ===== verification/Picker.v ===== *)
(** * The Picker and Balancer interfaces and their clients (balancer.go)

    [Picker] is the Go interface, [PickerLaws] the contract its
    implementations promise and its clients rely on.  [PickOne] and
    [PickWithRetry] are proved against the contract; each algorithm's file
    discharges it. *)

From S2P Require Import Prelude GoLib Peer RoundRobin.
#[local] Open Scope Z_scope.
#[local] Open Scope go_scope.

(** ** The interface *)

Class Picker (P : Type) := {
  rrp : P → RRPicker;      (* the embedded RRPicker *)
  pick : M P (option PeerId);
  release : option PeerId → bool → M P unit;          (* Done *)
  release_neutral : option PeerId → M P unit;         (* doneNeutral *)
}.

Definition release_post {P} `{Picker P} (x : PeerId) (p : P) (w : World) (p' : P)
    (w' : World) : Prop :=
  wext w w' ∧ same_groups (rrp p) (rrp p') ∧
  backupPhase (rrp p') = backupPhase (rrp p) ∧ tried (rrp p') = tried (rrp p) ∧
  released x (heap w) (heap w') ∧ ∀ q, peer_ok (heap w !!! q) → peer_ok (heap w' !!! q).

(** Heaps with the same configuration in which every well-formed peer stays
    well-formed: what any step of the package does to the shared state. *)
Definition hsame (h h' : Heap) : Prop :=
  (∀ q, static (h' !!! q) = static (h !!! q)) ∧
  (∀ q, peer_ok (h !!! q) → peer_ok (h' !!! q)).

Class PickerLaws (P : Type) `{Picker P} := {
  picker_wf : P → Heap → Prop;
  picker_wf_rr : ∀ p h, picker_wf p h → rr_wf (rrp p) h;
  picker_wf_mono : ∀ p h h', hsame h h' → picker_wf p h → picker_wf p h';
  pick_law : ∀ p w, picker_wf p (heap w) →
    wp pick (λ r p' w', pick_post (rrp p) w r (rrp p') w' ∧
      pick_exact (rrp p) w r (rrp p') w' ∧ picker_wf p' (heap w')) p w;
  release_law : ∀ p w x failed, picker_wf p (heap w) →
    wp (release (Some x) failed) (λ _ p' w',
      release_post x p w p' w' ∧ picker_wf p' (heap w')) p w;
  release_neutral_law : ∀ p w x, picker_wf p (heap w) →
    wp (release_neutral (Some x)) (λ _ p' w',
      release_post x p w p' w' ∧ picker_wf p' (heap w')) p w;
}.

(** [*RRPicker] itself. *)
#[export] Instance RRPicker_picker : Picker RRPicker := {|
  rrp := id;
  pick := Pick;
  release := Done;
  release_neutral := doneNeutral;
|}.

(** ** PickOne *)

Record PickResult (P : Type) := MkPickResult {
  res_Peer : option PeerId;
  res_picker : option P;
}.
Arguments MkPickResult {P}.
Arguments res_Peer {P}.
Arguments res_picker {P}.

Section clients.
Context {P : Type} `{Picker P}.

(** [PickResult.Done], on a possibly nil result. *)
Definition PickResult_Done (r : option (PickResult P)) (failed : bool) (w : World)
    : outcome World :=
  match r with
  | None => Ret w
  | Some r =>
      match res_picker r with
      | None => Ret w
      | Some pk =>
          match release (res_Peer r) failed pk w with
          | Ret (_, _, w') => Ret w'
          | Panic why => Panic why
          end
      end
  end.

(** A nil Balancer is [None]; one whose [NewPicker] returns nil is
    [Some None]. *)
Definition PickOne (b : option (option P)) (w : World)
    : outcome (option (PickResult P) * World) :=
  match b with
  | None => Ret (None, w)
  | Some None => Ret (None, w)
  | Some (Some pk) =>
      match pick pk w with
      | Ret (None, _, w') => Ret (None, w')
      | Ret (Some p, pk', w') => Ret (Some (MkPickResult (Some p) (Some pk')), w')
      | Panic why => Panic why
      end
  end.

(** ** PickWithRetry

    [tryFunc k addr] is the k-th attempt; while it runs, other goroutines may
    change the world. *)
Inductive retry_error := ErrNoPeerAvailable | ErrNilBalancer | ErrNilTryFunc.

Context {Error : Type}.

Fixpoint retry_loop (fuel : nat) (tryFunc : nat → string → World → option Error * World)
    (k : nat) : M P (option (PeerId + retry_error)) :=
  match fuel with
  | O => mret None
  | S fuel =>
      r ← pick;
      match r with
      | None => mret (Some (inr ErrNoPeerAvailable))
      | Some p =>
          pr ← load p;
          err ← (λ pk w, let '(e, w') := tryFunc k (Addr pr) w in Ret (e, pk, w'));
          match err with
          | None => release (Some p) false;; mret (Some (inl p))
          | Some _ => release (Some p) true;; retry_loop fuel tryFunc (S k)
          end
      end
  end.

Definition PickWithRetry (fuel : nat) (b : option (option P))
    (tryFunc : option (nat → string → World → option Error * World)) (w : World)
    : outcome (option (PeerId + retry_error) * World) :=
  match b with
  | None => Ret (Some (inr ErrNilBalancer), w)
  | Some pk =>
      match tryFunc with
      | None => Ret (Some (inr ErrNilTryFunc), w)
      | Some f =>
          match pk with
          | None => Ret (Some (inr ErrNoPeerAvailable), w)
          | Some pk =>
              match retry_loop fuel f 0 pk w with
              | Ret (r, _, w') => Ret (r, w')
              | Panic why => Panic why
              end
          end
      end
  end.
End clients.

(** The number of selections a picker can still make. *)
Definition remaining (rr : RRPicker) : nat :=
  size (list_to_set (Peers (primary rr)) ∖ tried rr : gset nat) +
  size (if backupPhase rr then list_to_set (backup_members rr) ∖ tried rr
        else list_to_set (backup_members rr) : gset nat).

(** ** Lemmas *)

Lemma hsame_refl h : hsame h h.
Proof. by split. Qed.

#[export] Instance hsame_preorder : PreOrder hsame.
Proof.
  split; [intros h; apply hsame_refl|].
  intros a b c [H1 H2] [H3 H4]. split; intros q; [by rewrite H3|auto].
Qed.

Lemma hsame_tuned h h' : htuned h h' → hsame h h'.
Proof. intros Ht. split; intros q; specialize (Ht q); eauto with cslb. Qed.

Lemma hsame_selected x h h' : hselected x h h' → hsame h h'.
Proof.
  intros Hs. split; intros q; [by eapply hselected_static|by eapply hselected_ok].
Qed.

Lemma hsame_released x h h' :
  released x h h' → (∀ q, peer_ok (h !!! q) → peer_ok (h' !!! q)) → hsame h h'.
Proof.
  intros (Hs & _ & Ho) Hok. split; [|done]. intros q.
  destruct (decide (q = x)) as [->|]; [done|by rewrite Ho].
Qed.

Lemma rr_wf_mono rr h h' : hsame h h' → rr_wf rr h → rr_wf rr h'.
Proof. intros [? ?]. by apply groups_wf_mono. Qed.

Lemma rr_wf_groups rr rr' h : same_groups rr rr' → rr_wf rr h → rr_wf rr' h.
Proof. unfold rr_wf. by intros [-> ->]. Qed.

Lemma pick_post_hsame rr w r rr' w' : pick_post rr w r rr' w' → hsame (heap w) (heap w').
Proof.
  intros [_ _ _ Hres]. destruct r as [x|].
  - destruct Hres as (_ & _ & _ & Hs & _). by eapply hsame_selected.
  - destruct Hres as [Ht _]. by apply hsame_tuned.
Qed.

Lemma pick_post_wf rr w r rr' w' :
  pick_post rr w r rr' w' → rr_wf rr (heap w) → rr_wf rr' (heap w').
Proof.
  intros Hp Hwf. eapply rr_wf_groups; [apply Hp|].
  eapply rr_wf_mono; [by eapply pick_post_hsame|done].
Qed.

#[export] Instance RRPicker_laws : PickerLaws RRPicker.
Proof.
  refine {| picker_wf := rr_wf |}; cbn [rrp pick release release_neutral RRPicker_picker id].
  - done.
  - intros p h h'. apply rr_wf_mono.
  - intros p w Hwf. eapply wp_mono; [apply pickWithBackup_spec, Hwf|].
    { intros. by apply pickFromGroup_spec. }
    intros r p' w' [? ?]. split_and!; [done..|by eapply pick_post_wf].
  - intros p w x failed Hwf. eapply wp_mono; [apply done_released|].
    intros _ p' w' (? & ? & ? & ? & ? & ?). split; [by split_and!|].
    eapply rr_wf_groups; [done|]. eapply rr_wf_mono; [by eapply hsame_released|done].
  - intros p w x Hwf. eapply wp_mono; [apply done_released|].
    intros _ p' w' (? & ? & ? & ? & ? & ?). split; [by split_and!|].
    eapply rr_wf_groups; [done|]. eapply rr_wf_mono; [by eapply hsame_released|done].
Defined.

(** ** Embedding [*RRPicker]

    The other pickers embed a [*RRPicker]: [get] and [set] access it, the
    release methods are promoted or delegate to it, and [J] is what the fields
    of their own satisfy. *)
Section embedded.
Context {P : Type} (get : P → RRPicker) (set : RRPicker → P → P) (J : P → Prop).
Hypothesis get_set : ∀ rr p, get (set rr p) = rr.
Hypothesis J_set : ∀ rr p, same_groups (get p) rr → J p → J (set rr p).

Definition embedded_picker (pk : M P (option PeerId)) : Picker P := {|
  rrp := get;
  pick := pk;
  release := λ x failed, zoom get set (Done x failed);
  release_neutral := λ x, zoom get set (doneNeutral x);
|}.

Definition embedded_wf (p : P) (h : Heap) : Prop := rr_wf (get p) h ∧ J p.

(** The laws follow from the specification of the selection. *)
Lemma embedded_laws (pk : M P (option PeerId)) :
  (∀ p w, embedded_wf p (heap w) →
    wp pk (λ r p' w', (pick_post (get p) w r (get p') w' ∧
      pick_exact (get p) w r (get p') w') ∧ J p') p w) →
  @PickerLaws P (embedded_picker pk).
Proof using get_set J_set.
  intros Hpk. refine (@Build_PickerLaws P (embedded_picker pk) embedded_wf _ _ _ _ _);
    cbn [rrp pick release release_neutral embedded_picker].
  - by intros p h [? _].
  - intros p h h' Hh [Hwf ?]. split; [by eapply rr_wf_mono|done].
  - intros p w Hwf. eapply wp_mono; [by apply Hpk|].
    intros r p' w' [[Hp ?] ?]. do 2 (split; [done|]). split; [|done].
    by eapply pick_post_wf, Hwf.
  - intros p w x failed [Hwf HJ]. wp_simpl.
    eapply wp_mono; [exact (release_law (P := RRPicker) _ w x failed Hwf)|].
    intros _ rr w' [Hr Hwf']. unfold release_post, embedded_wf in *.
    cbn [rrp RRPicker_picker embedded_picker id] in *. rewrite get_set.
    split; [done|]. split; [done|]. apply J_set; [apply Hr|done].
  - intros p w x [Hwf HJ]. wp_simpl.
    eapply wp_mono; [exact (release_neutral_law (P := RRPicker) _ w x Hwf)|].
    intros _ rr w' [Hr Hwf']. unfold release_post, embedded_wf in *.
    cbn [rrp RRPicker_picker embedded_picker id] in *. rewrite get_set.
    split; [done|]. split; [done|]. apply J_set; [apply Hr|done].
Defined.
End embedded.

(** *** The measure *)

Lemma remaining_some rr w x rr' w' :
  rr_wf rr (heap w) → pick_post rr w (Some x) rr' w' → (remaining rr' < remaining rr)%nat.
Proof.
  intros Hwf [_ [Hg Hb] Hph (Hx & Hnt & Ht & _)]. unfold remaining.
  assert (backup_members rr' = backup_members rr) as Hbm
    by (unfold backup_members; by rewrite Hb).
  rewrite Hg, Hbm, Ht.
  set (A := list_to_set (Peers (primary rr)) : gset nat).
  set (B := list_to_set (backup_members rr) : gset nat).
  assert (A ## B) as HAB.
  { intros y HA HB. unfold A, B in *. rewrite elem_of_list_to_set in HA, HB.
    unfold backup_members in HB. destruct (backup rr) as [b|] eqn:Eb; [|set_solver].
    apply (gw_primary _ _ _ Hwf) in HA. rewrite (gw_backup _ _ _ Hwf b) in HA; done. }
  assert (x ∈ A ∨ backupPhase rr' = true ∧ x ∈ B) as Hx'
    by (unfold A, B; by rewrite !elem_of_list_to_set).
  clear Hx. revert Hnt. unfold base_tried. fold B.
  destruct (backupPhase rr) eqn:E1; [rewrite Hph by done|destruct (backupPhase rr') eqn:E2];
    cbn [andb negb]; intros Hnt.
  - destruct Hx' as [HA|[_ HB]].
    + assert (size (A ∖ ({[x]} ∪ tried rr)) < size (A ∖ tried rr))%nat
        by (apply subset_size; set_solver).
      assert (size (B ∖ ({[x]} ∪ tried rr)) ≤ size (B ∖ tried rr))%nat
        by (apply subseteq_size; set_solver). lia.
    + assert (size (A ∖ ({[x]} ∪ tried rr)) ≤ size (A ∖ tried rr))%nat
        by (apply subseteq_size; set_solver).
      assert (size (B ∖ ({[x]} ∪ tried rr)) < size (B ∖ tried rr))%nat
        by (apply subset_size; set_solver). lia.
  - destruct Hx' as [HA|[_ HB]].
    + assert (size (A ∖ ({[x]} ∪ tried rr ∖ B)) < size (A ∖ tried rr))%nat
        by (apply subset_size; set_solver).
      assert (size (B ∖ ({[x]} ∪ tried rr ∖ B)) ≤ size B)%nat
        by (apply subseteq_size; set_solver). lia.
    + assert (size (A ∖ ({[x]} ∪ tried rr ∖ B)) ≤ size (A ∖ tried rr))%nat
        by (apply subseteq_size; set_solver).
      assert (size (B ∖ ({[x]} ∪ tried rr ∖ B)) < size B)%nat
        by (apply subset_size; set_solver). lia.
  - destruct Hx' as [HA|[? _]]; [|done].
    assert (size (A ∖ ({[x]} ∪ tried rr)) < size (A ∖ tried rr))%nat
      by (apply subset_size; set_solver). lia.
Qed.

Lemma remaining_release {P} `{Picker P} x (p : P) w p' w' :
  release_post x p w p' w' → remaining (rrp p') = remaining (rrp p).
Proof.
  intros (_ & [Hg Hb] & Hph & Ht & _). unfold remaining, backup_members.
  by rewrite Hg, Hb, Hph, Ht.
Qed.

(** ** The retry loop

    [retry_trace] is the loop as a relation that also records the peers
    attempted, in order. *)
Section retry.
Context {P : Type} `{PickerLaws P} {Error : Type}.
Context (f : nat → string → World → option Error * World).

Inductive retry_trace : nat → P → World → list PeerId → (PeerId + retry_error) →
    P → World → Prop :=
  | trace_none k p w p' w' :
      pick p w = Ret (None, p', w') →
      retry_trace k p w [] (inr ErrNoPeerAvailable) p' w'
  | trace_ok k p w x p1 w1 w2 p' w' :
      pick p w = Ret (Some x, p1, w1) →
      f k (Addr (heap w1 !!! x)) w1 = (None, w2) →
      release (Some x) false p1 w2 = Ret (tt, p', w') →
      retry_trace k p w [x] (inl x) p' w'
  | trace_fail k p w x p1 w1 e w2 p2 w3 xs r p' w' :
      pick p w = Ret (Some x, p1, w1) →
      f k (Addr (heap w1 !!! x)) w1 = (Some e, w2) →
      release (Some x) true p1 w2 = Ret (tt, p2, w3) →
      retry_trace (S k) p2 w3 xs r p' w' →
      retry_trace k p w (x :: xs) r p' w'.

(** Backup peers are only marked as tried once the backup phase has begun. *)
Definition phase_ok (rr : RRPicker) : Prop :=
  backupPhase rr = false → ∀ x, x ∈ backup_members rr → x ∉ tried rr.

Lemma phase_ok_base rr rr' : phase_ok rr → base_tried rr rr' = tried rr.
Proof.
  intros Hph. unfold base_tried. destruct (backupPhase rr) eqn:E.
  - by rewrite andb_false_r.
  - destruct (backupPhase rr'); cbn; [|done]. apply set_eq. intros y.
    rewrite elem_of_difference, elem_of_list_to_set.
    split; [by intros []|]. intros Hy. split; [done|]. intros Hb. by apply (Hph E y).
Qed.

Lemma phase_ok_pick rr w r rr' w' :
  rr_wf rr (heap w) → phase_ok rr → pick_post rr w r rr' w' → phase_ok rr'.
Proof using.
  clear f. intros Hwf Hph [_ [Hg Hb] Hmono Hr] E x. unfold backup_members. rewrite Hb. intros Hx.
  assert (backupPhase rr = false) as E1.
  { destruct (backupPhase rr); [|done]. by rewrite Hmono in E. }
  assert (x ∉ tried rr) as Hnx by (by apply Hph).
  rewrite (phase_ok_base rr rr' Hph) in Hr. destruct r as [y|].
  - destruct Hr as ([Hy|[? _]] & _ & -> & _); [|congruence].
    destruct (backup rr) as [b|] eqn:Eb; [|set_solver].
    assert (x ≠ y); [|set_solver]. intros ->.
    pose proof (gw_primary _ _ _ Hwf _ Hy) as E2.
    by rewrite (gw_backup _ _ _ Hwf b) in E2.
  - by destruct Hr as [_ ->].
Qed.

Hypothesis f_same : ∀ k a w, hsame (heap w) (heap (f k a w).2).

(** With enough fuel the loop runs to the end, and no peer is attempted twice. *)
Lemma retry_loop_trace fuel k (p : P) w :
  picker_wf p (heap w) → phase_ok (rrp p) → (remaining (rrp p) < fuel)%nat →
  ∃ xs r p' w', retry_loop fuel f k p w = Ret (Some r, p', w') ∧
    retry_trace k p w xs r p' w' ∧ NoDup xs ∧ (∀ x, x ∈ xs → x ∉ tried (rrp p)) ∧
    (length xs ≤ remaining (rrp p))%nat.
Proof.
  revert k p w. induction fuel as [|fuel IH]; intros k p w Hwf Hph Hfuel; [lia|].
  destruct (proj1 (wp_exists _ _ _ _) (pick_law p w Hwf))
    as (r & p1 & w1 & Hpick & Hpost & _ & Hwf1).
  pose proof (picker_wf_rr _ _ Hwf) as Hrwf. cbn [retry_loop].
  rewrite (bind_Ret _ _ _ _ _ _ _ Hpick). destruct r as [x|].
  2:{ exists [], (inr ErrNoPeerAvailable), p1, w1.
      split_and!; [done|by constructor|constructor|set_solver|cbn; lia]. }
  pose proof (remaining_some _ _ _ _ _ Hrwf Hpost) as Hrem.
  rewrite (bind_Ret (load x) _ _ _ _ _ _ eq_refl).
  pose proof (f_same k (Addr (heap w1 !!! x)) w1) as Hf.
  destruct (f k (Addr (heap w1 !!! x)) w1) as [e w2] eqn:Ef. cbn [snd] in Hf.
  pose proof (picker_wf_mono _ _ _ Hf Hwf1) as Hwf2.
  assert (x ∉ tried (rrp p) ∧ tried (rrp p1) = ({[x]} ∪ tried (rrp p))) as [Hnx Htr].
  { destruct Hpost as [_ _ _ (_ & Hn & Ht & _)].
    by rewrite (phase_ok_base _ _ Hph) in Hn, Ht. }
  erewrite bind_Ret by (by rewrite Ef). destruct e as [e|].
  - destruct (proj1 (wp_exists _ _ _ _) (release_law p1 w2 x true Hwf2))
      as ([] & p2 & w3 & Hrel & Hrp & Hwf3).
    rewrite (bind_Ret _ _ _ _ _ _ _ Hrel). pose proof (remaining_release _ _ _ _ _ Hrp) as Hr2.
    destruct Hrp as (_ & [Hg Hb] & Hbp & Htr2 & _).
    assert (phase_ok (rrp p2)) as Hph2.
    { pose proof (phase_ok_pick _ _ _ _ _ Hrwf Hph Hpost) as Hph1.
      unfold phase_ok, backup_members in *. by rewrite Hbp, Hb, Htr2. }
    destruct (IH (S k) p2 w3 Hwf3 Hph2) as (xs & r & p' & w' & -> & Htrace & Hnd & Hxs & Hl);
      [lia|].
    rewrite Htr2, Htr in Hxs. exists (x :: xs), r, p', w'.
    split_and!; [done|by econstructor| | |cbn; lia].
    + constructor; [|done]. intros Hin. apply (Hxs x Hin). set_solver.
    + intros y [->|Hy]%elem_of_cons; [done|]. specialize (Hxs y Hy). set_solver.
  - destruct (proj1 (wp_exists _ _ _ _) (release_law p1 w2 x false Hwf2))
      as ([] & p2 & w3 & Hrel & _).
    rewrite (bind_Ret _ _ _ _ _ _ _ Hrel). exists [x], (inl x), p2, w3.
    split_and!; [done|by econstructor|apply NoDup_singleton| |cbn; lia].
    intros y ->%list_elem_of_singleton. done.
Qed.
End retry.

(** C9: [PickWithRetry] terminates: with more fuel than the picker can make
    selections it returns a result, whatever the attempts answer and whatever
    other goroutines do to the shared peers meanwhile; it never attempts a peer
    twice, every attempt is released with its outcome before the next
    selection, and the result is the first peer whose attempt succeeded or
    [ErrNoPeerAvailable] after a selection that found none. *)
Theorem PickWithRetry_spec {P} `{PickerLaws P} {Error : Type}
    (f : nat → string → World → option Error * World) (pk : P) (w : World) (fuel : nat) :
  (∀ k a w, hsame (heap w) (heap (f k a w).2)) →
  picker_wf pk (heap w) → phase_ok (rrp pk) → (remaining (rrp pk) < fuel)%nat →
  ∃ xs r p' w', PickWithRetry fuel (Some (Some pk)) (Some f) w = Ret (Some r, w') ∧
    retry_trace f 0 pk w xs r p' w' ∧ NoDup xs ∧ (length xs ≤ remaining (rrp pk))%nat.
Proof.
  intros Hf Hwf Hph Hfuel.
  destruct (retry_loop_trace f Hf fuel 0 pk w Hwf Hph Hfuel)
    as (xs & r & p' & w' & E & ? & ? & _ & ?).
  exists xs, r, p', w'. unfold PickWithRetry. by rewrite E.
Qed.

(** Two healthy peers; the first attempt fails, the second succeeds. *)
Definition demo_peer (addr : string) (w : Z) : Peer :=
  MkPeer addr w false 0 0 0 false 0 0 0 0 0 zero_time zero_time 0.
Definition demo_clock (i : nat) : Time :=
  MkTime (Z.of_nat i + 1000000000000) (Some (Z.of_nat i)).
Definition demo_heap : Heap := <[1%nat := demo_peer "b" 3]> {[0%nat := demo_peer "a" 5]}.
Definition demo_rr : RoundRobin * Heap := NewRoundRobin [Some 0%nat; None; Some 1%nat] demo_heap.
Definition demo_world : World := MkWorld demo_rr.2 demo_clock 0 0.
Definition demo_try (k : nat) (a : string) (w : World) : option unit * World :=
  (if (k =? 0)%nat then Some tt else None, w).

Lemma demo_wf : groups_wf (rr_primary demo_rr.1) (rr_backup demo_rr.1) demo_rr.2.
Proof.
  apply (NewRoundRobin_wf [Some 0%nat; None; Some 1%nat] demo_heap); [|done].
  intros x Hx. assert (x = 0 ∨ x = 1)%nat as [-> | ->] by set_solver;
    repeat split; vm_compute; congruence.
Qed.

Lemma PickWithRetry_spec_witness :
  ∃ xs r p' w', PickWithRetry 3 (Some (Some (NewPicker demo_rr.1))) (Some demo_try)
      demo_world = Ret (Some r, w') ∧
    retry_trace demo_try 0 (NewPicker demo_rr.1) demo_world xs r p' w' ∧ NoDup xs ∧
    (length xs ≤ remaining (NewPicker demo_rr.1))%nat.
Proof.
  apply (PickWithRetry_spec (H0 := RRPicker_laws) demo_try (NewPicker demo_rr.1) demo_world 3).
  - intros; apply hsame_refl.
  - exact demo_wf.
  - intros _ x Hx. set_solver.
  - vm_compute. lia.
Defined.
