(* ===== verification/SmoothWRR.v ===== *)
(** * Smooth weighted round-robin: exact behaviour and fairness

    The abstract algorithm on unbounded integers, its fairness over a cycle,
    and the refinement: a pass of [smoothWeightedPeer] over machine integers
    computes the abstract step, so a round-robin balancer serves every healthy
    peer exactly [Weight] times per cycle of the total weight. *)

From S2P Require Import Prelude GoLib Peer RoundRobin Picker.
#[local] Open Scope Z_scope.
#[local] Open Scope go_scope.

(** ** The pass in closed form *)

Definition bump_all (xs : list PeerId) (h : Heap) : Heap :=
  fold_left (λ h x, <[x := bump (h !!! x)]> h) xs h.

(** The first peer with the greatest value of [cw]. *)
Definition argmax_from (cw : PeerId → Z) (best : option PeerId) (xs : list PeerId)
    : option PeerId :=
  fold_left (λ b x, match b with
                    | None => Some x
                    | Some y => if cw y <? cw x then Some x else b
                    end) xs best.

Definition total_from (h : Heap) (t : Z) (xs : list PeerId) : Z :=
  fold_left (λ t x, t +! effectiveWeight (h !!! x)) xs t.

Definition current (h : Heap) (x : PeerId) : Z := currentWeight (h !!! x).

(** The heap after the winner has paid. *)
Definition pay (b : PeerId) (t : Z) (h : Heap) : Heap :=
  <[b := set_currentWeight (currentWeight (h !!! b) -! t) (h !!! b)]> h.

(** Heaps that differ in the running weights only. *)
Definition reweighted (h h' : Heap) : Prop :=
  ∀ q, ∃ cw ew, h' !!! q = set_weights cw ew (h !!! q).

(** The eligibility test of round-robin as a boolean function. *)
Definition rr_ok (rr : RRPicker) (h : Heap) (now : Time) (x : PeerId) : bool :=
  negb (Tried x rr) && negb (Down (h !!! x)) &&
  negb (failed_out (h !!! x) now) && negb (conns_full (h !!! x)).

(** The outcome of a whole pass over the eligible peers [xs]. *)
Definition smooth_best (xs : list PeerId) (h : Heap) : option PeerId :=
  argmax_from (current (bump_all xs h)) None xs.
Definition smooth_heap (xs : list PeerId) (h : Heap) : Heap :=
  match smooth_best xs h with
  | Some b => pay b (total_from h 0 xs) (bump_all xs h)
  | None => h
  end.

(** ** The abstract algorithm *)

Definition zsum (f : PeerId → Z) (xs : list PeerId) : Z :=
  foldr (λ x acc, f x + acc) 0 xs.

Definition swrr_pick (W cw : PeerId → Z) (xs : list PeerId) : option PeerId :=
  argmax_from (λ x, cw x + W x) None xs.

Definition swrr_next (W cw : PeerId → Z) (xs : list PeerId) (b : PeerId) : PeerId → Z :=
  λ x, cw x + W x - (if decide (x = b) then zsum W xs else 0).

(** The selections of [n] rounds, and the weights they lead to. *)
Fixpoint swrr_run (n : nat) (W cw : PeerId → Z) (xs : list PeerId) : list PeerId :=
  match n with
  | O => []
  | S n =>
      match swrr_pick W cw xs with
      | Some b => b :: swrr_run n W (swrr_next W cw xs b) xs
      | None => []
      end
  end.

Fixpoint swrr_weights (n : nat) (W cw : PeerId → Z) (xs : list PeerId) : PeerId → Z :=
  match n with
  | O => cw
  | S n =>
      match swrr_pick W cw xs with
      | Some b => swrr_weights n W (swrr_next W cw xs b) xs
      | None => cw
      end
  end.

Definition picks (x : PeerId) (l : list PeerId) : Z :=
  Z.of_nat (length (filter (λ y, y = x) l)).

(** ** One request served by a round-robin balancer *)

Definition serve (rr : RoundRobin) (w : World) : outcome (option PeerId * World) :=
  match Pick (NewPicker rr) w with
  | Ret (r, pk, w1) =>
      match Done r false pk w1 with
      | Ret (_, _, w2) => Ret (r, w2)
      | Panic why => Panic why
      end
  | Panic why => Panic why
  end.

Fixpoint serve_n (n : nat) (rr : RoundRobin) (w : World)
    : outcome (list (option PeerId) * World) :=
  match n with
  | O => Ret ([], w)
  | S n =>
      match serve rr w with
      | Ret (r, w1) =>
          match serve_n n rr w1 with
          | Ret (rs, w2) => Ret (r :: rs, w2)
          | Panic why => Panic why
          end
      | Panic why => Panic why
      end
  end.

(** A balancer at rest whose primary peers are all healthy, with current
    weights [cw]. *)
Record at_rest (rr : RoundRobin) (W cw : PeerId → Z) (h : Heap) : Prop := {
  ar_wf : groups_wf (rr_primary rr) (rr_backup rr) h;
  ar_up : ∀ x, x ∈ Peers (rr_primary rr) →
    Down (h !!! x) = false ∧ fails (h !!! x) = 0 ∧ conns (h !!! x) = 0;
  ar_weight : ∀ x, x ∈ Peers (rr_primary rr) →
    Weight (h !!! x) = W x ∧ effectiveWeight (h !!! x) = W x ∧ current h x = cw x;
}.

(** ** Sums *)

Lemma zsum_nil f : zsum f [] = 0.
Proof. done. Qed.

Lemma zsum_cons f x xs : zsum f (x :: xs) = f x + zsum f xs.
Proof. done. Qed.

#[global] Arguments zsum : simpl never.

Ltac zsum_induction xs :=
  induction xs as [|?x xs IH]; rewrite ?zsum_nil, ?zsum_cons in *.

Lemma zsum_ext f g xs : (∀ x, x ∈ xs → f x = g x) → zsum f xs = zsum g xs.
Proof.
  zsum_induction xs; intros H; [done|].
  by rewrite H, IH by set_solver.
Qed.

Lemma zsum_add f g xs : zsum (λ x, f x + g x) xs = zsum f xs + zsum g xs.
Proof. zsum_induction xs; lia. Qed.

Lemma zsum_opp f xs : zsum (λ x, - f x) xs = - zsum f xs.
Proof. zsum_induction xs; lia. Qed.

Lemma zsum_zero xs : zsum (λ _, 0) xs = 0.
Proof. zsum_induction xs; lia. Qed.

Lemma zsum_const c xs : zsum (λ _, c) xs = Z.of_nat (length xs) * c.
Proof. zsum_induction xs; cbn [length]; lia. Qed.

Lemma zsum_const_ne b t xs : b ∉ xs → zsum (λ x, if decide (x = b) then t else 0) xs = 0.
Proof.
  zsum_induction xs; intros H; [done|].
  rewrite decide_False by set_solver. apply IH. set_solver.
Qed.

Lemma zsum_indicator b t xs :
  NoDup xs → b ∈ xs → zsum (λ x, if decide (x = b) then t else 0) xs = t.
Proof.
  induction 1 as [|x xs Hx Hnd IH]; intros Hb; [set_solver|]. rewrite zsum_cons.
  destruct (decide (x = b)) as [->|].
  - rewrite zsum_const_ne by done. lia.
  - rewrite IH by set_solver. lia.
Qed.

Lemma zsum_le f g xs : (∀ x, x ∈ xs → f x <= g x) → zsum f xs <= zsum g xs.
Proof.
  zsum_induction xs; intros H; [lia|].
  specialize (IH ltac:(set_solver)). specialize (H x ltac:(set_solver)). lia.
Qed.

Lemma zsum_elem f xs x :
  (∀ y, y ∈ xs → 0 <= f y) → x ∈ xs → f x <= zsum f xs.
Proof.
  induction xs as [|y xs IH]; intros H Hx; [set_solver|]. rewrite zsum_cons.
  assert (0 <= zsum f xs).
  { rewrite <-(zsum_zero xs). apply zsum_le. set_solver. }
  pose proof (H y ltac:(set_solver)).
  apply elem_of_cons in Hx as [->|Hx]; [lia|].
  specialize (IH ltac:(set_solver) Hx). lia.
Qed.

(** ** The abstract algorithm is fair *)

Lemma argmax_from_spec cw best xs :
  match argmax_from cw best xs with
  | None => best = None ∧ xs = []
  | Some b => (best = Some b ∨ b ∈ xs) ∧ (∀ x, x ∈ xs → cw x <= cw b) ∧
              ∀ y, best = Some y → cw y <= cw b
  end.
Proof.
  revert best. induction xs as [|x xs IH]; intros best; cbn.
  { destruct best as [b|]; [|done]. split_and!; [by left|set_solver|].
    intros y [= ->]. lia. }
  set (best' := match best with
                | Some y => if cw y <? cw x then Some x else best
                | None => Some x end).
  assert (best' = Some x ∧ (∀ y, best = Some y → cw y < cw x) ∨
          best' = best ∧ ∃ y, best = Some y ∧ cw x <= cw y) as Hb'.
  { unfold best'. destruct best as [y|]; [|by left].
    destruct (Z.ltb_spec (cw y) (cw x)); [left|right; by eauto].
    split; [done|]. by intros ? [= <-]. }
  specialize (IH best'). unfold argmax_from in IH. clearbody best'.
  destruct (fold_left _ xs best') as [b|].
  - destruct IH as (Hb & Hx & Hy).
    destruct Hb' as [[-> Hlt]|[-> (y & -> & Hle)]].
    + specialize (Hy x eq_refl). split_and!.
      * destruct Hb as [[= ->]|?]; right; set_solver.
      * intros z [->|Hz]%elem_of_cons; [done|auto].
      * intros y Ey. specialize (Hlt y Ey). lia.
    + pose proof (Hy y eq_refl). split_and!; [|intros z [->|Hz]%elem_of_cons; [lia|auto]|done].
      destruct Hb as [?|?]; [by left|right; set_solver].
  - destruct IH as [-> _], Hb' as [[? _]|[<- (y & ? & _)]]; done.
Qed.

Section fairness.
Context (W : PeerId → Z) (xs : list PeerId).
Hypothesis xs_nodup : NoDup xs.
Hypothesis W_pos : ∀ x, x ∈ xs → 1 <= W x.
Hypothesis xs_nonempty : xs ≠ [].

Let T := zsum W xs.

(** The weights sum to zero and none has fallen to minus the total. *)
Definition swrr_bal (cw : PeerId → Z) : Prop :=
  zsum cw xs = 0 ∧ ∀ x, x ∈ xs → - T < cw x.

(** After [t] rounds each weight is moreover its peer's share of the rounds
    less what it has paid. *)
Definition swrr_inv (t : Z) (cw n : PeerId → Z) : Prop :=
  swrr_bal cw ∧ ∀ x, x ∈ xs → cw x = t * W x - T * n x.

Lemma T_pos : 1 <= T.
Proof.
  unfold T. destruct xs as [|x l] eqn:E; [done|]. rewrite <-E in *.
  transitivity (W x); [apply W_pos; rewrite E; set_solver|].
  apply zsum_elem; [intros y Hy; specialize (W_pos y Hy); lia|rewrite E; set_solver].
Qed.

Lemma swrr_bal_step cw :
  swrr_bal cw →
  ∃ b, swrr_pick W cw xs = Some b ∧ b ∈ xs ∧ swrr_bal (swrr_next W cw xs b).
Proof.
  intros [Hsum Hlow]. unfold swrr_pick. pose proof T_pos as HT.
  pose proof (argmax_from_spec (λ x, cw x + W x) None xs) as Hm.
  destruct (argmax_from _ None xs) as [b|]; [|by destruct Hm].
  destruct Hm as ([?|Hb] & Hmax & _); [done|]. exists b. split_and!; [done|done|].
  assert (zsum (λ x, cw x + W x) xs = T) as HcT by (rewrite zsum_add, Hsum; done).
  assert (1 <= cw b + W b) as Hpos.
  { destruct (decide (1 <= cw b + W b)); [done|].
    assert (zsum (λ x, cw x + W x) xs <= zsum (λ _, 0) xs) as H0.
    { apply zsum_le. intros x Hx. specialize (Hmax x Hx). cbn in Hmax. lia. }
    rewrite zsum_zero in H0. lia. }
  split; unfold swrr_next.
  - rewrite (zsum_ext _ (λ x, (cw x + W x) + (if decide (x = b) then - T else 0)))
      by (intros; unfold T; case_decide; lia).
    rewrite zsum_add, HcT, zsum_indicator by done. lia.
  - intros x Hx. specialize (W_pos x Hx). specialize (Hlow x Hx). fold T.
    destruct (decide (x = b)) as [->|]; lia.
Qed.

Lemma swrr_step t cw n :
  swrr_inv t cw n →
  ∃ b, swrr_pick W cw xs = Some b ∧ b ∈ xs ∧
    swrr_inv (t + 1) (swrr_next W cw xs b)
      (λ x, n x + if decide (x = b) then 1 else 0).
Proof.
  intros [Hbal Hinv]. destruct (swrr_bal_step cw Hbal) as (b & Hp & Hb & Hbal').
  exists b. split; [done|split; [done|split; [done|]]].
  intros x Hx. unfold swrr_next. fold T. rewrite (Hinv x Hx). destruct (decide (x = b)); ring.
Qed.

Lemma picks_cons x b l : picks x (b :: l) = (if decide (x = b) then 1 else 0) + picks x l.
Proof.
  unfold picks. rewrite filter_cons.
  destruct (decide (b = x)), (decide (x = b)); cbn [length]; subst; try done; lia.
Qed.

Lemma swrr_run_inv k t cw n :
  swrr_inv t cw n →
  length (swrr_run k W cw xs) = k ∧ (∀ x, x ∈ swrr_run k W cw xs → x ∈ xs) ∧
  swrr_inv (t + Z.of_nat k) (swrr_weights k W cw xs) (λ x, n x + picks x (swrr_run k W cw xs)).
Proof.
  revert t cw n. induction k as [|k IH]; intros t cw n Hi; cbn [swrr_run swrr_weights].
  - split_and!; [done|set_solver|]. rewrite Z.add_0_r.
    destruct Hi as [? Hi]. split; [done|]. intros x Hx. rewrite (Hi x Hx).
    cbn. by rewrite Z.add_0_r.
  - destruct (swrr_step _ _ _ Hi) as (b & Eb & Hb & Hi'). rewrite Eb.
    destruct (IH _ _ _ Hi') as (Hl & Hin & ? & Hcw').
    split_and!; [by cbn; rewrite Hl|set_solver|]. split; [done|]. intros x Hx.
    rewrite picks_cons, (Hcw' x Hx). lia.
Qed.

Lemma swrr_inv_init : swrr_inv 0 (λ _, 0) (λ _, 0).
Proof.
  pose proof T_pos. split; [split; [apply zsum_zero|]|]; intros x _; lia.
Qed.

Lemma picks_sum l : (∀ x, x ∈ l → x ∈ xs) → zsum (λ x, picks x l) xs = Z.of_nat (length l).
Proof.
  induction l as [|b l IH]; intros Hl.
  - cbn. apply zsum_zero.
  - rewrite (zsum_ext _ (λ x, (if decide (x = b) then 1 else 0) + picks x l))
      by (intros; apply picks_cons).
    rewrite zsum_add, zsum_indicator, IH; [cbn; lia|set_solver|done|apply Hl; set_solver].
Qed.

(** Never ahead of the proportional share by a whole selection. *)
Lemma swrr_ahead k x :
  x ∈ xs →
  T * picks x (swrr_run k W (λ _, 0) xs) < Z.of_nat k * W x + T.
Proof.
  intros Hx. destruct (swrr_run_inv k 0 _ _ swrr_inv_init) as (_ & _ & [_ Hlow] & Hi).
  specialize (Hlow x Hx). rewrite (Hi x Hx) in Hlow. lia.
Qed.

(** A balanced weight is below the sum of what the others can have paid. *)
Lemma swrr_bal_upper cw x :
  swrr_bal cw → x ∈ xs → cw x <= (Z.of_nat (length xs) - 1) * (T - 1).
Proof.
  intros [Hsum Hlow] Hx.
  assert (cw x + (T - 1) <= zsum (λ y, cw y + (T - 1)) xs) as He.
  { apply (zsum_elem (λ y, cw y + (T - 1))); [|done]. intros y Hy. specialize (Hlow y Hy). lia. }
  rewrite zsum_add, Hsum, zsum_const in He. lia.
Qed.

(** Nor is any peer left behind. *)
Lemma swrr_behind k x :
  x ∈ xs →
  Z.of_nat k * W x - (Z.of_nat (length xs) - 1) * (T - 1) <=
    T * picks x (swrr_run k W (λ _, 0) xs).
Proof.
  intros Hx. destruct (swrr_run_inv k 0 _ _ swrr_inv_init) as (_ & _ & Hbal & Hi).
  pose proof (swrr_bal_upper _ x Hbal Hx) as Hup. rewrite (Hi x Hx) in Hup. lia.
Qed.

(** Over a whole cycle every peer gets exactly its weight. *)
Lemma swrr_cycle x :
  x ∈ xs → picks x (swrr_run (Z.to_nat T) W (λ _, 0) xs) = W x.
Proof.
  intros Hx. pose proof T_pos as HT.
  destruct (swrr_run_inv (Z.to_nat T) 0 _ _ swrr_inv_init) as (Hl & Hin & _).
  set (l := swrr_run _ _ _ _) in *.
  assert (∀ y, y ∈ xs → picks y l <= W y) as Hle.
  { intros y Hy. pose proof (swrr_ahead (Z.to_nat T) y Hy) as Ha. fold l in Ha.
    rewrite Z2Nat.id in Ha by lia. nia. }
  pose proof (picks_sum l Hin) as Hs. rewrite Hl, Z2Nat.id in Hs by lia.
  destruct (decide (picks x l = W x)) as [|Hne]; [done|exfalso].
  assert (zsum (λ y, W y - picks y l) xs = 0) as Hz.
  { rewrite (zsum_ext _ (λ y, W y + - picks y l)) by (intros; lia).
    rewrite zsum_add, zsum_opp. unfold T in Hs. lia. }
  pose proof (zsum_elem (λ y, W y - picks y l) xs x) as He. cbn in He.
  specialize (Hle x Hx) as Hlx.
  assert (W x - picks x l <= 0); [|lia]. rewrite <-Hz. apply He; [|done].
  intros y Hy. specialize (Hle y Hy). lia.
Qed.

(** After which the weights are where they were. *)
Lemma swrr_cycle_rest x : x ∈ xs → swrr_weights (Z.to_nat T) W (λ _, 0) xs x = 0.
Proof.
  intros Hx. pose proof T_pos as HT.
  destruct (swrr_run_inv (Z.to_nat T) 0 _ _ swrr_inv_init) as (_ & _ & _ & Hi).
  rewrite (Hi x Hx), Z2Nat.id, swrr_cycle by (done || lia). lia.
Qed.
End fairness.

(** ** The pass over the heap computes its closed form *)

Lemma bump_all_cons x xs h : bump_all (x :: xs) h = bump_all xs (<[x := bump (h !!! x)]> h).
Proof. done. Qed.

Lemma bump_all_lookup xs (h : Heap) q :
  NoDup xs → bump_all xs h !!! q = if decide (q ∈ xs) then bump (h !!! q) else h !!! q.
Proof.
  intros Hnd. revert h. induction Hnd as [|x xs Hx Hnd IH]; intros h.
  - rewrite decide_False by set_solver. done.
  - rewrite bump_all_cons, IH, heap_insert.
    destruct (decide (x = q)) as [->|].
    + rewrite decide_False by done. rewrite decide_True by set_solver. done.
    + apply decide_ext. set_solver.
Qed.

Lemma argmax_from_ext cw cw' best xs :
  (∀ x, x ∈ xs ∨ best = Some x → cw x = cw' x) →
  argmax_from cw best xs = argmax_from cw' best xs.
Proof.
  unfold argmax_from. revert best. induction xs as [|x xs IH]; intros best H; [done|].
  cbn [fold_left]. destruct best as [y|].
  - rewrite (H x), (H y) by set_solver. apply IH.
    intros z [?|E]; [apply H; set_solver|]. apply H.
    destruct (_ <? _); [left; set_solver|by right].
  - apply IH. intros z [?|[= <-]]; apply H; set_solver.
Qed.

Lemma total_from_ext h h' t xs :
  (∀ x, x ∈ xs → effectiveWeight (h !!! x) = effectiveWeight (h' !!! x)) →
  total_from h t xs = total_from h' t xs.
Proof.
  unfold total_from. revert t. induction xs as [|x xs IH]; intros t H; [done|].
  cbn [fold_left]. rewrite (H x) by set_solver. apply IH. set_solver.
Qed.

Lemma total_from_eq (h : Heap) t xs :
  is_int t → total_from h t xs = wrap_int (t + zsum (λ x, effectiveWeight (h !!! x)) xs).
Proof.
  unfold total_from. revert t. induction xs as [|x xs IH]; intros t Ht.
  - rewrite zsum_nil, Z.add_0_r. cbn. by rewrite wrap_int_id.
  - cbn [fold_left]. rewrite IH by apply wrap_int_range.
    unfold int_add. rewrite wrap_int_add_l, zsum_cons. f_equal. lia.
Qed.

#[export] Instance reweighted_preorder : PreOrder reweighted.
Proof.
  split.
  - intros h q. exists (currentWeight (h !!! q)), (effectiveWeight (h !!! q)).
    by destruct (h !!! q).
  - intros a b c H1 H2 q. destruct (H1 q) as (? & ? & E), (H2 q) as (cw & ew & ->).
    exists cw, ew. by rewrite E.
Qed.

Lemma reweighted_bump h x : reweighted h (<[x := bump (h !!! x)]> h).
Proof.
  intros q. rewrite heap_insert. case_decide; subst.
  - rewrite bump_eq. by eexists _, _.
  - by apply (reflexivity (R := reweighted)).
Qed.

Section closed_form.
Context {P : Type} (p : P) (h0 : Heap) (eligible : nat → M P bool) (e : nat → bool).
Hypothesis eligible_pure : ∀ x w,
  reweighted h0 (heap w) → eligible x p w = Ret (e x, p, w).

Lemma smooth_loop_closed xs best total w :
  NoDup xs → (∀ b, best = Some b → b ∉ xs) → reweighted h0 (heap w) →
  let ys := filter (λ x, e x = true) xs in
  smooth_loop xs eligible best total p w =
    Ret ((argmax_from (current (bump_all ys (heap w))) best ys,
          total_from (heap w) total ys), p, set_heap (bump_all ys (heap w)) w).
Proof.
  intros Hnd. revert best total w. induction Hnd as [|x xs Hx Hnd IH];
    intros best total w Hb Hr; cbn [smooth_loop].
  { unfold set_heap. cbn. by destruct w. }
  rewrite (bind_Ret _ _ _ _ _ _ _ (eligible_pure x w Hr)).
  rewrite filter_cons. destruct (e x) eqn:Ex; cbn [negb].
  2:{ rewrite decide_False by done. apply IH; [|done]. intros b E. specialize (Hb b E). set_solver. }
  rewrite decide_True by done. set (ys := filter (λ x, e x = true) xs) in *.
  assert (ys ⊆ xs) as Hys by (unfold ys; intros y [_ ?]%list_elem_of_filter; done).
  assert (NoDup ys) as Hndy by by apply NoDup_filter.
  rewrite (bind_Ret (load x) _ _ _ _ _ _ eq_refl).
  rewrite (bind_Ret (store x bump) _ _ _ _ _ _ eq_refl).
  set (w1 := set_heap (<[x := bump (heap w !!! x)]> (heap w)) w).
  assert (reweighted h0 (heap w1)) as Hr1
    by (etransitivity; [exact Hr|apply reweighted_bump]).
  set (h' := bump_all (x :: ys) (heap w)).
  assert (∀ q, q ∉ ys → h' !!! q = heap w1 !!! q) as Hh'.
  { intros q Hq. unfold h'. rewrite bump_all_cons, bump_all_lookup by done.
    by rewrite decide_False. }
  assert (∀ b, best = Some b →
    better best x p w1 = Ret (current h' b <? current h' x, p, w1)) as Hbetter.
  { intros b Eb. rewrite Eb. unfold current. rewrite (Hh' b), (Hh' x); [done|set_solver|].
    specialize (Hb b Eb). set_solver. }
  assert (∀ best', (∀ b, best' = Some b → b ∉ xs) →
    smooth_loop xs eligible best' (total +! effectiveWeight (heap w !!! x)) p w1 =
    Ret ((argmax_from (current h') best' ys,
          total_from (heap w) (total +! effectiveWeight (heap w !!! x)) ys), p,
         set_heap h' w)) as Hrec.
  { intros best' Hb'. rewrite IH by done. fold ys. cbn [heap set_heap].
    unfold h'. rewrite bump_all_cons.
    rewrite (total_from_ext (heap w1) (heap w)); [done|].
    intros y Hy. unfold w1. cbn [heap set_heap]. rewrite heap_insert_ne; [done|set_solver]. }
  unfold argmax_from, total_from. cbn [fold_left].
  fold (argmax_from (current h')) (total_from (heap w)).
  destruct best as [b|].
  - rewrite (bind_Ret _ _ _ _ _ _ _ (Hbetter b eq_refl)). apply Hrec.
    intros b' E. specialize (Hb b eq_refl). destruct (_ <? _); simplify_eq; set_solver.
  - rewrite (bind_Ret (better None x) _ _ _ _ _ _ eq_refl). apply Hrec.
    by intros ? [= <-].
Qed.

Lemma smoothWeightedPeer_closed xs w :
  NoDup xs → reweighted h0 (heap w) →
  let ys := filter (λ x, e x = true) xs in
  smoothWeightedPeer xs eligible p w =
    Ret (smooth_best ys (heap w), p, set_heap (smooth_heap ys (heap w)) w).
Proof.
  intros Hnd Hr ys. unfold smoothWeightedPeer.
  rewrite (bind_Ret _ _ _ _ _ _ _ (smooth_loop_closed xs None 0 w Hnd ltac:(done) Hr)).
  fold ys. unfold smooth_heap, smooth_best.
  pose proof (argmax_from_spec (current (bump_all ys (heap w))) None ys) as Hm.
  destruct (argmax_from _ None ys) as [b|]; [done|]. by destruct Hm as [_ ->].
Qed.
End closed_form.

(** ** Serving requests computes the abstract algorithm *)

Lemma bump_current pr :
  effectiveWeight pr = Weight pr → is_int (currentWeight pr + Weight pr) →
  bump pr = set_weights (currentWeight pr + Weight pr) (Weight pr) pr.
Proof.
  intros E Hi. rewrite bump_eq, E, Z.ltb_irrefl. unfold int_add.
  by rewrite wrap_int_id.
Qed.

Lemma healthy_ok pk (h : Heap) now x :
  tried pk = ∅ → Down (h !!! x) = false → fails (h !!! x) = 0 → conns (h !!! x) = 0 →
  rr_ok pk h now x = true.
Proof.
  intros Ht Hd Hf Hc. unfold rr_ok, Tried, failed_out, conns_full.
  rewrite Ht, Hd, Hf, Hc. rewrite bool_decide_false by set_solver.
  assert (∀ z, (0 <? z) && (z <=? 0) = false) as Hz.
  { intros z. destruct (Z.ltb_spec 0 z), (Z.leb_spec z 0); try done; lia. }
  by rewrite !Hz.
Qed.

Lemma rr_eligible_pure pk h0 now x w :
  reweighted h0 (heap w) → rr_eligible now x pk w = Ret (rr_ok pk h0 now x, pk, w).
Proof.
  intros Hr. destruct (Hr x) as (cw & ew & E).
  unfold rr_eligible, rr_ok. rewrite (bind_Ret self _ _ _ _ _ _ eq_refl).
  destruct (Tried x pk); [done|]. rewrite (bind_Ret (load x) _ _ _ _ _ _ eq_refl), E.
  cbn. destruct (Down (h0 !!! x)); [done|].
  change (failed_out (set_weights cw ew (h0 !!! x)) now) with (failed_out (h0 !!! x) now).
  change (conns_full (set_weights cw ew (h0 !!! x))) with (conns_full (h0 !!! x)).
  by destruct (failed_out _ _), (conns_full _).
Qed.

Lemma filter_all {A} (f : A → bool) (l : list A) :
  (∀ x, x ∈ l → f x = true) → filter (λ x, f x = true) l = l.
Proof.
  induction l as [|x l IH]; intros H; [done|].
  rewrite filter_cons, decide_True by (apply H; set_solver). f_equal. apply IH. set_solver.
Qed.

Lemma serve_n_add n m rr w rs w1 rs' w2 :
  serve_n n rr w = Ret (rs, w1) → serve_n m rr w1 = Ret (rs', w2) →
  serve_n (n + m) rr w = Ret (rs ++ rs', w2).
Proof.
  revert w rs. induction n as [|n IH]; intros w rs; cbn [serve_n Nat.add].
  { by intros [= <- <-]. }
  destruct (serve rr w) as [[r w3]|]; [|done].
  destruct (serve_n n rr w3) as [[rs1 w4]|] eqn:E; [|done]. intros [= <- <-] E'.
  by rewrite (IH w3 rs1 E E').
Qed.

Section serving.
Context (rr : RoundRobin) (W : PeerId → Z).
Let xs := Peers (rr_primary rr).
Let T := zsum W xs.
Hypothesis xs_nodup : NoDup xs.
Hypothesis not_single : single (rr_primary rr) = false.
Hypothesis W_pos : ∀ x, x ∈ xs → 1 <= W x.
Hypothesis xs_nonempty : xs ≠ [].
Hypothesis no_overflow : (Z.of_nat (length xs) + 1) * T <= max_int.

Lemma cw_upper cw x :
  swrr_bal W xs cw → x ∈ xs →
  cw x <= Z.of_nat (length xs) * T.
Proof.
  intros Hbal Hx. pose proof (swrr_bal_upper W xs cw x Hbal Hx) as H. fold T in H.
  pose proof (T_pos W xs xs_nodup W_pos xs_nonempty) as HT. fold T in HT. lia.
Qed.

Lemma sums_in_range cw x :
  swrr_bal W xs cw → x ∈ xs →
  is_int (cw x + W x) ∧ is_int (cw x + W x - T) ∧ is_int T.
Proof.
  intros Hbal Hx. pose proof (cw_upper cw x Hbal Hx).
  destruct Hbal as [_ Hlow]. pose proof (Hlow x Hx). fold T in Hlow. pose proof (W_pos x Hx).
  assert (W x <= T).
  { apply zsum_elem; [|done]. intros y Hy. specialize (W_pos y Hy). lia. }
  assert (Z.of_nat (length xs) * T + T <= max_int) by lia.
  assert (T <= Z.of_nat (length xs) * T).
  { destruct xs as [|y l]; [done|]. cbn [length]. nia. }
  unfold is_int, min_int, max_int in *. lia.
Qed.

(** The pass over a balancer at rest. *)
Lemma pass_at_rest cw h :
  at_rest rr W cw h → swrr_bal W xs cw →
  ∃ b, b ∈ xs ∧ swrr_pick W cw xs = Some b ∧ swrr_bal W xs (swrr_next W cw xs b) ∧
    smooth_best xs h = Some b ∧
    ∀ q, smooth_heap xs h !!! q =
      if decide (q ∈ xs) then set_weights (swrr_next W cw xs b q) (W q) (h !!! q)
      else h !!! q.
Proof.
  intros [_ _ Har] Hbal.
  assert (∀ q, q ∈ xs → bump_all xs h !!! q = set_weights (cw q + W q) (W q) (h !!! q)) as Hb.
  { intros q Hq. rewrite bump_all_lookup, decide_True by done.
    destruct (Har q Hq) as (EW & EE & EC). unfold current in EC.
    destruct (sums_in_range cw q Hbal Hq) as (? & _).
    rewrite bump_current, EC, EW; [done|congruence|by rewrite EC, EW]. }
  assert (smooth_best xs h = swrr_pick W cw xs) as Ebest.
  { apply argmax_from_ext. intros q [Hq|?]; [|done]. unfold current. by rewrite Hb. }
  destruct (swrr_bal_step W xs xs_nodup W_pos xs_nonempty cw Hbal) as (b & Ep & Hin & Hbal').
  exists b. rewrite Ebest. split_and!; [done..|]. intros q.
  destruct (sums_in_range cw b Hbal Hin) as (_ & Hr & HT).
  assert (total_from h 0 xs = T) as HtT.
  { rewrite total_from_eq by (unfold is_int, min_int, max_int; lia).
    rewrite (zsum_ext _ W) by (intros x Hx; by destruct (Har x Hx) as (_ & -> & _)).
    by apply wrap_int_id. }
  unfold smooth_heap. rewrite Ebest, Ep. unfold pay. rewrite heap_insert, HtT.
  unfold swrr_next. fold T. destruct (decide (b = q)) as [->|].
  - rewrite decide_True, Hb by done. rewrite decide_True by done. cbn.
    unfold int_sub. by rewrite wrap_int_id.
  - destruct (decide (q ∈ xs)); [|by rewrite bump_all_lookup, decide_False].
    rewrite Hb, decide_False by congruence. by rewrite Z.sub_0_r.
Qed.

Lemma pick_at_rest cw w :
  at_rest rr W cw (heap w) → swrr_bal W xs cw →
  ∃ b pk w1, b ∈ xs ∧ swrr_pick W cw xs = Some b ∧
    swrr_bal W xs (swrr_next W cw xs b) ∧
    Pick (NewPicker rr) w = Ret (Some b, pk, w1) ∧ same_groups (NewPicker rr) pk ∧
    committed (smooth_heap xs (heap w) !!! b) (heap w1 !!! b) ∧
    ∀ q, q ≠ b → heap w1 !!! q = smooth_heap xs (heap w) !!! q.
Proof.
  intros Har Hbal. destruct (pass_at_rest cw (heap w) Har Hbal)
    as (b & Hb & Hp & Hbal' & Hbest & Hheap).
  set (pk := NewPicker rr). set (now := clock w (ticks w)).
  assert (filter (λ x, rr_ok pk (heap w) now x = true) xs = xs) as Hfilter.
  { apply filter_all. intros x Hx. destruct (ar_up _ _ _ _ Har x Hx) as (? & ? & ?).
    by apply healthy_ok. }
  pose proof (smoothWeightedPeer_closed pk (heap w) (rr_eligible now)
    (rr_ok pk (heap w) now) (λ x w', rr_eligible_pure pk (heap w) now x w')
    xs (tick w) xs_nodup (reflexivity _)) as Hs.
  cbn [heap tick] in Hs. rewrite Hfilter, Hbest in Hs.
  set (w1 := set_heap (smooth_heap xs (heap w)) (tick w)) in *.
  destruct (proj1 (wp_exists _ _ _ _) (commitPeer_spec b now pk w1))
    as (r & pk' & w2 & Hc & -> & _ & Hg & _ & _ & Hcm & Ho & _).
  exists b, pk', w2. split_and!; [done..| |done|done|done].
  unfold Pick, pickWithBackup. rewrite (bind_Ret self _ _ _ _ _ _ eq_refl).
  change (negb (backupPhase pk)) with true. cbn iota.
  change (primary pk) with (rr_primary rr).
  rewrite (bind_Ret _ _ pk w (Some b) pk' w2); [reflexivity|].
  unfold pickFromCurrentGroup, pickFromGroup. rewrite not_single.
  rewrite (bind_Ret Now _ _ _ _ _ _ eq_refl). fold now xs.
  rewrite (bind_Ret _ _ _ _ _ _ _ Hs). by rewrite (bind_Ret _ _ _ _ _ _ _ Hc).
Qed.

(** The peer a request holds: as the pass left it, with its connection. *)
Record held_at_rest (cw : PeerId → Z) (b : PeerId) (h : Heap) (pr : Peer) : Prop := {
  hr_Backup : Backup pr = false;
  hr_fails : fails pr = 0;
  hr_conns : conns pr = 1;
  hr_Down : Down pr = false;
  hr_Weight : Weight pr = W b;
  hr_effective : effectiveWeight pr = W b;
  hr_current : currentWeight pr = cw b;
  hr_static : static pr = static (h !!! b);
  hr_ok : peer_ok pr;
}.

Lemma committed_at_rest cw cw' b h p pr :
  at_rest rr W cw h → b ∈ xs → p = set_weights (cw' b) (W b) (h !!! b) → committed p pr →
  held_at_rest cw' b h pr.
Proof.
  intros Har Hb -> Hcm. destruct (ar_up _ _ _ _ Har b Hb) as (Hd & Hf & Hc).
  destruct (ar_weight _ _ _ _ Har b Hb) as (HW & HE & _).
  pose proof (gw_primary _ _ _ (ar_wf _ _ _ _ Har) b Hb) as HBk.
  assert (peer_ok pr) as Hok.
  { apply (committed_ok _ _ Hcm). pose proof (gw_primary_ok _ _ _ (ar_wf _ _ _ _ Har) b Hb) as [].
    specialize (W_pos b Hb). split; cbn; try done. rewrite HW. lia. }
  destruct Hcm as [E|[now E]]; (split; [..|exact Hok]; rewrite E; cbn; by rewrite ?Hc).
Qed.

(** The peers after the release of [b]: every other one as the pass left it. *)
Lemma released_at_rest cw cw' b h h' pr :
  at_rest rr W cw h → held_at_rest cw' b h pr →
  h' !!! b = set_conns 0 (succeed_peer pr) →
  (∀ q, q ≠ b → h' !!! q = if decide (q ∈ xs) then set_weights (cw' q) (W q) (h !!! q)
                           else h !!! q) →
  at_rest rr W cw' h'.
Proof.
  intros Har [HB Hf Hc Hd HW HE HC Hs Hok] Hself Hother. split.
  - eapply groups_wf_mono; [| |apply Har]; intros q; destruct (decide (q = b)) as [->|Hq].
    + rewrite Hself, <-Hs. by destruct (succeed_peer_cases pr) as [-> | ->].
    + rewrite Hother by done. by case_decide.
    + intros _. rewrite Hself. destruct (succeed_peer_ok pr Hok). by split.
    + rewrite Hother by done. case_decide as Hin; [|done].
      intros []. specialize (W_pos q Hin).
      destruct (ar_weight _ _ _ _ Har q Hin) as (EW & _ & _).
      split; cbn; try done. rewrite EW. lia.
  - intros q Hq. destruct (decide (q = b)) as [->|Hne].
    + rewrite Hself. destruct (succeed_peer_cases pr) as [-> | ->]; by split_and!.
    + rewrite Hother, decide_True by done. by apply (ar_up _ _ _ _ Har).
  - intros q Hq. unfold current. destruct (decide (q = b)) as [->|Hne].
    + rewrite Hself. destruct (succeed_peer_cases pr) as [-> | ->]; by split_and!.
    + rewrite Hother, decide_True by done. split_and!; [|done|done].
      by apply (ar_weight _ _ _ _ Har).
Qed.

(** One request: the selected peer is released healthy and the balancer is at
    rest again, one abstract step further. *)
Lemma serve_at_rest cw w :
  at_rest rr W cw (heap w) → swrr_bal W xs cw →
  ∃ b w', serve rr w = Ret (Some b, w') ∧ swrr_pick W cw xs = Some b ∧
    swrr_bal W xs (swrr_next W cw xs b) ∧
    at_rest rr W (swrr_next W cw xs b) (heap w').
Proof.
  intros Har Hbal.
  destruct (pick_at_rest cw w Har Hbal)
    as (b & pk & w1 & Hb & Hp & Hbal' & Hpick & [Hg Hbk] & Hcm & Ho).
  destruct (pass_at_rest cw (heap w) Har Hbal) as (b' & _ & Hp' & _ & _ & Hheap).
  assert (b' = b) as -> by congruence.
  pose proof (Hheap b) as Hhb. rewrite decide_True in Hhb by done.
  pose proof (committed_at_rest _ _ b _ _ _ Har Hb Hhb Hcm) as Hheld.
  assert (single (done_group pk (heap w1 !!! b)) = false) as Hsg.
  { unfold done_group. rewrite (hr_Backup _ _ _ _ Hheld), Hg. exact not_single. }
  pose proof (done_outcome_eq pk w1 b false Hsg) as Hdone.
  set (w2 := set_heap _ _) in Hdone.
  exists b, w2. split_and!; [|done|done|].
  { unfold serve. rewrite Hpick. unfold Done. by rewrite Hdone. }
  apply (released_at_rest cw _ b (heap w) _ (heap w1 !!! b)); [done|done|..]; unfold w2;
    cbn [heap set_heap].
  - by rewrite heap_insert_eq, (hr_conns _ _ _ _ Hheld).
  - intros q Hq. rewrite heap_insert_ne by done. by rewrite Ho, Hheap.
Qed.

Lemma serve_n_at_rest n cw w :
  at_rest rr W cw (heap w) → swrr_bal W xs cw →
  ∃ w', serve_n n rr w = Ret (Some <$> swrr_run n W cw xs, w') ∧
    at_rest rr W (swrr_weights n W cw xs) (heap w').
Proof.
  revert cw w. induction n as [|n IH]; intros cw w Har Hbal; [by exists w|].
  destruct (serve_at_rest cw w Har Hbal) as (b & w1 & Hserve & Hp & Hbal' & Har').
  destruct (IH _ _ Har' Hbal') as (w2 & Hrun & Hrest).
  exists w2. cbn [serve_n swrr_run swrr_weights]. by rewrite Hserve, Hp, Hrun.
Qed.

Lemma at_rest_ext cw cw' h :
  (∀ x, x ∈ xs → cw x = cw' x) → at_rest rr W cw h → at_rest rr W cw' h.
Proof.
  intros E [Hwf Hup Hw]. split; [done..|]. intros x Hx. rewrite <-(E x Hx). by apply Hw.
Qed.

(** One cycle from rest to rest. *)
Lemma serve_cycle w :
  at_rest rr W (λ _, 0) (heap w) →
  ∃ w', serve_n (Z.to_nat T) rr w = Ret (Some <$> swrr_run (Z.to_nat T) W (λ _, 0) xs, w') ∧
    at_rest rr W (λ _, 0) (heap w').
Proof.
  intros Har. pose proof (swrr_inv_init W xs xs_nodup W_pos xs_nonempty) as [Hbal _].
  destruct (serve_n_at_rest (Z.to_nat T) _ w Har Hbal) as (w' & E & Har').
  exists w'. split; [done|]. revert Har'. apply at_rest_ext. intros x Hx.
  by apply swrr_cycle_rest.
Qed.
End serving.

(** ** Conservation of the current weights *)

Lemma zsum_cong f g xs :
  (∀ x, x ∈ xs → f x mod 2 ^ 64 = g x mod 2 ^ 64) →
  zsum f xs mod 2 ^ 64 = zsum g xs mod 2 ^ 64.
Proof.
  zsum_induction xs; intros H; [done|].
  rewrite Z.add_mod, (H x), IH, <-Z.add_mod by (set_solver || lia). done.
Qed.

Lemma zsum_filter (e : PeerId → bool) f xs :
  zsum f (filter (λ x, e x = true) xs) = zsum (λ x, if e x then f x else 0) xs.
Proof.
  zsum_induction xs; [done|]. rewrite filter_cons. destruct (e x) eqn:E.
  - rewrite decide_True, zsum_cons by done. lia.
  - rewrite decide_False by done. lia.
Qed.

Lemma smooth_heap_current (e : PeerId → bool) xs h :
  NoDup xs →
  let ys := filter (λ x, e x = true) xs in
  zsum (current (smooth_heap ys h)) xs mod 2 ^ 64 = zsum (current h) xs mod 2 ^ 64.
Proof.
  intros Hnd ys. unfold smooth_heap, smooth_best.
  pose proof (argmax_from_spec (current (bump_all ys h)) None ys) as Hm.
  destruct (argmax_from _ None ys) as [b|]; [|done].
  destruct Hm as ([?|Hb] & _); [done|].
  assert (NoDup ys) as Hndy by (by apply NoDup_filter).
  assert (b ∈ xs) as Hbx by (unfold ys in Hb; by apply list_elem_of_filter in Hb as [_ ?]).
  set (S := zsum (λ x, effectiveWeight (h !!! x)) ys).
  rewrite (zsum_cong _ (λ x, (current h x + (if e x then effectiveWeight (h !!! x) else 0))
    + (if decide (x = b) then - S else 0))).
  - rewrite !zsum_add, <-zsum_filter, zsum_indicator by done. fold ys S. f_equal. lia.
  - intros x Hx. unfold current, pay.
    assert (currentWeight (bump_all ys h !!! x) mod 2 ^ 64 =
      (currentWeight (h !!! x) + (if e x then effectiveWeight (h !!! x) else 0)) mod 2 ^ 64)
      as Hbump.
    { rewrite bump_all_lookup by done. destruct (e x) eqn:E.
      - rewrite decide_True by (apply list_elem_of_filter; done).
        rewrite bump_eq. apply wrap_int_mod.
      - rewrite decide_False, Z.add_0_r; [done|].
        unfold ys. rewrite list_elem_of_filter. intros [? _]. congruence. }
    rewrite heap_insert. destruct (decide (b = x)) as [->|].
    + rewrite decide_True by done. cbn [set_currentWeight set_weights currentWeight].
      rewrite total_from_eq by (unfold is_int, min_int, max_int; lia). fold S.
      unfold int_sub. rewrite wrap_int_mod, Zminus_mod, wrap_int_mod, <-Zminus_mod, Z.add_0_l.
      rewrite Zminus_mod, Hbump, <-Zminus_mod. f_equal.
    + rewrite decide_False, Z.add_0_r by done. done.
Qed.

(** ** Properties *)

(** C22: a pass of [smoothWeightedPeer] over distinct peers is the closed form of
    nginx's algorithm, machine arithmetic included: every eligible peer's
    current weight grows by its effective weight and its effective weight by one
    while below the weight, the winner is the first eligible peer with the
    greatest current weight and then pays the sum of the effective weights, the
    other peers stay as they are, and without an eligible peer nothing happens. *)
Theorem smoothWeightedPeer_reference {P} (p : P) (eligible : PeerId → M P bool)
    (e : PeerId → bool) (xs : list PeerId) (w : World) :
  NoDup xs →
  (∀ x w', reweighted (heap w) (heap w') → eligible x p w' = Ret (e x, p, w')) →
  let ys := filter (λ x, e x = true) xs in
  smoothWeightedPeer xs eligible p w =
    Ret (smooth_best ys (heap w), p, set_heap (smooth_heap ys (heap w)) w).
Proof.
  intros Hnd He. apply (smoothWeightedPeer_closed p (heap w) eligible e He xs w Hnd).
  reflexivity.
Qed.

(** Three peers of weights 5, 1, 1, the last one ineligible. *)
Definition swrr_heap : Heap :=
  <[0%nat := init (demo_peer "a" 5)]> (<[1%nat := init (demo_peer "b" 1)]>
    {[2%nat := init (demo_peer "c" 1)]}).

Lemma smoothWeightedPeer_reference_witness :
  let w := MkWorld swrr_heap demo_clock 0 0 in
  smoothWeightedPeer [0; 1; 2]%nat (λ x, mret (x <? 2)%nat) tt w =
    Ret (smooth_best [0; 1]%nat swrr_heap, tt,
         set_heap (smooth_heap [0; 1]%nat swrr_heap) w) ∧
  smooth_best [0; 1]%nat swrr_heap = Some 0%nat.
Proof.
  intros w. split; [|reflexivity].
  apply (smoothWeightedPeer_reference tt (λ x, mret (x <? 2)%nat)
    (λ x, (x <? 2)%nat) [0; 1; 2]%nat w); [|done].
  apply (bool_decide_unpack (NoDup [0; 1; 2]%nat)). vm_compute. done.
Defined.

(** A smooth weighted pass conserves the sum of the current weights of a
    group modulo 2^64: what the eligible peers gain the winner pays. *)
Theorem smoothWeightedPeer_conserves {P} (p : P) (eligible : PeerId → M P bool)
    (e : PeerId → bool) (xs : list PeerId) (w : World) :
  NoDup xs →
  (∀ x w', reweighted (heap w) (heap w') → eligible x p w' = Ret (e x, p, w')) →
  ∃ r w', smoothWeightedPeer xs eligible p w = Ret (r, p, w') ∧
    wrap_int (zsum (current (heap w')) xs) = wrap_int (zsum (current (heap w)) xs).
Proof.
  intros Hnd He. eexists _, _. split.
  - apply (smoothWeightedPeer_closed p (heap w) eligible e He xs w Hnd). reflexivity.
  - apply wrap_int_cong. cbn [heap set_heap]. by apply smooth_heap_current.
Qed.

Lemma smoothWeightedPeer_conserves_witness :
  let w := MkWorld swrr_heap demo_clock 0 0 in
  ∃ r w', smoothWeightedPeer [0; 1; 2]%nat (λ x, mret (x <? 2)%nat) tt w = Ret (r, tt, w') ∧
    wrap_int (zsum (current (heap w')) [0; 1; 2]%nat) =
    wrap_int (zsum (current (heap w)) [0; 1; 2]%nat).
Proof.
  intros w.
  apply (smoothWeightedPeer_conserves tt (λ x, mret (x <? 2)%nat)
    (λ x, (x <? 2)%nat) [0; 1; 2]%nat w); [|done].
  apply (bool_decide_unpack (NoDup [0; 1; 2]%nat)). vm_compute. done.
Defined.

(** C14: fairness.  From rest, a round-robin balancer whose primary peers are
    distinct and healthy repeats one block of as many selections as the total
    weight, for any number of blocks: each block holds every peer exactly
    [Weight] times and no other peer, and after each the balancer is at rest
    again with all current weights zero, so that no error builds up; the
    weights must be small enough for the sums to fit an [int]. *)
Theorem round_robin_cycle (rr : RoundRobin) (W : PeerId → Z) (w : World) :
  let xs := Peers (rr_primary rr) in
  let T := zsum W xs in
  NoDup xs → single (rr_primary rr) = false → (∀ x, x ∈ xs → 1 <= W x) → xs ≠ [] →
  (Z.of_nat (length xs) + 1) * T <= max_int → at_rest rr W (λ _, 0) (heap w) →
  ∃ block, Z.of_nat (length block) = T ∧
    (∀ x, x ∈ xs → picks x block = W x) ∧ (∀ x, x ∈ block → x ∈ xs) ∧
    ∀ k, ∃ w', serve_n (k * Z.to_nat T) rr w = Ret (Some <$> concat (replicate k block), w') ∧
      at_rest rr W (λ _, 0) (heap w').
Proof.
  intros xs T Hnd Hs Hpos Hne Hov Har.
  destruct (swrr_run_inv W xs Hnd Hpos Hne (Z.to_nat T) 0 _ _ (swrr_inv_init W xs Hnd Hpos Hne))
    as (Hl & Hin & _).
  exists (swrr_run (Z.to_nat T) W (λ _, 0) xs). split_and!; [|by intros; apply swrr_cycle|done|].
  - rewrite Hl, Z2Nat.id; [done|]. pose proof (T_pos W xs Hnd Hpos Hne). unfold T. lia.
  - intros k. revert w Har. induction k as [|k IH]; intros w Har; [by exists w|].
    destruct (serve_cycle rr W Hnd Hs Hpos Hne Hov w Har) as (w1 & E1 & Har1).
    destruct (IH w1 Har1) as (w2 & E2 & Har2). exists w2. split; [|done].
    cbn [Nat.mul replicate concat]. rewrite fmap_app. by eapply serve_n_add.
Qed.

Definition demo_W (x : PeerId) : Z := Weight (demo_rr.2 !!! x).

Lemma demo_at_rest : at_rest demo_rr.1 demo_W (λ _, 0) (heap demo_world).
Proof.
  split; [exact demo_wf|..]; intros x Hx;
    (assert (x = 0 ∨ x = 1)%nat as [-> | ->];
     [assert (x ∈ [0; 1]%nat) by exact Hx; set_solver|..]); by vm_compute.
Qed.

Lemma demo_weights x : x ∈ Peers (rr_primary demo_rr.1) → 1 <= demo_W x.
Proof.
  intros Hx. assert (x ∈ [0; 1]%nat) as Hx' by exact Hx.
  assert (x = 0 ∨ x = 1)%nat as [-> | ->] by set_solver; vm_compute; congruence.
Qed.

Lemma demo_nodup : NoDup (Peers (rr_primary demo_rr.1)).
Proof. apply (bool_decide_unpack _). vm_compute. done. Qed.

Lemma round_robin_cycle_witness :
  zsum demo_W (Peers (rr_primary demo_rr.1)) = 8 ∧
  ∃ block, Z.of_nat (length block) = 8 ∧ picks 0 block = 5 ∧ picks 1 block = 3 ∧
    ∃ w', serve_n 24 demo_rr.1 demo_world = Ret (Some <$> block ++ block ++ block ++ [], w').
Proof.
  split; [done|].
  destruct (round_robin_cycle demo_rr.1 demo_W demo_world demo_nodup eq_refl demo_weights
    ltac:(discriminate) ltac:(vm_compute; congruence) demo_at_rest)
    as (block & Hlen & Hp & _ & Hrun).
  exists block. split; [exact Hlen|]. split; [|split].
  - apply (Hp 0%nat). vm_compute. left.
  - apply (Hp 1%nat). vm_compute. right; left.
  - destruct (Hrun 3%nat) as (w' & E & _). exists w'. exact E.
Defined.

(** C21: smoothness.  At no point of the run is a peer off its proportional
    share by more than a bounded amount: only the primary peers are selected, and
    after [n] requests a peer of weight [W x] out of [T] has been selected fewer
    than [n * W x / T + 1] times, and at least
    [n * W x / T - (m - 1) * (T - 1) / T] times, for [m] peers. *)
Theorem round_robin_smooth (rr : RoundRobin) (W : PeerId → Z) (w : World) (n : nat) :
  let xs := Peers (rr_primary rr) in
  let T := zsum W xs in
  NoDup xs → single (rr_primary rr) = false → (∀ x, x ∈ xs → 1 <= W x) → xs ≠ [] →
  (Z.of_nat (length xs) + 1) * T <= max_int → at_rest rr W (λ _, 0) (heap w) →
  ∃ l w', serve_n n rr w = Ret (Some <$> l, w') ∧ length l = n ∧ (∀ x, x ∈ l → x ∈ xs) ∧
    ∀ x, x ∈ xs →
      Z.of_nat n * W x - (Z.of_nat (length xs) - 1) * (T - 1) <= T * picks x l <
        Z.of_nat n * W x + T.
Proof.
  intros xs T Hnd Hs Hpos Hne Hov Har.
  pose proof (swrr_inv_init W xs Hnd Hpos Hne) as Hi.
  destruct (serve_n_at_rest rr W Hnd Hs Hpos Hne Hov n _ w Har (proj1 Hi)) as (w' & Hrun & _).
  eexists _, w'. split; [exact Hrun|].
  destruct (swrr_run_inv W xs Hnd Hpos Hne n 0 _ _ Hi) as (Hl & Hin & _).
  do 2 (split; [done|]). intros x Hx. split; [by apply swrr_behind|by apply swrr_ahead].
Qed.

Lemma round_robin_smooth_witness :
  ∃ l w', serve_n 3 demo_rr.1 demo_world = Ret (Some <$> l, w') ∧ length l = 3%nat ∧
    (∀ x, x ∈ l → x ∈ [0; 1]%nat) ∧
    ∀ x, x ∈ [0; 1]%nat → 3 * demo_W x - 1 * 7 <= 8 * picks x l < 3 * demo_W x + 8.
Proof.
  exact (round_robin_smooth demo_rr.1 demo_W demo_world 3 demo_nodup eq_refl demo_weights
    ltac:(discriminate) ltac:(vm_compute; congruence) demo_at_rest).
Defined.
