(* ===== verification/LeastConn.v ===== *)
(** * Least connections (leastconn.go)

    A first pass finds a peer with the fewest connections per unit of weight by
    cross-multiplication; when several peers tie, a smooth weighted pass over
    the tied ones decides. *)

From S2P Require Import Prelude GoLib Peer RoundRobin Picker SmoothWRR.
#[local] Open Scope Z_scope.
#[local] Open Scope go_scope.

(** ** Definitions *)

Record LeastConn := MkLeastConn { lc_rr : RoundRobin }.

Definition NewLeastConn (peers : list (option PeerId)) (h : Heap) : LeastConn * Heap :=
  let '(rr, h) := NewRoundRobin peers h in (MkLeastConn rr, h).

Record leastConnPicker := MkLeastConnPicker { lc_RRPicker : RRPicker }.

Definition lc_set (rr : RRPicker) (p : leastConnPicker) : leastConnPicker :=
  MkLeastConnPicker rr.

Definition NewPicker (lc : LeastConn) : leastConnPicker :=
  MkLeastConnPicker (NewRRPicker (rr_primary (lc_rr lc)) (rr_backup (lc_rr lc))).

(** [less_loaded a b], [same_load a b]: fewer, or as many, connections per unit
    of weight, without division. *)
Definition less_loaded (a b : Peer) : bool :=
  conns a *! Weight b <? conns b *! Weight a.
Definition same_load (a b : Peer) : bool :=
  conns a *! Weight b =? conns b *! Weight a.

(** The first pass; the skip tests are those of round-robin. *)
Fixpoint lc_scan (peers : list PeerId) (now : Time) (best : option PeerId) (many : bool)
    : M RRPicker (option PeerId * bool) :=
  match peers with
  | [] => mret (best, many)
  | peer :: rest =>
      ok ← rr_eligible now peer;
      if negb ok then lc_scan rest now best many else
      match best with
      | None => lc_scan rest now (Some peer) false
      | Some b =>
          br ← load b;
          pr ← load peer;
          if less_loaded pr br then lc_scan rest now (Some peer) false
          else if same_load pr br then lc_scan rest now best true
          else lc_scan rest now best many
      end
  end.

(** The eligibility test of the second pass. *)
Definition lc_tied (now : Time) (least peer : PeerId) : M RRPicker bool :=
  rr ← self;
  if Tried peer rr then mret false else
  pr ← load peer;
  if Down pr then mret false else
  lr ← load least;
  if negb (same_load pr lr) then mret false else
  if failed_out pr now then mret false else
  if conns_full pr then mret false else
  mret true.

Definition lc_pickFromGroup (group : PeerGroup) : M RRPicker (option PeerId) :=
  now ← Now;
  r ← lc_scan (Peers group) now None false;
  match r with
  | (None, _) => mret None
  | (Some best, many) =>
      best ← (if many : bool then smoothWeightedPeer (Peers group) (lc_tied now best)
              else mret (Some best));
      match best with
      | Some b => p ← commitPeer b now; mret (Some p)
      | None => throw NilDereference
      end
  end.

Definition Pick : M leastConnPicker (option PeerId) :=
  zoom lc_RRPicker lc_set (pickWithBackup lc_pickFromGroup).

Definition Done (peer : option PeerId) (failed : bool) : M leastConnPicker unit :=
  zoom lc_RRPicker lc_set (RoundRobin.Done peer failed).

(** Promoted from the embedded [*RRPicker]. *)
Definition doneNeutral (peer : option PeerId) : M leastConnPicker unit :=
  zoom lc_RRPicker lc_set (RoundRobin.doneNeutral peer).

#[export] Instance leastConn_picker : Picker leastConnPicker := {|
  rrp := lc_RRPicker;
  pick := Pick;
  release := Done;
  release_neutral := doneNeutral;
|}.

(** The first pass as a function of the eligible peers. *)
Fixpoint lc_fold (h : Heap) (ys : list PeerId) (best : option PeerId) (many : bool)
    : option PeerId * bool :=
  match ys with
  | [] => (best, many)
  | y :: rest =>
      match best with
      | None => lc_fold h rest (Some y) false
      | Some b =>
          if less_loaded (h !!! y) (h !!! b) then lc_fold h rest (Some y) false
          else if same_load (h !!! y) (h !!! b) then lc_fold h rest best true
          else lc_fold h rest best many
      end
  end.

(** The load order without overflow. *)
Definition load_le (a b : Peer) : Prop := conns a * Weight b <= conns b * Weight a.

Definition loads_fit (h : Heap) (xs : list PeerId) : Prop :=
  ∀ x y, x ∈ xs → y ∈ xs → is_int (conns (h !!! x) * Weight (h !!! y)).

(** ** The first pass *)

Lemma lc_scan_closed xs now best many rr w :
  lc_scan xs now best many rr w =
    Ret (lc_fold (heap w) (filter (λ x, rr_ok rr (heap w) now x = true) xs) best many,
         rr, w).
Proof.
  revert best many. induction xs as [|x xs IH]; intros best many; [done|]. cbn [lc_scan].
  rewrite (bind_Ret _ _ _ _ _ _ _ (rr_eligible_pure rr (heap w) now x w (reflexivity _))).
  rewrite filter_cons. destruct (rr_ok rr (heap w) now x) eqn:Ex; cbn [negb].
  - rewrite decide_True by done. cbn [lc_fold]. destruct best as [b|]; [|apply IH].
    rewrite (bind_Ret (load b) _ _ _ _ _ _ eq_refl).
    rewrite (bind_Ret (load x) _ _ _ _ _ _ eq_refl).
    destruct (less_loaded _ _); [apply IH|]. destruct (same_load _ _); apply IH.
  - rewrite decide_False by done. apply IH.
Qed.

Lemma lc_fold_some h ys best many :
  match (lc_fold h ys best many).1 with
  | None => best = None ∧ ys = []
  | Some b => best = Some b ∨ b ∈ ys
  end.
Proof.
  revert best many. induction ys as [|y ys IH]; intros best many; cbn [lc_fold].
  { by destruct best; [left|]. }
  assert (∀ b' m, (b' = Some y ∨ b' = best ∧ best ≠ None) →
    match (lc_fold h ys b' m).1 with
    | None => best = None ∧ y :: ys = []
    | Some b => best = Some b ∨ b ∈ y :: ys
    end) as Hrec.
  { intros b' m Hb'. specialize (IH b' m). destruct (lc_fold h ys b' m).1 as [b|].
    - destruct IH as [->|?]; [|right; set_solver].
      destruct Hb' as [[= ->]|[<- _]]; [right; set_solver|by left].
    - destruct IH as [-> _], Hb' as [|[<- ?]]; done. }
  destruct best as [b|]; [|apply Hrec; by left].
  destruct (less_loaded _ _); [apply Hrec; by left|].
  destruct (same_load _ _); apply Hrec; by right.
Qed.

(** Without overflow the peer found carries the least load, and the flag tells
    whether another one carries the same. *)
Lemma load_le_trans a b c :
  0 < Weight a → 0 < Weight b → 0 < Weight c →
  load_le a b → load_le b c → load_le a c.
Proof. unfold load_le. nia. Qed.

Lemma lc_fold_min h ys zs best many b m :
  loads_fit h (ys ++ zs) → (∀ x, x ∈ ys ++ zs → 0 < Weight (h !!! x)) →
  (match best with Some b0 => b0 ∈ zs | None => zs = [] end) →
  (∀ b0, best = Some b0 → ∀ z, z ∈ zs → load_le (h !!! b0) (h !!! z)) →
  lc_fold h ys best many = (Some b, m) →
  ∀ x, x ∈ ys ++ zs → load_le (h !!! b) (h !!! x).
Proof.
  revert zs best many. induction ys as [|y ys IH]; intros zs best many Hfit Hpos Hb Hmin;
    cbn [lc_fold app].
  { intros [= -> ->]. by apply Hmin. }
  assert (∀ b' m', b' ∈ y :: zs → (∀ z, z ∈ y :: zs → load_le (h !!! b') (h !!! z)) →
    lc_fold h ys (Some b') m' = (Some b, m) →
    ∀ x, x ∈ y :: ys ++ zs → load_le (h !!! b) (h !!! x)) as Hrec.
  { intros b' m' Hb' Hmin' E x Hx. apply (IH (y :: zs) (Some b') m'); try done.
    - intros x1 x2 ??. apply Hfit; set_solver.
    - intros x1 ?. apply Hpos. set_solver.
    - by intros ? [= <-].
    - set_solver. }
  destruct best as [b0|].
  - pose proof (Hfit y b0 ltac:(set_solver) ltac:(set_solver)) as F1.
    pose proof (Hfit b0 y ltac:(set_solver) ltac:(set_solver)) as F2.
    pose proof (Hpos y ltac:(set_solver)). pose proof (Hpos b0 ltac:(set_solver)).
    specialize (Hmin b0 eq_refl).
    unfold less_loaded, same_load, int_mul. rewrite !wrap_int_id by done.
    destruct (Z.ltb_spec (conns (h !!! y) * Weight (h !!! b0))
                         (conns (h !!! b0) * Weight (h !!! y))) as [Hlt|Hge].
    + apply Hrec; [set_solver|]. intros z [->|Hz]%elem_of_cons; [unfold load_le; lia|].
      eapply load_le_trans; [done| |apply Hpos; set_solver| |by apply Hmin]; [done|].
      unfold load_le. lia.
    + assert (load_le (h !!! b0) (h !!! y)) by (unfold load_le; lia).
      assert (∀ z, z ∈ y :: zs → load_le (h !!! b0) (h !!! z))
        by (intros z [->|?]%elem_of_cons; auto).
      destruct (_ =? _); apply Hrec; auto; set_solver.
  - apply Hrec; [set_solver|]. subst zs. intros z ->%list_elem_of_singleton.
    unfold load_le. lia.
Qed.

(** ** The critical section *)

Lemma lc_tied_pure rr (h0 : Heap) now least x w :
  reweighted h0 (heap w) →
  lc_tied now least x rr w =
    Ret (rr_ok rr h0 now x && same_load (h0 !!! x) (h0 !!! least), rr, w).
Proof.
  intros Hr. destruct (Hr x) as (cw & ew & E), (Hr least) as (cw' & ew' & E').
  unfold lc_tied, rr_ok. rewrite (bind_Ret self _ _ _ _ _ _ eq_refl).
  destruct (Tried x rr); [done|]. rewrite (bind_Ret (load x) _ _ _ _ _ _ eq_refl), E.
  cbn [Down set_weights]. destruct (Down (h0 !!! x)); [done|].
  rewrite (bind_Ret (load least) _ _ _ _ _ _ eq_refl), E'.
  change (same_load (set_weights cw ew (h0 !!! x)) (set_weights cw' ew' (h0 !!! least)))
    with (same_load (h0 !!! x) (h0 !!! least)).
  change (failed_out (set_weights cw ew (h0 !!! x)) now) with (failed_out (h0 !!! x) now).
  change (conns_full (set_weights cw ew (h0 !!! x))) with (conns_full (h0 !!! x)).
  by destruct (same_load _ _), (failed_out _ _), (conns_full _).
Qed.

Lemma rr_ok_true rr (h : Heap) now x :
  rr_ok rr h now x = true ↔
  x ∉ tried rr ∧ Down (h !!! x) = false ∧ failed_out (h !!! x) now = false ∧
  conns_full (h !!! x) = false.
Proof.
  unfold rr_ok, Tried. rewrite !andb_true_iff, !negb_true_iff, bool_decide_eq_false. tauto.
Qed.

Lemma rr_ok_false rr w x now :
  clock w (ticks w) = now → rr_ok rr (heap w) now x = false →
  ∀ t, (ticks w < t)%nat → x ∈ tried rr ∨ unchoosable (heap w) x (clock w) (ticks w) t.
Proof.
  intros <- Hok t Ht. unfold rr_ok, Tried in Hok.
  case_bool_decide; [by left|right]. cbn in Hok. unfold unchoosable.
  destruct (Down _); [by left|]. destruct (conns_full _); [by right; left|].
  right; right. exists (ticks w). split; [lia|]. by destruct (failed_out _ _).
Qed.

Lemma rr_ok_choosable rr w x now :
  clock w (ticks w) = now → rr_ok rr (heap w) now x = true →
  ∀ t, (ticks w < t)%nat → choosable (heap w) x (clock w) (ticks w) t.
Proof.
  intros <- (_ & ? & ? & ?)%rr_ok_true t Ht. split_and!; [done|done|].
  exists (ticks w). split; [lia|done].
Qed.

Section group.
Context (group : PeerGroup) (rr : RRPicker) (w : World).
Hypothesis group_ok : heap_ok (heap w) (Peers group).
Let now := clock w (ticks w).
Let ys := filter (λ x, rr_ok rr (heap w) now x = true) (Peers group).

Lemma elem_of_eligible x : x ∈ ys ↔ rr_ok rr (heap w) now x = true ∧ x ∈ Peers group.
Proof. unfold ys. by rewrite list_elem_of_filter. Qed.

(** What the scan keeps is a minimum of the eligible peers. *)
Lemma lc_scan_minimal best many :
  lc_fold (heap w) ys None false = (Some best, many) → loads_fit (heap w) (Peers group) →
  ∀ y, y ∈ ys → load_le (heap w !!! best) (heap w !!! y).
Proof using group_ok.
  intros E Hfit y Hy. eapply (lc_fold_min _ ys [] None); try exact E; try done;
    rewrite ?app_nil_r; try done.
  - intros x1 x2 [_ ?]%elem_of_eligible [_ ?]%elem_of_eligible. by apply Hfit.
  - intros x1 [_ Hx1]%elem_of_eligible. destruct (group_ok x1 Hx1). lia.
Qed.

(** The tie-break leaves an eligible peer of the same load. *)
Lemma lc_tie_break best (many : bool) :
  rr_ok rr (heap w) now best = true → best ∈ Peers group →
  wp (if many then smoothWeightedPeer (Peers group) (lc_tied now best) else mret (Some best))
    (λ r rr' w', rr' = rr ∧ wext (tick w) w' ∧ htuned (heap w) (heap w') ∧
      ∃ x, r = Some x ∧ x ∈ Peers group ∧ rr_ok rr (heap w) now x = true ∧
        same_load (heap w !!! x) (heap w !!! best) = true) rr (tick w).
Proof using group_ok.
  intros Hbok Hbin. destruct many; wp_simpl.
  2:{ split_and!; try done. exists best. split_and!; try done. apply Z.eqb_refl. }
  eapply wp_mono.
  { apply (smoothWeightedPeer_sound rr (heap w) (tick w) (Peers group) _
      (λ x _, rr_ok rr (heap w) now x && same_load (heap w !!! x) (heap w !!! best) = true)
      (λ x _, rr_ok rr (heap w) now x && same_load (heap w !!! x) (heap w !!! best) = false));
      try done.
    intros x w1 _ Hw1 Hh1. assert (reweighted (heap w) (heap w1)) as Hr.
    { intros q. destruct (Hh1 q) as (cw & ew & ? & _). by exists cw, ew. }
    rewrite (wp_eq _ _ _ _ _ _ _ (lc_tied_pure rr _ now best x w1 Hr)).
    split_and!; try done. by destruct (_ && _). }
  intros r p' w' (-> & Hw & Hh & Hr). split_and!; try done. destruct r as [x|].
  - destruct Hr as [Hx [? ?]%andb_true_iff]. exists x. by split_and!.
  - specialize (Hr best Hbin). rewrite Hbok in Hr. unfold same_load in Hr.
    by rewrite Z.eqb_refl in Hr.
Qed.

Lemma same_load_le x y best :
  x ∈ Peers group → y ∈ Peers group → best ∈ Peers group → loads_fit (heap w) (Peers group) →
  same_load (heap w !!! x) (heap w !!! best) = true →
  load_le (heap w !!! best) (heap w !!! y) → load_le (heap w !!! x) (heap w !!! y).
Proof using group_ok.
  intros Hx Hy Hb Hfit Hload Hmin. unfold same_load, int_mul in Hload. apply Z.eqb_eq in Hload.
  rewrite !wrap_int_id in Hload by (by apply Hfit).
  destruct (group_ok x Hx), (group_ok y Hy), (group_ok best Hb).
  eapply load_le_trans; [lia| |lia| |exact Hmin]; [lia|]. unfold load_le. lia.
Qed.

Lemma lc_pickFromGroup_spec :
  single group = false →
  wp (lc_pickFromGroup group) (λ r rr' w',
    (cs_post (Peers group) rr w r rr' w' ∧ cs_exact (Peers group) rr w r w') ∧
    ∀ x, r = Some x → loads_fit (heap w) (Peers group) →
      rr_ok rr (heap w) (clock w (ticks w)) x = true ∧
      ∀ y, y ∈ Peers group → rr_ok rr (heap w) (clock w (ticks w)) y = true →
        load_le (heap w !!! x) (heap w !!! y)) rr w.
Proof using group_ok.
  intros _. unfold lc_pickFromGroup. wp_simpl. fold now.
  rewrite (wp_eq _ _ _ _ _ _ _ (lc_scan_closed _ now None false rr (tick w))).
  cbn [heap tick]. fold ys. pose proof (lc_fold_some (heap w) ys None false) as Hsome.
  destruct (lc_fold (heap w) ys None false) as [[best|] many] eqn:Efold; cbn [fst] in Hsome.
  2:{ wp_simpl. destruct Hsome as [_ Hnil]. split; [|done].
      split; [split; [apply wext_tick|done]|].
      intros x Hx. eapply (rr_ok_false rr w x now); [done| |cbn; lia].
      destruct (rr_ok rr (heap w) now x) eqn:E; [|done].
      assert (x ∈ ys) as Hin by (by apply elem_of_eligible). rewrite Hnil in Hin. set_solver. }
  destruct Hsome as [?|Hb]; [done|]. apply elem_of_eligible in Hb as [Hbok Hbin].
  eapply wp_bind, wp_mono; [by apply lc_tie_break|].
  intros r rr' w' (-> & Hw & Hh & x & -> & Hx & Hxok & Hload). wp_simpl.
  assert (ticks w < ticks w')%nat as Ht by (destruct Hw as (_ & ? & _); cbn in *; lia).
  eapply wp_mono.
  { apply (commit_post (Peers group)); [by rewrite <-wext_tick in Hw|done|done| |].
    - by apply rr_ok_true in Hxok as [? _].
    - by apply (rr_ok_choosable rr w x now). }
  intros r rr'' w'' (-> & Hcs). wp_simpl. split; [exact Hcs|].
  intros ? [= <-] Hfit. split; [done|]. intros y Hy Hyok.
  apply (same_load_le x y best); try done.
  by apply (lc_scan_minimal best many Efold Hfit), elem_of_eligible.
Qed.
End group.

(** ** The Picker contract *)

#[export] Instance leastConn_laws : PickerLaws leastConnPicker.
Proof.
  apply (embedded_laws lc_RRPicker lc_set (λ _, True)); [done..|].
  intros p w [Hwf _]. unfold Pick. wp_simpl. eapply wp_mono.
  { apply pickWithBackup_spec; [|exact Hwf]. intros group rr w0 Hs Hok.
    eapply wp_mono; [by apply lc_pickFromGroup_spec|]. by intros r rr' w' [? _]. }
  by intros r rr' w' [Hp ?].
Defined.

(** ** Claims *)

(** C28: while the products fit an int, the peer the least-connections choice
    takes is eligible and has the fewest connections for its weight among all
    the eligible peers of the group; it takes none only when every peer is
    tried, down, full or in quarantine. *)
Theorem least_conn_minimal (group : PeerGroup) (rr : RRPicker) (w : World) :
  single group = false → heap_ok (heap w) (Peers group) → loads_fit (heap w) (Peers group) →
  ∃ r rr' w', lc_pickFromGroup group rr w = Ret (r, rr', w') ∧
    match r with
    | Some x => x ∈ Peers group ∧ rr_ok rr (heap w) (clock w (ticks w)) x = true ∧
        ∀ y, y ∈ Peers group → rr_ok rr (heap w) (clock w (ticks w)) y = true →
          load_le (heap w !!! x) (heap w !!! y)
    | None => ∀ y, y ∈ Peers group → y ∈ tried rr ∨
        unchoosable (heap w) y (clock w) (ticks w) (ticks w')
    end.
Proof.
  intros Hs Hok Hfit. destruct (proj1 (wp_exists _ _ _ _) (lc_pickFromGroup_spec group rr w Hok Hs))
    as (r & rr' & w' & E & [Hcs He] & Hmin).
  exists r, rr', w'. split; [done|]. destruct r as [x|]; [|done].
  destruct (Hmin x eq_refl Hfit) as [? ?]. split; [|done].
  by destruct Hcs as (_ & _ & _ & ? & _).
Qed.

(** Peer "a" of weight 5 with four connections, "b" of weight 3 with two. *)
Definition loaded_heap : Heap :=
  <[1%nat := set_conns 2 (demo_rr.2 !!! 1%nat)]>
    (<[0%nat := set_conns 4 (demo_rr.2 !!! 0%nat)]> demo_rr.2).

Lemma least_conn_minimal_witness :
  let w := MkWorld loaded_heap demo_clock 0 0 in
  let rr := RoundRobin.NewPicker demo_rr.1 in
  ∃ r rr' w', lc_pickFromGroup (rr_primary demo_rr.1) rr w = Ret (r, rr', w') ∧
    match r with
    | Some x => x ∈ [0%nat; 1%nat] ∧ rr_ok rr loaded_heap (demo_clock 0) x = true ∧
        ∀ y, y ∈ [0%nat; 1%nat] → rr_ok rr loaded_heap (demo_clock 0) y = true →
          load_le (loaded_heap !!! x) (loaded_heap !!! y)
    | None => ∀ y, y ∈ [0%nat; 1%nat] → y ∈ tried rr ∨
        unchoosable loaded_heap y demo_clock 0 (ticks w')
    end.
Proof.
  intros w rr. apply (least_conn_minimal (rr_primary demo_rr.1) rr w).
  - reflexivity.
  - intros x Hx. change (x ∈ [0%nat; 1%nat]) in Hx.
    apply elem_of_cons in Hx as [-> | ->%list_elem_of_singleton]; split; vm_compute; split; congruence.
  - intros x y Hx Hy. change (x ∈ [0%nat; 1%nat]) in Hx. change (y ∈ [0%nat; 1%nat]) in Hy.
    apply elem_of_cons in Hx as [-> | ->%list_elem_of_singleton];
      apply elem_of_cons in Hy as [-> | ->%list_elem_of_singleton]; vm_compute; split; congruence.
Defined.

(** Two peers of weight 2^60, one with sixteen connections, one with one. *)
Definition huge_peer (addr : string) (n : Z) : Peer := set_conns n (init (demo_peer addr (2 ^ 60))).
Definition huge_world : World :=
  MkWorld (<[1%nat := huge_peer "b" 1]> {[0%nat := huge_peer "a" 16]}) demo_clock 0 0.
Definition huge_group : PeerGroup := MkGroup [0%nat; 1%nat] (2 ^ 61) false.

(** The cross-multiplication is not protected against overflow: for two
    available peers of the same configured weight 2^60 the product of sixteen
    connections wraps around to zero, and the peer with sixteen connections is
    preferred to the one with one. *)
Theorem least_conn_overflow :
  ∃ rr' w', lc_pickFromGroup huge_group (NewRRPicker huge_group None) huge_world =
      Ret (Some 0%nat, rr', w') ∧
    conns (heap huge_world !!! 0%nat) = 16 ∧ conns (heap huge_world !!! 1%nat) = 1 ∧
    Weight (heap huge_world !!! 0%nat) = Weight (heap huge_world !!! 1%nat).
Proof.
  destruct (lc_pickFromGroup _ _ _) as [[[r rr'] w']|] eqn:E; vm_compute in E; [|discriminate].
  injection E as <- _ _. exists rr', w'. by split_and!.
Qed.
