(* ===== verification/Candidates.v ===== *)
(** * What the hashing and random pickers share

    Each of them tries candidates in a bounded loop under the mutex of a group
    and falls back to round-robin: the [for] loop, the candidate test, the
    weighted walk over a group, and the specification of the whole. *)

From S2P Require Import Prelude GoLib Peer RoundRobin Picker SmoothWRR LeastConn.
#[local] Open Scope Z_scope.
#[local] Open Scope go_scope.

(** ** Definitions *)

(** One round of a Go [for cond { body }]: go on, [break], or [return x]. *)
Inductive round := Continue | Break | Return (x : PeerId).

(** The loop with fuel; running out of fuel reads as the condition failing. *)
Fixpoint for_loop {P} (fuel : nat) (cond : P → bool) (body : M P round)
    : M P (option PeerId) :=
  match fuel with
  | O => mret None
  | S fuel =>
      p ← self;
      if cond p then
        r ← body;
        match r with
        | Continue => for_loop fuel cond body
        | Break => mret None
        | Return x => mret (Some x)
        end
      else mret None
  end.

(** The loops of the package: at most [budget] rejected candidates are counted
    in [tries], so the rounds left are known. *)
Definition rounds_left (budget tries : Z) : nat := Z.to_nat (budget + 1 - tries).

(** [!selected.Down && !p.Tried(selected) && peerAvailable(selected)], with the
    clock read only when the first two hold. *)
Definition candidate_ok {P} (rr : P → RRPicker) (x : PeerId) : M P bool :=
  pr ← load x;
  if Down pr then mret false else
  p ← self;
  if Tried x (rr p) then mret false else
  peerAvailable x.

(** The walk [for _, peer := range group.Peers { w -= peer.Weight; ... }]. *)
Fixpoint select_weight (h : Heap) (peers : list PeerId) (w : Z) : option PeerId :=
  match peers with
  | [] => None
  | peer :: rest =>
      let w := w -! Weight (h !!! peer) in
      if w <? 0 then Some peer else select_weight h rest w
  end.

Definition select {P} (peers : list PeerId) (v : Z) : M P (option PeerId) :=
  λ p w, Ret (select_weight (heap w) peers v, p, w).

(** [int(hash % uint32(group.TotalWeight))] *)
Definition mod_total {P} (hash total : Z) : M P Z :=
  if wrap_u32 total =? 0 then throw DivideByZero
  else mret (hash mod wrap_u32 total).

(** A loop under the lock, then [RRPicker.Pick]. *)
Definition or_round_robin {P} (get : P → RRPicker) (set : RRPicker → P → P)
    (loop : M P (option PeerId)) : M P (option PeerId) :=
  r ← loop;
  match r with
  | Some x => mret (Some x)
  | None => zoom get set RoundRobin.Pick
  end.

(** ** Specifications *)

(** What one round may do, for a picker that embeds a round-robin picker. *)
Definition round_post {P} (rr : P → RRPicker) (members : list PeerId)
    (p : P) (w : World) (r : round) (p' : P) (w' : World) : Prop :=
  match r with
  | Return x => cs_post members (rr p) w (Some x) (rr p') w' ∧
                cs_exact members (rr p) w (Some x) w'
  | _ => rr p' = rr p ∧ wext w w' ∧ htuned (heap w) (heap w')
  end.

Definition loop_post {P} (rr : P → RRPicker) (members : list PeerId)
    (p : P) (w : World) (r : option PeerId) (p' : P) (w' : World) : Prop :=
  match r with
  | Some x => cs_post members (rr p) w (Some x) (rr p') w' ∧
              cs_exact members (rr p) w (Some x) w'
  | None => rr p' = rr p ∧ wext w w' ∧ htuned (heap w) (heap w')
  end.

(** The weight before a peer of a list, and the weighted interval it owns. *)
Definition owns (h : Heap) (peers : list PeerId) (x : PeerId) (v : Z) : Prop :=
  ∃ before after, peers = before ++ x :: after ∧
    sum_weights h before <= v < sum_weights h before + Weight (h !!! x).

(** A peer that passes every test of a candidate at time [t]. *)
Definition serves (h : Heap) (x : PeerId) (t : Time) : Prop :=
  Down (h !!! x) = false ∧ failed_out (h !!! x) t = false ∧ conns_full (h !!! x) = false.

(** ** The candidate test *)

Lemma candidate_ok_serves {P} (rr : P → RRPicker) x p w :
  serves (heap w) x (clock w (ticks w)) → x ∉ tried (rr p) →
  candidate_ok rr x p w = Ret (true, p, tick w).
Proof.
  intros (Hd & Hf & Hc) Hx. unfold candidate_ok, peerAvailable.
  rewrite (bind_Ret (load x) _ _ _ _ _ _ eq_refl), Hd.
  rewrite (bind_Ret self _ _ _ _ _ _ eq_refl). unfold Tried.
  rewrite bool_decide_eq_false_2 by done.
  rewrite (bind_Ret Now _ _ _ _ _ _ eq_refl), (bind_Ret (load x) _ _ _ _ _ _ eq_refl).
  cbn [heap tick]. by rewrite Hf, Hc.
Qed.

Lemma candidate_ok_spec {P} (rr : P → RRPicker) x p w :
  wp (candidate_ok rr x) (λ b p' w', p' = p ∧ heap w' = heap w ∧ wext w w' ∧
    if b then x ∉ tried (rr p) ∧ choosable (heap w) x (clock w) (ticks w) (ticks w')
    else x ∈ tried (rr p) ∨ unchoosable (heap w) x (clock w) (ticks w) (ticks w')) p w.
Proof.
  unfold candidate_ok, Tried, peerAvailable. wp_simpl.
  destruct (Down _) eqn:ED; wp_simpl; [split_and!; try done; right; by left|].
  case_bool_decide; wp_simpl; [split_and!; by auto|].
  cbn [heap tick ticks clock].
  destruct (failed_out _ _) eqn:EF; [|destruct (conns_full _) eqn:EC].
  - split_and!; try done; [apply wext_tick|]. right. right; right.
    exists (ticks w). split; [lia|done].
  - split_and!; try done; [apply wext_tick|]. right. right; by left.
  - split_and!; try done; [apply wext_tick|]. split_and!; try done.
    exists (ticks w). split; [lia|done].
Qed.

(** A peer the candidate test turns down whenever it is asked. *)
Definition rejects (h : Heap) (t : gset nat) (c : nat → Time) (x : PeerId) : Prop :=
  x ∈ t ∨ ∀ i, ¬ serves h x (c i).

Lemma serves_tuned h h' x t : htuned h h' → serves h' x t ↔ serves h x t.
Proof.
  intros Hh. unfold serves. specialize (Hh x).
  by rewrite (tuned_Down _ _ Hh), (tuned_failed_out _ _ _ Hh), (tuned_conns_full _ _ Hh).
Qed.

Lemma serves_not_unchoosable h x c t0 t1 :
  (∀ i, serves h x (c i)) → ¬ unchoosable h x c t0 t1.
Proof.
  intros Hs [Hd|[Hc|(i & _ & Hf)]]; [destruct (Hs 0%nat) as (? & ? & ?); congruence..|].
  destruct (Hs i) as (? & ? & ?). congruence.
Qed.

Lemma rejects_not_choosable h t c x t0 t1 :
  rejects h t c x → x ∉ t → ¬ choosable h x c t0 t1.
Proof. intros [|Hr] ? (Hd & Hc & i & _ & Hf); [done|]. by apply (Hr i). Qed.

Lemma candidate_ok_rejects {P} (rr : P → RRPicker) x p w :
  rejects (heap w) (tried (rr p)) (clock w) x →
  ∃ w', candidate_ok rr x p w = Ret (false, p, w') ∧ heap w' = heap w ∧ clock w' = clock w.
Proof.
  intros Hr. destruct (proj1 (wp_exists _ _ _ _) (candidate_ok_spec rr x p w))
    as (b & p' & w' & E & -> & Hh & Hw & Hb).
  destruct b; [|exists w'; rewrite E; split_and!; [done|done|apply Hw]].
  destruct Hb as [Hn (? & ? & i & ? & ?)], Hr as [|Hr]; [done|].
  exfalso. by apply (Hr i).
Qed.

Lemma candidate_ok_inv {P} (rr : P → RRPicker) x p w b p' w' :
  candidate_ok rr x p w = Ret (b, p', w') → p' = p.
Proof.
  intros E. pose proof (candidate_ok_spec rr x p w) as H.
  by apply (proj1 (wp_eq _ _ _ _ _ _ _ E)) in H as [-> _].
Qed.

(** ** The weighted walk *)

Lemma sum_weights_cons h x xs : sum_weights h (x :: xs) = Weight (h !!! x) + sum_weights h xs.
Proof. done. Qed.

Lemma sum_weights_nil h : sum_weights h [] = 0.
Proof. done. Qed.

Lemma sum_weights_app h xs ys : sum_weights h (xs ++ ys) = sum_weights h xs + sum_weights h ys.
Proof. induction xs as [|x xs IH]; [done|]. cbn [app]. rewrite !sum_weights_cons, IH. lia. Qed.

Lemma sum_weights_nonneg h xs : heap_ok h xs → 0 <= sum_weights h xs.
Proof.
  induction xs as [|x xs IH]; intros Hok; [done|]. rewrite sum_weights_cons.
  destruct (Hok x ltac:(set_solver)). specialize (IH ltac:(intros ??; apply Hok; set_solver)).
  lia.
Qed.

Lemma sum_weights_pos h xs x : heap_ok h xs → x ∈ xs → 1 <= sum_weights h xs.
Proof.
  induction xs as [|y xs IH]; intros Hok Hx; [by apply not_elem_of_nil in Hx|].
  assert (heap_ok h xs) as Hok' by (intros z Hz; apply Hok; by right).
  rewrite sum_weights_cons. destruct (Hok y ltac:(by left)).
  pose proof (sum_weights_nonneg h xs Hok'). lia.
Qed.

Lemma owns_in h xs x v : owns h xs x v → x ∈ xs.
Proof. intros (before & after & -> & _). set_solver. Qed.

Lemma select_weight_in h xs v x : select_weight h xs v = Some x → x ∈ xs.
Proof.
  revert v. induction xs as [|y xs IH]; intros v; cbn; [done|].
  destruct (_ <? 0); [intros [= ->]; set_solver|]. intros H. apply IH in H. set_solver.
Qed.

Lemma select_weight_owns h xs v :
  heap_ok h xs → is_int v → 0 <= v < sum_weights h xs →
  ∃ x, select_weight h xs v = Some x ∧ owns h xs x v.
Proof.
  revert v. induction xs as [|y xs IH]; intros v Hok Hi Hv; [cbn in Hv; lia|].
  destruct (Hok y ltac:(set_solver)). rewrite sum_weights_cons in Hv.
  cbn [select_weight]. unfold int_sub.
  rewrite wrap_int_id by (unfold is_int, min_int, max_int in *; lia).
  destruct (Z.ltb_spec (v - Weight (h !!! y)) 0).
  - exists y. split; [done|]. exists [], xs. split; [done|]. cbn. lia.
  - destruct (IH (v - Weight (h !!! y))) as (x & E & before & after & -> & Hb);
      [intros ??; apply Hok; set_solver|unfold is_int, min_int, max_int in *; lia|lia|].
    exists x. split; [done|]. exists (y :: before), after. split; [done|].
    rewrite sum_weights_cons. lia.
Qed.

(** The walk finds the owner, and every peer owns as many values as its weight. *)
Lemma owns_select h xs v x :
  heap_ok h xs → is_int v → owns h xs x v → select_weight h xs v = Some x.
Proof.
  intros Hok Hi (before & after & -> & Hv). revert v Hi Hv Hok.
  induction before as [|y before IH]; intros v Hi Hv Hok;
    cbn [app select_weight]; unfold int_sub;
    pose proof (Hok _ ltac:(by left)) as [].
  - cbn in Hv. rewrite wrap_int_id by (unfold is_int, min_int, max_int in *; lia).
    by rewrite (proj2 (Z.ltb_lt _ _)) by lia.
  - rewrite sum_weights_cons in Hv.
    assert (0 <= sum_weights h before).
    { apply sum_weights_nonneg. intros z Hz. apply Hok. set_solver. }
    rewrite wrap_int_id by (unfold is_int, min_int, max_int in *; lia).
    rewrite (proj2 (Z.ltb_ge _ _)) by lia.
    apply IH; [unfold is_int, min_int, max_int in *; lia|lia|].
    intros z Hz. apply Hok. set_solver.
Qed.

(** The values of a range that the walk maps to a peer. *)
Definition owned (h : Heap) (xs : list PeerId) (x : PeerId) (from n : nat) : nat :=
  length (filter (λ v, select_weight h xs (Z.of_nat v) = Some x) (List.seq from n)).

Lemma owned_app h xs x a n m :
  owned h xs x a (n + m) = (owned h xs x a n + owned h xs x (a + n) m)%nat.
Proof. unfold owned. by rewrite seq_app, filter_app, length_app. Qed.

Lemma owned_none h xs x a n : x ∉ xs → owned h xs x a n = 0%nat.
Proof.
  intros Hx. apply length_filter_none. intros v _ E. by apply select_weight_in in E.
Qed.

Lemma owned_head h y xs x (n : nat) :
  peer_ok (h !!! y) → Z.of_nat n = Weight (h !!! y) →
  owned h (y :: xs) x 0 n = if decide (y = x) then n else 0%nat.
Proof.
  intros [] Hn.
  assert (∀ v, v ∈ List.seq 0 n → select_weight h (y :: xs) (Z.of_nat v) = Some y) as Hv.
  { intros v [_ Hv]%elem_of_seq. cbn [select_weight]. unfold int_sub.
    rewrite wrap_int_id by (unfold is_int, min_int, max_int in *; lia).
    by rewrite (proj2 (Z.ltb_lt _ _)) by lia. }
  unfold owned. case_decide as E.
  - rewrite length_filter_all; [apply length_seq|]. intros v Hin. rewrite Hv by done. congruence.
  - apply length_filter_none. intros v Hin. rewrite Hv by done. congruence.
Qed.

Lemma owned_tail h y xs x a n (k : nat) :
  peer_ok (h !!! y) → Z.of_nat k = Weight (h !!! y) → is_int (Z.of_nat (k + a + n)) →
  owned h (y :: xs) x (k + a) n = owned h xs x a n.
Proof.
  intros [] Hk Hi. unfold owned. rewrite <-fmap_add_seq, length_filter_fmap.
  apply length_filter_ext. intros v [??]%elem_of_seq. cbn [select_weight]. unfold int_sub.
  rewrite wrap_int_id by (unfold is_int, min_int, max_int in *; lia).
  rewrite (proj2 (Z.ltb_ge _ _)) by lia.
  by replace (Z.of_nat (k + v) - Weight (h !!! y)) with (Z.of_nat v) by lia.
Qed.

(** ** Loops *)

Lemma round_post_trans {P} (rr : P → RRPicker) members p w p1 w1 r p' w' :
  rr p1 = rr p → wext w w1 → htuned (heap w) (heap w1) →
  loop_post rr members p1 w1 r p' w' → loop_post rr members p w r p' w'.
Proof.
  intros Hrr Hw Hh. unfold loop_post. rewrite Hrr. destruct r as [x|].
  - intros [(Hw' & Hg & Hb & Hx & Hn & Ht & Hs & Hp & Hd & Hc) He].
    pose proof (Hh x) as Htx. split; [split; [by rewrite Hw|]|].
    + split_and!; try done; [by eapply htuned_selected|by eapply probe_rel_tuned| |].
      * by rewrite <-(tuned_Down _ _ Htx).
      * by rewrite <-(tuned_conns_full _ _ Htx).
    + eapply choosable_tuned; [exact Hh|]. rewrite <-(proj1 Hw).
      eapply choosable_mono; [apply Hw|done|exact He].
  - intros (-> & Hw' & Hh'). split_and!; [done|by rewrite Hw|by rewrite Hh].
Qed.

(** The rule of the loop: an invariant of the rounds that go on. *)
Lemma for_loop_inv {P} (I : P → World → Prop) (Q : option PeerId → P → World → Prop)
    fuel cond (body : M P round) p w :
  (∀ p w, cond p = true → I p w →
    wp body (λ r p' w', match r with
      | Continue => I p' w'
      | Break => Q None p' w'
      | Return x => Q (Some x) p' w'
      end) p w) →
  (∀ p w, I p w → Q None p w) →
  I p w → wp (for_loop fuel cond body) Q p w.
Proof.
  intros Hbody Hend. revert p w. induction fuel as [|fuel IH]; intros p w HI; cbn [for_loop].
  { wp_simpl. auto. }
  wp_simpl. destruct (cond p) eqn:Ec; wp_simpl; [|auto].
  eapply wp_mono; [by apply Hbody|].
  intros [| |x] p1 w1 Hr; wp_simpl; [by apply IH|done..].
Qed.

Lemma for_loop_spec {P} (rr : P → RRPicker) members (I : P → World → Prop) fuel cond body p w :
  (∀ p w, cond p = true → I p w →
    wp body (λ r p' w', round_post rr members p w r p' w' ∧ I p' w') p w) →
  I p w →
  wp (for_loop fuel cond body) (λ r p' w', loop_post rr members p w r p' w' ∧ I p' w') p w.
Proof.
  intros Hbody HI.
  apply (for_loop_inv (λ q v, loop_post rr members p w None q v ∧ I q v)); [|done|done].
  intros q v Hc [(Hrr & Hw & Hh) HIq]. eapply wp_mono; [by apply Hbody|].
  intros r p' w' [Hr HI']. destruct r as [| |x]; (split; [|done]);
    by apply (round_post_trans rr members p w q v).
Qed.

(** The fuel does not matter as long as it covers the rounds a decreasing
    measure allows: the loop with [rounds_left] is the unbounded loop. *)
Lemma for_loop_fuel {P} (m : P → nat) cond (body : M P round) :
  (∀ p, cond p = true → (0 < m p)%nat) →
  (∀ p w p' w', cond p = true → body p w = Ret (Continue, p', w') → (m p' < m p)%nat) →
  ∀ fuel fuel' p w, (m p ≤ fuel)%nat → (m p ≤ fuel')%nat →
  for_loop fuel cond body p w = for_loop fuel' cond body p w.
Proof.
  intros H0 Hm.
  assert (∀ fuel p w, m p = 0%nat → for_loop fuel cond body p w = Ret (None, p, w)) as Hz.
  { intros [|fuel] p w Hp; [done|]. cbn [for_loop].
    rewrite (bind_Ret self _ _ _ _ _ _ eq_refl).
    destruct (cond p) eqn:Ec; [|done]. apply H0 in Ec. lia. }
  induction fuel as [|fuel IH]; intros fuel' p w H1 H2; [rewrite !Hz; by try lia|].
  destruct fuel' as [|fuel']; [rewrite !Hz; by try lia|].
  cbn [for_loop]. rewrite !(bind_Ret self _ _ _ _ _ _ eq_refl).
  destruct (cond p) eqn:Ec; [|done]. unfold mbind, M_bind.
  destruct (body p w) as [[[[| |x] p'] w']|] eqn:Eb; try done.
  specialize (Hm p w p' w' Ec Eb). apply IH; lia.
Qed.

Lemma tries_loop_fuel {P} (tries : P → Z) budget (body : M P round) fuel s w :
  budget < max_int →
  (∀ s w s' w', body s w = Ret (Continue, s', w') → tries s' = tries s +! 1) →
  (rounds_left budget (tries s) ≤ fuel)%nat →
  for_loop fuel (λ s, tries s <=? budget) body s w =
  for_loop (rounds_left budget (tries s)) (λ s, tries s <=? budget) body s w.
Proof.
  intros Hb Hstep Hf. unfold rounds_left in *.
  apply (for_loop_fuel (λ s, Z.to_nat (budget + 1 - tries s))); [| |done|done].
  - intros q ?%Z.leb_le. lia.
  - intros q w1 q' w2 ?%Z.leb_le E. rewrite (Hstep _ _ _ _ E). unfold int_add.
    assert (tries q + 1 <= wrap_int (tries q + 1)); [|lia].
    destruct (Z.le_gt_cases min_int (tries q + 1)).
    + rewrite wrap_int_id; [done|unfold is_int; lia].
    + destruct (wrap_int_range (tries q + 1)). lia.
Qed.

Lemma for_loop_continue {P} fuel cond (body : M P round) p w p' w' :
  cond p = true → body p w = Ret (Continue, p', w') → 
  for_loop (S fuel) cond body p w = for_loop fuel cond body p' w'.
Proof.
  intros Hc Hb. cbn [for_loop].
  rewrite (bind_Ret self _ _ _ _ _ _ eq_refl), Hc. by rewrite (bind_Ret _ _ _ _ _ _ _ Hb).
Qed.

Lemma for_loop_return {P} fuel cond (body : M P round) p w x p' w' :
  cond p = true → body p w = Ret (Return x, p', w') → (0 < fuel)%nat →
  for_loop fuel cond body p w = Ret (Some x, p', w').
Proof.
  intros Hc Hb Hf. destruct fuel as [|fuel]; [lia|]. cbn [for_loop].
  rewrite (bind_Ret self _ _ _ _ _ _ eq_refl), Hc. by rewrite (bind_Ret _ _ _ _ _ _ _ Hb).
Qed.

(** ** The whole selection *)

Lemma pick_post_weaken rr w w1 r rr' w' :
  wext w w1 → htuned (heap w) (heap w1) →
  pick_post rr w1 r rr' w' ∧ pick_exact rr w1 r rr' w' →
  pick_post rr w r rr' w' ∧ pick_exact rr w r rr' w'.
Proof.
  intros Hw Hh [[Hw' Hg Hph Hr] [Hn Hs Hb]].
  assert (∀ xs t, exhausted xs t w1 w' → exhausted xs t w w') as Hex.
  { intros xs t He. eapply exhausted_weaken; [exact Hw|done|reflexivity|exact He]. }
  split; split; try done.
  - by rewrite Hw.
  - destruct r as [x|].
    + destruct Hr as (Hx & Hnt & Ht & Hsel & Hp & Hd & Hc). pose proof (Hh x) as Htx.
      split_and!; try done; [by eapply htuned_selected|by eapply probe_rel_tuned| |].
      * by rewrite <-(tuned_Down _ _ Htx).
      * by rewrite <-(tuned_conns_full _ _ Htx).
    + split; [rewrite Hh; apply Hr|apply Hr].
  - intros E. destruct (Hn E) as [H1 H2]. split; [intros ?; by apply Hex, H1|by apply Hex].
  - intros x E Es. eapply choosable_tuned; [exact Hh|]. rewrite <-(proj1 Hw).
    eapply choosable_mono; [apply Hw|done|by apply Hs].
  - intros x E Hx Eb. by apply Hex, (Hb x).
Qed.

(** A selection found in the loop. *)
Lemma loop_found members rr w x rr' w' :
  cs_post members rr w (Some x) rr' w' → cs_exact members rr w (Some x) w' →
  (members ⊆ Peers (primary rr) ∨ backupPhase rr = true ∧ members ⊆ backup_members rr) →
  pick_post rr w (Some x) rr' w' ∧ pick_exact rr w (Some x) rr' w'.
Proof.
  intros (Hw & Hg & Hb & Hx & Hn & Ht & Hs & Hp & Hd & Hc) He Hm.
  assert (base_tried rr rr' = tried rr) as Hbase.
  { unfold base_tried. rewrite Hb. by destruct (backupPhase rr). }
  split; split; try done.
  - congruence.
  - rewrite Hbase, Hb. split_and!; try done. destruct Hm as [Hm|[? Hm]]; auto.
  - by intros ? [= <-].
  - intros ? _ Hb1 Hb2. by rewrite Hb, Hb2 in Hb1.
Qed.

(** [J] is what the algorithm's own fields satisfy. *)
Section fallback.
Context {P : Type} (get : P → RRPicker) (set : RRPicker → P → P) (J : P → Prop).
Hypothesis get_set : ∀ rr p, get (set rr p) = rr.
Hypothesis J_set : ∀ rr p, same_groups (get p) rr → J p → J (set rr p).

Lemma round_robin_spec p w :
  rr_wf (get p) (heap w) → J p →
  wp (zoom get set RoundRobin.Pick) (λ r p' w',
    (pick_post (get p) w r (get p') w' ∧ pick_exact (get p) w r (get p') w') ∧ J p') p w.
Proof.
  intros Hwf HJ. wp_simpl. eapply wp_mono.
  { apply pickWithBackup_spec; [|exact Hwf]. intros. by apply pickFromGroup_spec. }
  intros r rr' w' Hp. rewrite get_set. split; [done|]. apply J_set; [apply Hp|done].
Qed.

Lemma or_round_robin_spec loop members p w :
  rr_wf (get p) (heap w) →
  (members ⊆ Peers (primary (get p)) ∨
   backupPhase (get p) = true ∧ members ⊆ backup_members (get p)) →
  wp loop (λ r p' w', loop_post get members p w r p' w' ∧ J p') p w →
  wp (or_round_robin get set loop) (λ r p' w',
    (pick_post (get p) w r (get p') w' ∧ pick_exact (get p) w r (get p') w') ∧ J p') p w.
Proof.
  intros Hwf Hm Hloop. unfold or_round_robin. apply wp_bind.
  eapply wp_mono; [exact Hloop|]. intros [x|] p1 w1 [Hr HJ]; cbn beta iota.
  - wp_simpl. destruct Hr as [? ?]. split; [|done]. by eapply loop_found.
  - destruct Hr as (Hrr & Hw & Hh). eapply wp_mono; [apply round_robin_spec; [|done]|].
    + rewrite Hrr. eapply groups_wf_tuned; [exact Hh|done].
    + intros r rr' w' [Hp ?]. rewrite Hrr in Hp. split; [|done]. by eapply pick_post_weaken.
Qed.
End fallback.

(** ** Claims *)

(** C35: the weighted walk of the hash pickers ([for _, peer := range
    group.Peers { w -= peer.Weight; ... }]) maps the values of [0, total) onto
    the peers exactly in proportion to their weights: of the values below the
    group's total weight, a member owns as many as its own weight. *)
Theorem select_weight_share (h : Heap) (xs : list PeerId) (x : PeerId) :
  heap_ok h xs → is_int (sum_weights h xs) → NoDup xs → x ∈ xs →
  owned h xs x 0 (Z.to_nat (sum_weights h xs)) = Z.to_nat (Weight (h !!! x)).
Proof.
  induction xs as [|y xs IH]; intros Hok Hi Hnd Hx; [by apply not_elem_of_nil in Hx|].
  apply NoDup_cons in Hnd as [Hny Hnd]. pose proof (Hok y ltac:(by left)) as Hy.
  assert (heap_ok h xs) as Hok' by (intros z Hz; apply Hok; by right).
  pose proof (sum_weights_nonneg h xs Hok'). destruct (ok_Weight _ Hy).
  rewrite sum_weights_cons in *.
  rewrite Z2Nat.inj_add, owned_app, owned_head by (try done; lia).
  rewrite (Nat.add_comm 0), owned_tail;
    [|done|lia|unfold is_int, min_int, max_int in *; lia].
  case_decide as E.
  - subst. rewrite owned_none by done. lia.
  - rewrite IH; [done|done|unfold is_int, min_int, max_int in *; lia|done|set_solver].
Qed.

Lemma select_weight_share_witness :
  owned demo_rr.2 [0%nat; 1%nat] 0 0 8 = 5%nat.
Proof.
  apply (select_weight_share demo_rr.2 [0%nat; 1%nat] 0).
  - intros x Hx. destruct (demo_wf) as [_ _ Hok _ _ _]. by apply Hok.
  - vm_compute. split; congruence.
  - apply NoDup_ListNoDup. repeat constructor; set_solver.
  - set_solver.
Defined.
