(* ===== verification/IPHash.v ===== *)
(** * IP hash (iphash.go)

    The client address is folded into a rolling hash, the hash picks a peer by
    weight; rejected candidates fold the address again, and after the budget of
    candidates round-robin decides. *)

From S2P Require Import Prelude GoLib Peer RoundRobin Picker SmoothWRR Candidates.
#[local] Open Scope Z_scope.
#[local] Open Scope go_scope.

(** ** Definitions *)

Definition maxIPHashTries : Z := 20.

Record IPHash := MkIPHash { ih_rr : RoundRobin }.

Definition NewIPHash (peers : list (option PeerId)) (h : Heap) : IPHash * Heap :=
  let '(rr, h) := NewRoundRobin peers h in (MkIPHash rr, h).

(** [net.IP]: a byte slice, nil being the empty one, with [To4] and [To16]. *)
Definition To4 (ip : list Z) : option (list Z) :=
  if (length ip =? 4)%nat then Some ip
  else if (length ip =? 16)%nat && forallb (Z.eqb 0) (take 10 ip) &&
          forallb (Z.eqb 255) (take 2 (drop 10 ip))
  then Some (drop 12 ip) else None.

Definition To16 (ip : list Z) : option (list Z) :=
  if (length ip =? 4)%nat then Some (replicate 10 0 ++ [255; 255] ++ ip)
  else if (length ip =? 16)%nat then Some ip else None.

Record ipHashPicker := MkIPHashPicker {
  ip_RRPicker : RRPicker;
  clientIP : list Z;
  hash : Z;
  tries : Z;
}.

Definition set_RRPicker (rr : RRPicker) (p : ipHashPicker) : ipHashPicker :=
  MkIPHashPicker rr (clientIP p) (hash p) (tries p).
Definition set_hash (h : Z) (p : ipHashPicker) : ipHashPicker :=
  MkIPHashPicker (ip_RRPicker p) (clientIP p) h (tries p).
Definition incr_tries (p : ipHashPicker) : ipHashPicker :=
  MkIPHashPicker (ip_RRPicker p) (clientIP p) (hash p) (tries p +! 1).

Definition NewPicker (h : IPHash) : ipHashPicker :=
  MkIPHashPicker (NewRRPicker (rr_primary (ih_rr h)) (rr_backup (ih_rr h))) [] 89 0.

Definition NewPickerForIP (h : IPHash) (ip : list Z) : ipHashPicker :=
  MkIPHashPicker (NewRRPicker (rr_primary (ih_rr h)) (rr_backup (ih_rr h))) ip 89 0.

(** [for i := 0; i < addrLen; i++ { hash = (hash*113 + uint32(addr[i])) % 6271 }] *)
Definition fold_addr (addr : list Z) (hash : Z) : Z :=
  fold_left (λ h a, wrap_u32 (wrap_u32 (h * 113) + a) mod 6271) addr hash.

(** One candidate; the local variable [hash] is the second component. *)
Definition ip_round (group : PeerGroup) (bytes : list Z) (now : Time)
    : M (ipHashPicker * Z) round :=
  s ← self;
  let hash := fold_addr bytes (snd s) in
  update (λ s, (fst s, hash));;
  (w ← mod_total hash (TotalWeight group);
   sel ← select (Peers group) w;
   match sel with
   | None => mret Break
   | Some selected =>
       ok ← candidate_ok (λ s, ip_RRPicker (fst s)) selected;
       if ok : bool then
         zoom (λ s, ip_RRPicker (fst s)) (λ rr s, (set_RRPicker rr (fst s), snd s))
           (commitPeer selected now);;
         update (λ s, (set_hash hash (fst s), snd s));;
         mret (Return selected)
       else
         update (λ s, (incr_tries (fst s), snd s));;
         mret Continue
   end).

Definition ip_loop (group : PeerGroup) (bytes : list Z) : M ipHashPicker (option PeerId) :=
  now ← Now;
  p ← self;
  zoom (λ q, (q, hash p)) (λ s _, fst s)
    (for_loop (rounds_left maxIPHashTries (tries p))
       (λ s, tries (fst s) <=? maxIPHashTries) (ip_round group bytes now)).

Definition ip_round_robin : M ipHashPicker (option PeerId) :=
  zoom ip_RRPicker set_RRPicker RoundRobin.Pick.

Definition current_group (rr : RRPicker) : PeerGroup :=
  match backup rr with
  | Some b => if backupPhase rr then b else primary rr
  | None => primary rr
  end.

(** The bytes that are hashed: a /24 for IPv4, everything for IPv6. *)
Definition hash_bytes (ip : list Z) : option (list Z) :=
  if (length ip =? 0)%nat then None else
  match (match To4 ip with Some addr => Some addr | None => To16 ip end) with
  | None => None
  | Some addr =>
      let addrLen := if (4 <? length addr)%nat then length addr else 3%nat in
      Some (take addrLen addr)
  end.

Definition Pick : M ipHashPicker (option PeerId) :=
  p ← self;
  let group := current_group (ip_RRPicker p) in
  if (length (Peers group) <? 2)%nat then ip_round_robin else
  match hash_bytes (clientIP p) with
  | None => ip_round_robin
  | Some bytes => or_round_robin ip_RRPicker set_RRPicker (ip_loop group bytes)
  end.

Definition Done (peer : option PeerId) (failed : bool) : M ipHashPicker unit :=
  zoom ip_RRPicker set_RRPicker (RoundRobin.Done peer failed).
Definition doneNeutral (peer : option PeerId) : M ipHashPicker unit :=
  zoom ip_RRPicker set_RRPicker (RoundRobin.doneNeutral peer).

#[export] Instance ipHash_picker : Picker ipHashPicker := {|
  rrp := ip_RRPicker;
  pick := Pick;
  release := Done;
  release_neutral := doneNeutral;
|}.

(** ** The network of a client

    What an address stands for, apart from how the code takes it: the /24
    network of an IPv4 address, also when it is written as an IPv4-mapped IPv6
    address, and the whole of any other IPv6 address.  No other byte slice is an
    address. *)
Definition v4_mapped (ip : list Z) : list Z := replicate 10 0 ++ [255; 255] ++ ip.

Inductive network : list Z → list Z → Prop :=
  | net_v4 a b c d : network [a; b; c; d] [a; b; c]
  | net_mapped a b c d : network (v4_mapped [a; b; c; d]) [a; b; c]
  | net_v6 ip : length ip = 16%nat → (∀ v4, ip ≠ v4_mapped v4) → network ip ip.

(** A group can be hashed over when its total weight is not a multiple of 2^32. *)
Definition hashable (g : PeerGroup) : Prop :=
  (2 ≤ length (Peers g))%nat → wrap_u32 (TotalWeight g) ≠ 0.

Definition hashed_groups (p : ipHashPicker) : Prop :=
  hashable (primary (ip_RRPicker p)) ∧
  ∀ b, backup (ip_RRPicker p) = Some b → hashable b.

(** ** The loop *)

Lemma ip_round_spec group bytes now p w0 w :
  wrap_u32 (TotalWeight group) ≠ 0 →
  wp (ip_round group bytes now) (λ r s' w',
    round_post (λ s, ip_RRPicker (fst s)) (Peers group) (p, w0) w r s' w') (p, w0) w.
Proof.
  intros Ht. unfold ip_round, mod_total, select. wp_simpl.
  rewrite (proj2 (Z.eqb_neq _ _) Ht). wp_simpl. unfold wp at 1.
  destruct (select_weight _ _ _) as [x|] eqn:Esel; wp_simpl; [|done].
  eapply wp_mono; [apply candidate_ok_spec|].
  intros ok s' w' (-> & Hh & Hw & Hok). cbn [fst snd] in *.
  assert (htuned (heap w) (heap w')) by (by rewrite Hh).
  destruct ok; wp_simpl; [|by split_and!].
  destruct Hok as [Hn Hc]. eapply wp_mono.
  { apply (commit_post (Peers group)); try done. by eapply select_weight_in. }
  intros r rr' w2 (_ & Hcs & He). wp_simpl. done.
Qed.

Lemma ip_loop_spec group bytes p w :
  wrap_u32 (TotalWeight group) ≠ 0 →
  wp (ip_loop group bytes) (λ r p' w',
    loop_post ip_RRPicker (Peers group) p w r p' w' ∧ (hashed_groups p → hashed_groups p')) p w.
Proof.
  intros Ht. unfold ip_loop. wp_simpl.
  eapply wp_mono.
  { apply (for_loop_spec (λ s, ip_RRPicker (fst s)) (Peers group)
      (λ s _, hashed_groups p → hashed_groups (fst s))); [|done].
    intros [q hq] w1 _ HI. eapply wp_mono; [by apply ip_round_spec|].
    intros r s' w' Hr. split; [done|]. intros Hp. specialize (HI Hp).
    unfold hashed_groups in *. destruct r; cbn in Hr; [by rewrite (proj1 Hr)..|].
    destruct Hr as [(_ & [Hg Hb] & _) _]. by rewrite Hg, Hb. }
  intros r [p' h'] w' [Hr ?]. split; [|done].
  revert Hr. apply (round_post_trans ip_RRPicker); [done|apply wext_tick|reflexivity].
Qed.

#[export] Instance ipHash_laws : PickerLaws ipHashPicker.
Proof.
  assert (∀ rr p, same_groups (ip_RRPicker p) rr → hashed_groups p →
    hashed_groups (set_RRPicker rr p)) as Hset
    by (intros rr p [Hg Hb]; unfold hashed_groups; cbn; by rewrite Hg, Hb).
  apply (embedded_laws ip_RRPicker set_RRPicker hashed_groups); [done|exact Hset|].
  intros p w [Hwf HJ]. pose proof HJ as [Hp Hb]. unfold Pick. wp_simpl.
  destruct (Nat.ltb_spec (length (Peers (current_group (ip_RRPicker p)))) 2) as [|Hl];
    [by apply (round_robin_spec _ _ hashed_groups)|].
  destruct (hash_bytes (clientIP p)) as [bytes|];
    [|by apply (round_robin_spec _ _ hashed_groups)].
  apply (or_round_robin_spec _ _ hashed_groups) with
    (members := Peers (current_group (ip_RRPicker p))); [done|exact Hset|done|..].
  - unfold current_group, backup_members.
    destruct (backup _) as [b|]; [|by left]. destruct (backupPhase _); [right|left]; done.
  - eapply wp_mono; [apply ip_loop_spec|]; [|by intros ??? [? HJ']; auto].
    revert Hl. unfold current_group. destruct (backup _) as [b|] eqn:Eb; [|apply Hp].
    destruct (backupPhase _); [by apply Hb|apply Hp].
Defined.

(** ** Termination *)

Lemma ip_round_tries group bytes now s w s' w' :
  ip_round group bytes now s w = Ret (Continue, s', w') →
  tries (fst s') = tries (fst s) +! 1.
Proof.
  unfold ip_round, mod_total, select. intros E. apply bind_inv in E as (? & ? & ? & [= <- <- <-] & E).
  apply bind_inv in E as (? & ? & ? & [= <- <- <-] & E).
  apply bind_inv in E as (v & ? & ? & Ev & E). destruct (_ =? 0); [done|]. injection Ev as <- <- <-.
  apply bind_inv in E as ([x|] & ? & ? & [= Es <- <-] & E); [|done].
  apply bind_inv in E as (ok & ? & ? & Eok & E). apply candidate_ok_inv in Eok as ->.
  destruct ok; [|by injection E as <- <-].
  apply bind_inv in E as (? & ? & ? & _ & E). by apply bind_inv in E as (? & ? & ? & _ & E).
Qed.

(** ** The chosen peer *)

Lemma fold_addr_bounds bytes h : 0 <= h < 6271 → 0 <= fold_addr bytes h < 6271.
Proof.
  unfold fold_addr. revert h. induction bytes as [|a bytes IH]; intros h Hh; [done|].
  cbn [fold_left]. apply IH, Z.mod_pos_bound. done.
Qed.

Section found.
Context (group : PeerGroup) (bytes : list Z) (x : PeerId) (h : Heap).
Hypothesis members_ok : heap_ok h (Peers group).
Hypothesis total_exact : TotalWeight group = sum_weights h (Peers group).
Hypothesis total_u32 : TotalWeight group < 2 ^ 32.

Lemma ip_round_found now s w :
  heap w = h → 0 <= snd s < 6271 →
  owns h (Peers group) x (fold_addr bytes (snd s) mod TotalWeight group) →
  x ∉ tried (ip_RRPicker (fst s)) → serves h x (clock w (ticks w)) →
  ∃ s' w', ip_round group bytes now s w = Ret (Return x, s', w') ∧
    hash (fst s') = fold_addr bytes (snd s) ∧ tries (fst s') = tries (fst s).
Proof using members_ok total_exact total_u32.
  intros Hh Hs Hown Hx Hserve. rewrite <-Hh in Hserve.
  assert (1 <= TotalWeight group) as HT.
  { rewrite total_exact. eapply sum_weights_pos; [done|]. by eapply owns_in. }
  pose proof (fold_addr_bounds bytes (snd s) Hs).
  assert (wp (ip_round group bytes now) (λ r s' _, r = Return x ∧
    hash (fst s') = fold_addr bytes (snd s) ∧ tries (fst s') = tries (fst s)) s w) as Hwp.
  { unfold ip_round, mod_total, select. wp_simpl.
    unfold wrap_u32. rewrite (Z.mod_small (TotalWeight group)) by lia. rewrite (proj2 (Z.eqb_neq _ _)) by lia.
    wp_simpl. unfold wp at 1. cbn [fst snd].
    pose proof (Z.mod_pos_bound (fold_addr bytes s.2) (TotalWeight group) ltac:(lia)).
    rewrite Hh, (owns_select _ _ _ x members_ok); [|unfold is_int, min_int, max_int; lia|exact Hown].
    wp_simpl. apply (wp_eq _ _ _ _ _ _ _ (candidate_ok_serves (λ s, ip_RRPicker (fst s)) x
      (fst s, fold_addr bytes (snd s)) w Hserve Hx)). wp_simpl.
    eapply wp_mono; [apply commitPeer_spec|]. intros. by wp_simpl. }
  apply wp_exists in Hwp as (r & s' & w' & E & -> & ?). eauto.
Qed.

Lemma ip_loop_found p w :
  heap w = h → 0 <= hash p < 6271 → tries p <= maxIPHashTries →
  owns h (Peers group) x (fold_addr bytes (hash p) mod TotalWeight group) →
  x ∉ tried (ip_RRPicker p) → serves h x (clock w (S (ticks w))) →
  ∃ p' w', ip_loop group bytes p w = Ret (Some x, p', w') ∧
    hash p' = fold_addr bytes (hash p) ∧ tries p' = tries p.
Proof using members_ok total_exact total_u32.
  intros Hh Hs Ht Hown Hx Hserve. unfold ip_loop.
  destruct (ip_round_found (clock w (ticks w)) (p, hash p) (tick w))
    as (s' & w' & E & Hhash & Htries); [done..|].
  exists (fst s'), w'. split; [|done].
  rewrite (bind_Ret Now _ _ _ _ _ _ eq_refl), (bind_Ret self _ _ _ _ _ _ eq_refl).
  unfold zoom. erewrite for_loop_return; [done| |exact E|unfold rounds_left; lia].
  apply Z.leb_le. done.
Qed.
End found.

(** ** Only the hashed bytes of the address matter *)

Definition with_ip (ip : list Z) (p : ipHashPicker) : ipHashPicker :=
  MkIPHashPicker (ip_RRPicker p) ip (hash p) (tries p).

(** The same outcome from a picker that differs in the address. *)
Definition readdress {A S} (f : S → S) (r : outcome (A * S * World)) : outcome (A * S * World) :=
  match r with
  | Ret (a, s, w) => Ret (a, f s, w)
  | Panic why => Panic why
  end.

Lemma ip_round_readdress ip group bytes now p v w :
  ip_round group bytes now (with_ip ip p, v) w =
  readdress (λ s, (with_ip ip (fst s), snd s)) (ip_round group bytes now (p, v) w).
Proof.
  unfold ip_round, mod_total, select, candidate_ok, peerAvailable, zoom, Tried.
  unfold mbind, M_bind. cbn -[commitPeer].
  destruct (wrap_u32 _ =? 0); [done|]. cbn -[commitPeer].
  destruct (select_weight _ _ _) as [x|]; [|done]. cbn -[commitPeer].
  destruct (Down _); [done|]. cbn -[commitPeer].
  destruct (bool_decide _); [done|]. cbn -[commitPeer].
  destruct (if failed_out _ _ then _ else _); [|done]. cbn -[commitPeer].
  by destruct (commitPeer x now (ip_RRPicker p) _) as [[[??]?]|].
Qed.

Lemma for_loop_readdress {S} (f : S → S) fuel cond (body : M S round) :
  (∀ s, cond (f s) = cond s) →
  (∀ s w, body (f s) w = readdress f (body s w)) →
  ∀ s w, for_loop fuel cond body (f s) w = readdress f (for_loop fuel cond body s w).
Proof.
  intros Hc Hb. induction fuel as [|fuel IH]; intros s w; [done|]. cbn [for_loop].
  rewrite !(bind_Ret self _ _ _ _ _ _ eq_refl), Hc. destruct (cond s); [|done].
  unfold mbind, M_bind. rewrite Hb.
  destruct (body s w) as [[[[] ?] ?]|]; cbn; try done; apply IH.
Qed.

Lemma ip_loop_readdress ip group bytes p w :
  ip_loop group bytes (with_ip ip p) w = readdress (with_ip ip) (ip_loop group bytes p w).
Proof.
  unfold ip_loop. rewrite !(bind_Ret Now _ _ _ _ _ _ eq_refl), !(bind_Ret self _ _ _ _ _ _ eq_refl).
  unfold zoom. cbn [tries hash with_ip].
  rewrite (for_loop_readdress (S := ipHashPicker * Z) (λ s, (with_ip ip (fst s), snd s))
    _ _ _) with (s := (p, hash p)).
  - by destruct (for_loop _ _ _ _ _) as [[[? [??]] ?]|].
  - done.
  - intros [??] ?. apply ip_round_readdress.
Qed.

Lemma Pick_readdress ip p w :
  hash_bytes ip = hash_bytes (clientIP p) →
  Pick (with_ip ip p) w = readdress (with_ip ip) (Pick p w).
Proof.
  intros Hb. unfold Pick. rewrite !(bind_Ret self _ _ _ _ _ _ eq_refl).
  cbn [ip_RRPicker clientIP with_ip]. rewrite Hb.
  assert (∀ w, ip_round_robin (with_ip ip p) w =
               readdress (with_ip ip) (ip_round_robin p w)) as Hrr.
  { intros w'. unfold ip_round_robin, zoom. cbn [ip_RRPicker with_ip].
    by destruct (RoundRobin.Pick _ _) as [[[??]?]|]. }
  destruct (_ <? 2)%nat; [done|]. destruct (hash_bytes (clientIP p)) as [bytes|]; [|done].
  unfold or_round_robin, mbind, M_bind. rewrite ip_loop_readdress.
  destruct (ip_loop _ _ _ _) as [[[[x|] p'] w']|]; [done| |done]. cbn [readdress].
  unfold zoom. cbn [ip_RRPicker with_ip]. by destruct (RoundRobin.Pick _ _) as [[[??]?]|].
Qed.

(** ** The hashed bytes are those of the network *)

Lemma forallb_const k (l : list Z) : forallb (Z.eqb k) l = true → l = replicate (length l) k.
Proof.
  induction l as [|x l IH]; [done|]. cbn. intros [<-%Z.eqb_eq H]%andb_true_iff. f_equal. by apply IH.
Qed.

Lemma To4_mapped ip v4 : length ip = 16%nat → To4 ip = Some v4 → ip = v4_mapped v4.
Proof.
  unfold To4. intros Hl. rewrite Hl. cbn [Nat.eqb andb].
  destruct (forallb _ (take 10 ip)) eqn:H0; [|done].
  destruct (forallb _ (take 2 (drop 10 ip))) eqn:H1; [|done]. intros [= <-]. apply forallb_const in H0, H1. rewrite length_take in H0.
  rewrite length_take, length_drop in H1. rewrite Hl in H0, H1. unfold v4_mapped.
  change (replicate 10 0) with (replicate (10 `min` 16) 0).
  change [255; 255] with (replicate (2 `min` (16 - 10)) 255). rewrite <-H0, <-H1.
  rewrite <-(take_drop 10 ip) at 1. f_equal. rewrite <-(take_drop 2 (drop 10 ip)) at 1.
  by rewrite drop_drop.
Qed.

Lemma To4_length ip v4 : To4 ip = Some v4 → length v4 = 4%nat.
Proof.
  unfold To4. destruct (Nat.eqb_spec (length ip) 4); [by intros [= <-]|].
  destruct (Nat.eqb_spec (length ip) 16) as [Hl|]; [|done]. cbn [andb].
  destruct (_ && _); [|done]. intros [= <-]. by rewrite length_drop, Hl.
Qed.

(** An address of four or sixteen bytes, from its [To4]. *)
Lemma To4_cases ip :
  match To4 ip with
  | Some v4 => (ip = v4 ∨ ip = v4_mapped v4) ∧ length v4 = 4%nat
  | None => length ip ≠ 4%nat ∧ ∀ v4, length ip = 16%nat → ip ≠ v4_mapped v4
  end.
Proof.
  destruct (To4 ip) as [v4|] eqn:E.
  - split; [|by eapply To4_length]. destruct (decide (length ip = 16%nat)) as [Hl|Hl].
    + right. by apply To4_mapped.
    + left. unfold To4 in E. destruct (_ =? 4)%nat; [by injection E|].
      by rewrite (proj2 (Nat.eqb_neq _ _) Hl) in E.
  - split.
    + intros Hl. unfold To4 in E. by rewrite Hl in E.
    + intros v4 Hl ->. unfold To4, v4_mapped in *. rewrite Hl in E. cbn in E. done.
Qed.

Lemma hash_bytes_network ip net : hash_bytes ip = Some net ↔ network ip net.
Proof.
  unfold hash_bytes. split.
  - pose proof (To4_cases ip) as H4. destruct (length ip =? 0)%nat; [done|]. destruct (To4 ip) as [v4|].
    + destruct H4 as [Hip Hl]. rewrite Hl. intros [= <-].
      destruct v4 as [|a [|b [|c [|d [|? ?]]]]]; try discriminate Hl.
      destruct Hip as [-> | ->]; constructor.
    + destruct H4 as [H4 Hm]. unfold To16. rewrite (proj2 (Nat.eqb_neq _ _) H4).
      destruct (Nat.eqb_spec (length ip) 16) as [Hl|]; [|done]. rewrite Hl. intros [= <-].
      rewrite take_ge by lia. constructor; [done|]. intros v4. by apply Hm.
  - intros [a b c d|a b c d|ip' Hl Hm]; [done..|].
    pose proof (To4_cases ip') as H4. rewrite Hl. cbn [Nat.eqb]. destruct (To4 ip') as [v4|].
    + destruct H4 as [[-> | ->] Hl4]; [congruence|by destruct (Hm v4 eq_refl)].
    + unfold To16. rewrite Hl. cbn [Nat.eqb Nat.ltb Nat.leb]. rewrite Hl. cbn [Nat.ltb Nat.leb].
      by rewrite take_ge by lia.
Qed.

(** ** Claims *)

(** C33: a client is hashed by its network: for a client in an IPv4 /24 network
    (also as an IPv4-mapped IPv6 address) or with an IPv6 address, [Pick] in a
    group of several peers folds exactly the three bytes of the network, or the
    sixteen of the address, and then leaves it to round-robin; two clients of
    one network get the same peer, the same effect on the shared peers and the
    same failures, at every selection of a request and in every state.  A client
    whose address is neither is served by round-robin. *)
Theorem ip_hash_subnet (p : ipHashPicker) (w : World) :
  let g := current_group (ip_RRPicker p) in
  (∀ net, network (clientIP p) net →
    Pick p w = (if (length (Peers g) <? 2)%nat then ip_round_robin
                else or_round_robin ip_RRPicker set_RRPicker (ip_loop g net)) p w ∧
    ∀ ip, network ip net → Pick (with_ip ip p) w = readdress (with_ip ip) (Pick p w)) ∧
  ((∀ net, ¬ network (clientIP p) net) → Pick p w = ip_round_robin p w).
Proof.
  intros g. split.
  - intros net Hnet%hash_bytes_network. split.
    + unfold Pick. rewrite (bind_Ret self _ _ _ _ _ _ eq_refl), Hnet. by destruct (_ <? 2)%nat.
    + intros ip Hip%hash_bytes_network. apply Pick_readdress. congruence.
  - intros Hno. unfold Pick. rewrite (bind_Ret self _ _ _ _ _ _ eq_refl).
    destruct (_ <? 2)%nat; [done|].
    destruct (hash_bytes (clientIP p)) as [net|] eqn:E; [|done].
    by apply hash_bytes_network, Hno in E.
Qed.

(** Two hosts of 10.1.2.0/24, the second as an IPv6 address. *)
Lemma ip_hash_subnet_witness :
  let p := NewPickerForIP (MkIPHash demo_rr.1) [10; 1; 2; 3] in
  let q := NewPickerForIP (MkIPHash demo_rr.1) (v4_mapped [10; 1; 2; 200]) in
  Pick q demo_world = readdress (with_ip (v4_mapped [10; 1; 2; 200])) (Pick p demo_world) ∧
  Pick p demo_world = or_round_robin ip_RRPicker set_RRPicker
    (ip_loop (rr_primary demo_rr.1) [10; 1; 2]) p demo_world.
Proof.
  intros p q. destruct (proj1 (ip_hash_subnet p demo_world) [10; 1; 2] (net_v4 10 1 2 3)) as [E H].
  split; [exact (H (v4_mapped [10; 1; 2; 200]) (net_mapped 10 1 2 200))|exact E].
Defined.

(** C34: affinity: while the owner of the client's hash is up, below its limits
    and not yet tried by this request, [Pick] returns it, whatever the other
    peers are doing; the rolling hash is advanced by one folding of the address
    and no candidate is counted as rejected. *)
Theorem ip_hash_affinity (p : ipHashPicker) (bytes : list Z) (x : PeerId) (w : World) :
  let g := current_group (ip_RRPicker p) in
  heap_ok (heap w) (Peers g) → (2 ≤ length (Peers g))%nat →
  TotalWeight g = sum_weights (heap w) (Peers g) → TotalWeight g < 2 ^ 32 →
  0 <= hash p < 6271 → tries p <= maxIPHashTries →
  hash_bytes (clientIP p) = Some bytes →
  owns (heap w) (Peers g) x (fold_addr bytes (hash p) mod TotalWeight g) →
  x ∉ tried (ip_RRPicker p) → serves (heap w) x (clock w (S (ticks w))) →
  ∃ p' w', Pick p w = Ret (Some x, p', w') ∧
    hash p' = fold_addr bytes (hash p) ∧ tries p' = tries p.
Proof.
  intros g Hok Hlen HT Hlt Hh Htr Hb Hown Hx Hs. unfold Pick.
  rewrite (bind_Ret self _ _ _ _ _ _ eq_refl). fold g.
  rewrite (proj2 (Nat.ltb_ge _ _) Hlen), Hb.
  destruct (ip_loop_found _ _ _ _ Hok HT Hlt p w eq_refl Hh Htr Hown Hx Hs) as (p' & w' & E & ?).
  exists p', w'. split; [|done]. unfold or_round_robin. by rewrite (bind_Ret _ _ _ _ _ _ _ E).
Qed.

Lemma ip_hash_affinity_witness :
  ∃ p' w', Pick (NewPickerForIP (MkIPHash demo_rr.1) [10; 1; 2; 3]) demo_world =
      Ret (Some 0%nat, p', w') ∧ hash p' = fold_addr [10; 1; 2] 89 ∧ tries p' = 0.
Proof.
  apply (ip_hash_affinity (NewPickerForIP (MkIPHash demo_rr.1) [10; 1; 2; 3]) [10; 1; 2]
    0 demo_world).
  - apply demo_wf.
  - vm_compute. lia.
  - reflexivity.
  - reflexivity.
  - vm_compute. split; congruence.
  - vm_compute. congruence.
  - reflexivity.
  - exists [], [1%nat]. split; [reflexivity|vm_compute; split; congruence].
  - set_solver.
  - vm_compute. auto.
Defined.
