(* ===== verification/Hash.v ===== *)
(** * Hash of a key (hash.go)

    The nginx and Cache::Memcached compatible generic hash: the checksums of
    the key, prefixed by the number of the attempt after the first, accumulate
    in the picker; the sum picks a peer of the primary group by weight. *)

From S2P Require Import Prelude GoLib Peer RoundRobin Picker Candidates IPHash.
#[local] Open Scope Z_scope.
#[local] Open Scope go_scope.

(** ** Definitions *)

Definition maxHashTries : Z := 20.

Record Hash := MkHash { h_rr : RoundRobin }.

Definition NewHash (peers : list (option PeerId)) (h : Heap) : Hash * Heap :=
  let '(rr, h) := NewRoundRobin peers h in (MkHash rr, h).

Record hashPicker := MkHashPicker {
  hp_RRPicker : RRPicker;
  key : string;
  hashTries : Z;
  rehash : Z;
  hp_hash : Z;
}.

Definition set_hp_rr (rr : RRPicker) (p : hashPicker) : hashPicker :=
  MkHashPicker rr (key p) (hashTries p) (rehash p) (hp_hash p).
Definition incr_hashTries (p : hashPicker) : hashPicker :=
  MkHashPicker (hp_RRPicker p) (key p) (hashTries p +! 1) (rehash p) (hp_hash p).

Definition NewPickerForKey (h : Hash) (key : string) : hashPicker :=
  MkHashPicker (NewRRPicker (rr_primary (h_rr h)) (rr_backup (h_rr h))) key 0 0 0.
Definition NewPicker (h : Hash) : hashPicker := NewPickerForKey h "".

(** The bytes hashed for one candidate. *)
Definition hash_input (p : hashPicker) : string :=
  if 0 <? rehash p then String.append (Itoa (rehash p)) (key p) else key p.

(** [p.hash += (hash >> 16) & 0x7fff; p.rehash++] *)
Definition accumulate (p : hashPicker) : hashPicker :=
  let hash := ChecksumIEEE (bytes_of_string (hash_input p)) in
  MkHashPicker (hp_RRPicker p) (key p) (hashTries p) (rehash p +! 1)
    (wrap_u32 (hp_hash p + Z.land (Z.shiftr hash 16) 0x7fff)).

Definition hash_round (group : PeerGroup) (now : Time) : M hashPicker round :=
  update accumulate;;
  (p ← self;
   w ← mod_total (hp_hash p) (TotalWeight group);
   sel ← select (Peers group) w;
   match sel with
   | None => mret Break
   | Some selected =>
       ok ← candidate_ok hp_RRPicker selected;
       if ok : bool then
         zoom hp_RRPicker set_hp_rr (commitPeer selected now);;
         mret (Return selected)
       else
         update incr_hashTries;;
         mret Continue
   end).

Definition hash_loop (group : PeerGroup) : M hashPicker (option PeerId) :=
  now ← Now;
  p ← self;
  for_loop (rounds_left maxHashTries (hashTries p))
    (λ p, hashTries p <=? maxHashTries) (hash_round group now).

Definition Pick : M hashPicker (option PeerId) :=
  p ← self;
  let group := primary (hp_RRPicker p) in
  if (key p =? "")%string || (length (Peers group) <? 2)%nat
  then zoom hp_RRPicker set_hp_rr RoundRobin.Pick
  else or_round_robin hp_RRPicker set_hp_rr (hash_loop group).

Definition Done (peer : option PeerId) (failed : bool) : M hashPicker unit :=
  zoom hp_RRPicker set_hp_rr (RoundRobin.Done peer failed).
Definition doneNeutral (peer : option PeerId) : M hashPicker unit :=
  zoom hp_RRPicker set_hp_rr (RoundRobin.doneNeutral peer).

#[export] Instance hash_picker : Picker hashPicker := {|
  rrp := hp_RRPicker;
  pick := Pick;
  release := Done;
  release_neutral := doneNeutral;
|}.

(** The hash value of the first candidate for a key. *)
Definition key_hash (key : string) : Z :=
  Z.land (Z.shiftr (ChecksumIEEE (bytes_of_string key)) 16) 0x7fff.

(** ** The loop *)

Lemma hash_round_spec group now p w :
  wrap_u32 (TotalWeight group) ≠ 0 →
  wp (hash_round group now) (λ r p' w',
    round_post hp_RRPicker (Peers group) p w r p' w' ∧
    (r = Continue → hashTries p' = hashTries p +! 1)) p w.
Proof.
  intros Ht. unfold hash_round, mod_total, select. wp_simpl.
  rewrite (proj2 (Z.eqb_neq _ _) Ht). wp_simpl. unfold wp at 1.
  destruct (select_weight _ _ _) as [x|] eqn:Esel; wp_simpl; [|done].
  eapply wp_mono; [apply candidate_ok_spec|].
  intros ok s' w' (-> & Hh & Hw & Hok).
  assert (htuned (heap w) (heap w')) by (by rewrite Hh).
  destruct ok; wp_simpl; [|by split_and!].
  destruct Hok as [Hn Hc]. eapply wp_mono.
  { apply (commit_post (Peers group)); try done. by eapply select_weight_in. }
  intros r rr' w2 (_ & Hcs & He). by wp_simpl.
Qed.

Definition hashed_primary (p : hashPicker) : Prop := hashable (primary (hp_RRPicker p)).

Lemma hash_loop_spec group p w :
  wrap_u32 (TotalWeight group) ≠ 0 →
  wp (hash_loop group) (λ r p' w',
    loop_post hp_RRPicker (Peers group) p w r p' w' ∧ (hashed_primary p → hashed_primary p')) p w.
Proof.
  intros Ht. unfold hash_loop. wp_simpl.
  eapply wp_mono.
  { apply (for_loop_spec hp_RRPicker (Peers group) (λ q _, hashed_primary p → hashed_primary q));
      [|done].
    intros q w1 _ HI. eapply wp_mono; [by apply hash_round_spec|]. intros r q' w2 [Hr _].
    split; [done|]. intros Hp. specialize (HI Hp). unfold hashed_primary in *.
    destruct r; cbn in Hr; [by rewrite (proj1 Hr)..|].
    destruct Hr as [(_ & [Hg Hb] & _) _]. by rewrite Hg. }
  intros r p' w' [Hr ?]. split; [|done].
  revert Hr. apply round_post_trans; [done|apply wext_tick|reflexivity].
Qed.

#[export] Instance hash_laws : PickerLaws hashPicker.
Proof.
  assert (∀ rr p, same_groups (hp_RRPicker p) rr → hashed_primary p →
    hashed_primary (set_hp_rr rr p)) as Hset
    by (intros rr p [Hg Hb]; unfold hashed_primary; cbn; by rewrite Hg).
  apply (embedded_laws hp_RRPicker set_hp_rr hashed_primary); [done|exact Hset|].
  intros p w [Hwf HJ]. unfold Pick. wp_simpl.
  destruct (_ =? "")%string; [by apply (round_robin_spec _ _ hashed_primary)|].
  destruct (Nat.ltb_spec (length (Peers (primary (hp_RRPicker p)))) 2) as [|Hl];
    [by apply (round_robin_spec _ _ hashed_primary)|].
  apply (or_round_robin_spec _ _ hashed_primary) with
    (members := Peers (primary (hp_RRPicker p))); [done|exact Hset|done|by left|].
  eapply wp_mono; [by apply hash_loop_spec, HJ|]. intros ??? [? HJ']. auto.
Defined.

(** ** The sequence of candidates

    [attempt_input j key] is what the j-th attempt hashes, [hash_sum n key] the
    sum of the first [n] checksums. *)
Definition attempt_input (j : nat) (key : string) : string :=
  match j with O => key | S _ => String.append (Itoa (Z.of_nat j)) key end.

Fixpoint hash_sum (n : nat) (key : string) : Z :=
  match n with
  | O => 0
  | S n => hash_sum n key + key_hash (attempt_input n key)
  end.

(** A picker that has made [n] attempts. *)
Definition attempted (n : nat) (p : hashPicker) : Prop :=
  rehash p = Z.of_nat n ∧ hp_hash p = hash_sum n (key p).

Lemma key_hash_bounds k : 0 <= key_hash k < 32768.
Proof.
  unfold key_hash. change 0x7fff with (Z.ones 15). rewrite Z.land_ones by lia.
  by apply Z.mod_pos_bound.
Qed.

Lemma hash_sum_bounds n key : 0 <= hash_sum n key <= Z.of_nat n * 32768.
Proof.
  induction n as [|n IH]; [done|]. cbn [hash_sum].
  pose proof (key_hash_bounds (attempt_input n key)). lia.
Qed.

Lemma accumulate_attempted n p :
  Z.of_nat n < 65536 → attempted n p →
  attempted (S n) (accumulate p) ∧ hp_RRPicker (accumulate p) = hp_RRPicker p ∧
  hashTries (accumulate p) = hashTries p ∧ key (accumulate p) = key p.
Proof.
  intros Hn [Hr Hh]. split; [|done]. unfold attempted, accumulate.
  cbn [rehash hp_hash key hash_sum]. rewrite Hr. split.
  { unfold int_add. rewrite wrap_int_id by (unfold is_int, min_int, max_int; lia). lia. }
  assert (hash_input p = attempt_input n (key p)) as ->.
  { unfold hash_input, attempt_input. rewrite Hr. by destruct n. }
  fold (key_hash (attempt_input n (key p))). rewrite Hh. unfold wrap_u32.
  pose proof (hash_sum_bounds n (key p)). pose proof (key_hash_bounds (attempt_input n (key p))).
  apply Z.mod_small. lia.
Qed.

Section candidates.
Context (group : PeerGroup) (h : Heap).
Hypothesis members_ok : heap_ok h (Peers group).
Hypothesis total_exact : TotalWeight group = sum_weights h (Peers group).
Hypothesis total_pos : 0 < TotalWeight group < 2 ^ 32.

(** The peer the walk picks for the [n]-th attempt. *)
Definition nth_owner (key : string) (n : nat) (x : PeerId) : Prop :=
  owns h (Peers group) x (hash_sum (S n) key mod TotalWeight group).

Lemma hash_round_selects now n p w x :
  heap w = h → Z.of_nat n < 65536 → attempted n p → nth_owner (key p) n x →
  hash_round group now p w =
    (ok ← candidate_ok hp_RRPicker x;
     if ok : bool then
       zoom hp_RRPicker set_hp_rr (commitPeer x now);; mret (Return x)
     else update incr_hashTries;; mret Continue) (accumulate p) w.
Proof using members_ok total_exact total_pos.
  intros Hh Hn Hp Hx. unfold hash_round, mod_total, select.
  rewrite (bind_Ret (update _) _ _ _ _ _ _ eq_refl), (bind_Ret self _ _ _ _ _ _ eq_refl).
  destruct (accumulate_attempted n p Hn Hp) as ([_ Hhash] & _ & _ & Hkey).
  unfold wrap_u32. rewrite (Z.mod_small (TotalWeight group)) by lia.
  rewrite (proj2 (Z.eqb_neq _ _)) by lia. rewrite (bind_Ret (mret _) _ _ _ _ _ _ eq_refl).
  rewrite Hhash, Hkey. pose proof (Z.mod_pos_bound (hash_sum (S n) (key p)) (TotalWeight group) ltac:(lia)).
  erewrite bind_Ret; [|rewrite Hh, (owns_select h _ _ x members_ok);
    [reflexivity|unfold is_int, min_int, max_int; lia|exact Hx]].
  done.
Qed.

Lemma hash_round_found now n p w x :
  heap w = h → Z.of_nat n < 65536 → attempted n p → nth_owner (key p) n x →
  x ∉ tried (hp_RRPicker p) → (∀ i, serves h x (clock w i)) →
  ∃ p' w', hash_round group now p w = Ret (Return x, p', w').
Proof using members_ok total_exact total_pos.
  intros Hh Hn Hp Hx Ht Hs.
  destruct (accumulate_attempted n p Hn Hp) as (_ & Hrr & _ & _).
  rewrite (hash_round_selects now n p w x) by done.
  rewrite (bind_Ret _ _ _ _ _ _ _ (candidate_ok_serves hp_RRPicker x (accumulate p) w
    ltac:(rewrite Hh; apply Hs) ltac:(by rewrite Hrr))).
  destruct (proj1 (wp_exists _ _ _ _) (commitPeer_spec x now (hp_RRPicker (accumulate p)) (tick w)))
    as (r & rr & w' & E & _).
  exists (set_hp_rr rr (accumulate p)), w'.
  erewrite bind_Ret; [reflexivity|]. unfold zoom. by rewrite E.
Qed.

Lemma hash_round_rejected now n p w y :
  heap w = h → Z.of_nat n < 65536 → attempted n p → nth_owner (key p) n y →
  rejects h (tried (hp_RRPicker p)) (clock w) y → hashTries p <= maxHashTries →
  ∃ p' w', hash_round group now p w = Ret (Continue, p', w') ∧
    heap w' = h ∧ clock w' = clock w ∧ attempted (S n) p' ∧ key p' = key p ∧
    hp_RRPicker p' = hp_RRPicker p ∧ hashTries p' = hashTries p +! 1.
Proof using members_ok total_exact total_pos.
  intros Hh Hn Hp Hy Hr Ht.
  destruct (accumulate_attempted n p Hn Hp) as (Ha & Hrr & Htr & Hk).
  destruct (candidate_ok_rejects hp_RRPicker y (accumulate p) w) as (w' & E & Hh' & Hc');
    [by rewrite Hrr, Hh|].
  exists (incr_hashTries (accumulate p)), w'.
  rewrite (hash_round_selects now n p w y) by done. rewrite (bind_Ret _ _ _ _ _ _ _ E).
  split_and!; [done|congruence|done|apply Ha..|done|done|done].
Qed.

Lemma hash_loop_found now k : ∀ n p w fuel x,
  heap w = h → Z.of_nat (n + k) < 65536 → attempted n p →
  0 <= hashTries p → hashTries p + Z.of_nat k <= maxHashTries → (k < fuel)%nat →
  (∀ i, (i < k)%nat → ∃ y, nth_owner (key p) (n + i) y ∧
    rejects h (tried (hp_RRPicker p)) (clock w) y) →
  nth_owner (key p) (n + k) x →
  x ∉ tried (hp_RRPicker p) → (∀ i, serves h x (clock w i)) →
  ∃ p' w', for_loop fuel (λ p, hashTries p <=? maxHashTries) (hash_round group now) p w =
    Ret (Some x, p', w').
Proof using members_ok total_exact total_pos.
  induction k as [|k IH]; intros n p w fuel x Hh Hn Hp H0 Ht Hf Hrej Hx Hnx Hs.
  - rewrite Nat.add_0_r in *.
    destruct (hash_round_found now n p w x) as (p' & w' & E); [done..|].
    exists p', w'. eapply for_loop_return; [apply Z.leb_le; lia|exact E|lia].
  - destruct (Hrej 0%nat ltac:(lia)) as (y & Hy & Hr). rewrite Nat.add_0_r in Hy.
    destruct (hash_round_rejected now n p w y)
      as (p1 & w1 & E & Hh1 & Hc1 & Hp1 & Hk1 & Hrr1 & Ht1); [done|lia|done|done|done|lia|].
    unfold int_add, maxHashTries in *.
    rewrite wrap_int_id in Ht1 by (unfold is_int, min_int, max_int; lia).
    destruct fuel as [|fuel]; [lia|].
    erewrite for_loop_continue; [|apply Z.leb_le; lia|exact E].
    apply (IH (S n)); rewrite ?Hk1, ?Hrr1, ?Hc1; try done; try lia.
    + intros i Hi. replace (S n + i)%nat with (n + S i)%nat by lia. apply Hrej. lia.
    + by replace (S n + k)%nat with (n + S k)%nat by lia.
Qed.
End candidates.

(** ** Claims *)

(** C32: the candidates of a key are the owners of the partial sums of its
    checksums, in the order of Cache::Memcached (the key, then "1"+key,
    "2"+key, ...): if the owners of the next [k] sums are all down, full, in
    quarantine or already tried and the owner of the sum after them is
    available, [Pick] returns that owner, for every [k] the budget of 20
    rejected candidates allows; with [k = 0] a key sticks to its peer. *)
Theorem hash_failover (p : hashPicker) (n k : nat) (x : PeerId) (w : World) :
  let g := primary (hp_RRPicker p) in
  heap_ok (heap w) (Peers g) → (2 ≤ length (Peers g))%nat → key p ≠ ""%string →
  TotalWeight g = sum_weights (heap w) (Peers g) → TotalWeight g < 2 ^ 32 →
  attempted n p → Z.of_nat (n + k) < 65536 →
  0 <= hashTries p → hashTries p + Z.of_nat k <= maxHashTries →
  (∀ i, (i < k)%nat → ∃ y, nth_owner g (heap w) (key p) (n + i) y ∧
    rejects (heap w) (tried (hp_RRPicker p)) (clock w) y) →
  nth_owner g (heap w) (key p) (n + k) x →
  x ∉ tried (hp_RRPicker p) → (∀ i, serves (heap w) x (clock w i)) →
  ∃ p' w', Pick p w = Ret (Some x, p', w').
Proof.
  intros g Hok Hlen Hkey HT Hlt Hp Hn H0 Ht Hrej Hx Hnx Hs. unfold Pick.
  rewrite (bind_Ret self _ _ _ _ _ _ eq_refl). fold g.
  rewrite (proj2 (String.eqb_neq _ _) Hkey), (proj2 (Nat.ltb_ge _ _) Hlen). cbn [orb].
  assert (0 < TotalWeight g < 2 ^ 32).
  { pose proof (sum_weights_pos _ _ _ Hok (owns_in _ _ _ _ Hx)). lia. }
  destruct (hash_loop_found g (heap w) Hok HT ltac:(done) (clock w (ticks w)) k n p (tick w)
    (rounds_left maxHashTries (hashTries p)) x) as (p' & w' & E); try done.
  { unfold rounds_left. lia. }
  exists p', w'. unfold or_round_robin.
  rewrite (bind_Ret (hash_loop g) _ p w (Some x) p' w'); [done|]. unfold hash_loop.
  by rewrite (bind_Ret Now _ _ _ _ _ _ eq_refl), (bind_Ret self _ _ _ _ _ _ eq_refl).
Qed.

(** The second peer is tried already; it owns the first three candidates of the
    key, the first peer the fourth. *)
Definition demo_hash : hashPicker :=
  set_hp_rr (set_tried {[1%nat]} (RoundRobin.NewPicker demo_rr.1))
    (NewPickerForKey (MkHash demo_rr.1) "k1").

Lemma hash_failover_witness :
  ∃ p' w', Pick demo_hash demo_world = Ret (Some 0%nat, p', w').
Proof.
  apply (hash_failover demo_hash 0 3 0 demo_world).
  - apply demo_wf.
  - vm_compute. lia.
  - discriminate.
  - reflexivity.
  - reflexivity.
  - split; reflexivity.
  - reflexivity.
  - vm_compute. congruence.
  - vm_compute. congruence.
  - intros i Hi. exists 1%nat. split; [|left; vm_compute; reflexivity].
    exists [0%nat], []. split; [reflexivity|].
    destruct i as [|[|[|i]]]; [..|lia]; vm_compute; split; congruence.
  - exists [], [1%nat]. split; [reflexivity|]. vm_compute; split; congruence.
  - vm_compute. congruence.
  - intros i. repeat split.
Defined.

(** C40: the modulus [uint32(group.TotalWeight)] is zero for a total weight that
    is a multiple of 2^32; a keyed pick of the primary group, and an address
    pick of the current one, then panic, with the mutex of the group held. *)
Theorem hash_total_weight_panic (p : hashPicker) (q : ipHashPicker) (w : World) :
  let g := primary (hp_RRPicker p) in
  let g' := current_group (ip_RRPicker q) in
  key p ≠ ""%string → hashTries p <= maxHashTries → (2 ≤ length (Peers g))%nat →
  TotalWeight g mod 2 ^ 32 = 0 →
  is_Some (hash_bytes (clientIP q)) → tries q <= maxIPHashTries →
  (2 ≤ length (Peers g'))%nat → TotalWeight g' mod 2 ^ 32 = 0 →
  Pick p w = Panic DivideByZero ∧ IPHash.Pick q w = Panic DivideByZero.
Proof.
  intros g g' Hk Ht Hl HT [bytes Hb] Ht' Hl' HT'. split.
  - unfold Pick. rewrite (bind_Ret self _ _ _ _ _ _ eq_refl). fold g.
    rewrite (proj2 (String.eqb_neq _ _) Hk), (proj2 (Nat.ltb_ge _ _) Hl). cbn [orb].
    unfold or_round_robin, hash_loop, rounds_left, maxHashTries in *.
    destruct (Z.to_nat (20 + 1 - hashTries p)) as [|fuel] eqn:Ef; [lia|].
    unfold mbind, M_bind. cbn. rewrite Ef. cbn [for_loop]. unfold mbind, M_bind. cbn.
    rewrite (proj2 (Z.leb_le _ _) Ht). unfold hash_round, mod_total, wrap_u32.
    unfold mbind, M_bind. cbn. by rewrite HT.
  - unfold IPHash.Pick. rewrite (bind_Ret self _ _ _ _ _ _ eq_refl). fold g'.
    rewrite (proj2 (Nat.ltb_ge _ _) Hl'), Hb.
    unfold or_round_robin, ip_loop, rounds_left, maxIPHashTries in *.
    destruct (Z.to_nat (20 + 1 - tries q)) as [|fuel] eqn:Ef; [lia|].
    unfold mbind, M_bind. cbn. rewrite Ef. cbn [for_loop]. unfold zoom, mbind, M_bind. cbn.
    rewrite (proj2 (Z.leb_le _ _) Ht'). unfold ip_round, mod_total, wrap_u32.
    unfold mbind, M_bind. cbn. by rewrite HT'.
Qed.

(** Two peers of weight 2^31, which an int holds and [uint32] does not. *)
Definition heavy_heap : Heap :=
  <[1%nat := demo_peer "b" (2 ^ 31)]> {[0%nat := demo_peer "a" (2 ^ 31)]}.
Definition heavy_rr : RoundRobin * Heap := NewRoundRobin [Some 0%nat; Some 1%nat] heavy_heap.

Lemma hash_total_weight_panic_witness :
  Pick (NewPickerForKey (MkHash heavy_rr.1) "a") (set_heap heavy_rr.2 demo_world) =
    Panic DivideByZero ∧
  IPHash.Pick (NewPickerForIP (MkIPHash heavy_rr.1) [10; 1; 2; 3])
    (set_heap heavy_rr.2 demo_world) = Panic DivideByZero.
Proof.
  apply (hash_total_weight_panic (NewPickerForKey (MkHash heavy_rr.1) "a")
    (NewPickerForIP (MkIPHash heavy_rr.1) [10; 1; 2; 3]) (set_heap heavy_rr.2 demo_world)).
  - discriminate.
  - vm_compute. congruence.
  - vm_compute. lia.
  - reflexivity.
  - vm_compute. eauto.
  - vm_compute. congruence.
  - vm_compute. lia.
  - reflexivity.
Defined.
