(* ===== verification/CHash.v ===== *)
(** * Consistent hashing (chash.go)

    The ketama ring over the primary peers: its construction, the position of a
    key, and the picker that walks it forward from there. *)

From Stdlib Require Import Ascii Sorted.
From S2P Require Import Prelude GoLib Peer RoundRobin Picker Candidates IPHash Hash.
#[local] Open Scope Z_scope.
#[local] Open Scope go_scope.

(** ** Definitions *)

Definition consistentReplicas : Z := 160.

Record chashPoint := MkPoint { pt_hash : Z; pt_peer : PeerId }.

(** [splitKetamaHostPort]: the right-to-left scan, from the last [j] bytes. *)
Fixpoint scan_port (addr : string) (j : nat) : string * string :=
  match j with
  | O => (addr, "")
  | S j =>
      match String.get j addr with
      | None => (addr, "")
      | Some c =>
          if (c =? ":")%char then (str_to j addr, str_from (S j) addr)
          else if (Ascii.nat_of_ascii c <? 48)%nat || (57 <? Ascii.nat_of_ascii c)%nat
          then (addr, "")
          else scan_port addr j
      end
  end%string.

Definition strip_url (addr : string) : string :=
  match strings_Index addr "://" with
  | Some i =>
      let rest := str_from (i + 3) addr in
      match strings_Index rest "/" with
      | Some slash => str_to slash rest
      | None => rest
      end
  | None => addr
  end.

Definition splitKetamaHostPort (addr : string) : string * string :=
  let addr := strip_url addr in
  scan_port addr (String.length addr).

(** The points of one peer: [buf] is the seed and the previous hash. *)
Fixpoint peer_points (n : nat) (seedLen : nat) (buf : list Z) (p : PeerId) : list chashPoint :=
  match n with
  | O => []
  | S n =>
      let h := ChecksumIEEE buf in
      MkPoint h p :: peer_points n seedLen (PutUint32 seedLen h buf) p
  end.

Definition ring_seed (addr : string) : list Z :=
  let '(host, port) := splitKetamaHostPort addr in
  bytes_of_string host ++ [0] ++ bytes_of_string port.

Definition skip_peer (h : Heap) (p : option PeerId) : bool :=
  match p with None => true | Some p => Weight (h !!! p) <=? 0 end.

Fixpoint total_points (h : Heap) (peers : list (option PeerId)) (total : Z) : Z :=
  match peers with
  | [] => total
  | Some p :: rest =>
      if skip_peer h (Some p) then total_points h rest total
      else total_points h rest (total +! Weight (h !!! p) *! consistentReplicas)
  | None :: rest => total_points h rest total
  end.

(** The points of every peer in the order they are appended. *)
Fixpoint all_points (h : Heap) (peers : list (option PeerId)) : list chashPoint :=
  match peers with
  | [] => []
  | Some p :: rest =>
      if skip_peer h (Some p) then all_points h rest
      else
        let seed := ring_seed (Addr (h !!! p)) in
        peer_points (Z.to_nat (Weight (h !!! p) *! consistentReplicas)) (length seed)
          (seed ++ [0; 0; 0; 0]) p ++ all_points h rest
  | None :: rest => all_points h rest
  end.

(** [if pts[i].hash != out[len(out)-1].hash { out = append(out, pts[i]) }] *)
Fixpoint dedupe_from (last : Z) (pts : list chashPoint) : list chashPoint :=
  match pts with
  | [] => []
  | pt :: rest =>
      if pt_hash pt =? last then dedupe_from last rest
      else pt :: dedupe_from (pt_hash pt) rest
  end.

Definition dedupe (pts : list chashPoint) : list chashPoint :=
  match pts with
  | [] => []
  | pt :: rest => pt :: dedupe_from (pt_hash pt) rest
  end.

Definition ring_of (pts : list chashPoint) : list chashPoint :=
  dedupe (SliceStable pt_hash pts).

(** [make] panics for a capacity that is negative or beyond the address space
    (16 bytes a point, 48 bits of addresses on a 64-bit platform). *)
Definition make_cap_ok (cap : Z) : bool := (0 <=? cap) && (cap * 16 <=? 2 ^ 48).

Definition buildChashRing (peers : list (option PeerId)) (h : Heap)
    : outcome (list chashPoint) :=
  if make_cap_ok (total_points h peers 0) then Ret (ring_of (all_points h peers))
  else Panic MakeSliceCap.

Definition findChashStart (points : list chashPoint) (keyHash : Z) : nat :=
  let idx := Search (length points)
    (λ i, match points !! i with Some pt => keyHash <=? pt_hash pt | None => false end) in
  if (idx =? length points)%nat then 0%nat else idx.

Record HashConsistent := MkHashConsistent {
  hc_rr : RoundRobin;
  points : list chashPoint;
}.

Definition NewHashConsistent (peers : list (option PeerId)) (h : Heap)
    : outcome (HashConsistent * Heap) :=
  let '(rr, h) := NewRoundRobin peers h in
  match buildChashRing (Some <$> Peers (rr_primary rr)) h with
  | Ret pts => Ret (MkHashConsistent rr pts, h)
  | Panic why => Panic why
  end.

Record chashPicker := MkChashPicker {
  ch_RRPicker : RRPicker;
  balancer : HashConsistent;
  ch_key : string;
  started : bool;
  cursor : Z;
  ch_tries : Z;
}.

Definition set_ch_rr (rr : RRPicker) (p : chashPicker) : chashPicker :=
  MkChashPicker rr (balancer p) (ch_key p) (started p) (cursor p) (ch_tries p).
Definition start_at (c : Z) (p : chashPicker) : chashPicker :=
  MkChashPicker (ch_RRPicker p) (balancer p) (ch_key p) true c (ch_tries p).
Definition incr_ch_tries (p : chashPicker) : chashPicker :=
  MkChashPicker (ch_RRPicker p) (balancer p) (ch_key p) (started p) (cursor p)
    (ch_tries p +! 1).

Definition NewPickerForKey (h : HashConsistent) (key : string) : chashPicker :=
  MkChashPicker (NewRRPicker (rr_primary (hc_rr h)) (rr_backup (hc_rr h))) h key false 0 0.
Definition NewPicker (h : HashConsistent) : chashPicker := NewPickerForKey h "".

(** [peer.Addr == server && !peer.Down && !p.Tried(peer) && peerAvailable(peer)] *)
Definition chash_eligible (server : string) (peer : PeerId) : M chashPicker bool :=
  pr ← load peer;
  if negb (Addr pr =? server)%string then mret false
  else candidate_ok ch_RRPicker peer.

(** [points[(p.cursor+p.tries)%len(points)].peer.Addr] *)
Definition point_server (pts : list chashPoint) : M chashPicker string :=
  p ← self;
  let i := Z.rem (cursor p +! ch_tries p) (Z.of_nat (length pts)) in
  if i <? 0 then throw IndexOutOfRange else
  pt ← index pts (Z.to_nat i);
  pr ← load (pt_peer pt);
  mret (Addr pr).

Definition chash_round (pts : list chashPoint) (group : PeerGroup) (now : Time)
    : M chashPicker round :=
  server ← point_server pts;
  best ← smoothWeightedPeer (Peers group) (chash_eligible server);
  match best with
  | Some b =>
      zoom ch_RRPicker set_ch_rr (commitPeer b now);;
      mret (Return b)
  | None =>
      update incr_ch_tries;;
      mret Continue
  end.

Definition chash_loop (pts : list chashPoint) (group : PeerGroup)
    : M chashPicker (option PeerId) :=
  now ← Now;
  p ← self;
  for_loop (rounds_left maxHashTries (ch_tries p))
    (λ p, ch_tries p <=? maxHashTries) (chash_round pts group now).

Definition start_walk (pts : list chashPoint) (p : chashPicker) : chashPicker :=
  if negb (started p)
  then start_at (Z.of_nat (findChashStart pts
         (ChecksumIEEE (bytes_of_string (ch_key p))))) p
  else p.

Definition Pick : M chashPicker (option PeerId) :=
  p ← self;
  let pts := points (balancer p) in
  let group := primary (ch_RRPicker p) in
  if single group || (ch_key p =? "")%string || (length pts =? 0)%nat
  then zoom ch_RRPicker set_ch_rr RoundRobin.Pick
  else
    update (start_walk pts);;
    or_round_robin ch_RRPicker set_ch_rr (chash_loop pts group).

Definition Done (peer : option PeerId) (failed : bool) : M chashPicker unit :=
  zoom ch_RRPicker set_ch_rr (RoundRobin.Done peer failed).
Definition doneNeutral (peer : option PeerId) : M chashPicker unit :=
  zoom ch_RRPicker set_ch_rr (RoundRobin.doneNeutral peer).

#[export] Instance chash_picker : Picker chashPicker := {|
  rrp := ch_RRPicker;
  pick := Pick;
  release := Done;
  release_neutral := doneNeutral;
|}.

(** The walk stays on the ring. *)
Definition on_ring (p : chashPicker) : Prop :=
  Z.of_nat (length (points (balancer p))) <= 2 ^ 62 ∧
  (started p = true → 0 <= cursor p < Z.of_nat (length (points (balancer p)))) ∧
  0 <= ch_tries p <= maxHashTries + 1.

(** ** The ring *)

(** The first point generated for a hash value. *)
Definition first_at (pts : list chashPoint) (v : Z) : option chashPoint :=
  head (filter (λ pt, pt_hash pt = v) pts).

Definition pt_lt (a b : chashPoint) : Prop := pt_hash a < pt_hash b.

Lemma dedupe_from_spec last pts :
  StronglySorted (key_le pt_hash) pts → Forall (λ pt, last <= pt_hash pt) pts →
  StronglySorted pt_lt (dedupe_from last pts) ∧
  Forall (λ pt, last < pt_hash pt) (dedupe_from last pts) ∧
  ∀ v, last < v → first_at (dedupe_from last pts) v = first_at pts v.
Proof.
  revert last. induction pts as [|pt pts IH]; intros last Hs Hf; [by repeat constructor|].
  inversion Hs as [|?? Hs' Hle]; inversion Hf as [|?? H1 H2]; subst. cbn [dedupe_from].
  destruct (Z.eqb_spec (pt_hash pt) last) as [E|E].
  - destruct (IH last Hs' H2) as (? & ? & Hfirst). split_and!; [done..|].
    intros v Hv. rewrite Hfirst by done. unfold first_at. rewrite filter_cons_False by lia. done.
  - destruct (IH (pt_hash pt) Hs' Hle) as (Hs1 & Hf1 & Hfirst). split_and!.
    + by constructor.
    + constructor; [lia|]. eapply Forall_impl; [exact Hf1|]. cbn. lia.
    + intros v Hv. unfold first_at in *. rewrite !filter_cons. case_decide as Ev; [done|].
      destruct (decide (pt_hash pt < v)); [by apply Hfirst|].
      rewrite !filter_none; [done|intros q Hq E'..].
      * rewrite Forall_forall in Hle. specialize (Hle q Hq). unfold key_le in Hle. lia.
      * rewrite Forall_forall in Hf1. specialize (Hf1 q Hq). cbn in Hf1. lia.
Qed.

Lemma ring_of_sorted pts : StronglySorted pt_lt (ring_of pts).
Proof.
  unfold ring_of, dedupe. pose proof (SliceStable_sorted pt_hash pts) as Hs.
  destruct (SliceStable pt_hash pts) as [|pt rest]; [constructor|].
  inversion Hs as [|?? Hs' Hf]; subst.
  destruct (dedupe_from_spec (pt_hash pt) rest Hs' Hf) as (? & ? & _). by constructor.
Qed.

Lemma ring_of_first pts v : first_at (ring_of pts) v = first_at pts v.
Proof.
  unfold first_at at 2. rewrite <-(SliceStable_stable pt_hash v pts).
  unfold ring_of, dedupe. pose proof (SliceStable_sorted pt_hash pts) as Hs.
  destruct (SliceStable pt_hash pts) as [|pt rest]; [done|].
  inversion Hs as [|?? Hs' Hf]; subst.
  destruct (dedupe_from_spec (pt_hash pt) rest Hs' Hf) as (_ & Hlt & Hfirst).
  unfold first_at in *. rewrite !filter_cons. case_decide as Ev; [done|].
  destruct (decide (pt_hash pt < v)); [by apply Hfirst|].
  rewrite !filter_none; [done|intros q Hq E'..].
  - rewrite Forall_forall in Hf. specialize (Hf q Hq). unfold key_le in Hf. lia.
  - rewrite Forall_forall in Hlt. specialize (Hlt q Hq). cbn in Hlt. lia.
Qed.

Lemma elem_of_first pts pt : StronglySorted pt_lt pts → pt ∈ pts ↔ first_at pts (pt_hash pt) = Some pt.
Proof.
  unfold first_at. induction 1 as [|q pts Hs IH Hf].
  - split; [by intros ?%not_elem_of_nil|done].
  - rewrite filter_cons, elem_of_cons. rewrite Forall_forall in Hf. case_decide as E; cbn [head].
    + split; [|by intros [= ->]; left]. intros [->|Hin]; [done|].
      apply Hf in Hin. unfold pt_lt in Hin. lia.
    + rewrite <-IH. split; [intros [->|]; done|by right].
Qed.

Lemma elem_of_ring pts pt : pt ∈ ring_of pts ↔ first_at pts (pt_hash pt) = Some pt.
Proof. rewrite elem_of_first by apply ring_of_sorted. by rewrite ring_of_first. Qed.

Lemma ring_of_hashes pts v : v ∈ pt_hash <$> ring_of pts ↔ v ∈ pt_hash <$> pts.
Proof.
  rewrite !list_elem_of_fmap. split.
  - intros (pt & -> & Hin). apply elem_of_ring in Hin. exists pt. split; [done|].
    unfold first_at in Hin. apply head_Some_elem_of in Hin.
    by apply list_elem_of_filter in Hin as [_ Hin].
  - intros (pt & -> & Hin). destruct (first_at pts (pt_hash pt)) as [q|] eqn:E.
    + assert (pt_hash q = pt_hash pt) as Eq.
      { unfold first_at in E. apply head_Some_elem_of in E.
        by apply list_elem_of_filter in E as [? _]. }
      exists q. split; [done|]. apply elem_of_ring. by rewrite Eq.
    + unfold first_at in E. apply head_None in E.
      exfalso. eapply (not_elem_of_nil pt). rewrite <-E. by apply list_elem_of_filter.
Qed.

(** ** The point of a key

    [successor pts k pt]: the first point at or after [k], or the smallest one
    when [k] is past them all. *)
Definition successor (pts : list chashPoint) (k : Z) (pt : chashPoint) : Prop :=
  pt ∈ pts ∧
  ((k <= pt_hash pt ∧ ∀ q, q ∈ pts → k <= pt_hash q → pt_hash pt <= pt_hash q) ∨
   ((∀ q, q ∈ pts → pt_hash q < k) ∧ ∀ q, q ∈ pts → pt_hash pt <= pt_hash q)).

Definition ring_owner (pts : list chashPoint) (k : Z) : option PeerId :=
  pt_peer <$> pts !! findChashStart pts k.

Lemma sorted_lookup pts i j a b :
  StronglySorted pt_lt pts → pts !! i = Some a → pts !! j = Some b → (i ≤ j)%nat →
  pt_hash a <= pt_hash b.
Proof.
  intros Hs. revert i j. induction Hs as [|p pts Hs IH Hf]; intros i j; [done|].
  rewrite Forall_forall in Hf. destruct i as [|i], j as [|j]; cbn; intros Ha Hb Hij.
  - by simplify_eq.
  - injection Ha as ->. apply list_elem_of_lookup_2 in Hb. specialize (Hf b Hb).
    unfold pt_lt in Hf. lia.
  - lia.
  - apply (IH i j); auto with lia.
Qed.

Lemma findChashStart_bound pts k :
  pts ≠ [] → (findChashStart pts k < length pts)%nat.
Proof.
  intros Hne. unfold findChashStart.
  assert (0 < length pts)%nat by (destruct pts; [done|cbn; lia]).
  set (f := λ i, _). pose proof (Search_le (length pts) f).
  destruct (Nat.eqb_spec (Search (length pts) f) (length pts)); lia.
Qed.

Lemma findChashStart_successor pts k :
  StronglySorted pt_lt pts → pts ≠ [] →
  ∃ pt, pts !! findChashStart pts k = Some pt ∧ successor pts k pt.
Proof.
  intros Hs Hne. pose proof (findChashStart_bound pts k Hne) as Hb.
  destruct (lookup_lt_is_Some_2 _ _ Hb) as [pt Hpt]. exists pt. split; [done|].
  split; [by eapply list_elem_of_lookup_2|]. revert Hpt. unfold findChashStart.
  set (f := λ i, match pts !! i with Some pt => k <=? pt_hash pt | None => false end).
  destruct (Search_spec (length pts) f) as (Hle & Hlo & Hhi).
  { intros a b [??]. unfold f.
    destruct (lookup_lt_is_Some_2 pts a ltac:(lia)) as [pa Ha].
    destruct (lookup_lt_is_Some_2 pts b ltac:(lia)) as [pb Hpb].
    rewrite Ha, Hpb. intros ?%Z.leb_le. apply Z.leb_le.
    pose proof (sorted_lookup pts a b pa pb Hs Ha Hpb ltac:(lia)). lia. }
  set (r := Search (length pts) f) in *. clearbody r.
  destruct (Nat.eqb_spec r (length pts)) as [E|E]; intros Hpt.
  - right. split.
    + intros q (i & Hi)%list_elem_of_lookup_1. pose proof (lookup_lt_Some _ _ _ Hi).
      specialize (Hlo i ltac:(lia)). unfold f in Hlo. rewrite Hi in Hlo. by apply Z.leb_gt.
    + intros q (i & Hi)%list_elem_of_lookup_1. apply (sorted_lookup pts 0 i); auto with lia.
  - left. pose proof (Hhi r ltac:(lia)) as Hr. unfold f in Hr. rewrite Hpt in Hr.
    apply Z.leb_le in Hr. split; [done|].
    intros q (i & Hi)%list_elem_of_lookup_1 Hq.
    apply (sorted_lookup pts r i); try done.
    destruct (decide (i < r)%nat) as [Hir|]; [|lia].
    specialize (Hlo i Hir). unfold f in Hlo. rewrite Hi in Hlo.
    apply Z.leb_gt in Hlo. lia.
Qed.

Lemma successor_unique pts k a b :
  StronglySorted pt_lt pts → successor pts k a → successor pts k b → a = b.
Proof.
  intros Hs [Ha Ha'] [Hb Hb'].
  assert (pt_hash a = pt_hash b) as E.
  { destruct Ha' as [[H1 H2]|[H1 H2]], Hb' as [[H3 H4]|[H3 H4]].
    - pose proof (H2 b Hb H3). pose proof (H4 a Ha H1). lia.
    - specialize (H3 a Ha). lia.
    - specialize (H1 b Hb). lia.
    - pose proof (H2 b Hb). pose proof (H4 a Ha). lia. }
  apply (elem_of_first _ _ Hs) in Ha, Hb. rewrite E in Ha. congruence.
Qed.

Lemma ring_owner_successor pts k y :
  StronglySorted pt_lt pts →
  ring_owner pts k = Some y ↔ ∃ pt, successor pts k pt ∧ pt_peer pt = y.
Proof.
  intros Hs. unfold ring_owner. destruct (decide (pts = [])) as [->|Hne].
  - split; [done|]. by intros (pt & [Hin%not_elem_of_nil _] & _).
  - destruct (findChashStart_successor pts k Hs Hne) as (pt & -> & Hsucc). cbn. split.
    + intros [= <-]. eauto.
    + intros (q & Hq & <-). by rewrite (successor_unique pts k pt q).
Qed.

(** ** Removing a peer *)

Definition without (x : PeerId) (peers : list (option PeerId)) : list (option PeerId) :=
  filter (λ p, p ≠ Some x) peers.

Lemma peer_points_peer n seedLen buf p pt : pt ∈ peer_points n seedLen buf p → pt_peer pt = p.
Proof.
  revert buf. induction n as [|n IH]; intros buf; cbn; [by intros ?%not_elem_of_nil|].
  intros [->|H]%elem_of_cons; [done|by eapply IH].
Qed.

Lemma all_points_without h x peers :
  all_points h (without x peers) = filter (λ pt, pt_peer pt ≠ x) (all_points h peers).
Proof.
  unfold without. induction peers as [|[p|] peers IH]; [done| |].
  - rewrite filter_cons. cbn [all_points]. destruct (decide (p = x)) as [->|Hp].
    + rewrite decide_False by (intros H; by apply H). rewrite IH. clear IH.
      destruct (skip_peer h (Some x)); [done|]. rewrite filter_app, (filter_none _ (peer_points _ _ _ _)); [done|].
      intros pt Hpt%peer_points_peer H. by apply H.
    + rewrite decide_True by congruence. cbn [all_points].
      destruct (skip_peer h (Some p)); [done|]. rewrite filter_app, IH. f_equal.
      symmetry. apply filter_true. intros pt Hpt%peer_points_peer. congruence.
  - rewrite filter_cons. cbn [all_points]. by rewrite decide_True.
Qed.

Lemma first_at_without x pts v pt :
  first_at pts v = Some pt → pt_peer pt ≠ x →
  first_at (filter (λ pt, pt_peer pt ≠ x) pts) v = Some pt.
Proof.
  unfold first_at. induction pts as [|q pts IH]; [done|].
  rewrite !filter_cons. destruct (decide (pt_hash q = v)) as [E|E]; cbn [head].
  - intros [= ->] Hx. rewrite decide_True by done. by rewrite filter_cons_True.
  - intros Hf Hx. case_decide; [rewrite filter_cons_False by done|]; auto.
Qed.

Lemma successor_without x pts k pt :
  successor (ring_of pts) k pt → pt_peer pt ≠ x →
  successor (ring_of (filter (λ pt, pt_peer pt ≠ x) pts)) k pt.
Proof.
  intros [Hin Hs] Hx.
  assert (∀ q, q ∈ ring_of (filter (λ pt, pt_peer pt ≠ x) pts) →
    ∃ q', q' ∈ ring_of pts ∧ pt_hash q' = pt_hash q) as Hsub.
  { intros q Hq. assert (pt_hash q ∈ pt_hash <$> ring_of pts) as Hh.
    { apply ring_of_hashes.
      assert (pt_hash q ∈ pt_hash <$> filter (λ pt, pt_peer pt ≠ x) pts) as Hf.
      { apply ring_of_hashes. apply list_elem_of_fmap. eauto. }
      apply list_elem_of_fmap in Hf as (r & -> & Hr%list_elem_of_filter).
      apply list_elem_of_fmap. exists r. naive_solver. }
    apply list_elem_of_fmap in Hh as (q' & ? & ?). eauto. }
  split.
  - apply elem_of_ring. apply first_at_without; [by apply elem_of_ring|done].
  - destruct Hs as [[H1 H2]|[H1 H2]]; [left|right]; (split; [try done|]).
    + intros q Hq Hk. destruct (Hsub q Hq) as (q' & Hq' & E). rewrite <-E in *. auto.
    + intros q Hq. destruct (Hsub q Hq) as (q' & Hq' & E). rewrite <-E. auto.
    + intros q Hq. destruct (Hsub q Hq) as (q' & Hq' & E). rewrite <-E. auto.
Qed.

(** ** The walk *)

(** The index of the point an attempt looks at. *)
Definition point_index (p : chashPicker) : nat :=
  Z.to_nat (Z.rem (cursor p + ch_tries p) (Z.of_nat (length (points (balancer p))))).

Lemma point_server_eq p w :
  on_ring p → started p = true → ch_tries p <= maxHashTries →
  ∃ pt, points (balancer p) !! point_index p = Some pt ∧
    point_server (points (balancer p)) p w = Ret (Addr (heap w !!! pt_peer pt), p, w).
Proof.
  intros (Hl & Hc & Ht) Hst Htr. specialize (Hc Hst). unfold maxHashTries in *.
  set (n := Z.of_nat (length (points (balancer p)))) in *.
  assert (0 <= Z.rem (cursor p + ch_tries p) n < n) as Hr by (apply Z.rem_bound_pos; lia).
  destruct (lookup_lt_is_Some_2 (points (balancer p)) (point_index p)) as [pt Hpt];
    [unfold point_index; fold n; lia|].
  exists pt. split; [done|]. unfold point_server.
  rewrite (bind_Ret self _ _ _ _ _ _ eq_refl). fold n. unfold int_add.
  rewrite wrap_int_id by (unfold is_int, min_int, max_int; lia).
  rewrite (proj2 (Z.ltb_ge _ _)) by lia.
  rewrite (bind_Ret (index _ _) _ p w pt p w); [done|]. unfold index.
  unfold point_index in Hpt. fold n in Hpt. by rewrite Hpt.
Qed.

Lemma chash_eligible_spec server w0 w p x :
  wext w0 w → htuned (heap w0) (heap w) →
  wp (chash_eligible server x) (λ b p' w', p' = p ∧ heap w' = heap w ∧ wext w w' ∧
    if b then Addr (heap w0 !!! x) = server ∧ x ∉ tried (ch_RRPicker p) ∧
      choosable (heap w0) x (clock w0) (ticks w0) (ticks w')
    else Addr (heap w0 !!! x) ≠ server ∨ x ∈ tried (ch_RRPicker p) ∨
      unchoosable (heap w0) x (clock w0) (ticks w0) (ticks w')) p w.
Proof.
  intros Hw Hh. unfold chash_eligible. wp_simpl. rewrite (tuned_Addr _ _ (Hh x)).
  destruct (String.eqb_spec (Addr (heap w0 !!! x)) server) as [E|E]; cbn [negb];
    [|wp_simpl; split_and!; by auto].
  eapply wp_mono; [apply candidate_ok_spec|]. intros b p' w' (-> & Hh' & Hw' & Hb).
  split_and!; try done. pose proof Hw as (Hc & Ht & _). rewrite Hc in Hb. destruct b.
  - destruct Hb as [? Hb]. split_and!; try done. eapply choosable_tuned; [exact Hh|].
    by eapply choosable_mono.
  - right. destruct Hb as [|Hb]; [by left|right]. eapply unchoosable_tuned; [exact Hh|].
    by eapply unchoosable_mono.
Qed.

Section walk.
Context (group : PeerGroup) (now : Time).

(** One attempt: the smooth weighted choice among the available peers of the
    point's server. *)
Lemma chash_round_spec p w :
  heap_ok (heap w) (Peers group) → on_ring p → started p = true →
  ch_tries p <= maxHashTries →
  ∃ pt, points (balancer p) !! point_index p = Some pt ∧
  wp (chash_round (points (balancer p)) group now) (λ r p' w',
    round_post ch_RRPicker (Peers group) p w r p' w' ∧
    balancer p' = balancer p ∧ cursor p' = cursor p ∧ started p' = true ∧
    let server := Addr (heap w !!! pt_peer pt) in
    match r with
    | Return x => Addr (heap w !!! x) = server ∧ ch_tries p' = ch_tries p
    | Break => False
    | Continue => ch_tries p' = ch_tries p +! 1 ∧
        ∀ x, x ∈ Peers group → Addr (heap w !!! x) ≠ server ∨ x ∈ tried (ch_RRPicker p) ∨
          unchoosable (heap w) x (clock w) (ticks w) (ticks w')
    end) p w.
Proof.
  intros Hok Hring Hst Ht. destruct (point_server_eq p w Hring Hst Ht) as (pt & Hpt & E).
  exists pt. split; [done|]. unfold chash_round. wp_simpl.
  apply (wp_eq _ _ _ _ _ _ _ E). wp_simpl. set (server := Addr _).
  eapply wp_mono.
  { eapply (smoothWeightedPeer_sound p (heap w) w (Peers group) (chash_eligible server)
      (λ x t, Addr (heap w !!! x) = server ∧ x ∉ tried (ch_RRPicker p) ∧
        choosable (heap w) x (clock w) (ticks w) t)
      (λ x t, Addr (heap w !!! x) ≠ server ∨ x ∈ tried (ch_RRPicker p) ∨
        unchoosable (heap w) x (clock w) (ticks w) t)); [| |done| |done|reflexivity].
    - intros x t t' ? (? & ? & ?). split_and!; try done. by apply (choosable_mono _ _ _ (ticks w) t).
    - intros x t t' ? [?|[?|?]]; [by left|right; by left|right; right].
      by apply (unchoosable_mono _ _ _ (ticks w) t).
    - intros x w1 Hx Hw1 Hh1. by apply chash_eligible_spec. }
  intros r p' w' (-> & Hw & Hh & Hr). destruct r as [x|]; wp_simpl.
  - destruct Hr as (Hx & Ha & Hn & Hc).
    eapply wp_mono; [by apply (commit_post (Peers group) x now _ w)|].
    intros r rr w2 (_ & Hcs & He). by wp_simpl.
  - by split_and!.
Qed.

Lemma round_members_ok {Q} (rr : Q → RRPicker) members q w r q' w' :
  round_post rr members q w r q' w' → heap_ok (heap w) members → heap_ok (heap w') members.
Proof.
  intros Hr Hok x Hx. specialize (Hok x Hx). destruct r as [| |y]; cbn in Hr.
  1-2: destruct Hr as (_ & _ & Hh); eapply tuned_ok; [apply Hh|done].
  destruct Hr as [(_ & _ & _ & _ & _ & _ & Hs & _) _]. by eapply hselected_ok.
Qed.

Lemma chash_for_loop_spec pts fuel p w :
  heap_ok (heap w) (Peers group) → on_ring p → started p = true → points (balancer p) = pts →
  wp (for_loop fuel (λ p, ch_tries p <=? maxHashTries) (chash_round pts group now))
    (λ r p' w', loop_post ch_RRPicker (Peers group) p w r p' w' ∧ on_ring p') p w.
Proof.
  intros Hok Hring Hst <-. eapply wp_mono.
  { apply (for_loop_spec ch_RRPicker (Peers group) (λ q w', heap_ok (heap w') (Peers group) ∧
      on_ring q ∧ started q = true ∧ balancer q = balancer p)); [|done].
    intros q w1 Hc%Z.leb_le (Hok1 & Hring1 & Hst1 & Hb1). rewrite <-Hb1.
    destruct (chash_round_spec q w1 Hok1 Hring1 Hst1 Hc) as (pt & _ & Hwp).
    eapply wp_mono; [exact Hwp|]. intros r q' w2 (Hr & Hb & Hcur & Hs & Htr).
    split; [done|]. split; [by eapply round_members_ok|]. split; [|split; congruence].
    destruct Hring1 as (? & Hcb & Ht). unfold on_ring, maxHashTries in *. rewrite Hb, Hcur.
    split; [done|]. split; [auto|]. destruct r as [| |x]; [|done|lia].
    destruct Htr as [-> _]. int_lia. }
  intros r p' w' (? & _ & ? & _). done.
Qed.
End walk.

Lemma start_walk_on_ring p :
  points (balancer p) ≠ [] → on_ring p →
  on_ring (start_walk (points (balancer p)) p) ∧
  started (start_walk (points (balancer p)) p) = true.
Proof.
  intros Hne Hring. unfold start_walk. destruct (started p) eqn:E; cbn [negb]; [done|].
  destruct Hring as (? & _ & ?). split; [|done]. split; [done|]. split; [|done].
  intros _. cbn. pose proof (findChashStart_bound (points (balancer p))
    (ChecksumIEEE (bytes_of_string (ch_key p))) Hne). lia.
Qed.

#[export] Instance chash_laws : PickerLaws chashPicker.
Proof.
  apply (embedded_laws ch_RRPicker set_ch_rr on_ring); [done|done|].
  intros p w [Hwf Hring]. unfold Pick. wp_simpl.
  destruct (single _ || _ || _) eqn:E; [by apply (round_robin_spec _ _ on_ring)|].
  apply orb_false_iff in E as [_ Hne%Nat.eqb_neq]. wp_simpl.
  assert (points (balancer p) ≠ []) as Hne' by (intros Hp; by rewrite Hp in Hne).
  destruct (start_walk_on_ring p Hne' Hring) as [Hring' Hst].
  assert (ch_RRPicker (start_walk (points (balancer p)) p) = ch_RRPicker p) as Hrr
    by (unfold start_walk; by destruct (negb _)).
  rewrite <-Hrr.
  eapply (or_round_robin_spec _ _ on_ring); [done|done|by rewrite Hrr|by left|].
  unfold chash_loop. wp_simpl. eapply wp_mono.
  { apply chash_for_loop_spec; [rewrite Hrr; apply (gw_primary_ok _ _ _ Hwf)|done|done|].
    unfold start_walk. by destruct (negb _). }
  intros r p' w' [Hr ?]. split; [|done].
  revert Hr. apply round_post_trans; [done|apply wext_tick|reflexivity].
Defined.

(** ** The servers along the walk *)

(** The point [i] attempts ahead. *)
Definition walk_index (p : chashPicker) (i : nat) : nat :=
  Z.to_nat (Z.rem (cursor p + (ch_tries p + Z.of_nat i))
    (Z.of_nat (length (points (balancer p))))).

Lemma walk_index_0 p : walk_index p 0 = point_index p.
Proof. unfold walk_index, point_index. by rewrite Z.add_0_r. Qed.

Lemma walk_index_S p p' i :
  balancer p' = balancer p → cursor p' = cursor p → ch_tries p' = ch_tries p + 1 →
  walk_index p' i = walk_index p (S i).
Proof.
  unfold walk_index. intros -> -> ->. f_equal. f_equal. lia.
Qed.

Section servers.
Context (group : PeerGroup) (now : Time) (h : Heap) (c : nat → Time) (t : gset nat).
Hypothesis members_ok : heap_ok h (Peers group).

(** All the peers of a server are rejected; a server that can serve. *)
Definition server_rejects (server : string) : Prop :=
  ∀ x, x ∈ Peers group → Addr (h !!! x) = server → rejects h t c x.
Definition server_serves (server : string) : Prop :=
  ∃ x, x ∈ Peers group ∧ Addr (h !!! x) = server ∧ x ∉ t ∧ ∀ i, serves h x (c i).

Lemma chash_loop_found k : ∀ p w fuel pt,
  htuned h (heap w) → clock w = c → tried (ch_RRPicker p) = t →
  on_ring p → started p = true → ch_tries p + Z.of_nat k <= maxHashTries → (k < fuel)%nat →
  (∀ i q, (i < k)%nat → points (balancer p) !! walk_index p i = Some q →
    server_rejects (Addr (h !!! pt_peer q))) →
  points (balancer p) !! walk_index p k = Some pt →
  server_serves (Addr (h !!! pt_peer pt)) →
  ∃ y p' w', for_loop fuel (λ p, ch_tries p <=? maxHashTries)
      (chash_round (points (balancer p)) group now) p w = Ret (Some y, p', w') ∧
    Addr (h !!! y) = Addr (h !!! pt_peer pt) ∧ cursor p' = cursor p ∧
    ch_tries p' = ch_tries p + Z.of_nat k.
Proof using members_ok.
  induction k as [|k IH]; intros p w fuel pt Hh Hc Ht Hring Hst Htr Hf Hrej Hpt Hserve.
  all: assert (heap_ok (heap w) (Peers group)) as Hok
    by (intros x Hx; eapply tuned_ok; [apply Hh|auto]).
  all: destruct (chash_round_spec group now p w Hok Hring Hst ltac:(lia)) as (q & Hq & Hwp).
  all: apply wp_exists in Hwp as (r & p1 & w1 & E & Hr & Hb & Hcur & Hst1 & Hcase).
  all: cbn zeta in Hcase; rewrite (tuned_Addr _ _ (Hh (pt_peer q))) in Hcase.
  all: destruct r as [| |y]; [|done|].
  - exfalso. rewrite walk_index_0 in Hpt. simplify_eq/=.
    destruct Hcase as [_ Hno], Hserve as (x & Hx & Ha & Hn & Hs).
    destruct (Hno x Hx) as [Ha'|[Hin|Hu]]; [|by rewrite Ht in Hin|].
    + by rewrite (tuned_Addr _ _ (Hh x)) in Ha'.
    + eapply unchoosable_tuned in Hu; [|exact Hh]. rewrite Hc in Hu. by eapply serves_not_unchoosable in Hu.
  - rewrite walk_index_0 in Hpt. simplify_eq/=. exists y, p1, w1.
    destruct Hcase as [Ha Htr1]. split_and!; [|by rewrite <-(tuned_Addr _ _ (Hh y))|done|lia].
    eapply for_loop_return; [apply Z.leb_le; lia|exact E|lia].
  - destruct Hcase as [Htr1 _]. unfold int_add, maxHashTries in *.
    destruct Hr as (Hrr & Hw1 & Hh1). pose proof Hring as (Hl & Hcu & Ht0 & _).
    rewrite wrap_int_id in Htr1 by (unfold is_int, min_int, max_int; lia).
    destruct fuel as [|fuel]; [lia|].
    assert (∀ i, walk_index p1 i = walk_index p (S i)) as Hwi by (intros; by apply walk_index_S).
    destruct (IH p1 w1 fuel pt) as (y & p' & w' & E' & Ha & Hcu' & Htr'); rewrite ?Hb, ?Hwi; try done.
    + by transitivity (heap w).
    + by rewrite (proj1 Hw1).
    + by rewrite Hrr.
    + unfold on_ring, maxHashTries. rewrite Hb, Hcur, Htr1.
      split; [done|]. split; [auto|lia].
    + lia.
    + lia.
    + intros i q' Hi. rewrite Hwi. apply Hrej. lia.
    + exists y, p', w'. split_and!; [|done|congruence|lia].
      erewrite for_loop_continue; [|apply Z.leb_le; lia|exact E]. by rewrite <-Hb.
  - exfalso. assert (server_rejects (Addr (h !!! pt_peer q))) as Hrj.
    { apply (Hrej 0%nat); [lia|]. by rewrite walk_index_0. }
    destruct Hr as [(_ & _ & _ & Hy & Hn & _) Hex]. rewrite Ht in Hn.
    destruct Hcase as [Ha _]. rewrite (tuned_Addr _ _ (Hh y)) in Ha.
    eapply choosable_tuned in Hex; [|exact Hh]. rewrite Hc in Hex.
    by eapply rejects_not_choosable in Hex; [|apply Hrj|].
Qed.
End servers.

(** ** Splitting an address *)

Lemma digit_not_slash a : is_digit a = true → not_char "/" a = true.
Proof.
  unfold is_digit, not_char. intros [H1 H2]%andb_true_iff.
  destruct (Ascii.eqb_spec a "/") as [->|]; [by vm_compute in H1|done].
Qed.

Lemma digit_not_colon a : is_digit a = true → (a =? ":")%char = false.
Proof.
  unfold is_digit. intros [H1 H2]%andb_true_iff.
  destruct (Ascii.eqb_spec a ":") as [->|]; [by vm_compute in H2|done].
Qed.

Lemma no_url_prefix s : str_forall (not_char "/") s = true → strings_Index s "://" = None.
Proof.
  unfold strings_Index. induction s as [|a s IH]; [done|]. cbn [str_forall].
  intros [Ha Hs]%andb_true_iff. cbn [String.index]. rewrite IH by done.
  assert (String.prefix "://" (String a s) = false) as ->; [|done].
  cbn [String.prefix]. destruct (Ascii.ascii_dec ":" a); [|done].
  destruct s as [|b s]; [done|]. cbn [str_forall String.prefix] in *.
  apply andb_true_iff in Hs as [Hb _]. unfold not_char in Hb.
  destruct (Ascii.ascii_dec "/" b) as [<-|]; done.
Qed.

Lemma scan_port_digits host port j :
  str_forall is_digit port = true → (j ≤ String.length port)%nat →
  scan_port (host +:+ String ":" port) (String.length host + S j) = (host, port).
Proof.
  intros Hd. induction j as [|j IH]; intros Hj; rewrite Nat.add_succ_r; cbn [scan_port].
  - rewrite Nat.add_0_r.
    rewrite <-(Nat.add_0_l (String.length host)) at 1.
    rewrite <-String.append_correct2. cbn [String.get]. rewrite Ascii.eqb_refl.
    rewrite str_to_app. f_equal.
    replace (S (String.length host)) with (String.length (host +:+ ":")).
    2:{ rewrite length_append. cbn. lia. }
    assert (host +:+ String ":" port = (host +:+ ":") +:+ port) as ->.
    { clear. induction host as [|a host IH]; [done|]. by rewrite !append_cons, IH. }
    apply str_from_app.
  - replace (String.length host + S j)%nat with (S j + String.length host)%nat by lia.
    rewrite <-String.append_correct2. cbn [String.get].
    destruct (String.get j port) as [a|] eqn:Ea.
    + pose proof (str_forall_get _ _ _ _ Hd Ea) as Ha.
      rewrite digit_not_colon by done.
      unfold is_digit in Ha. apply andb_true_iff in Ha as [H1%Nat.leb_le H2%Nat.leb_le].
      rewrite (proj2 (Nat.ltb_ge _ _) H1), (proj2 (Nat.ltb_ge _ _) H2). cbn [orb].
      replace (S j + String.length host)%nat with (String.length host + S j)%nat by lia.
      apply IH. lia.
    + exfalso. assert (∀ s i, (i < String.length s)%nat → String.get i s ≠ None) as Hget.
      { clear. induction s as [|a s IH]; intros i; cbn; [lia|]. destruct i; [done|].
        intros. apply IH. lia. }
      by apply (Hget port j).
Qed.

(** ** Construction *)

Lemma all_points_ext h h' ps :
  (∀ p, Some p ∈ ps → h !!! p = h' !!! p) → all_points h ps = all_points h' ps.
Proof.
  induction ps as [|[p|] ps IH]; intros Hp; [done| |]; cbn [all_points skip_peer].
  - rewrite (Hp p) by (by left). destruct (_ <=? 0); [|f_equal]; apply IH; intros; apply Hp; by right.
  - apply IH. intros. apply Hp. by right.
Qed.

Lemma group_peers_without h bk x peers :
  Some <$> group_peers h bk (without x peers) = without x (Some <$> group_peers h bk peers).
Proof.
  unfold group_peers, without. induction peers as [|[p|] peers IH]; [done| |].
  - rewrite filter_cons. destruct (decide (p = x)) as [->|Hp].
    + rewrite decide_False by (intros H; by apply H). rewrite IH. cbn [omap list_omap id].
      rewrite (filter_cons _ x). case_decide; [|done].
      rewrite fmap_cons, filter_cons_False; [done|]. intros H'. by apply H'.
    + rewrite decide_True by congruence. cbn [omap list_omap id].
      rewrite !filter_cons. case_decide; [|done].
      rewrite !fmap_cons, filter_cons_True by congruence. f_equal. done.
  - rewrite filter_cons, decide_True by done. done.
Qed.

Lemma NewHashConsistent_ring peers h hc h' :
  NewHashConsistent peers h = Ret (hc, h') →
  points hc = ring_of (all_points h' (Some <$> group_peers h false peers)) ∧
  Peers (rr_primary (hc_rr hc)) = group_peers h false peers ∧
  ∀ q, h' !!! q = if decide (Some q ∈ peers) then init (h !!! q) else h !!! q.
Proof.
  unfold NewHashConsistent, NewRoundRobin, buildChashRing.
  destruct (BuildGroups_facts peers h) as (g & b & h1 & -> & Hg & _ & _ & _ & Hh).
  cbn [rr_primary]. rewrite Hg. destruct (make_cap_ok _); [|done].
  intros [= <- <-]. done.
Qed.

Lemma all_points_init peers x (h h1 h2 : Heap) (ps : list PeerId) :
  (∀ q, h1 !!! q = if decide (Some q ∈ peers) then init (h !!! q) else h !!! q) →
  (∀ q, h2 !!! q = if decide (Some q ∈ without x peers) then init (h !!! q) else h !!! q) →
  all_points h1 (without x (Some <$> ps)) = all_points h2 (without x (Some <$> ps)).
Proof.
  intros H1 H2. apply all_points_ext. intros p Hp. unfold without in Hp.
  apply list_elem_of_filter in Hp as [Hp _]. rewrite H1, H2. apply decide_ext.
  unfold without. rewrite list_elem_of_filter. naive_solver.
Qed.

(** ** Claims *)

(** C30: the ring is sorted by hash without duplicates; its points are, for every
    hash value the peers generate, the first point generated for it (so a CRC
    collision goes to the peer listed first), and looking a key up finds the
    point with the least hash at or after the key's, or the least of all. *)
Theorem ring_spec (peers : list (option PeerId)) (h : Heap) (ring : list chashPoint) :
  buildChashRing peers h = Ret ring →
  StronglySorted pt_lt ring ∧
  (∀ pt, pt ∈ ring ↔ first_at (all_points h peers) (pt_hash pt) = Some pt) ∧
  (∀ v, v ∈ pt_hash <$> ring ↔ v ∈ pt_hash <$> all_points h peers) ∧
  (ring ≠ [] → ∀ k, ∃ pt, ring !! findChashStart ring k = Some pt ∧ successor ring k pt).
Proof.
  unfold buildChashRing. destruct (make_cap_ok _); [|done]. intros [= <-].
  pose proof (ring_of_sorted (all_points h peers)). split_and!; [done| | |].
  - intros pt. apply elem_of_ring.
  - intros v. apply ring_of_hashes.
  - intros Hne k. by apply findChashStart_successor.
Qed.

(** C29: removing a peer from the configuration moves only the keys it owned: a
    key hash that another peer owned is still owned by that peer on the new
    ring, and so adding a peer moves keys only to the new peer. *)
Theorem ring_minimal_disruption (peers : list (option PeerId)) (h h1 h2 : Heap)
    (hc hc' : HashConsistent) (x y : PeerId) (k : Z) :
  NewHashConsistent peers h = Ret (hc, h1) →
  NewHashConsistent (without x peers) h = Ret (hc', h2) →
  ring_owner (points hc) k = Some y → y ≠ x →
  ring_owner (points hc') k = Some y.
Proof.
  intros (E1 & _ & H1)%NewHashConsistent_ring (E2 & _ & H2)%NewHashConsistent_ring Ho Hx.
  rewrite E1 in Ho. rewrite E2.
  apply ring_owner_successor in Ho as (pt & Hs & Hpt); [|apply ring_of_sorted].
  apply ring_owner_successor; [apply ring_of_sorted|]. exists pt. split; [|done].
  rewrite group_peers_without, <-(all_points_init peers x h h1 h2) by done.
  rewrite all_points_without. apply successor_without; [done|congruence].
Qed.

(** C31: a key walks the ring from its point: when all the peers of the servers
    at the next [k] points are down, full, in quarantine or tried, and the
    server at the point after them has an available untried peer, [Pick]
    returns a peer of that server, for every [k] the budget of 20 rejected
    points allows; the walk resumes there at the next call. *)
Theorem chash_failover (p : chashPicker) (k : nat) (pt : chashPoint) (w : World) :
  let g := primary (ch_RRPicker p) in
  let pts := points (balancer p) in
  let p1 := start_walk pts p in
  let t := tried (ch_RRPicker p) in
  heap_ok (heap w) (Peers g) → single g = false → ch_key p ≠ ""%string → pts ≠ [] →
  on_ring p → ch_tries p + Z.of_nat k <= maxHashTries →
  (∀ i q, (i < k)%nat → pts !! walk_index p1 i = Some q →
    server_rejects g (heap w) (clock w) t (Addr (heap w !!! pt_peer q))) →
  pts !! walk_index p1 k = Some pt →
  server_serves g (heap w) (clock w) t (Addr (heap w !!! pt_peer pt)) →
  ∃ y p' w', Pick p w = Ret (Some y, p', w') ∧
    Addr (heap w !!! y) = Addr (heap w !!! pt_peer pt) ∧
    cursor p' = cursor p1 ∧ ch_tries p' = ch_tries p + Z.of_nat k.
Proof.
  intros g pts p1 t Hok Hsing Hkey Hne Hring Hk Hrej Hpt Hserve.
  destruct (start_walk_on_ring p Hne Hring) as [Hring1 Hst1].
  assert (balancer p1 = balancer p ∧ ch_RRPicker p1 = ch_RRPicker p ∧
    ch_tries p1 = ch_tries p) as (Hb & Hrr & Htr)
    by (unfold p1, start_walk; by destruct (negb _)).
  destruct (chash_loop_found g (clock w (ticks w)) (heap w) (clock w) t Hok k p1 (tick w)
    (rounds_left maxHashTries (ch_tries p)) pt) as (y & p' & w' & E & Ha & Hcu & Htr');
    rewrite ?Hb, ?Hrr, ?Htr; try done.
  { unfold rounds_left. lia. }
  exists y, p', w'. rewrite Htr in Htr'. split_and!; [|done..].
  unfold Pick. rewrite (bind_Ret self _ _ _ _ _ _ eq_refl). fold g pts.
  rewrite Hsing, (proj2 (String.eqb_neq _ _) Hkey). cbn [orb].
  rewrite (proj2 (Nat.eqb_neq _ _)) by (by intros ?%length_zero_iff_nil).
  rewrite (bind_Ret (update _) _ _ _ tt p1 w eq_refl). unfold or_round_robin.
  rewrite (bind_Ret (chash_loop pts g) _ p1 w (Some y) p' w'); [done|].
  unfold chash_loop. rewrite (bind_Ret Now _ _ _ _ _ _ eq_refl), (bind_Ret self _ _ _ _ _ _ eq_refl).
  rewrite Hb in E. by rewrite Htr.
Qed.

(** The seed of a peer is its host and port, the same for the bare
    "host:port" and for any URL of it with or without a path. *)
Theorem splitKetamaHostPort_forms (scheme host port path : string) :
  str_forall (not_char "/") host = true → str_forall is_digit port = true →
  str_forall (not_char ":") scheme = true →
  let addr := host +:+ ":" +:+ port in
  splitKetamaHostPort addr = (host, port) ∧
  splitKetamaHostPort (scheme +:+ "://" +:+ addr) = (host, port) ∧
  splitKetamaHostPort (scheme +:+ "://" +:+ addr +:+ "/" +:+ path) = (host, port).
Proof.
  intros Hh Hp Hs addr.
  assert (str_forall (not_char "/") addr = true) as Ha.
  { unfold addr. rewrite !str_forall_app, Hh. cbn [str_forall andb].
    apply (str_forall_impl is_digit); [apply digit_not_slash|done]. }
  assert (scan_port addr (String.length addr) = (host, port)) as Hscan.
  { unfold addr. change (":" +:+ port) with (String ":" port). rewrite length_append.
    cbn [String.length]. by apply scan_port_digits. }
  assert (∀ rest, strings_Index (scheme +:+ String ":" (String "/" (String "/" rest))) "://" =
    Some (String.length scheme)) as Hidx
    by (intros rest; apply strings_Index_app; [done|by destruct rest]).
  assert (∀ rest, str_from (String.length scheme + 3)
    (scheme +:+ String ":" (String "/" (String "/" rest))) = rest) as Hfrom.
  { intros rest. replace (String.length scheme + 3)%nat with (String.length (scheme +:+ "://"))
      by (rewrite length_append; done).
    assert (scheme +:+ String ":" (String "/" (String "/" rest)) = (scheme +:+ "://") +:+ rest) as ->.
    { clear. induction scheme as [|a s IH]; [done|]. rewrite !append_cons. by f_equal. }
    apply str_from_app. }
  unfold splitKetamaHostPort, strip_url. split_and!.
  - by rewrite no_url_prefix.
  - change ("://" +:+ addr) with (String ":" (String "/" (String "/" addr))).
    rewrite Hidx, Hfrom. by rewrite (strings_Index_none "/" "").
  - change ("://" +:+ addr +:+ "/" +:+ path)
      with (String ":" (String "/" (String "/" (addr +:+ String "/" path)))).
    rewrite Hidx, Hfrom, (strings_Index_app "/" ""); [|done|by destruct path].
    by rewrite str_to_app.
Qed.

(** *** Witnesses: two servers "a" and "b" *)

Definition demo_peers : list (option PeerId) := [Some 0%nat; None; Some 1%nat].
Definition light_heap : Heap := <[1%nat := demo_peer "b" 1]> {[0%nat := demo_peer "a" 1]}.

Definition chash_of (r : outcome (HashConsistent * Heap)) : HashConsistent :=
  match r with
  | Ret (c, _) => c
  | Panic _ => MkHashConsistent (MkRoundRobin (MkGroup [] 0 false) None) []
  end.

Lemma ring_spec_witness :
  let ring := ring_of (all_points demo_rr.2 demo_peers) in
  StronglySorted pt_lt ring ∧
  (∀ pt, pt ∈ ring ↔ first_at (all_points demo_rr.2 demo_peers) (pt_hash pt) = Some pt) ∧
  (∀ v, v ∈ pt_hash <$> ring ↔ v ∈ pt_hash <$> all_points demo_rr.2 demo_peers) ∧
  (ring ≠ [] → ∀ k, ∃ pt, ring !! findChashStart ring k = Some pt ∧ successor ring k pt).
Proof.
  intros ring. apply (ring_spec demo_peers demo_rr.2 ring). unfold buildChashRing.
  assert (make_cap_ok (total_points demo_rr.2 demo_peers 0) = true) as E by (vm_compute; reflexivity).
  rewrite E. exact (eq_refl (Ret ring)).
Defined.

Lemma ring_minimal_disruption_witness :
  let hc := chash_of (NewHashConsistent demo_peers light_heap) in
  let hc' := chash_of (NewHashConsistent (without 0 demo_peers) light_heap) in
  ring_owner (points hc) (ChecksumIEEE (bytes_of_string "k1")) = Some 1%nat ∧
  ring_owner (points hc') (ChecksumIEEE (bytes_of_string "k1")) = Some 1%nat.
Proof.
  intros hc hc'.
  assert (ring_owner (points hc) (ChecksumIEEE (bytes_of_string "k1")) = Some 1%nat) as Ho
    by (vm_compute; reflexivity).
  split; [exact Ho|].
  apply (ring_minimal_disruption demo_peers light_heap (NewRoundRobin demo_peers light_heap).2
    (NewRoundRobin (without 0 demo_peers) light_heap).2 hc hc' 0 1 _); [..|exact Ho|discriminate];
    vm_compute; reflexivity.
Defined.

(** The first peer is tried; it owns three of the four points of a small ring,
    and the walk of the key starts at the last one and wraps around. *)
Definition demo_chash : chashPicker :=
  set_ch_rr (set_tried {[0%nat]} (RoundRobin.NewPicker demo_rr.1))
    (NewPickerForKey (MkHashConsistent demo_rr.1
      [MkPoint 0x10000000 0; MkPoint 0x20000000 0; MkPoint 0x30000000 1;
       MkPoint 0xf0000000 0]) "a").

Lemma chash_failover_witness :
  ∃ y p' w', Pick demo_chash demo_world = Ret (Some y, p', w') ∧
    Addr (heap demo_world !!! y) = "b"%string ∧
    cursor p' = cursor (start_walk (points (balancer demo_chash)) demo_chash) ∧
    ch_tries p' = 3.
Proof.
  destruct (points (balancer demo_chash) !!
    walk_index (start_walk (points (balancer demo_chash)) demo_chash) 3) as [pt|] eqn:Hpt;
    [|vm_compute in Hpt; discriminate].
  assert (Addr (heap demo_world !!! pt_peer pt) = "b"%string) as Hb
    by (vm_compute in Hpt; injection Hpt as <-; reflexivity).
  rewrite <-Hb. apply (chash_failover demo_chash 3 pt demo_world).
  - apply demo_wf.
  - reflexivity.
  - discriminate.
  - vm_compute. discriminate.
  - split; [vm_compute; congruence|]. split; [discriminate|vm_compute; split; congruence].
  - vm_compute. congruence.
  - intros i q Hi Hq x Hx Ha. left.
    assert (Addr (heap demo_world !!! pt_peer q) = "a"%string) as Hqa.
    { destruct i as [|[|[|i]]]; [..|lia]; vm_compute in Hq; injection Hq as <-; reflexivity. }
    rewrite Hqa in Ha. change (x ∈ [0%nat; 1%nat]) in Hx.
    apply elem_of_cons in Hx as [-> | ->%list_elem_of_singleton].
    + vm_compute. reflexivity.
    + vm_compute in Ha. discriminate.
  - exact Hpt.
  - rewrite Hb. exists 1%nat. split_and!; [by right; left|reflexivity|vm_compute; congruence|].
    intros i. repeat split.
Defined.

Lemma splitKetamaHostPort_forms_witness :
  let addr := "10.0.0.1" +:+ ":" +:+ "8080" in
  splitKetamaHostPort addr = ("10.0.0.1", "8080") ∧
  splitKetamaHostPort ("http" +:+ "://" +:+ addr) = ("10.0.0.1", "8080") ∧
  splitKetamaHostPort ("http" +:+ "://" +:+ addr +:+ "/" +:+ "api") = ("10.0.0.1", "8080").
Proof. apply splitKetamaHostPort_forms; reflexivity. Defined.
