(* ===== verification/Random.v ===== *)
(** * Random and power-of-two-choices (random.go)

    Weighted random selection by a binary search over cumulative weights, one
    candidate at a time or the less loaded of two. *)

From S2P Require Import Prelude GoLib Peer RoundRobin Picker LeastConn Candidates.
#[local] Open Scope Z_scope.
#[local] Open Scope go_scope.

(** ** Definitions *)

Definition maxRandomTries : Z := 20.

Record weightRange := MkRange { range_peer : PeerId; upper : Z }.

(** [intn k n] is the value the k-th call of the random source returns for the
    bound [n]. *)
Record Random := MkRandom {
  rd_rr : RoundRobin;
  two : bool;
  ranges : list weightRange;
  intn : nat → Z → Z;
}.

Fixpoint ranges_loop (h : Heap) (peers : list PeerId) (cumulative : Z) : list weightRange :=
  match peers with
  | [] => []
  | p :: rest =>
      let cumulative := cumulative +! Weight (h !!! p) in
      MkRange p cumulative :: ranges_loop h rest cumulative
  end.

Definition newRandom (peers : list (option PeerId)) (two : bool) (rand : nat → Z → Z)
    (h : Heap) : Random * Heap :=
  let '(rr, h) := NewRoundRobin peers h in
  (MkRandom rr two (ranges_loop h (Peers (rr_primary rr)) 0) rand, h).

Definition NewRandom peers rand h := newRandom peers false rand h.
Definition NewRandomTwo peers rand h := newRandom peers true rand h.

Record randomPicker := MkRandomPicker {
  rd_RRPicker : RRPicker;
  rd_balancer : Random;
  rd_tries : Z;
}.

Definition set_rd_rr (rr : RRPicker) (p : randomPicker) : randomPicker :=
  MkRandomPicker rr (rd_balancer p) (rd_tries p).
Definition incr_rd_tries (p : randomPicker) : randomPicker :=
  MkRandomPicker (rd_RRPicker p) (rd_balancer p) (rd_tries p +! 1).

Definition NewPicker (r : Random) : randomPicker :=
  MkRandomPicker (NewRRPicker (rr_primary (rd_rr r)) (rr_backup (rd_rr r))) r 0.

(** [p.balancer.intn(n)] *)
Definition draw (n : Z) : M randomPicker Z :=
  λ p w, Ret (intn (rd_balancer p) (draws w) n, p, count_draw w).

(** The binary search [for lo < hi { ... }]; the interval shrinks, so the number
    of ranges is enough fuel. *)
Fixpoint range_search {P} (fuel : nat) (rs : list weightRange) (x : Z) (lo hi : nat)
    : M P nat :=
  match fuel with
  | O => mret lo
  | S fuel =>
      if (lo <? hi)%nat then
        let mid := Nat.div2 (lo + hi) in
        r ← index rs mid;
        if upper r <=? x then range_search fuel rs x (S mid) hi
        else range_search fuel rs x lo mid
      else mret lo
  end.

Definition randomSelect (group : PeerGroup) : M randomPicker (option PeerId) :=
  if TotalWeight group <=? 0 then mret None else
  x ← draw (TotalWeight group);
  p ← self;
  let rs := ranges (rd_balancer p) in
  lo ← range_search (length rs) rs x 0 (length rs - 1);
  r ← index rs lo;
  mret (Some (range_peer r)).

Definition one_round (group : PeerGroup) (now : Time) : M randomPicker round :=
  sel ← randomSelect group;
  match sel with
  | None => mret Break
  | Some peer =>
      ok ← candidate_ok rd_RRPicker peer;
      if ok : bool then
        zoom rd_RRPicker set_rd_rr (commitPeer peer now);;
        mret (Return peer)
      else
        update incr_rd_tries;;
        mret Continue
  end.

Definition one_loop (group : PeerGroup) : M randomPicker (option PeerId) :=
  now ← Now;
  p ← self;
  for_loop (rounds_left maxRandomTries (rd_tries p))
    (λ p, rd_tries p <=? maxRandomTries) (one_round group now).

Definition pickOne : M randomPicker (option PeerId) :=
  p ← self;
  let group := primary (rd_RRPicker p) in
  if (length (Peers group) <? 2)%nat
  then zoom rd_RRPicker set_rd_rr RoundRobin.Pick
  else or_round_robin rd_RRPicker set_rd_rr (one_loop group).

(** [peer == previous || p.Tried(peer) || peer.Down || !peerAvailable(peer)];
    the local variable [previous] is the second component of the state. *)
Definition two_rejected (peer : PeerId) : M (randomPicker * option PeerId) bool :=
  s ← self;
  if bool_decide (snd s = Some peer) then mret true else
  if Tried peer (rd_RRPicker (fst s)) then mret true else
  pr ← load peer;
  if Down pr then mret true else
  ok ← peerAvailable peer;
  mret (negb ok).

(** [peer.conns*previous.Weight > previous.conns*peer.Weight] *)
Definition busier (peer previous : Peer) : bool :=
  conns previous *! Weight peer <? conns peer *! Weight previous.

Definition two_round (group : PeerGroup) (now : Time)
    : M (randomPicker * option PeerId) round :=
  sel ← zoom fst (λ p s, (p, snd s)) (randomSelect group);
  match sel with
  | None => mret Break
  | Some peer =>
      rejected ← two_rejected peer;
      if rejected : bool then
        update (λ s, (incr_rd_tries (fst s), snd s));;
        mret Continue
      else
      s ← self;
      match snd s with
      | None =>
          update (λ s, (incr_rd_tries (fst s), Some peer));;
          mret Continue
      | Some previous =>
          pr ← load peer;
          prev ← load previous;
          let selected := if busier pr prev then previous else peer in
          zoom (λ s, rd_RRPicker (fst s)) (λ rr s, (set_rd_rr rr (fst s), snd s))
            (commitPeer selected now);;
          mret (Return selected)
      end
  end.

Definition two_loop (group : PeerGroup) : M randomPicker (option PeerId) :=
  now ← Now;
  p ← self;
  zoom (λ q, (q, None)) (λ s _, fst s)
    (for_loop (rounds_left maxRandomTries (rd_tries p))
       (λ s, rd_tries (fst s) <=? maxRandomTries) (two_round group now)).

Definition pickTwo : M randomPicker (option PeerId) :=
  p ← self;
  let group := primary (rd_RRPicker p) in
  if (length (Peers group) <? 2)%nat
  then zoom rd_RRPicker set_rd_rr RoundRobin.Pick
  else or_round_robin rd_RRPicker set_rd_rr (two_loop group).

Definition Pick : M randomPicker (option PeerId) :=
  p ← self;
  if two (rd_balancer p) then pickTwo else pickOne.

Definition Done (peer : option PeerId) (failed : bool) : M randomPicker unit :=
  zoom rd_RRPicker set_rd_rr (RoundRobin.Done peer failed).
Definition doneNeutral (peer : option PeerId) : M randomPicker unit :=
  zoom rd_RRPicker set_rd_rr (RoundRobin.doneNeutral peer).

#[export] Instance random_picker : Picker randomPicker := {|
  rrp := rd_RRPicker;
  pick := Pick;
  release := Done;
  release_neutral := doneNeutral;
|}.

(** ** The search *)

Definition sorted_ranges (rs : list weightRange) : Prop :=
  ∀ i j a b, (i ≤ j)%nat → rs !! i = Some a → rs !! j = Some b → upper a <= upper b.

Lemma range_search_spec {P} rs x fuel lo hi (p : P) w :
  (lo ≤ hi < length rs)%nat → (hi - lo ≤ fuel)%nat →
  ∃ r, range_search fuel rs x lo hi p w = Ret (r, p, w) ∧ (lo ≤ r ≤ hi)%nat ∧
    (sorted_ranges rs →
      (∀ i a, (lo ≤ i < r)%nat → rs !! i = Some a → upper a <= x) ∧
      (∀ a, (r < hi)%nat → rs !! r = Some a → x < upper a)).
Proof.
  revert lo hi. induction fuel as [|fuel IH]; intros lo hi Hlh Hf; cbn [range_search].
  { exists lo. split_and!; [done|lia|lia|]. intros _. split; intros; lia. }
  destruct (Nat.ltb_spec lo hi).
  2:{ exists lo. split_and!; [done|lia|lia|]. intros _. split; intros; lia. }
  pose proof (Nat.div2_div (lo + hi)) as Hd. set (m := Nat.div2 (lo + hi)) in *.
  assert (lo ≤ m < hi)%nat as Hm.
  { rewrite Hd. pose proof (Nat.div_mod_eq (lo + hi) 2).
    pose proof (Nat.mod_upper_bound (lo + hi) 2 ltac:(lia)). lia. }
  clearbody m. destruct (lookup_lt_is_Some_2 rs m ltac:(lia)) as [rm Hrm].
  rewrite (bind_Ret (index rs m) _ p w rm p w) by (unfold index; by rewrite Hrm).
  destruct (Z.leb_spec (upper rm) x) as [Hx|Hx].
  - destruct (IH (S m) hi) as (r & -> & Hr & Hspec); [lia|lia|].
    exists r. split_and!; [done|lia|lia|]. intros Hs. destruct (Hspec Hs) as [H1 H2].
    split; [|done]. intros i a Hi Ha. destruct (decide (i ≤ m)%nat) as [Him|].
    + pose proof (Hs i m a rm Him Ha Hrm). lia.
    + apply (H1 i); [lia|done].
  - destruct (IH lo m) as (r & -> & Hr & Hspec); [lia|lia|].
    exists r. split_and!; [done|lia|lia|]. intros Hs. destruct (Hspec Hs) as [H1 H2].
    split; [done|]. intros a _ Ha. destruct (decide (r < m)%nat) as [|Hrm']; [by apply H2|].
    replace r with m in Ha by lia. congruence.
Qed.

Lemma randomSelect_spec group p w :
  (0 < length (ranges (rd_balancer p)))%nat →
  wp (randomSelect group) (λ r p' w', p' = p ∧ heap w' = heap w ∧ wext w w' ∧
    match r with
    | Some x => x ∈ range_peer <$> ranges (rd_balancer p)
    | None => TotalWeight group <= 0
    end) p w.
Proof.
  intros Hl. unfold randomSelect. destruct (Z.leb_spec (TotalWeight group) 0); [by wp_simpl|].
  wp_simpl. apply (wp_eq (draw _) _ _ _ _ _ _ eq_refl). wp_simpl.
  set (x := intn _ _ _). set (rs := ranges (rd_balancer p)) in *.
  destruct (range_search_spec rs x (length rs) 0 (length rs - 1) p (count_draw w))
    as (r & E & Hr & _); [lia|lia|].
  apply (wp_eq _ _ _ _ _ _ _ E). wp_simpl.
  destruct (lookup_lt_is_Some_2 rs r ltac:(lia)) as [a Ha].
  eapply wp_index; [exact Ha|]. wp_simpl.
  split_and!; [done|done|split_and!; cbn; [done|lia..]|].
  apply list_elem_of_fmap. exists a. split; [done|]. by eapply list_elem_of_lookup_2.
Qed.

(** ** The Picker contract *)

(** The ranges are those of the primary peers. *)
Definition ranged (p : randomPicker) : Prop :=
  range_peer <$> ranges (rd_balancer p) = Peers (primary (rd_RRPicker p)).

Lemma ranged_length p :
  ranged p → length (ranges (rd_balancer p)) = length (Peers (primary (rd_RRPicker p))).
Proof. intros <-. by rewrite length_fmap. Qed.

Lemma two_rejected_spec peer s w :
  wp (two_rejected peer) (λ b s' w', s' = s ∧ heap w' = heap w ∧ wext w w' ∧
    (b = false → snd s ≠ Some peer ∧ peer ∉ tried (rd_RRPicker (fst s)) ∧
      choosable (heap w) peer (clock w) (ticks w) (ticks w'))) s w.
Proof.
  unfold two_rejected, Tried, peerAvailable. wp_simpl.
  case_bool_decide; wp_simpl; [by split_and!|]. case_bool_decide; wp_simpl; [by split_and!|].
  destruct (Down _) eqn:ED; wp_simpl; [by split_and!|].
  cbn [heap tick ticks clock]. split_and!; [done|done|apply wext_tick|].
  destruct (failed_out _ _) eqn:EF; [done|]. destruct (conns_full _) eqn:EC; [done|].
  intros _. split_and!; try done. split_and!; try done. exists (ticks w). split; [lia|done].
Qed.

Section pick.
Context (p0 : randomPicker) (w0 : World).
Let group := primary (rd_RRPicker p0).
Hypothesis p0_ranged : ranged p0.
Hypothesis two_peers : (2 ≤ length (Peers group))%nat.

(** What the rounds keep: nothing is chosen yet. *)
Definition untouched (p : randomPicker) (w : World) : Prop :=
  rd_balancer p = rd_balancer p0 ∧ rd_RRPicker p = rd_RRPicker p0 ∧
  wext w0 w ∧ htuned (heap w0) (heap w).

Lemma untouched_select p w :
  untouched p w →
  wp (randomSelect group) (λ r p' w', p' = p ∧ untouched p w' ∧ heap w' = heap w ∧ wext w w' ∧
    match r with Some x => x ∈ Peers group | None => True end) p w.
Proof using p0_ranged two_peers.
  intros (Hb & Hrr & Hw & Hh). pose proof (ranged_length _ p0_ranged) as Hl. fold group in Hl.
  eapply wp_mono; [apply randomSelect_spec; rewrite Hb; lia|].
  intros r p' w' (-> & Hh' & Hw' & Hr). split; [done|].
  split; [split_and!; [done|done|by rewrite Hw|by rewrite Hh']|].
  split_and!; [done|done|]. destruct r; [|done]. by rewrite Hb, p0_ranged in Hr.
Qed.

(** A choice made from an untouched state. *)
Definition chosen (x : PeerId) (p' : randomPicker) (w' : World) : Prop :=
  loop_post rd_RRPicker (Peers group) p0 w0 (Some x) p' w' ∧ ranged p'.

Lemma untouched_commit x now p w :
  untouched p w → x ∈ Peers group → x ∉ tried (rd_RRPicker p0) →
  choosable (heap w0) x (clock w0) (ticks w0) (ticks w) →
  wp (commitPeer x now) (λ r rr w', r = x ∧ chosen x (set_rd_rr rr p) w') (rd_RRPicker p) w.
Proof using p0_ranged.
  intros (Hb & Hrr & Hw & Hh) Hx Hn Hc. rewrite Hrr.
  eapply wp_mono; [by apply (commit_post (Peers group) x now (rd_RRPicker p0) w0 w)|].
  intros r rr w' (-> & Hcs & He). split; [done|]. split; [by split|].
  unfold ranged. cbn. rewrite Hb. by rewrite (proj1 (proj1 (proj2 Hcs))).
Qed.

Lemma untouched_none p w :
  untouched p w → loop_post rd_RRPicker (Peers group) p0 w0 None p w ∧ ranged p.
Proof using p0_ranged.
  intros (Hb & Hrr & ? & ?). split; [by split_and!|]. unfold ranged. by rewrite Hb, Hrr.
Qed.

Lemma one_loop_spec fuel cond now w :
  wext w0 w → htuned (heap w0) (heap w) →
  wp (for_loop fuel cond (one_round group now)) (λ r p' w',
    loop_post rd_RRPicker (Peers group) p0 w0 r p' w' ∧ ranged p') p0 w.
Proof using p0_ranged two_peers.
  intros Hw Hh. apply (for_loop_inv untouched); [|apply untouched_none|by split_and!].
  intros p w1 _ Hu. unfold one_round. wp_simpl.
  eapply wp_mono; [by apply untouched_select|].
  intros sel p' w2 (-> & Hu2 & Eh & Hw12 & Hsel).
  destruct sel as [x|]; wp_simpl; [|by apply untouched_none].
  eapply wp_mono; [apply candidate_ok_spec|].
  intros ok p' w3 (-> & Eh3 & Hw3 & Hok). pose proof Hu2 as (Hb & Hrr & Hw2 & Hh2).
  assert (untouched p w3) as Hu3 by (split_and!; [done|done|by rewrite Hw2|by rewrite Eh3]).
  rewrite Hrr in Hok. destruct ok; wp_simpl; [|by apply Hu3].
  destruct Hok as [Hn Hc]. eapply wp_mono; [apply (untouched_commit x now p w3); try done|].
  { eapply choosable_tuned; [exact Hh2|]. rewrite (proj1 Hw2) in Hc.
    eapply choosable_mono; [apply Hw2|done|exact Hc]. }
  intros r rr w4 [-> Hch]. by wp_simpl.
Qed.

(** The first of two candidates was acceptable when it was drawn. *)
Definition held (s : randomPicker * option PeerId) (w : World) : Prop :=
  untouched (fst s) w ∧ ∀ y, snd s = Some y → y ∈ Peers group ∧
    y ∉ tried (rd_RRPicker p0) ∧ choosable (heap w0) y (clock w0) (ticks w0) (ticks w).

Lemma two_loop_spec fuel cond now w :
  wext w0 w → htuned (heap w0) (heap w) →
  wp (for_loop fuel cond (two_round group now)) (λ r s' w',
    loop_post rd_RRPicker (Peers group) p0 w0 r (fst s') w' ∧ ranged (fst s')) (p0, None) w.
Proof using p0_ranged two_peers.
  intros Hw Hh. apply (for_loop_inv held); [|by intros ?? [? _]; apply untouched_none|by split_and!].
  intros [p prev] w1 _ [Hu Hprev]. cbn [fst snd] in *. unfold two_round. wp_simpl.
  eapply wp_mono; [by apply untouched_select|].
  intros sel p' w2 (-> & Hu2 & Eh & Hw12 & Hsel).
  destruct sel as [x|]; wp_simpl; [|by apply untouched_none].
  eapply wp_mono; [apply two_rejected_spec|].
  intros b s' w3 (-> & Eh3 & Hw3 & Hok). cbn [fst snd] in *.
  pose proof Hu2 as (Hb & Hrr & Hw2 & Hh2).
  assert (untouched p w3) as Hu3 by (split_and!; [done|done|by rewrite Hw2|by rewrite Eh3]).
  assert (∀ y, prev = Some y → y ∈ Peers group ∧ y ∉ tried (rd_RRPicker p0) ∧
    choosable (heap w0) y (clock w0) (ticks w0) (ticks w3)) as Hprev3.
  { intros y Hy. destruct (Hprev y Hy) as (? & ? & ?). split_and!; try done.
    eapply choosable_mono; [done| |done]. transitivity (ticks w2); [apply Hw12|apply Hw3]. }
  destruct b; wp_simpl; [by split|]. destruct (Hok eq_refl) as (_ & Hn & Hc). rewrite Hrr in Hn.
  assert (choosable (heap w0) x (clock w0) (ticks w0) (ticks w3)) as Hc3.
  { eapply choosable_tuned; [exact Hh2|]. rewrite (proj1 Hw2) in Hc.
    eapply choosable_mono; [apply Hw2|done|exact Hc]. }
  cbn [fst snd]. destruct prev as [y|]; wp_simpl; cbn [fst snd].
  - destruct (Hprev3 y eq_refl) as (Hy & Hny & Hcy).
    destruct (busier _ _);
      (eapply wp_mono; [by apply untouched_commit|]); intros r rr w4 [-> Hch]; by wp_simpl.
  - split; [done|]. by intros ? [= <-].
Qed.
End pick.

#[export] Instance random_laws : PickerLaws randomPicker.
Proof.
  assert (∀ rr p, same_groups (rd_RRPicker p) rr → ranged p → ranged (set_rd_rr rr p)) as Hset
    by (intros rr p [Hg Hb]; unfold ranged; cbn; by rewrite Hg).
  apply (embedded_laws rd_RRPicker set_rd_rr ranged); [done|exact Hset|].
  intros p w [Hwf HJ]. unfold Pick, pickTwo, pickOne. wp_simpl.
  destruct (two (rd_balancer p)); wp_simpl;
    destruct (Nat.ltb_spec (length (Peers (primary (rd_RRPicker p)))) 2) as [|Hl];
    try (by apply (round_robin_spec _ _ ranged));
    (apply (or_round_robin_spec _ _ ranged) with (members := Peers (primary (rd_RRPicker p)));
     [done|exact Hset|done|by left|]).
  - unfold two_loop. wp_simpl. eapply wp_mono; [apply (two_loop_spec p w); [done|done|apply wext_tick|reflexivity]|]. by intros ? [] ?.
  - unfold one_loop. wp_simpl. apply (one_loop_spec p w); [done|done|apply wext_tick|reflexivity].
Defined.

(** ** The search is the weighted walk *)

Lemma sum_weights_take_le h xs i j :
  heap_ok h xs → (i ≤ j)%nat → sum_weights h (take i xs) <= sum_weights h (take j xs).
Proof.
  revert i j. induction xs as [|x xs IH]; intros i j Hok Hij; [by rewrite !take_nil|].
  assert (heap_ok h xs) as Hok' by (intros z Hz; apply Hok; by right).
  destruct (Hok x ltac:(by left)).
  destruct i as [|i], j as [|j]; cbn [firstn]; rewrite ?sum_weights_cons; try lia.
  - pose proof (sum_weights_nonneg h (take j xs)
      ltac:(intros z Hz; apply Hok'; eapply subseteq_take, Hz)). cbn. lia.
  - specialize (IH i j Hok' ltac:(lia)). lia.
Qed.

Lemma ranges_loop_lookup h xs c i a :
  heap_ok h xs → 0 <= c → c + sum_weights h xs <= max_int →
  ranges_loop h xs c !! i = Some a →
  xs !! i = Some (range_peer a) ∧ upper a = c + sum_weights h (take (S i) xs).
Proof.
  revert c i. induction xs as [|x xs IH]; intros c i Hok Hc Hle; [done|].
  assert (heap_ok h xs) as Hok' by (intros z Hz; apply Hok; by right).
  destruct (Hok x ltac:(by left)). pose proof (sum_weights_nonneg h xs Hok').
  rewrite sum_weights_cons in Hle. cbn [ranges_loop].
  unfold int_add. rewrite wrap_int_id by (unfold is_int, min_int, max_int in *; lia).
  destruct i as [|i]; cbn [lookup list_lookup].
  - intros [= <-]. split; [done|]. cbn [upper firstn]. rewrite take_0, sum_weights_cons.
    rewrite sum_weights_nil. lia.
  - intros Ha. apply IH in Ha as [? ->]; [|done|lia|lia].
    split; [done|]. rewrite (firstn_cons (S i)), sum_weights_cons. lia.
Qed.

Lemma length_ranges_loop h xs c : length (ranges_loop h xs c) = length xs.
Proof. revert c. induction xs as [|x xs IH]; intros c; cbn; [done|by rewrite IH]. Qed.

Lemma ranges_loop_sorted h xs :
  heap_ok h xs → sum_weights h xs <= max_int → sorted_ranges (ranges_loop h xs 0).
Proof.
  intros Hok Hle i j a b Hij Ha Hb.
  apply ranges_loop_lookup in Ha as [_ ->]; [|done|done|lia].
  apply ranges_loop_lookup in Hb as [_ ->]; [|done|done|lia].
  pose proof (sum_weights_take_le h xs (S i) (S j) Hok ltac:(lia)). lia.
Qed.

Lemma range_owner h xs x r a :
  heap_ok h xs → 0 <= x < sum_weights h xs → sum_weights h xs <= max_int →
  ranges_loop h xs 0 !! r = Some a →
  (∀ i b, (i < r)%nat → ranges_loop h xs 0 !! i = Some b → upper b <= x) →
  ((r < length xs - 1)%nat → x < upper a) →
  owns h xs (range_peer a) x.
Proof.
  intros Hok Hx Hle Ha Hlo Hhi.
  destruct (ranges_loop_lookup h xs 0 r a Hok ltac:(lia) ltac:(lia) Ha) as [Hr Hup].
  pose proof (lookup_lt_Some _ _ _ Hr) as Hlen.
  exists (take r xs), (drop (S r) xs).
  split; [symmetry; by apply take_drop_middle|].
  rewrite (take_S_r _ _ _ Hr), sum_weights_app, sum_weights_cons, sum_weights_nil in Hup.
  split.
  - destruct r as [|r]; [rewrite take_0, sum_weights_nil; lia|].
    destruct (lookup_lt_is_Some_2 (ranges_loop h xs 0) r) as [b Hb];
      [rewrite length_ranges_loop; lia|].
    pose proof (Hlo r b ltac:(lia) Hb) as Hub.
    destruct (ranges_loop_lookup h xs 0 r b Hok ltac:(lia) ltac:(lia) Hb) as [_ Hb'].
    lia.
  - destruct (decide (r < length xs - 1)%nat) as [Hlt|]; [specialize (Hhi Hlt); lia|].
    assert (S r = length xs) as El by lia.
    assert (sum_weights h (take (S r) xs) = sum_weights h xs) as E
      by (by rewrite El, firstn_all).
    rewrite (take_S_r _ _ _ Hr), sum_weights_app, sum_weights_cons, sum_weights_nil in E. lia.
Qed.

Lemma randomSelect_walk group p w :
  let xs := Peers group in
  heap_ok (heap w) xs → TotalWeight group = sum_weights (heap w) xs →
  0 < TotalWeight group <= max_int →
  ranges (rd_balancer p) = ranges_loop (heap w) xs 0 →
  (∀ k n, 0 < n → 0 <= intn (rd_balancer p) k n < n) →
  ∃ x, select_weight (heap w) xs (intn (rd_balancer p) (draws w) (TotalWeight group)) = Some x ∧
    randomSelect group p w = Ret (Some x, p, count_draw w).
Proof.
  intros xs Hok HT Hpos Hrs Hin. set (v := intn _ _ _).
  assert (0 <= v < TotalWeight group) as Hv by (apply Hin; lia).
  assert (0 < length xs)%nat as Hl by (destruct xs; [rewrite sum_weights_nil in HT; lia|cbn; lia]).
  set (rs := ranges_loop (heap w) xs 0) in *.
  assert (length rs = length xs) as Hlen by apply length_ranges_loop.
  destruct (range_search_spec rs v (length rs) 0 (length rs - 1) p (count_draw w))
    as (r & E & Hr & Hs); [lia|lia|].
  destruct (Hs (ranges_loop_sorted _ _ Hok ltac:(lia))) as [Hlo Hhi].
  destruct (lookup_lt_is_Some_2 rs r ltac:(lia)) as [a Ha].
  assert (owns (heap w) xs (range_peer a) v) as Hown.
  { apply (range_owner _ _ _ r); try done; try lia.
    - intros i b Hi. apply Hlo. lia.
    - intros Hlt. apply Hhi; [lia|done]. }
  exists (range_peer a). split.
  { apply owns_select; [done|unfold is_int, min_int, max_int in *; lia|done]. }
  unfold randomSelect. rewrite (proj2 (Z.leb_gt _ _)) by lia.
  rewrite (bind_Ret (draw _) _ _ _ _ _ _ eq_refl), (bind_Ret self _ _ _ _ _ _ eq_refl). fold v.
  rewrite Hrs. rewrite (bind_Ret _ _ _ _ _ _ _ E).
  rewrite (bind_Ret (index rs r) _ p _ a p (count_draw w)) by (unfold index; by rewrite Ha).
  done.
Qed.

(** ** Two candidates *)

Lemma two_rejected_serves peer s w :
  snd s ≠ Some peer → peer ∉ tried (rd_RRPicker (fst s)) →
  serves (heap w) peer (clock w (ticks w)) →
  two_rejected peer s w = Ret (false, s, tick w).
Proof.
  intros Hne Hn (Hd & Hf & Hc). unfold two_rejected, peerAvailable, Tried.
  rewrite (bind_Ret self _ _ _ _ _ _ eq_refl), !bool_decide_eq_false_2 by done.
  rewrite (bind_Ret (load peer) _ _ _ _ _ _ eq_refl), Hd.
  unfold mbind, M_bind. cbn. by rewrite Hf, Hc.
Qed.

Section two.
Context (group : PeerGroup) (now : Time).

Lemma two_round_first p w a :
  randomSelect group p w = Ret (Some a, p, count_draw w) →
  a ∉ tried (rd_RRPicker p) → serves (heap w) a (clock w (ticks w)) →
  two_round group now (p, None) w =
    Ret (Continue, (incr_rd_tries p, Some a), tick (count_draw w)).
Proof.
  intros E Hn Hs. unfold two_round. rewrite (bind_Ret (zoom _ _ _) _ _ _ (Some a) (p, None)
    (count_draw w)) by (unfold zoom; cbn [fst snd]; by rewrite E).
  rewrite (bind_Ret _ _ _ _ _ _ _ (two_rejected_serves a (p, None) (count_draw w)
    ltac:(done) Hn Hs)).
  reflexivity.
Qed.

Lemma two_round_second p w a b :
  randomSelect group p w = Ret (Some b, p, count_draw w) →
  a ≠ b → b ∉ tried (rd_RRPicker p) → serves (heap w) b (clock w (ticks w)) →
  ∃ s' w', two_round group now (p, Some a) w =
    Ret (Return (if busier (heap w !!! b) (heap w !!! a) then a else b), s', w').
Proof.
  intros E Hab Hn Hs. unfold two_round. rewrite (bind_Ret (zoom _ _ _) _ _ _ (Some b) (p, Some a)
    (count_draw w)) by (unfold zoom; cbn [fst snd]; by rewrite E).
  rewrite (bind_Ret _ _ _ _ _ _ _ (two_rejected_serves b (p, Some a) (count_draw w)
    ltac:(cbn; congruence) Hn Hs)).
  rewrite (bind_Ret self _ _ _ _ _ _ eq_refl). cbn [snd].
  rewrite (bind_Ret (load b) _ _ _ _ _ _ eq_refl), (bind_Ret (load a) _ _ _ _ _ _ eq_refl).
  cbn [heap tick count_draw]. set (x := if busier _ _ then a else b).
  destruct (proj1 (wp_exists _ _ _ _) (commitPeer_spec x now (rd_RRPicker p) (tick (count_draw w))))
    as (r & rr & w' & Ec & _).
  exists (set_rd_rr rr p, Some a), w'.
  rewrite (bind_Ret (zoom _ _ _) _ _ _ r (set_rd_rr rr p, Some a) w'); [done|].
  unfold zoom. cbn [fst snd]. by rewrite Ec.
Qed.
End two.

Lemma busier_less_loaded (h : Heap) xs a b :
  heap_ok h xs → loads_fit h xs → a ∈ xs → b ∈ xs →
  let x := if busier (h !!! b) (h !!! a) then a else b in
  load_le (h !!! x) (h !!! a) ∧ load_le (h !!! x) (h !!! b).
Proof.
  intros Hok Hfit Ha Hb x. subst x. unfold busier, int_mul, load_le.
  rewrite !wrap_int_id by (by apply Hfit).
  destruct (Z.ltb_spec (conns (h !!! a) * Weight (h !!! b)) (conns (h !!! b) * Weight (h !!! a)));
    lia.
Qed.

(** ** Claims *)

(** C36: the binary search over the cumulative ranges that [newRandom] builds
    computes the linear weighted walk: with a random source that stays below
    its bound, [randomSelect] returns the peer whose weighted interval contains
    the draw, consumes one draw and changes nothing else. *)
Theorem randomSelect_reference (peers : list (option PeerId)) (h : Heap) (tw : bool)
    (rand : nat → Z → Z) (w : World) :
  let rd := newRandom peers tw rand h in
  let g := rr_primary (rd_rr rd.1) in
  heap w = rd.2 → heap_ok (heap w) (Peers g) →
  0 < sum_weights (heap w) (Peers g) <= max_int →
  (∀ k n, 0 < n → 0 <= rand k n < n) →
  ∃ x, select_weight (heap w) (Peers g) (rand (draws w) (TotalWeight g)) = Some x ∧
    randomSelect g (NewPicker rd.1) w = Ret (Some x, NewPicker rd.1, count_draw w).
Proof.
  intros rd g Hh Hok Hpos Hr.
  pose proof (BuildGroups_facts peers h) as (g0 & b & h' & E & Hg & HT & _ & _ & Hq).
  assert (rd = (MkRandom (MkRoundRobin g0 b) tw (ranges_loop h' (Peers g0) 0) rand, h')) as Erd
    by (unfold rd, newRandom, NewRoundRobin; by rewrite E).
  subst g. clearbody rd. subst rd. cbn [fst snd rd_rr rr_primary] in *. subst h'.
  assert (TotalWeight g0 = sum_weights (heap w) (Peers g0)) as HTW.
  { rewrite HT, (init_weight_sum_after peers h (heap w)); [|done|].
    - apply wrap_int_id. unfold is_int, min_int, max_int in *. lia.
    - intros x. rewrite Hg. by intros [? _]%elem_of_group_peers. }
  match goal with |- context [randomSelect _ ?p _] =>
    exact (randomSelect_walk g0 p w Hok HTW ltac:(by rewrite HTW) eq_refl Hr)
  end.
Qed.

Lemma randomSelect_reference_witness :
  let rd := newRandom [Some 0%nat; None; Some 1%nat] false (λ k n, Z.of_nat k mod n) demo_heap in
  let w := MkWorld rd.2 demo_clock 0 6 in
  ∃ x, select_weight (heap w) (Peers (rr_primary (rd_rr rd.1))) 6 = Some x ∧
    randomSelect (rr_primary (rd_rr rd.1)) (NewPicker rd.1) w =
      Ret (Some x, NewPicker rd.1, count_draw w).
Proof.
  intros rd w.
  apply (randomSelect_reference [Some 0%nat; None; Some 1%nat] demo_heap false
    (λ k n, Z.of_nat k mod n) w).
  - reflexivity.
  - apply demo_wf.
  - vm_compute. split; congruence.
  - intros k n Hn. by apply Z.mod_pos_bound.
Defined.

(** C37: the power of two choices: when the first two draws of a request fall on
    two different available untried peers, [Pick] returns the one with fewer
    connections for its weight, the second of the two on a tie. *)
Theorem random_two_choice (p : randomPicker) (a b : PeerId) (w : World) :
  let g := primary (rd_RRPicker p) in
  let d k := intn (rd_balancer p) (k + draws w)%nat (TotalWeight g) in
  two (rd_balancer p) = true → (2 ≤ length (Peers g))%nat →
  0 <= rd_tries p < maxRandomTries → heap_ok (heap w) (Peers g) →
  TotalWeight g = sum_weights (heap w) (Peers g) → TotalWeight g <= max_int →
  ranges (rd_balancer p) = ranges_loop (heap w) (Peers g) 0 →
  (∀ k n, 0 < n → 0 <= intn (rd_balancer p) k n < n) →
  select_weight (heap w) (Peers g) (d 0%nat) = Some a →
  select_weight (heap w) (Peers g) (d 1%nat) = Some b →
  a ≠ b → a ∉ tried (rd_RRPicker p) → b ∉ tried (rd_RRPicker p) →
  (∀ i, serves (heap w) a (clock w i)) → (∀ i, serves (heap w) b (clock w i)) →
  ∃ x p' w', Pick p w = Ret (Some x, p', w') ∧
    x = (if busier (heap w !!! b) (heap w !!! a) then a else b) ∧
    (loads_fit (heap w) (Peers g) →
      load_le (heap w !!! x) (heap w !!! a) ∧ load_le (heap w !!! x) (heap w !!! b)).
Proof.
  intros g d Htwo Hlen Htr Hok HT Hmax Hrs Hin Ha Hb Hab Hna Hnb Hsa Hsb.
  set (x := if busier _ _ then a else b).
  assert (0 < TotalWeight g <= max_int) as Hpos.
  { pose proof (sum_weights_pos _ _ _ Hok (select_weight_in _ _ _ _ Ha)). lia. }
  set (w1 := tick w). set (w2 := tick (count_draw w1)).
  destruct (randomSelect_walk g p w1 Hok HT Hpos Hrs Hin) as (a' & Ha' & Ea).
  destruct (randomSelect_walk g (incr_rd_tries p) w2 Hok HT Hpos Hrs Hin) as (b' & Hb' & Eb).
  assert (a' = a) as -> by (unfold d in Ha; cbn in *; congruence).
  assert (b' = b) as -> by (unfold d in Hb; cbn in *; congruence).
  pose proof (two_round_first g (clock w (ticks w)) p w1 a Ea Hna (Hsa _)) as E1.
  destruct (two_round_second g (clock w (ticks w)) (incr_rd_tries p) w2 a b Eb Hab Hnb (Hsb _))
    as (s' & w' & E2).
  exists x, (fst s'), w'. split_and!; [|done|].
  2:{ intros Hfit. apply (busier_less_loaded (heap w) (Peers g)); try done;
      by eapply select_weight_in. }
  unfold Pick. rewrite (bind_Ret self _ _ _ _ _ _ eq_refl), Htwo.
  unfold pickTwo. rewrite (bind_Ret self _ _ _ _ _ _ eq_refl). fold g.
  rewrite (proj2 (Nat.ltb_ge _ _) Hlen). unfold or_round_robin.
  rewrite (bind_Ret (two_loop g) _ p w (Some x) (fst s') w'); [done|].
  unfold two_loop. rewrite (bind_Ret Now _ _ _ _ _ _ eq_refl), (bind_Ret self _ _ _ _ _ _ eq_refl).
  unfold zoom, rounds_left, maxRandomTries in *.
  destruct (Z.to_nat (20 + 1 - rd_tries p)) as [|fuel] eqn:Ef; [lia|].
  erewrite for_loop_continue; [|apply Z.leb_le; cbn; lia|exact E1].
  erewrite for_loop_return; [done| |exact E2|lia].
  apply Z.leb_le. cbn. int_lia.
Qed.

Lemma random_two_choice_witness :
  let rd := newRandom [Some 0%nat; None; Some 1%nat] true (λ k n, Z.of_nat (5 * k) mod n)
    demo_heap in
  let w := MkWorld (<[0%nat := set_conns 2 (rd.2 !!! 0%nat)]> rd.2) demo_clock 0 0 in
  ∃ x p' w', Pick (NewPicker rd.1) w = Ret (Some x, p', w') ∧ x = 1%nat ∧
    (loads_fit (heap w) [0%nat; 1%nat] →
      load_le (heap w !!! x) (heap w !!! 0%nat) ∧ load_le (heap w !!! x) (heap w !!! 1%nat)).
Proof.
  intros rd w. apply (random_two_choice (NewPicker rd.1) 0 1 w).
  - reflexivity.
  - vm_compute. lia.
  - vm_compute. split; congruence.
  - intros x Hx. change (x ∈ [0%nat; 1%nat]) in Hx.
    apply elem_of_cons in Hx as [-> | ->%list_elem_of_singleton];
      split; vm_compute; split; congruence.
  - reflexivity.
  - vm_compute. congruence.
  - reflexivity.
  - intros k n Hn. by apply Z.mod_pos_bound.
  - reflexivity.
  - reflexivity.
  - discriminate.
  - vm_compute. congruence.
  - vm_compute. congruence.
  - intros i. repeat split.
  - intros i. repeat split.
Defined.
