(* ===== verification/Guarantees.v ===== *)
(** * What every picker guarantees

    The guarantees of the [Picker] contract, proved once against [PickerLaws]
    and so for each of the algorithms; the accounting of the releases; and the
    exclusiveness of the probe of a recovering peer. *)

From S2P Require Import Prelude GoLib Peer RoundRobin Picker SmoothWRR LeastConn Candidates IPHash Hash CHash Random.
#[local] Open Scope Z_scope.
#[local] Open Scope go_scope.

(** ** Lemmas *)

Lemma exhausted_no_server xs t w w' x :
  exhausted xs t w w' → x ∈ xs → x ∉ t → ¬ ∀ i, serves (heap w) x (clock w i).
Proof.
  intros He Hx Hn Hs. destruct (He x Hx) as [|Hu]; [done|].
  by eapply serves_not_unchoosable in Hu.
Qed.

Lemma base_tried_primary rr rr' h x :
  rr_wf rr h → x ∈ Peers (primary rr) → x ∈ base_tried rr rr' ↔ x ∈ tried rr.
Proof.
  intros Hwf Hx. unfold base_tried. destruct (_ && _); [|done].
  rewrite elem_of_difference, elem_of_list_to_set. split; [by intros []|].
  intros Ht. split; [done|]. unfold backup_members.
  destruct (backup rr) as [b|] eqn:Eb; [|by intros ?%not_elem_of_nil].
  intros Hb. pose proof (gw_primary _ _ _ Hwf x Hx) as E1.
  by rewrite (gw_backup _ _ _ Hwf b x Eb Hb) in E1.
Qed.

Lemma conns_full_false pr :
  conns_full pr = false → 0 < MaxConns pr → conns pr < MaxConns pr.
Proof.
  unfold conns_full. intros H1 H2. rewrite (proj2 (Z.ltb_lt _ _) H2) in H1.
  by apply Z.leb_gt in H1.
Qed.

(** ** Claims on every picker *)

Section contract.
Context {P : Type} `{PickerLaws P}.

(** C13: [Pick] never panics; it selects a configured peer that is up, below
    its [max_conns] and, until the backup phase forgets the backups, not tried
    by the request before; exactly the selected peer has one more connection,
    and no selection changes the configuration of a peer. *)
Theorem pick_contract (pk : P) (w : World) :
  picker_wf pk (heap w) →
  ∃ r pk' w', pick pk w = Ret (r, pk', w') ∧
    (∀ q, static (heap w' !!! q) = static (heap w !!! q)) ∧
    (∀ q, conns (heap w' !!! q) =
      if decide (r = Some q) then conns (heap w !!! q) +! 1 else conns (heap w !!! q)) ∧
    ∀ x, r = Some x →
      x ∈ Peers (primary (rrp pk)) ++ backup_members (rrp pk) ∧
      Down (heap w !!! x) = false ∧
      (0 < MaxConns (heap w !!! x) → conns (heap w !!! x) < MaxConns (heap w !!! x)) ∧
      (phase_ok (rrp pk) → x ∉ tried (rrp pk)) ∧ x ∈ tried (rrp pk').
Proof.
  intros Hwf. destruct (proj1 (wp_exists _ _ _ _) (pick_law pk w Hwf))
    as (r & pk' & w' & E & Hpost & _ & _).
  exists r, pk', w'. pose proof (pick_post_hsame _ _ _ _ _ Hpost) as [Hst _].
  destruct Hpost as [_ _ _ Hr]. split_and!; [done|done| |].
  - intros q. destruct r as [x|].
    + destruct Hr as (_ & _ & _ & Hs & _). rewrite (hselected_conns x _ _ q Hs).
      repeat case_decide; congruence.
    + rewrite decide_False by done. apply tuned_conns, Hr.
  - intros x ->. destruct Hr as (Hx & Hn & Ht & _ & _ & Hd & Hc).
    split_and!; [|done|by apply conns_full_false| |].
    + apply elem_of_app. destruct Hx as [|[_ ?]]; auto.
    + intros Hph. by rewrite (phase_ok_base _ _ Hph) in Hn.
    + rewrite Ht. set_solver.
Qed.

(** C23: quarantine: a peer that has reached [max_fails] is only selected if, at
    some reading of the clock made during the call, more than its
    [fail_timeout] has passed since it was last checked; the one exception is a
    peer without alternatives. *)
Theorem pick_quarantine (pk : P) (w : World) (x : PeerId) :
  picker_wf pk (heap w) → single (primary (rrp pk)) = false →
  let pr := heap w !!! x in
  0 < MaxFails pr → MaxFails pr <= fails pr →
  ∃ r pk' w', pick pk w = Ret (r, pk', w') ∧
    (r = Some x → ∃ i, (ticks w ≤ i < ticks w')%nat ∧
      FailTimeout pr < time_Sub (clock w i) (checked pr)).
Proof.
  intros Hwf Hs pr HM Hf. destruct (proj1 (wp_exists _ _ _ _) (pick_law pk w Hwf))
    as (r & pk' & w' & E & _ & He & _).
  exists r, pk', w'. split; [done|]. intros ->.
  destruct (pe_some _ _ _ _ _ He x eq_refl Hs) as (_ & _ & i & Hi & Hno).
  exists i. split; [done|]. unfold failed_out in Hno. fold pr in Hno.
  rewrite (proj2 (Z.ltb_lt _ _) HM), (proj2 (Z.leb_le _ _) Hf) in Hno.
  by apply Z.leb_gt in Hno.
Qed.

(** C24: availability: a request in its primary phase with an available untried
    primary peer gets a peer, and a primary one. *)
Theorem pick_available (pk : P) (w : World) (x : PeerId) :
  picker_wf pk (heap w) → backupPhase (rrp pk) = false →
  x ∈ Peers (primary (rrp pk)) → x ∉ tried (rrp pk) →
  (∀ i, serves (heap w) x (clock w i)) →
  ∃ y pk' w', pick pk w = Ret (Some y, pk', w') ∧ y ∈ Peers (primary (rrp pk)).
Proof.
  intros Hwf Hph Hx Hn Hs. destruct (proj1 (wp_exists _ _ _ _) (pick_law pk w Hwf))
    as (r & pk' & w' & E & Hp & He & _).
  destruct r as [y|].
  - exists y, pk', w'. split; [done|].
    destruct Hp as [_ _ _ ([?|[Hb _]] & _)]; [done|]. exfalso.
    pose proof (pe_backup _ _ _ _ _ He y eq_refl Hb Hph) as Hex.
    by apply (exhausted_no_server _ _ _ _ x Hex).
  - exfalso. destruct (pe_none _ _ _ _ _ He eq_refl) as [Hex _].
    by apply (exhausted_no_server _ _ _ _ x (Hex Hph)).
Qed.

(** C25: backup: when every primary peer is tried, down, full or in quarantine
    throughout, and a backup peer is available, the request gets a backup peer;
    peers it tried do not count when it enters the backup phase. *)
Theorem pick_backup (pk : P) (w : World) (b : PeerId) :
  picker_wf pk (heap w) → phase_ok (rrp pk) → backupPhase (rrp pk) = false →
  (∀ x, x ∈ Peers (primary (rrp pk)) → rejects (heap w) (tried (rrp pk)) (clock w) x) →
  b ∈ backup_members (rrp pk) → (∀ i, serves (heap w) b (clock w i)) →
  ∃ y pk' w', pick pk w = Ret (Some y, pk', w') ∧ y ∈ backup_members (rrp pk) ∧
    backupPhase (rrp pk') = true.
Proof.
  intros Hwf Hok Hph Hrej Hb Hs. pose proof (picker_wf_rr _ _ Hwf) as Hrwf.
  destruct (proj1 (wp_exists _ _ _ _) (pick_law pk w Hwf))
    as (r & pk' & w' & E & Hp & He & _).
  destruct r as [y|].
  - exists y, pk', w'. split; [done|]. destruct Hp as [_ _ _ (Hy & Hn & _)].
    destruct Hy as [Hy|[? ?]]; [exfalso|done].
    assert (single (primary (rrp pk)) = false) as Hsing.
    { destruct (single _) eqn:Es; [|done]. destruct (gw_single _ _ _ Hrwf Es) as [Eb _].
      unfold backup_members in Hb. rewrite Eb in Hb. by apply not_elem_of_nil in Hb. }
    rewrite base_tried_primary in Hn by done.
    pose proof (pe_some _ _ _ _ _ He y eq_refl Hsing) as Hch.
    by eapply rejects_not_choosable in Hch; [|by apply Hrej|].
  - exfalso. destruct (pe_none _ _ _ _ _ He eq_refl) as [_ Hex].
    refine (exhausted_no_server _ _ _ _ b Hex Hb _ Hs).
    rewrite (phase_ok_base _ _ Hok). by apply Hok.
Qed.
End contract.

(** *** Witnesses, with different algorithms *)

Lemma pick_contract_witness :
  let pk := IPHash.NewPickerForIP (MkIPHash demo_rr.1) [10; 1; 2; 3] in
  ∃ r pk' w', pick pk demo_world = Ret (r, pk', w') ∧
    (∀ q, static (heap w' !!! q) = static (heap demo_world !!! q)) ∧
    (∀ q, conns (heap w' !!! q) =
      if decide (r = Some q) then conns (heap demo_world !!! q) +! 1
      else conns (heap demo_world !!! q)) ∧
    ∀ x, r = Some x →
      x ∈ Peers (primary (rrp pk)) ++ backup_members (rrp pk) ∧
      Down (heap demo_world !!! x) = false ∧
      (0 < MaxConns (heap demo_world !!! x) →
        conns (heap demo_world !!! x) < MaxConns (heap demo_world !!! x)) ∧
      (phase_ok (rrp pk) → x ∉ tried (rrp pk)) ∧ x ∈ tried (rrp pk').
Proof.
  intros pk. apply (pick_contract (H0 := ipHash_laws) pk demo_world).
  split; [exact demo_wf|]. split; [intros _; vm_compute; congruence|]. intros b. discriminate.
Defined.

(** A peer that has failed once and was checked at time 0. *)
Definition failing_heap : Heap :=
  <[0%nat := set_fails 1 (demo_rr.2 !!! 0%nat)]> demo_rr.2.

Lemma failing_wf (pk : RRPicker) :
  primary pk = rr_primary demo_rr.1 → backup pk = None → rr_wf pk failing_heap.
Proof.
  unfold rr_wf. intros -> ->. apply (groups_wf_mono _ _ demo_rr.2); [..|exact demo_wf].
  - intros q. unfold failing_heap. rewrite heap_insert. by case_decide; subst.
  - intros q [] . unfold failing_heap. rewrite heap_insert. case_decide; subst; [|by split].
    by split.
Qed.

Lemma pick_quarantine_witness :
  let w := MkWorld failing_heap demo_clock 0 0 in
  ∃ r pk' w', pick (LeastConn.NewPicker (MkLeastConn demo_rr.1)) w = Ret (r, pk', w') ∧
    (r = Some 0%nat → ∃ i, (0 ≤ i < ticks w')%nat ∧
      10 * Second < time_Sub (demo_clock i) zero_time).
Proof.
  intros w.
  apply (pick_quarantine (H0 := leastConn_laws) (LeastConn.NewPicker (MkLeastConn demo_rr.1)) w 0).
  - split; [by apply failing_wf|done].
  - reflexivity.
  - reflexivity.
  - vm_compute. congruence.
Defined.

Lemma pick_available_witness :
  let rd := NewRandom [Some 0%nat; None; Some 1%nat] (λ k n, Z.of_nat k mod n) demo_heap in
  ∃ y pk' w', pick (Random.NewPicker rd.1) demo_world = Ret (Some y, pk', w') ∧
    y ∈ Peers (rr_primary demo_rr.1).
Proof.
  intros rd. apply (pick_available (H0 := random_laws) (Random.NewPicker rd.1) demo_world 0).
  - split; [exact demo_wf|reflexivity].
  - reflexivity.
  - by left.
  - vm_compute. congruence.
  - intros i. repeat split.
Defined.

(** A primary peer that is down and a backup. *)
Definition backup_heap : Heap :=
  <[1%nat := MkPeer "b" 1 false 0 0 0 true 0 0 0 0 0 zero_time zero_time 0]>
  {[0%nat := MkPeer "a" 1 true 0 0 0 false 0 0 0 0 0 zero_time zero_time 0]}.
Definition backup_rr : RoundRobin * Heap := NewRoundRobin [Some 0%nat; Some 1%nat] backup_heap.

Lemma backup_wf : groups_wf (rr_primary backup_rr.1) (rr_backup backup_rr.1) backup_rr.2.
Proof.
  apply (NewRoundRobin_wf [Some 0%nat; Some 1%nat] backup_heap); [|done].
  intros x Hx. assert (x = 0 ∨ x = 1)%nat as [-> | ->] by set_solver;
    repeat split; vm_compute; congruence.
Qed.

Lemma pick_backup_witness :
  let w := MkWorld backup_rr.2 demo_clock 0 0 in
  let pk := CHash.NewPickerForKey (MkHashConsistent backup_rr.1 [MkPoint 7 0]) "k" in
  ∃ y pk' w', pick pk w = Ret (Some y, pk', w') ∧ y ∈ backup_members (rrp pk) ∧
    backupPhase (rrp pk') = true.
Proof.
  intros w pk. apply (pick_backup (H0 := chash_laws) pk w 1).
  - split; [exact backup_wf|]. split; [vm_compute; congruence|].
    split; [discriminate|vm_compute; split; congruence].
  - intros _ x _. apply not_elem_of_empty.
  - reflexivity.
  - intros x ->%list_elem_of_singleton. right. intros i (? & _). discriminate.
  - by left.
  - intros i. repeat split.
Defined.
