(* ===== verification/Release.v ===== *)
(** * Releases and probes (RRPicker.done, commitPeer)

    The accounting of every kind of release, the neutral release that undoes a
    selection, and the exclusiveness of the probe of a recovering peer. *)

From S2P Require Import Prelude GoLib Peer RoundRobin Picker SmoothWRR LeastConn Candidates IPHash Guarantees.
#[local] Open Scope Z_scope.
#[local] Open Scope go_scope.

(** ** Releases *)

(** C26: the accounting of [done]: always one connection less on the peer, no
    other peer touched; the single-peer fast path clears the failures; a
    failure counts, stamps [accessed] and [checked] and costs
    weight/max_fails of the effective weight, not below zero; a success clears
    the failures when a later check was made than the last failure; a neutral
    release counts nothing and hands an unused probe back exactly when nobody
    wrote [checked] since; [Done(nil)] does nothing. *)
Theorem done_accounting (rr : RRPicker) (w : World) (x : PeerId) (failed neutral : bool) :
  let pr := heap w !!! x in
  let now := clock w (ticks w) in
  done None failed neutral rr w = Ret (tt, rr, w) ∧
  ∃ rr' w', done (Some x) failed neutral rr w = Ret (tt, rr', w') ∧
    (∀ q, q ≠ x → heap w' !!! q = heap w !!! q) ∧
    let pr' := heap w' !!! x in
    static pr' = static pr ∧ conns pr' = conns pr -! 1 ∧
    currentWeight pr' = currentWeight pr ∧
    if single (done_group rr pr) then
      rr' = rr ∧ fails pr' = 0 ∧ effectiveWeight pr' = effectiveWeight pr ∧
      accessed pr' = accessed pr ∧ checked pr' = checked pr
    else if neutral then
      rr' = set_probes (delete x (probeChecked rr)) rr ∧
      fails pr' = fails pr ∧ effectiveWeight pr' = effectiveWeight pr ∧
      accessed pr' = accessed pr ∧
      checked pr' = match probeChecked rr !! x with
        | Some pb => if checkedSeq pr =? seq pb then prior pb else checked pr
        | None => checked pr
        end
    else if failed then
      rr' = rr ∧ fails pr' = fails pr +! 1 ∧ accessed pr' = now ∧ checked pr' = now ∧
      (peer_ok pr → effectiveWeight pr' = Z.max 0 (effectiveWeight pr -
        if 0 <? MaxFails pr then Z.quot (Weight pr) (MaxFails pr) else 0))
    else
      rr' = rr ∧ effectiveWeight pr' = effectiveWeight pr ∧
      accessed pr' = accessed pr ∧ checked pr' = checked pr ∧
      fails pr' = if time_Before (accessed pr) (checked pr) then 0 else fails pr.
Proof.
  intros pr now. split; [done|].
  destruct (single (done_group rr pr)) eqn:Es.
  { eexists _, _. split; [by apply done_single_eq|]. cbn [heap set_heap].
    split; [intros q ?; by apply heap_insert_ne|]. rewrite heap_insert_eq. done. }
  destruct neutral.
  { pose proof (done_neutral_eq rr w x failed Es) as E. fold pr in E.
    destruct (probeChecked rr !! x) as [pb|] eqn:Ep.
    - eexists _, _. split; [exact E|]. cbn [heap set_heap].
      split; [intros q ?; by apply heap_insert_ne|]. rewrite heap_insert_eq.
      by destruct (checkedSeq pr =? seq pb).
    - eexists _, _. split; [exact E|]. cbn [heap set_heap].
      split; [intros q ?; by apply heap_insert_ne|]. rewrite heap_insert_eq.
      assert (rr = set_probes (delete x (probeChecked rr)) rr) as Hrr
        by (rewrite (delete_id _ _ Ep); by destruct rr).
      by split_and!. }
  eexists _, _. split; [by apply done_outcome_eq|]. cbn [heap set_heap tick].
  split; [intros q ?; by apply heap_insert_ne|]. rewrite heap_insert_eq. destruct failed.
  - fold pr now. rewrite fail_peer_eq. split_and!; try done. intros Hok.
    cbn [effectiveWeight set_conns set_weights].
    destruct (Z.ltb_spec 0 (MaxFails pr)) as [HM|]; [|by rewrite Z.sub_0_r].
    by destruct (penalty_bounds pr Hok HM) as [-> _].
  - unfold succeed_peer. fold pr. by destruct (time_Before _ _).
Qed.

(** What a selection did to the counters of the peer, one connection less. *)
Lemma selected_undone a pr b :
  tuned a pr → committed pr b → is_int (conns a) →
  conns b -! 1 = conns a ∧ fails b = fails a ∧ accessed b = accessed a.
Proof.
  intros Ht Hc Hint. destruct (tuned_checked _ _ Ht) as (_ & _ & Hac).
  rewrite (committed_conns _ _ Hc), (tuned_conns _ _ Ht).
  unfold int_sub, int_add. rewrite wrap_int_sub_l, Z.add_simpl_r, wrap_int_id by done.
  rewrite <-(tuned_fails _ _ Ht), <-Hac. by destruct Hc as [-> |[? ->]].
Qed.

(** C27: a cancelled request leaves no trace: the neutral release that follows a
    selection restores the connections, the failures and the timestamps of
    every peer, a consumed probe included, and the picker's record of probes. *)
Theorem neutral_release_undoes (rr rr1 : RRPicker) (w w1 : World) (x : PeerId) :
  rr_wf rr (heap w) → single (primary rr) = false → probeChecked rr !! x = None →
  RoundRobin.Pick rr w = Ret (Some x, rr1, w1) →
  ∃ rr2 w2, RoundRobin.doneNeutral (Some x) rr1 w1 = Ret (tt, rr2, w2) ∧
    probeChecked rr2 = probeChecked rr ∧
    ∀ q, let a := heap w !!! q in let b := heap w2 !!! q in
      static b = static a ∧ conns b = conns a ∧ fails b = fails a ∧
      accessed b = accessed a ∧ checked b = checked a.
Proof.
  intros Hwf Hs Hprobe E.
  pose proof (pick_law (P := RRPicker) rr w Hwf) as Hp.
  apply (proj1 (wp_eq _ _ _ _ _ _ _ E)) in Hp as ([_ [Hg Hb] _ Hr] & _ & _).
  cbn [rrp RRPicker_picker id] in *.
  destruct Hr as (Hx & _ & _ & [(pr & Ht & Hc) Ho] & Hprb & _).
  assert (is_int (conns (heap w !!! x))) as Hint.
  { destruct Hx as [Hx|[_ Hx]]; [by apply (gw_primary_ok _ _ _ Hwf x)|].
    unfold backup_members in Hx. destruct (backup rr) as [bg|] eqn:Eb;
      [by apply (gw_backup_ok _ _ _ Hwf bg Eb x)|by apply not_elem_of_nil in Hx]. }
  assert (static (heap w1 !!! x) = static (heap w !!! x)) as Hst
    by (rewrite (committed_static _ _ Hc); auto with cslb).
  assert (single (done_group rr1 (heap w1 !!! x)) = false) as Hsing.
  { unfold done_group. rewrite Hg, Hb. destruct (Backup _); [|done].
    destruct (backup rr) as [b|] eqn:Eb; [by apply (gw_backup_single _ _ _ Hwf)|done]. }
  destruct (selected_undone _ _ _ Ht Hc Hint) as (Hcn & Hfl & Hac).
  pose proof (done_neutral_eq rr1 w1 x false Hsing) as Ed.
  assert (∀ rr2 pr2, probeChecked rr2 = probeChecked rr → static pr2 = static (heap w1 !!! x) →
    fails pr2 = fails (heap w1 !!! x) → accessed pr2 = accessed (heap w1 !!! x) →
    checked pr2 = checked (heap w !!! x) →
    done (Some x) false true rr1 w1 = Ret (tt, rr2, set_heap
      (<[x := set_conns (conns (heap w1 !!! x) -! 1) pr2]> (heap w1)) w1) →
    ∃ rr2 w2, RoundRobin.doneNeutral (Some x) rr1 w1 = Ret (tt, rr2, w2) ∧
      probeChecked rr2 = probeChecked rr ∧
      ∀ q, let a := heap w !!! q in let b := heap w2 !!! q in
        static b = static a ∧ conns b = conns a ∧ fails b = fails a ∧
        accessed b = accessed a ∧ checked b = checked a) as Hfin.
  { intros rr2 pr2 Hp2 Hs2 Hf2 Ha2 Hc2 E2. eexists _, _. split; [exact E2|]. split; [done|].
    intros q. cbn [heap set_heap]. rewrite heap_insert.
    case_decide as Hq; [subst q; split_and!; [by rewrite <-Hst, <-Hs2|cbn; congruence..]|].
    pose proof (Ho q ltac:(done)) as Hq'. destruct (tuned_checked _ _ Hq') as (? & _ & ?).
    split_and!; auto with cslb. }
  destruct Hprb as [(Hpc & Hck & _)|(_ & _ & Hpc)]; rewrite Hpc in Ed.
  - rewrite Hprobe in Ed. by eapply Hfin, Ed.
  - rewrite lookup_insert_eq in Ed. cbn [seq prior] in Ed. rewrite Z.eqb_refl in Ed.
    eapply Hfin; [..|exact Ed]; try done. cbn. rewrite delete_insert_eq by done. by apply delete_id.
Qed.

Lemma done_accounting_witness :
  let rr := RoundRobin.NewPicker demo_rr.1 in
  done None true false rr demo_world = Ret (tt, rr, demo_world) ∧
  ∃ rr' w', done (Some 0%nat) true false rr demo_world = Ret (tt, rr', w') ∧
    fails (heap w' !!! 0%nat) = 1 ∧ effectiveWeight (heap w' !!! 0%nat) = 0.
Proof.
  intros rr. destruct (done_accounting rr demo_world 0 true false) as [Hnil (rr' & w' & E & Hacc)].
  split; [exact Hnil|]. exists rr', w'. split; [exact E|].
  destruct Hacc as (_ & _ & _ & _ & _ & Hf & _ & _ & He). split; [exact Hf|].
  apply He. destruct demo_wf as [_ _ Hok _ _ _]. apply Hok. by left.
Defined.

(** A recovering peer is probed, and the cancelled request gives the probe back. *)
Definition failing_world : World := MkWorld failing_heap demo_clock 0 0.
Definition probe_pick : option (RRPicker * World) :=
  match RoundRobin.Pick (RoundRobin.NewPicker demo_rr.1) failing_world with
  | Ret (Some 0%nat, rr, w) => Some (rr, w)
  | _ => None
  end.

Lemma neutral_release_undoes_witness :
  ∃ rr1 w1, probe_pick = Some (rr1, w1) ∧ checked (heap w1 !!! 0%nat) = demo_clock 0 ∧
    ∃ rr2 w2, RoundRobin.doneNeutral (Some 0%nat) rr1 w1 = Ret (tt, rr2, w2) ∧
    probeChecked rr2 = ∅ ∧
    ∀ q, let a := heap failing_world !!! q in let b := heap w2 !!! q in
      static b = static a ∧ conns b = conns a ∧ fails b = fails a ∧
      accessed b = accessed a ∧ checked b = checked a.
Proof.
  destruct probe_pick as [[rr1 w1]|] eqn:E; [|vm_compute in E; discriminate].
  exists rr1, w1. split; [reflexivity|].
  assert (RoundRobin.Pick (RoundRobin.NewPicker demo_rr.1) failing_world =
    Ret (Some 0%nat, rr1, w1)) as Ep by (vm_compute in E; injection E as <- <-; reflexivity).
  split; [vm_compute in E; injection E as <- <-; reflexivity|].
  apply (neutral_release_undoes (RoundRobin.NewPicker demo_rr.1) rr1 failing_world w1 0);
    [by apply failing_wf|reflexivity|reflexivity|exact Ep].
Defined.

(** ** Probes *)

(** A peer committed at [now]: its quarantine is renewed if it was over then. *)
Definition renewed (now : Time) (pr pr' : Peer) : Prop :=
  if FailTimeout pr <? time_Sub now (checked pr)
  then checked pr' = now ∧ checkedSeq pr' = wrap_u64 (checkedSeq pr + 1)
  else checked pr' = checked pr ∧ checkedSeq pr' = checkedSeq pr.

Lemma renewed_tuned now pr pr1 pr' : tuned pr pr1 → renewed now pr1 pr' → renewed now pr pr'.
Proof.
  intros Ht. unfold renewed. destruct (tuned_checked _ _ Ht) as (-> & -> & _).
  by destruct (static_fields _ _ (tuned_static _ _ Ht)) as (_ & _ & _ & _ & _ & -> & _).
Qed.

Lemma commitPeer_checked x now rr w :
  wp (commitPeer x now) (λ _ _ w', renewed now (heap w !!! x) (heap w' !!! x)) rr w.
Proof.
  unfold commitPeer, SetTried, renewed. wp_simpl. destruct (_ <? _); wp_simpl;
    unfold set_heap; cbn [heap]; by rewrite ?heap_insert_eq.
Qed.

Lemma wp_and {P A} (m : M P A) Q Q' p w :
  wp m Q p w → wp m Q' p w → wp m (λ a p' w', Q a p' w' ∧ Q' a p' w') p w.
Proof. unfold wp. by destruct (m p w) as [[[??]?]|]. Qed.

(** A peer that has failed enough is failed out at [t] after a check at [now]. *)
Definition on_probation (pr : Peer) : Prop := 0 < MaxFails pr ∧ MaxFails pr <= fails pr.

Lemma probation_failed_out pr t :
  on_probation pr → time_Sub t (checked pr) <= FailTimeout pr → failed_out pr t = true.
Proof.
  intros [HM Hf] Ht. unfold failed_out.
  by rewrite (proj2 (Z.ltb_lt _ _) HM), (proj2 (Z.leb_le _ _) Hf), (proj2 (Z.leb_le _ _) Ht).
Qed.

(** A selection at [now]: the peer was not failed out then, its quarantine is
    renewed, and if it was on probation this is its probe. *)
Definition probes (now : Time) (w : World) (r : option PeerId) (w' : World) : Prop :=
  ∀ x, r = Some x → failed_out (heap w !!! x) now = false ∧
    renewed now (heap w !!! x) (heap w' !!! x) ∧
    (on_probation (heap w !!! x) →
     on_probation (heap w' !!! x) ∧ checked (heap w' !!! x) = now).

Lemma commit_probe x now rr w w1 :
  htuned (heap w) (heap w1) → failed_out (heap w !!! x) now = false →
  wp (commitPeer x now) (λ r _ w', r = x ∧ probes now w (Some x) w') rr w1.
Proof.
  intros Hh Hno. eapply wp_mono; [apply wp_and; [apply commitPeer_spec|apply commitPeer_checked]|].
  intros r rr' w' [(-> & _ & _ & _ & _ & Hc & _) Hck]. split; [done|].
  apply (renewed_tuned _ _ _ _ (Hh x)) in Hck.
  intros ? [= <-]. do 2 (split; [done|]). intros Hprob. pose proof Hprob as [HM Hf].
  unfold failed_out in Hno. rewrite (proj2 (Z.ltb_lt _ _) HM), (proj2 (Z.leb_le _ _) Hf) in Hno.
  apply Z.leb_gt in Hno. unfold renewed in Hck. rewrite (proj2 (Z.ltb_lt _ _) Hno) in Hck.
  split; [|apply Hck]. specialize (Hh x).
  pose proof (static_fields _ _ (tuned_static _ _ Hh)) as (_ & _ & _ & _ & EM & _).
  pose proof (static_fields _ _ (committed_static _ _ Hc)) as (_ & _ & _ & _ & EM' & _).
  unfold on_probation. rewrite EM', EM. split; [done|].
  assert (fails (heap w' !!! x) = fails (heap w1 !!! x)) as -> by (by destruct Hc as [-> |[? ->]]).
  by rewrite (tuned_fails _ _ Hh).
Qed.

Lemma rr_ok_not_failed rr h now x : rr_ok rr h now x = true → failed_out (h !!! x) now = false.
Proof. by intros (_ & _ & ? & _)%rr_ok_true. Qed.

(** Smooth weighted selection with a pure eligibility test. *)
Lemma smooth_pure {P} (peers : list PeerId) (eligible : PeerId → M P bool)
    (e : PeerId → bool) (rr : P) w0 w :
  heap_ok (heap w0) peers → htuned (heap w0) (heap w) → wext w0 w →
  (∀ x w1, reweighted (heap w0) (heap w1) → eligible x rr w1 = Ret (e x, rr, w1)) →
  wp (smoothWeightedPeer peers eligible) (λ r rr' w', rr' = rr ∧ htuned (heap w0) (heap w') ∧
    match r with
    | Some x => x ∈ peers ∧ e x = true
    | None => ∀ x, x ∈ peers → e x = false
    end) rr w.
Proof.
  intros Hok Hh Hw He. eapply wp_mono.
  { apply (smoothWeightedPeer_sound rr (heap w0) w0 peers _ (λ x _, e x = true)
      (λ x _, e x = false)); try done.
    intros x w1 _ Hw1 Hh1. assert (reweighted (heap w0) (heap w1)) as Hr.
    { intros q. destruct (Hh1 q) as (cw & ew & ? & _). by exists cw, ew. }
    rewrite (wp_eq _ _ _ _ _ _ _ (He x w1 Hr)). split_and!; try done. by destruct (e x). }
  intros r rr' w' (-> & _ & ? & ?). done.
Qed.

Lemma pickFromGroup_probe group rr w :
  single group = false → heap_ok (heap w) (Peers group) →
  wp (pickFromGroup group) (λ r _ w', probes (clock w (ticks w)) w r w') rr w.
Proof.
  intros Hs Hok. unfold pickFromGroup. rewrite Hs. wp_simpl. set (now := clock w (ticks w)).
  eapply wp_mono.
  { apply (smooth_pure _ _ (rr_ok rr (heap w) now) rr w (tick w)); [done|done|apply wext_tick|].
    intros x w1 Hr. by apply rr_eligible_pure. }
  intros r rr' w' (-> & Hh & Hr). destruct r as [x|]; wp_simpl; [|by intros ?].
  destruct Hr as [_ Hr%rr_ok_not_failed].
  eapply wp_mono; [by apply (commit_probe x now rr w w')|].
  by intros r rr'' w'' [-> H].
Qed.

Lemma lc_pickFromGroup_probe group rr w :
  heap_ok (heap w) (Peers group) →
  wp (lc_pickFromGroup group) (λ r _ w', probes (clock w (ticks w)) w r w') rr w.
Proof.
  intros Hok. unfold lc_pickFromGroup. wp_simpl. set (now := clock w (ticks w)).
  rewrite (wp_eq _ _ _ _ _ _ _ (lc_scan_closed _ now None false rr (tick w))). cbn [heap tick].
  set (ys := filter (λ x, rr_ok rr (heap w) now x = true) (Peers group)).
  pose proof (lc_fold_some (heap w) ys None false) as Hsome.
  destruct (lc_fold (heap w) ys None false) as [[best|] many]; cbn [fst] in Hsome;
    [|wp_simpl; by intros ?].
  destruct Hsome as [|Hb]; [done|]. apply list_elem_of_filter in Hb as [Hb Hbin].
  apply wp_bind, wp_mono with (Q := λ r rr' w', rr' = rr ∧ htuned (heap w) (heap w') ∧
    ∃ x, r = Some x ∧ rr_ok rr (heap w) now x = true).
  - destruct many; wp_simpl; [|split_and!; [done|reflexivity|by exists best]].
    eapply wp_mono.
    { apply (smooth_pure _ _ (λ x, rr_ok rr (heap w) now x &&
        same_load (heap w !!! x) (heap w !!! best)) rr w (tick w)); [done|done|apply wext_tick|].
      intros x w1 Hr. by apply lc_tied_pure. }
    intros r rr' w' (-> & Hh & Hr). split_and!; [done|done|]. destruct r as [x|].
    + exists x. by destruct Hr as [_ [? _]%andb_true_iff].
    + specialize (Hr best Hbin). rewrite Hb in Hr. unfold same_load in Hr.
      by rewrite Z.eqb_refl in Hr.
  - intros r rr' w' (-> & Hh & x & -> & Hr). wp_simpl. eapply wp_mono.
    { apply (commit_probe x now rr w w'); [done|]. by apply (rr_ok_not_failed rr). }
    by intros r rr'' w'' [-> H].
Qed.

(** One probe at a time: when the round-robin or the least-connections
    choice gives a request a peer on probation, the peer is failed out again at
    once: until its [fail_timeout] has passed since that selection, no critical
    section of any request finds it available. *)
Theorem probe_exclusive (group : PeerGroup) (rr rr' : RRPicker) (w w' : World) (x : PeerId) :
  single group = false → heap_ok (heap w) (Peers group) → on_probation (heap w !!! x) →
  pickFromGroup group rr w = Ret (Some x, rr', w') ∨
  lc_pickFromGroup group rr w = Ret (Some x, rr', w') →
  ∀ t, time_Sub t (clock w (ticks w)) <= FailTimeout (heap w' !!! x) →
    failed_out (heap w' !!! x) t = true.
Proof.
  intros Hs Hok Hprob Hpick t Ht.
  assert (on_probation (heap w' !!! x) ∧ checked (heap w' !!! x) = clock w (ticks w)) as [Hp Hc];
    [|apply probation_failed_out; [done|by rewrite Hc]].
  destruct Hpick as [E|E].
  - pose proof (pickFromGroup_probe group rr w Hs Hok) as H.
    apply (proj1 (wp_eq _ _ _ _ _ _ _ E)) in H.
    destruct (H x eq_refl) as (_ & _ & Hp). by apply Hp.
  - pose proof (lc_pickFromGroup_probe group rr w Hok) as H.
    apply (proj1 (wp_eq _ _ _ _ _ _ _ E)) in H.
    destruct (H x eq_refl) as (_ & _ & Hp). by apply Hp.
Qed.


Lemma probe_exclusive_witness :
  match RoundRobin.pickFromGroup (rr_primary demo_rr.1) (RoundRobin.NewPicker demo_rr.1)
    failing_world with
  | Ret (Some 0%nat, _, w') => ∀ t, time_Sub t (demo_clock 0) <= 10 * Second →
      failed_out (heap w' !!! 0%nat) t = true
  | _ => False
  end.
Proof.
  destruct (pickFromGroup _ _ _) as [[[[x|] rr'] w']|] eqn:E; [|vm_compute in E; discriminate..].
  destruct x as [|x]; [|vm_compute in E; discriminate].
  assert (FailTimeout (heap w' !!! 0%nat) = 10 * Second) as HF
    by (vm_compute in E; injection E as <- <-; reflexivity).
  rewrite <-HF. apply (probe_exclusive (rr_primary demo_rr.1) (RoundRobin.NewPicker demo_rr.1)
    rr' failing_world w' 0).
  - reflexivity.
  - apply (failing_wf (RoundRobin.NewPicker demo_rr.1)); reflexivity.
  - split; [reflexivity|vm_compute; congruence].
  - left. exact E.
Defined.

(** A clock that is at the edge of the [fail_timeout] and moves on by a
    nanosecond a reading. *)
Definition edge (i : nat) : Time := MkTime (Z.of_nat i + 10 * Second) None.
Definition edge_pick (w : World) : outcome (option PeerId * ipHashPicker * World) :=
  IPHash.Pick (IPHash.NewPickerForIP (MkIPHash demo_rr.1) [10; 1; 2; 3]) w.

(** The hash pickers read the clock once for [commitPeer] and again in
    [peerAvailable]: at the edge of the [fail_timeout] the second reading finds
    the peer recovered while the first does not renew [checked], and the next
    request probes the peer too, long before another [fail_timeout] has passed.
    Here two address-hash requests in a row get the same peer on probation. *)
Theorem ip_hash_double_probe :
  let w := MkWorld failing_heap edge 0 0 in
  on_probation (heap w !!! 0%nat) ∧
  ∃ p1 w1 p2 w2, edge_pick w = Ret (Some 0%nat, p1, w1) ∧
    checked (heap w1 !!! 0%nat) = checked (heap w !!! 0%nat) ∧
    edge_pick w1 = Ret (Some 0%nat, p2, w2) ∧
    time_Sub (edge (ticks w2)) (edge 0%nat) < FailTimeout (heap w !!! 0%nat).
Proof.
  intros w. split; [split; vm_compute; congruence|].
  destruct (edge_pick w) as [[[r p1] w1]|] eqn:E1; [|vm_compute in E1; discriminate].
  destruct (edge_pick w1) as [[[r2 p2] w2]|] eqn:E2; vm_compute in E1; injection E1 as <- <- <-;
    vm_compute in E2; [|discriminate]. injection E2 as <- <- <-.
  eexists _, _, _, _. split; [reflexivity|]. split; [reflexivity|].
  split; [vm_compute; reflexivity|reflexivity].
Qed.
