(* ===== verification/Breaker.v ===== *)
(** * The circuit breaker: specification and one peer

    A peer that failed [MaxFails] times is quarantined for its [FailTimeout]
    and then probed by one request; a probe that is given back unused leaves the
    quarantine as it was.  The specification is a state machine over the history
    of the peer; what follows is how the fields of a peer and the records the
    requests' pickers keep of their probes ([probeChecked]) implement it, one
    event at a time. *)

From S2P Require Import Prelude GoLib Peer RoundRobin Picker SmoothWRR Release.
#[local] Open Scope Z_scope.
#[local] Open Scope go_scope.

(** ** The specification

    [q] is the request that selects or gives back the peer [y]. *)

Inductive event :=
  | Selected (q : nat) (y : PeerId) (at_ : Time)
  | Searched (q : nat) (y : PeerId) (begun : Time) (readings : list Time)
  | Reported (q : nat) (y : PeerId) (failed : bool) (at_ : Time)
  | Returned (q : nat) (y : PeerId).                     (* released neutrally *)

(** The failures since the last success; when the quarantine began or was
    renewed; and the probe under way, if the last renewal was one: the request
    that makes it, and what it would leave behind if it had not been made. *)
Record Breaker := MkBreaker {
  failures : Z;
  since : option Time;
  probe : option (nat * Time);
}.

Definition closed : Breaker := MkBreaker 0 None None.

Definition event_peer (e : event) : PeerId :=
  match e with Selected _ y _ | Searched _ y _ _ | Reported _ y _ _ | Returned _ y => y end.

Section breaker.
(** [max_fails] and [fail_timeout] of the peer. *)
Context (max_fails fail_timeout : Z).

(** The breaker is open: the peer is in quarantine since this time. *)
Definition open_since (b : Breaker) : option Time :=
  if (0 <? max_fails) && (max_fails <=? failures b) then since b else None.

(** The probe of [q] at [t], of a quarantine that began at [t0]. *)
Definition probed (q : nat) (t t0 : Time) (b : Breaker) : Breaker :=
  MkBreaker (failures b) (Some t) (Some (q, t0)).

(** A failure counts and begins a quarantine, and a success ends it.  A
    selection of a quarantined peer is a probe and renews the quarantine; a
    search does if the quarantine was over when it began.  A neutral release
    undoes the renewal if it was made by the same request and nobody failed or
    probed the peer since; any other neutral release changes nothing. *)
Definition react (b : Breaker) (e : event) : Breaker :=
  match e with
  | Selected q _ t => match open_since b with Some t0 => probed q t t0 b | None => b end
  | Searched q _ begun _ =>
      match open_since b with
      | Some t0 => if fail_timeout <? time_Sub begun t0 then probed q begun t0 b else b
      | None => b
      end
  | Reported _ _ true t => MkBreaker (failures b + 1) (Some t) None
  | Reported _ _ false _ => closed
  | Returned q _ =>
      match open_since b, probe b with
      | Some _, Some (q', t0) =>
          if decide (q' = q) then MkBreaker (failures b) (Some t0) None else b
      | _, _ => b
      end
  end.

Definition observe (x : PeerId) (b : Breaker) (e : event) : Breaker :=
  if decide (event_peer e = x) then react b e else b.

Definition observed (x : PeerId) (l : list event) : Breaker :=
  fold_left (observe x) l closed.

(** The breaker lets a selection of [x] pass: the quarantine is over at a reading
    of the clock with which the peer was tested. *)
Definition admits (x : PeerId) (b : Breaker) (e : event) : Prop :=
  ∀ t0, open_since b = Some t0 →
  match e with
  | Selected _ y t => y = x → fail_timeout < time_Sub t t0
  | Searched _ y _ ts => y = x → ∃ t, t ∈ ts ∧ fail_timeout < time_Sub t t0
  | _ => True
  end.
End breaker.

(** ** One peer

    [recs q] is what the picker of the request [q] remembers of its last probe of
    the peer. *)

Notation is_open pr := (open_since (MaxFails pr)).

(** What the fields of the peer and the pickers record of the breaker: an open
    breaker's time is the peer's [checked], and its probe is the one that a
    picker can still hand back. *)
Record implements (b : Breaker) (pr : Peer) (recs : nat → option probeCheck) : Prop := {
  im_nonneg : 0 <= failures b <= fails pr;
  im_since : ∀ t, is_open pr b = Some t → checked pr = t;
  im_probe : ∀ t, is_open pr b = Some t → ∀ q t0,
    probe b = Some (q, t0) ↔ recs q = Some (MkProbe t0 (checkedSeq pr));
}.

(** No picker remembers more than the last [n] versions of [checked]. *)
Definition recent (n : nat) (pr : Peer) (recs : nat → option probeCheck) : Prop :=
  ∀ q pb, recs q = Some pb → ∃ d, 0 <= d <= Z.of_nat n ∧ seq pb = wrap_u64 (checkedSeq pr - d).

Definition sound (n : nat) (b : Breaker) (pr : Peer) (recs : nat → option probeCheck) : Prop :=
  implements b pr recs ∧ recent n pr recs.

Lemma open_since_Some m b t :
  open_since m b = Some t → 0 < m ∧ m <= failures b ∧ since b = Some t.
Proof.
  unfold open_since. destruct (Z.ltb_spec 0 m), (Z.leb_spec m (failures b)); cbn; by try done.
Qed.

Lemma open_since_renewed m b b' t t' :
  failures b' = failures b → since b' = Some t' → open_since m b = Some t →
  open_since m b' = Some t'.
Proof. unfold open_since. intros -> ->. by destruct (_ && _). Qed.

Lemma open_probation b pr recs t :
  implements b pr recs → is_open pr b = Some t → on_probation pr ∧ checked pr = t.
Proof.
  intros [? Hs _] Ho. pose proof (open_since_Some _ _ _ Ho) as (? & ? & _).
  split; [split; lia|by apply Hs].
Qed.

Lemma not_failed_out pr t :
  failed_out pr t = false → on_probation pr → FailTimeout pr < time_Sub t (checked pr).
Proof.
  unfold failed_out. intros E [HM Hf].
  rewrite (proj2 (Z.ltb_lt _ _) HM), (proj2 (Z.leb_le _ _) Hf) in E. by apply Z.leb_gt in E.
Qed.

Lemma recent_mono n n' pr recs : (n ≤ n')%nat → recent n pr recs → recent n' pr recs.
Proof. intros Hn H q pb E. destruct (H q pb E) as (d & ? & ?). exists d. split; [lia|done]. Qed.

(** After a write of [checked] what was remembered is out of date. *)
Lemma outdated n pr pr' recs q pb :
  recent n pr recs → Z.of_nat n <= max_int → checkedSeq pr' = wrap_u64 (checkedSeq pr + 1) →
  recs q = Some pb →
  seq pb ≠ checkedSeq pr' ∧
  ∃ d, 0 <= d <= Z.of_nat (S n) ∧ seq pb = wrap_u64 (checkedSeq pr' - d).
Proof.
  intros Hr Hn Hc Hq. destruct (Hr q pb Hq) as (d & Hd & E). rewrite Hc, E.
  unfold wrap_u64, max_int in *. split.
  - intros Heq. Z.div_mod_to_equations. lia.
  - exists (d + 1). split; [lia|]. rewrite Zminus_mod_idemp_l. f_equal. lia.
Qed.

(** The peer keeps its breaker fields and the pickers what they remember. *)
Lemma sound_same n b pr pr' recs recs' :
  (∀ q, recs' q = recs q) → fails pr' = fails pr → MaxFails pr' = MaxFails pr →
  checked pr' = checked pr → checkedSeq pr' = checkedSeq pr →
  sound n b pr recs → sound n b pr' recs'.
Proof.
  intros Hrecs E1 E2 E3 E4 [[Hn Hs Hp] Hr]. split.
  - split; [by rewrite E1|by rewrite E2, E3|]. intros t. rewrite E2, E4. intros Ho q t0.
    rewrite Hrecs. by apply (Hp t).
  - intros q pb. rewrite Hrecs, E4. by apply Hr.
Qed.

Lemma sound_mono n n' b pr recs : (n ≤ n')%nat → sound n b pr recs → sound n' b pr recs.
Proof. intros Hn [? ?]. split; [done|by eapply recent_mono]. Qed.

(** [checked] is written: afterwards only the picker that did, if one, has a
    current record. *)
Lemma sound_written n b b' pr pr' recs recs' (who : option (nat * Time)) :
  sound n b pr recs → Z.of_nat n <= max_int →
  checkedSeq pr' = wrap_u64 (checkedSeq pr + 1) →
  0 <= failures b' <= fails pr' →
  (∀ t, is_open pr' b' = Some t → checked pr' = t ∧ probe b' = who) →
  (∀ q, match who with
        | Some (q0, t0) => if decide (q = q0) then recs' q = Some (MkProbe t0 (checkedSeq pr'))
                           else recs' q = recs q
        | None => recs' q = recs q ∨ recs' q = None
        end) →
  sound (S n) b' pr' recs'.
Proof.
  intros [_ Hr] Hn Hc Hf Ho Hrecs.
  assert (∀ q pb, recs' q = Some pb → (∃ t0, who = Some (q, t0) ∧ pb = MkProbe t0 (checkedSeq pr')) ∨
    recs q = Some pb) as Hcase.
  { intros q pb E. specialize (Hrecs q). destruct who as [[q0 t0]|]; [|destruct Hrecs; right; congruence].
    case_decide; [left|right; congruence]. exists t0. subst. split; congruence. }
  split; [split; [done|by apply Ho|]|].
  - intros t Hopen q t0. rewrite (proj2 (Ho t Hopen)). split.
    + intros ->. specialize (Hrecs q). by rewrite decide_True in Hrecs.
    + intros E. destruct (Hcase q _ E) as [(t1 & -> & [= ->])|E']; [done|].
      by destruct (outdated n pr pr' recs q _ Hr Hn Hc E').
  - intros q pb E. destruct (Hcase q pb E) as [(t0 & _ & ->)|E'].
    + exists 0. split; [lia|]. cbn [seq]. rewrite Z.sub_0_r, Hc. unfold wrap_u64. by rewrite Zmod_mod.
    + by destruct (outdated n pr pr' recs q pb Hr Hn Hc E').
Qed.

(** ** The events *)

Section events.
Context (n : nat) (b : Breaker) (pr pr' : Peer) (recs recs' : nat → option probeCheck).
Hypothesis Hsound : sound n b pr recs.
Hypothesis Hroom : Z.of_nat n <= max_int.
Notation next e := (react (MaxFails pr) (FailTimeout pr) b e).

(** What a picker does with its record when it commits the peer. *)
Definition remembers (q : nat) : Prop :=
  (∀ q', q' ≠ q → recs' q' = recs q') ∧
  ((recs' q = recs q ∧ checked pr' = checked pr ∧ checkedSeq pr' = checkedSeq pr) ∨
   (checkedSeq pr' = wrap_u64 (checkedSeq pr + 1) ∧
    recs' q = Some (MkProbe (checked pr) (checkedSeq pr')))).

(** The selection of [q] at [t] renewed the quarantine, or did not. *)
Lemma committed_sound q t b' :
  remembers q → renewed t pr pr' → fails pr' = fails pr → MaxFails pr' = MaxFails pr →
  (is_open pr b = None → b' = b) →
  (∀ t0, is_open pr b = Some t0 → b' = if FailTimeout pr <? time_Sub t t0 then probed q t t0 b else b) →
  sound (S n) b' pr' recs'.
Proof using Hsound Hroom.
  intros [Ho Hq] Hren Ef EM Hclosed Hopen. unfold renewed in Hren.
  pose proof Hsound as [Him _]. pose proof (im_nonneg _ _ _ Him) as Hn.
  assert (∀ c, wrap_u64 (c + 1) ≠ c) as Hne by (unfold wrap_u64; intros c; Z.div_mod_to_equations; lia).
  destruct (Z.ltb_spec (FailTimeout pr) (time_Sub t (checked pr))) as [Hlt|Hge].
  - destruct Hren as [Hck Hsq]. destruct Hq as [(_ & _ & E)|[_ Hrec]]; [by destruct (Hne (checkedSeq pr)); congruence|].
    apply (sound_written n b b' pr pr' recs recs' (Some (q, checked pr))); try done.
    + destruct (is_open pr b) as [t0|] eqn:E; [|by rewrite (Hclosed eq_refl), Ef].
      rewrite (Hopen t0 eq_refl). case_match; cbn [failures probed]; by rewrite Ef.
    + rewrite EM. intros t' Ht'. destruct (is_open pr b) as [t0|] eqn:E.
      * destruct (open_probation _ _ _ _ Him E) as [_ <-].
        rewrite (Hopen _ eq_refl), (proj2 (Z.ltb_lt _ _) Hlt) in *.
        by apply open_since_Some in Ht' as (_ & _ & [= <-]).
      * rewrite (Hclosed eq_refl) in Ht'. congruence.
    + intros q'. case_decide; [by subst|by apply Ho].
  - destruct Hren as [Hck Hsq]. destruct Hq as [(Hrec & _)|[E _]];
      [|by destruct (Hne (checkedSeq pr)); congruence].
    assert (b' = b) as ->.
    { destruct (is_open pr b) as [t0|] eqn:E; [|by apply Hclosed].
      destruct (open_probation _ _ _ _ Him E) as [_ <-].
      by rewrite (Hopen _ eq_refl), (proj2 (Z.ltb_ge _ _) Hge). }
    apply (sound_mono n); [lia|]. apply (sound_same n b pr pr' recs); try done.
    intros q'. destruct (decide (q' = q)) as [->|]; [done|by apply Ho].
Qed.

Lemma selected_sound q y t :
  remembers q → renewed t pr pr' → failed_out pr t = false →
  fails pr' = fails pr → MaxFails pr' = MaxFails pr →
  sound (S n) (next (Selected q y t)) pr' recs'.
Proof using Hsound Hroom.
  intros Hq Hren Hno Ef EM. apply (committed_sound q t); try done; cbn [react].
  - by intros ->.
  - intros t0 E. rewrite E. destruct (open_probation _ _ _ _ (proj1 Hsound) E) as [Hp <-].
    by rewrite (proj2 (Z.ltb_lt _ _) (not_failed_out _ _ Hno Hp)).
Qed.

Lemma searched_sound q y t ts :
  remembers q → renewed t pr pr' → fails pr' = fails pr → MaxFails pr' = MaxFails pr →
  sound (S n) (next (Searched q y t ts)) pr' recs'.
Proof using Hsound Hroom.
  intros Hq Hren Ef EM. apply (committed_sound q t); try done; cbn [react].
  - by intros ->.
  - by intros t0 ->.
Qed.

(** A health report; the counter of failures has room. *)
Lemma reported_sound q y (failed : bool) now c :
  (∀ q, recs' q = recs q) → fails pr + 1 <= max_int →
  pr' = set_conns c (if failed then fail_peer now pr else succeed_peer pr) →
  fails pr' <= fails pr + 1 ∧ sound (S n) (next (Reported q y failed now)) pr' recs'.
Proof using Hsound Hroom.
  intros Hrecs Hfit ->. pose proof Hsound as [[Hn _ _] Hr]. destruct failed; cbn [react].
  - rewrite fail_peer_eq.
    assert (fails pr +! 1 = fails pr + 1) as Ef by (unfold int_add; apply wrap_int_id; unfold is_int, min_int, max_int in *; lia).
    split; [cbn; lia|]. apply (sound_written n b _ pr _ recs recs' None); try done.
    + cbn. lia.
    + by intros t (_ & _ & [= <-])%open_since_Some.
    + intros q'. by left.
  - assert (∃ z, set_conns c (succeed_peer pr) = set_conns c (set_fails z pr) ∧ (z = 0 ∨ z = fails pr))
      as (z & -> & Hz).
    { destruct (succeed_peer_cases pr) as [-> | ->]; [by exists 0; auto|exists (fails pr)].
      split; [by destruct pr|by right]. }
    split; [cbn; lia|]. split; [split; [cbn; lia|by intros t (_ & _ & [=])%open_since_Some..]|].
    intros q' pb. rewrite Hrecs. apply (recent_mono n); [lia|done].
Qed.

(** A neutral release of [q] without a current record changes nothing. *)
Lemma returned_stale q y c :
  (∀ q', q' ≠ q → recs' q' = recs q') → recs' q = None → pr' = set_conns c pr →
  (∀ pb, recs q = Some pb → seq pb ≠ checkedSeq pr) →
  sound (S n) (next (Returned q y)) pr' recs'.
Proof using Hsound.
  intros Ho Hq -> Hstale. pose proof Hsound as [[Hn Hs Hp] Hr].
  assert (∀ t0, is_open pr b = Some t0 → ∀ t1, probe b ≠ Some (q, t1)) as Hno.
  { intros t0 E t1 Epb. apply (Hp t0 E), Hstale in Epb. by destruct Epb. }
  assert (next (Returned q y) = b) as ->.
  { cbn [react]. destruct (is_open pr b) as [t0|] eqn:E; [|done].
    destruct (probe b) as [[q' t1]|] eqn:Epb; [|done]. case_decide; [subst|done].
    by destruct (Hno t0 eq_refl t1). }
  split; [split; [done|done|]|].
  - intros t Ht q' t0. destruct (decide (q' = q)) as [->|]; [|by rewrite Ho by done; apply (Hp t)].
    rewrite Hq. split; [|done]. intros Epb. by destruct (Hno t Ht t0).
  - intros q' pb E. assert (recs q' = Some pb) as E'.
    { destruct (decide (q' = q)) as [->|]; [congruence|by rewrite <-Ho]. }
    by apply (recent_mono n (S n) pr recs ltac:(lia) Hr) in E'.
Qed.

(** A neutral release of [q]: it hands back the record of [q], if it is current. *)
Lemma returned_sound q y c :
  (∀ q', q' ≠ q → recs' q' = recs q') → recs' q = None →
  pr' = set_conns c (match recs q with
    | Some pb => if checkedSeq pr =? seq pb then setChecked (prior pb) pr else pr
    | None => pr
    end) →
  sound (S n) (next (Returned q y)) pr' recs'.
Proof using Hsound Hroom.
  intros Ho Hq Hpr. pose proof Hsound as [[Hn Hs Hp] Hr].
  destruct (recs q) as [pb|] eqn:Eq; [destruct (Z.eqb_spec (checkedSeq pr) (seq pb)) as [Es|Es]|].
  - apply (sound_written n b _ pr pr' recs recs' None); subst pr'; try done.
    + cbn [react]. repeat case_match; done.
    + intros t Ht. cbn [react MaxFails set_conns setChecked checked] in *.
      destruct (is_open pr b) as [t1|] eqn:E; [|congruence].
      assert (probe b = Some (q, prior pb)) as Epb.
      { apply (Hp t1 eq_refl). rewrite Eq, Es. by destruct pb. }
      rewrite Epb, decide_True in Ht |- * by done. cbn [probe].
      by apply open_since_Some in Ht as (_ & _ & [= ->]).
    + intros q'. destruct (decide (q' = q)) as [->|]; [by right|left; by apply Ho].
  - apply (returned_stale q y c); try done. intros pb' E'. congruence.
  - apply (returned_stale q y c); try done. intros pb' E'. congruence.
Qed.
End events.
