(* ===== verification/Golden.v ===== *)
(** * The nginx compatibility vectors (testdata/nginx_compatibility.json)

    The peers and mappings of the repository's golden file, evaluated on the
    model: the keyed hash, the address hash and the consistent hash choose the
    peers nginx chooses. *)

From S2P Require Import Prelude GoLib Peer RoundRobin Picker Candidates IPHash Hash CHash.
#[local] Open Scope Z_scope.
#[local] Open Scope string_scope.

(** ** The peers *)

Definition golden_heap : Heap :=
  <[2%nat := demo_peer "10.0.0.3:8080" 2]>
  (<[1%nat := demo_peer "10.0.0.2:8080" 3]> {[0%nat := demo_peer "10.0.0.1:8080" 5]}).
Definition golden_peers : list (option PeerId) := [Some 0%nat; Some 1%nat; Some 2%nat].
Definition golden_rr : RoundRobin * Heap := NewRoundRobin golden_peers golden_heap.
Definition golden_world : World := MkWorld golden_rr.2 demo_clock 0 0.

(** The address of the first peer a fresh picker selects. *)
Definition first_addr {P} `{Picker P} (pk : P) : option string :=
  match pick pk golden_world with
  | Ret (Some x, _, w) => Some (Addr (heap w !!! x))
  | _ => None
  end.

(** IPv6 addresses as their sixteen bytes. *)
Definition ipv6_db8_1 : list Z := [0x20; 0x01; 0x0d; 0xb8; 0; 0; 0; 0; 0; 0; 0; 0; 0; 0; 0; 1].
Definition ipv6_db8_1_42 : list Z :=
  [0x20; 0x01; 0x0d; 0xb8; 0; 1; 0; 0; 0; 0; 0; 0; 0; 0; 0; 0x42].
Definition ipv6_fd00_ffff : list Z := [0xfd; 0; 0; 0; 0; 0; 0; 0; 0; 0; 0; 0; 0; 0; 0xff; 0xff].

Definition golden_keys : list string :=
  ["/v1/users/1"; "/v1/users/2"; "session-alpha"; "session-beta"; "tenant:42";
   "tenant:9001"; "unicode-☃"; "with spaces"].
Definition golden_ips : list (list Z) :=
  [[192; 0; 2; 1]; [192; 0; 2; 254]; [198; 51; 100; 42]; [203; 0; 113; 9];
   ipv6_db8_1; ipv6_db8_1_42; ipv6_fd00_ffff].

Definition host (n : nat) : option string :=
  match n with
  | 1 => Some "10.0.0.1:8080" | 2 => Some "10.0.0.2:8080" | _ => Some "10.0.0.3:8080"
  end%nat.

(** ** The vectors

    Every key and every client address is mapped to the peer nginx maps it to, by
    the keyed hash, the address hash and the consistent hash. *)
Example nginx_golden_vectors :
  map (λ k, first_addr (Hash.NewPickerForKey (MkHash golden_rr.1) k)) golden_keys =
    map host [2; 1; 1; 2; 3; 2; 3; 3]%nat ∧
  map (λ ip, first_addr (IPHash.NewPickerForIP (MkIPHash golden_rr.1) ip)) golden_ips =
    map host [2; 2; 2; 1; 1; 1; 2]%nat ∧
  match NewHashConsistent golden_peers golden_heap with
  | Ret (hc, _) => map (λ k, first_addr (CHash.NewPickerForKey hc k)) golden_keys =
      map host [2; 1; 1; 3; 1; 2; 1; 1]%nat
  | Panic _ => False
  end.
Proof. split; [|split]; vm_compute; reflexivity. Qed.
