(* ===== verification/Concurrency.v ===== *)
(** * Interleaved requests

    Goroutines share the peers; each selection or release runs under the mutex
    of a group.  The units of interleaving are the critical sections of the
    code: a request is any sequence of them, those of other requests run
    between them.  [inflight] is the multiset of the peers that are selected
    and not yet released. *)

From S2P Require Import Prelude GoLib Peer RoundRobin Picker SmoothWRR LeastConn Candidates IPHash Hash CHash Random.
#[local] Open Scope Z_scope.
#[local] Open Scope go_scope.

(** ** Critical sections *)

(** The code that runs between [group.mu.Lock] and [Unlock] in a selection, with
    the picker that runs it. *)
Inductive section :=
  | sec_rr (group : PeerGroup) (rr : RRPicker)
  | sec_least_conn (group : PeerGroup) (rr : RRPicker)
  | sec_ip_hash (group : PeerGroup) (bytes : list Z) (p : ipHashPicker)
  | sec_hash (group : PeerGroup) (p : hashPicker)
  | sec_chash (group : PeerGroup) (p : chashPicker)
  | sec_random (group : PeerGroup) (p : randomPicker)
  | sec_random_two (group : PeerGroup) (p : randomPicker).

Definition result {P} (r : outcome (option PeerId * P * World)) : outcome (option PeerId * World) :=
  match r with
  | Ret (x, _, w) => Ret (x, w)
  | Panic why => Panic why
  end.

Definition run_section (s : section) (w : World) : outcome (option PeerId * World) :=
  match s with
  | sec_rr group rr => result (pickFromGroup group rr w)
  | sec_least_conn group rr => result (lc_pickFromGroup group rr w)
  | sec_ip_hash group bytes p => result (ip_loop group bytes p w)
  | sec_hash group p => result (hash_loop group p w)
  | sec_chash group p => result (chash_loop (points (balancer p)) group p w)
  | sec_random group p => result (one_loop group p w)
  | sec_random_two group p => result (two_loop group p w)
  end.

(** The round-robin picker that the picker of a section embeds, before and after
    it. *)
Definition section_rr (s : section) : RRPicker :=
  match s with
  | sec_rr _ rr | sec_least_conn _ rr => rr
  | sec_ip_hash _ _ p => ip_RRPicker p
  | sec_hash _ p => hp_RRPicker p
  | sec_chash _ p => ch_RRPicker p
  | sec_random _ p | sec_random_two _ p => rd_RRPicker p
  end.

Definition embedded {P} (rr : P → RRPicker) (r : outcome (option PeerId * P * World))
    : outcome (option PeerId * RRPicker * World) :=
  match r with
  | Ret (x, p, w) => Ret (x, rr p, w)
  | Panic why => Panic why
  end.

Definition run_picker (s : section) (w : World) : outcome (option PeerId * RRPicker * World) :=
  match s with
  | sec_rr group rr => embedded id (pickFromGroup group rr w)
  | sec_least_conn group rr => embedded id (lc_pickFromGroup group rr w)
  | sec_ip_hash group bytes p => embedded ip_RRPicker (ip_loop group bytes p w)
  | sec_hash group p => embedded hp_RRPicker (hash_loop group p w)
  | sec_chash group p => embedded ch_RRPicker (chash_loop (points (balancer p)) group p w)
  | sec_random group p => embedded rd_RRPicker (one_loop group p w)
  | sec_random_two group p => embedded rd_RRPicker (two_loop group p w)
  end.

(** What the code has established when it enters the section. *)
Definition section_ok (s : section) (h : Heap) : Prop :=
  match s with
  | sec_rr group _ => heap_ok h (Peers group) ∧ (single group = true → ∃ x, Peers group = [x])
  | sec_least_conn group _ => heap_ok h (Peers group) ∧ single group = false
  | sec_ip_hash group _ _ | sec_hash group _ => wrap_u32 (TotalWeight group) ≠ 0
  | sec_chash group p => heap_ok h (Peers group) ∧ on_ring p ∧ started p = true
  | sec_random group p | sec_random_two group p =>
      group = primary (rd_RRPicker p) ∧ ranged p ∧ (2 ≤ length (Peers group))%nat
  end.

(** The sections that test candidates one by one. *)
Definition searches (s : section) : bool :=
  match s with sec_rr _ _ | sec_least_conn _ _ => false | _ => true end.

(** ** The system *)

Record Sys := MkSys { sys_world : World; inflight : list PeerId }.

Inductive sys_step : Sys → Sys → Prop :=
  | step_section s w r w' fl :
      section_ok s (heap w) → run_section s w = Ret (r, w') →
      sys_step (MkSys w fl) (MkSys w' (option_list r ++ fl))
  | step_release rr x failed neutral rr' w w' fl1 fl2 :
      done (Some x) failed neutral rr w = Ret (tt, rr', w') →
      sys_step (MkSys w (fl1 ++ x :: fl2)) (MkSys w' (fl1 ++ fl2)).

(** The requests that hold a peer. *)
Definition holders (x : PeerId) (fl : list PeerId) : Z :=
  Z.of_nat (length (filter (λ y, y = x) fl)).

(** Configured and at rest: nothing selected yet. *)
Record initial (s : Sys) : Prop := {
  init_idle : inflight s = [];
  init_conns : ∀ x, conns (heap (sys_world s) !!! x) = 0;
  init_max : ∀ x, is_int (MaxConns (heap (sys_world s) !!! x));
}.

(** The accounting invariant. *)
Record accounted (s : Sys) : Prop := {
  acc_conns : ∀ x, conns (heap (sys_world s) !!! x) = wrap_int (holders x (inflight s));
  acc_max : ∀ x, 0 < MaxConns (heap (sys_world s) !!! x) →
    holders x (inflight s) <= MaxConns (heap (sys_world s) !!! x);
  acc_int : ∀ x, is_int (MaxConns (heap (sys_world s) !!! x));
}.

(** ** Sections *)

(** What a section does to the peers, whatever the algorithm. *)
Definition section_post (w : World) (r : option PeerId) (w' : World) : Prop :=
  wext w w' ∧
  match r with
  | None => htuned (heap w) (heap w')
  | Some x => hselected x (heap w) (heap w') ∧
      Down (heap w !!! x) = false ∧ conns_full (heap w !!! x) = false
  end.

Lemma cs_section members rr w r rr' w' : cs_post members rr w r rr' w' → section_post w r w'.
Proof.
  intros [Hw Hr]. split; [done|]. destruct r as [x|]; [|by destruct Hr].
  by destruct Hr as (_ & _ & _ & _ & _ & ? & _ & ? & ?).
Qed.

(** What a section finds was available at one of its readings of the clock. *)
Definition found (w : World) (r : option PeerId) (w' : World) : Prop :=
  ∀ x, r = Some x → choosable (heap w) x (clock w) (ticks w) (ticks w').

(** What a section does to the picker that runs it. *)
Definition picker_post (s : section) (w : World) (r : option PeerId) (rr' : RRPicker) (w' : World)
    : Prop :=
  (∃ members, cs_post members (section_rr s) w r rr' w') ∧ (searches s = true → found w r w').

Lemma loop_picker {P} (rr : P → RRPicker) members p w r p' w' :
  loop_post rr members p w r p' w' →
  (∃ members, cs_post members (rr p) w r (rr p') w') ∧ found w r w'.
Proof.
  destruct r as [x|]; [|intros (Hrr & ? & ?); split; [by exists members|done]].
  intros [Hcs He]. split; [by exists members|]. by intros ? [= <-].
Qed.

Lemma wp_embedded {P} (rr : P → RRPicker) (m : M P (option PeerId)) Q p w :
  wp m (λ r p' w', Q r (rr p') w') p w →
  ∃ r rr' w', embedded rr (m p w) = Ret (r, rr', w') ∧ Q r rr' w'.
Proof. intros (r & p' & w' & -> & ?)%wp_exists. cbn [embedded]. eauto. Qed.

Lemma section_picker s w :
  section_ok s (heap w) → ∃ r rr' w', run_picker s w = Ret (r, rr', w') ∧ picker_post s w r rr' w'.
Proof.
  unfold picker_post.
  intros Hok. destruct s as [g rr|g rr|g bytes p|g p|g p|g p|g p];
    cbn [section_ok run_picker section_rr] in *; apply wp_embedded.
  - destruct Hok as [Hok Hs]. destruct (single g) eqn:Es.
    + destruct (Hs eq_refl) as [x Hx].
      eapply wp_mono; [by apply (pickFromGroup_single g rr w x)|].
      intros r p' w' [Hcs _]. split; [by eexists|done].
    + eapply wp_mono; [by apply pickFromGroup_spec|].
      intros r p' w' [Hcs _]. split; [by eexists|done].
  - eapply wp_mono; [by apply lc_pickFromGroup_spec; apply Hok|].
    intros r p' w' [[Hcs _] _]. split; [by eexists|done].
  - eapply wp_mono; [by apply ip_loop_spec|]. intros r p' w' [Hr _].
    by apply loop_picker in Hr as [? ?].
  - eapply wp_mono; [by apply hash_loop_spec|]. intros r p' w' [Hr _].
    by apply loop_picker in Hr as [? ?].
  - destruct Hok as (Hok & Hring & Hst). unfold chash_loop. wp_simpl.
    eapply wp_mono; [by apply chash_for_loop_spec|]. intros r p' w' [Hr _].
    assert (loop_post ch_RRPicker (Peers g) p w r p' w') as [? ?]%loop_picker; [|done].
    revert Hr. apply (round_post_trans ch_RRPicker); [done|apply wext_tick|reflexivity].
  - destruct Hok as (-> & Hr & Hl). unfold one_loop. wp_simpl.
    eapply wp_mono; [apply (one_loop_spec p w); [done|done|apply wext_tick|reflexivity]|].
    intros r p' w' [Hp _]. by apply loop_picker in Hp as [? ?].
  - destruct Hok as (-> & Hr & Hl). unfold two_loop. wp_simpl.
    eapply wp_mono; [apply (two_loop_spec p w); [done|done|apply wext_tick|reflexivity]|].
    intros r p' w' [Hp _]. by apply (loop_picker rd_RRPicker) in Hp as [? ?].
Qed.

(** The peers alone. *)
Lemma run_section_picker s w :
  run_section s w = match run_picker s w with
                    | Ret (r, _, w') => Ret (r, w')
                    | Panic why => Panic why
                    end.
Proof.
  assert (∀ P (rr : P → RRPicker) r, result r = match embedded rr r with
    | Ret (x, _, w') => Ret (x, w')
    | Panic why => Panic why
    end) as H by (by intros P rr [[[? ?] ?]|]).
  destruct s; apply H.
Qed.

Lemma section_spec s w :
  section_ok s (heap w) → ∃ r w', run_section s w = Ret (r, w') ∧
    section_post w r w' ∧ (searches s = true → found w r w').
Proof.
  intros (r & rr' & w' & E & [[members Hcs] Hf])%section_picker. exists r, w'.
  rewrite run_section_picker, E. split; [done|]. split; [by eapply cs_section|done].
Qed.

(** ** The accounting invariant *)

Lemma holders_app x fl1 fl2 : holders x (fl1 ++ fl2) = holders x fl1 + holders x fl2.
Proof. unfold holders. rewrite filter_app, length_app. lia. Qed.

Lemma holders_cons x y fl : holders x (y :: fl) = (if decide (y = x) then 1 else 0) + holders x fl.
Proof. unfold holders. rewrite filter_cons. case_decide; cbn [length]; lia. Qed.

Lemma holders_nonneg x fl : 0 <= holders x fl.
Proof. unfold holders. lia. Qed.

Lemma accounted_initial (s : Sys) : initial s → accounted s.
Proof.
  intros [Hfl Hc Hm]. split; [intros x..|done]; rewrite Hfl; [by rewrite Hc|].
  unfold holders. cbn. lia.
Qed.

Lemma accounted_section w r w' fl :
  accounted (MkSys w fl) → section_post w r w' → accounted (MkSys w' (option_list r ++ fl)).
Proof.
  intros [Hc Hm Hi] [_ Hr]. cbn [sys_world inflight] in *. destruct r as [x|];
    [change (option_list (Some x) ++ fl) with (x :: fl)|].
  - destruct Hr as (Hs & _ & Hfull).
    assert (∀ q, MaxConns (heap w' !!! q) = MaxConns (heap w !!! q)) as Hmq.
    { intros q. pose proof (static_fields _ _ (hselected_static x _ _ q Hs)) as (_ & _ & _ & ? & _).
      done. }
    split; intros q; cbn [sys_world inflight]; rewrite ?Hmq; [| |apply Hi].
    + rewrite (hselected_conns x _ _ q Hs), holders_cons, Hc. destruct (decide (q = x)) as [->|].
      * rewrite decide_True by done. unfold int_add. rewrite wrap_int_add_l. f_equal. lia.
      * rewrite decide_False by congruence. f_equal.
    + rewrite holders_cons. intros Hpos. specialize (Hm q Hpos). case_decide as E; [|lia]. subst q.
      unfold conns_full in Hfull. rewrite (proj2 (Z.ltb_lt _ _) Hpos) in Hfull.
      apply Z.leb_gt in Hfull. rewrite Hc in Hfull. pose proof (holders_nonneg x fl).
      rewrite wrap_int_id in Hfull by (specialize (Hi x); unfold is_int, min_int in *; lia). lia.
  - assert (∀ q, MaxConns (heap w' !!! q) = MaxConns (heap w !!! q)) as Hmq.
    { intros q. pose proof (static_fields _ _ (tuned_static _ _ (Hr q))) as (_ & _ & _ & ? & _).
      done. }
    split; intros q; cbn [sys_world inflight]; rewrite ?Hmq; [|apply Hm|apply Hi].
    by rewrite (tuned_conns _ _ (Hr q)).
Qed.

Lemma accounted_release w w' x fl1 fl2 :
  accounted (MkSys w (fl1 ++ x :: fl2)) → released x (heap w) (heap w') →
  accounted (MkSys w' (fl1 ++ fl2)).
Proof.
  intros [Hc Hm Hi] (Hst & Hcx & Ho). cbn [sys_world inflight] in *.
  assert (∀ q, MaxConns (heap w' !!! q) = MaxConns (heap w !!! q)) as Hmq.
  { intros q. destruct (decide (q = x)) as [->|]; [|by rewrite Ho].
    by pose proof (static_fields _ _ Hst) as (_ & _ & _ & ? & _). }
  assert (∀ q, holders q (fl1 ++ x :: fl2) =
    (if decide (x = q) then 1 else 0) + holders q (fl1 ++ fl2)) as Hh.
  { intros q. rewrite !holders_app, holders_cons. lia. }
  split; intros q; cbn [sys_world inflight]; rewrite ?Hmq; [| |apply Hi].
  - specialize (Hc q). rewrite Hh in Hc. destruct (decide (q = x)) as [->|].
    + rewrite Hcx, Hc, decide_True by done. unfold int_sub. rewrite wrap_int_sub_l. f_equal. lia.
    + rewrite Ho, Hc, decide_False by congruence. f_equal.
  - intros Hpos. specialize (Hm q Hpos). rewrite Hh in Hm. case_decide; lia.
Qed.

(** What holds of one step of anyone. *)
Lemma sys_step_spec (s s' : Sys) :
  sys_step s s' →
  (accounted s → accounted s') ∧
  hsame (heap (sys_world s)) (heap (sys_world s')).
Proof.
  intros [sec w r w' fl Hok E|rr x failed neutral rr' w w' fl1 fl2 E].
  - destruct (section_spec sec w Hok) as (r' & w'' & E' & Hp & _).
    rewrite E in E'. injection E' as <- <-. split; [intros Ha; by eapply accounted_section|].
    destruct Hp as [_ Hr]. destruct r as [x|]; [by eapply hsame_selected, Hr|by apply hsame_tuned].
  - pose proof (done_released rr w x failed neutral) as H.
    apply (proj1 (wp_eq _ _ _ _ _ _ _ E)) in H as (_ & _ & _ & _ & Hrel & Hok).
    split; [intros Ha; by eapply accounted_release|by eapply hsame_released].
Qed.

(** ** Whole selections are sequences of sections *)

Definition reaches (w : World) (fl : list PeerId) (r : option PeerId) (w' : World) : Prop :=
  rtc sys_step (MkSys w fl) (MkSys w' (option_list r ++ fl)).

Lemma section_reaches s w r w' fl :
  section_ok s (heap w) → run_section s w = Ret (r, w') → reaches w fl r w'.
Proof. intros. by eapply rtc_once, step_section. Qed.

Lemma steps_hsame (s s' : Sys) : rtc sys_step s s' → hsame (heap (sys_world s)) (heap (sys_world s')).
Proof.
  induction 1 as [|s1 s2 s3 H12 _ IH]; [reflexivity|].
  etransitivity; [by apply sys_step_spec|done].
Qed.

Lemma reaches_hsame w fl r w' : reaches w fl r w' → hsame (heap w) (heap w').
Proof. apply steps_hsame. Qed.

Lemma reaches_none w fl w1 r w' : reaches w fl None w1 → reaches w1 fl r w' → reaches w fl r w'.
Proof. intros H1 H2. exact (transitivity (R := rtc sys_step) H1 H2). Qed.

(** A selection among the groups of a picker, section by section. *)
Lemma pickWithBackup_reaches pk rr w r rr' w' fl :
  (∀ g rr w r rr' w', heap_ok (heap w) (Peers g) → single g = false →
    pk g rr w = Ret (r, rr', w') → same_groups rr rr' ∧ reaches w fl r w') →
  rr_wf rr (heap w) → pickWithBackup pk rr w = Ret (r, rr', w') → reaches w fl r w'.
Proof.
  intros Hpk Hwf E.
  assert (∀ g rr1 w1 r rr1' w1', heap_ok (heap w1) (Peers g) →
    (single g = true → ∃ x, Peers g = [x]) →
    pickFromCurrentGroup g pk rr1 w1 = Ret (r, rr1', w1') →
    same_groups rr1 rr1' ∧ reaches w1 fl r w1') as Hcur.
  { intros g rr1 w1 r1 rr1' w1' Hok Hsing E1. unfold pickFromCurrentGroup in E1.
    destruct (single g) eqn:Es; [|by eapply Hpk].
    split; [|eapply (section_reaches (sec_rr g rr1)); [split; [done|by intros _; apply Hsing]|]; cbn; by rewrite E1].
    destruct (Hsing eq_refl) as [x Hx].
    pose proof (pickFromGroup_single g rr1 w1 x Es Hx) as H.
    apply (proj1 (wp_eq _ _ _ _ _ _ _ E1)) in H as [[_ H] _].
    destruct r1; [by apply H|]. destruct H as [-> _]. by split. }
  unfold pickWithBackup in E. rewrite (bind_Ret self _ _ _ _ _ _ eq_refl) in E.
  apply bind_inv in E as (p1 & rr1 & w1 & E1 & E2).
  assert (same_groups rr rr1 ∧ reaches w fl p1 w1) as [Hg1 Hr1].
  { destruct (backupPhase rr); cbn [negb] in E1; [injection E1 as <- <- <-; by split; [|apply rtc_refl]|].
    eapply Hcur; [apply (gw_primary_ok _ _ _ Hwf)| |exact E1].
    intros Hs. by destruct (gw_single _ _ _ Hwf Hs). }
  destruct p1 as [x|]; [by injection E2 as <- <- <-|].
  apply bind_inv in E2 as (g & rr2 & w2 & E2 & E3).
  assert (w2 = w1 ∧ ∀ b, g = Some b → backup rr = Some b) as [-> Hgb].
  { unfold backupGroupForPick in E2. rewrite (bind_Ret self _ _ _ _ _ _ eq_refl) in E2.
    rewrite (proj2 Hg1) in E2. destruct (backup rr) as [b|]; [|by injection E2 as <- _ <-].
    destruct (length (Peers b) =? 0)%nat; [by injection E2 as <- _ <-|].
    destruct (backupPhase rr1); cbn in E2; injection E2 as <- _ <-; by split; [|intros ? [= <-]]. }
  destruct g as [b|]; [|by injection E3 as <- _ <-].
  specialize (Hgb b eq_refl).
  pose proof (rr_wf_mono _ _ _ (reaches_hsame _ _ _ _ Hr1) Hwf) as Hwf1.
  eapply reaches_none; [exact Hr1|].
  eapply Hcur; [by apply (gw_backup_ok _ _ _ Hwf1)| |exact E3].
  intros Hs. by rewrite (gw_backup_single _ _ _ Hwf1 b Hgb) in Hs.
Qed.

Lemma rr_pick_reaches rr w r rr' w' fl :
  rr_wf rr (heap w) → RoundRobin.Pick rr w = Ret (r, rr', w') → reaches w fl r w'.
Proof.
  apply pickWithBackup_reaches. intros g rr1 w1 r1 rr1' w1' Hok Hs E. split.
  - pose proof (pickFromGroup_spec g rr1 w1 Hs Hok) as H.
    apply (proj1 (wp_eq _ _ _ _ _ _ _ E)) in H as [[_ H] _].
    destruct r1; [by apply H|]. destruct H as [-> _]. by split.
  - eapply (section_reaches (sec_rr g rr1)); [split; [done|congruence]|]. cbn. by rewrite E.
Qed.

Lemma lc_pick_reaches p w r p' w' fl :
  rr_wf (lc_RRPicker p) (heap w) → LeastConn.Pick p w = Ret (r, p', w') → reaches w fl r w'.
Proof.
  intros Hwf E. unfold LeastConn.Pick, zoom in E.
  destruct (pickWithBackup lc_pickFromGroup (lc_RRPicker p) w) as [[[r1 rr1] w1]|] eqn:E1; [|done].
  injection E as <- <- <-. revert Hwf E1. apply pickWithBackup_reaches.
  intros g rr2 w2 r2 rr2' w2' Hok Hs E. split.
  - pose proof (lc_pickFromGroup_spec g rr2 w2 Hok Hs) as H.
    apply (proj1 (wp_eq _ _ _ _ _ _ _ E)) in H as [[[_ H] _] _].
    destruct r2; [by apply H|]. destruct H as [-> _]. by split.
  - eapply (section_reaches (sec_least_conn g rr2)); [done|]. cbn. by rewrite E.
Qed.

(** The pickers that run a loop first and fall back to round-robin. *)
Lemma or_round_robin_reaches {P} (get : P → RRPicker) set loop s p w r p' w' fl :
  rr_wf (get p) (heap w) → section_ok s (heap w) →
  run_section s w = result (loop p w) →
  (∀ p1 w1, loop p w = Ret (None, p1, w1) → get p1 = get p) →
  or_round_robin get set loop p w = Ret (r, p', w') → reaches w fl r w'.
Proof.
  intros Hwf Hok Hs Hget E. unfold or_round_robin in E.
  apply bind_inv in E as (r1 & p1 & w1 & E1 & E2). rewrite E1 in Hs. cbn in Hs.
  pose proof (section_reaches s w r1 w1 fl Hok Hs) as H1.
  destruct r1 as [x|]; [by injection E2 as <- <- <-|].
  eapply reaches_none; [exact H1|]. unfold zoom in E2. rewrite (Hget p1 w1 E1) in E2.
  destruct (RoundRobin.Pick (get p) w1) as [[[r2 rr2] w2]|] eqn:E3; [|done].
  injection E2 as <- <- <-. eapply rr_pick_reaches; [|exact E3].
  eapply rr_wf_mono; [by eapply reaches_hsame|done].
Qed.

Lemma zoom_rr_reaches {P} (get : P → RRPicker) set p w r p' w' fl :
  rr_wf (get p) (heap w) → zoom get set RoundRobin.Pick p w = Ret (r, p', w') → reaches w fl r w'.
Proof.
  intros Hwf E. unfold zoom in E.
  destruct (RoundRobin.Pick (get p) w) as [[[r2 rr2] w2]|] eqn:E3; [|done].
  injection E as <- <- <-. by eapply rr_pick_reaches.
Qed.

Lemma wp_returned {P A} (m : M P A) Q p w a p' w' :
  wp m Q p w → m p w = Ret (a, p', w') → Q a p' w'.
Proof. intros H E. exact (proj1 (wp_eq _ _ _ _ _ _ _ E) H). Qed.

Definition by_sections (P : Type) `{PickerLaws P} : Prop := ∀ (p : P) w r p' w' fl,
  picker_wf p (heap w) → pick p w = Ret (r, p', w') → reaches w fl r w'.

Lemma ip_by_sections : by_sections ipHashPicker.
Proof.
  intros p w r p' w' fl [Hwf [Hp Hb]] E. cbn [pick ipHash_picker] in E.
  unfold IPHash.Pick in E. rewrite (bind_Ret self _ _ _ _ _ _ eq_refl) in E.
  destruct (Nat.ltb_spec (length (Peers (current_group (ip_RRPicker p)))) 2) as [|Hl];
    [by eapply zoom_rr_reaches, E|].
  destruct (hash_bytes (clientIP p)) as [bytes|]; [|by eapply zoom_rr_reaches, E].
  set (g := current_group (ip_RRPicker p)) in *.
  assert (wrap_u32 (TotalWeight g) ≠ 0) as Ht.
  { revert Hl. unfold g, current_group. destruct (backup _) as [b|] eqn:Eb; [|apply Hp].
    destruct (backupPhase _); [by apply Hb|apply Hp]. }
  eapply (or_round_robin_reaches ip_RRPicker set_RRPicker (ip_loop g bytes)
    (sec_ip_hash g bytes p)); [done|done|done| |exact E].
  intros p1 w1 E1. by apply (wp_returned _ _ _ _ _ _ _ (ip_loop_spec g bytes p w Ht)) in E1 as [[? _] _].
Qed.

Lemma hash_by_sections : by_sections hashPicker.
Proof.
  intros p w r p' w' fl [Hwf Hp] E. cbn [pick hash_picker] in E.
  unfold Hash.Pick in E. rewrite (bind_Ret self _ _ _ _ _ _ eq_refl) in E.
  destruct (_ =? "")%string; [by eapply zoom_rr_reaches, E|].
  destruct (Nat.ltb_spec (length (Peers (primary (hp_RRPicker p)))) 2) as [|Hl];
    [by eapply zoom_rr_reaches, E|].
  set (g := primary (hp_RRPicker p)) in *.
  eapply (or_round_robin_reaches hp_RRPicker set_hp_rr (hash_loop g) (sec_hash g p));
    [done|by apply Hp|done| |exact E].
  intros p1 w1 E1.
  by apply (wp_returned _ _ _ _ _ _ _ (hash_loop_spec g p w (Hp Hl))) in E1 as [[? _] _].
Qed.

Lemma chash_by_sections : by_sections chashPicker.
Proof.
  intros p w r p' w' fl [Hwf Hring] E. cbn [pick chash_picker] in E.
  unfold CHash.Pick in E. rewrite (bind_Ret self _ _ _ _ _ _ eq_refl) in E.
  destruct (single _ || _ || _) eqn:Eb; [by eapply zoom_rr_reaches, E|].
  apply orb_false_iff in Eb as [_ Hne%Nat.eqb_neq].
  assert (points (balancer p) ≠ []) as Hne' by (intros Hp; by rewrite Hp in Hne).
  destruct (start_walk_on_ring p Hne' Hring) as [Hring' Hst].
  set (p1 := start_walk (points (balancer p)) p) in *.
  assert (ch_RRPicker p1 = ch_RRPicker p ∧ balancer p1 = balancer p) as [Hrr Hbal]
    by (unfold p1, start_walk; by destruct (negb _)).
  rewrite (bind_Ret (update (start_walk (points (balancer p)))) _ p w tt p1 w eq_refl) in E.
  set (g := primary (ch_RRPicker p)) in *.
  assert (section_ok (sec_chash g p1) (heap w)) as Hok.
  { split_and!; try done. apply (gw_primary_ok _ _ _ Hwf). }
  eapply (or_round_robin_reaches ch_RRPicker set_ch_rr (chash_loop (points (balancer p)) g)
    (sec_chash g p1)); [by rewrite Hrr|done|cbn; by rewrite Hbal| |exact E].
  intros p2 w2 E2. unfold chash_loop in E2.
  rewrite (bind_Ret Now _ _ _ _ _ _ eq_refl), (bind_Ret self _ _ _ _ _ _ eq_refl) in E2.
  apply (wp_returned _ _ _ _ _ _ _ (chash_for_loop_spec g _ _ _ p1 (tick w)
    (proj1 Hok) Hring' Hst ltac:(by rewrite Hbal))) in E2 as [[? _] _]. done.
Qed.

Lemma random_by_sections : by_sections randomPicker.
Proof.
  intros p w r p' w' fl [Hwf Hr] E. cbn [pick random_picker] in E.
  unfold Random.Pick, pickTwo, pickOne in E. rewrite (bind_Ret self _ _ _ _ _ _ eq_refl) in E.
  destruct (two (rd_balancer p)); rewrite (bind_Ret self _ _ _ _ _ _ eq_refl) in E;
    destruct (Nat.ltb_spec (length (Peers (primary (rd_RRPicker p)))) 2) as [|Hl];
    try (by eapply zoom_rr_reaches, E).
  - eapply (or_round_robin_reaches rd_RRPicker set_rd_rr _ (sec_random_two _ p));
      [done|done|done| |exact E].
    intros p1 w1 E1. unfold two_loop in E1.
    rewrite (bind_Ret Now _ _ _ _ _ _ eq_refl), (bind_Ret self _ _ _ _ _ _ eq_refl) in E1.
    unfold zoom in E1. destruct (for_loop _ _ _ _ _) as [[[r1 s1] w1']|] eqn:E2; [|done].
    injection E1 as -> <- <-.
    by apply (wp_returned _ _ _ _ _ _ _ (two_loop_spec p w Hr Hl _ _ _ (tick w)
      ltac:(apply wext_tick) ltac:(reflexivity))) in E2 as [[? _] _].
  - eapply (or_round_robin_reaches rd_RRPicker set_rd_rr _ (sec_random _ p));
      [done|done|done| |exact E].
    intros p1 w1 E1. unfold one_loop in E1.
    rewrite (bind_Ret Now _ _ _ _ _ _ eq_refl), (bind_Ret self _ _ _ _ _ _ eq_refl) in E1.
    by apply (wp_returned _ _ _ _ _ _ _ (one_loop_spec p w Hr Hl _ _ _ (tick w)
      ltac:(apply wext_tick) ltac:(reflexivity))) in E1 as [[? _] _].
Qed.

(** ** Claims *)

(** C10: under every interleaving of the critical sections of any number of
    requests, with any mix of algorithms and any outcomes, the connection count
    of a peer is the number of requests that hold it, a peer with [max_conns]
    never has more, its configuration never changes, and its weights and
    counters stay in range. *)
Theorem interleaving_max_conns (s0 s : Sys) (x : PeerId) :
  initial s0 → rtc sys_step s0 s →
  let pr0 := heap (sys_world s0) !!! x in
  let pr := heap (sys_world s) !!! x in
  conns pr = wrap_int (holders x (inflight s)) ∧
  (0 < MaxConns pr0 → holders x (inflight s) <= MaxConns pr0 ∧ conns pr <= MaxConns pr0) ∧
  static pr = static pr0 ∧ (peer_ok pr0 → peer_ok pr).
Proof.
  intros Hinit Hsteps pr0 pr.
  assert (accounted s) as [Hc Hm Hi].
  { apply accounted_initial in Hinit. clear -Hsteps Hinit.
    induction Hsteps as [|s1 s2 s3 H12 _ IH]; [done|]. apply IH. by apply (sys_step_spec s1). }
  destruct (steps_hsame s0 s Hsteps) as [Hst Hok].
  assert (MaxConns pr = MaxConns pr0) as EM
    by (pose proof (static_fields _ _ (Hst x)) as (_ & _ & _ & ? & _); done).
  split_and!; [apply Hc| |apply Hst|apply Hok].
  intros Hpos. rewrite <-EM in Hpos |- *. specialize (Hm x Hpos). split; [done|].
  fold pr in Hm. unfold pr in *. rewrite Hc. pose proof (holders_nonneg x (inflight s)).
  rewrite wrap_int_id; [done|]. specialize (Hi x). unfold is_int, min_int in *. lia.
Qed.

(** C12: a selection of each algorithm is a sequence of the critical sections
    of the interleaving model and nothing else touches the shared peers, so
    what holds of every interleaving holds of the sequential behaviour. *)
Theorem picks_are_sections :
  by_sections RRPicker ∧ by_sections leastConnPicker ∧ by_sections ipHashPicker ∧
  by_sections hashPicker ∧ by_sections chashPicker ∧ by_sections randomPicker.
Proof.
  split_and!; [| |apply ip_by_sections|apply hash_by_sections|apply chash_by_sections
    |apply random_by_sections].
  - intros p w r p' w' fl Hwf E. by eapply rr_pick_reaches, E.
  - intros p w r p' w' fl [Hwf _] E. by eapply lc_pick_reaches, E.
Qed.

(** Two peers that take one connection each, and two requests. *)
Definition tight_peer (addr : string) : Peer :=
  MkPeer addr 1 false 1 0 0 false 0 0 0 0 0 zero_time zero_time 0.
Definition tight_rr : RoundRobin * Heap :=
  NewRoundRobin [Some 0%nat; Some 1%nat] (<[1%nat := tight_peer "b"]> {[0%nat := tight_peer "a"]}).
Definition tight_world : World := MkWorld tight_rr.2 demo_clock 0 0.
Definition tight_section : section := sec_rr (rr_primary tight_rr.1) (RoundRobin.NewPicker tight_rr.1).

Definition next_world (s : section) (w : World) : World :=
  match run_section s w with Ret (_, w') => w' | Panic _ => w end.
Definition tight_world2 : World := next_world tight_section (next_world tight_section tight_world).

(** A test that holds of every peer written and of the zero peer. *)
Lemma heap_forall (Q : Peer → bool) (h : Heap) x :
  forallb (λ kv, Q (snd kv)) (map_to_list h) = true → Q zero_peer = true → Q (h !!! x) = true.
Proof.
  intros H Hz. rewrite lookup_total_alt. destruct (h !! x) as [pr|] eqn:E; [|done].
  apply elem_of_map_to_list in E. rewrite forallb_forall in H.
  apply (H (x, pr)). by apply list_elem_of_In.
Qed.

Definition in_int (z : Z) : bool := (min_int <=? z) && (z <=? max_int).

Lemma interleaving_max_conns_witness :
  let pr0 := heap tight_world !!! 0%nat in
  let pr := heap tight_world2 !!! 0%nat in
  conns pr = wrap_int (holders 0 [1%nat; 0%nat]) ∧
  (0 < MaxConns pr0 → holders 0 [1%nat; 0%nat] <= MaxConns pr0 ∧ conns pr <= MaxConns pr0) ∧
  static pr = static pr0 ∧ (peer_ok pr0 → peer_ok pr).
Proof.
  apply (interleaving_max_conns (MkSys tight_world []) (MkSys tight_world2 [1%nat; 0%nat]) 0).
  - split; [reflexivity|intros x; cbn [sys_world]..].
    + apply Z.eqb_eq. apply (heap_forall (λ pr, conns pr =? 0)); vm_compute; reflexivity.
    + assert (in_int (MaxConns (heap tight_world !!! x)) = true) as [?%Z.leb_le ?%Z.leb_le]%andb_true_iff
        by (apply (heap_forall (λ pr, in_int (MaxConns pr))); vm_compute; reflexivity).
      by split.
  - eapply rtc_l; [|eapply rtc_l; [|apply rtc_refl]].
    + apply (step_section tight_section tight_world (Some 0%nat) (next_world tight_section tight_world));
        [|vm_compute; reflexivity].
      split; [|discriminate]. intros x Hx.
      apply elem_of_cons in Hx as [-> | ->%list_elem_of_singleton]; split; vm_compute; split; congruence.
    + apply (step_section tight_section _ (Some 1%nat) tight_world2); [|vm_compute; reflexivity].
      split; [|discriminate]. intros x Hx.
      apply elem_of_cons in Hx as [-> | ->%list_elem_of_singleton]; split; vm_compute; split; congruence.
Defined.
