(* ===== verification/Searches.v ===== *)
(** * The candidate loops and the clock

    The hash and random pickers read the clock when they enter their critical
    section and again for every candidate they test.  The peer they find is
    committed with the first reading: [stamped]. *)

From S2P Require Import Prelude GoLib Peer RoundRobin Picker SmoothWRR Candidates IPHash Hash CHash Random Release Concurrency.
#[local] Open Scope Z_scope.
#[local] Open Scope go_scope.

(** What is found is committed at [now]. *)
Definition stamped (now : Time) (w : World) (r : option PeerId) (w' : World) : Prop :=
  ∀ x, r = Some x → renewed now (heap w !!! x) (heap w' !!! x).

Lemma stamped_tuned now w0 w r w' :
  htuned (heap w0) (heap w) → stamped now w r w' → stamped now w0 r w'.
Proof. intros Hh Hs x Hx. by eapply renewed_tuned, Hs. Qed.

(** ** Steps that leave the peers alone *)

Definition still {P A} (m : M P A) : Prop :=
  ∀ p w a p' w', m p w = Ret (a, p', w') → heap w' = heap w.

Lemma still_bind {P A B} (m : M P A) (k : A → M P B) :
  still m → (∀ a, still (k a)) → still (m ≫= k).
Proof.
  intros Hm Hk p w b p' w' (a & p1 & w1 & E1 & E2)%bind_inv.
  etransitivity; [by eapply Hk|by eapply Hm].
Qed.

Lemma still_ret {P A} (a : A) : still (P := P) (mret a).
Proof. by intros p w ? ? ? [= <- <- <-]. Qed.
Lemma still_throw {P A} why : still (P := P) (A := A) (throw why).
Proof. done. Qed.
Lemma still_self {P} : still (P := P) self.
Proof. by intros p w ? ? ? [= <- <- <-]. Qed.
Lemma still_update {P} (f : P → P) : still (update f).
Proof. by intros p w ? ? ? [= <- <- <-]. Qed.
Lemma still_load {P} x : still (P := P) (load x).
Proof. by intros p w ? ? ? [= <- <- <-]. Qed.
Lemma still_Now {P} : still (P := P) Now.
Proof. by intros p w ? ? ? [= <- <- <-]. Qed.
Lemma still_select {P} peers v : still (P := P) (select peers v).
Proof. by intros p w ? ? ? [= <- <- <-]. Qed.
Lemma still_index {P A} (l : list A) i : still (P := P) (index l i).
Proof. intros p w a p' w'. unfold index. destruct (l !! i); [by intros [= <- <- <-]|done]. Qed.
Lemma still_zoom {P Q A} (get : P → Q) set (m : M Q A) : still m → still (zoom get set m).
Proof.
  intros Hm p w a p' w'. unfold zoom. destruct (m (get p) w) as [[[b q] w1]|] eqn:E; [|done].
  intros [= <- <- <-]. by eapply Hm.
Qed.

#[local] Hint Resolve still_bind still_ret still_throw still_self still_update still_load still_Now
  still_select still_index still_zoom : still.
#[local] Ltac still := repeat first
  [ progress eauto 2 with still | apply still_bind; [|intros ?] | case_match ].

Lemma still_mod_total {P} hash total : still (P := P) (mod_total hash total).
Proof. unfold mod_total. still. Qed.
Lemma still_peerAvailable {P} x : still (P := P) (peerAvailable x).
Proof. unfold peerAvailable. still. Qed.
#[local] Hint Resolve still_mod_total still_peerAvailable : still.
Lemma still_candidate_ok {P} (rr : P → RRPicker) x : still (candidate_ok rr x).
Proof. unfold candidate_ok. still. Qed.
Lemma still_two_rejected x : still (two_rejected x).
Proof. unfold two_rejected. still. Qed.

Lemma still_range_search {P} fuel rs x lo hi : still (P := P) (range_search fuel rs x lo hi).
Proof. revert lo hi. induction fuel as [|fuel IH]; intros lo hi; cbn [range_search]; still. Qed.
Lemma still_randomSelect g : still (randomSelect g).
Proof.
  unfold randomSelect. case_match; [still|]. apply still_bind; [by intros p w ? ? ? [= <- <- <-]|].
  intros x. apply still_bind; [still|]. intros p. apply still_bind; [apply still_range_search|]. still.
Qed.
Lemma still_point_server pts : still (point_server pts).
Proof. unfold point_server. still. Qed.
#[local] Hint Resolve still_candidate_ok still_two_rejected still_randomSelect still_point_server
  : still.

(** ** Rounds *)

(** A round that commits what it returns at [now], under an invariant. *)
Definition commits {P} (I : P → World → Prop) (now : Time) (m : M P round) : Prop :=
  ∀ p w r p' w', I p w → m p w = Ret (r, p', w') →
  match r with
  | Return x => stamped now w (Some x) w'
  | Continue => htuned (heap w) (heap w') ∧ I p' w'
  | Break => True
  end.

Lemma for_loop_stamped {P} I now fuel cond (body : M P round) :
  commits I now body → ∀ p w r p' w',
  I p w → for_loop fuel cond body p w = Ret (r, p', w') → stamped now w r w'.
Proof.
  intros Hb. induction fuel as [|fuel IH]; intros p w r p' w' HI; cbn [for_loop].
  { by intros [= <- <- <-]. }
  rewrite (bind_Ret self _ _ _ _ _ _ eq_refl). destruct (cond p); [|by intros [= <- <- <-]].
  intros (rr & p1 & w1 & E1 & E2)%bind_inv. specialize (Hb _ _ _ _ _ HI E1).
  destruct rr as [| |x]; [|by injection E2 as <- <- <-..].
  destruct Hb as [Hh HI1]. eapply stamped_tuned; [exact Hh|]. by eapply IH.
Qed.

Definition always {P} (p : P) (w : World) : Prop := True.

Lemma commits_still {P A} now (m : M P A) (k : A → M P round) :
  still m → (∀ a, commits always now (k a)) → commits always now (m ≫= k).
Proof.
  intros Hm Hk p w r p' w' _ (a & p1 & w1 & E1 & E2)%bind_inv.
  specialize (Hk a p1 w1 r p' w' I E2). apply Hm in E1.
  assert (htuned (heap w) (heap w1)) as Hh by (by rewrite E1).
  destruct r; [|done|by eapply stamped_tuned]. destruct Hk. split; [by etransitivity|done].
Qed.

Lemma commits_break {P} now : commits (P := P) always now (mret Break).
Proof. by intros p w r p' w' _ [= <- <- <-]. Qed.
Lemma commits_continue {P} now : commits (P := P) always now (mret Continue).
Proof. by intros p w r p' w' _ [= <- <- <-]. Qed.

Lemma commit_stamped x now rr w r rr' w' :
  commitPeer x now rr w = Ret (r, rr', w') → stamped now w (Some x) w'.
Proof.
  intros E. pose proof (commitPeer_checked x now rr w) as H. rewrite (wp_eq _ _ _ _ _ _ _ E) in H.
  by intros ? [= <-].
Qed.

(** The peer is committed; what follows returns it. *)
Lemma commits_commit {P} (get : P → RRPicker) set now x (k : PeerId → M P round) :
  (∀ a, still (k a)) →
  (∀ a p w r p' w', k a p w = Ret (r, p', w') → r = Return x) →
  commits always now (zoom get set (commitPeer x now) ≫= k).
Proof.
  intros Hk Hr p w r p' w' _ (a & p1 & w1 & E1 & E2)%bind_inv.
  rewrite (Hr _ _ _ _ _ _ E2). apply Hk in E2. unfold zoom in E1.
  destruct (commitPeer x now (get p) w) as [[[y rr] w2]|] eqn:E; [|done]. injection E1 as -> _ ->.
  apply commit_stamped in E. intros y [= <-]. rewrite E2. by apply E.
Qed.

#[local] Hint Resolve commits_break commits_continue : still.
#[local] Ltac commits := repeat first
  [ lazymatch goal with
    | |- commits _ _ (zoom _ _ (commitPeer _ _) ≫= _) =>
        apply commits_commit; [intros ?; still|by intros ? ? ? ? ? ? [= <- _ _]]
    | |- commits _ _ (_ ≫= _) => apply commits_still; [still|intros ?]
    | |- commits _ _ (mret Break) => apply commits_break
    | |- commits _ _ (mret Continue) => apply commits_continue
    end
  | case_match ].

Lemma ip_round_commits g bytes now : commits always now (ip_round g bytes now).
Proof. unfold ip_round. commits. Qed.

Lemma hash_round_commits g now : commits always now (hash_round g now).
Proof. unfold hash_round. commits. Qed.

Lemma one_round_commits g now : commits always now (one_round g now).
Proof. unfold one_round. commits. Qed.

Lemma two_round_commits g now : commits always now (two_round g now).
Proof. unfold two_round. commits. Qed.

(** The round of the ring changes weights before it commits. *)
Definition chash_inv (pts : list chashPoint) (g : PeerGroup) (p : chashPicker) (w : World) : Prop :=
  heap_ok (heap w) (Peers g).

Lemma chash_round_commits pts g now : commits (chash_inv pts g) now (chash_round pts g now).
Proof.
  intros p w r p' w' Hok (server & p1 & w1 & E1 & E)%bind_inv. unfold chash_inv in *.
  apply still_point_server in E1. rewrite <-E1 in Hok.
  apply bind_inv in E as (best & p2 & w2 & E2 & E).
  pose proof (smoothWeightedPeer_sound p1 (heap w1) w1 (Peers g) (chash_eligible server)
    (λ _ _, True) (λ _ _, True) ltac:(done) ltac:(done) Hok) as Hs.
  assert (htuned (heap w1) (heap w2)) as Hh.
  { assert (wp (smoothWeightedPeer (Peers g) (chash_eligible server))
      (λ _ _ w, htuned (heap w1) (heap w)) p1 w1) as Hwp.
    - eapply wp_mono; [apply Hs; [|done|done]|by intros ? ? ? (_ & _ & ? & _)].
      intros x w3 _ Hw Hh. eapply wp_mono; [by apply (chash_eligible_spec server w1)|].
      intros b ? ? (? & ? & ? & _). split_and!; [done..|by destruct b].
    - by rewrite (wp_eq _ _ _ _ _ _ _ E2) in Hwp. }
  rewrite E1 in Hh. destruct best as [x|].
  - assert (r = Return x) as -> by (by apply bind_inv in E as (? & ? & ? & _ & [= <- _ _])).
    apply (commits_commit _ _ now x (λ _, mret (Return x))) in E;
      [|intros _; apply still_ret|by intros ? ? ? ? ? ? [= <- _ _]|done].
    by eapply stamped_tuned.
  - injection E as <- <- <-. split; [done|]. intros x Hx. rewrite E1 in Hok.
    by eapply tuned_ok; [apply Hh|apply Hok].
Qed.

(** ** Sections *)

(** A section is a loop behind the first reading of the clock. *)
Lemma loop_stamped {P Q} I (get : P → Q) set fuel cond (body : Time → M Q round) p w r w' :
  (∀ now, commits I now (body now)) → I (get p) (tick w) →
  result (zoom get set (for_loop fuel cond (body (clock w (ticks w)))) p (tick w)) = Ret (r, w') →
  stamped (clock w (ticks w)) w r w'.
Proof.
  intros Hb HI. unfold result, zoom. destruct (for_loop _ _ _ _ _) as [[[r1 q] w1]|] eqn:E; [|done].
  intros [= -> ->]. by apply (for_loop_stamped _ _ _ _ _ (Hb _) _ _ _ _ _ HI E).
Qed.

Lemma result_zoom_id {P} (m : M P (option PeerId)) p w :
  result (m p w) = result (zoom id (λ q _, q) m p w).
Proof. unfold zoom, id. by destruct (m p w) as [[[? ?] ?]|]. Qed.

Lemma section_stamped s w r w' :
  searches s = true → section_ok s (heap w) → run_section s w = Ret (r, w') →
  stamped (clock w (ticks w)) w r w'.
Proof.
  intros Hs Hok. destruct s as [g rr|g rr|g bytes p|g p|g p|g p|g p]; try discriminate Hs;
    cbn [run_section section_ok] in *;
    unfold ip_loop, hash_loop, chash_loop, one_loop, two_loop;
    rewrite (bind_Ret Now _ _ _ _ _ _ eq_refl), (bind_Ret self _ _ _ _ _ _ eq_refl).
  - by apply (loop_stamped always), I; intros now; apply ip_round_commits.
  - rewrite result_zoom_id. by apply (loop_stamped always), I; intros now; apply hash_round_commits.
  - rewrite result_zoom_id. apply (loop_stamped (chash_inv (points (balancer p)) g)); [|apply Hok].
    intros now. apply chash_round_commits.
  - rewrite result_zoom_id. by apply (loop_stamped always), I; intros now; apply one_round_commits.
  - by apply (loop_stamped always), I; intros now; apply two_round_commits.
Qed.
