(* ===== verification/Health.v ===== *)
(** * The circuit breaker of a peer, in any interleaving

    The executions are those of the critical sections of requests, whatever
    their algorithm, and of their releases, in any order and on any number of
    goroutines; every peer behaves as its circuit breaker says (see Breaker).
    Round-robin and least connections read the clock once; the hash and random
    pickers search with a reading per candidate and commit with an earlier one,
    so that a search at the edge of the quarantine may not renew it (see
    [ip_hash_double_probe]). *)

From stdpp Require Import functions.
From S2P Require Import Prelude GoLib Peer RoundRobin Picker SmoothWRR LeastConn Candidates IPHash Guarantees Release Breaker Hash CHash Random Concurrency Searches.
#[local] Open Scope Z_scope.
#[local] Open Scope go_scope.

(** ** The executions *)

Definition selection (q : nat) (r : option PeerId) (t : Time) : list event :=
  match r with Some y => [Selected q y t] | None => [] end.

Definition search (q : nat) (r : option PeerId) (t : Time) (ts : list Time) : list event :=
  match r with Some y => [Searched q y t ts] | None => [] end.

(** The readings of the clock between two worlds. *)
Definition readings (w w' : World) : list Time :=
  clock w <$> List.seq (ticks w) (ticks w' - ticks w).

(** The peers, and what the picker of each request remembers of its probes; a
    request that has not begun has none, as [NewPicker] makes it. *)
Record Pool := MkPool { world : World; records : nat → gmap nat probeCheck }.

Definition fresh_pool (w : World) : Pool := MkPool w (λ _, ∅).

Definition now_of (s : Pool) : Time := clock (world s) (ticks (world s)).

(** The request [q] ran: its picker is now [rr']. *)
Definition after (q : nat) (rr' : RRPicker) (s : Pool) (w' : World) : Pool :=
  MkPool w' (<[q := probeChecked rr']> (records s)).

(** A critical section of a selection or a release by the request [q], with the
    reading of the clock it begins with; upstreams of a single peer do not use
    the breaker. *)
Inductive health_step : Pool → list event → Pool → Prop :=
  | hs_round_robin q group rr r rr' s w' :
      single group = false → heap_ok (heap (world s)) (Peers group) →
      probeChecked rr = records s q →
      pickFromGroup group rr (world s) = Ret (r, rr', w') →
      health_step s (selection q r (now_of s)) (after q rr' s w')
  | hs_least_conn q group rr r rr' s w' :
      single group = false → heap_ok (heap (world s)) (Peers group) →
      probeChecked rr = records s q →
      lc_pickFromGroup group rr (world s) = Ret (r, rr', w') →
      health_step s (selection q r (now_of s)) (after q rr' s w')
  | hs_search q sec r rr' s w' :
      searches sec = true → section_ok sec (heap (world s)) →
      probeChecked (section_rr sec) = records s q →
      run_picker sec (world s) = Ret (r, rr', w') →
      health_step s (search q r (now_of s) (readings (world s) w')) (after q rr' s w')
  | hs_report q rr y failed rr' s w' :
      single (done_group rr (heap (world s) !!! y)) = false →
      probeChecked rr = records s q →
      done (Some y) failed false rr (world s) = Ret (tt, rr', w') →
      health_step s [Reported q y failed (now_of s)] (after q rr' s w')
  | hs_return q rr y failed rr' s w' :
      single (done_group rr (heap (world s) !!! y)) = false →
      probeChecked rr = records s q →
      done (Some y) failed true rr (world s) = Ret (tt, rr', w') →
      health_step s [Returned q y] (after q rr' s w').

Inductive execution : Pool → list event → Pool → Prop :=
  | execution_refl s : execution s [] s
  | execution_step s es s1 l s' :
      health_step s es s1 → execution s1 l s' → execution s (es ++ l) s'.

(** These are steps of the interleaving model. *)
Lemma health_step_sys s es s' :
  health_step s es s' →
  (∃ r, event_peer <$> es = option_list r ∧
     ∀ fl, sys_step (MkSys (world s) fl) (MkSys (world s') (option_list r ++ fl))) ∨
  ∃ e, es = [e] ∧
    ∀ fl1 fl2, sys_step (MkSys (world s) (fl1 ++ event_peer e :: fl2)) (MkSys (world s') (fl1 ++ fl2)).
Proof.
  intros [q group rr r rr' s1 w' Hs Hok _ E|q group rr r rr' s1 w' Hs Hok _ E
         |q sec r rr' s1 w' Hs Hok _ E|q rr y failed rr' s1 w' _ _ E|q rr y failed rr' s1 w' _ _ E];
    cbn [world after].
  - left. exists r. split; [by destruct r|]. intros fl. apply (step_section (sec_rr group rr)).
    + split; [done|congruence].
    + cbn [run_section]. by rewrite E.
  - left. exists r. split; [by destruct r|]. intros fl. apply (step_section (sec_least_conn group rr)).
    + done.
    + cbn [run_section]. by rewrite E.
  - left. exists r. split; [by destruct r|]. intros fl. apply (step_section sec); [done|].
    by rewrite run_section_picker, E.
  - right. eexists. split; [done|]. intros fl1 fl2. by eapply step_release.
  - right. eexists. split; [done|]. intros fl1 fl2. by eapply step_release.
Qed.

(** ** The peers implement the specification *)

Section peer.
Context (x : PeerId).

(** The breaker of the peer that [pr] configures, and what is remembered of it. *)
Notation step_of pr := (observe (MaxFails pr) (FailTimeout pr) x).
Notation passes pr := (admits (MaxFails pr) (FailTimeout pr) x).
Notation recs_of s := (λ q, records s q !! x).

(** Between two pools of an execution with [n] events. *)
Record unfolds (n : nat) (s s' : Pool) : Prop := {
  un_static : static (heap (world s') !!! x) = static (heap (world s) !!! x);
  un_fails : fails (heap (world s') !!! x) <= fails (heap (world s) !!! x) + Z.of_nat n;
}.

(** What a step with the events [es] establishes. *)
Definition steps_to (n : nat) (b : Breaker) (s : Pool) (es : list event) (s' : Pool) : Prop :=
  let pr := heap (world s) !!! x in
  unfolds (length es) s s' ∧
  sound (n + length es) (fold_left (step_of pr) es b) (heap (world s') !!! x) (recs_of s') ∧
  Forall (passes pr b) es.

Lemma static_MaxFails pr pr' : static pr' = static pr →
  MaxFails pr' = MaxFails pr ∧ FailTimeout pr' = FailTimeout pr.
Proof. intros (_ & _ & _ & _ & ? & ? & _)%static_fields. done. Qed.

Lemma recs_after q rr' s w' q' :
  recs_of (after q rr' s w') q' = if decide (q' = q) then probeChecked rr' !! x else recs_of s q'.
Proof.
  cbn [after records]. case_decide; [by subst; rewrite fn_lookup_insert|by rewrite fn_lookup_insert_ne].
Qed.

(** An event of another peer. *)
Lemma other_event n b s e s' :
  event_peer e ≠ x → heap (world s') !!! x = heap (world s) !!! x ∨
    tuned (heap (world s) !!! x) (heap (world s') !!! x) →
  (∀ q, recs_of s' q = recs_of s q) → sound n b (heap (world s) !!! x) (recs_of s) →
  steps_to n b s [e] s'.
Proof.
  intros He Hpr Hrecs Hs.
  assert (tuned (heap (world s) !!! x) (heap (world s') !!! x)) as Ht
    by (destruct Hpr as [->|?]; [reflexivity|done]).
  pose proof (tuned_fails _ _ Ht) as Hf. pose proof (tuned_static _ _ Ht) as Hst.
  destruct (tuned_checked _ _ Ht) as (Hck & Hsq & _).
  destruct (static_MaxFails _ _ Hst) as [HM _].
  split; [split; [done|lia]|]. cbn [fold_left]. unfold observe. rewrite decide_False by done.
  split; [apply (sound_mono n); [lia|]; by eapply sound_same|].
  constructor; [|constructor]. intros t0 _. by destruct e.
Qed.

Lemma no_event n b s s' :
  tuned (heap (world s) !!! x) (heap (world s') !!! x) →
  (∀ q, recs_of s' q = recs_of s q) → sound n b (heap (world s) !!! x) (recs_of s) →
  steps_to n b s [] s'.
Proof.
  intros Ht Hrecs Hs. pose proof (tuned_fails _ _ Ht) as Hf. pose proof (tuned_static _ _ Ht) as Hst.
  destruct (tuned_checked _ _ Ht) as (Hck & Hsq & _). destruct (static_MaxFails _ _ Hst) as [HM _].
  split; [split; [done|cbn; lia]|]. cbn [fold_left length]. rewrite Nat.add_0_r.
  split; [by eapply sound_same|constructor].
Qed.

(** A selection, by what it does to its picker. *)
Lemma section_steps n b q rr members r rr' s w' (ev : PeerId → event) :
  sound n b (heap (world s) !!! x) (recs_of s) → probeChecked rr = records s q →
  cs_post members rr (world s) r rr' w' → (∀ y, event_peer (ev y) = y) →
  let s' := after q rr' s w' in
  (∀ pr', r = Some x → pr' = heap w' !!! x →
     remembers (heap (world s) !!! x) pr' (recs_of s) (recs_of s') q →
     fails pr' = fails (heap (world s) !!! x) → MaxFails pr' = MaxFails (heap (world s) !!! x) →
     sound (S n) (step_of (heap (world s) !!! x) b (ev x)) pr' (recs_of s') ∧
     passes (heap (world s) !!! x) b (ev x)) →
  steps_to n b s (match r with Some y => [ev y] | None => [] end) s'.
Proof.
  intros Hs Hq [_ Hcs] Hev s' Hx. destruct r as [y|].
  2:{ destruct Hcs as [-> Hh]. apply no_event; [apply Hh| |done].
      intros q'. unfold s'. rewrite recs_after. case_decide; [by subst; rewrite Hq|done]. }
  destruct Hcs as (_ & _ & _ & _ & _ & [(p & Ht & Hc) Ho] & Hprobe & _).
  destruct (decide (y = x)) as [->|Hne].
  - assert (static (heap w' !!! x) = static (heap (world s) !!! x)) as Hst
      by (rewrite (committed_static _ _ Hc); by apply tuned_static).
    assert (fails (heap w' !!! x) = fails (heap (world s) !!! x)) as Hf
      by (rewrite <-(tuned_fails _ _ Ht); by destruct Hc as [-> |[? ->]]).
    destruct (static_MaxFails _ _ Hst) as [HM _].
    destruct (Hx (heap w' !!! x)) as [Hsound Hpass]; try done.
    + split; [intros q' ?; unfold s'; by rewrite recs_after, decide_False|].
      unfold s'. rewrite recs_after, decide_True by done. rewrite <-Hq.
      destruct Hprobe as [(-> & ? & ?)|(? & _ & ->)]; [by left|right].
      split; [done|]. apply lookup_insert_eq.
    + split; [split; [done|cbn; lia]|]. cbn [fold_left length]. rewrite Nat.add_1_r.
      split; [done|by constructor].
  - apply other_event; [by rewrite Hev|right; by apply Ho| |done].
    intros q'. unfold s'. rewrite recs_after. case_decide; [subst q'|done].
    rewrite <-Hq. destruct Hprobe as [(-> & _)|(_ & _ & ->)]; [done|]. by apply lookup_insert_ne.
Qed.

(** A section that picked with one reading of the clock. *)
Lemma selection_steps n b q rr members r rr' s w' :
  sound n b (heap (world s) !!! x) (recs_of s) → Z.of_nat n <= max_int →
  probeChecked rr = records s q → cs_post members rr (world s) r rr' w' →
  probes (now_of s) (world s) r w' →
  steps_to n b s (selection q r (now_of s)) (after q rr' s w').
Proof.
  intros Hs Hn Hq Hcs Hprobe.
  apply (section_steps n b q rr members r rr' s w' (λ y, Selected q y (now_of s)) Hs Hq Hcs); [done|].
  intros pr' -> -> Hrem Hf HM. destruct (Hprobe x eq_refl) as (Hno & Hren & _). split.
  - unfold observe. rewrite decide_True by done. by eapply selected_sound.
  - intros t0 Ho _. destruct (open_probation _ _ _ _ (proj1 Hs) Ho) as [Hp <-].
    by apply not_failed_out.
Qed.

(** A section that searched, with the readings [ts]. *)
Lemma search_steps n b q rr members r rr' s w' :
  sound n b (heap (world s) !!! x) (recs_of s) → Z.of_nat n <= max_int →
  probeChecked rr = records s q → cs_post members rr (world s) r rr' w' →
  found (world s) r w' → stamped (now_of s) (world s) r w' →
  steps_to n b s (search q r (now_of s) (readings (world s) w')) (after q rr' s w').
Proof.
  intros Hs Hn Hq Hcs Hfound Hstamp.
  apply (section_steps n b q rr members r rr' s w'
    (λ y, Searched q y (now_of s) (readings (world s) w')) Hs Hq Hcs); [done|].
  intros pr' -> -> Hrem Hf HM. specialize (Hstamp x eq_refl). split.
  - unfold observe. rewrite decide_True by done. by eapply searched_sound.
  - intros t0 Ho _. destruct (open_probation _ _ _ _ (proj1 Hs) Ho) as [Hp <-].
    destruct (Hfound x eq_refl) as (_ & _ & i & Hi & Hno). exists (clock (world s) i). split.
    + unfold readings. apply (list_elem_of_fmap_2 (clock (world s))), list_elem_of_In, in_seq. lia.
    + by apply not_failed_out.
Qed.

(** A release of the peer of [e] by a picker that is then [rr']. *)
Lemma release_steps n b q rr' s w' e pr' :
  sound n b (heap (world s) !!! x) (recs_of s) →
  heap w' = <[event_peer e := pr']> (heap (world s)) →
  (event_peer e ≠ x → probeChecked rr' !! x = records s q !! x) →
  (∀ t0, passes (heap (world s) !!! x) t0 e) →
  (event_peer e = x → static pr' = static (heap (world s) !!! x) ∧
     fails pr' <= fails (heap (world s) !!! x) + 1 ∧
     sound (S n) (react (MaxFails (heap (world s) !!! x)) (FailTimeout (heap (world s) !!! x)) b e)
       pr' (recs_of (after q rr' s w'))) →
  steps_to n b s [e] (after q rr' s w').
Proof.
  intros Hs Hh Hrec Hpass Hx. destruct (decide (event_peer e = x)) as [E|Hne].
  - destruct (Hx E) as (? & ? & ?). unfold steps_to. cbn [world after fold_left length].
    assert (heap w' !!! x = pr') as Ex by (rewrite Hh, <-E; apply heap_insert_eq).
    split; [split; cbn [world after]; by rewrite Ex|]. unfold observe. rewrite decide_True by done.
    rewrite Nat.add_1_r, Ex. split; [done|by constructor].
  - apply other_event; [done|left; cbn [world after]; rewrite Hh; by apply heap_insert_ne| |done].
    intros q'. rewrite recs_after. case_decide; [subst; by apply Hrec|done].
Qed.

Lemma report_steps n b q rr y failed rr' s w' :
  sound n b (heap (world s) !!! x) (recs_of s) → Z.of_nat n <= max_int →
  fails (heap (world s) !!! x) + 1 <= max_int →
  single (done_group rr (heap (world s) !!! y)) = false → probeChecked rr = records s q →
  done (Some y) failed false rr (world s) = Ret (tt, rr', w') →
  steps_to n b s [Reported q y failed (now_of s)] (after q rr' s w').
Proof.
  intros Hs Hn Hroom Hsg Hq E. rewrite done_outcome_eq in E by done. injection E as <- <-.
  set (w' := set_heap _ _).
  set (pr' := set_conns (conns (heap (world s) !!! y) -! 1)
    (if failed then fail_peer (now_of s) (heap (world s) !!! y)
     else succeed_peer (heap (world s) !!! y))).
  apply (release_steps n b q rr s w' _ pr'); [done..|by rewrite Hq|done|].
  cbn [event_peer]. intros ->.
  destruct (reported_sound n b (heap (world s) !!! x) pr' (recs_of s) (recs_of (after q rr s w'))
    Hs Hn q x failed (now_of s) (conns (heap (world s) !!! x) -! 1)) as [? ?]; [|done|done|].
  - intros q'. rewrite recs_after. case_decide; [by subst; rewrite Hq|done].
  - split; [|done]. unfold pr'. destruct failed; [by rewrite fail_peer_eq|].
    by destruct (succeed_peer_cases (heap (world s) !!! x)) as [-> | ->].
Qed.

Lemma return_steps n b q rr y failed rr' s w' :
  sound n b (heap (world s) !!! x) (recs_of s) → Z.of_nat n <= max_int →
  single (done_group rr (heap (world s) !!! y)) = false → probeChecked rr = records s q →
  done (Some y) failed true rr (world s) = Ret (tt, rr', w') →
  steps_to n b s [Returned q y] (after q rr' s w').
Proof.
  intros Hs Hn Hsg Hq E. rewrite done_neutral_eq in E by done.
  set (pr' := set_conns (conns (heap (world s) !!! y) -! 1) (match records s q !! y with
    | Some pb => if checkedSeq (heap (world s) !!! y) =? seq pb
                 then setChecked (prior pb) (heap (world s) !!! y) else heap (world s) !!! y
    | None => heap (world s) !!! y
    end)).
  assert (heap w' = <[y := pr']> (heap (world s)) ∧
    probeChecked rr' = delete y (records s q)) as [Hh Hrr].
  { unfold pr'. rewrite <-Hq. destruct (probeChecked rr !! y) eqn:Ey; injection E as <- <-; [done|].
    split; [done|]. by rewrite delete_id. }
  apply (release_steps n b q rr' s w' _ pr'); [done|done|..].
  - cbn [event_peer]. intros Hne. rewrite Hrr. by apply lookup_delete_ne.
  - done.
  - cbn [event_peer]. intros ->. split; [|split].
    + unfold pr'. by repeat case_match.
    + unfold pr'. repeat case_match; cbn; lia.
    + eapply (returned_sound n b _ pr' (recs_of s) _ Hs Hn q x); [| |done].
      * intros q' Hne. by rewrite recs_after, decide_False.
      * rewrite recs_after, decide_True by done. rewrite Hrr. apply lookup_delete_eq.
Qed.

(** A step, with the room the counter needs. *)
Lemma health_step_steps n b s es s' :
  health_step s es s' → Z.of_nat n <= max_int →
  fails (heap (world s) !!! x) + Z.of_nat (length es) <= max_int →
  sound n b (heap (world s) !!! x) (recs_of s) → steps_to n b s es s'.
Proof.
  intros [q group rr r rr' s1 w' Hs Hok Hq E|q group rr r rr' s1 w' Hs Hok Hq E
         |q sec r rr' s1 w' Hs Hok Hq E|q rr y failed rr' s1 w' Hs Hq E
         |q rr y failed rr' s1 w' Hs Hq E] Hn Hroom Hsound.
  - pose proof (pickFromGroup_spec group rr _ Hs Hok) as [Hcs _]%(wp_eq _ _ _ _ _ _ _ E).
    pose proof (pickFromGroup_probe group rr _ Hs Hok) as Hp. rewrite (wp_eq _ _ _ _ _ _ _ E) in Hp.
    by eapply selection_steps.
  - pose proof (lc_pickFromGroup_spec group rr _ Hok Hs) as [[Hcs _] _]%(wp_eq _ _ _ _ _ _ _ E).
    pose proof (lc_pickFromGroup_probe group rr _ Hok) as Hp. rewrite (wp_eq _ _ _ _ _ _ _ E) in Hp.
    by eapply selection_steps.
  - destruct (section_picker sec _ Hok) as (r1 & rr1 & w1 & E1 & [[members Hcs] Hf]).
    rewrite E in E1. injection E1 as <- <- <-. eapply search_steps; try done; [by apply Hf|].
    apply (section_stamped sec); [done|done|]. by rewrite run_section_picker, E.
  - by eapply report_steps.
  - by eapply return_steps.
Qed.

Lemma health_step_events s es s' : health_step s es s' → es = [] ∨ ∃ e, es = [e].
Proof. intros [? ? ? [y|]|? ? ? [y|]|? ? [y|]| |]; eauto. Qed.

Lemma execution_sound s l s' : execution s l s' → ∀ n b,
  let pr := heap (world s) !!! x in
  sound n b pr (recs_of s) → fails pr + Z.of_nat (length l) <= max_int →
  Z.of_nat (n + length l) <= max_int →
  implements (fold_left (step_of pr) l b) (heap (world s') !!! x) (recs_of s') ∧
  ∀ l1 e l2, l = l1 ++ e :: l2 → passes pr (fold_left (step_of pr) l1 b) e.
Proof.
  induction 1 as [s|s es s1 l s' Hstep _ IH]; intros n b pr Hs Hroom Hn.
  { split; [apply Hs|]. by intros [|? ?]. }
  rewrite length_app in Hroom, Hn.
  destruct (health_step_steps n b s es s1 Hstep ltac:(lia) ltac:(unfold pr in Hroom; lia) Hs)
    as ([Hst Hf] & Hs1 & Had).
  destruct (static_MaxFails _ _ Hst) as [HM HT]. fold pr in Hf, HM, HT, Hs1, Had.
  destruct (IH _ _ Hs1 ltac:(lia) ltac:(lia)) as [Him' Hall]. rewrite HM, HT in Him', Hall.
  rewrite fold_left_app. split; [done|].
  intros l1 e l2 E. destruct (health_step_events _ _ _ Hstep) as [->|[e0 ->]].
  - by eapply Hall.
  - destruct l1 as [|e1 l1]; injection E as <- E; [by inversion Had|].
    by apply (Hall l1 e l2).
Qed.
End peer.

(** ** Claims *)

(** C11: the circuit breaker: in every interleaving of selections, by any of the
    algorithms, and of releases of requests that begin with fresh pickers, a peer
    whose last [MaxFails] reports since its last success are failures is selected
    only when its [FailTimeout] has passed since its quarantine began, at a
    reading of the clock with which the peer was tested. The last of the failures
    begins the quarantine and a selection renews it, so that a recovering peer is
    probed by one request per [FailTimeout], until a success is reported. A
    neutral release undoes the renewal of the same request, if no failure and no
    probe came after it; every other neutral release leaves the quarantine as it
    is. Only a search that entered its section before the end of the quarantine
    does not renew it. At any time the fields of the peer and the records of the
    pickers implement the state of the breaker. *)
Theorem circuit_breaker (x : PeerId) (w : World) (l : list event) (s' : Pool) :
  let pr := heap w !!! x in
  execution (fresh_pool w) l s' → 0 <= fails pr → fails pr + Z.of_nat (length l) <= max_int →
  implements (observed (MaxFails pr) (FailTimeout pr) x l) (heap (world s') !!! x)
    (λ q, records s' q !! x) ∧
  ∀ l1 e l2, l = l1 ++ e :: l2 →
    admits (MaxFails pr) (FailTimeout pr) x (observed (MaxFails pr) (FailTimeout pr) x l1) e.
Proof.
  intros pr He Hn Hroom. apply (execution_sound x (fresh_pool w) l s' He 0 closed); [|done|].
  - split; [|by intros q pb]. split; cbn [failures closed]; [unfold pr in *; cbn; lia|..];
      by intros t (_ & _ & [=])%open_since_Some.
  - cbn [Nat.add]. unfold pr in *. lia.
Qed.

(** Two requests select a peer at readings eleven seconds apart, the second of
    which renews [checked]; the first fails, and then the second is given back: it
    does not end the quarantine that the failure began, and a third request is a
    probe. *)
Definition slow (i : nat) : Time := MkTime (Z.of_nat i * (11 * Second)) None.
Definition slow_group : PeerGroup := rr_primary demo_rr.1.
Definition slow_picker : RRPicker := set_tried {[1%nat]} (RoundRobin.NewPicker demo_rr.1).
Definition slow_start : World := MkWorld demo_rr.2 slow 0 0.

Definition ran {A} (r : outcome (A * RRPicker * World)) : RRPicker * World :=
  match r with Ret (_, rr, w) => (rr, w) | Panic _ => (slow_picker, slow_start) end.

Definition slow1 := ran (pickFromGroup slow_group slow_picker slow_start).
Definition slow2 := ran (pickFromGroup slow_group slow_picker slow1.2).
Definition slow3 := ran (done (Some 0%nat) true false slow1.1 slow2.2).
Definition slow4 := ran (done (Some 0%nat) false true slow2.1 slow3.2).
Definition slow5 := ran (pickFromGroup slow_group slow_picker slow4.2).

Definition slow_events : list event :=
  [Selected 0 0 (slow 0); Selected 1 0 (slow 1); Reported 0 0 true (slow 2); Returned 1 0].

Lemma slow_heap_ok w : w ∈ [slow_start; slow1.2; slow4.2] → heap_ok (heap w) (Peers slow_group).
Proof.
  intros Hw x Hx. assert (x = 0 ∨ x = 1)%nat as Hx'.
  { clear Hw. change (x ∈ [0; 1]%nat) in Hx. set_solver. }
  repeat (apply elem_of_cons in Hw as [->|Hw]); [..|by apply not_elem_of_nil in Hw].
  all: destruct Hx' as [-> | ->]; split; vm_compute; split; congruence.
Qed.

Lemma slow_selects q t s rr' w' :
  world s ∈ [slow_start; slow1.2; slow4.2] → records s q = ∅ →
  pickFromGroup slow_group slow_picker (world s) = Ret (Some 0%nat, rr', w') → t = now_of s →
  health_step s [Selected q 0 t] (after q rr' s w').
Proof.
  intros Hs Hq E ->. apply (hs_round_robin q slow_group slow_picker (Some 0%nat)); try done.
  by apply slow_heap_ok.
Qed.

Definition pool1 := after 0 slow1.1 (fresh_pool slow_start) slow1.2.
Definition pool2 := after 1 slow2.1 pool1 slow2.2.
Definition pool3 := after 0 slow3.1 pool2 slow3.2.
Definition pool4 := after 1 slow4.1 pool3 slow4.2.
Definition pool5 := after 2 slow5.1 pool4 slow5.2.

Lemma slow_execution : execution (fresh_pool slow_start) (slow_events ++ [Selected 2 0 (slow 3)]) pool5.
Proof.
  apply (execution_step _ [Selected 0 0 (slow 0)] pool1).
  { apply slow_selects; [left|vm_compute; reflexivity..]. }
  apply (execution_step _ [Selected 1 0 (slow 1)] pool2).
  { apply slow_selects; [right; left|vm_compute; reflexivity..]. }
  apply (execution_step _ [Reported 0 0 true (slow 2)] pool3).
  { replace (slow 2) with (now_of pool2) by (vm_compute; reflexivity).
    apply (hs_report 0 slow1.1); vm_compute; reflexivity. }
  apply (execution_step _ [Returned 1 0] pool4).
  { apply (hs_return 1 slow2.1 0 false); vm_compute; reflexivity. }
  apply (execution_step _ [Selected 2 0 (slow 3)] pool5 []); [|constructor].
  apply slow_selects; [do 2 right; left|vm_compute; reflexivity..].
Qed.

Lemma circuit_breaker_witness :
  let pr := heap slow_start !!! 0%nat in
  probeChecked slow2.1 !! 0%nat ≠ None ∧
  open_since (MaxFails pr) (observed (MaxFails pr) (FailTimeout pr) 0 slow_events) = Some (slow 2) ∧
  FailTimeout pr < time_Sub (slow 3) (slow 2).
Proof.
  intros pr. split; [vm_compute; congruence|]. split; [vm_compute; reflexivity|].
  refine (proj2 (circuit_breaker 0 slow_start (slow_events ++ [Selected 2 0 (slow 3)]) pool5
    slow_execution _ _)
    slow_events (Selected 2 0 (slow 3)) [] eq_refl (slow 2) _ eq_refl);
    vm_compute; try reflexivity; congruence.
Defined.
