(* ===== verification/Termination.v ===== *)
(** * The candidate loops end (hash.go, iphash.go, chash.go, random.go)

    Every round that goes on counts a rejected candidate, so the loops run at
    most [budget + 1 - tries] rounds: the fuel of the model is never the reason
    a loop stops. *)

From S2P Require Import Prelude GoLib Peer RoundRobin Picker Candidates IPHash Hash CHash Random.
#[local] Open Scope Z_scope.
#[local] Open Scope go_scope.

(** ** A round that goes on counts one candidate *)

Ltac step E := let a := fresh "a" in let p := fresh "p" in let w := fresh "w" in
  let Ea := fresh "Ea" in apply bind_inv in E as (a & p & w & Ea & E).

Lemma hash_round_tries group now p w p' w' :
  hash_round group now p w = Ret (Continue, p', w') → hashTries p' = hashTries p +! 1.
Proof.
  unfold hash_round, mod_total, select. intros E. step E. injection Ea as <- <- <-.
  step E. injection Ea as <- <- <-. step E. destruct (_ =? 0); [done|]. injection Ea as <- <- <-.
  step E. injection Ea as <- <- <-. destruct (select_weight _ _ _) as [x|]; [|done].
  step E. apply candidate_ok_inv in Ea as ->. destruct a; [|by injection E as <- <-].
  by step E.
Qed.

Lemma smooth_loop_keeps {P} xs (eligible : PeerId → M P bool) best total p w r p' w' :
  (∀ x w b p' w', eligible x p w = Ret (b, p', w') → p' = p) →
  smooth_loop xs eligible best total p w = Ret (r, p', w') → p' = p.
Proof.
  intros He. revert best total w. induction xs as [|x xs IH]; intros best total w E; cbn in E;
    [by injection E as _ <- _|].
  step E. apply He in Ea as ->. destruct a; cbn [negb] in E; [|by eapply IH].
  step E. injection Ea as <- <- <-. step E. injection Ea as <- <- <-. step E.
  unfold better in Ea. destruct best as [b|]; cbn in Ea; injection Ea as <- <- <-; by eapply IH.
Qed.

Lemma smoothWeightedPeer_keeps {P} xs (eligible : PeerId → M P bool) p w r p' w' :
  (∀ x w b p' w', eligible x p w = Ret (b, p', w') → p' = p) →
  smoothWeightedPeer xs eligible p w = Ret (r, p', w') → p' = p.
Proof.
  intros He E. unfold smoothWeightedPeer in E. step E. apply smooth_loop_keeps in Ea as ->; [|done].
  destruct a as [[b|] total]; [step E; injection Ea as <- <- <-|]; by injection E as _ <- _.
Qed.

Lemma chash_round_tries pts group now p w p' w' :
  chash_round pts group now p w = Ret (Continue, p', w') → ch_tries p' = ch_tries p +! 1.
Proof.
  unfold chash_round. intros E. step E.
  assert (p0 = p) as ->.
  { unfold point_server in Ea. rewrite (bind_Ret self _ _ _ _ _ _ eq_refl) in Ea.
    destruct (_ <? 0); [done|]. step Ea. unfold index in Ea0. destruct (pts !! _); [|done].
    injection Ea0 as <- <- <-. by injection Ea as _ <- _. }
  step E. apply smoothWeightedPeer_keeps in Ea0 as ->.
  - destruct a0 as [b|]; [|by injection E as <- <-]. by step E.
  - intros x w2 b p2 w3 E2. unfold chash_eligible in E2. step E2. injection Ea1 as <- <- <-.
    destruct (negb _); [by injection E2 as _ <- _|]. by apply candidate_ok_inv in E2.
Qed.

Lemma range_search_keeps {P} fuel rs x lo hi (p : P) w r p' w' :
  range_search fuel rs x lo hi p w = Ret (r, p', w') → p' = p.
Proof.
  revert lo hi. induction fuel as [|fuel IH]; intros lo hi E; cbn [range_search] in E;
    [by injection E as _ <- _|].
  destruct (lo <? hi)%nat; [|by injection E as _ <- _]. step E. unfold index in Ea.
  destruct (rs !! _); [|done]. injection Ea as <- <- <-. destruct (_ <=? _); by eapply IH.
Qed.

Lemma randomSelect_keeps group p w r p' w' :
  randomSelect group p w = Ret (r, p', w') → p' = p.
Proof.
  unfold randomSelect. destruct (_ <=? 0); intros E; [by injection E as _ <- _|].
  step E. injection Ea as <- <- <-. step E. injection Ea as <- <- <-. step E.
  apply range_search_keeps in Ea as ->. step E. unfold index in Ea.
  destruct (_ !! _); [|done]. injection Ea as <- <- <-. by injection E as _ <- _.
Qed.

Lemma one_round_tries group now p w p' w' :
  one_round group now p w = Ret (Continue, p', w') → rd_tries p' = rd_tries p +! 1.
Proof.
  unfold one_round. intros E. step E. apply randomSelect_keeps in Ea as ->.
  destruct a as [x|]; [|done]. step E. apply candidate_ok_inv in Ea as ->.
  destruct a; [|by injection E as <- <-]. by step E.
Qed.

Lemma two_rejected_keeps x s w b s' w' :
  two_rejected x s w = Ret (b, s', w') → s' = s.
Proof.
  intros E. pose proof (two_rejected_spec x s w) as H.
  by apply (proj1 (wp_eq _ _ _ _ _ _ _ E)) in H as [-> _].
Qed.

Lemma two_round_tries group now s w s' w' :
  two_round group now s w = Ret (Continue, s', w') →
  rd_tries (fst s') = rd_tries (fst s) +! 1.
Proof.
  unfold two_round. intros E. step E. unfold zoom in Ea.
  destruct (randomSelect group (fst s) w) as [[[r1 p1] w1]|] eqn:Er; [|done].
  injection Ea as <- <- <-. apply randomSelect_keeps in Er as ->.
  destruct r1 as [x|]; [|done]. step E. apply two_rejected_keeps in Ea as ->.
  destruct a; [step E; injection Ea as <- <- <-; by injection E as <- <-|].
  step E. injection Ea as <- <- <-. cbn [snd] in E. destruct (snd s) as [y|].
  - step E. injection Ea as <- <- <-. step E. injection Ea as <- <- <-. by step E.
  - step E. injection Ea as <- <- <-. by injection E as <- <-.
Qed.

(** ** Claims *)

(** C38: the candidate loops end: run with any larger bound on the number of
    rounds, the loop of each hashing or random picker gives the same result as
    with the rounds its budget of 20 rejected candidates leaves, so at most 21
    candidates are examined under the lock and no bound is ever reached. *)
Theorem candidate_loops_end (group : PeerGroup) (now : Time) (w : World) (fuel : nat) :
  (∀ bytes s, (rounds_left maxIPHashTries (tries (fst s)) ≤ fuel)%nat →
    for_loop fuel (λ s, tries (fst s) <=? maxIPHashTries) (ip_round group bytes now) s w =
    for_loop (rounds_left maxIPHashTries (tries (fst s)))
      (λ s, tries (fst s) <=? maxIPHashTries) (ip_round group bytes now) s w) ∧
  (∀ p, (rounds_left maxHashTries (hashTries p) ≤ fuel)%nat →
    for_loop fuel (λ p, hashTries p <=? maxHashTries) (hash_round group now) p w =
    for_loop (rounds_left maxHashTries (hashTries p))
      (λ p, hashTries p <=? maxHashTries) (hash_round group now) p w) ∧
  (∀ pts p, (rounds_left maxHashTries (ch_tries p) ≤ fuel)%nat →
    for_loop fuel (λ p, ch_tries p <=? maxHashTries) (chash_round pts group now) p w =
    for_loop (rounds_left maxHashTries (ch_tries p))
      (λ p, ch_tries p <=? maxHashTries) (chash_round pts group now) p w) ∧
  (∀ p, (rounds_left maxRandomTries (rd_tries p) ≤ fuel)%nat →
    for_loop fuel (λ p, rd_tries p <=? maxRandomTries) (one_round group now) p w =
    for_loop (rounds_left maxRandomTries (rd_tries p))
      (λ p, rd_tries p <=? maxRandomTries) (one_round group now) p w) ∧
  (∀ s, (rounds_left maxRandomTries (rd_tries (fst s)) ≤ fuel)%nat →
    for_loop fuel (λ s, rd_tries (fst s) <=? maxRandomTries) (two_round group now) s w =
    for_loop (rounds_left maxRandomTries (rd_tries (fst s)))
      (λ s, rd_tries (fst s) <=? maxRandomTries) (two_round group now) s w).
Proof.
  assert (20 < max_int) as Hmax by done. split_and!; intros.
  - apply (tries_loop_fuel (λ s, tries (fst s))); [done|apply ip_round_tries|done].
  - apply (tries_loop_fuel hashTries); [done|apply hash_round_tries|done].
  - apply (tries_loop_fuel ch_tries); [done|apply chash_round_tries|done].
  - apply (tries_loop_fuel rd_tries); [done|apply one_round_tries|done].
  - apply (tries_loop_fuel (λ s, rd_tries (fst s))); [done|apply two_round_tries|done].
Qed.

Lemma candidate_loops_end_witness :
  for_loop 100 (λ p, hashTries p <=? maxHashTries) (hash_round (rr_primary demo_rr.1) zero_time)
    (Hash.NewPickerForKey (MkHash demo_rr.1) "k") demo_world =
  for_loop 21 (λ p, hashTries p <=? maxHashTries) (hash_round (rr_primary demo_rr.1) zero_time)
    (Hash.NewPickerForKey (MkHash demo_rr.1) "k") demo_world.
Proof.
  apply (candidate_loops_end (rr_primary demo_rr.1) zero_time demo_world 100). vm_compute. lia.
Defined.
