(* ===== verification/Http.v ===== *)
(** * Errors, requests, bodies and the outside world of the transport

    What transport.go uses of errors, net/http, io and os: error trees with
    [errors.Is], requests and responses as values, bodies as pointers to
    streams of the outside world, and the state monad [T] of the transport,
    which is the monad of the pickers with the outside world [IO] as the
    private state. *)

From S2P Require Import Prelude GoLib Peer RoundRobin Picker.
#[local] Open Scope Z_scope.

(** ** Errors *)

Inductive sentinel :=
  | ErrNilRequest
  | ErrNilRequestURL
  | ErrNilRoundTripper
  | ErrInvalidRoundTrip
  | ErrNilResponseBody
  | ErrInvalidUpstreamConfig.

#[export] Instance sentinel_eq_dec : EqDecision sentinel.
Proof. solve_decision. Defined.

(** [Errorf f args (Some e)] is an error that wraps [e] with the verb [%w];
    [Foreign] an error of another package, with its answers to [errors.Is]. *)
Inductive GoError :=
  | Sentinel (s : sentinel)
  | Retry (e : retry_error)
  | New (text : string)
  | Errorf (format : string) (args : list string) (wrapped : option GoError)
  | Joined (errs : list GoError)
  | Foreign (id : nat) (answer : sentinel → bool).

(** [errors.Is(err, target)] for one of the package's own errors. *)
Fixpoint errors_Is (err : GoError) (target : sentinel) : bool :=
  match err with
  | Sentinel s => bool_decide (s = target)
  | Retry _ => false
  | New _ => false
  | Errorf _ _ (Some e) => errors_Is e target
  | Errorf _ _ None => false
  | Joined es => existsb (λ e, errors_Is e target) es
  | Foreign _ answer => answer target
  end.

(** [errors.Join(err, e)], nil errors being dropped. *)
Definition errors_Join (err : option GoError) (e : GoError) : GoError :=
  Joined (match err with Some e0 => [e0; e] | None => [e] end).

(** ** Bodies

    An [io.ReadCloser] is a value that refers to a stream of the outside
    world; [Obj s] is the stream itself.  [NopCloser] and [CancelCloser] wrap
    another body, as [io.NopCloser] and [cancelCloser] do. *)

Inductive Body :=
  | Obj (s : nat)
  | NoBody
  | NopCloser (b : Body)
  | CancelCloser (b : Body) (ctx : nat).

(** The stream that is read through a body, and the one its Close closes. *)
Fixpoint reads_from (b : Body) : option nat :=
  match b with
  | Obj s => Some s
  | NoBody => None
  | NopCloser b => reads_from b
  | CancelCloser b _ => reads_from b
  end.

Fixpoint closes (b : Body) : option nat :=
  match b with
  | Obj s => Some s
  | NoBody => None
  | NopCloser _ => None
  | CancelCloser b _ => closes b
  end.

(** A stream is a reader over [data] at offset [off]; [seekable] tells whether
    its dynamic type implements io.Seeker. *)
Record Stream := MkStream {
  data : list Z;
  off : Z;
  seekable : bool;
  closed : bool;
}.

Definition set_off (n : Z) (st : Stream) : Stream :=
  MkStream (data st) n (seekable st) (closed st).
Definition set_closed (st : Stream) : Stream :=
  MkStream (data st) (off st) (seekable st) true.
Definition set_data (bs : list Z) (st : Stream) : Stream :=
  MkStream bs (off st) (seekable st) (closed st).

Definition unread (st : Stream) : list Z := drop (Z.to_nat (off st)) (data st).

(** ** Responses and the record of the exchanges *)

Record URL := MkURL { Scheme : string; URL_Host : string; URL_rest : string }.

Record Response := MkResponse { StatusCode : Z; resp_Body : option Body }.

Definition set_resp_Body (b : Body) (r : Response) : Response :=
  MkResponse (StatusCode r) (Some b).

(** What RoundTrip does that others can observe: selections, releases, and the
    exchanges with a RoundTripper.  An [Exchange] is a call: where the request
    went, the context derived for it, what was readable from its body, whether
    the trace saw it written, and what the call returned. *)
Inductive release_kind := Reported (failed : bool) | Neutral.

Record Exchange := MkExchange {
  ex_to : URL;
  ex_ctx : option nat;
  ex_body : option (list Z);
  ex_sent : bool;
  ex_resp : option Response;
  ex_err : option GoError;
}.

Inductive Event :=
  | EvPick (x : PeerId)
  | EvServe (e : Exchange)
  | EvRelease (x : PeerId) (kind : release_kind).

(** ** The outside world

    [faults] are the errors of the successive input and output operations
    ([None]: the operation succeeds); [polls] counts the readings of the
    request's context; [ctxs] numbers the derived contexts and traces,
    [cancelled] holds the cancelled ones and [sent] the traces whose
    WroteHeaders or WroteRequest hook ran; [tmp] holds what temporary files
    occupy: [(true, s)] the directory entry, until os.Remove, and [(false, s)]
    the open file, until Close. *)
Record IO := MkIO {
  streams : gmap nat Stream;
  tmp : gset (bool * nat);
  faults : nat → option GoError;
  ops : nat;
  polls : nat;
  ctxs : nat;
  cancelled : gset nat;
  sent : gset nat;
  log : list Event;
}.

Definition set_streams (m : gmap nat Stream) (io : IO) : IO :=
  MkIO m (tmp io) (faults io) (ops io) (polls io) (ctxs io) (cancelled io) (sent io) (log io).
Definition set_tmp (t : gset (bool * nat)) (io : IO) : IO :=
  MkIO (streams io) t (faults io) (ops io) (polls io) (ctxs io) (cancelled io) (sent io) (log io).
Definition count_op (io : IO) : IO :=
  MkIO (streams io) (tmp io) (faults io) (S (ops io)) (polls io) (ctxs io) (cancelled io)
    (sent io) (log io).
Definition count_poll (io : IO) : IO :=
  MkIO (streams io) (tmp io) (faults io) (ops io) (S (polls io)) (ctxs io) (cancelled io)
    (sent io) (log io).
Definition new_ctx (io : IO) : IO :=
  MkIO (streams io) (tmp io) (faults io) (ops io) (polls io) (S (ctxs io)) (cancelled io)
    (sent io) (log io).
Definition add_cancelled (c : nat) (io : IO) : IO :=
  MkIO (streams io) (tmp io) (faults io) (ops io) (polls io) (ctxs io)
    ({[c]} ∪ cancelled io) (sent io) (log io).
Definition add_event (e : Event) (io : IO) : IO :=
  MkIO (streams io) (tmp io) (faults io) (ops io) (polls io) (ctxs io) (cancelled io)
    (sent io) (log io ++ [e]).

Abbreviation T := (M IO) (only parsing).

(** What can be read through a body: [None] after Close. *)
Definition readable (b : option Body) (io : IO) : option (list Z) :=
  match b ≫= reads_from with
  | None => Some []
  | Some s =>
      match streams io !! s with
      | Some st => if closed st then None else Some (unread st)
      | None => None
      end
  end.

(** ** Operations on streams *)

Definition event (e : Event) : T unit := update (add_event e).

(** The outcome of the next input or output operation. *)
Definition io_op : T (option GoError) := λ io w, Ret (faults io (ops io), count_op io, w).

(** Operations on a closed or unknown stream fail. *)
Definition ErrClosed : GoError := New "file already closed".

Definition on_stream {A} (s : nat) (f : Stream → GoError + (A * Stream)) : T (GoError + A) :=
  fault ← io_op;
  match fault with
  | Some e => mret (inl e)
  | None => λ io w,
      match streams io !! s with
      | None => Ret (inl ErrClosed, io, w)
      | Some st =>
          if closed st then Ret (inl ErrClosed, io, w) else
          match f st with
          | inl e => Ret (inl e, io, w)
          | inr (a, st') => Ret (inr a, set_streams (<[s := st']> (streams io)) io, w)
          end
      end
  end.

Inductive whence := SeekStart | SeekCurrent | SeekEnd.

Definition seek_to (st : Stream) (offset : Z) (from : whence) : Z :=
  match from with
  | SeekStart => offset
  | SeekCurrent => off st + offset
  | SeekEnd => Z.of_nat (length (data st)) + offset
  end.

Definition Seek (s : nat) (offset : Z) (from : whence) : T (GoError + Z) :=
  on_stream s (λ st,
    let n := seek_to st offset from in
    if n <? 0 then inl (New "negative position") else inr (n, set_off n st)).

(** [io.ReadAll(io.LimitReader(r, n))]; a limit that is not positive is at the
    end of the file without a read. *)
Definition ReadLimited (s : nat) (n : Z) : T (GoError + list Z) :=
  if n <=? 0 then mret (inr []) else
  on_stream s (λ st,
    let bs := take (Z.to_nat n) (unread st) in
    inr (bs, set_off (off st + Z.of_nat (length bs)) st)).

(** [io.ReadAll(r)], as io.Copy reads *)
Definition ReadRest (s : nat) : T (GoError + list Z) :=
  on_stream s (λ st,
    inr (unread st, set_off (off st + Z.of_nat (length (unread st))) st)).

(** [f.Write(bs)] at the offset of the file *)
Definition WriteStream (s : nat) (bs : list Z) : T (GoError + unit) :=
  on_stream s (λ st,
    let n := Z.to_nat (off st) in
    inr (tt, set_off (off st + Z.of_nat (length bs))
      (set_data (take n (data st) ++ bs ++ drop (n + length bs) (data st)) st))).

(** [f.Stat()] and the size of its result *)
Definition Stat (s : nat) : T (GoError + Z) :=
  on_stream s (λ st, inr (Z.of_nat (length (data st)), st)).

(** [os.CreateTemp]: a new empty file *)
Definition createBodyTempFile : T (GoError + nat) :=
  fault ← io_op;
  match fault with
  | Some e => mret (inl e)
  | None => λ io w,
      let s := fresh (dom (streams io)) in
      Ret (inr s, set_tmp ({[(true, s); (false, s)]} ∪ tmp io)
        (set_streams (<[s := MkStream [] 0 true false]> (streams io)) io), w)
  end.

(** [os.Remove(f.Name())], whose error the code ignores *)
Definition Remove (s : nat) : T unit := update (λ io, set_tmp (tmp io ∖ {[(true, s)]}) io).

(** [bytes.NewReader(bs)], a new reader *)
Definition NewReader (bs : list Z) : T nat := λ io w,
  let s := fresh (dom (streams io)) in
  Ret (s, set_streams (<[s := MkStream bs 0 true false]> (streams io)) io, w).

Definition close_stream (s : nat) : T unit :=
  update (λ io, set_streams (alter set_closed s (streams io)) io).

(** [f.Close()] of a temporary file *)
Definition close_file (s : nat) : T unit :=
  close_stream s;;
  update (λ io, set_tmp (tmp io ∖ {[(false, s)]}) io).

(** [cancel()] of a derived context *)
Definition cancel (c : nat) : T unit := update (add_cancelled c).

(** [b.Close()]; cancelCloser.Close cancels its context first. *)
Fixpoint Close (b : Body) : T unit :=
  match b with
  | Obj s => close_stream s
  | NoBody => mret tt
  | NopCloser _ => mret tt
  | CancelCloser b c => cancel c;; Close b
  end.

(** ** Requests

    [ctx_results] gives the results of the successive calls of
    [req.Context().Err()]; [attempt_ctx] is the context and the timeout that
    RoundTrip derived for an attempt, [trace] the trace attached to it.  A
    [GetBody] is a function of the caller or one of the closures the transport
    makes ([Replay]). *)

Inductive Replay :=
  | SeekBody (b : Body) (s : nat) (startPos : Z)
  | EmptyBody
  | MemBody (bs : list Z)
  | FileBody (s : nat).

Inductive GetBodyFn :=
  | UserGetBody (f : T (GoError + Body))
  | ReplayBody (r : Replay).

Record Request := MkRequest {
  Method : string;
  req_URL : option URL;
  Host : string;
  Header : gmap string (list string);
  RemoteAddr : string;
  req_Body : option Body;
  GetBody : option GetBodyFn;
  ContentLength : Z;
  ctx_results : nat → option GoError;
  attempt_ctx : option (nat * Z);
  trace : option nat;
}.

Definition set_body (b : option Body) (r : Request) : Request :=
  MkRequest (Method r) (req_URL r) (Host r) (Header r) (RemoteAddr r) b (GetBody r)
    (ContentLength r) (ctx_results r) (attempt_ctx r) (trace r).
Definition set_GetBody (g : option GetBodyFn) (r : Request) : Request :=
  MkRequest (Method r) (req_URL r) (Host r) (Header r) (RemoteAddr r) (req_Body r) g
    (ContentLength r) (ctx_results r) (attempt_ctx r) (trace r).
Definition set_ContentLength (n : Z) (r : Request) : Request :=
  MkRequest (Method r) (req_URL r) (Host r) (Header r) (RemoteAddr r) (req_Body r) (GetBody r)
    n (ctx_results r) (attempt_ctx r) (trace r).
Definition set_Host (h : string) (r : Request) : Request :=
  MkRequest (Method r) (req_URL r) h (Header r) (RemoteAddr r) (req_Body r) (GetBody r)
    (ContentLength r) (ctx_results r) (attempt_ctx r) (trace r).
Definition set_URL (u : option URL) (r : Request) : Request :=
  MkRequest (Method r) u (Host r) (Header r) (RemoteAddr r) (req_Body r) (GetBody r)
    (ContentLength r) (ctx_results r) (attempt_ctx r) (trace r).
Definition set_attempt_ctx (c : nat * Z) (r : Request) : Request :=
  MkRequest (Method r) (req_URL r) (Host r) (Header r) (RemoteAddr r) (req_Body r) (GetBody r)
    (ContentLength r) (ctx_results r) (Some c) (trace r).
Definition set_trace (n : nat) (r : Request) : Request :=
  MkRequest (Method r) (req_URL r) (Host r) (Header r) (RemoteAddr r) (req_Body r) (GetBody r)
    (ContentLength r) (ctx_results r) (attempt_ctx r) (Some n).

(** [req.Context().Err()] *)
Definition ctx_Err (req : Request) : T (option GoError) := λ io w,
  Ret (ctx_results req (polls io), count_poll io, w).

(** A call of the body function of a request. *)
Definition call_GetBody (g : GetBodyFn) : T (GoError + Body) :=
  match g with
  | UserGetBody f => f
  | ReplayBody (SeekBody b s startPos) =>
      r ← Seek s startPos SeekStart;
      match r with
      | inl e => mret (inl e)
      | inr _ => mret (inr (NopCloser b))
      end
  | ReplayBody EmptyBody => mret (inr NoBody)
  | ReplayBody (MemBody bs) =>
      s ← NewReader bs;
      mret (inr (NopCloser (Obj s)))
  | ReplayBody (FileBody s) =>
      r ← Seek s 0 SeekStart;
      match r with
      | inl e => mret (inl e)
      | inr _ => mret (inr (NopCloser (Obj s)))
      end
  end.

(** ** RoundTrippers

    A configured [http.RoundTripper]: whether its dynamic type is
    [*http.Transport], and its RoundTrip method. *)
Abbreviation Results := (option Response * option GoError)%type (only parsing).

Record RoundTripper := MkRoundTripper {
  standard : bool;
  serve : Request → T Results;
}.

(** ** Laws of the outside world

    [io_frame D io io']: what any step does.  Streams stay, a closed one stays
    closed, and those of [D] keep their data and are not closed; contexts stay
    cancelled and counters grow. *)
Record io_frame (D : gset nat) (io io' : IO) : Prop := {
  fr_streams : ∀ s st, streams io !! s = Some st → ∃ st', streams io' !! s = Some st' ∧
    (closed st = true → closed st' = true) ∧
    (s ∈ D → data st' = data st ∧ closed st' = closed st);
  fr_faults : faults io' = faults io;
  fr_cancelled : cancelled io ⊆ cancelled io';
  fr_ctxs : (ctxs io ≤ ctxs io')%nat;
  fr_polls : (polls io ≤ polls io')%nat;
}.

(** A step of the package or of an external call that neither creates temporary
    files nor exchanges anything. *)
Definition quiet (D : gset nat) (io io' : IO) : Prop :=
  io_frame D io io' ∧ tmp io' = tmp io ∧ log io' = log io.

(** The streams a body given to somebody else leaves alone. *)
Definition spared (b : option Body) (io : IO) : gset nat :=
  match b ≫= closes with
  | Some s => dom (streams io) ∖ {[s]}
  | None => dom (streams io)
  end.

Definition new_body (b : Body) (io io' : IO) : Prop :=
  ∀ s, closes b = Some s →
    s ∉ dom (streams io) ∧ ∃ st, streams io' !! s = Some st ∧ closed st = false.

(** An external call may change the shared peers as any other goroutine. *)
Definition interference (w w' : World) : Prop :=
  wext w w' ∧ hsame (heap w) (heap w').

(** A RoundTripper returns; it closes no stream but the one of the request
    body; a response comes with a new, open body; and an [*http.Transport]
    whose trace saw nothing written has not read the body. *)
Definition RoundTripper_ok (rt : RoundTripper) : Prop := ∀ req io w,
  wp (serve rt req) (λ r io' w',
    quiet (spared (req_Body req) io) io io' ∧ interference w w' ∧
    (∀ resp b, r.1 = Some resp → resp_Body resp = Some b → new_body b io io') ∧
    (standard rt = true → (∀ n, trace req = Some n → n ∉ sent io') →
      ∀ s st, streams io !! s = Some st → off <$> streams io' !! s = Some (off st))) io w.

(** The caller's GetBody returns a new body or an error. *)
Definition GetBody_ok (g : GetBodyFn) : Prop :=
  match g with
  | UserGetBody f => ∀ io w, wp f (λ r io' w',
      quiet (dom (streams io)) io io' ∧ interference w w' ∧
      match r with inl _ => True | inr b => new_body b io io' end) io w
  | ReplayBody _ => True
  end.

(** ** Lemmas *)

#[export] Instance io_frame_preorder D : PreOrder (io_frame D).
Proof.
  split.
  - intros io. split; try done. intros s st E. by exists st.
  - intros a b c [H1 ? ? ? ?] [H2 ? ? ? ?]. split; [|congruence|set_solver|lia|lia].
    intros s st E. destruct (H1 s st E) as (st1 & E1 & Hc1 & Hd1).
    destruct (H2 s st1 E1) as (st2 & E2 & Hc2 & Hd2). exists st2.
    split_and!; [done|auto|]. intros Hs. destruct (Hd1 Hs), (Hd2 Hs). split; congruence.
Qed.

#[export] Instance quiet_preorder D : PreOrder (quiet D).
Proof.
  unfold quiet. split; [by intros io|]. intros a b c (H1 & E1 & L1) (H2 & E2 & L2).
  split_and!; [by etransitivity|congruence..].
Qed.

Lemma io_frame_mono D D' io io' : D' ⊆ D → io_frame D io io' → io_frame D' io io'.
Proof.
  intros HD [H ? ? ? ?]. split; try done. intros s st E.
  destruct (H s st E) as (st' & ? & ? & ?). exists st'. split_and!; auto.
Qed.

Lemma quiet_mono D D' io io' : D' ⊆ D → quiet D io io' → quiet D' io io'.
Proof. intros ? (? & ? & ?). split; [by eapply io_frame_mono|done]. Qed.

Lemma io_frame_dom D io io' : io_frame D io io' → dom (streams io) ⊆ dom (streams io').
Proof.
  intros [H _ _ _ _] s. rewrite !elem_of_dom. intros [st E].
  destruct (H s st E) as (st' & ? & _). by exists st'.
Qed.

#[export] Instance interference_preorder : PreOrder interference.
Proof.
  unfold interference. split; [done|]. intros a b c [] []. split; by etransitivity.
Qed.

(** A stream is updated: the frame holds when it is a change of offset, or a
    change outside [D] that does not open it. *)
Lemma frame_insert D io s st st' :
  streams io !! s = Some st → (closed st = true → closed st' = true) →
  (s ∈ D → data st' = data st ∧ closed st' = closed st) →
  quiet D io (set_streams (<[s := st']> (streams io)) io).
Proof.
  intros E Hc Hd. split; [|done]. split; try done. intros s0 st0 E0. cbn [streams set_streams].
  destruct (decide (s0 = s)) as [->|Hne].
  - rewrite E in E0. injection E0 as <-. exists st'. by rewrite lookup_insert_eq.
  - exists st0. by rewrite lookup_insert_ne.
Qed.

Lemma frame_fresh D io s st :
  streams io !! s = None → quiet D io (set_streams (<[s := st]> (streams io)) io).
Proof.
  intros E. split; [|done]. split; try done. intros s0 st0 E0. cbn [streams set_streams].
  assert (s0 ≠ s) by congruence. exists st0. by rewrite lookup_insert_ne.
Qed.

Lemma frame_count_op D io : quiet D io (count_op io).
Proof. split; [|done]. split; try done. intros s st E. by exists st. Qed.

Lemma frame_op_insert D io s st st' :
  streams io !! s = Some st → (closed st = true → closed st' = true) →
  (s ∈ D → data st' = data st ∧ closed st' = closed st) →
  quiet D io (set_streams (<[s := st']> (streams io)) (count_op io)).
Proof.
  intros. etransitivity; [apply frame_count_op|]. by apply (frame_insert D (count_op io) s st).
Qed.

Lemma frame_count_poll D io : quiet D io (count_poll io).
Proof. split; [|done]. split; try done; cbn; [|lia]. intros s st E. by exists st. Qed.

Lemma frame_new_ctx D io : quiet D io (new_ctx io).
Proof. split; [|done]. split; try done; cbn; [|lia]. intros s st E. by exists st. Qed.

Lemma frame_cancel D io c : quiet D io (add_cancelled c io).
Proof. split; [|done]. split; try done; cbn; [|set_solver]. intros s st E. by exists st. Qed.

Lemma frame_event D io e : io_frame D io (add_event e io).
Proof. split; try done. intros s st E. by exists st. Qed.

Lemma frame_set_tmp D io t : io_frame D io (set_tmp t io).
Proof. split; try done. intros s st E. by exists st. Qed.

Lemma frame_close D io s :
  s ∉ D → quiet D io (set_streams (alter set_closed s (streams io)) io).
Proof.
  intros Hs. split; [|done]. split; try done. intros s0 st0 E0. cbn [streams set_streams].
  destruct (decide (s0 = s)) as [->|Hne].
  - exists (set_closed st0). by rewrite lookup_alter_eq, E0.
  - exists st0. by rewrite lookup_alter_ne.
Qed.

#[export] Hint Resolve frame_count_op frame_count_poll frame_new_ctx frame_cancel
  frame_event frame_set_tmp : cslb.

(** *** Rules for the operations *)

Lemma wp_event e Q io w : wp (event e) Q io w ↔ Q tt (add_event e io) w.
Proof. done. Qed.

Lemma wp_ctx_Err req Q io w :
  wp (ctx_Err req) Q io w ↔ Q (ctx_results req (polls io)) (count_poll io) w.
Proof. done. Qed.

Lemma wp_cancel c Q io w : wp (cancel c) Q io w ↔ Q tt (add_cancelled c io) w.
Proof. done. Qed.

Lemma wp_close_stream s Q io w :
  wp (close_stream s) Q io w ↔ Q tt (set_streams (alter set_closed s (streams io)) io) w.
Proof. done. Qed.

Lemma wp_Remove s Q io w : wp (Remove s) Q io w ↔ Q tt (set_tmp (tmp io ∖ {[(true, s)]}) io) w.
Proof. done. Qed.

#[export] Hint Rewrite wp_event wp_ctx_Err wp_cancel wp_close_stream wp_Remove : wp.

(** Some operation of this world fails. *)
Definition faulty (io : IO) : Prop := ∃ n, faults io n ≠ None.

Lemma faulty_frame D io io' : io_frame D io io' → faulty io' → faulty io.
Proof. intros Hf. unfold faulty. by rewrite (fr_faults _ _ _ Hf). Qed.

(** An operation on an open stream acts, or fails without effect, which it only
    does in a world with faults. *)
Lemma wp_on_stream {A} s st (f : Stream → GoError + (A * Stream)) a st' Q io w :
  streams io !! s = Some st → closed st = false → f st = inr (a, st') →
  (∀ e, faulty io → Q (inl e) (count_op io) w) →
  Q (inr a) (set_streams (<[s := st']> (streams io)) (count_op io)) w →
  wp (on_stream s f) Q io w.
Proof.
  intros E Ec Ef He Ha. unfold on_stream, io_op, wp, mbind, M_bind.
  destruct (faults io (ops io)) as [e|] eqn:Ee.
  { apply He. exists (ops io). by rewrite Ee. }
  cbn [streams count_op]. by rewrite E, Ec, Ef.
Qed.

(** Close leaves the traces and the offsets alone. *)
Definition close_only (io io' : IO) : Prop :=
  sent io' = sent io ∧ ∀ s, off <$> streams io' !! s = off <$> streams io !! s.

Lemma Close_quiet D b io w :
  (∀ s, closes b = Some s → s ∉ D) →
  wp (Close b) (λ _ io' w', w' = w ∧ quiet D io io' ∧ close_only io io' ∧
    (∀ s st, closes b = Some s → streams io !! s = Some st →
       ∃ st', streams io' !! s = Some st' ∧ closed st' = true) ∧
    ∀ b' c, b = CancelCloser b' c → c ∈ cancelled io') io w.
Proof.
  revert io w. induction b as [s| |b IH|b IH c]; intros io w Hs; cbn [Close]; wp_simpl.
  - split_and!; [done|by apply frame_close, Hs| | |done].
    { split; [done|]. intros s'. cbn. rewrite lookup_alter. case_decide; subst; [|done].
      by destruct (streams io !! _). }
    intros s' st [= <-] E. exists (set_closed st). split; [|done].
    cbn. by rewrite lookup_alter_eq, E.
  - by split_and!.
  - by split_and!.
  - eapply wp_mono; [by apply IH|].
    intros [] io' w' (-> & Hq & Hsent & Hc & _). split_and!; [done| |done|exact Hc|].
    + etransitivity; [apply frame_cancel|done].
    + intros b' c' [= <- <-]. apply (fr_cancelled _ _ _ (proj1 Hq)). set_solver.
Qed.

(** A body that was closed: its stream, and the context a cancelCloser ties to
    it. *)
Definition disposed (b : Body) (io : IO) : Prop :=
  (∀ s, closes b = Some s → ∃ st, streams io !! s = Some st ∧ closed st = true) ∧
  ∀ b' c, b = CancelCloser b' c → c ∈ cancelled io.

Lemma disposed_frame b D io io' : io_frame D io io' → disposed b io → disposed b io'.
Proof.
  intros [H _ Hc _ _] [Hs Hb]. split.
  - intros s Es. destruct (Hs s Es) as (st & E & Ec).
    destruct (H s st E) as (st' & ? & ? & _). eauto.
  - intros b' c E. apply Hc. by eapply Hb.
Qed.

Lemma Close_disposes D b io w :
  (∀ s, closes b = Some s → s ∉ D ∧ s ∈ dom (streams io)) →
  wp (Close b) (λ _ io' w', w' = w ∧ quiet D io io' ∧ close_only io io' ∧ disposed b io') io w.
Proof.
  intros Hb. eapply wp_mono; [apply (Close_quiet D b io w (λ s Hs, proj1 (Hb s Hs)))|].
  intros [] io' w' (-> & Hq & Hsent & Hc & Hx). do 3 (split; [done|]).
  split; [|done]. intros s Es.
  destruct (Hb s Es) as [_ [st E]%elem_of_dom]. by apply (Hc s st).
Qed.
