(* ===== verification/Body.v ===== *)
(** * Replaying the request body (transport.go)

    prepareBody makes the body of a request available to every attempt that may
    need it: by the caller's GetBody, by seeking, by handing the stream over
    unread, or by buffering it in memory or in a temporary file. *)

From S2P Require Import Prelude GoLib Peer RoundRobin Picker Http.
#[local] Open Scope Z_scope.
#[local] Open Scope go_scope.

(** ** Definitions *)

(** The cleanup function that RoundTrip defers. *)
Inductive Cleanup :=
  | CloseBody (b : Body)
  | RemoveFile (s : nat).

Definition run_cleanup (c : Cleanup) : T unit :=
  match c with
  | CloseBody b => Close b
  | RemoveFile s => close_file s;; Remove s
  end.

(** [(getBody, cleanup, err)] *)
Abbreviation Prepared := (option GetBodyFn * option Cleanup * option GoError)%type (only parsing).

(** [f.Close(); os.Remove(f.Name())] *)
Definition discard_file (s : nat) : T unit := close_file s;; Remove s.

(** A step of readBodyWithFactory that discards the file when it fails. *)
Definition or_discard {A} (s : nat) (m : T (GoError + A)) (k : A → T (GoError + (list Z + nat)))
    : T (GoError + (list Z + nat)) :=
  r ← m;
  match r with
  | inl e => discard_file s;; mret (inl e)
  | inr a => k a
  end.

(** The result is the bytes, or the temporary file that holds them. *)
Definition readBodyWithFactory (maxBodyBuffer : Z) (r : option nat)
    (createFile : T (GoError + nat)) : T (GoError + (list Z + nat)) :=
  let limit := maxBodyBuffer in
  b ← (match r with Some s => ReadLimited s (limit +! 1) | None => mret (inr []) end);
  match b with
  | inl e => mret (inl e)
  | inr b =>
      if Z.of_nat (length b) <=? limit then mret (inr (inl b)) else
      f ← createFile;
      match f with
      | inl e => mret (inl e)
      | inr f =>
          or_discard f (WriteStream f b) (λ _,
          or_discard f (match r with Some s => ReadRest s | None => mret (inr []) end) (λ rest,
          or_discard f (WriteStream f rest) (λ _,
          or_discard f (Seek f 0 SeekStart) (λ _,
          mret (inr (inr f))))))
      end
  end.

Definition readBody (maxBodyBuffer : Z) (b : Body) : T (GoError + (list Z + nat)) :=
  readBodyWithFactory maxBodyBuffer (reads_from b) createBodyTempFile.

Definition prepareSpilledBody (req : Request) (f : nat) : T (Prepared * Request) :=
  stat ← Stat f;
  match stat with
  | inl e => discard_file f;; mret ((None, None, Some e), req)
  | inr size =>
      mret ((Some (ReplayBody (FileBody f)), Some (RemoveFile f), None),
            set_ContentLength size req)
  end.

(** The dynamic type of the body implements io.Seeker. *)
Definition as_seeker (b : Body) (io : IO) : option nat :=
  match b with
  | Obj s => match streams io !! s with
             | Some st => if seekable st then Some s else None
             | None => None
             end
  | _ => None
  end.

(** The clamping of a stale ContentLength to what is left of the body: an
    explicit empty body, or the request with its length. *)
Definition clamp_length (remaining : Z) (req : Request) : option Request :=
  if (remaining =? 0) && (0 <? ContentLength req) then None
  else if (0 <? remaining) && (remaining <? ContentLength req)
  then Some (set_ContentLength remaining req) else Some req.

Definition prepareSeeker (req : Request) (initialBody : Body) (s : nat)
    : T (Prepared * Request) :=
  let replay startPos req :=
    mret ((Some (ReplayBody (SeekBody initialBody s startPos)), Some (CloseBody initialBody),
           None), req) in
  start ← Seek s 0 SeekCurrent;
  match start with
  | inl e => Close initialBody;; mret ((None, None, Some e), req)
  | inr startPos =>
      end_ ← Seek s 0 SeekEnd;
      match end_ with
      | inl _ => replay startPos req
      | inr endPos =>
          back ← Seek s startPos SeekStart;
          match back with
          | inl e => Close initialBody;; mret ((None, None, Some e), req)
          | inr _ =>
              let remaining := Z.max 0 (endPos -! startPos) in
              match clamp_length remaining req with
              | None =>
                  mret ((Some (ReplayBody EmptyBody), Some (CloseBody initialBody), None),
                        set_ContentLength 0 req)
              | Some req => replay startPos req
              end
          end
      end
  end.

(** [req] is a copy of the caller's request, which the code updates in place:
    the second component of the result. *)
Definition prepareBody (maxBodyBuffer : Z) (req : Request) (replayPossible : bool)
    : T (Prepared * Request) :=
  match GetBody req with
  | Some g =>
      match req_Body req with
      | None => mret ((Some g, None, None), req)
      | Some initialBody => mret ((Some g, Some (CloseBody initialBody), None), req)
      end
  | None =>
      match req_Body req with
      | None => mret ((None, None, None), req)
      | Some b =>
          io ← self;
          match as_seeker b io with
          | Some s => prepareSeeker req b s
          | None =>
              if negb replayPossible then
                mret ((None, Some (CloseBody b), None), set_body (Some (NopCloser b)) req)
              else
                r ← readBody maxBodyBuffer b;
                Close b;;
                match r with
                | inl e => mret ((None, None, Some e), req)
                | inr (inr f) => prepareSpilledBody req f
                | inr (inl bs) =>
                    mret ((Some (ReplayBody (MemBody bs)), None, None),
                          set_ContentLength (Z.of_nat (length bs)) req)
                end
          end
      end
  end.

(** ** Specifications *)

(** What is left of a stream, from an offset. *)
Definition stream_has (s : nat) (C : list Z) (from : Z) (io : IO) : Prop :=
  ∃ st, streams io !! s = Some st ∧ closed st = false ∧ drop (Z.to_nat from) (data st) = C.

(** A body function that can produce the bytes [C] again, and the stream it
    needs. *)
Definition replays (g : GetBodyFn) (C : list Z) (io : IO) : Prop :=
  match g with
  | UserGetBody _ => True
  | ReplayBody (SeekBody b s startPos) =>
      reads_from b = Some s ∧ 0 <= startPos ∧ stream_has s C startPos io
  | ReplayBody EmptyBody => C = []
  | ReplayBody (MemBody bs) => bs = C
  | ReplayBody (FileBody s) => stream_has s C 0 io
  end.

Definition needs (g : GetBodyFn) : gset nat :=
  match g with
  | ReplayBody (SeekBody _ s _) => {[s]}
  | ReplayBody (FileBody s) => {[s]}
  | _ => ∅
  end.

Definition user_function (g : GetBodyFn) : bool :=
  match g with UserGetBody _ => true | ReplayBody _ => false end.

(** A body function that can return an error: a function of the caller, or one of
    the transport in a world with faults. *)
Definition may_fail (g : GetBodyFn) (io : IO) : Prop :=
  match g with
  | UserGetBody f => ∃ io w e io' w', f io w = Ret (inl e, io', w')
  | ReplayBody _ => faulty io
  end.

(** The caller's body is closed. *)
Definition shut (b : option Body) (io : IO) : Prop :=
  ∀ s st, b ≫= closes = Some s → streams io !! s = Some st → closed st = true.

(** A body whose stream is in a regular state. *)
Definition body_ok (b : option Body) (io : IO) : Prop :=
  ∀ s, b ≫= reads_from = Some s → ∃ st, streams io !! s = Some st ∧
    0 <= off st <= max_int ∧ Z.of_nat (length (data st)) <= max_int.

(** ** Lemmas *)

Lemma closes_reads b s : closes b = Some s → reads_from b = Some s.
Proof. induction b; cbn; auto; done. Qed.

Lemma stream_has_frame s C n D io io' :
  io_frame D io io' → s ∈ D → stream_has s C n io → stream_has s C n io'.
Proof.
  intros [H _ _ _ _] Hs (st & E & Hc & Hd).
  destruct (H s st E) as (st' & E' & _ & Hst). destruct (Hst Hs) as [Ed Ec].
  exists st'. split_and!; congruence.
Qed.

Lemma replays_frame g C D io io' :
  io_frame D io io' → needs g ⊆ D → replays g C io → replays g C io'.
Proof.
  intros Hf Hn. destruct g as [f|[b s p| |bs|s]]; cbn in *; try done.
  - intros (? & ? & Hs). split_and!; [done..|]. eapply stream_has_frame; [done|set_solver|done].
  - intros Hs. eapply stream_has_frame; [done|set_solver|done].
Qed.

Lemma may_fail_frame g D io io' : io_frame D io io' → may_fail g io' → may_fail g io.
Proof. destruct g; [done|]. apply faulty_frame. Qed.

Lemma shut_frame b D io io' :
  io_frame D io io' → (∀ s, b ≫= closes = Some s → s ∈ dom (streams io)) →
  shut b io → shut b io'.
Proof.
  intros [H _ _ _ _] Hd Hs s st' Eb E'. specialize (Hd s Eb). apply elem_of_dom in Hd as [st E].
  destruct (H s st E) as (st1 & E1 & Hc & _). rewrite E' in E1. injection E1 as <-.
  by apply Hc, (Hs s).
Qed.

(** Seeking in an open stream. *)
Lemma wp_Seek s st n from Q io w :
  streams io !! s = Some st → closed st = false → 0 <= seek_to st n from →
  (∀ e, faulty io → Q (inl e) (count_op io) w) →
  (∀ io', quiet (dom (streams io)) io io' →
     streams io' !! s = Some (set_off (seek_to st n from) st) → Q (inr (seek_to st n from)) io' w) →
  wp (Seek s n from) Q io w.
Proof.
  intros E Hc Hn He Ha. eapply wp_on_stream; [exact E|exact Hc| |exact He|].
  - cbn zeta. by rewrite (proj2 (Z.ltb_ge _ _)) by lia.
  - apply Ha; [by apply (frame_op_insert _ _ s st)|]. cbn. by rewrite lookup_insert_eq.
Qed.

Lemma readable_seeked b s st n C io :
  reads_from b = Some s → streams io !! s = Some (set_off n st) → closed st = false →
  drop (Z.to_nat n) (data st) = C → readable (Some b) io = Some C.
Proof. unfold readable. cbn. intros -> -> Hc <-. cbn. by rewrite Hc. Qed.

(** A function of the transport produces its bytes in every state that kept the
    stream it needs, unless an operation fails. *)
Lemma call_GetBody_replays g C io w :
  user_function g = false → replays g C io →
  wp (call_GetBody g) (λ r io' w', w' = w ∧ quiet (dom (streams io)) io io' ∧
    match r with
    | inl _ => faulty io
    | inr b => readable (Some b) io' = Some C ∧ closes b = None
    end) io w.
Proof.
  intros Hu Hr. destruct g as [f|[b s p| |bs|s]]; [done|..]; cbn [call_GetBody replays] in *;
    wp_simpl.
  - destruct Hr as (Hb & Hp & st & E & Hc & HC). eapply wp_Seek; [exact E|exact Hc|exact Hp|..].
    + intros e He. wp_simpl. split_and!; [done|apply frame_count_op|done].
    + intros io' Hq E'. wp_simpl. split_and!; [done|done| |done].
      by eapply (readable_seeked _ s st p).
  - subst C. by split_and!.
  - subst C. unfold NewReader, wp. cbn [reads_from closes].
    set (s := fresh _). assert (streams io !! s = None) as Hs
      by (apply not_elem_of_dom, is_fresh). split_and!; [done|by apply frame_fresh| |done].
    unfold readable. cbn. by rewrite lookup_insert_eq.
  - destruct Hr as (st & E & Hc & HC). eapply wp_Seek; [exact E|exact Hc|done|..].
    + intros e He. wp_simpl. split_and!; [done|apply frame_count_op|done].
    + intros io' Hq E'. wp_simpl. split_and!; [done|done| |done].
      by eapply (readable_seeked _ s st 0).
Qed.

(** *** Buffering and spilling *)

(** Resources of temporary files belong to streams that exist. *)
Definition tmp_ok (io : IO) : Prop := ∀ k s, (k, s) ∈ tmp io → s ∈ dom (streams io).

(** While the bytes [X] have been spilled to [f]. *)
Definition spilling (io : IO) (f : nat) (X : list Z) (n : Z) (io' : IO) : Prop :=
  io_frame (dom (streams io)) io io' ∧ log io' = log io ∧ f ∉ dom (streams io) ∧
  tmp io' = {[(true, f); (false, f)]} ∪ tmp io ∧
  streams io' !! f = Some (MkStream X n true false).

Lemma tmp_released io f t :
  tmp_ok io → f ∉ dom (streams io) → t = {[(true, f); (false, f)]} ∪ tmp io →
  t ∖ {[(false, f)]} ∖ {[(true, f)]} = tmp io.
Proof.
  intros Hok Hf ->. apply set_eq. intros [k s].
  rewrite !elem_of_difference, elem_of_union, elem_of_union, !elem_of_singleton. split.
  - intros [[[[?|?]|?] ?] ?]; [congruence..|done].
  - intros Hin. split_and!; [by right| |]; intros [= -> ->]; by eapply Hf, Hok.
Qed.

Lemma release_file io f X n io1 w :
  tmp_ok io → spilling io f X n io1 →
  wp (discard_file f) (λ _ io' w', w' = w ∧ quiet (dom (streams io)) io io' ∧
    ∃ st, streams io' !! f = Some st ∧ closed st = true) io1 w.
Proof.
  intros Hok (Hfr & Hl & Hf & Ht & Es). unfold discard_file, close_file, quiet. wp_simpl.
  split; [done|]. split_and!.
  - etransitivity; [exact Hfr|]. eapply io_frame_mono;
      [|etransitivity; [apply (frame_close _ io1 f Hf)|]]; [done|].
    etransitivity; apply frame_set_tmp.
  - cbn. by rewrite (tmp_released io).
  - done.
  - cbn. rewrite lookup_alter_eq, Es. by eexists.
Qed.

Lemma or_discard_spec {A} io f m (k : A → T (GoError + (list Z + nat)))
    (Φ : A → IO → Prop) (Q : GoError + (list Z + nat) → IO → World → Prop) io1 w :
  tmp_ok io →
  wp m (λ r io2 w2, w2 = w ∧
    match r with
    | inl _ => faulty io ∧ ∃ X n, spilling io f X n io2
    | inr a => Φ a io2
    end) io1 w →
  (∀ e io3, faulty io → quiet (dom (streams io)) io io3 → Q (inl e) io3 w) →
  (∀ a io2, Φ a io2 → wp (k a) Q io2 w) →
  wp (or_discard f m k) Q io1 w.
Proof.
  intros Hok Hm He Hk. unfold or_discard. wp_simpl. eapply wp_mono; [exact Hm|].
  intros [e|a] io2 w2 [-> H2]; [|by apply Hk]. destruct H2 as (Hbad & X & n & Hs). wp_simpl.
  eapply wp_mono; [by eapply release_file|]. intros _ io3 w3 (-> & Hq & _). wp_simpl.
  by apply He.
Qed.

Lemma spilling_op io f X n io1 : spilling io f X n io1 → spilling io f X n (count_op io1).
Proof.
  intros (H1 & ? & ? & ? & ?). split_and!; try done. etransitivity; [exact H1|].
  apply frame_count_op.
Qed.

(** A step on the file, or a step on the request stream that keeps its data. *)
Lemma wp_file {A} io f X n Y m g (a : A) Q io1 w :
  spilling io f X n io1 → g (MkStream X n true false) = inr (a, MkStream Y m true false) →
  (∀ e io2, faulty io → spilling io f X n io2 → Q (inl e) io2 w) →
  (∀ io2, spilling io f Y m io2 → (∀ s, s ≠ f → streams io2 !! s = streams io1 !! s) →
     Q (inr a) io2 w) →
  wp (on_stream f g) Q io1 w.
Proof.
  intros Hs Hg He Ha. pose proof Hs as (H1 & ? & Hf & ? & Es).
  apply (wp_on_stream f (MkStream X n true false) _ a (MkStream Y m true false)); [done..| |].
  - intros e Hbad. apply He; [by eapply faulty_frame|by apply spilling_op].
  - apply Ha; [split_and!; try done|].
    + etransitivity; [exact H1|]. by apply (frame_op_insert _ io1 f _ _ Es).
    + cbn. by rewrite lookup_insert_eq.
    + intros s Hne. cbn. by rewrite lookup_insert_ne.
Qed.

Lemma spilling_read io f X n io1 s st st' :
  spilling io f X n io1 → s ∈ dom (streams io) → streams io1 !! s = Some st →
  data st' = data st → closed st' = closed st →
  spilling io f X n (set_streams (<[s := st']> (streams io1)) (count_op io1)).
Proof.
  intros (H1 & ? & Hf & ? & Es) Hs Est Hd Hc. split_and!; try done.
  - etransitivity; [exact H1|]. apply (frame_op_insert _ io1 s st); [done|by rewrite Hc|done].
  - cbn. rewrite lookup_insert_ne; [done|]. intros ->. done.
Qed.

Definition body_read (C : list Z) (limit : Z) (io : IO) (r : GoError + (list Z + nat))
    (io' : IO) : Prop :=
  io_frame (dom (streams io)) io io' ∧ log io' = log io ∧
  match r with
  | inl _ => faulty io ∧ tmp io' = tmp io
  | inr (inl bs) => bs = C ∧ Z.of_nat (length C) <= limit ∧ tmp io' = tmp io
  | inr (inr f) => limit < Z.of_nat (length C) ∧ spilling io f C 0 io'
  end.

Lemma write_end (X Y : list Z) n :
  n = Z.of_nat (length X) →
  take (Z.to_nat n) X ++ Y ++ drop (Z.to_nat n + length Y) X = X ++ Y.
Proof.
  intros ->. rewrite Nat2Z.id, take_ge, drop_ge by lia. by rewrite app_nil_r.
Qed.

Lemma create_spec io io1 w :
  quiet (dom (streams io)) io io1 →
  wp createBodyTempFile (λ r io' w', w' = w ∧
    match r with
    | inl _ => faulty io ∧ quiet (dom (streams io)) io io'
    | inr f => spilling io f [] 0 io' ∧
               ∀ s, s ∈ dom (streams io) → streams io' !! s = streams io1 !! s
    end) io1 w.
Proof.
  intros Hq. unfold createBodyTempFile, io_op, wp, mbind, M_bind.
  destruct (faults io1 (ops io1)) as [e|] eqn:Ee.
  { split; [done|]. split; [|etransitivity; [exact Hq|apply frame_count_op]].
    apply (faulty_frame _ _ _ (proj1 Hq)). exists (ops io1). by rewrite Ee. }
  cbn [streams count_op]. set (f := fresh _).
  assert (f ∉ dom (streams io1)) as Hf by apply is_fresh.
  assert (f ∉ dom (streams io)) as Hf0.
  { intros Hin. by apply Hf, (io_frame_dom _ _ _ (proj1 Hq)). }
  split; [done|]. split; [split_and!|].
  - etransitivity; [apply Hq|]. etransitivity; [apply frame_count_op|].
    etransitivity; [|apply frame_set_tmp].
    apply (frame_fresh _ (count_op io1) f). by apply not_elem_of_dom.
  - apply Hq.
  - done.
  - cbn. by rewrite (proj1 (proj2 Hq)).
  - cbn. by rewrite lookup_insert_eq.
  - intros s Hs. cbn. rewrite lookup_insert_ne; [done|]. intros <-. done.
Qed.

(** The four steps that fill the temporary file. *)
Lemma spill_spec io f s st bs C io1 w :
  tmp_ok io → spilling io f [] 0 io1 → s ∈ dom (streams io) →
  streams io1 !! s = Some st → closed st = false → bs ++ unread st = C →
  wp (or_discard f (WriteStream f bs) (λ _,
      or_discard f (ReadRest s) (λ rest,
      or_discard f (WriteStream f rest) (λ _,
      or_discard f (Seek f 0 SeekStart) (λ _, mret (inr (inr f)))))))
    (λ r io' w', w' = w ∧ match r with
       | inl _ => faulty io ∧ quiet (dom (streams io)) io io'
       | inr (inr g) => g = f ∧ spilling io f C 0 io'
       | inr (inl _) => False
       end) io1 w.
Proof.
  intros Hok Hs0 Hs Est Hc HC.
  assert (s ≠ f) as Hne by (intros ->; by apply (proj1 (proj2 (proj2 Hs0)))).
  apply (or_discard_spec io f _ _ (λ _ io2,
    spilling io f bs (Z.of_nat (length bs)) io2 ∧ streams io2 !! s = Some st)); [done|..].
  { eapply wp_file; [exact Hs0|by cbn; rewrite (write_end [] bs 0)|..].
    - intros e io2 Hbad H2. eauto.
    - intros io2 H2 Hk. by rewrite Hk. }
  { by intros e io3 Hbad Hq. }
  clear io1 Hs0 Est. intros _ io1 [Hs1 Est].
  apply (or_discard_spec io f _ _ (λ rest io2, rest = unread st ∧
    spilling io f bs (Z.of_nat (length bs)) io2)); [done|..].
  { eapply wp_on_stream; [exact Est|exact Hc|reflexivity|..].
    - intros e Hbad%(faulty_frame _ _ _ (proj1 Hs1)). eauto 6 using spilling_op.
    - split_and!; [done..|]. by eapply spilling_read. }
  { by intros e io3 Hbad Hq. }
  clear io1 Hs1 Est. intros rest io1 [-> Hs1].
  apply (or_discard_spec io f _ _ (λ _ io2,
    spilling io f C (Z.of_nat (length C)) io2)); [done|..].
  { eapply wp_file; [exact Hs1| |by eauto|by auto].
    unfold set_off, set_data. cbn [off data seekable closed]. rewrite write_end by done.
    do 3 f_equal; [done|]. rewrite <-HC, length_app. lia. }
  { by intros e io3 Hbad Hq. }
  clear io1 Hs1. intros _ io1 Hs1.
  apply (or_discard_spec io f _ _ (λ _ io2, spilling io f C 0 io2)); [done|..].
  { eapply wp_file; [exact Hs1|reflexivity|by eauto|by auto]. }
  { by intros e io3 Hbad Hq. }
  intros _ io2 Hs2. by wp_simpl.
Qed.

Lemma readBody_spec limit b C io w :
  0 <= limit < max_int → tmp_ok io → body_ok (Some b) io → readable (Some b) io = Some C →
  wp (readBody limit b) (λ r io' w', w' = w ∧ body_read C limit io r io') io w.
Proof.
  intros Hl Hok Hb HC. unfold readBody, readBodyWithFactory.
  unfold readable, body_ok in *. cbn [mbind option_bind] in *.
  replace (limit +! 1) with (limit + 1) by int_lia.
  destruct (reads_from b) as [s|] eqn:Eb.
  2:{ injection HC as <-. wp_simpl. change (Z.of_nat (length [])) with 0.
    rewrite (proj2 (Z.leb_le 0 limit)) by lia. wp_simpl.
      split; [done|]. by split_and!; [..|cbn; lia|]. }
  destruct (Hb s eq_refl) as (st & Es & Hoff & _). rewrite Es in HC.
  destruct (closed st) eqn:Ec; [done|]. injection HC as HC. unfold ReadLimited.
  rewrite (proj2 (Z.leb_gt (limit + 1) 0)) by lia. wp_simpl.
  eapply wp_on_stream; [exact Es|exact Ec|reflexivity|..].
  { intros e Hbad. wp_simpl. split; [done|]. split_and!; [apply frame_count_op|done..]. }
  set (bs := take (Z.to_nat (limit + 1)) (unread st)).
  set (io1 := set_streams _ _).
  assert (quiet (dom (streams io)) io io1) as Hq.
  { unfold io1. by apply (frame_op_insert _ _ s st). }
  assert (length bs = Nat.min (Z.to_nat (limit + 1)) (length C)) as Hlen
    by (unfold bs; by rewrite length_take, HC).
  destruct (Z.leb_spec (Z.of_nat (length bs)) limit) as [Hle|Hgt]; wp_simpl.
  { split; [done|]. split_and!; [apply Hq..| |lia|apply Hq].
    unfold bs. rewrite HC, take_ge; [done|lia]. }
  eapply wp_mono; [by apply (create_spec io)|]. intros [e|f] io2 w2 [-> H2].
  { wp_simpl. split; [done|]. split_and!; apply H2. }
  destruct H2 as [Hs2 Hkeep].
  assert (s ∈ dom (streams io)) as Hs by (apply elem_of_dom; by eexists).
  eapply wp_mono.
  - apply (spill_spec io f s (set_off (off st + Z.of_nat (length bs)) st) bs C); try done.
    + rewrite Hkeep by done. unfold io1. cbn. by rewrite lookup_insert_eq.
    + unfold unread at 1. cbn [off data set_off].
      rewrite <-(take_drop (Z.to_nat (limit + 1)) C). f_equal; [by unfold bs; rewrite HC|].
      rewrite <-HC. unfold unread. rewrite drop_drop. f_equal. lia.
  - intros [e|[?|g]] io3 w3 [-> H3]; [|done|].
    + split; [done|]. split_and!; apply H3.
    + destruct H3 as [-> H3]. split; [done|]. split_and!; [apply H3..|lia|done].
Qed.

(** *** prepareBody *)

(** prepareBody changes the length and the body of the request copy only. *)
Definition same_request (req req' : Request) : Prop :=
  ∃ n b, req' = set_ContentLength n (set_body b req).

(** What prepareBody promises: on an error the caller's body is closed and
    nothing is left; otherwise the body function, or the body of the request
    where there is none, produces [C], and the cleanup will close and remove
    what is left. *)
Record prep_post (replayPossible : bool) (C : list Z) (req : Request) (io : IO) (res : Prepared) (req' : Request)
    (io' : IO) : Prop := {
  pp_frame : io_frame (spared (req_Body req) io) io io';
  pp_log : log io' = log io;
  pp_request : same_request req req';
  pp_err : ∀ e, res.2 = Some e → res = (None, None, Some e) ∧ shut (req_Body req) io' ∧
    tmp io' = tmp io ∧ req_Body req ≠ None ∧ faulty io;
  pp_getBody : ∀ g, res.2 = None → res.1.1 = Some g →
    (GetBody req = Some g ∧ user_function g = true ∨
     user_function g = false ∧ req_Body req ≠ None) ∧
    replays g C io' ∧ needs g ⊆ dom (streams io');
  pp_stream : res.2 = None → res.1.1 = None →
    readable (req_Body req') io' = Some C ∧ req_Body req' ≫= closes = None ∧
    (req_Body req' = None ∨ res.1.2 ≠ None);
  pp_once : res.2 = None → res.1.1 = None →
    req_Body req' = None ∨ replayPossible = false;
  pp_cleanup : res.2 = None →
    match res.1.2 with
    | None => shut (req_Body req) io' ∧ tmp io' = tmp io
    | Some (CloseBody b) => req_Body req = Some b ∧ tmp io' = tmp io
    | Some (RemoveFile f) => shut (req_Body req) io' ∧ f ∉ dom (streams io) ∧
        f ∈ dom (streams io') ∧ tmp io' = {[(true, f); (false, f)]} ∪ tmp io
    end;
}.

Lemma same_request_refl req : same_request req req.
Proof. exists (ContentLength req), (req_Body req). by destruct req. Qed.

Lemma spared_sub b io : spared b io ⊆ dom (streams io).
Proof. unfold spared. destruct (b ≫= closes); set_solver. Qed.

Lemma body_ok_closes b io s : body_ok b io → b ≫= closes = Some s → s ∈ dom (streams io).
Proof.
  intros Hb Hs. destruct b as [b|]; [|done]. destruct (Hb s) as (st & E & _).
  { by apply closes_reads. }
  apply elem_of_dom. by eexists.
Qed.

(** Closing the caller's body. *)
Lemma Close_body b io io1 w :
  body_ok (Some b) io → io_frame (spared (Some b) io) io io1 →
  wp (Close b) (λ _ io' w', w' = w ∧ quiet (spared (Some b) io) io1 io' ∧
    shut (Some b) io') io1 w.
Proof.
  intros Hb Hq. eapply wp_mono.
  - apply (Close_quiet (spared (Some b) io)). intros s Es. unfold spared. cbn.
    rewrite Es. set_solver.
  - intros [] io' w' (-> & Hq' & _ & Hc & _). split_and!; [done|done|].
    intros s st' Es E'. pose proof (body_ok_closes _ _ _ Hb Es) as Hd.
    apply (io_frame_dom _ _ _ Hq) in Hd. apply elem_of_dom in Hd as [st E].
    destruct (Hc s st Es E) as (st1 & E2 & ?). congruence.
Qed.

(** The failing branch after a quiet prefix. *)
Lemma prep_fail rp C b req io io1 e w :
  req_Body req = Some b → body_ok (Some b) io → quiet (spared (Some b) io) io io1 → faulty io →
  wp (Close b;; mret ((None, None, Some e), req))
    (λ r io' w', w' = w ∧ prep_post rp C req io r.1 r.2 io') io1 w.
Proof.
  intros Eb Hb Hq Hbad. wp_simpl. eapply wp_mono; [apply (Close_body _ _ _ _ Hb), Hq|].
  intros _ io' w' (-> & (Hf & Ht & Hl) & Hs). destruct Hq as (Hf0 & Ht0 & Hl0). wp_simpl.
  split; [done|]. split; rewrite ?Eb; cbn [fst snd]; try done.
  - by etransitivity.
  - congruence.
  - apply same_request_refl.
  - intros e' [= <-]. do 2 (split; [done|]). split; [congruence|done].
Qed.

Lemma clamp_length_spec remaining req req' :
  clamp_length remaining req = Some req' → same_request req req' ∧ req_Body req' = req_Body req ∧
    GetBody req' = GetBody req.
Proof.
  unfold clamp_length. destruct (_ && _); [done|]. destruct (_ && _); intros [= <-].
  - split; [|done]. exists remaining, (req_Body req). by destruct req.
  - split; [|done]. apply same_request_refl.
Qed.

(** The body function that seeks back. *)
Lemma prep_replay rp C b s st req req' io io1 :
  req_Body req = Some b → reads_from b = Some s → same_request req req' →
  quiet (dom (streams io)) io io1 → streams io !! s = Some st → closed st = false →
  0 <= off st → unread st = C →
  prep_post rp C req io (Some (ReplayBody (SeekBody b s (off st))), Some (CloseBody b), None) req' io1.
Proof.
  intros Eb Er Hreq (Hf & Ht & Hl) Es Hc Ho HC.
  assert (s ∈ dom (streams io)) as Hs by (apply elem_of_dom; by eexists).
  split; cbn [fst snd]; try done.
  - eapply io_frame_mono; [apply spared_sub|done].
  - intros g _ [= <-]. cbn [replays needs].
    split; [right; by rewrite ?Eb|]. split_and!; [done..| |].
    + eapply stream_has_frame; [exact Hf|done|]. by exists st.
    + apply (io_frame_dom _ _ _ Hf) in Hs. set_solver.
Qed.

(** Nothing is left of a body that declared a length. *)
Lemma prep_empty rp C b st req io io1 :
  req_Body req = Some b → clamp_length (Z.max 0 (Z.of_nat (length (data st)) - off st)) req = None →
  quiet (dom (streams io)) io io1 → unread st = C →
  prep_post rp C req io (Some (ReplayBody EmptyBody), Some (CloseBody b), None)
    (set_ContentLength 0 req) io1.
Proof.
  intros Eb Ecl (Hf & Ht & Hl) HC. split; cbn [fst snd]; try done.
  - eapply io_frame_mono; [apply spared_sub|done].
  - exists 0, (req_Body req). by destruct req.
  - intros g _ [= <-]. split; [right; by rewrite ?Eb|]. split; [|apply empty_subseteq]. cbn.
    unfold clamp_length in Ecl. case_match eqn:E; [|by case_match].
    apply andb_true_iff in E as [E%Z.eqb_eq _].
    rewrite <-HC. unfold unread. apply drop_ge. lia.
Qed.

Lemma prepareSeeker_spec rp C s st req io w :
  req_Body req = Some (Obj s) → streams io !! s = Some st → closed st = false →
  0 <= off st → Z.of_nat (length (data st)) <= max_int → off st <= max_int → unread st = C →
  wp (prepareSeeker req (Obj s) s)
    (λ r io' w', w' = w ∧ prep_post rp C req io r.1 r.2 io') io w.
Proof.
  intros Eb Es Hc Ho Hlen Hoff HC. unfold prepareSeeker.
  assert (body_ok (Some (Obj s)) io) as Hbody.
  { intros s' [= <-]. exists st. split_and!; [done|lia..]. }
  assert (∀ io1, quiet (dom (streams io)) io io1 → quiet (spared (Some (Obj s)) io) io io1) as Hsp
    by (intros io1; apply quiet_mono, spared_sub).
  assert (∀ io1, quiet (dom (streams io)) io io1 → quiet (dom (streams io)) io (count_op io1)) as Hop
    by (intros io1 ?; etransitivity; [done|apply frame_count_op]).
  wp_simpl. apply (wp_Seek s st); [done|done|cbn; lia|..].
  { intros e Hbad. apply (prep_fail rp C); try done. by apply Hsp, Hop. }
  intros io1 Hq1 Es1. cbn [seek_to] in *. rewrite Z.add_0_r in *. wp_simpl.
  apply (wp_Seek s (set_off (off st) st)); [done|done|cbn; lia|..].
  { intros e _. wp_simpl. split; [done|].
    apply (prep_replay rp C); try done; [apply same_request_refl|by apply Hop]. }
  intros io2 Hq2 Es2. cbn [seek_to data set_off] in *. rewrite Z.add_0_r in *. wp_simpl.
  assert (quiet (dom (streams io)) io io2) as Hq.
  { etransitivity; [exact Hq1|]. eapply quiet_mono, Hq2. by eapply io_frame_dom, Hq1. }
  eapply wp_Seek; [exact Es2|done|done|..].
  { intros e Hbad%(faulty_frame _ _ _ (proj1 Hq)). apply (prep_fail rp C); try done.
    by apply Hsp, Hop. }
  intros io3 Hq3 _. wp_simpl.
  assert (quiet (dom (streams io)) io io3) as Hq'.
  { etransitivity; [exact Hq|]. eapply quiet_mono, Hq3. by eapply io_frame_dom, Hq. }
  replace (Z.of_nat (length (data st)) -! off st)
    with (Z.of_nat (length (data st)) - off st) by int_lia.
  destruct (clamp_length _ req) as [req'|] eqn:Ecl; wp_simpl; (split; [done|]).
  - destruct (clamp_length_spec _ _ _ Ecl) as (? & ? & ?). by apply (prep_replay rp C).
  - by eapply prep_empty.
Qed.

(** What prepareBody needs: an open body in a regular state, a limit that
    leaves room for one more byte, a GetBody of the caller. *)
Record prep_pre (limit : Z) (C : list Z) (req : Request) (io : IO) : Prop := {
  pr_limit : 0 <= limit < max_int;
  pr_tmp : tmp_ok io;
  pr_body : body_ok (req_Body req) io;
  pr_content : readable (req_Body req) io = Some C;
  pr_GetBody : ∀ g, GetBody req = Some g → user_function g = true;
}.

(** After the body was read and closed. *)
Lemma spilling_frame io f C n D io1 io2 :
  spilling io f C n io1 → quiet D io1 io2 → dom (streams io) ⊆ D → f ∈ D →
  f ∉ dom (streams io) ∧ f ∈ dom (streams io2) ∧ stream_has f C 0 io2 ∧
  tmp io2 = {[(true, f); (false, f)]} ∪ tmp io ∧ log io2 = log io.
Proof.
  intros (H1 & Hl & Hf & Ht & Es) (H2 & Ht2 & Hl2) HD HfD. split_and!; [done| | |congruence..].
  - apply (io_frame_dom _ _ _ H2), elem_of_dom. by eexists.
  - eapply stream_has_frame; [done..|]. by eexists.
Qed.

Lemma prepareSpilledBody_spec rp C b req io io1 f w :
  req_Body req = Some b → tmp_ok io → io_frame (spared (Some b) io) io io1 →
  body_ok (Some b) io → shut (Some b) io1 → log io1 = log io → f ∉ dom (streams io) →
  tmp io1 = {[(true, f); (false, f)]} ∪ tmp io → stream_has f C 0 io1 →
  wp (prepareSpilledBody req f) (λ r io' w', w' = w ∧ prep_post rp C req io r.1 r.2 io') io1 w.
Proof.
  intros Eb Hok Hfr Hbody Hshut Hl Hf Ht Hhas. unfold prepareSpilledBody. wp_simpl.
  assert (∀ s, Some b ≫= closes = Some s → s ∈ dom (streams io1)) as Hdom.
  { intros s Es. eapply io_frame_dom; [exact Hfr|]. by eapply body_ok_closes. }
  destruct Hhas as (st & E & Hc & Hhas).
  eapply wp_on_stream; [exact E|exact Hc|reflexivity|..].
  - intros e Hbad%(faulty_frame _ _ _ Hfr). unfold discard_file, close_file. wp_simpl.
    split; [done|]. split; rewrite ?Eb; cbn [fst snd]; try done.
    + etransitivity; [exact Hfr|]. etransitivity; [apply (frame_count_op _ io1)|].
      etransitivity; [|apply frame_set_tmp]. etransitivity; [|apply frame_set_tmp].
      apply (frame_close _ (count_op io1)). intros Hin. by apply Hf, (spared_sub _ _ _ Hin).
    + apply same_request_refl.
    + intros e' [= <-]. split; [done|]. split; [|split; [|by rewrite ?Eb]].
      * eapply (shut_frame _ ∅ io1); [|done..].
        etransitivity; [apply (frame_count_op _ io1)|].
        etransitivity; [|apply frame_set_tmp]. etransitivity; [|apply frame_set_tmp].
        by apply (frame_close _ (count_op io1)).
      * cbn. by apply (tmp_released io).
  - wp_simpl. split; [done|]. set (io2 := set_streams _ _).
    assert (quiet (dom (streams io1)) io1 io2) as (Hf2 & Ht2 & Hl2)
      by (by apply (frame_op_insert _ _ f st)).
    assert (f ∈ dom (streams io1)) as Hfd by (apply elem_of_dom; by eexists).
    split; rewrite ?Eb; cbn [fst snd]; try done.
    + etransitivity; [exact Hfr|]. eapply io_frame_mono; [|exact Hf2].
      etransitivity; [apply spared_sub|]. by eapply io_frame_dom.
    + exists (Z.of_nat (length (data st))), (req_Body req). by destruct req.
    + intros g _ [= <-]. split; [right; by rewrite ?Eb|]. split.
      * eapply (stream_has_frame _ _ _ _ io1); [exact Hf2|done|]. by exists st.
      * cbn. pose proof (io_frame_dom _ _ _ Hf2). set_solver.
    + intros _. split_and!; [by eapply shut_frame|done| |done].
      by apply (io_frame_dom _ _ _ Hf2).
Qed.

(** The branch that buffers the body. *)
Lemma prepareBuffered_spec rp limit C b req io w :
  0 <= limit < max_int → tmp_ok io → body_ok (Some b) io → readable (Some b) io = Some C →
  req_Body req = Some b →
  wp (r ← readBody limit b;
      Close b;;
      match r with
      | inl e => mret ((None, None, Some e), req)
      | inr (inr f) => prepareSpilledBody req f
      | inr (inl bs) =>
          mret ((Some (ReplayBody (MemBody bs)), None, None),
                set_ContentLength (Z.of_nat (length bs)) req)
      end) (λ r io' w', w' = w ∧ prep_post rp C req io r.1 r.2 io') io w.
Proof.
  intros Hlim Hok Hbody HC Eb.
  wp_simpl. eapply wp_mono; [by apply readBody_spec|].
  intros r io1 w1 [-> (Hf1 & Hl1 & Hr)]. wp_simpl.
  assert (io_frame (spared (Some b) io) io io1) as Hf1'
    by (eapply io_frame_mono; [apply spared_sub|done]).
  set (D := spared (Some b) io1).
  eapply wp_mono.
  { apply (Close_quiet D). intros s Es. unfold D, spared. cbn. rewrite Es. set_solver. }
  intros [] io2 w2 (-> & Hq2 & _ & Hc2 & _).
  assert (shut (Some b) io2) as Hshut.
  { intros s st' Es E'. pose proof (body_ok_closes _ _ _ Hbody Es) as Hd.
    apply (io_frame_dom _ _ _ Hf1) in Hd. apply elem_of_dom in Hd as [st E].
    destruct (Hc2 s st Es E) as (st1 & E2 & ?). congruence. }
  assert (spared (Some b) io ⊆ D) as HD.
  { unfold D, spared. cbn. pose proof (io_frame_dom _ _ _ Hf1). destruct (closes b); set_solver. }
  assert (io_frame (spared (Some b) io) io io2) as Hf2.
  { etransitivity; [exact Hf1'|]. eapply io_frame_mono; [exact HD|apply Hq2]. }
  pose proof (proj1 (proj2 Hq2)) as Ht2. pose proof (proj2 (proj2 Hq2)) as Hl2.
  destruct r as [e|[bs|f]].
  - destruct Hr as [Hbad Ht1]. wp_simpl. split; [done|].
    split; rewrite ?Eb; cbn [fst snd]; try done; [congruence|..].
    + apply same_request_refl.
    + intros ? [= <-]. split_and!; [done|done|congruence|done|done].
  - destruct Hr as (-> & _ & Ht1). wp_simpl. split; [done|].
    split; rewrite ?Eb; cbn [fst snd]; try done; [congruence|..].
    + exists (Z.of_nat (length C)), (req_Body req). by destruct req.
    + intros ? _ [= <-]. split; [right; by rewrite ?Eb|]. split; [done|apply empty_subseteq].
    + intros _. split; [done|congruence].
  - destruct Hr as [_ Hsp]. pose proof Hsp as (_ & _ & Hf & Ht1 & Es).
    assert (f ∈ D) as HfD.
    { unfold D, spared. cbn. assert (f ∈ dom (streams io1)) by (apply elem_of_dom; by eexists).
      destruct (closes b) as [s|] eqn:Ecl; [|done]. rewrite elem_of_difference, elem_of_singleton.
      split; [done|]. intros ->. by apply Hf, (body_ok_closes (Some b)). }
    apply (prepareSpilledBody_spec rp C b); try done; try congruence.
    eapply stream_has_frame; [apply Hq2|done|]. by eexists.
Qed.

Lemma prepareBody_spec limit C req rp io w :
  prep_pre limit C req io →
  wp (prepareBody limit req rp)
    (λ r io' w', w' = w ∧ prep_post rp C req io r.1 r.2 io') io w.
Proof.
  intros [Hlim Hok Hbody HC Hg]. unfold prepareBody.
  destruct (GetBody req) as [g|] eqn:Eg; [|destruct (req_Body req) as [b|] eqn:Eb].
  - specialize (Hg g eq_refl). destruct g as [f|]; [|done].
    destruct (req_Body req) as [b|] eqn:Eb; wp_simpl; (split; [done|]);
      (split; rewrite ?Eb; cbn [fst snd]; try done; [apply same_request_refl|]);
      intros ? _ [= <-]; rewrite Eg; (split; [by left|]); split; try done;
      apply empty_subseteq.
  - wp_simpl. destruct (as_seeker b io) as [s|] eqn:Esk; [|destruct rp; cbn [negb]].
    + destruct b as [s'| | |]; try done. cbn in Esk.
      destruct (streams io !! s') as [st|] eqn:Es; [|done].
      destruct (seekable st); [|done]. injection Esk as ->.
      destruct (Hbody s eq_refl) as (st0 & E0 & ? & ?). rewrite Es in E0. injection E0 as <-.
      unfold readable in HC. cbn in HC. rewrite Es in HC.
      destruct (closed st) eqn:Ec; [done|]. injection HC as HC.
      apply (prepareSeeker_spec rp C s st); try done; lia.
    + by apply prepareBuffered_spec.
    + wp_simpl. split; [done|]. split; rewrite ?Eb; cbn [fst snd]; try done.
      * exists (ContentLength req), (Some (NopCloser b)). by destruct req.
      * intros _ _. split; [|split; [done|by right]]. rewrite <-HC. done.
      * intros _ _. by right.
  - wp_simpl. split; [done|]. split; rewrite ?Eb; cbn [fst snd]; try done.
    + apply same_request_refl.
    + intros _ _. rewrite Eb. split; [done|]. split; [done|by left].
    + intros _ _. by left.
Qed.

(** The deferred cleanup, after whatever was done with the body meanwhile,
    leaves the caller's body closed and no temporary file. *)
Lemma cleanup_spec rp C req io res req' io1 io2 w :
  prep_post rp C req io res req' io1 → res.2 = None → tmp_ok io → body_ok (req_Body req) io →
  io_frame (dom (streams io1)) io1 io2 → tmp io2 = tmp io1 →
  wp (match res.1.2 with Some c => run_cleanup c | None => mret tt end)
    (λ _ io3 w3, w3 = w ∧ shut (req_Body req) io3 ∧ tmp io3 = tmp io ∧ log io3 = log io2 ∧
      io_frame ∅ io2 io3) io2 w.
Proof.
  intros Hp Hres Hok Hb Hf Ht. pose proof (pp_cleanup _ _ _ _ _ _ _ Hp Hres) as Hc.
  pose proof (io_frame_dom _ _ _ (pp_frame _ _ _ _ _ _ _ Hp)) as Hd1.
  pose proof (io_frame_dom _ _ _ Hf) as Hd2.
  assert (∀ s, req_Body req ≫= closes = Some s → s ∈ dom (streams io1)) as Hdom.
  { intros s Es. by apply Hd1, (body_ok_closes _ _ _ Hb). }
  destruct res.1.2 as [[b|f]|].
  - destruct Hc as [Eb Hc]. cbn [run_cleanup].
    eapply wp_mono; [apply (Close_disposes ∅)|].
    { intros s Es. split; [set_solver|]. apply Hd2, Hdom. by rewrite Eb. }
    intros [] io3 w3 (-> & (Hf3 & Ht3 & Hl3) & _ & [Hs _]). split_and!; try done; [|congruence].
    intros s st Es E. rewrite Eb in Es. destruct (Hs s Es) as (st' & E' & ?). congruence.
  - destruct Hc as (Hs & Hnf & Hf1 & Htmp). cbn [run_cleanup]. unfold close_file. wp_simpl.
    assert (io_frame ∅ io2 (set_tmp (tmp io2 ∖ {[(false, f)]} ∖ {[(true, f)]})
      (set_streams (alter set_closed f (streams io2)) io2))) as Hf3.
    { etransitivity; [|apply frame_set_tmp]. by apply (frame_close ∅ io2 f). }
    split_and!; [done| | |done|exact Hf3].
    + eapply shut_frame; [exact Hf3|intros s Es; by apply Hd2, Hdom|].
      by eapply shut_frame.
    + cbn. apply (tmp_released io); [done|done|congruence].
  - destruct Hc as [Hs Htmp]. wp_simpl. split_and!; [done| |congruence|done..].
    by eapply shut_frame.
Qed.

(** ** The limit of the buffer *)

Lemma readBody_max_limit b io w : readBody max_int b io w = Ret (inr (inl []), io, w).
Proof. unfold readBody, readBodyWithFactory. by destruct (reads_from b). Qed.

(** What the body function of an empty buffer makes. *)
Lemma empty_buffer_body io w :
  ∃ body io', call_GetBody (ReplayBody (MemBody [])) io w = Ret (inr body, io', w) ∧
    readable (Some body) io' = Some [].
Proof.
  eexists _, _. split; [reflexivity|]. unfold readable. cbn. by rewrite lookup_insert_eq.
Qed.

(** C39: the buffer limit [math.MaxInt64] loses the body of a request that may be
    replayed and cannot seek, whatever it holds: [limit+1] wraps to a negative
    count, nothing is read, and the empty result counts as a body that fits.
    The body is prepared without an error, the request has the length 0, and what
    the body function makes for every attempt reads as empty. *)
Theorem prepareBody_max_limit req b io w :
  GetBody req = None → req_Body req = Some b → as_seeker b io = None →
  ∃ g io', prepareBody max_int req true io w =
    Ret ((Some g, None, None), set_ContentLength 0 req, io', w) ∧
    ∀ io1 w1, ∃ body io2, call_GetBody g io1 w1 = Ret (inr body, io2, w1) ∧
      readable (Some body) io2 = Some [].
Proof.
  intros Hg Hb Hs. unfold prepareBody. rewrite Hg, Hb. cbn [negb].
  unfold mbind, M_bind, self. rewrite Hs. cbn beta iota. rewrite readBody_max_limit.
  destruct (proj1 (wp_exists _ _ _ _) (Close_quiet ∅ b io w (λ s _, not_elem_of_empty s)))
    as ([] & io' & w' & E & -> & _).
  exists (ReplayBody (MemBody [])), io'. rewrite E. split; [done|]. apply empty_buffer_body.
Qed.

(** A stream that cannot seek loses its three bytes. *)
Lemma prepareBody_max_limit_witness :
  let io := MkIO {[0%nat := MkStream [1; 2; 3] 0 false false]} ∅ (λ _, None) 0 0 0 ∅ ∅ [] in
  let req := MkRequest "PUT" None "" ∅ "" (Some (Obj 0)) None 3 (λ _, None) None None in
  let w := MkWorld ∅ (λ _, zero_time) 0 0 in
  readable (Some (Obj 0)) io = Some [1; 2; 3] ∧
  ∃ g io', prepareBody max_int req true io w =
    Ret ((Some g, None, None), set_ContentLength 0 req, io', w) ∧
    ∀ io1 w1, ∃ body io2, call_GetBody g io1 w1 = Ret (inr body, io2, w1) ∧
      readable (Some body) io2 = Some [].
Proof.
  intros io req w. split; [reflexivity|].
  apply (prepareBody_max_limit req (Obj 0) io w); reflexivity.
Defined.
