(* ===== verification/ClientIP.v ===== *)
(** * The client address of a request (transport.go)

    [clientIP] reads X-Real-IP, X-Forwarded-For and RemoteAddr in that order.
    The functions of strings and net it calls are modelled on the bytes of
    their argument: TrimSpace, SplitHostPort and ParseIP. *)

From S2P Require Import Prelude GoLib Peer RoundRobin Picker Http.
From Stdlib Require Import Ascii.
#[local] Open Scope Z_scope.

(** ** strings.TrimSpace, strings.IndexByte *)

Definition bytes := list Z.

(** The encodings of the characters of unicode.IsSpace. *)
Definition spaces : list bytes :=
  [[9]; [10]; [11]; [12]; [13]; [32]; [0xC2; 0x85]; [0xC2; 0xA0]; [0xE1; 0x9A; 0x80];
   [0xE2; 0x80; 0x80]; [0xE2; 0x80; 0x81]; [0xE2; 0x80; 0x82]; [0xE2; 0x80; 0x83];
   [0xE2; 0x80; 0x84]; [0xE2; 0x80; 0x85]; [0xE2; 0x80; 0x86]; [0xE2; 0x80; 0x87];
   [0xE2; 0x80; 0x88]; [0xE2; 0x80; 0x89]; [0xE2; 0x80; 0x8A]; [0xE2; 0x80; 0xA8];
   [0xE2; 0x80; 0xA9]; [0xE2; 0x80; 0xAF]; [0xE2; 0x81; 0x9F]; [0xE3; 0x80; 0x80]].

Fixpoint strip_prefix (p l : bytes) : option bytes :=
  match p, l with
  | [], _ => Some l
  | a :: p, b :: l => if a =? b then strip_prefix p l else None
  | _ :: _, [] => None
  end.

Fixpoint strip_any (ps : list bytes) (l : bytes) : option bytes :=
  match ps with
  | [] => None
  | p :: ps => match strip_prefix p l with Some l' => Some l' | None => strip_any ps l end
  end.

(** Every round removes a byte, so the length is enough fuel. *)
Fixpoint trim_loop (fuel : nat) (ps : list bytes) (l : bytes) : bytes :=
  match fuel with
  | O => l
  | S fuel => match strip_any ps l with Some l' => trim_loop fuel ps l' | None => l end
  end.

Definition TrimSpace (l : bytes) : bytes :=
  let l := trim_loop (length l) spaces l in
  reverse (trim_loop (length l) (reverse <$> spaces) (reverse l)).

Fixpoint IndexByte (l : bytes) (c : Z) : option nat :=
  match l with
  | [] => None
  | b :: l => if b =? c then Some 0%nat else S <$> IndexByte l c
  end.

Definition LastIndexByte (l : bytes) (c : Z) : option nat :=
  (λ i, (length l - 1 - i)%nat) <$> IndexByte (reverse l) c.

Definition has_byte (l : bytes) (c : Z) : bool :=
  match IndexByte l c with Some _ => true | None => false end.

(** ** net.SplitHostPort: the host, or [None] for an error *)

Definition split_bracketed (hostport : bytes) (i : nat) : option bytes :=
  match IndexByte hostport 93 (* ']' *) with
  | None => None
  | Some e =>
      if (S e =? i)%nat then
        if has_byte (drop 1 hostport) 91 (* '[' *) then None
        else if has_byte (drop (S e) hostport) 93 then None
        else Some (take (e - 1) (drop 1 hostport))
      else None
  end.

Definition SplitHostPort (hostport : bytes) : option bytes :=
  match LastIndexByte hostport 58 (* ':' *) with
  | None => None
  | Some i =>
      match hostport with
      | 91 :: _ => split_bracketed hostport i
      | _ =>
          let host := take i hostport in
          if has_byte host 58 then None
          else if has_byte hostport 91 then None
          else if has_byte hostport 93 then None
          else Some host
      end
  end.

(** ** net.ParseIP: the 16-byte form, or [None] for nil *)

(** The scan of the four fields: the fields so far, the value and the number of
    digits of the current one. *)
Record v4_state := MkV4 { v4_fields : list Z; v4_val : Z; v4_digits : nat }.

Definition v4_step (st : option v4_state) (c : Z) : option v4_state :=
  match st with
  | None => None
  | Some (MkV4 fs val n) =>
      if (48 <=? c) && (c <=? 57) then
        if (n =? 1)%nat && (val =? 0) then None
        else let val := val * 10 + (c - 48) in
             if 255 <? val then None else Some (MkV4 fs val (S n))
      else if c =? 46 (* '.' *) then
        if (n =? 0)%nat then None
        else if (length fs =? 3)%nat then None
        else Some (MkV4 (fs ++ [val]) 0 0)
      else None
  end.

Definition parseIPv4Fields (l : bytes) : option (list Z) :=
  match fold_left v4_step l (Some (MkV4 [] 0 0)) with
  | Some (MkV4 fs val n) =>
      if (length fs =? 3)%nat && negb (n =? 0)%nat then Some (fs ++ [val]) else None
  | None => None
  end.

Definition hex_value (c : Z) : option Z :=
  if (48 <=? c) && (c <=? 57) then Some (c - 48)
  else if (97 <=? c) && (c <=? 102) then Some (c - 87)
  else if (65 <=? c) && (c <=? 70) then Some (c - 55)
  else None.

(** A group of hexadecimal digits: its value, their number, and the rest. *)
Fixpoint hex_group (l : bytes) (acc : Z) (n : nat) : Z * nat * bytes :=
  match l with
  | c :: l' =>
      match hex_value c with
      | Some v => hex_group l' (acc * 16 + v) (S n)
      | None => (acc, n, l)
      end
  | [] => (acc, n, [])
  end.

(** The loop over the groups: the bytes so far, the position of the ellipsis,
    the rest of the string; the result is the bytes and the ellipsis.  A round
    appends two bytes, so eight rounds of fuel are enough. *)
Fixpoint v6_loop (fuel : nat) (ip : list Z) (ellipsis : option nat) (s : bytes)
    : option (list Z * option nat) :=
  match fuel with
  | O => match s with [] => Some (ip, ellipsis) | _ => None end
  | S fuel =>
      let '(acc, n, rest) := hex_group s 0 0 in
      if (n =? 0)%nat || (4 <? n)%nat then None else
      match rest with
      | 46 :: _ =>
          if match ellipsis with None => negb (length ip =? 12)%nat | Some _ => false end
          then None
          else if (16 <? length ip + 4)%nat then None
          else match parseIPv4Fields s with
               | Some fs => Some (ip ++ fs, ellipsis)
               | None => None
               end
      | [] => Some (ip ++ [acc / 256; acc mod 256], ellipsis)
      | 58 :: [] => None
      | 58 :: 58 :: rest' =>
          let ip := ip ++ [acc / 256; acc mod 256] in
          match ellipsis with
          | Some _ => None
          | None => match rest' with
                    | [] => Some (ip, Some (length ip))
                    | _ => v6_loop fuel ip (Some (length ip)) rest'
                    end
          end
      | 58 :: rest' => v6_loop fuel (ip ++ [acc / 256; acc mod 256]) ellipsis rest'
      | _ => None
      end
  end.

Definition v6_expand (r : list Z * option nat) : option (list Z) :=
  let '(ip, ellipsis) := r in
  if (length ip <? 16)%nat then
    match ellipsis with
    | None => None
    | Some e => Some (take e ip ++ replicate (16 - length ip) 0 ++ drop e ip)
    end
  else match ellipsis with Some _ => None | None => Some ip end.

(** A zone, after '%', makes ParseIP return nil. *)
Definition parseIPv6 (s : bytes) : option (list Z) :=
  if has_byte s 37 then None else
  match s with
  | 58 :: 58 :: [] => Some (replicate 16 0)
  | 58 :: 58 :: s' => v6_loop 8 [] (Some 0%nat) s' ≫= v6_expand
  | _ => v6_loop 8 [] None s ≫= v6_expand
  end.

Fixpoint parse_kind (l : bytes) : Z :=
  match l with
  | [] => 0
  | c :: l => if (c =? 46) || (c =? 58) || (c =? 37) then c else parse_kind l
  end.

Definition v4_prefix : list Z := replicate 10 0 ++ [255; 255].

Definition ParseIP (s : bytes) : option (list Z) :=
  let k := parse_kind s in
  if k =? 46 then (λ ip, v4_prefix ++ ip) <$> parseIPv4Fields s
  else if k =? 58 then parseIPv6 s
  else None.

(** ** clientIP *)

(** [h.Get(key)] for a key in canonical form. *)
Definition Header_Get (h : gmap string (list string)) (key : string) : string :=
  match h !! key with Some (v :: _) => v | _ => "" end.

Definition parse_trimmed (l : bytes) : option (list Z) := ParseIP (TrimSpace l).

Definition from_real_ip (req : Request) : option (list Z) :=
  let value := Header_Get (Header req) "X-Real-Ip" in
  if (value =? "")%string then None else parse_trimmed (bytes_of_string value).

Definition from_forwarded_for (req : Request) : option (list Z) :=
  let xff := Header_Get (Header req) "X-Forwarded-For" in
  if (xff =? "")%string then None else
  let xff := bytes_of_string xff in
  let xff := match IndexByte xff 44 (* ',' *) with Some i => take i xff | None => xff end in
  parse_trimmed xff.

Definition from_remote_addr (req : Request) : option (list Z) :=
  if (RemoteAddr req =? "")%string then None else
  let addr := bytes_of_string (RemoteAddr req) in
  let host := match SplitHostPort addr with Some host => host | None => addr end in
  parse_trimmed host.

(** The nil address is the empty one. *)
Definition clientIP (req : Request) : list Z :=
  match from_real_ip req with
  | Some ip => ip
  | None =>
      match from_forwarded_for req with
      | Some ip => ip
      | None => match from_remote_addr req with Some ip => ip | None => [] end
      end
  end.

(** ** Dotted addresses *)

(** A byte in decimal, without a leading zero. *)
Definition decimal (n : Z) : bytes :=
  if n <? 10 then [48 + n]
  else if n <? 100 then [48 + n / 10; 48 + n mod 10]
  else [48 + n / 100; 48 + n / 10 mod 10; 48 + n mod 10].

Definition quad (a b c d : Z) : bytes :=
  decimal a ++ 46 :: decimal b ++ 46 :: decimal c ++ 46 :: decimal d.

Definition is_digit (c : Z) : Prop := 48 <= c <= 57.
Definition is_blank (c : Z) : Prop := c ∈ [9; 10; 11; 12; 13; 32].
Definition is_visible (c : Z) : Prop := 33 <= c <= 126.

#[local] Ltac digits_lia := unfold is_digit, is_byte in *; Z.to_euclidean_division_equations; lia.

Lemma decimal_digits n : is_byte n → Forall is_digit (decimal n).
Proof.
  unfold is_byte, is_digit, decimal. intros Hn.
  destruct (Z.ltb_spec n 10); [|destruct (Z.ltb_spec n 100)]; rewrite ?Forall_cons, Forall_nil; digits_lia.
Qed.

Lemma v4_digit fs val n c :
  is_digit c → (n =? 1)%nat && (val =? 0) = false → val * 10 + (c - 48) <= 255 →
  v4_step (Some (MkV4 fs val n)) c = Some (MkV4 fs (val * 10 + (c - 48)) (S n)).
Proof.
  unfold is_digit, v4_step. intros Hc -> Hv. rewrite (proj2 (Z.leb_le _ _)) by lia.
  rewrite (proj2 (Z.leb_le c 57)) by lia. cbn [andb].
  by rewrite (proj2 (Z.ltb_ge _ _)) by lia.
Qed.

Lemma digit_zero x n : 0 < x → (n =? 1)%nat && (x =? 0) = false.
Proof. intros Hx. by rewrite (proj2 (Z.eqb_neq x 0)), andb_false_r by lia. Qed.

Lemma v4_decimal fs n :
  is_byte n → ∃ k, fold_left v4_step (decimal n) (Some (MkV4 fs 0 0)) = Some (MkV4 fs n (S k)).
Proof.
  unfold decimal. intros Hn.
  destruct (Z.ltb_spec n 10); [|destruct (Z.ltb_spec n 100)]; cbn [fold_left].
  - exists 0%nat. rewrite v4_digit; [do 2 f_equal; lia|digits_lia|done|digits_lia].
  - exists 1%nat. rewrite v4_digit; [|digits_lia|done|digits_lia].
    rewrite v4_digit; [do 2 f_equal; digits_lia|digits_lia|apply digit_zero; digits_lia|digits_lia].
  - exists 2%nat. rewrite v4_digit; [|digits_lia|done|digits_lia].
    rewrite v4_digit; [|digits_lia|apply digit_zero; digits_lia|digits_lia].
    rewrite v4_digit; [do 2 f_equal; digits_lia|digits_lia|done|digits_lia].
Qed.

Lemma v4_dot fs val k :
  length fs ≠ 3%nat → v4_step (Some (MkV4 fs val (S k))) 46 = Some (MkV4 (fs ++ [val]) 0 0).
Proof. intros Hl. cbn. by rewrite (proj2 (Nat.eqb_neq _ _) Hl). Qed.

Lemma parse_quad a b c d :
  is_byte a → is_byte b → is_byte c → is_byte d → parseIPv4Fields (quad a b c d) = Some [a; b; c; d].
Proof.
  intros Ha Hb Hc Hd. unfold parseIPv4Fields, quad.
  destruct (v4_decimal [] a Ha) as [ka Ea]. destruct (v4_decimal [a] b Hb) as [kb Eb].
  destruct (v4_decimal [a; b] c Hc) as [kc Ec]. destruct (v4_decimal [a; b; c] d Hd) as [kd Ed].
  rewrite fold_left_app, Ea. cbn [fold_left]. rewrite v4_dot by done. cbn [app].
  rewrite fold_left_app, Eb. cbn [fold_left]. rewrite v4_dot by done. cbn [app].
  rewrite fold_left_app, Ec. cbn [fold_left]. rewrite v4_dot by done. cbn [app]. by rewrite Ed.
Qed.

Lemma parse_kind_digits l l' : Forall is_digit l → parse_kind (l ++ 46 :: l') = 46.
Proof.
  induction 1 as [|c l Hc _ IH]; [done|]. cbn [app parse_kind]. unfold is_digit in Hc.
  by rewrite !(proj2 (Z.eqb_neq c _)) by lia.
Qed.

Lemma ParseIP_quad a b c d :
  is_byte a → is_byte b → is_byte c → is_byte d →
  ParseIP (quad a b c d) = Some (v4_prefix ++ [a; b; c; d]).
Proof.
  intros Ha Hb Hc Hd. unfold ParseIP, quad.
  rewrite parse_kind_digits by (by apply decimal_digits). fold (quad a b c d).
  cbn [Z.eqb Pos.eqb]. by rewrite parse_quad.
Qed.

(** *** Blanks around an address *)

Lemma strip_blank c l : is_blank c → strip_any spaces (c :: l) = Some l ∧
  strip_any (reverse <$> spaces) (c :: l) = Some l.
Proof.
  unfold is_blank. intros Hc. repeat (apply elem_of_cons in Hc as [-> | Hc]; [done|]).
  by apply not_elem_of_nil in Hc.
Qed.

Lemma strip_visible c l : is_visible c → strip_any spaces (c :: l) = None ∧
  strip_any (reverse <$> spaces) (c :: l) = None.
Proof.
  unfold is_visible. intros Hc. cbn [strip_any spaces reverse rev_append fmap list_fmap strip_prefix].
  split; cbn -[Z.eqb]; by rewrite !(proj2 (Z.eqb_neq _ c)) by lia.
Qed.

(** A text that begins and ends with a visible byte. *)
Definition visible_ends (l : bytes) : Prop :=
  (∃ c r, l = c :: r ∧ is_visible c) ∧ ∃ r c, l = r ++ [c] ∧ is_visible c.

Lemma trim_blanks ps pad l fuel :
  (∀ c l, is_blank c → strip_any ps (c :: l) = Some l) →
  (∀ c l, is_visible c → strip_any ps (c :: l) = None) →
  Forall is_blank pad → (∃ c l', l = c :: l' ∧ is_visible c) → (length pad ≤ fuel)%nat →
  trim_loop fuel ps (pad ++ l) = l.
Proof.
  intros Hb Hd Hp (c & l' & -> & Hc). revert fuel.
  induction Hp as [|b pad Hbl _ IH]; intros [|fuel] Hf; cbn [app trim_loop length] in *; try lia; try done.
  - by rewrite Hd.
  - rewrite Hb by done. apply IH. lia.
Qed.

Lemma TrimSpace_padded pad l pad' :
  Forall is_blank pad → Forall is_blank pad' → visible_ends l → TrimSpace (pad ++ l ++ pad') = l.
Proof.
  intros Hp Hp' [(c & r & E & Hc) (r' & c' & E' & Hc')]. unfold TrimSpace.
  rewrite (trim_blanks spaces).
  - rewrite reverse_app, (trim_blanks (reverse <$> spaces)); [by rewrite reverse_involutive|..].
    + intros x t Hx. exact (proj2 (strip_blank x t Hx)).
    + intros x t Hx. exact (proj2 (strip_visible x t Hx)).
    + by apply Forall_reverse.
    + exists c', (reverse r'). by rewrite E', reverse_app.
    + rewrite !length_app, !length_reverse. lia.
  - intros x t Hx. exact (proj1 (strip_blank x t Hx)).
  - intros x t Hx. exact (proj1 (strip_visible x t Hx)).
  - done.
  - exists c, (r ++ pad'). by rewrite E.
  - rewrite !length_app. lia.
Qed.

Lemma decimal_ends n : is_byte n → visible_ends (decimal n).
Proof.
  unfold is_byte, decimal, visible_ends, is_visible. intros Hn.
  destruct (Z.ltb_spec n 10); [|destruct (Z.ltb_spec n 100)]; (split; [do 2 eexists; split; [done|digits_lia]|]).
  - exists [], (48 + n). split; [done|lia].
  - exists [48 + n / 10], (48 + n mod 10). split; [done|digits_lia].
  - exists [48 + n / 100; 48 + n / 10 mod 10], (48 + n mod 10). split; [done|digits_lia].
Qed.

Lemma visible_ends_app l m r : visible_ends l → visible_ends r → visible_ends (l ++ m ++ r).
Proof.
  intros [(c & x & -> & Hc) _] [_ (y & c' & -> & Hc')]. split.
  - by exists c, (x ++ m ++ y ++ [c']).
  - exists ((c :: x) ++ m ++ y), c'. by rewrite <-!app_assoc.
Qed.

Lemma quad_ends a b c d : is_byte a → is_byte d → visible_ends (quad a b c d).
Proof.
  intros Ha Hd.
  replace (quad a b c d) with (decimal a ++ (46 :: decimal b ++ 46 :: decimal c ++ [46]) ++ decimal d)
    by (unfold quad; cbn [app]; rewrite <-app_assoc; cbn [app]; by rewrite <-app_assoc).
  by apply visible_ends_app; apply decimal_ends.
Qed.

(** *** Searching for a byte *)

Lemma IndexByte_skip l r x :
  x ∉ l → IndexByte (l ++ r) x = Nat.add (length l) <$> IndexByte r x.
Proof.
  induction l as [|c l IH]; intros Hx; cbn [app IndexByte length].
  { by destruct (IndexByte r x). }
  rewrite (proj2 (Z.eqb_neq c x)) by set_solver. rewrite IH by set_solver.
  by destruct (IndexByte r x).
Qed.

Lemma has_byte_none l x : x ∉ l → has_byte l x = false.
Proof.
  intros Hx. unfold has_byte. rewrite <-(app_nil_r l), IndexByte_skip by done. done.
Qed.

Lemma quad_bytes a b c d x :
  is_byte a → is_byte b → is_byte c → is_byte d → x ∈ quad a b c d → is_digit x ∨ x = 46.
Proof.
  intros Ha Hb Hc Hd. unfold quad. rewrite !elem_of_app, !elem_of_cons, !elem_of_app, !elem_of_cons,
    !elem_of_app, !elem_of_cons.
  pose proof (proj1 (Forall_forall _ _) (decimal_digits a Ha) x).
  pose proof (proj1 (Forall_forall _ _) (decimal_digits b Hb) x).
  pose proof (proj1 (Forall_forall _ _) (decimal_digits c Hc) x).
  pose proof (proj1 (Forall_forall _ _) (decimal_digits d Hd) x). tauto.
Qed.

Lemma SplitHostPort_plain c l :
  c ≠ 91 → SplitHostPort (c :: l) =
  match LastIndexByte (c :: l) 58 with
  | None => None
  | Some i =>
      let host := take i (c :: l) in
      if has_byte host 58 then None else if has_byte (c :: l) 91 then None
      else if has_byte (c :: l) 93 then None else Some host
  end.
Proof.
  intros Hc. unfold SplitHostPort. destruct (LastIndexByte (c :: l) 58); [|done].
  destruct c as [|p|p]; try done. do 7 (destruct p as [p|p|]; try done).
Qed.

Lemma split_quad_port a b c d port :
  is_byte a → is_byte b → is_byte c → is_byte d → Forall is_digit port →
  SplitHostPort (quad a b c d ++ 58 :: port) = Some (quad a b c d).
Proof.
  intros Ha Hb Hc Hd Hp. pose proof (quad_bytes a b c d) as Hq.
  assert (∀ x, x = 58 ∨ x = 91 ∨ x = 93 → x ∉ quad a b c d ∧ x ∉ port) as Hno.
  { intros x Hx. split.
    - intros [?| ->]%Hq; [|lia|done..]. unfold is_digit in *. lia.
    - intros Hin. pose proof (proj1 (Forall_forall _ _) Hp x Hin). unfold is_digit in *. lia. }
  assert (LastIndexByte (quad a b c d ++ 58 :: port) 58 = Some (length (quad a b c d))) as El.
  { unfold LastIndexByte. rewrite reverse_app, reverse_cons, <-app_assoc, IndexByte_skip.
    - cbn. rewrite length_app, length_reverse. cbn [length]. f_equal. lia.
    - rewrite elem_of_reverse. by apply Hno; left. }
  assert (∃ x l', quad a b c d ++ 58 :: port = x :: l' ∧ x ≠ 91) as (x & l' & El' & Hx).
  { destruct (quad_ends a b c d Ha Hd) as [(x & r & E & _) _]. rewrite E. eexists x, _.
    split; [done|]. intros ->. destruct (Hno 91) as [Hn _]; [auto|]. apply Hn. rewrite E. by left. }
  rewrite El', SplitHostPort_plain by done.
  rewrite <-El', El.
  rewrite take_app_length. cbn zeta. rewrite !has_byte_none; [done|..].
  - rewrite elem_of_app, elem_of_cons. pose proof (Hno 93). naive_solver lia.
  - rewrite elem_of_app, elem_of_cons. pose proof (Hno 91). naive_solver lia.
  - apply Hno. by left.
Qed.

(** ** Examples *)

Example ParseIP_v6 :
  ParseIP (bytes_of_string "2001:db8::ff00:42:8329") =
    Some [32; 1; 13; 184; 0; 0; 0; 0; 0; 0; 255; 0; 0; 66; 131; 41] ∧
  ParseIP (bytes_of_string "::ffff:192.0.2.33") = Some (v4_prefix ++ [192; 0; 2; 33]) ∧
  ParseIP (bytes_of_string "fe80::1%eth0") = None ∧ ParseIP (bytes_of_string "1:2:3") = None.
Proof. by vm_compute. Qed.

(** A bracketed address with a port, as net/http sets it. *)
Example clientIP_v6_remote :
  clientIP (MkRequest "GET" None "" ∅ "[::1]:8080" None None 0 (λ _, None) None None)
  = replicate 15 0 ++ [1].
Proof. by vm_compute. Qed.
