(* ===== verification/Addresses.v ===== *)
(** * Textual addresses and their parsing

    The texts of an IP address: dotted, eight hexadecimal groups, groups with an
    ellipsis, each of the last two maybe ending in a dotted address.  ParseIP
    reads them back to the bytes they stand for, and so does clientIP from each
    of the places it looks at. *)

From S2P Require Import Prelude GoLib Peer RoundRobin Picker Http ClientIP.
From Stdlib Require Import Ascii.
#[local] Open Scope Z_scope.

(** ** Hexadecimal groups *)

(** A digit, with its value, in capitals or not. *)
Definition hex_digit : Type := bool * Z.
Definition digit_text (d : hex_digit) : Z :=
  if d.2 <? 10 then 48 + d.2 else if d.1 then 55 + d.2 else 87 + d.2.
Definition digit_ok (d : hex_digit) : Prop := 0 <= d.2 < 16.

Definition group := list hex_digit.
Definition group_ok (g : group) : Prop := (1 ≤ length g ≤ 4)%nat ∧ Forall digit_ok g.
Definition group_text (g : group) : bytes := digit_text <$> g.
Definition group_value (g : group) : Z := fold_left (λ acc d, acc * 16 + d.2) g 0.
Definition group_bytes (g : group) : list Z := [group_value g / 256; group_value g mod 256].

(** What ends an address of groups: nothing, or a dotted address. *)
Definition dotted : Type := Z * Z * Z * Z.
Definition dotted_text (q : dotted) : bytes := let '(a, b, c, d) := q in quad a b c d.
Definition dotted_bytes (q : dotted) : list Z := let '(a, b, c, d) := q in [a; b; c; d].
Definition dotted_ok (q : dotted) : Prop := Forall is_byte (dotted_bytes q).

(** Groups between colons. *)
Fixpoint groups_text (gs : list group) (q : option dotted) : bytes :=
  match gs, q with
  | [], None => []
  | [], Some q => dotted_text q
  | [g], None => group_text g
  | g :: gs, _ => group_text g ++ 58 :: groups_text gs q
  end.

Definition groups_bytes (gs : list group) (q : option dotted) : list Z :=
  concat (group_bytes <$> gs) ++ from_option dotted_bytes [] q.

(** The number of 16-bit units. *)
Definition units (gs : list group) (q : option dotted) : nat :=
  length gs + if q then 2 else 0.

(** The texts of an address and its 16-byte form. *)
Inductive address : bytes → list Z → Prop :=
  | address_dotted q : dotted_ok q → address (dotted_text q) (v4_prefix ++ dotted_bytes q)
  | address_full gs q :
      Forall group_ok gs → (∀ q', q = Some q' → dotted_ok q') → units gs q = 8%nat →
      address (groups_text gs q) (groups_bytes gs q)
  | address_short ls rs q :
      Forall group_ok ls → Forall group_ok rs → (∀ q', q = Some q' → dotted_ok q') →
      (units ls None + units rs q ≤ 7)%nat →
      address (groups_text ls None ++ 58 :: 58 :: groups_text rs q)
        (groups_bytes ls None ++
         replicate (16 - length (groups_bytes ls None) - length (groups_bytes rs q)) 0 ++
         groups_bytes rs q).

(** ** Lemmas on groups *)

(** Where a group of digits ends. *)
Definition group_end (l : bytes) : Prop := l = [] ∨ ∃ c r, l = c :: r ∧ (c = 46 ∨ c = 58).

Lemma hex_value_digit d : digit_ok d → hex_value (digit_text d) = Some d.2.
Proof.
  destruct d as [u v]. unfold digit_ok, digit_text, hex_value. cbn [fst snd]. intros Hd.
  destruct (Z.ltb_spec v 10); [|destruct u];
    repeat match goal with |- context [?a <=? ?b] => destruct (Z.leb_spec a b); try lia end;
    cbn [andb]; f_equal; lia.
Qed.

Lemma hex_group_text g : Forall digit_ok g → ∀ acc n rest, group_end rest →
  hex_group (group_text g ++ rest) acc n =
    (fold_left (λ acc d, acc * 16 + d.2) g acc, (n + length g)%nat, rest).
Proof.
  induction 1 as [|d g Hd _ IH]; intros acc n rest Hend; cbn [group_text fmap list_fmap app].
  - destruct Hend as [->|(c & r & -> & [-> | ->])]; cbn; by rewrite Nat.add_0_r.
  - cbn [hex_group]. rewrite hex_value_digit by done. unfold group_text in IH.
    rewrite IH by done. cbn [fold_left length]. do 2 f_equal. lia.
Qed.

(** A decimal number is a group, too. *)
Definition decimal_group (n : Z) : group := (λ c, (false, c - 48)) <$> decimal n.

Lemma decimal_group_ok n : is_byte n →
  decimal n = group_text (decimal_group n) ∧ group_ok (decimal_group n).
Proof.
  intros Hn. pose proof (decimal_digits n Hn) as Hd. unfold decimal_group, group_text, group_ok.
  split; [|split].
  - rewrite <-list_fmap_compose. rewrite <-(list_fmap_id (decimal n)) at 1.
    apply Forall_fmap_ext_1. eapply Forall_impl; [exact Hd|]. intros c Hc. cbn.
    unfold is_digit in Hc. unfold digit_text. cbn [fst snd].
    rewrite (proj2 (Z.ltb_lt _ _)) by lia. lia.
  - rewrite length_fmap. unfold decimal. repeat case_match; cbn; lia.
  - apply Forall_fmap. eapply Forall_impl; [exact Hd|]. intros c Hc. cbn.
    unfold digit_ok, is_digit in *. cbn. lia.
Qed.

Lemma dotted_group q : dotted_ok q →
  ∃ g r, group_ok g ∧ dotted_text q = group_text g ++ 46 :: r ∧
    parseIPv4Fields (dotted_text q) = Some (dotted_bytes q).
Proof.
  destruct q as [[[a b] c] d]. unfold dotted_ok, dotted_bytes. rewrite !Forall_cons.
  intros (Ha & Hb & Hc & Hd & _). destruct (decimal_group_ok a Ha) as [E Hg].
  exists (decimal_group a). eexists. split; [done|]. cbn [dotted_text]. split.
  - unfold quad. rewrite E at 1. reflexivity.
  - by rewrite parse_quad.
Qed.

(** ** The loop over the groups *)

Lemma digit_text_range d : digit_ok d → is_digit (digit_text d) ∨
  65 <= digit_text d <= 70 ∨ 97 <= digit_text d <= 102.
Proof.
  destruct d as [u v]. unfold digit_ok, digit_text, is_digit. cbn [fst snd].
  destruct (Z.ltb_spec v 10); [lia|]. destruct u; lia.
Qed.

Lemma group_head g : group_ok g → ∃ c r, group_text g = c :: r ∧ 48 <= c <= 102 ∧ c ≠ 58 ∧ c ≠ 91.
Proof.
  intros [Hl Hg]. destruct g as [|d g]; [cbn in Hl; lia|]. inversion Hg as [|? ? Hd _]; subst.
  eexists _, _. split; [done|]. destruct (digit_text_range d Hd) as [?|[?|?]]; unfold is_digit in *; lia.
Qed.

Lemma not_colon {A} c (x y : A) : c ≠ 58 → match c with 58 => x | _ => y end = y.
Proof.
  intros Hc. destruct c as [|p|p]; try done. do 6 (destruct p as [p|p|]; try done).
Qed.

Section round.
Context (fuel : nat) (ip : list Z) (e : option nat) (g : group).
Hypothesis g_ok : group_ok g.

Lemma group_size rest : group_end rest →
  hex_group (group_text g ++ rest) 0 0 = (group_value g, length g, rest) ∧
  (length g =? 0)%nat || (4 <? length g)%nat = false.
Proof using g_ok.
  intros Hr. destruct g_ok as [[H1 H2] Hd]. split; [by apply (hex_group_text g Hd 0 0%nat)|].
  apply orb_false_iff. split; [apply Nat.eqb_neq|apply Nat.ltb_ge]; lia.
Qed.

Lemma round_last : v6_loop (S fuel) ip e (group_text g) = Some (ip ++ group_bytes g, e).
Proof using g_ok.
  destruct (group_size [] (or_introl eq_refl)) as [E1 E2]. rewrite app_nil_r in E1.
  cbn [v6_loop]. by rewrite E1, E2.
Qed.

Lemma round_colon c r : c ≠ 58 →
  v6_loop (S fuel) ip e (group_text g ++ 58 :: c :: r) = v6_loop fuel (ip ++ group_bytes g) e (c :: r).
Proof using g_ok.
  intros Hc. destruct (group_size (58 :: c :: r)) as [E1 E2]; [right; eauto|].
  cbn [v6_loop]. rewrite E1, E2. destruct c as [|p|p]; try done. do 6 (destruct p as [p|p|]; try done).
Qed.

Lemma round_ellipsis r : e = None →
  v6_loop (S fuel) ip e (group_text g ++ 58 :: 58 :: r) =
    let ip := ip ++ group_bytes g in
    match r with [] => Some (ip, Some (length ip)) | _ => v6_loop fuel ip (Some (length ip)) r end.
Proof using g_ok.
  intros ->. destruct (group_size (58 :: 58 :: r)) as [E1 E2]; [right; eauto|].
  cbn [v6_loop]. by rewrite E1, E2.
Qed.
End round.

Lemma round_dotted fuel ip e q :
  dotted_ok q → (e = None → length ip = 12%nat) → (length ip ≤ 12)%nat →
  v6_loop (S fuel) ip e (dotted_text q) = Some (ip ++ dotted_bytes q, e).
Proof.
  intros Hq He Hl. destruct (dotted_group q Hq) as (g & r & Hg & Et & Ep).
  destruct (group_size g Hg (46 :: r)) as [E1 E2]; [right; eauto|].
  cbn [v6_loop]. rewrite Ep, Et, E1, E2.
  replace (match e with None => _ | Some _ => false end) with false.
  - by rewrite (proj2 (Nat.ltb_ge 16 _)) by lia.
  - destruct e; [done|]. by rewrite He.
Qed.

Lemma length_group_bytes gs : length (concat (group_bytes <$> gs)) = (2 * length gs)%nat.
Proof. induction gs as [|g gs IH]; [done|]. cbn in *. lia. Qed.

Lemma length_groups_bytes gs q : length (groups_bytes gs q) = (2 * units gs q)%nat.
Proof.
  unfold groups_bytes, units. rewrite length_app, length_group_bytes.
  destruct q as [[[[? ?] ?] ?]|]; cbn; lia.
Qed.

Definition q_ok (q : option dotted) : Prop := ∀ q', q = Some q' → dotted_ok q'.

Lemma groups_head gs q : Forall group_ok gs → q_ok q → (0 < units gs q)%nat →
  ∃ c r, groups_text gs q = c :: r ∧ 48 <= c <= 102 ∧ c ≠ 58 ∧ c ≠ 91.
Proof.
  intros Hgs Hq Hu. destruct gs as [|g gs].
  - destruct q as [q|]; [|cbn in Hu; lia].
    destruct (dotted_group q (Hq q eq_refl)) as (g & r & Hg & Et & _). cbn [groups_text].
    rewrite Et. destruct (group_head g Hg) as (c & r' & -> & ?). cbn [app]. eauto.
  - inversion Hgs as [|? ? Hg _]; subst. destruct (group_head g Hg) as (c & r & E & ?).
    cbn [groups_text]. destruct gs, q; rewrite E; cbn [app]; eauto.
Qed.

Lemma loop_groups q gs : Forall group_ok gs → q_ok q → ∀ fuel ip e,
  (0 < units gs q)%nat → (units gs q ≤ fuel)%nat →
  (q ≠ None → (e = None → length ip + 2 * length gs = 12)%nat ∧ (length ip + 2 * length gs ≤ 12)%nat) →
  v6_loop fuel ip e (groups_text gs q) = Some (ip ++ groups_bytes gs q, e).
Proof.
  intros Hgs Hq. induction Hgs as [|g gs Hg Hgs IH]; intros [|fuel] ip e Hu Hf Hd;
    try (unfold units in *; cbn [length] in *; lia).
  - destruct q as [q|]; [|cbn in Hu; lia]. cbn [groups_text].
    destruct Hd as [H1 H2]; [done|]. cbn [length] in *.
    rewrite round_dotted; [done|by apply Hq|intros ?; specialize (H1 ltac:(done)); lia|lia].
  - destruct (decide (0 < units gs q)%nat) as [Hpos|Hz].
    + replace (groups_text (g :: gs) q) with (group_text g ++ 58 :: groups_text gs q)
        by (destruct gs, q; try done; cbn in Hpos; lia).
      destruct (groups_head gs q Hgs Hq Hpos) as (c & r & E & _ & Hc & _). rewrite E.
      rewrite round_colon by done. rewrite <-E, IH; [|done|unfold units in *; cbn [length] in *; lia|].
      * unfold groups_bytes. cbn [fmap list_fmap concat]. by rewrite <-!app_assoc.
      * intros Hn. specialize (Hd Hn). rewrite length_app. cbn [length group_bytes] in *.
        destruct Hd as [H1 H2]. split; [intros He; specialize (H1 He)|]; lia.
    + destruct gs; [|cbn in Hz; lia]. destruct q; [cbn in Hz; lia|]. cbn [groups_text].
      by rewrite round_last by done.
Qed.

Lemma loop_left ls : Forall group_ok ls → ls ≠ [] → ∀ fuel ip r, (length ls ≤ fuel)%nat →
  v6_loop fuel ip None (groups_text ls None ++ 58 :: 58 :: r) =
    let ip' := ip ++ groups_bytes ls None in
    match r with
    | [] => Some (ip', Some (length ip'))
    | _ => v6_loop (fuel - length ls) ip' (Some (length ip')) r
    end.
Proof.
  induction 1 as [|g ls Hg Hls IH]; intros Hne fuel ip r Hf; [done|].
  destruct fuel as [|fuel]; [cbn in Hf; lia|]. destruct ls as [|g' ls].
  - cbn [groups_text]. rewrite round_ellipsis by done. cbn [length Nat.sub].
    by rewrite Nat.sub_0_r.
  - replace (groups_text (g :: g' :: ls) None ++ 58 :: 58 :: r)
      with (group_text g ++ 58 :: (groups_text (g' :: ls) None ++ 58 :: 58 :: r))
      by (cbn [groups_text]; by rewrite <-app_assoc).
    destruct (groups_head (g' :: ls) None Hls) as (c & l & E & _ & Hc & _);
      [done|cbn; lia|]. rewrite E. cbn [app]. rewrite round_colon by done.
    change (c :: l ++ 58 :: 58 :: r) with ((c :: l) ++ 58 :: 58 :: r). rewrite <-E.
    rewrite IH; [|done|cbn [length] in *; lia]. cbn zeta.
    replace ((ip ++ group_bytes g) ++ groups_bytes (g' :: ls) None)
      with (ip ++ groups_bytes (g :: g' :: ls) None); [done|].
    unfold groups_bytes. cbn [fmap list_fmap concat]. by rewrite <-!app_assoc.
Qed.

(** *** The bytes of a text *)

Definition text_byte (c : Z) : Prop := 46 <= c <= 58 ∨ 65 <= c <= 70 ∨ 97 <= c <= 102.

Lemma group_text_bytes g : group_ok g → Forall text_byte (group_text g).
Proof.
  intros [_ Hg]. apply Forall_fmap. eapply Forall_impl; [exact Hg|]. intros d Hd. cbn.
  unfold text_byte. destruct (digit_text_range d Hd) as [?|?]; unfold is_digit in *; lia.
Qed.

Lemma dotted_text_bytes q : dotted_ok q → Forall text_byte (dotted_text q).
Proof.
  destruct q as [[[a b] c] d]. unfold dotted_ok, dotted_bytes. rewrite !Forall_cons.
  intros (Ha & Hb & Hc & Hd & _). apply Forall_forall. intros x Hx. unfold text_byte.
  destruct (quad_bytes a b c d x Ha Hb Hc Hd Hx); unfold is_digit in *; lia.
Qed.

Lemma groups_text_bytes gs q : Forall group_ok gs → q_ok q → Forall text_byte (groups_text gs q).
Proof.
  intros Hgs Hq. induction Hgs as [|g gs Hg _ IH].
  - destruct q as [q|]; [|constructor]. by apply dotted_text_bytes, Hq.
  - assert (Forall text_byte (group_text g ++ 58 :: groups_text gs q)) as Hall.
    { apply Forall_app. split; [by apply group_text_bytes|]. constructor; [|done].
      unfold text_byte. lia. }
    cbn [groups_text]. destruct gs, q; try done. by apply group_text_bytes.
Qed.

Lemma text_has_byte l x : Forall text_byte l → ¬ text_byte x → has_byte l x = false.
Proof. intros Hl Hx. apply has_byte_none. intros Hin. by apply (proj1 (Forall_forall _ _) Hl) in Hin. Qed.

Lemma parse_kind_colon g r : group_ok g → parse_kind (group_text g ++ 58 :: r) = 58.
Proof.
  intros [_ Hg]. induction Hg as [|d g Hd _ IH]; [done|]. cbn [group_text fmap list_fmap app parse_kind].
  destruct (digit_text_range d Hd); unfold is_digit in *;
    by rewrite !(proj2 (Z.eqb_neq (digit_text d) _)) by lia.
Qed.

(** ** ParseIP of the groups *)

Lemma v6_expand_full ip : length ip = 16%nat → v6_expand (ip, None) = Some ip.
Proof. intros E. unfold v6_expand. by rewrite E. Qed.

Lemma v6_expand_short l r : (length l + length r < 16)%nat →
  v6_expand (l ++ r, Some (length l)) =
    Some (l ++ replicate (16 - length l - length r) 0 ++ r).
Proof.
  intros Hl. unfold v6_expand. rewrite length_app, (proj2 (Nat.ltb_lt _ _)) by lia.
  rewrite take_app_length, drop_app_length. do 4 f_equal. lia.
Qed.

(** A text that begins with a group. *)
Lemma ParseIP_group g r : group_ok g → Forall text_byte (group_text g ++ 58 :: r) →
  ParseIP (group_text g ++ 58 :: r) = v6_loop 8 [] None (group_text g ++ 58 :: r) ≫= v6_expand.
Proof.
  intros Hg Hb. unfold ParseIP. rewrite parse_kind_colon by done. cbn [Z.eqb Pos.eqb].
  unfold parseIPv6. rewrite text_has_byte by (try done; unfold text_byte; lia).
  destruct (group_head g Hg) as (c & l & -> & _ & Hc & _). cbn [app].
  destruct c as [|p|p]; try done. do 6 (destruct p as [p|p|]; try done).
Qed.

Lemma ParseIP_full gs q : Forall group_ok gs → q_ok q → units gs q = 8%nat →
  ParseIP (groups_text gs q) = Some (groups_bytes gs q).
Proof.
  intros Hgs Hq Hu. pose proof (groups_text_bytes gs q Hgs Hq) as Hb.
  pose proof (loop_groups q gs Hgs Hq 8 [] None ltac:(lia) ltac:(lia)) as Hloop.
  assert (v6_loop 8 [] None (groups_text gs q) ≫= v6_expand = Some (groups_bytes gs q)) as E.
  { rewrite Hloop; [apply v6_expand_full; rewrite length_groups_bytes; lia|].
    destruct q; [|done]. unfold units in Hu. cbn [length]. lia. }
  destruct gs as [|g [|g' gs]]; [by destruct q|by destruct q|].
  assert (groups_text (g :: g' :: gs) q = group_text g ++ 58 :: groups_text (g' :: gs) q) as Et
    by (by destruct q).
  rewrite Et in *. rewrite ParseIP_group; [done|by inversion Hgs|done].
Qed.

(** What follows the ellipsis. *)
Lemma loop_right ip fuel rs q :
  Forall group_ok rs → q_ok q → (units rs q ≤ fuel)%nat → (length ip + 2 * units rs q ≤ 14)%nat →
  match groups_text rs q with
  | [] => Some (ip, Some (length ip))
  | _ => v6_loop fuel ip (Some (length ip)) (groups_text rs q)
  end = Some (ip ++ groups_bytes rs q, Some (length ip)).
Proof.
  intros Hrs Hq Hf Hl. destruct (decide (0 < units rs q)%nat) as [Hu|Hu].
  - destruct (groups_head rs q Hrs Hq Hu) as (c & r & E & _). rewrite E, <-E.
    apply loop_groups; try done. intros Hn. destruct q; [|done]. unfold units in Hl.
    split; [done|lia].
  - destruct rs; [|cbn in Hu; lia]. destruct q; [cbn in Hu; lia|]. cbn. by rewrite app_nil_r.
Qed.

Lemma ParseIP_short ls rs q :
  Forall group_ok ls → Forall group_ok rs → q_ok q → (units ls None + units rs q ≤ 7)%nat →
  ParseIP (groups_text ls None ++ 58 :: 58 :: groups_text rs q) =
    Some (groups_bytes ls None ++
      replicate (16 - length (groups_bytes ls None) - length (groups_bytes rs q)) 0 ++
      groups_bytes rs q).
Proof.
  intros Hls Hrs Hq Hu.
  assert (length (groups_bytes ls None) + 2 * units rs q ≤ 14)%nat as Hlen
    by (rewrite length_groups_bytes; lia).
  assert (length (groups_bytes ls None) + length (groups_bytes rs q) < 16)%nat as Hlen'
    by (rewrite (length_groups_bytes rs q); lia).
  assert (Forall text_byte (groups_text ls None ++ 58 :: 58 :: groups_text rs q)) as Hb.
  { apply Forall_app. split; [by apply groups_text_bytes|].
    do 2 (constructor; [unfold text_byte; lia|]). by apply groups_text_bytes. }
  destruct ls as [|g ls].
  - unfold ParseIP. cbn [groups_text app parse_kind Z.eqb Pos.eqb orb] in *. unfold parseIPv6.
    rewrite text_has_byte by (try done; unfold text_byte; lia).
    pose proof (loop_right [] 8 rs q Hrs Hq ltac:(lia) Hlen) as Hr. cbn [length app] in Hr.
    destruct (groups_text rs q) as [|c r]; [injection Hr as <-; done|].
    rewrite Hr. by apply (v6_expand_short []).
  - inversion Hls as [|? ? Hg _]; subst.
    assert (∃ r, groups_text (g :: ls) None ++ 58 :: 58 :: groups_text rs q =
      group_text g ++ 58 :: r) as [r Er].
    { destruct ls; cbn [groups_text]; [by eauto|]. rewrite <-app_assoc. cbn [app]. eauto. }
    rewrite Er in *. rewrite ParseIP_group by done. rewrite <-Er.
    rewrite loop_left; [|done|done|unfold units in *; lia]. cbn zeta. rewrite app_nil_l.
    rewrite loop_right by (try done; unfold units in *; cbn [length] in *; lia).
    by apply v6_expand_short.
Qed.

Lemma ParseIP_address l ip : address l ip → ParseIP l = Some ip.
Proof.
  intros [q Hq|gs q Hgs Hq Hu|ls rs q Hls Hrs Hq Hu].
  - destruct q as [[[a b] c] d]. unfold dotted_ok, dotted_bytes in *. rewrite !Forall_cons in Hq.
    destruct Hq as (Ha & Hb & Hc & Hd & _). by apply ParseIP_quad.
  - by apply ParseIP_full.
  - by apply ParseIP_short.
Qed.

(** ** Addresses in a request *)

Lemma address_bytes l ip : address l ip → Forall text_byte l ∧ l ≠ [].
Proof.
  intros [q Hq|gs q Hgs Hq Hu|ls rs q Hls Hrs Hq Hu].
  - split; [by apply dotted_text_bytes|]. destruct (dotted_group q Hq) as (g & r & _ & -> & _).
    by destruct (group_text g).
  - split; [by apply groups_text_bytes|].
    destruct (groups_head gs q Hgs Hq ltac:(lia)) as (c & r & -> & _). done.
  - split; [|by destruct (groups_text ls None)]. apply Forall_app. split; [by apply groups_text_bytes|].
    do 2 (constructor; [unfold text_byte; lia|]). by apply groups_text_bytes.
Qed.

Lemma address_ends l ip : address l ip → visible_ends l.
Proof.
  intros [Hl Hn]%address_bytes.
  assert (∀ c, text_byte c → is_visible c) as Hv by (unfold text_byte, is_visible; lia).
  split.
  - destruct l as [|c r]; [done|]. exists c, r. inversion Hl; auto.
  - destruct (exists_last Hn) as (r & c & ->). exists r, c. split; [done|].
    apply Forall_app in Hl as [_ Hl]. inversion Hl; auto.
Qed.

(** An address, maybe between blanks. *)
Definition holds_address (l : bytes) (ip : list Z) : Prop :=
  ∃ pad text pad', l = pad ++ text ++ pad' ∧ Forall is_blank pad ∧ Forall is_blank pad' ∧
    address text ip.

Lemma holds_address_parse l ip : holds_address l ip → parse_trimmed l = Some ip.
Proof.
  intros (pad & text & pad' & -> & Hp & Hp' & Ha). unfold parse_trimmed.
  rewrite TrimSpace_padded by (try done; by eapply address_ends). by apply ParseIP_address.
Qed.

Lemma holds_address_bare l ip : address l ip → holds_address l ip.
Proof. intros Ha. exists [], l, []. by rewrite app_nil_r. Qed.

Lemma holds_address_no_comma l ip : holds_address l ip → 44 ∉ l.
Proof.
  intros (pad & text & pad' & -> & Hp & Hp' & Ha). destruct (address_bytes _ _ Ha) as [Hb _].
  assert (∀ p, Forall is_blank p → 44 ∉ p) as Hblank.
  { intros p Hf Hin%(proj1 (Forall_forall _ _) Hf). unfold is_blank in Hin. set_solver. }
  rewrite !elem_of_app. pose proof (Hblank _ Hp). pose proof (Hblank _ Hp').
  intros [?|[Hin|?]]; try done. apply (proj1 (Forall_forall _ _) Hb) in Hin.
  unfold text_byte in Hin. lia.
Qed.

Lemma holds_address_nonempty s l ip rest :
  bytes_of_string s = l ++ rest → holds_address l ip → (s =? "")%string = false.
Proof.
  intros E (pad & text & pad' & -> & _ & _ & [_ Hn]%address_bytes). destruct s; [|done].
  destruct text; [done|]. by destruct pad.
Qed.

(** *** The host of RemoteAddr *)

Lemma LastIndexByte_split x l r : x ∉ r → LastIndexByte (l ++ x :: r) x = Some (length l).
Proof.
  intros Hx. unfold LastIndexByte. rewrite reverse_app, reverse_cons, <-app_assoc, IndexByte_skip.
  - cbn. rewrite Z.eqb_refl. cbn. rewrite length_app, length_reverse. cbn [length]. f_equal. lia.
  - by rewrite elem_of_reverse.
Qed.

Lemma IndexByte_none l x : x ∉ l → IndexByte l x = None.
Proof. intros Hx. rewrite <-(app_nil_r l), IndexByte_skip by done. done. Qed.

Lemma has_byte_in l x : x ∈ l → has_byte l x = true.
Proof.
  unfold has_byte. induction l as [|y l IH]; cbn; [by intros ?%not_elem_of_nil|].
  intros [->|Hin]%elem_of_cons; [by rewrite Z.eqb_refl|].
  destruct (y =? x); [done|]. specialize (IH Hin). by destruct (IndexByte l x).
Qed.

Definition colons (l : list Z) : nat := length (filter (λ c, c = 58) l).

Lemma colons_app l r : colons (l ++ r) = (colons l + colons r)%nat.
Proof. unfold colons. by rewrite filter_app, length_app. Qed.

Lemma colons_none l : 58 ∉ l → colons l = 0%nat.
Proof. intros Hl. apply length_filter_none. by intros x Hx ->. Qed.

(** Without a colon, or with several and no bracket in front, there is no host
    and port. *)
Lemma split_none c r :
  c ≠ 91 → colons (c :: r) ≠ 1%nat → SplitHostPort (c :: r) = None.
Proof.
  intros Hc Hn. destruct (decide (58 ∈ c :: r)) as [Hin|Hin].
  - rewrite SplitHostPort_plain by done.
    destruct (list_elem_of_split_r _ _ Hin) as (l1 & l2 & E & H2). rewrite E in *.
    rewrite LastIndexByte_split by done. cbn zeta. rewrite take_app_length.
    rewrite has_byte_in; [done|]. destruct (decide (58 ∈ l1)) as [|H1]; [done|].
    destruct Hn. change (58 :: l2) with ([58] ++ l2). by rewrite !colons_app, !(colons_none l1), (colons_none l2).
  - unfold SplitHostPort, LastIndexByte. by rewrite IndexByte_none by (by rewrite elem_of_reverse).
Qed.

Lemma colons_groups g g' g'' gs q :
  (2 ≤ colons (groups_text (g :: g' :: g'' :: gs) q))%nat.
Proof.
  assert (groups_text (g :: g' :: g'' :: gs) q =
    group_text g ++ [58] ++ group_text g' ++ [58] ++ groups_text (g'' :: gs) q) as ->
    by (by destruct q).
  rewrite !colons_app. change (colons [58]) with 1%nat. lia.
Qed.

Lemma split_bare l ip : address l ip → SplitHostPort l = None.
Proof.
  intros Ha. destruct (address_bytes _ _ Ha) as [Hb Hne]. destruct l as [|c r]; [done|].
  apply split_none.
  - intros ->. inversion Hb as [|? ? Hc _]; subst. unfold text_byte in Hc. lia.
  - inversion Ha as [q Hq E|gs q Hgs Hq Hu E|ls rs q Hls Hrs Hq Hu E]; subst.
    + rewrite colons_none; [done|]. destruct q as [[[a b] d] e]. cbn [dotted_text].
      unfold dotted_ok, dotted_bytes in Hq. rewrite !Forall_cons in Hq.
      destruct Hq as (H1 & H2 & H3 & H4 & _). intros Hin.
      destruct (quad_bytes _ _ _ _ _ H1 H2 H3 H4 Hin); [unfold is_digit in *|]; lia.
    + destruct gs as [|g [|g' [|g'' gs]]]; try (destruct q; cbn in Hu; lia).
      pose proof (colons_groups g g' g'' gs q). lia.
    + change (58 :: 58 :: ?l) with ([58; 58] ++ l). rewrite !colons_app.
      change (colons [58; 58]) with 2%nat. lia.
Qed.

Lemma drop_S_app (l r : list Z) x : drop (S (length l)) (l ++ x :: r) = r.
Proof. induction l as [|y l IH]; [done|exact IH]. Qed.

Lemma split_bracketed_port l ip port :
  address l ip → Forall is_digit port → SplitHostPort (91 :: l ++ 93 :: 58 :: port) = Some l.
Proof.
  intros Ha Hp. destruct (address_bytes _ _ Ha) as [Hb _].
  assert (∀ x, x = 91 ∨ x = 93 → x ∉ l ∧ x ∉ port) as Hno.
  { intros x Hx. split; intros Hin; [apply (proj1 (Forall_forall _ _) Hb) in Hin; unfold text_byte in Hin|
      apply (proj1 (Forall_forall _ _) Hp) in Hin; unfold is_digit in Hin]; lia. }
  unfold SplitHostPort.
  replace (91 :: l ++ 93 :: 58 :: port) with ((91 :: l ++ [93]) ++ 58 :: port)
    by (cbn [app]; by rewrite <-app_assoc).
  rewrite LastIndexByte_split.
  2:{ intros Hin. apply (proj1 (Forall_forall _ _) Hp) in Hin. unfold is_digit in Hin. lia. }
  replace ((91 :: l ++ [93]) ++ 58 :: port) with (91 :: l ++ 93 :: 58 :: port)
    by (cbn [app]; by rewrite <-app_assoc).
  unfold split_bracketed. change (91 :: l ++ ?r) with ((91 :: l) ++ r).
  assert (93 ∉ 91 :: l) as H93 by (rewrite elem_of_cons; intros [?|?%(Hno 93)]; auto; lia).
  rewrite IndexByte_skip by done. cbn [IndexByte Z.eqb Pos.eqb fmap option_fmap option_map].
  rewrite Nat.add_0_r. cbn [length app].
  rewrite (proj2 (Nat.eqb_eq _ _)) by (rewrite length_app; cbn; lia). cbn [drop]. rewrite !drop_0.
  rewrite has_byte_none.
  2:{ rewrite elem_of_app, !elem_of_cons. pose proof (Hno 91). naive_solver lia. }
  rewrite drop_S_app. rewrite has_byte_none.
  - cbn [Nat.sub take drop]. by rewrite Nat.sub_0_r, take_app_length.
  - rewrite elem_of_cons. pose proof (Hno 93). naive_solver lia.
Qed.

(** The forms of RemoteAddr: with a port, in brackets if need be, or bare. *)
Inductive remote_text : bytes → list Z → Prop :=
  | remote_bare l ip : address l ip → remote_text l ip
  | remote_dotted q port :
      dotted_ok q → Forall is_digit port →
      remote_text (dotted_text q ++ 58 :: port) (v4_prefix ++ dotted_bytes q)
  | remote_bracketed l ip port :
      address l ip → Forall is_digit port → remote_text (91 :: l ++ 93 :: 58 :: port) ip.

Lemma remote_host l ip : remote_text l ip →
  l ≠ [] ∧ parse_trimmed (default l (SplitHostPort l)) = Some ip.
Proof.
  intros [t i Ha|q port Hq Hp|t i port Ha Hp].
  - split; [by apply (address_bytes t i)|]. rewrite (split_bare t i) by done. cbn [default].
    by apply holds_address_parse, holds_address_bare.
  - split; [by destruct (dotted_text q)|].
    pose proof (holds_address_parse _ _ (holds_address_bare _ _ (address_dotted q Hq))) as Hparse.
    destruct q as [[[a b] c] d]. unfold dotted_ok, dotted_bytes in Hq. rewrite !Forall_cons in Hq.
    destruct Hq as (H1 & H2 & H3 & H4 & _). cbn [dotted_text] in *. by rewrite split_quad_port.
  - split; [done|]. rewrite (split_bracketed_port t i) by done. cbn [default].
    by apply holds_address_parse, holds_address_bare.
Qed.
