(* ===== verification/Parsing.v ===== *)
(** * Parsing is exact

    ParseIP accepts the texts of addresses and no others: whatever it returns, its
    argument was a text of that address.  So clientIP never makes up an address. *)

From S2P Require Import Prelude GoLib Peer RoundRobin Picker Http ClientIP Addresses.
From Stdlib Require Import Ascii.
#[local] Open Scope Z_scope.

(** ** Dotted addresses *)

(** The scan after [pre]: complete fields, each before a dot, and the digits of the
    current one. *)
Record v4_read (pre : bytes) (st : v4_state) : Prop := {
  vr_text : ∃ cur, pre = concat ((λ f, decimal f ++ [46]) <$> v4_fields st) ++ cur ∧
    length cur = v4_digits st ∧ (cur = [] ∧ v4_val st = 0 ∨ cur = decimal (v4_val st));
  vr_fields : Forall is_byte (v4_fields st);
  vr_val : is_byte (v4_val st);
}.

Lemma length_decimal n : (1 ≤ length (decimal n) ≤ 3)%nat.
Proof. unfold decimal. repeat case_match; cbn; lia. Qed.

(** A further digit. *)
Lemma decimal_snoc v c :
  1 <= v → 0 <= c <= 9 → v * 10 + c <= 255 → decimal v ++ [48 + c] = decimal (v * 10 + c).
Proof.
  intros Hv Hc Hle. unfold decimal.
  destruct (Z.ltb_spec v 10), (Z.ltb_spec (v * 10 + c) 10), (Z.ltb_spec (v * 10 + c) 100); try lia.
  - cbn [app]. do 2 (apply (f_equal2 cons); [Z.to_euclidean_division_equations; lia|]). done.
  - rewrite (proj2 (Z.ltb_lt v 100)) by lia. cbn [app].
    do 3 (apply (f_equal2 cons); [Z.to_euclidean_division_equations; lia|]). done.
Qed.

Lemma v4_step_read pre st c st' :
  v4_read pre st → v4_step (Some st) c = Some st' → v4_read (pre ++ [c]) st'.
Proof.
  destruct st as [fs val n]. intros [(cur & -> & Hn & Hcur) Hfs Hval]. unfold v4_step.
  cbn [v4_fields v4_val v4_digits] in *.
  destruct ((48 <=? c) && (c <=? 57)) eqn:Edig.
  - apply andb_true_iff in Edig as [H1%Z.leb_le H2%Z.leb_le].
    destruct ((n =? 1)%nat && (val =? 0)) eqn:Ez; [done|].
    destruct (Z.ltb_spec 255 (val * 10 + (c - 48))) as [|Hle]; [done|]. intros [= <-].
    split; cbn [v4_fields v4_val v4_digits]; [|done|unfold is_byte in *; lia].
    exists (cur ++ [c]). split; [by rewrite <-app_assoc|].
    split; [rewrite length_app; cbn; lia|]. right.
    destruct Hcur as [[-> ->]| ->].
    + cbn [app]. unfold decimal. rewrite (proj2 (Z.ltb_lt _ _)) by lia. f_equal. lia.
    + destruct (decide (val = 0)) as [->|Hne].
      { subst n. by cbn in Ez. }
      rewrite <-decimal_snoc by (unfold is_byte in *; lia). do 2 f_equal. lia.
  - destruct (Z.eqb_spec c 46) as [->|]; [|done].
    destruct (Nat.eqb_spec n 0) as [|Hn0]; [done|]. destruct (length fs =? 3)%nat; [done|].
    intros [= <-]. split; cbn [v4_fields v4_val v4_digits]; [|by apply Forall_app; split; [|constructor]|].
    2: unfold is_byte; lia.
    destruct Hcur as [[-> _]| ->]; [by subst n|]. exists []. split; [|by split; [|left]].
    rewrite app_nil_r, fmap_app, concat_app. cbn [fmap list_fmap concat].
    by rewrite app_nil_r, <-app_assoc.
Qed.

Lemma v4_fold_read l pre st st' :
  v4_read pre st → fold_left v4_step l (Some st) = Some st' → v4_read (pre ++ l) st'.
Proof.
  revert pre st. induction l as [|c l IH]; intros pre st Hr; cbn [fold_left].
  { intros [= <-]. by rewrite app_nil_r. }
  destruct (v4_step (Some st) c) as [st1|] eqn:E.
  - intros Hf. replace (pre ++ c :: l) with ((pre ++ [c]) ++ l) by (by rewrite <-app_assoc).
    eapply IH; [by eapply v4_step_read|exact Hf].
  - intros Hf. exfalso. revert Hf. clear. by induction l as [|c l IH].
Qed.

Lemma parseIPv4Fields_dotted l fs :
  parseIPv4Fields l = Some fs → ∃ q, dotted_ok q ∧ l = dotted_text q ∧ fs = dotted_bytes q.
Proof.
  unfold parseIPv4Fields. destruct (fold_left _ _ _) as [[gs val n]|] eqn:E; [|done].
  destruct (length gs =? 3)%nat eqn:El; [|done]. apply Nat.eqb_eq in El.
  destruct (Nat.eqb_spec n 0) as [|Hn]; [done|]. cbn [andb negb]. intros [= <-].
  apply (v4_fold_read l []) in E as [(cur & Et & Hlen & Hcur) Hgs Hval].
  2: { split; cbn; [|done|unfold is_byte; lia]. exists []. by split_and!; [..|left]. }
  cbn [v4_fields v4_val v4_digits app] in *.
  destruct gs as [|a [|b [|c [|]]]]; try discriminate El. clear El.
  destruct Hcur as [[-> _]| ->]; [by subst n|]. exists (a, b, c, val).
  unfold dotted_ok. cbn [dotted_bytes dotted_text]. split_and!; [|rewrite Et|done].
  - rewrite !Forall_cons in *. naive_solver.
  - unfold quad. cbn [fmap list_fmap concat]. by rewrite app_nil_r, <-!app_assoc.
Qed.

(** ** Groups *)

Lemma hex_value_inv c v : hex_value c = Some v → ∃ d, digit_ok d ∧ digit_text d = c ∧ d.2 = v.
Proof.
  unfold hex_value, digit_ok, digit_text. intros H.
  destruct ((48 <=? c) && (c <=? 57)) eqn:E1; [|destruct ((97 <=? c) && (c <=? 102)) eqn:E2;
    [|destruct ((65 <=? c) && (c <=? 70)) eqn:E3; [|done]]]; injection H as <-.
  - apply andb_true_iff in E1 as [?%Z.leb_le ?%Z.leb_le]. exists (false, c - 48). cbn [fst snd].
    rewrite (proj2 (Z.ltb_lt _ _)) by lia. lia.
  - apply andb_true_iff in E2 as [?%Z.leb_le ?%Z.leb_le]. exists (false, c - 87). cbn [fst snd].
    rewrite (proj2 (Z.ltb_ge _ _)) by lia. lia.
  - apply andb_true_iff in E3 as [?%Z.leb_le ?%Z.leb_le]. exists (true, c - 55). cbn [fst snd].
    rewrite (proj2 (Z.ltb_ge _ _)) by lia. lia.
Qed.

Lemma hex_group_inv l : ∀ acc n a k rest, hex_group l acc n = (a, k, rest) →
  ∃ g, Forall digit_ok g ∧ l = group_text g ++ rest ∧
    a = fold_left (λ acc d, acc * 16 + d.2) g acc ∧ k = (n + length g)%nat.
Proof.
  induction l as [|c l IH]; intros acc n a k rest; cbn [hex_group].
  { intros [= <- <- <-]. exists []. split_and!; [constructor|done|done|cbn; lia]. }
  destruct (hex_value c) as [v|] eqn:Ev.
  - intros (g & Hg & -> & -> & ->)%IH. destruct (hex_value_inv c v Ev) as (d & Hd & <- & <-).
    exists (d :: g). split_and!; [by constructor|done|done|cbn; lia].
  - intros [= <- <- <-]. exists []. split_and!; [constructor|done|done|cbn; lia].
Qed.

(** What a round of the loop over the groups has read. *)
Inductive v6_round (fuel : nat) (ip : list Z) (e : option nat)
    : bytes → list Z * option nat → Prop :=
  | read_dotted q :
      dotted_ok q → (e = None → length ip = 12%nat) →
      v6_round fuel ip e (dotted_text q) (ip ++ dotted_bytes q, e)
  | read_last g : group_ok g → v6_round fuel ip e (group_text g) (ip ++ group_bytes g, e)
  | read_end g :
      group_ok g → e = None →
      v6_round fuel ip e (group_text g ++ [58; 58])
        (ip ++ group_bytes g, Some (length (ip ++ group_bytes g)))
  | read_ellipsis g s r :
      group_ok g → e = None → s ≠ [] →
      v6_loop fuel (ip ++ group_bytes g) (Some (length (ip ++ group_bytes g))) s = Some r →
      v6_round fuel ip e (group_text g ++ 58 :: 58 :: s) r
  | read_colon g s r :
      group_ok g → s ≠ [] → v6_loop fuel (ip ++ group_bytes g) e s = Some r →
      v6_round fuel ip e (group_text g ++ 58 :: s) r.

Lemma not_dot_colon {A} c (x y z : A) :
  c ≠ 46 → c ≠ 58 → match c with 46 => x | 58 => y | _ => z end = z.
Proof.
  intros H1 H2. destruct c as [|p|p]; try done. do 6 (destruct p as [p|p|]; try done).
Qed.

Lemma v6_loop_round fuel ip e s r : v6_loop (S fuel) ip e s = Some r → v6_round fuel ip e s r.
Proof.
  cbn [v6_loop]. destruct (hex_group s 0 0) as [[acc n] rest] eqn:Eg.
  destruct (hex_group_inv _ _ _ _ _ _ Eg) as (g & Hdig & Es & -> & ->). clear Eg.
  destruct ((0 + length g =? 0)%nat || (4 <? 0 + length g)%nat) eqn:En; [done|].
  apply orb_false_iff in En as [H1%Nat.eqb_neq H2%Nat.ltb_ge].
  assert (group_ok g) as Hg by (split; [lia|done]).
  change [_ / 256; _ mod 256] with (group_bytes g).
  destruct rest as [|c rest].
  { intros [= <-]. rewrite Es, app_nil_r. by constructor. }
  destruct (decide (c = 46)) as [->|Hdot].
  { destruct (match e with None => _ | Some _ => false end) eqn:E12; [done|].
    destruct (16 <? length ip + 4)%nat; [done|].
    destruct (parseIPv4Fields s) as [fs|] eqn:Ef; [|done]. intros [= <-].
    apply parseIPv4Fields_dotted in Ef as (q & Hq & -> & ->). constructor; [done|].
    intros ->. by apply negb_false_iff, Nat.eqb_eq in E12. }
  destruct (decide (c = 58)) as [->|Hcolon]; [|by rewrite not_dot_colon].
  destruct rest as [|c rest]; [done|]. destruct (decide (c = 58)) as [->|Hc].
  - destruct e; [done|]. destruct rest as [|c rest].
    + intros [= <-]. subst s. by constructor.
    + intros Hl. subst s. by constructor.
  - intros Hl. subst s. constructor; [done|done|].
    revert Hl. destruct c as [|p|p]; try done. do 6 (destruct p as [p|p|]; try done).
Qed.

(** Groups that end the text. *)
Definition groups_read (s : bytes) (read : list Z) : Prop :=
  ∃ gs q, Forall group_ok gs ∧ q_ok q ∧ (0 < units gs q)%nat ∧ s = groups_text gs q ∧
    read = groups_bytes gs q.

Lemma q_ok_none : q_ok None.
Proof. done. Qed.

Lemma groups_read_dotted q : dotted_ok q → groups_read (dotted_text q) (dotted_bytes q).
Proof.
  intros Hq. exists [], (Some q). split_and!; [done|by intros ? [= <-]|cbn; lia|done|done].
Qed.

Lemma groups_read_last g : group_ok g → groups_read (group_text g) (group_bytes g).
Proof.
  intros Hg. exists [g], None. split_and!; [by constructor|done|cbn; lia|done|done].
Qed.

Lemma groups_text_cons g gs q :
  (0 < units gs q)%nat → groups_text (g :: gs) q = group_text g ++ 58 :: groups_text gs q.
Proof. intros Hu. by destruct gs, q; try (cbn in Hu; lia). Qed.

Lemma groups_bytes_cons g gs q : groups_bytes (g :: gs) q = group_bytes g ++ groups_bytes gs q.
Proof. unfold groups_bytes. cbn [fmap list_fmap concat]. by rewrite <-app_assoc. Qed.

Lemma groups_read_cons g s read :
  group_ok g → groups_read s read → groups_read (group_text g ++ 58 :: s) (group_bytes g ++ read).
Proof.
  intros Hg (gs & q & Hgs & Hq & Hu & -> & ->). exists (g :: gs), q.
  rewrite groups_text_cons, groups_bytes_cons by done.
  split_and!; [by constructor|done|unfold units in *; cbn [length]; lia|done|done].
Qed.

(** After the ellipsis there is no other. *)
Lemma loop_after fuel : ∀ ip k s ip' e', s ≠ [] →
  v6_loop fuel ip (Some k) s = Some (ip', e') →
  ∃ read, groups_read s read ∧ ip' = ip ++ read ∧ e' = Some k.
Proof.
  induction fuel as [|fuel IH]; intros ip k s ip' e' Hs Hl; [by destruct s|].
  apply v6_loop_round in Hl.
  inversion Hl as [q Hq _ Es Er|g Hg Es Er|g Hg He Es Er|g s' r Hg He|g s' r Hg Hs' Hl' Es Er]; subst;
    try discriminate.
  - exists (dotted_bytes q). split_and!; [by apply groups_read_dotted|done..].
  - exists (group_bytes g). split_and!; [by apply groups_read_last|done..].
  - destruct (IH _ _ _ _ _ Hs' Hl') as (read & Hread & -> & ->). exists (group_bytes g ++ read).
    split_and!; [by apply groups_read_cons|by rewrite <-app_assoc|done].
Qed.

(** A text with an ellipsis after some groups. *)
Definition ellipsis_read (s : bytes) (left right : list Z) : Prop :=
  ∃ ls rs q, ls ≠ [] ∧ Forall group_ok ls ∧ Forall group_ok rs ∧ q_ok q ∧
    s = groups_text ls None ++ 58 :: 58 :: groups_text rs q ∧
    left = groups_bytes ls None ∧ right = groups_bytes rs q.

Lemma ellipsis_read_cons g s left right :
  group_ok g → ellipsis_read s left right →
  ellipsis_read (group_text g ++ 58 :: s) (group_bytes g ++ left) right.
Proof.
  intros Hg (ls & rs & q & Hne & Hls & Hrs & Hq & -> & -> & ->). exists (g :: ls), rs, q.
  rewrite groups_text_cons, groups_bytes_cons by (by destruct ls; [|cbn; lia]).
  split_and!; [done|by constructor|done|done|by rewrite <-app_assoc|done|done].
Qed.

Lemma ellipsis_read_one g s right :
  group_ok g → s = [] ∧ right = [] ∨ groups_read s right →
  ellipsis_read (group_text g ++ 58 :: 58 :: s) (group_bytes g) right.
Proof.
  intros Hg Hs. assert (groups_bytes [g] None = group_bytes g) as Eg by done.
  destruct Hs as [[-> ->]|(rs & q & Hrs & Hq & _ & -> & ->)].
  - exists [g], [], None. rewrite Eg. split_and!; try done. by constructor.
  - exists [g], rs, q. rewrite Eg. split_and!; try done. by constructor.
Qed.

Lemma loop_before fuel : ∀ ip s ip' e', s ≠ [] →
  v6_loop fuel ip None s = Some (ip', e') →
  (∃ read, groups_read s read ∧ ip' = ip ++ read ∧ e' = None ∧
     (length ip' ≤ Nat.max (length ip + 2 * fuel) 16)%nat) ∨
  ∃ left right, ellipsis_read s left right ∧ ip' = ip ++ left ++ right ∧
    e' = Some (length (ip ++ left)).
Proof.
  induction fuel as [|fuel IH]; intros ip s ip' e' Hs Hl; [by destruct s|].
  apply v6_loop_round in Hl.
  inversion Hl as [q Hq Hlen Es Er|g Hg Es Er|g Hg _ Es Er|g s' r Hg _ Hs' Hl' Es Er|
    g s' r Hg Hs' Hl' Es Er]; subst.
  - left. exists (dotted_bytes q). split_and!; [by apply groups_read_dotted|done|done|].
    rewrite length_app, (Hlen eq_refl). destruct q as [[[? ?] ?] ?]. cbn. lia.
  - left. exists (group_bytes g). split_and!; [by apply groups_read_last|done|done|].
    rewrite length_app. cbn. lia.
  - right. exists (group_bytes g), []. rewrite app_nil_r.
    split_and!; [apply ellipsis_read_one; auto|done|done].
  - right. destruct (loop_after _ _ _ _ _ _ Hs' Hl') as (read & Hread & -> & ->).
    exists (group_bytes g), read. rewrite <-app_assoc.
    split_and!; [apply ellipsis_read_one; auto|done|done].
  - destruct (IH _ _ _ _ Hs' Hl')
      as [(read & Hread & -> & -> & Hlen)|(left & right & Hread & -> & ->)].
    + left. exists (group_bytes g ++ read). rewrite <-app_assoc in *.
      split_and!; [by apply groups_read_cons|done|done|].
      rewrite (length_app ip (group_bytes g)) in Hlen. cbn [length group_bytes] in Hlen. lia.
    + right. exists (group_bytes g ++ left), right. rewrite <-!app_assoc.
      split_and!; [by apply ellipsis_read_cons|done|done].
Qed.

(** ** ParseIP *)

Lemma v6_expand_inv left right ip :
  v6_expand (left ++ right, Some (length left)) = Some ip →
  (length left + length right < 16)%nat ∧
  ip = left ++ replicate (16 - length left - length right) 0 ++ right.
Proof.
  intros E. destruct (decide (length left + length right < 16)%nat) as [Hl|Hl].
  - rewrite v6_expand_short in E by done. by injection E as <-.
  - unfold v6_expand in E. rewrite length_app, (proj2 (Nat.ltb_ge _ _)) in E by lia. done.
Qed.

(** The text begins with the ellipsis, or has it after some groups. *)
Lemma address_ellipsis ls rs q ip :
  Forall group_ok ls → Forall group_ok rs → q_ok q →
  v6_expand (groups_bytes ls None ++ groups_bytes rs q, Some (length (groups_bytes ls None))) =
    Some ip →
  address (groups_text ls None ++ 58 :: 58 :: groups_text rs q) ip.
Proof.
  intros Hls Hrs Hq [Hl ->]%v6_expand_inv. apply address_short; try done.
  rewrite !length_groups_bytes in Hl. lia.
Qed.

Lemma address_groups s ip :
  s ≠ [] → v6_loop 8 [] None s ≫= v6_expand = Some ip → address s ip.
Proof.
  intros Hs (r & Hl & He)%bind_Some. destruct r as [ip' e'].
  destruct (loop_before _ _ _ _ _ Hs Hl) as [(read & (gs & q & Hgs & Hq & Hu & -> & ->) & -> & -> & Hlen)|
    (left & right & (ls & rs & q & Hne & Hls & Hrs & Hq & -> & -> & ->) & -> & ->)];
    cbn [app] in *.
  - unfold v6_expand in He.
    destruct (Nat.ltb_spec (length (groups_bytes gs q)) 16) as [|H16]; [done|].
    injection He as <-. constructor; try done.
    change (Nat.max (length (@nil Z) + 2 * 8) 16) with 16%nat in Hlen.
    rewrite length_groups_bytes in *. lia.
  - by apply address_ellipsis.
Qed.

Lemma parseIPv6_address s ip : parseIPv6 s = Some ip → address s ip.
Proof.
  unfold parseIPv6. destruct (has_byte s 37); [done|].
  destruct (decide (take 2 s = [58; 58])) as [Ht|Ht].
  - destruct s as [|c1 [|c2 s]]; try discriminate Ht. injection Ht as -> ->.
    destruct s as [|c s].
    + intros [= <-]. by apply (address_short [] [] None); [..|apply q_ok_none|cbn; lia].
    + intros ([ip' e'] & Hl & He)%bind_Some.
      assert (c :: s ≠ []) as Hne by done.
      destruct (loop_after _ _ _ _ _ _ Hne Hl)
        as (read & (gs & q & Hgs & Hq & _ & Es & ->) & -> & ->).
      rewrite Es. by apply (address_ellipsis [] gs q).
  - intros Hp. destruct s as [|c1 s]; [done|]. apply address_groups; [done|].
    revert Hp. destruct (decide (c1 = 58)) as [->|H1].
    + destruct s as [|c2 s]; [done|]. destruct (decide (c2 = 58)) as [->|H2]; [done|].
      destruct c2 as [|p|p]; try done. do 6 (destruct p as [p|p|]; try done).
    + destruct c1 as [|p|p]; try done. do 6 (destruct p as [p|p|]; try done).
Qed.

Lemma ParseIP_exact l ip : ParseIP l = Some ip ↔ address l ip.
Proof.
  split; [|apply ParseIP_address]. unfold ParseIP.
  destruct (parse_kind l =? 46); [|destruct (parse_kind l =? 58); [|done]].
  - intros (fs & Hf & ->)%fmap_Some.
    apply parseIPv4Fields_dotted in Hf as (q & Hq & -> & ->). by constructor.
  - apply parseIPv6_address.
Qed.

(** ** Claims *)

(** The three places of an address. *)
Definition real_ip_is (req : Request) (ip : list Z) : Prop :=
  holds_address (bytes_of_string (Header_Get (Header req) "X-Real-Ip")) ip.
Definition forwarded_is (req : Request) (ip : list Z) : Prop :=
  ∃ first rest, bytes_of_string (Header_Get (Header req) "X-Forwarded-For") = first ++ rest ∧
    (rest = [] ∨ ∃ r, rest = 44 :: r) ∧ holds_address first ip.
Definition remote_is (req : Request) (ip : list Z) : Prop :=
  remote_text (bytes_of_string (RemoteAddr req)) ip.

(** The texts clientIP looks at: a header, its first entry, or the host of
    RemoteAddr. *)
Definition looked_at (req : Request) (l : bytes) : Prop :=
  l = bytes_of_string (Header_Get (Header req) "X-Real-Ip") ∨
  (∃ rest, bytes_of_string (Header_Get (Header req) "X-Forwarded-For") = l ++ rest ∧
     44 ∉ l ∧ (rest = [] ∨ ∃ r, rest = 44 :: r)) ∨
  l = default (bytes_of_string (RemoteAddr req)) (SplitHostPort (bytes_of_string (RemoteAddr req))).

Lemma parse_trimmed_exact l ip : parse_trimmed l = Some ip ↔ address (TrimSpace l) ip.
Proof. apply ParseIP_exact. Qed.

Lemma IndexByte_first l c i :
  IndexByte l c = Some i → c ∉ take i l ∧ ∃ r, l = take i l ++ c :: r.
Proof.
  revert i. induction l as [|b l IH]; intros i; cbn [IndexByte]; [done|].
  destruct (Z.eqb_spec b c) as [->|Hne].
  - intros [= <-]. split; [apply not_elem_of_nil|by exists l].
  - intros (j & E & ->)%fmap_Some. destruct (IH j E) as [Hc [r Hr]]. cbn [take app]. split.
    + by intros [?|?]%elem_of_cons.
    + exists r. by rewrite <-Hr.
Qed.

Lemma IndexByte_None l c : IndexByte l c = None → c ∉ l.
Proof.
  induction l as [|b l IH]; cbn [IndexByte]; [by intros _ ?%not_elem_of_nil|].
  destruct (Z.eqb_spec b c) as [->|Hne]; [done|]. intros Hn%fmap_None.
  by intros [?|?%(IH Hn)]%elem_of_cons.
Qed.

Lemma clientIP_looked_at req :
  clientIP req = [] ∨ ∃ l, looked_at req l ∧ address (TrimSpace l) (clientIP req).
Proof.
  unfold clientIP, looked_at.
  destruct (from_real_ip req) as [ip|] eqn:Er; [right|destruct (from_forwarded_for req) as [ip|] eqn:Ef;
    [right|destruct (from_remote_addr req) as [ip|] eqn:Ea; [right|by left]]].
  - unfold from_real_ip in Er. destruct (_ =? "")%string; [done|].
    apply parse_trimmed_exact in Er. eexists. split; [by left|done].
  - unfold from_forwarded_for in Ef. destruct (_ =? "")%string; [done|].
    apply parse_trimmed_exact in Ef. eexists. split; [|exact Ef]. right; left.
    set (xff := bytes_of_string _). destruct (IndexByte xff 44) as [i|] eqn:Ei.
    + destruct (IndexByte_first _ _ _ Ei) as [Hc [r Hr]]. exists (44 :: r). eauto.
    + exists []. rewrite app_nil_r. split_and!; [done| |by left].
      by apply IndexByte_None.
  - unfold from_remote_addr in Ea. destruct (_ =? "")%string; [done|].
    apply parse_trimmed_exact in Ea. eexists. split; [|exact Ea]. by right; right.
Qed.

(** C20: the client address is the first address found in X-Real-IP, then in the
    first entry of X-Forwarded-For, then in RemoteAddr with or without its port,
    blanks around it being ignored. An address is dotted, or eight hexadecimal
    groups, or fewer with an ellipsis, maybe ending dotted, in capitals or not;
    it is parsed to the 16 bytes it stands for. And nothing else is an address:
    what clientIP returns is nil, or the address that one of these texts, without
    the blanks around it, stands for. *)
Theorem clientIP_precedence req ip :
  (real_ip_is req ip → clientIP req = ip) ∧
  (from_real_ip req = None → forwarded_is req ip → clientIP req = ip) ∧
  (from_real_ip req = None → from_forwarded_for req = None → remote_is req ip →
   clientIP req = ip) ∧
  (clientIP req = [] ∨ ∃ l, looked_at req l ∧ address (TrimSpace l) (clientIP req)).
Proof.
  split_and!.
  - intros H. unfold clientIP, from_real_ip.
    rewrite (holds_address_nonempty _ _ _ [] (eq_sym (app_nil_r _)) H).
    by rewrite (holds_address_parse _ _ H).
  - intros Hr (first & rest & E & Hrest & H). unfold clientIP. rewrite Hr. unfold from_forwarded_for.
    rewrite (holds_address_nonempty _ _ _ _ E H), E.
    assert (match IndexByte (first ++ rest) 44 with Some i => take i (first ++ rest)
            | None => first ++ rest end = first) as ->; [|by rewrite (holds_address_parse _ _ H)].
    rewrite IndexByte_skip by (by eapply holds_address_no_comma).
    destruct Hrest as [-> |[r ->]]; cbn; [by rewrite app_nil_r|].
    by rewrite Nat.add_0_r, take_app_length.
  - intros Hr Hf [Hn Hp]%remote_host. unfold clientIP. rewrite Hr, Hf. unfold from_remote_addr.
    destruct (RemoteAddr req); [done|]. cbn [String.eqb]. unfold default, from_option, id in Hp.
    by rewrite Hp.
  - apply clientIP_looked_at.
Qed.

(** ** A request to try the claim on

    A documentation address with an ellipsis, followed by a proxy. *)

Definition demo_headers : Request :=
  MkRequest "GET" None ""
    (<["X-Forwarded-For"%string := ["2001:DB8::ff:42 , 10.0.0.1"%string]]>
       {["X-Real-Ip"%string := ["unknown"%string]]})
    "192.0.2.1:8080" None None 0 (λ _, None) None None.

Definition demo_address : list Z := [32; 1; 13; 184; 0; 0; 0; 0; 0; 0; 0; 0; 0; 255; 0; 66].

Lemma clientIP_precedence_witness :
  from_real_ip demo_headers = None ∧ forwarded_is demo_headers demo_address ∧
  clientIP demo_headers = demo_address.
Proof.
  assert (from_real_ip demo_headers = None) as Hr by (vm_compute; reflexivity).
  assert (forwarded_is demo_headers demo_address) as Hf.
  { pose (l1 := [(false, 2); (false, 0); (false, 0); (false, 1)]).
    pose (l2 := [(true, 13); (true, 11); (false, 8)]).
    pose (r1 := [(false, 15); (false, 15)]). pose (r2 := [(false, 4); (false, 2)]).
    assert (Forall group_ok [l1; l2] ∧ Forall group_ok [r1; r2]) as [Hl Hrr].
    { split; repeat constructor; cbn; lia. }
    exists (groups_text [l1; l2] None ++ 58 :: 58 :: groups_text [r1; r2] None ++ [32]),
      (44 :: 32 :: quad 10 0 0 1).
    split; [vm_compute; reflexivity|]. split; [right; by eexists|].
    exists [], (groups_text [l1; l2] None ++ 58 :: 58 :: groups_text [r1; r2] None), [32].
    split; [reflexivity|]. split; [constructor|]. split.
    { constructor; [|constructor]. do 5 right. by left. }
    apply (address_short [l1; l2] [r1; r2] None Hl Hrr); [done|cbn; lia]. }
  split; [exact Hr|]. split; [exact Hf|].
  exact (proj1 (proj2 (clientIP_precedence demo_headers demo_address)) Hr Hf).
Defined.
