(* ===== verification/Balancers.v ===== *)
(** * Balancers and pickers as interface values (balancer.go, transport.go)

    A [Balancer] or [Picker] variable of the transport holds one of the
    package's implementations: a sum over them.  Every operation dispatches on
    the dynamic type, and the contract of the implementations carries over. *)

From S2P Require Import Prelude GoLib Peer RoundRobin Picker SmoothWRR LeastConn Candidates IPHash Hash CHash Random.
#[local] Open Scope Z_scope.

(** ** Definitions *)

Inductive Balancer :=
  | BRoundRobin (b : RoundRobin)
  | BLeastConn (b : LeastConn)
  | BIPHash (b : IPHash)
  | BHash (b : Hash)
  | BHashConsistent (b : HashConsistent)
  | BRandom (b : Random).

Inductive AnyPicker :=
  | PRoundRobin (p : RRPicker)
  | PLeastConn (p : leastConnPicker)
  | PIPHash (p : ipHashPicker)
  | PHash (p : hashPicker)
  | PHashConsistent (p : chashPicker)
  | PRandom (p : randomPicker).

(** [Balancer.NewPicker] *)
Definition NewPicker (b : Balancer) : AnyPicker :=
  match b with
  | BRoundRobin b => PRoundRobin (RoundRobin.NewPicker b)
  | BLeastConn b => PLeastConn (LeastConn.NewPicker b)
  | BIPHash b => PIPHash (IPHash.NewPicker b)
  | BHash b => PHash (Hash.NewPicker b)
  | BHashConsistent b => PHashConsistent (CHash.NewPicker b)
  | BRandom b => PRandom (Random.NewPicker b)
  end.

(** A method of the dynamic type, run on the interface value. *)
Definition as_any {P A} (inj : P → AnyPicker) (m : M P A) (p : P) (w : World)
    : outcome (A * AnyPicker * World) :=
  match m p w with
  | Ret (a, p', w') => Ret (a, inj p', w')
  | Panic why => Panic why
  end.

Definition dispatch {A} (m : ∀ P, Picker P → M P A) : M AnyPicker A := λ v w,
  match v with
  | PRoundRobin p => as_any PRoundRobin (m _ RRPicker_picker) p w
  | PLeastConn p => as_any PLeastConn (m _ _) p w
  | PIPHash p => as_any PIPHash (m _ _) p w
  | PHash p => as_any PHash (m _ _) p w
  | PHashConsistent p => as_any PHashConsistent (m _ _) p w
  | PRandom p => as_any PRandom (m _ _) p w
  end.

Definition any_rrp (v : AnyPicker) : RRPicker :=
  match v with
  | PRoundRobin p => rrp p
  | PLeastConn p => rrp p
  | PIPHash p => rrp p
  | PHash p => rrp p
  | PHashConsistent p => rrp p
  | PRandom p => rrp p
  end.

#[export] Instance any_picker : Picker AnyPicker := {|
  rrp := any_rrp;
  pick := dispatch (λ _ _, pick);
  release := λ x failed, dispatch (λ _ _, release x failed);
  release_neutral := λ x, dispatch (λ _ _, release_neutral x);
|}.

(** ** The contract *)

Definition any_wf (v : AnyPicker) (h : Heap) : Prop :=
  match v with
  | PRoundRobin p => picker_wf p h
  | PLeastConn p => picker_wf p h
  | PIPHash p => picker_wf p h
  | PHash p => picker_wf p h
  | PHashConsistent p => picker_wf p h
  | PRandom p => picker_wf p h
  end.

Lemma wp_as_any {P A} (inj : P → AnyPicker) (m : M P A) (p : P) (w : World)
    (Q : A → AnyPicker → World → Prop) :
  wp m (λ a p' w', Q a (inj p') w') p w →
  match as_any inj m p w with Ret (a, v, w') => Q a v w' | Panic _ => False end.
Proof. unfold wp, as_any. by destruct (m p w) as [[[a p'] w']|]. Qed.

#[export] Instance any_laws : PickerLaws AnyPicker.
Proof.
  refine {| picker_wf := any_wf |}.
  - intros [p|p|p|p|p|p] h; exact (picker_wf_rr p h).
  - intros [p|p|p|p|p|p] h h'; exact (picker_wf_mono p h h').
  - intros [p|p|p|p|p|p] w Hwf; apply wp_as_any; exact (pick_law p w Hwf).
  - intros [p|p|p|p|p|p] w x failed Hwf; apply wp_as_any; exact (release_law p w x failed Hwf).
  - intros [p|p|p|p|p|p] w x Hwf; apply wp_as_any; exact (release_neutral_law p w x Hwf).
Defined.
