(* ===== verification/Config.v ===== *)
(** * The configuration of a transport (transport.go)

    Server and upstream configuration, its validation, the registration of
    upstreams and the construction of a Transport.  A [*Peer] is an address of
    the heap; the options are functions on the transport under construction. *)

From S2P Require Import Prelude GoLib Peer RoundRobin Picker SmoothWRR LeastConn Candidates IPHash Hash CHash Random Http Balancers.
#[local] Open Scope string_scope.
#[local] Open Scope Z_scope.
#[local] Open Scope go_scope.

(** ** Data *)

Definition defaultMaxBodyBuffer : Z := Z.shiftl 32 20.

(** [AlgorithmType] is an int; [iota] numbers the constants. *)
Definition AlgoRoundRobin : Z := 0.
Definition AlgoLeastConn : Z := 1.
Definition AlgoIPHash : Z := 2.
Definition AlgoHash : Z := 3.
Definition AlgoRandom : Z := 4.
Definition AlgoRandomTwo : Z := 5.
Definition AlgoHashConsistent : Z := 6.

Record upstreamKey := MkKey { key_scheme : string; key_host : string }.

#[export] Instance upstreamKey_eq_dec : EqDecision upstreamKey.
Proof. solve_decision. Defined.
#[export] Instance upstreamKey_countable : Countable upstreamKey :=
  inj_countable' (λ k, (key_scheme k, key_host k)) (λ '(s, h), MkKey s h) ltac:(by intros []).

Record backendAddr := MkBackend { addr_scheme : string; addr_host : string }.

Definition HashFunc := Request → string.
Definition NextUpstreamCondition := option Response → option GoError → bool.

Record upstream := MkUpstream {
  balancer : option Balancer;
  backends : gmap nat backendAddr;
  hashFunc : option HashFunc;
  algo : Z;
  multipleUsablePeers : bool;
  sslName : string;
  ups_transport : option RoundTripper;
}.

Record Transport := MkTransport {
  transport : option RoundTripper;
  upstreams : gmap upstreamKey upstream;
  timeout : Z;
  connectTimeout : Z;
  maxBodyBuffer : Z;
  nextUpstream : option NextUpstreamCondition;
  retryNonIdempotent : bool;
  initErr : option GoError;
}.

Definition set_transport (rt : RoundTripper) (t : Transport) : Transport :=
  MkTransport (Some rt) (upstreams t) (timeout t) (connectTimeout t) (maxBodyBuffer t)
    (nextUpstream t) (retryNonIdempotent t) (initErr t).
Definition set_upstream (k : upstreamKey) (u : upstream) (t : Transport) : Transport :=
  MkTransport (transport t) (<[k := u]> (upstreams t)) (timeout t) (connectTimeout t)
    (maxBodyBuffer t) (nextUpstream t) (retryNonIdempotent t) (initErr t).
Definition set_initErr (e : GoError) (t : Transport) : Transport :=
  MkTransport (transport t) (upstreams t) (timeout t) (connectTimeout t) (maxBodyBuffer t)
    (nextUpstream t) (retryNonIdempotent t) (Some e).

Definition ServerOption := Peer → Peer.

Record ServerConfig := MkServer {
  sc_Address : string;
  sc_Weight : Z;
  sc_Down : bool;
  sc_MaxConns : Z;
  sc_MaxFails : Z;
  sc_FailTimeout : Z;
  sc_Backup : bool;
  sc_explicit : Z;
  sc_nilOption : bool;
}.

Record UpstreamConfig := MkUpstreamConfig {
  Pattern : string;
  Servers : list ServerConfig;
  Algorithm : Z;
  uc_HashFunc : option HashFunc;
  SSLName : string;
}.

Record upstreamConfig := MkConfig {
  defaultScheme : string;
  cfg_peers : list PeerId;
  cfg_addrs : gmap nat backendAddr;
  cfg_algo : Z;
  cfg_hashFunc : option HashFunc;
  cfg_sslName : string;
  cfg_err : option GoError;
}.

(** ** Server and Upstream *)

Definition Upstream (pattern : string) (servers : list ServerConfig) : UpstreamConfig :=
  MkUpstreamConfig pattern servers AlgoRoundRobin None "".

(** [&Peer{Addr: addr}] *)
Definition new_peer (addr : string) : Peer :=
  MkPeer addr 0 false 0 0 0 false 0 0 0 0 0 zero_time zero_time 0.

(** The loop over the options; a nil option is noted and skipped. *)
Fixpoint apply_options (opts : list (option ServerOption)) (peer : Peer) (nilOption : bool)
    : Peer * bool :=
  match opts with
  | [] => (peer, nilOption)
  | None :: opts => apply_options opts peer true
  | Some opt :: opts => apply_options opts (opt peer) nilOption
  end.

Definition Server (addr : string) (opts : list (option ServerOption)) : ServerConfig :=
  let '(peer, nilOption) := apply_options opts (new_peer addr) false in
  MkServer addr (Weight peer) (Down peer) (MaxConns peer) (MaxFails peer) (FailTimeout peer)
    (Backup peer) (explicit peer) nilOption.

(** [p.Weight = w; p.explicit |= serverFieldWeight], and so on. *)
Definition opt_Weight (w : Z) : ServerOption := λ p,
  MkPeer (Addr p) w (Down p) (MaxConns p) (MaxFails p) (FailTimeout p) (Backup p)
    (Z.lor (explicit p) serverFieldWeight) (currentWeight p) (effectiveWeight p) (conns p)
    (fails p) (accessed p) (checked p) (checkedSeq p).
Definition opt_MaxFails (n : Z) : ServerOption := λ p,
  MkPeer (Addr p) (Weight p) (Down p) (MaxConns p) n (FailTimeout p) (Backup p)
    (Z.lor (explicit p) serverFieldMaxFails) (currentWeight p) (effectiveWeight p) (conns p)
    (fails p) (accessed p) (checked p) (checkedSeq p).
Definition opt_FailTimeout (d : Z) : ServerOption := λ p,
  MkPeer (Addr p) (Weight p) (Down p) (MaxConns p) (MaxFails p) d (Backup p)
    (Z.lor (explicit p) serverFieldFailTimeout) (currentWeight p) (effectiveWeight p) (conns p)
    (fails p) (accessed p) (checked p) (checkedSeq p).
Definition opt_MaxConns (n : Z) : ServerOption := λ p,
  MkPeer (Addr p) (Weight p) (Down p) n (MaxFails p) (FailTimeout p) (Backup p)
    (explicit p) (currentWeight p) (effectiveWeight p) (conns p)
    (fails p) (accessed p) (checked p) (checkedSeq p).
Definition opt_Backup : ServerOption := λ p,
  MkPeer (Addr p) (Weight p) (Down p) (MaxConns p) (MaxFails p) (FailTimeout p) true
    (explicit p) (currentWeight p) (effectiveWeight p) (conns p)
    (fails p) (accessed p) (checked p) (checkedSeq p).
Definition opt_Down : ServerOption := λ p,
  MkPeer (Addr p) (Weight p) true (MaxConns p) (MaxFails p) (FailTimeout p) (Backup p)
    (explicit p) (currentWeight p) (effectiveWeight p) (conns p)
    (fails p) (accessed p) (checked p) (checkedSeq p).

(** The methods that choose an algorithm. *)
Definition with_algo (a : Z) (f : option HashFunc) (u : UpstreamConfig) : UpstreamConfig :=
  MkUpstreamConfig (Pattern u) (Servers u) a f (SSLName u).
Definition uc_RoundRobin := with_algo AlgoRoundRobin None.
Definition uc_LeastConn := with_algo AlgoLeastConn None.
Definition uc_IPHash := with_algo AlgoIPHash None.
Definition uc_Hash (keyFunc : option HashFunc) := with_algo AlgoHash keyFunc.
Definition uc_HashConsistent (keyFunc : option HashFunc) := with_algo AlgoHashConsistent keyFunc.
Definition uc_Random := with_algo AlgoRandom None.
Definition uc_RandomTwo := with_algo AlgoRandomTwo None.
Definition ProxySSLName (name : string) (u : UpstreamConfig) : UpstreamConfig :=
  MkUpstreamConfig (Pattern u) (Servers u) (Algorithm u) (uc_HashFunc u) name.

(** ** Validation *)

Definition join_if (b : bool) (text : string) (err : option GoError) : option GoError :=
  if b then Some (errors_Join err (New text)) else err.

Definition validate (server : ServerConfig) : option GoError :=
  let err := join_if (sc_nilOption server) "cslb: nil server option" None in
  let err := join_if ((sc_Weight server <? 0) ||
      (has (sc_explicit server) serverFieldWeight && (sc_Weight server =? 0)))
    "weight must be greater than zero" err in
  let err := join_if (sc_MaxConns server <? 0) "max_conns must be non-negative" err in
  let err := join_if (sc_MaxFails server <? 0) "max_fails must be non-negative" err in
  join_if (sc_FailTimeout server <? 0) "fail_timeout must be non-negative" err.

Definition joined (old : option GoError) (e : GoError) : GoError :=
  match old with None => e | Some _ => errors_Join old e end.

Definition addError (e : GoError) (cfg : upstreamConfig) : upstreamConfig :=
  MkConfig (defaultScheme cfg) (cfg_peers cfg) (cfg_addrs cfg) (cfg_algo cfg)
    (cfg_hashFunc cfg) (cfg_sslName cfg) (Some (joined (cfg_err cfg) e)).

Definition addInitError (e : GoError) (t : Transport) : Transport :=
  set_initErr (joined (initErr t) e) t.

Definition supportedAlgorithm (algo : Z) : bool :=
  (algo =? AlgoRoundRobin) || (algo =? AlgoLeastConn) || (algo =? AlgoIPHash) ||
  (algo =? AlgoHash) || (algo =? AlgoRandom) || (algo =? AlgoRandomTwo) ||
  (algo =? AlgoHashConsistent).

Definition is_some {A} (o : option A) : bool := match o with Some _ => true | None => false end.

Definition set_cfg_algo (a : Z) (cfg : upstreamConfig) : upstreamConfig :=
  MkConfig (defaultScheme cfg) (cfg_peers cfg) (cfg_addrs cfg) a
    (cfg_hashFunc cfg) (cfg_sslName cfg) (cfg_err cfg).

Definition normalize (cfg : upstreamConfig) : upstreamConfig :=
  let cfg := if is_some (cfg_hashFunc cfg) && (cfg_algo cfg =? AlgoRoundRobin)
             then set_cfg_algo AlgoHash cfg else cfg in
  if negb (supportedAlgorithm (cfg_algo cfg))
  then addError (Errorf "unsupported load-balancing algorithm: %d"
                   [Itoa (cfg_algo cfg)] None) cfg
  else
    let cfg := if is_some (cfg_hashFunc cfg) && negb (cfg_algo cfg =? AlgoHash) &&
                  negb (cfg_algo cfg =? AlgoHashConsistent)
               then addError (New "cslb: hash key function can only be used with hash algorithm")
                      cfg else cfg in
    if ((cfg_algo cfg =? AlgoHash) || (cfg_algo cfg =? AlgoHashConsistent)) &&
       negb (is_some (cfg_hashFunc cfg))
    then addError (New "cslb: hash key function must not be nil") cfg else cfg.

Definition Contains (s sub : string) : bool := is_some (strings_Index s sub).

(** ** Registration

    [url_Parse] is url.Parse, of which the code uses the scheme and the host;
    [rand] is the random source of the random balancers; [default_transport d]
    is the [*http.Transport] built with a dialer of timeout [d], and
    [clone_with_ServerName rt name] the clone of one whose TLS configuration
    has that server name. *)

Section registration.
Context (url_Parse : string → option (string * string)).
Context (rand : nat → Z → Z).
Context (default_transport : Z → RoundTripper).
Context (clone_with_ServerName : RoundTripper → string → RoundTripper).

Definition add_backend (peer : PeerId) (a : backendAddr) (cfg : upstreamConfig) : upstreamConfig :=
  MkConfig (defaultScheme cfg) (cfg_peers cfg ++ [peer]) (<[peer := a]> (cfg_addrs cfg))
    (cfg_algo cfg) (cfg_hashFunc cfg) (cfg_sslName cfg) (cfg_err cfg).

(** The URL of a string with a scheme and a host, as the code requires. *)
Definition parse_absolute (s : string) : option (string * string) :=
  match url_Parse s with
  | Some (scheme, host) => if (scheme =? "")%string || (host =? "")%string then None else Some (scheme, host)
  | None => None
  end.

Definition addPeer (peer : PeerId) (addr : string) (cfg : upstreamConfig) : upstreamConfig :=
  if (addr =? "")%string then addError (New "cslb: backend address must not be empty") cfg else
  if Contains addr "://" then
    match parse_absolute addr with
    | None => addError (Errorf "cslb: invalid backend address: %q" [addr] None) cfg
    | Some (scheme, host) => add_backend peer (MkBackend scheme host) cfg
    end
  else add_backend peer (MkBackend (defaultScheme cfg) addr) cfg.

Definition newUpstreamConfig (scheme : string) : upstreamConfig :=
  MkConfig scheme [] ∅ AlgoRoundRobin None "" None.

(** The peer of a server, before [init]. *)
Definition server_peer (s : ServerConfig) : Peer :=
  MkPeer (sc_Address s) (sc_Weight s) (sc_Down s) (sc_MaxConns s) (sc_MaxFails s)
    (sc_FailTimeout s) (sc_Backup s) (sc_explicit s) 0 0 0 0 zero_time zero_time 0.

(** One round of the loop over the servers. *)
Definition add_server (s : ServerConfig) (cfg : upstreamConfig) (h : Heap)
    : upstreamConfig * Heap :=
  match validate s with
  | Some err => (addError (Errorf "server %q: %w" [sc_Address s] (Some err)) cfg, h)
  | None =>
      let peer := fresh (dom h) in
      (addPeer peer (sc_Address s) cfg, <[peer := server_peer s]> h)
  end.

Fixpoint add_servers (servers : list ServerConfig) (cfg : upstreamConfig) (h : Heap)
    : upstreamConfig * Heap :=
  match servers with
  | [] => (cfg, h)
  | s :: rest => let '(cfg, h) := add_server s cfg h in add_servers rest cfg h
  end.

Definition newBalancer (algo : Z) (peers : list PeerId) (h : Heap) : outcome (Balancer * Heap) :=
  let ps := Some <$> peers in
  if algo =? AlgoLeastConn then let '(b, h) := NewLeastConn ps h in Ret (BLeastConn b, h)
  else if algo =? AlgoIPHash then let '(b, h) := NewIPHash ps h in Ret (BIPHash b, h)
  else if algo =? AlgoHash then let '(b, h) := NewHash ps h in Ret (BHash b, h)
  else if algo =? AlgoHashConsistent then
    match NewHashConsistent ps h with
    | Ret (b, h) => Ret (BHashConsistent b, h)
    | Panic why => Panic why
    end
  else if algo =? AlgoRandom then let '(b, h) := NewRandom ps rand h in Ret (BRandom b, h)
  else if algo =? AlgoRandomTwo then let '(b, h) := NewRandomTwo ps rand h in Ret (BRandom b, h)
  else let '(b, h) := NewRoundRobin ps h in Ret (BRoundRobin b, h).

(** The scheme of the pattern for the backends without one of their own. *)
Definition inherit_scheme (scheme : string) (h : Heap) (cfg : upstreamConfig) : upstreamConfig :=
  if (defaultScheme cfg =? "")%string then
    MkConfig scheme (cfg_peers cfg)
      (map_imap (λ p a, Some (if Contains (Addr (h !!! p)) "://" then a
                              else MkBackend scheme (addr_host a))) (cfg_addrs cfg))
      (cfg_algo cfg) (cfg_hashFunc cfg) (cfg_sslName cfg) (cfg_err cfg)
  else cfg.

Definition count_usable (h : Heap) (peers : list PeerId) : nat :=
  length (filter (λ p, Down (h !!! p) = false) peers).

Definition registerUpstream (pattern : string) (cfg : upstreamConfig) (t : Transport) (h : Heap)
    : outcome (Transport * Heap) :=
  match parse_absolute pattern with
  | None => Ret (addInitError (Errorf "cslb: invalid upstream pattern: %q" [pattern] None) t, h)
  | Some (scheme, host) =>
      let cfg := normalize (inherit_scheme scheme h cfg) in
      match cfg_err cfg with
      | Some e => Ret (addInitError (Errorf "cslb: upstream %q: %w" [pattern] (Some e)) t, h)
      | None =>
          if (length (cfg_peers cfg) =? 0)%nat
          then Ret (addInitError (Errorf "cslb: upstream %q has no backends" [pattern] None) t, h)
          else
            let usablePeers := count_usable h (cfg_peers cfg) in
            if (usablePeers =? 0)%nat
            then Ret (addInitError (Errorf
                   "cslb: upstream %q has no usable backends: all servers are down"
                   [pattern] None) t, h)
            else
              let key := MkKey scheme host in
              if is_some (upstreams t !! key)
              then Ret (addInitError (Errorf "cslb: duplicate upstream for %s://%s"
                          [scheme; host] None) t, h)
              else
                match newBalancer (cfg_algo cfg) (cfg_peers cfg) h with
                | Panic why => Panic why
                | Ret (b, h) =>
                    Ret (set_upstream key (MkUpstream (Some b) (cfg_addrs cfg)
                           (cfg_hashFunc cfg) (cfg_algo cfg) (1 <? usablePeers)%nat
                           (cfg_sslName cfg) None) t, h)
                end
      end
  end.

Definition registerExplicitUpstream (u : UpstreamConfig) (t : Transport) (h : Heap)
    : outcome (Transport * Heap) :=
  let cfg := newUpstreamConfig "" in
  let cfg := MkConfig (defaultScheme cfg) (cfg_peers cfg) (cfg_addrs cfg) (Algorithm u)
    (uc_HashFunc u) (SSLName u) (cfg_err cfg) in
  let '(cfg, h) := add_servers (Servers u) cfg h in
  registerUpstream (Pattern u) cfg t h.

(** ** Transport options *)

Definition TransportOption := Transport → Heap → outcome (Transport * Heap).

Definition WithRoundTripper (rt : option RoundTripper) : TransportOption := λ t h,
  match rt with
  | None => Ret (addInitError (Sentinel ErrNilRoundTripper) t, h)
  | Some rt => Ret (set_transport rt t, h)
  end.

Definition WithTimeout (d : Z) : TransportOption := λ t h,
  if d <? 0 then Ret (addInitError (New "cslb: attempt timeout must be non-negative") t, h)
  else Ret (MkTransport (transport t) (upstreams t) d (connectTimeout t) (maxBodyBuffer t)
              (nextUpstream t) (retryNonIdempotent t) (initErr t), h).

Definition WithConnectTimeout (d : Z) : TransportOption := λ t h,
  if d <? 0 then Ret (addInitError (New "cslb: connect timeout must be non-negative") t, h)
  else Ret (MkTransport (transport t) (upstreams t) (timeout t) d (maxBodyBuffer t)
              (nextUpstream t) (retryNonIdempotent t) (initErr t), h).

Definition WithMaxBodyBuffer (size : Z) : TransportOption := λ t h,
  if size <? 0 then Ret (addInitError (New "cslb: max body buffer must be non-negative") t, h)
  else Ret (MkTransport (transport t) (upstreams t) (timeout t) (connectTimeout t) size
              (nextUpstream t) (retryNonIdempotent t) (initErr t), h).

Definition WithNextUpstream (cond : option NextUpstreamCondition) : TransportOption := λ t h,
  match cond with
  | None => Ret (addInitError (New "cslb: next upstream condition must not be nil") t, h)
  | Some c => Ret (MkTransport (transport t) (upstreams t) (timeout t) (connectTimeout t)
                     (maxBodyBuffer t) (Some c) (retryNonIdempotent t) (initErr t), h)
  end.

(** The condition; RoundTrip never calls it with neither a response nor an
    error, where the code would dereference nil. *)
Definition codes_condition (codes : list Z) : NextUpstreamCondition := λ resp err,
  match err with
  | Some _ => true
  | None => match resp with
            | Some r => bool_decide (StatusCode r ∈ codes)
            | None => false
            end
  end.

Definition WithNextUpstreamCodes (codes : list Z) : TransportOption :=
  WithNextUpstream (Some (codes_condition codes)).

Definition WithNonIdempotentRetries : TransportOption := λ t h,
  Ret (MkTransport (transport t) (upstreams t) (timeout t) (connectTimeout t)
         (maxBodyBuffer t) (nextUpstream t) true (initErr t), h).

Fixpoint WithUpstreams (us : list UpstreamConfig) : TransportOption := λ t h,
  match us with
  | [] => Ret (t, h)
  | u :: us =>
      match registerExplicitUpstream u t h with
      | Ret (t, h) => WithUpstreams us t h
      | Panic why => Panic why
      end
  end.

(** ** NewTransportE *)

Fixpoint run_options (opts : list (option TransportOption)) : TransportOption := λ t h,
  match opts with
  | [] => Ret (t, h)
  | None :: opts => run_options opts (addInitError (New "cslb: nil transport option") t) h
  | Some opt :: opts =>
      match opt t h with
      | Ret (t, h) => run_options opts t h
      | Panic why => Panic why
      end
  end.

Definition Second30 : Z := 30 * Second.

Definition with_default_transport (t : Transport) : Transport :=
  match transport t with
  | Some _ => t
  | None =>
      let d := if connectTimeout t =? 0 then Second30 else connectTimeout t in
      set_transport (default_transport d) t
  end.

Definition set_ups_transport (rt : RoundTripper) (u : upstream) : upstream :=
  MkUpstream (balancer u) (backends u) (hashFunc u) (algo u) (multipleUsablePeers u)
    (sslName u) (Some rt).

(** One round of the loop over the upstreams, in any order. *)
Definition ssl_upstream (t : Transport) (ku : upstreamKey * upstream) : Transport :=
  let '(k, ups) := ku in
  if (sslName ups =? "")%string then t else
  match transport t with
  | Some ht =>
      if standard ht
      then set_upstream k (set_ups_transport (clone_with_ServerName ht (sslName ups)) ups) t
      else addInitError
        (New "cslb: ProxySSLName requires the underlying transport to be *http.Transport") t
  | None => t
  end.

Definition NewTransportE (opts : list (option TransportOption)) (h : Heap)
    : outcome (Transport * option GoError * Heap) :=
  let t := MkTransport None ∅ 0 0 defaultMaxBodyBuffer None false None in
  match run_options opts t h with
  | Panic why => Panic why
  | Ret (t, h) =>
      let t := with_default_transport t in
      let t := fold_left ssl_upstream (map_to_list (upstreams t)) t in
      Ret (t, initErr t, h)
  end.

Definition NewTransport (opts : list (option TransportOption)) (h : Heap)
    : outcome (Transport * Heap) :=
  match NewTransportE opts h with
  | Ret (t, _, h) => Ret (t, h)
  | Panic why => Panic why
  end.

(** [t.Err()], on a possibly nil transport *)
Definition Err (t : option Transport) : option GoError :=
  match t with None => Some (Sentinel ErrNilRoundTripper) | Some t => initErr t end.
End registration.
