(* ===== verification/RoundTrip.v ===== *)
(** * RoundTrip (transport.go)

    One request: the upstream and its picker, the body, the loop over the
    attempts with its decisions, and the releases.  The log of the outside
    world records selections, exchanges and releases. *)

From S2P Require Import Prelude GoLib Peer RoundRobin Picker LeastConn IPHash Hash CHash Random Http Body ClientIP Balancers Config.
#[local] Open Scope Z_scope.

(** ** The decision after an attempt *)

Record attemptDecision := MkDecision { retry : bool; failed : bool; neutral : bool }.

Definition isRoundTripperContractError (err : option GoError) : bool :=
  match err with
  | None => false
  | Some e => errors_Is e ErrNilResponseBody || errors_Is e ErrInvalidRoundTrip ||
              errors_Is e ErrNilRoundTripper
  end.

Definition shouldRetry (t : Transport) (resp : option Response) (err : option GoError) : bool :=
  match nextUpstream t with
  | Some cond => cond resp err
  | None => is_some err
  end.

Definition isNonIdempotentMethod (method : string) : bool :=
  (method =? "POST")%string || (method =? "LOCK")%string || (method =? "PATCH")%string.

Definition decideAttempt (t : Transport) (req : Request) (resp : option Response)
    (err : option GoError) (sent : bool) : attemptDecision :=
  let neutral := isRoundTripperContractError err in
  if negb (shouldRetry t resp err) then MkDecision false false neutral else
  let blockedNonIdempotent :=
    sent && isNonIdempotentMethod (Method req) && negb (retryNonIdempotent t) in
  let decision := MkDecision (negb blockedNonIdempotent) (negb neutral) neutral in
  match err, resp with
  | None, Some r =>
      let decision :=
        if (StatusCode r =? 403) || (StatusCode r =? 404)
        then MkDecision (retry decision) false neutral else decision in
      if blockedNonIdempotent then MkDecision (retry decision) false neutral else decision
  | _, _ => decision
  end.

Definition requestBodyMayNeedReplay (t : Transport) (ups : upstream) (req : Request) : bool :=
  if negb (multipleUsablePeers ups) then false
  else negb (isNonIdempotentMethod (Method req)) || retryNonIdempotent t.

(** [traceRequestSent]: the request with a trace, and the flag of the trace. *)
Definition traceRequestSent (req : Request) : T (Request * nat) := λ io w,
  Ret ((set_trace (ctxs io) req, ctxs io), new_ctx io, w).

Definition requestWasSent (rt : option RoundTripper) (flag : nat) (resp : option Response)
    (err : option GoError) (io : IO) : bool :=
  if is_some resp || bool_decide (flag ∈ sent io) then true
  else if negb (is_some err) then false
  else match rt with Some rt => negb (standard rt) | None => true end.

(** ** One exchange *)

Definition failRoundTrip (req : option Request) (err : GoError) : T Results :=
  (match req ≫= req_Body with Some b => Close b | None => mret tt end);;
  mret (None, Some err).

(** [rt.RoundTrip(req)], recorded in the log. *)
Definition call (rt : RoundTripper) (req : Request) : T Results :=
  io ← self;
  r ← serve rt req;
  io' ← self;
  event (EvServe (MkExchange (default (MkURL "" "" "") (req_URL req)) (fst <$> attempt_ctx req)
           (readable (req_Body req) io)
           (match trace req with Some n => bool_decide (n ∈ sent io') | None => false end)
           r.1 r.2));;
  mret r.

Definition roundTrip (rt : option RoundTripper) (req : Request) : T Results :=
  match rt with
  | None => failRoundTrip (Some req) (Sentinel ErrNilRoundTripper)
  | Some rt =>
      r ← call rt req;
      match r with
      | (None, None) => failRoundTrip (Some req) (Sentinel ErrInvalidRoundTrip)
      | (Some resp, _) =>
          match resp_Body resp with
          | None => failRoundTrip (Some req) (Sentinel ErrNilResponseBody)
          | Some _ => mret r
          end
      | (None, Some _) => mret r
      end
  end.

(** ** The picker of a request *)

Definition newPicker (ups : upstream) (req : Request) : option AnyPicker :=
  match balancer ups with
  | None => None
  | Some b =>
      Some (match b with
            | BIPHash h =>
                if algo ups =? AlgoIPHash
                then PIPHash (IPHash.NewPickerForIP h (ClientIP.clientIP req))
                else Balancers.NewPicker b
            | BHash h =>
                match hashFunc ups with
                | Some f => if algo ups =? AlgoHash
                            then PHash (Hash.NewPickerForKey h (f req))
                            else Balancers.NewPicker b
                | None => Balancers.NewPicker b
                end
            | BHashConsistent h =>
                match hashFunc ups with
                | Some f => if algo ups =? AlgoHashConsistent
                            then PHashConsistent (CHash.NewPickerForKey h (f req))
                            else Balancers.NewPicker b
                | None => Balancers.NewPicker b
                end
            | _ => Balancers.NewPicker b
            end)
  end.

(** ** The loop *)

(** An operation of the picker, its state being threaded by the loop. *)
Definition on_picker {P A} (m : M P A) (pk : P) : T (A * P) := λ io w,
  match m pk w with
  | Ret (a, pk', w') => Ret ((a, pk'), io, w')
  | Panic why => Panic why
  end.

Definition closeLast (lastResp : option Response) : T unit :=
  match lastResp with
  | None => mret tt
  | Some r => match resp_Body r with
              | Some b => Close b
              | None => throw NilDereference
              end
  end.

(** The request of one attempt, with its body. *)
Definition rewrite_request (baseReq : Request) (host : string) (addr : backendAddr) : Request :=
  let req := if (Host baseReq =? "")%string then set_Host host baseReq else baseReq in
  set_URL ((λ u, MkURL (addr_scheme addr) (addr_host addr) (URL_rest u)) <$> req_URL req) req.

Definition attach_body (getBody : option GetBodyFn) (req : Request) : T (GoError + Request) :=
  match getBody with
  | None => mret (inr req)
  | Some g =>
      r ← call_GetBody g;
      match r with
      | inl e => mret (inl e)
      | inr b => mret (inr (set_GetBody (Some g) (set_body (Some b) req)))
      end
  end.

(** [context.WithTimeout], when a timeout is configured; the derived context. *)
Definition attach_timeout (timeout : Z) (req : Request) : T (Request * option nat) := λ io w,
  if 0 <? timeout
  then Ret ((set_attempt_ctx (ctxs io, timeout) req, Some (ctxs io)), new_ctx io, w)
  else Ret ((req, None), io, w).

(** What the loop does with the derived context after the exchange. *)
Definition settle_timeout (c : option nat) (resp : option Response) (err : option GoError)
    : T (option Response) :=
  match c with
  | None => mret resp
  | Some c =>
      match err with
      | Some _ => cancel c;; mret resp
      | None =>
          match resp with
          | None => throw NilDereference
          | Some r => match resp_Body r with
                      | Some b => mret (Some (set_resp_Body (CancelCloser b c) r))
                      | None => mret resp
                      end
          end
      end
  end.

(** The exchange of an attempt with its timeout and its trace: the flag of the
    trace, the request as it was sent, and the results. *)
Definition send (timeout : Z) (rt : option RoundTripper) (attemptReq : Request)
    : T (nat * Request * Results) :=
  timed ← attach_timeout timeout attemptReq;
  traced ← traceRequestSent timed.1;
  r ← roundTrip rt traced.1;
  resp ← settle_timeout timed.2 r.1 r.2;
  mret (traced.2, traced.1, (resp, r.2)).

Section attempts.
Context {P : Type} `{Picker P}.

(** [doneNeutral(pk, peer)]: all the pickers of the package implement the
    optional method. *)
Definition doneNeutral (pk : P) (peer : PeerId) : T P :=
  r ← on_picker (release_neutral (Some peer)) pk;
  event (EvRelease peer Neutral);;
  mret r.2.

Definition done (pk : P) (peer : PeerId) (failed : bool) : T P :=
  r ← on_picker (release (Some peer) failed) pk;
  event (EvRelease peer (Reported failed));;
  mret r.2.

(** The variables of the loop: the picker and the last attempt. *)
Record loop_state := MkLoop { lp_pk : P; lastResp : option Response; lastErr : option GoError }.

(** After the exchange: cancellation, decision and release. *)
Definition conclude (t : Transport) (req attemptReq : Request) (rt : option RoundTripper)
    (flag : nat) (pk : P) (peer : PeerId) (resp : option Response) (err : option GoError)
    : T (loop_state + Results) :=
  cancelled ← (if is_some err then ctx_Err req else mret None);
  match cancelled with
  | Some _ =>
      doneNeutral pk peer;;
      closeLast resp;;
      e ← ctx_Err req;
      mret (inr (None, e))
  | None =>
      io ← self;
      let decision := decideAttempt t attemptReq resp err (requestWasSent rt flag resp err io) in
      pk ← (if neutral decision then doneNeutral pk peer else done pk peer (failed decision));
      if negb (retry decision) then mret (inr (resp, err))
      else mret (inl (MkLoop pk resp err))
  end.

(** One round of the loop; [inr] is a return. *)
Definition attempt_round (t : Transport) (ups : upstream) (key : upstreamKey)
    (req baseReq : Request) (getBody : option GetBodyFn) (s : loop_state)
    : T (loop_state + Results) :=
  e ← ctx_Err req;
  match e with
  | Some e => closeLast (lastResp s);; mret (inr (None, Some e))
  | None =>
      sel ← on_picker pick (lp_pk s);
      let pk := sel.2 in
      match sel.1 with
      | None =>
          mret (inr (if is_some (lastResp s) || is_some (lastErr s)
                     then (lastResp s, lastErr s)
                     else (None, Some (Retry ErrNoPeerAvailable))))
      | Some peer =>
          event (EvPick peer);;
          match backends ups !! peer with
          | None =>
              pr ← load peer;
              doneNeutral pk peer;;
              closeLast (lastResp s);;
              mret (inr (None, Some (Errorf "cslb: selected peer %q has no backend address"
                                       [Addr pr] None)))
          | Some addr =>
              closeLast (lastResp s);;
              (let attemptReq := rewrite_request baseReq (key_host key) addr in
               body ← attach_body getBody attemptReq;
               match body with
               | inl e => doneNeutral pk peer;; mret (inr (None, Some e))
               | inr attemptReq =>
                   let rt := match ups_transport ups with Some rt => Some rt
                                                        | None => transport t end in
                   sent ← send (timeout t) rt attemptReq;
                   let '(flag, attemptReq, (resp, err)) := sent in
                   conclude t req attemptReq rt flag pk peer resp err
               end)
          end
      end
  end.

Fixpoint attempt_loop (fuel : nat) (t : Transport) (ups : upstream) (key : upstreamKey)
    (req baseReq : Request) (getBody : option GetBodyFn) (s : loop_state)
    : T (option Results) :=
  match fuel with
  | O => mret None
  | S fuel =>
      r ← attempt_round t ups key req baseReq getBody s;
      match r with
      | inr res => mret (Some res)
      | inl s => attempt_loop fuel t ups key req baseReq getBody s
      end
  end.
End attempts.
Arguments loop_state : clear implicits.

(** ** RoundTrip *)

(** The request of an upstream: picker, body, loop, and the deferred cleanup. *)
Definition balanced_trip (fuel : nat) (t : Transport) (ups : upstream) (key : upstreamKey)
    (req : Request) : T (option Results) :=
  let baseReq := req in
  match newPicker ups baseReq with
  | None => r ← failRoundTrip (Some req) (Sentinel ErrInvalidUpstreamConfig); mret (Some r)
  | Some pk =>
      prepared ← prepareBody (maxBodyBuffer t) baseReq (requestBodyMayNeedReplay t ups baseReq);
      let '((getBody, cleanup, err), baseReq) := prepared in
      match err with
      | Some e => mret (Some (None, Some e))
      | None =>
          r ← attempt_loop fuel t ups key req baseReq getBody (MkLoop pk None None);
          match cleanup with Some c => run_cleanup c | None => mret tt end;;
          mret r
      end
  end.

(** [None] is only the exhaustion of the fuel. *)
Definition RoundTrip (fuel : nat) (t : option Transport) (req : option Request)
    : T (option Results) :=
  let fail e := r ← failRoundTrip req e; mret (Some r) in
  match t with
  | None => fail (Sentinel ErrNilRoundTripper)
  | Some t =>
      match initErr t with
      | Some e => fail e
      | None =>
          match req with
          | None => fail (Sentinel ErrNilRequest)
          | Some r =>
              match req_URL r with
              | None => fail (Sentinel ErrNilRequestURL)
              | Some u =>
                  match transport t with
                  | None => fail (Sentinel ErrNilRoundTripper)
                  | Some rt =>
                      e ← ctx_Err r;
                      match e with
                      | Some e => fail e
                      | None =>
                          let key := MkKey (Scheme u) (URL_Host u) in
                          match upstreams t !! key with
                          | None => res ← roundTrip (Some rt) r; mret (Some res)
                          | Some ups => balanced_trip fuel t ups key r
                          end
                      end
                  end
              end
          end
      end
  end.

(** ** Specification of an exchange *)

(** What roundTrip makes of the results of a call. *)
Definition outcome (ex : Exchange) : Results :=
  match ex_resp ex, ex_err ex with
  | None, None => (None, Some (Sentinel ErrInvalidRoundTrip))
  | Some resp, err =>
      match resp_Body resp with
      | None => (None, Some (Sentinel ErrNilResponseBody))
      | Some _ => (Some resp, err)
      end
  | None, Some e => (None, Some e)
  end.

(** A request whose body is not one of the streams of [D]. *)
Definition own_body (req : Request) (D : gset nat) : Prop :=
  ∀ s, req_Body req ≫= closes = Some s → s ∉ D.

Definition fresh_response (resp : option Response) (io io' : IO) : Prop :=
  ∀ r, resp = Some r → ∃ b, resp_Body r = Some b ∧ new_body b io io'.

(** The exchange is what the RoundTripper answered to a request. *)
Definition served (rt : RoundTripper) (ex : Exchange) : Prop :=
  ∃ req io w io' w', ex_to ex = default (MkURL "" "" "") (req_URL req) ∧
    serve rt req io w = Ret ((ex_resp ex, ex_err ex), io', w').

(** The call of a RoundTripper by an attempt. *)
Record exchanged (rt : RoundTripper) (req : Request) (D : gset nat) (io : IO) (w : World)
    (ex : Exchange) (io' : IO) (w' : World) : Prop := {
  xc_log : log io' = log io ++ [EvServe ex];
  xc_frame : io_frame D io io';
  xc_tmp : tmp io' = tmp io;
  xc_world : interference w w';
  xc_to : ex_to ex = default (MkURL "" "" "") (req_URL req);
  xc_ctx : ex_ctx ex = fst <$> attempt_ctx req;
  xc_body : ex_body ex = readable (req_Body req) io;
  xc_sent : ∀ n, trace req = Some n → ex_sent ex = bool_decide (n ∈ sent io');
  xc_served : served rt ex;
  xc_fresh : fresh_response (outcome ex).1 io io';
  xc_unread : standard rt = true → ex_sent ex = false → is_some (trace req) = true →
    ∀ s st, streams io !! s = Some st → s ∈ D → off <$> streams io' !! s = Some (off st);
}.

Lemma readable_frame b C D io io' :
  io_frame D io io' → (∀ s, reads_from b = Some s → s ∈ D) →
  (∀ s st, streams io !! s = Some st → s ∈ D → off <$> streams io' !! s = Some (off st)) →
  readable (Some b) io = Some C → readable (Some b) io' = Some C.
Proof.
  intros Hf Hs Ho. unfold readable. cbn. destruct (reads_from b) as [s|]; [|done].
  specialize (Hs s eq_refl). destruct (streams io !! s) as [st|] eqn:E; [|done].
  destruct (fr_streams _ _ _ Hf s st E) as (st' & E' & _ & Hst). destruct (Hst Hs) as [Hd Hc].
  specialize (Ho s st E Hs). rewrite E' in *. cbn in Ho. injection Ho as Ho.
  rewrite Hc. unfold unread. by rewrite Ho, Hd.
Qed.

Lemma spared_own req D io :
  D ⊆ dom (streams io) → own_body req D → D ⊆ spared (req_Body req) io.
Proof.
  intros HD Ho. unfold spared, own_body in *. destruct (req_Body req ≫= closes) as [s|]; [|done].
  specialize (Ho s eq_refl). set_solver.
Qed.

Lemma call_spec rt req D io w :
  RoundTripper_ok rt → D ⊆ dom (streams io) → own_body req D →
  wp (call rt req) (λ r io' w', ∃ ex, ex_resp ex = r.1 ∧ ex_err ex = r.2 ∧
    exchanged rt req D io w ex io' w') io w.
Proof.
  intros Hrt HD Ho. unfold call. wp_simpl. eapply wp_mono; [apply wp_returns, Hrt|].
  intros [resp err] io1 w1 (Es & (Hf & Ht & Hl) & Hw & Hnew & Hun). wp_simpl. cbn [fst snd] in *.
  match goal with |- context [EvServe ?e] => exists e end. split; [done|]. split; [done|].
  assert (io_frame D io io1) as HfD by (eapply io_frame_mono; [by apply spared_own|done]).
  split; cbn [ex_to ex_ctx ex_body ex_sent].
  - cbn. by rewrite Hl.
  - etransitivity; [exact HfD|apply frame_event].
  - done.
  - done.
  - done.
  - done.
  - done.
  - intros n Hn. by rewrite Hn.
  - by exists req, io, w, io1, w1.
  - intros r Hr. unfold outcome in Hr. cbn in Hr. destruct resp as [resp|]; [|by destruct err].
    destruct (resp_Body resp) as [b|] eqn:Eb; [|done]. cbn in Hr. injection Hr as <-.
    exists b. split; [done|]. by apply (Hnew resp).
  - intros Hs Hsent Htr s st E _. apply (Hun Hs); [|done]. intros n Hn.
    rewrite Hn in Hsent. by apply bool_decide_eq_false in Hsent.
Qed.

(** Closing the body of an attempt after a broken exchange changes nothing
    the exchange is about. *)
Lemma exchanged_fail rt req D io w ex io1 w1 e :
  exchanged rt req D io w ex io1 w1 → D ⊆ dom (streams io) → own_body req D →
  (outcome ex).1 = None →
  wp (failRoundTrip (Some req) e) (λ r io' w', r = (None, Some e) ∧
    exchanged rt req D io w ex io' w') io1 w1.
Proof.
  intros Hx HD Ho Hn. unfold failRoundTrip. wp_simpl. cbn [mbind option_bind].
  destruct (req_Body req) as [b|] eqn:Eb; wp_simpl; [|by split].
  eapply wp_mono.
  { apply (Close_quiet D). intros s Es. apply Ho. rewrite Eb. cbn. done. }
  intros [] io2 w2 (-> & (Hf & Ht & Hl) & Hs & _). wp_simpl. split; [done|].
  destruct Hx as [X1 X2 X3 X4 X5 X6 X7 X8 X11 X9 X10]. split; try done.
  - congruence.
  - by etransitivity.
  - congruence.
  - intros n En. rewrite (proj1 Hs). auto.
  - intros r Hr. congruence.
  - intros H1 H2 H3 s st E Hin. rewrite (proj2 Hs). by apply X10.
Qed.

Lemma roundTrip_spec rt req D io w :
  RoundTripper_ok rt → D ⊆ dom (streams io) → own_body req D →
  wp (roundTrip (Some rt) req) (λ r io' w', ∃ ex, r = outcome ex ∧
    exchanged rt req D io w ex io' w') io w.
Proof.
  intros Hrt HD Ho. unfold roundTrip. wp_simpl. eapply wp_mono; [by apply call_spec|].
  intros [resp err] io1 w1 (ex & Er & Ee & Hx). cbn [fst snd] in *.
  assert (∀ e, outcome ex = (None, Some e) →
    wp (failRoundTrip (Some req) e) (λ r io' w', ∃ ex, r = outcome ex ∧
      exchanged rt req D io w ex io' w') io1 w1) as Hfail.
  { intros e Hn. eapply wp_mono; [eapply exchanged_fail; try done; by rewrite Hn|].
    intros r io2 w2 [-> ?]. by exists ex. }
  unfold outcome in Hfail. rewrite Er, Ee in Hfail.
  destruct resp as [resp|]; [destruct (resp_Body resp) as [b|] eqn:Eb|destruct err as [e|]];
    try (by apply Hfail); wp_simpl; exists ex; (split; [|done]);
    unfold outcome; by rewrite Er, ?Ee, ?Eb.
Qed.
