(* ===== verification/Decisions.v ===== *)
(** * The decision after an attempt

    What decideAttempt (transport.go) answers for every outcome of an attempt:
    whether the request goes to the next peer, and how the peer is released. *)

From S2P Require Import Prelude GoLib Peer RoundRobin Picker Http Body ClientIP Balancers Config RoundTrip.
#[local] Open Scope Z_scope.

(** The gate of nginx's non_idempotent: the attempt may not be repeated. *)
Definition blocked (t : Transport) (req : Request) (sent : bool) : bool :=
  sent && isNonIdempotentMethod (Method req) && negb (retryNonIdempotent t).

(** 403 and 404 never count against a peer. *)
Definition excused (resp : option Response) : bool :=
  match resp with Some r => (StatusCode r =? 403) || (StatusCode r =? 404) | None => false end.

(** C17: the decision after an attempt that gave a response or an error. The
    request is retried exactly when the condition asks for it and the
    non-idempotent gate lets it; a violation of the RoundTripper contract
    releases the peer neutrally; otherwise a retriable outcome is a failure of
    the peer, unless it is a response that the gate blocks or with status 403
    or 404. A failure is never neutral. *)
Theorem decideAttempt_table t req resp err sent :
  is_some resp || is_some err = true →
  let d := decideAttempt t req resp err sent in
  retry d = shouldRetry t resp err && negb (blocked t req sent) ∧
  neutral d = isRoundTripperContractError err ∧
  (failed d = true ↔ shouldRetry t resp err = true ∧ neutral d = false ∧
     (is_some err = true ∨ blocked t req sent = false ∧ excused resp = false)) ∧
  failed d && neutral d = false.
Proof.
  unfold decideAttempt, blocked, excused. intros Hr. cbn zeta.
  destruct (shouldRetry t resp err); cbn [negb andb retry failed neutral].
  2:{ split_and!; try done. split; [done|by intros [? _]]. }
  set (b := sent && _ && _). set (n := isRoundTripperContractError err).
  destruct err as [e|]; cbn [is_some].
  - cbn [retry failed neutral]. destruct n, b; cbn; split_and!; try done; (split; [first [done|by auto 6]|]);
      intros (_ & ? & _); done.
  - destruct resp as [r|]; [|done]. assert (n = false) as -> by done.
    destruct ((StatusCode r =? 403) || (StatusCode r =? 404)), b; cbn [retry failed neutral negb andb]; split_and!; try done;
      (split; [first [done|by auto 6]|]); intros (_ & _ & [?|[? ?]]); done.
Qed.

(** The default condition retries a violation of the RoundTripper contract on
    the next peer, when the gate allows it. *)
Lemma contract_error_is_retried t req e sent :
  nextUpstream t = None → isRoundTripperContractError (Some e) = true →
  blocked t req sent = false →
  decideAttempt t req None (Some e) sent = MkDecision true false true.
Proof.
  unfold decideAttempt, shouldRetry, blocked. intros -> -> Hb. cbn [is_some negb]. by rewrite Hb.
Qed.

(** The codes of WithNextUpstreamCodes: errors and listed statuses. *)
Lemma shouldRetry_codes t codes resp err :
  nextUpstream t = Some (codes_condition codes) →
  shouldRetry t resp err = true ↔
    is_some err = true ∨ ∃ r, resp = Some r ∧ StatusCode r ∈ codes.
Proof.
  unfold shouldRetry, codes_condition. intros ->. destruct err; [naive_solver|].
  destruct resp as [r|]; [rewrite bool_decide_eq_true|]; naive_solver.
Qed.

(** ** A decision to try the claim on: a POST that got a listed 404 *)

Definition demo_policy : Transport :=
  MkTransport None ∅ 0 0 0 (Some (codes_condition [404; 502])) false None.
Definition demo_post : Request :=
  MkRequest "POST" None "" ∅ "" None None 0 (λ _, None) None None.

Lemma decideAttempt_table_witness :
  let resp := Some (MkResponse 404 None) in
  let d := decideAttempt demo_policy demo_post resp None true in
  d = MkDecision false false false ∧
  retry d = shouldRetry demo_policy resp None && negb (blocked demo_policy demo_post true) ∧
  neutral d = isRoundTripperContractError None ∧
  (failed d = true ↔ shouldRetry demo_policy resp None = true ∧ neutral d = false ∧
     (is_some (A := GoError) None = true ∨
      blocked demo_policy demo_post true = false ∧ excused resp = false)) ∧
  failed d && neutral d = false.
Proof.
  intros resp d. split; [reflexivity|].
  apply (decideAttempt_table demo_policy demo_post resp None true). reflexivity.
Defined.
