(* ===== verification/Attempts.v ===== *)
(** * The loop over the attempts

    The specification of one round of RoundTrip's loop, and by induction of the
    whole: which peers are tried, what is sent to them, how they are released,
    what becomes of the response bodies, and that the loop ends. *)

From S2P Require Import Prelude GoLib Peer RoundRobin Picker LeastConn IPHash Hash CHash Random Http Body ClientIP Balancers Config RoundTrip.
#[local] Open Scope Z_scope.

(** ** The results of an attempt *)

(** The outcome of the exchange, with the body that cancels the derived
    context. *)
Definition result_of (ex : Exchange) : Results :=
  match outcome ex, ex_ctx ex with
  | (Some r, None), Some c =>
      match resp_Body r with
      | Some b => (Some (set_resp_Body (CancelCloser b c) r), None)
      | None => (Some r, None)
      end
  | res, _ => res
  end.

(** What requestWasSent reports. *)
Definition was_sent (rt : RoundTripper) (ex : Exchange) : bool :=
  is_some (result_of ex).1 || ex_sent ex || (is_some (result_of ex).2 && negb (standard rt)).

Definition decision_of (t : Transport) (rt : RoundTripper) (req : Request) (ex : Exchange)
    : attemptDecision :=
  decideAttempt t req (result_of ex).1 (result_of ex).2 (was_sent rt ex).

Definition kind_of (d : attemptDecision) : release_kind :=
  if neutral d then Neutral else Reported (failed d).

(** An attempt as the log shows it. *)
Record Attempt := MkAttempt { at_peer : PeerId; at_ex : Exchange; at_kind : release_kind }.

Definition events_of (a : Attempt) : list Event :=
  [EvPick (at_peer a); EvServe (at_ex a); EvRelease (at_peer a) (at_kind a)].

(** A response the loop holds: it has a body, whose stream is not in [D]. *)
Definition resp_ok (D : gset nat) (resp : option Response) (io : IO) : Prop :=
  ∀ r, resp = Some r → ∃ b, resp_Body r = Some b ∧
    ∀ s, closes b = Some s → s ∉ D ∧ s ∈ dom (streams io).

(** The response was closed, or it is the one that is held. *)
Definition discharged (resp held : option Response) (io : IO) : Prop :=
  ∀ r b, resp = Some r → resp_Body r = Some b → disposed b io ∨ held = Some r.

(** No context derived for an attempt outlives it, except with the body that
    is held. *)
Definition ctx_discharged (ex : Exchange) (held : option Response) (io : IO) : Prop :=
  ∀ c, ex_ctx ex = Some c → c ∈ cancelled io ∨
    ∃ r b, held = Some r ∧ resp_Body r = Some (CancelCloser b c).

Lemma resp_ok_frame D D' resp io io' :
  io_frame D' io io' → resp_ok D resp io → resp_ok D resp io'.
Proof.
  intros Hf Hr r E. destruct (Hr r E) as (b & Eb & Hb). exists b. split; [done|].
  intros s Es. destruct (Hb s Es). split; [done|]. by eapply io_frame_dom.
Qed.

Lemma discharged_frame resp held D io io' :
  io_frame D io io' → discharged resp held io → discharged resp held io'.
Proof.
  intros Hf Hd r b E Eb. destruct (Hd r b E Eb); [left; by eapply disposed_frame|by right].
Qed.

Lemma ctx_discharged_frame ex held D io io' :
  io_frame D io io' → ctx_discharged ex held io → ctx_discharged ex held io'.
Proof.
  intros Hf Hd c E. destruct (Hd c E) as [Hc|?]; [left|by right].
  by apply (fr_cancelled _ _ _ Hf).
Qed.

(** Discharging what was held: it is closed, or held on. *)
Lemma discharged_trans resp held held' io :
  discharged resp held io → discharged held held' io → discharged resp held' io.
Proof. intros H1 H2 r b E Eb. destruct (H1 r b E Eb) as [|E']; [by left|by apply (H2 r b)]. Qed.

Lemma ctx_discharged_trans ex held held' io :
  ctx_discharged ex held io → discharged held held' io → ctx_discharged ex held' io.
Proof.
  intros H1 H2 c E. destruct (H1 c E) as [|(r & b & E' & Eb)]; [by left|].
  destruct (H2 r _ E' Eb) as [[_ Hc]|E2]; [left; by eapply Hc|right; eauto].
Qed.

Lemma closeLast_spec D resp io w :
  resp_ok D resp io →
  wp (closeLast resp) (λ _ io' w', w' = w ∧ quiet D io io' ∧ close_only io io' ∧
    ∀ held, discharged resp held io') io w.
Proof.
  intros Hr. unfold closeLast. destruct resp as [r|].
  - destruct (Hr r eq_refl) as (b & Eb & Hb). rewrite Eb.
    eapply wp_mono; [by apply (Close_disposes D)|]. intros [] io' w' (-> & Hq & Hc & Hd).
    split_and!; [done|done|done|]. intros held r' b' [= <-] Eb'.
    rewrite Eb in Eb'. injection Eb' as <-. by left.
  - wp_simpl. split_and!; [done|done|done|]. by intros held r b.
Qed.

(** ** The exchange of an attempt *)

Record sent_ok (rt : RoundTripper) (attemptReq : Request) (D : gset nat) (io : IO) (w : World)
    (flag : nat) (ex : Exchange) (io' : IO) (w' : World) : Prop := {
  so_log : log io' = log io ++ [EvServe ex];
  so_frame : io_frame D io io';
  so_tmp : tmp io' = tmp io;
  so_world : interference w w';
  so_to : ex_to ex = default (MkURL "" "" "") (req_URL attemptReq);
  so_body : ex_body ex = readable (req_Body attemptReq) io;
  so_served : served rt ex;
  so_sent : ex_sent ex = bool_decide (flag ∈ sent io');
  so_resp : resp_ok D (result_of ex).1 io';
  so_ctx : ctx_discharged ex (result_of ex).1 io';
  so_unread : standard rt = true → ex_sent ex = false →
    ∀ s st, streams io !! s = Some st → s ∈ D → off <$> streams io' !! s = Some (off st);
}.

Lemma result_of_outcome ex :
  (result_of ex).2 = (outcome ex).2 ∧
  ∀ r, (result_of ex).1 = Some r → ∃ r0, (outcome ex).1 = Some r0 ∧
    resp_Body r ≫= closes = resp_Body r0 ≫= closes ∧ is_some (resp_Body r) = is_some (resp_Body r0).
Proof.
  unfold result_of. destruct (outcome ex) as [[r|] [e|]], (ex_ctx ex) as [c|]; cbn; split; try done;
    try (intros r' [= <-]; by exists r).
  - destruct (resp_Body r) eqn:Eb; done.
  - intros r' Hr. destruct (resp_Body r) as [b|] eqn:Eb; injection Hr as <-; exists r;
      (split; [done|]); by rewrite Eb.
Qed.

(** An exchange yields a response or an error. *)
Lemma result_of_some ex : (result_of ex).1 = None → (result_of ex).2 ≠ None.
Proof.
  unfold result_of, outcome.
  destruct (ex_resp ex) as [r|], (ex_err ex), (ex_ctx ex); cbn; try done;
    destruct (resp_Body r) eqn:Eb; cbn; rewrite ?Eb; done.
Qed.

Lemma resp_ok_result D ex io io' :
  D ⊆ dom (streams io) → fresh_response (outcome ex).1 io io' →
  resp_ok D (result_of ex).1 io'.
Proof.
  intros HD Hf r Hr. destruct (proj2 (result_of_outcome ex) r Hr) as (r0 & E0 & Ec & Ei).
  destruct (Hf r0 E0) as (b0 & Eb0 & Hnew). rewrite Eb0 in Ec, Ei.
  destruct (resp_Body r) as [b|]; [|done]. exists b. split; [done|]. intros s Es.
  cbn in Ec. rewrite Ec in Es. destruct (Hnew s Es) as (Hn & st & E & _).
  split; [set_solver|]. apply elem_of_dom. by eexists.
Qed.

Lemma settle_timeout_spec D ex io w :
  (∀ r, (outcome ex).1 = Some r → is_some (resp_Body r) = true) →
  wp (settle_timeout (ex_ctx ex) (outcome ex).1 (outcome ex).2)
    (λ resp io' w', w' = w ∧ resp = (result_of ex).1 ∧ quiet D io io' ∧ close_only io io' ∧
      ctx_discharged ex resp io') io w.
Proof.
  intros Hb. unfold settle_timeout, result_of, ctx_discharged.
  assert ((outcome ex).1 = None → (outcome ex).2 ≠ None) as Hn.
  { unfold outcome. destruct (ex_resp ex) as [r|], (ex_err ex); try done; by destruct (resp_Body r). }
  destruct (outcome ex) as [resp err], (ex_ctx ex) as [c|]; cbn [fst snd] in *.
  - destruct err as [e|].
    + wp_simpl. assert (c ∈ cancelled (add_cancelled c io)) by (cbn; set_solver).
      split_and!; [done|by destruct resp|apply frame_cancel|done|]. intros c' [= <-]. by left.
    + destruct resp as [r|]; [|by destruct Hn]. specialize (Hb r eq_refl).
      destruct (resp_Body r) as [b|] eqn:Eb; [|done]. wp_simpl. split_and!; [done..|].
      intros c' [= <-]. right. exists (set_resp_Body (CancelCloser b c) r), b. done.
  - wp_simpl. split_and!; [done| |done..]. by destruct resp, err.
Qed.

Lemma send_spec timeout rt req D io w :
  RoundTripper_ok rt → D ⊆ dom (streams io) → own_body req D → attempt_ctx req = None →
  wp (send timeout (Some rt) req) (λ r io' w', ∃ ex, r.2 = result_of ex ∧
    Method r.1.2 = Method req ∧ sent_ok rt req D io w r.1.1 ex io' w') io w.
Proof.
  intros Hrt HD Ho Hctx. unfold send. wp_simpl.
  assert (∃ req1 c io1, attach_timeout timeout req io w = Ret ((req1, c), io1, w) ∧
    quiet (dom (streams io)) io io1 ∧ streams io1 = streams io ∧ req_Body req1 = req_Body req ∧
    req_URL req1 = req_URL req ∧ Method req1 = Method req ∧ fst <$> attempt_ctx req1 = c)
    as (req1 & c & io1 & E & Hq1 & Es1 & Eb & Eu & Em & Ec).
  { unfold attach_timeout. destruct (0 <? timeout).
    - do 3 eexists. split; [done|]. by split_and!; [apply frame_new_ctx|..].
    - do 3 eexists. split; [done|]. split_and!; [by split_and!|done..|]. by rewrite Hctx. }
  apply (wp_eq _ _ _ _ _ _ _ E). cbn [fst snd]. clear E. wp_simpl.
  apply (wp_eq (traceRequestSent req1) _ io1 w _ _ _ eq_refl). cbn [fst snd]. wp_simpl.
  set (flag := ctxs io1). set (req2 := set_trace flag req1). set (io2 := new_ctx io1).
  assert (quiet (dom (streams io)) io io2) as Hq2
    by (etransitivity; [exact Hq1|apply frame_new_ctx]).
  assert (streams io2 = streams io) as Es2 by done.
  assert (req_Body req2 = req_Body req) as Eb2 by done.
  eapply wp_mono.
  { apply (roundTrip_spec rt req2 D); [done|by rewrite Es2|].
    unfold own_body. by rewrite Eb2. }
  intros r io3 w3 (ex & -> & [X1 X2 X3 X4 X5 X6 X7 X8 X11 X9 X10]).
  replace c with (ex_ctx ex) by (rewrite X6; exact Ec). wp_simpl.
  eapply wp_mono.
  { apply (settle_timeout_spec D). intros r Hr. destruct (X9 r Hr) as (b & -> & _). done. }
  intros resp io4 w4 (-> & -> & Hq4 & [Hs4 Ho4] & Hc4). wp_simpl. exists ex.
  rewrite (surjective_pairing (result_of ex)), (proj1 (result_of_outcome ex)).
  split; [done|]. split; [done|].
  assert (io_frame D io io2) as Hf2 by (by eapply io_frame_mono, Hq2).
  split; cbn [fst snd]; try done.
  - rewrite (proj2 (proj2 Hq4)), X1. f_equal. apply Hq2.
  - etransitivity; [exact Hf2|]. etransitivity; [exact X2|apply Hq4].
  - rewrite (proj1 (proj2 Hq4)), X3. apply Hq2.
  - by rewrite X5, <-Eu.
  - rewrite X7, Eb2. unfold readable. by rewrite Es2.
  - rewrite Hs4. by apply X8.
  - eapply resp_ok_frame; [apply Hq4|]. eapply resp_ok_result; [|done]. by rewrite Es2.
  - intros H1 H2 s st E Hin. rewrite Ho4. by apply X10; [..|rewrite Es2|].
Qed.

(** ** The release after an attempt *)

Lemma decideAttempt_method t r1 r2 resp err sent :
  Method r1 = Method r2 → decideAttempt t r1 resp err sent = decideAttempt t r2 resp err sent.
Proof. unfold decideAttempt. by intros ->. Qed.

Lemma requestWasSent_eq rt flag ex io :
  ex_sent ex = bool_decide (flag ∈ sent io) →
  requestWasSent (Some rt) flag (result_of ex).1 (result_of ex).2 io = was_sent rt ex.
Proof.
  intros E. unfold requestWasSent, was_sent. rewrite <-E.
  by destruct (result_of ex) as [[?|] [?|]], (ex_sent ex), (standard rt).
Qed.

Lemma wp_on_picker {P A} (m : M P A) pk Q io w :
  wp (on_picker m pk) Q io w ↔ wp m (λ a pk' w', Q (a, pk') io w') pk w.
Proof. unfold wp, on_picker. by destruct (m pk w) as [[[? ?] ?]|]. Qed.

Section attempts.
Context {P : Type} `{PickerLaws P}.
Implicit Types (pk : P).

(** What a release leaves of the picker. *)
Record released_ok pk w pk' w' : Prop := {
  ro_world : interference w w';
  ro_wf : picker_wf pk' (heap w');
  ro_groups : same_groups (rrp pk) (rrp pk');
  ro_phase : backupPhase (rrp pk') = backupPhase (rrp pk);
  ro_tried : tried (rrp pk') = tried (rrp pk);
}.

Lemma release_post_ok x pk w pk' w' :
  release_post x pk w pk' w' ∧ picker_wf pk' (heap w') → released_ok pk w pk' w'.
Proof.
  intros [(? & ? & ? & ? & Hr & Hok) ?]. split; try done.
  split; [done|]. by eapply hsame_released.
Qed.

Lemma done_spec pk x failed io w :
  picker_wf pk (heap w) →
  wp (done pk x failed) (λ pk' io' w', io' = add_event (EvRelease x (Reported failed)) io ∧
    released_ok pk w pk' w') io w.
Proof.
  intros Hwf. unfold done. wp_simpl. rewrite wp_on_picker.
  eapply wp_mono; [by apply release_law|]. intros [] pk' w' Hr. wp_simpl. split; [done|].
  by eapply release_post_ok.
Qed.

Lemma doneNeutral_spec pk x io w :
  picker_wf pk (heap w) →
  wp (doneNeutral pk x) (λ pk' io' w', io' = add_event (EvRelease x Neutral) io ∧
    released_ok pk w pk' w') io w.
Proof.
  intros Hwf. unfold doneNeutral. wp_simpl. rewrite wp_on_picker.
  eapply wp_mono; [by apply release_neutral_law|]. intros [] pk' w' Hr. wp_simpl.
  split; [done|]. by eapply release_post_ok.
Qed.

(** The peer is released with the decision, or neutrally when the caller's
    context is done. *)
Inductive concluded (t : Transport) (rt : RoundTripper) (req : Request) (pk : P) (w : World)
    (ex : Exchange) (w' : World) : release_kind → loop_state P + Results → Prop :=
  | concluded_cancelled e :
      is_some (result_of ex).2 = true → (∃ i, ctx_results req i = Some e) →
      concluded t rt req pk w ex w' Neutral (inr (None, Some e))
  | concluded_return :
      retry (decision_of t rt req ex) = false →
      concluded t rt req pk w ex w' (kind_of (decision_of t rt req ex)) (inr (result_of ex))
  | concluded_retry pk' :
      retry (decision_of t rt req ex) = true → released_ok pk w pk' w' →
      concluded t rt req pk w ex w' (kind_of (decision_of t rt req ex))
        (inl (MkLoop pk' (result_of ex).1 (result_of ex).2)).

(** The response a result holds. *)
Definition held (r : loop_state P + Results) : option Response :=
  match r with inl s => lastResp s | inr res => res.1 end.

Definition ctx_monotone (req : Request) : Prop :=
  ∀ i j e, (i ≤ j)%nat → ctx_results req i = Some e → ctx_results req j = Some e.

(** What concluding an attempt does, whatever the branch. *)
Definition conclude_post t rt req pk x ex D io w (r : loop_state P + Results) io' w' : Prop :=
  ∃ kind, concluded t rt req pk w ex w' kind r ∧ log io' = log io ++ [EvRelease x kind] ∧
    io_frame D io io' ∧ tmp io' = tmp io ∧ interference w w' ∧
    discharged (result_of ex).1 (held r) io' ∧
    ∀ s, off <$> streams io' !! s = off <$> streams io !! s.

Lemma conclude_post_released t rt req pk x ex D io io1 w pk' w' :
  quiet D io io1 → streams io1 = streams io → released_ok pk w pk' w' →
  wp (if negb (retry (decision_of t rt req ex)) then mret (inr (result_of ex))
      else mret (inl (MkLoop pk' (result_of ex).1 (result_of ex).2)))
    (conclude_post t rt req pk x ex D io w)
    (add_event (EvRelease x (kind_of (decision_of t rt req ex))) io1) w'.
Proof.
  intros (Hf & Ht & Hl) Hs Hro.
  destruct (retry (decision_of t rt req ex)) eqn:Er; wp_simpl;
    exists (kind_of (decision_of t rt req ex)); (split; [by constructor|]);
    (split_and!; [cbn; by rewrite Hl| |done|apply Hro|by right|cbn; by rewrite Hs]);
    (etransitivity; [exact Hf|apply frame_event]).
Qed.

Lemma conclude_spec t rt req attemptReq flag pk x ex D io w :
  picker_wf pk (heap w) → Method attemptReq = Method req → ctx_monotone req →
  ex_sent ex = bool_decide (flag ∈ sent io) → resp_ok D (result_of ex).1 io →
  wp (conclude t req attemptReq (Some rt) flag pk x (result_of ex).1 (result_of ex).2)
    (conclude_post t rt req pk x ex D io w) io w.
Proof.
  intros Hwf Hm Hmono Hsent Hresp. unfold conclude. rewrite <-surjective_pairing.
  assert (∀ io1, quiet D io io1 → streams io1 = streams io → sent io1 = sent io →
    wp (io ← self;
        let decision := decideAttempt t attemptReq (result_of ex).1 (result_of ex).2
          (requestWasSent (Some rt) flag (result_of ex).1 (result_of ex).2 io) in
        pk ← (if neutral decision then doneNeutral pk x else done pk x (failed decision));
        if negb (retry decision) then mret (inr (result_of ex))
        else mret (inl (MkLoop pk (result_of ex).1 (result_of ex).2)))
      (conclude_post t rt req pk x ex D io w) io1 w) as Hdecide.
  { intros io1 Hq Hs1 Hse. wp_simpl. rewrite requestWasSent_eq by (by rewrite Hse).
    rewrite (decideAttempt_method t _ req) by done. fold (decision_of t rt req ex).
    pose proof (λ pk' w', conclude_post_released t rt req pk x ex D io io1 w pk' w' Hq Hs1) as Hend.
    unfold kind_of in Hend. destruct (neutral (decision_of t rt req ex)).
    - eapply wp_mono; [by apply doneNeutral_spec|]. intros pk' io2 w2 [-> Hro]. by apply Hend.
    - eapply wp_mono; [by apply done_spec|]. intros pk' io2 w2 [-> Hro]. by apply Hend. }
  rewrite wp_bind. destruct (is_some (result_of ex).2) eqn:Eerr; [|by apply (Hdecide io)].
  rewrite wp_ctx_Err. destruct (ctx_results req (polls io)) as [e|] eqn:Ectx.
  2:{ by apply (Hdecide (count_poll io)); [apply frame_count_poll|..]. }
  wp_simpl. eapply wp_mono; [by apply doneNeutral_spec|]. intros pk' io1 w1 [-> Hro]. wp_simpl.
  set (io1 := add_event _ _). assert (resp_ok D (result_of ex).1 io1) as Hresp1 by done.
  eapply wp_mono; [by apply (closeLast_spec D)|].
  intros [] io2 w2 (-> & Hq2 & [_ Ho2] & Hd). wp_simpl.
  assert (io_frame D (count_poll io) io2) as Hf
    by (etransitivity; [apply frame_event|apply Hq2]).
  rewrite (Hmono (polls io) (polls io2) e); [|pose proof (fr_polls _ _ _ Hf); cbn in *; lia|done].
  exists Neutral. split_and!.
  - apply concluded_cancelled; [done|by eexists].
  - cbn. by rewrite (proj2 (proj2 Hq2)).
  - etransitivity; [apply frame_count_poll|]. etransitivity; [exact Hf|apply frame_count_poll].
  - cbn. by rewrite (proj1 (proj2 Hq2)).
  - apply Hro.
  - eapply discharged_frame; [apply (frame_count_poll D)|]. apply Hd.
  - intros s. cbn. by rewrite Ho2.
Qed.

(** ** The selection before an attempt *)

Definition members pk : list PeerId := Peers (primary (rrp pk)) ++ backup_members (rrp pk).

Record picked pk w (x : PeerId) pk' w' : Prop := {
  pi_world : interference w w';
  pi_wf : picker_wf pk' (heap w');
  pi_phase : phase_ok (rrp pk) → phase_ok (rrp pk');
  pi_members : members pk' = members pk;
  pi_in : x ∈ members pk;
  pi_untried : phase_ok (rrp pk) → x ∉ tried (rrp pk) ∧ tried (rrp pk') = {[x]} ∪ tried (rrp pk);
  pi_up : Down (heap w !!! x) = false;
  pi_less : (remaining (rrp pk') < remaining (rrp pk))%nat;
  pi_groups : same_groups (rrp pk) (rrp pk');
  pi_pick : pick pk w = Ret (Some x, pk', w');
  pi_exact : pick_exact (rrp pk) w (Some x) (rrp pk') w';
}.

Lemma same_groups_members pk pk' : same_groups (rrp pk) (rrp pk') → members pk' = members pk.
Proof. unfold members, backup_members. by intros [-> ->]. Qed.

Lemma pick_spec pk w :
  picker_wf pk (heap w) →
  wp pick (λ r pk' w', interference w w' ∧ match r with
    | Some x => picked pk w x pk' w'
    | None => pick pk w = Ret (None, pk', w') ∧ pick_exact (rrp pk) w None (rrp pk') w'
    end) pk w.
Proof.
  intros Hwf. pose proof (picker_wf_rr _ _ Hwf) as Hrwf.
  eapply wp_mono; [by apply wp_returns, pick_law|]. intros r pk' w' (E & Hpost & Hex & Hwf').
  assert (interference w w') as Hw by (split; [apply Hpost|by eapply pick_post_hsame]).
  split; [done|]. destruct r as [x|]; [|done]. split; try done.
  - intros Hph. by eapply phase_ok_pick.
  - apply same_groups_members, Hpost.
  - destruct Hpost as [_ _ _ ([Hx|[_ Hx]] & _)]; unfold members; apply elem_of_app; auto.
  - intros Hph. destruct Hpost as [_ _ _ (_ & Hn & Ht & _)].
    by rewrite (phase_ok_base _ _ Hph) in Hn, Ht.
  - by destruct Hpost as [_ _ _ (_ & _ & _ & _ & _ & Hd & _)].
  - by eapply remaining_some.
  - apply Hpost.
Qed.

(** ** One round *)

Section round.
Context (t : Transport) (ups : upstream) (key : upstreamKey) (req baseReq : Request).
Context (getBody : option GetBodyFn) (rt : RoundTripper) (C : list Z) (D : gset nat).

(** What the attempts of a request share: the RoundTripper, the body function
    and the streams [D] that are not theirs to close. *)
Record loop_env : Prop := {
  le_rt : match ups_transport ups with Some r => Some r | None => transport t end = Some rt;
  le_rt_ok : RoundTripper_ok rt;
  le_getBody : ∀ g, getBody = Some g → GetBody_ok g ∧ needs g ⊆ D;
  le_stream : getBody = None → req_Body baseReq ≫= closes = None ∧
    ∀ s, req_Body baseReq ≫= reads_from = Some s → s ∈ D;
  le_method : Method baseReq = Method req;
  le_ctx : ctx_monotone req;
  le_attempt_ctx : attempt_ctx baseReq = None;
}.

Definition gated : bool :=
  isNonIdempotentMethod (Method req) && negb (retryNonIdempotent t).

(** No usable peer is left untried; at most one peer is usable. *)
Definition spent pk (h : Heap) : Prop :=
  ∀ x, x ∈ members pk → Down (h !!! x) = false → x ∈ tried (rrp pk).
Definition lone pk (h : Heap) : Prop :=
  ∀ x y, x ∈ members pk → y ∈ members pk →
    Down (h !!! x) = false → Down (h !!! y) = false → x = y.

(** The body is there for the next attempt, if there can be one. *)
Definition body_inv pk (io : IO) (w : World) : Prop :=
  match getBody with
  | Some g => replays g C io
  | None => (readable (req_Body baseReq) io = Some C ∨ spent pk (heap w)) ∧
            (req_Body baseReq = None ∧ C = [] ∨ gated = true ∨ lone pk (heap w))
  end.

Record loop_inv (s : loop_state P) (io : IO) (w : World) : Prop := {
  li_wf : picker_wf (lp_pk s) (heap w);
  li_phase : phase_ok (rrp (lp_pk s));
  li_dom : D ⊆ dom (streams io);
  li_body : body_inv (lp_pk s) io w;
  li_last : resp_ok D (lastResp s) io;
}.

Definition from_user : bool :=
  match getBody with Some g => user_function g | None => false end.

Record attempt_ok (a : Attempt) : Prop := {
  ao_to : ∃ addr, backends ups !! at_peer a = Some addr ∧
    ∀ u, req_URL baseReq = Some u →
      ex_to (at_ex a) = MkURL (addr_scheme addr) (addr_host addr) (URL_rest u);
  ao_body : from_user = false → ex_body (at_ex a) = Some C;
  ao_served : served rt (at_ex a);
}.

Lemma interference_Down w w' x : interference w w' → Down (heap w' !!! x) = Down (heap w !!! x).
Proof. intros [_ [Hs _]]. apply (static_fields _ _ (Hs x)). Qed.

Lemma lone_mono pk pk' w w' :
  interference w w' → members pk' = members pk → lone pk (heap w) → lone pk' (heap w').
Proof.
  intros Hw Hm Hl x y.
  rewrite Hm, (interference_Down w w' x Hw), (interference_Down w w' y Hw). apply Hl.
Qed.

(** *** The body of an attempt *)

(** There is a body function, and it may fail. *)
Definition body_fails (io : IO) : Prop := ∃ g, getBody = Some g ∧ may_fail g io.

Lemma body_fails_frame io io' : io_frame D io io' → body_fails io' → body_fails io.
Proof. intros Hf (g & Eg & Hg). exists g. split; [done|by eapply may_fail_frame]. Qed.

Lemma body_fails_some io : body_fails io → is_some getBody = true.
Proof. by intros (g & -> & _). Qed.

Definition attached (req1 : Request) (io : IO) (w : World) (r : GoError + Request) (io' : IO)
    (w' : World) : Prop :=
  quiet D io io' ∧ interference w w' ∧
  match r with
  | inl _ => body_fails io
  | inr req2 =>
      own_body req2 D ∧ req_URL req2 = req_URL req1 ∧ Method req2 = Method req1 ∧
      attempt_ctx req2 = attempt_ctx req1 ∧
      (from_user = false → readable (req_Body req2) io' = Some C) ∧
      (getBody = None → req_Body req2 = req_Body req1 ∧ io' = io)
  end.

Lemma attach_body_spec req1 pk io w :
  loop_env → D ⊆ dom (streams io) → body_inv pk io w → ¬ spent pk (heap w) →
  req_Body req1 = req_Body baseReq →
  wp (attach_body getBody req1) (attached req1 io w) io w.
Proof.
  intros He HD Hb Hsp Eb. unfold attach_body, attached, body_inv, from_user, body_fails in *.
  destruct getBody as [g|] eqn:Eg.
  - destruct (le_getBody He g Eg) as [Hok Hn]. wp_simpl. destruct g as [f|r].
    + eapply wp_mono; [by apply wp_returns, Hok|]. intros [e|b] io' w' (E & Hq & Hw & Hr); wp_simpl;
        (split; [by eapply quiet_mono|split; [done|]]); [exists (UserGetBody f); cbn; eauto 7|].
      split_and!; try done. intros s Es. destruct (Hr s Es) as [? _]. set_solver.
    + eapply wp_mono; [by apply (call_GetBody_replays _ C)|].
      intros [e|b] io' w' (-> & Hq & Hr); wp_simpl;
        (split; [by eapply quiet_mono|split; [done|]]); [by eexists|].
      destruct Hr as [Hr Hc]. split_and!; try done. intros s Es. cbn in Es. congruence.
  - wp_simpl. split; [done|]. split; [done|]. destruct Hb as [[Hb|?] _]; [|done].
    destruct (le_stream He Eg) as [Hc _]. rewrite Eb. split_and!; try done.
    intros s Es. rewrite Eb in Es. congruence.
Qed.

(** *** The exchange and the release *)

Definition attempt_code (x : PeerId) (addr : backendAddr) pk : T (loop_state P + Results) :=
  body ← attach_body getBody (rewrite_request baseReq (key_host key) addr);
  match body with
  | inl e => doneNeutral pk x;; mret (inr (None, Some e))
  | inr attemptReq =>
      let rt := match ups_transport ups with Some rt => Some rt | None => transport t end in
      sent ← send (timeout t) rt attemptReq;
      let '(flag, attemptReq, (resp, err)) := sent in
      conclude t req attemptReq rt flag pk x resp err
  end.

(** The attempt was made: its exchange, its release, and what is left for the
    next one. *)
Record attempted (x : PeerId) pk (io : IO) (w : World) (ex : Exchange) (kind : release_kind)
    (r : loop_state P + Results) (io' : IO) (w' : World) : Prop := {
  ad_log : log io' = log io ++ [EvServe ex; EvRelease x kind];
  ad_ok : attempt_ok (MkAttempt x ex kind);
  ad_concluded : ∃ w1, interference w w1 ∧ concluded t rt req pk w1 ex w' kind r;
  ad_resp : discharged (result_of ex).1 (held r) io';
  ad_ctx : ctx_discharged ex (held r) io';
  ad_last : resp_ok D (result_of ex).1 io';
  ad_replay : ∀ g, getBody = Some g → replays g C io';
  ad_unread : getBody = None → was_sent rt ex = false → readable (req_Body baseReq) io' = Some C;
}.

Definition attempt_post (x : PeerId) pk (io : IO) (w : World) (r : loop_state P + Results)
    (io' : IO) (w' : World) : Prop :=
  io_frame D io io' ∧ tmp io' = tmp io ∧ interference w w' ∧
  ((∃ e, r = inr (None, Some e) ∧ log io' = log io ++ [EvRelease x Neutral] ∧
      body_fails io) ∨
   ∃ ex kind, attempted x pk io w ex kind r io' w').

Lemma was_sent_false ex :
  was_sent rt ex = false → standard rt = true ∧ ex_sent ex = false.
Proof.
  unfold was_sent. intros [[E1 E2]%orb_false_iff E3]%orb_false_iff. split; [|done].
  assert ((result_of ex).1 = None) as H1 by (by destruct (result_of ex).1).
  destruct (result_of ex).2 eqn:H2; [|by destruct (result_of_some ex H1)].
  cbn in E3. by apply negb_false_iff in E3.
Qed.

Lemma rewrite_request_fields host addr :
  let r := rewrite_request baseReq host addr in
  req_Body r = req_Body baseReq ∧ Method r = Method baseReq ∧
  attempt_ctx r = attempt_ctx baseReq ∧
  ∀ u, req_URL baseReq = Some u →
    req_URL r = Some (MkURL (addr_scheme addr) (addr_host addr) (URL_rest u)).
Proof.
  unfold rewrite_request. cbn. destruct (Host baseReq =? "")%string; cbn; split_and!; try done;
    by intros u ->.
Qed.

(** The attempt from its parts: the body, the exchange, the conclusion. *)
Lemma attempt_concluded x addr pk0 pk req1 req2 io w io1 w1 flag ex io2 w2 r io3 w3 :
  loop_env → backends ups !! x = Some addr → body_inv pk0 io w →
  req_Body req1 = req_Body baseReq →
  (∀ u, req_URL baseReq = Some u →
     req_URL req1 = Some (MkURL (addr_scheme addr) (addr_host addr) (URL_rest u))) →
  attached req1 io w (inr req2) io1 w1 → sent_ok rt req2 D io1 w1 flag ex io2 w2 →
  conclude_post t rt req pk x ex D io2 w2 r io3 w3 → attempt_post x pk io w r io3 w3.
Proof.
  intros He Haddr Hb Eb Eu ((Hf1 & Ht1 & Hl1) & Hw1 & _ & Eu2 & _ & _ & Hread & Hsame)
    [S1 S2 S3 S4 S5 S6 S11 S7 S8 S9 S10] (kind & Hc & Hl3 & Hf3 & Ht3 & Hw3 & Hd3 & Ho3).
  assert (io_frame D io1 io3) as Hf13 by (etransitivity; [exact S2|exact Hf3]).
  assert (io_frame D io io3) as Hf by (etransitivity; [exact Hf1|exact Hf13]).
  split; [exact Hf|]. split; [congruence|].
  split; [etransitivity; [exact Hw1|]; by etransitivity|].
  right. exists ex, kind. split; try done.
  - by rewrite Hl3, S1, Hl1, <-app_assoc.
  - split; cbn [at_peer at_ex].
    + exists addr. split; [done|]. intros u Hu. by rewrite S5, Eu2, (Eu u Hu).
    + intros Hu. rewrite S6. by apply Hread.
    + done.
  - exists w2. split; [by etransitivity|done].
  - exact (ctx_discharged_trans _ _ _ _ (ctx_discharged_frame _ _ _ _ _ Hf3 S9) Hd3).
  - exact (resp_ok_frame _ _ _ _ _ Hf3 S8).
  - intros g Eg. unfold body_inv in Hb. rewrite Eg in Hb.
    eapply replays_frame; [exact Hf|by apply (le_getBody He)|done].
  - intros Eg Hs. destruct (Hsame Eg) as [Eb2 ->]. destruct (was_sent_false ex Hs) as [Hstd Hns].
    assert (readable (req_Body req2) io = Some C) as HC by (apply Hread; unfold from_user; by rewrite Eg).
    rewrite Eb2, Eb in HC. destruct (req_Body baseReq) as [b|] eqn:Ebb; [|done].
    eapply (readable_frame b C D); [exact Hf13| | |exact HC].
    + intros s Es. apply (proj2 (le_stream He Eg)). by rewrite Ebb.
    + intros s st E Hin. rewrite Ho3. by apply S10.
Qed.

Lemma attempt_code_spec x addr pk0 pk io w :
  loop_env → backends ups !! x = Some addr → D ⊆ dom (streams io) →
  body_inv pk0 io w → ¬ spent pk0 (heap w) → picker_wf pk (heap w) →
  wp (attempt_code x addr pk) (attempt_post x pk io w) io w.
Proof.
  intros He Haddr HD Hb Hsp Hwf. unfold attempt_code.
  destruct (rewrite_request_fields (key_host key) addr) as (Eb & Em & Ec & Eu).
  set (req1 := rewrite_request _ _ _) in *. clearbody req1. rewrite wp_bind.
  eapply wp_mono; [by apply (attach_body_spec req1 pk0)|].
  intros [e|req2] io1 w1 Hatt; cbn beta iota.
  { destruct Hatt as ((Hf & Ht & Hl) & Hw1 & Hget).
    wp_simpl. eapply wp_mono; [apply doneNeutral_spec; by eapply picker_wf_mono, Hwf; apply Hw1|].
    intros pk' io2 w2 [-> Hro]. wp_simpl. split_and!.
    - etransitivity; [exact Hf|apply frame_event].
    - done.
    - etransitivity; [exact Hw1|apply Hro].
    - left. exists e. split; [done|]. split; [cbn; by rewrite Hl|done]. }
  pose proof Hatt as ((Hf1 & _ & _) & Hw1 & Hown & _ & Em2 & Ec2 & _).
  rewrite (le_rt He), wp_bind. eapply wp_mono.
  { apply (send_spec _ rt _ D); try done; [apply He| |by rewrite Ec2, Ec, (le_attempt_ctx He)].
    etransitivity; [exact HD|by eapply io_frame_dom]. }
  intros [[flag req3] [resp err]] io2 w2 (ex & Er & Em3 & Hsent). cbn [fst snd] in *. cbn beta iota.
  replace resp with (result_of ex).1 by (by rewrite <-Er).
  replace err with (result_of ex).2 by (by rewrite <-Er).
  eapply wp_mono.
  { apply (conclude_spec t rt req req3 flag pk x ex D); [|..|apply He|apply Hsent|apply Hsent].
    - eapply picker_wf_mono, picker_wf_mono, Hwf; [apply (so_world _ _ _ _ _ _ _ _ _ Hsent)|apply Hw1].
    - by rewrite Em3, Em2, Em, (le_method He). }
  intros r io3 w3 Hc. by eapply attempt_concluded.
Qed.

(** *** The round *)

Definition picks (evs : list Event) : list PeerId :=
  omap (λ e, match e with EvPick x => Some x | _ => None end) evs.

Inductive round_shape (s : loop_state P) : list Event → loop_state P + Results → Prop :=
  | rs_stopped e i : ctx_results req i = Some e → round_shape s [] (inr (None, Some e))
  | rs_last :
      is_some (lastResp s) || is_some (lastErr s) = true →
      round_shape s [] (inr (lastResp s, lastErr s))
  | rs_none :
      lastResp s = None → lastErr s = None →
      round_shape s [] (inr (None, Some (Retry ErrNoPeerAvailable)))
  | rs_abort x e :
      backends ups !! x = None ∨ is_some getBody = true →
      round_shape s [EvPick x; EvRelease x Neutral] (inr (None, Some e))
  | rs_attempt a pk w w' r :
      attempt_ok a → concluded t rt req pk w (at_ex a) w' (at_kind a) r →
      round_shape s (events_of a) r.

(** What the loop returns when there is no peer to select. *)
Definition given_up (s : loop_state P) : Results :=
  if is_some (lastResp s) || is_some (lastErr s) then (lastResp s, lastErr s)
  else (None, Some (Retry ErrNoPeerAvailable)).

(** The selection of a round: none when the caller's context is done, else one
    [Pick] in the world in which the round begins. *)
Definition round_selects (s : loop_state P) (w : World) (evs : list Event)
    (r : loop_state P + Results) : Prop :=
  (picks evs = [] ∧ ∃ i e, ctx_results req i = Some e ∧ r = inr (None, Some e)) ∨
  ∃ sel pk1 w1, pick (lp_pk s) w = Ret (sel, pk1, w1) ∧
    pick_exact (rrp (lp_pk s)) w sel (rrp pk1) w1 ∧ picks evs = option_list sel ∧
    match sel with
    | None => r = inr (given_up s)
    | Some x => ∀ s', r = inl s' → same_groups (rrp (lp_pk s)) (rrp (lp_pk s')) ∧
        backupPhase (rrp (lp_pk s')) = backupPhase (rrp pk1)
    end.

Record round_post (s : loop_state P) (io : IO) (w : World) (evs : list Event)
    (r : loop_state P + Results) (io' : IO) (w' : World) : Prop := {
  rp_shape : round_shape s evs r;
  rp_selects : round_selects s w evs r;
  rp_unused : ∀ x, evs = [EvPick x; EvRelease x Neutral] → backends ups !! x = None ∨ body_fails io;
  rp_log : log io' = log io ++ evs;
  rp_frame : io_frame D io io';
  rp_tmp : tmp io' = tmp io;
  rp_world : interference w w';
  rp_picks : ∀ x, x ∈ picks evs → x ∈ members (lp_pk s) ∧ x ∉ tried (rrp (lp_pk s)) ∧
    Down (heap w !!! x) = false;
  rp_last : discharged (lastResp s) (held r) io';
  rp_served : ∀ ex, EvServe ex ∈ evs →
    discharged (result_of ex).1 (held r) io' ∧ ctx_discharged ex (held r) io';
  rp_next : ∀ s', r = inl s' → loop_inv s' io' w' ∧ members (lp_pk s') = members (lp_pk s) ∧
    (∃ x, picks evs = [x] ∧ tried (rrp (lp_pk s')) = {[x]} ∪ tried (rrp (lp_pk s))) ∧
    (remaining (rrp (lp_pk s')) < remaining (rrp (lp_pk s)))%nat;
}.

(** The decision of a gated request that was sent is final. *)
Lemma gated_sent ex :
  gated = true → was_sent rt ex = true → retry (decision_of t rt req ex) = false.
Proof.
  intros Hg Hs. unfold decision_of, decideAttempt. rewrite Hs. destruct (negb _); [done|].
  unfold gated in Hg. cbn [andb]. rewrite Hg. cbn [negb].
  by destruct (result_of ex).2, (result_of ex).1; cbn [negb]; repeat case_match.
Qed.

(** What an attempt that is to be retried leaves of the picker. *)
Record next_ok pk w x pk' w' : Prop := {
  nx_world : interference w w';
  nx_wf : picker_wf pk' (heap w');
  nx_phase : phase_ok (rrp pk');
  nx_members : members pk' = members pk;
  nx_tried : tried (rrp pk') = {[x]} ∪ tried (rrp pk);
  nx_less : (remaining (rrp pk') < remaining (rrp pk))%nat;
  nx_in : x ∈ members pk;
  nx_up : Down (heap w !!! x) = false;
}.

Lemma released_next pk w x pk1 w1 w2 pk' w' :
  phase_ok (rrp pk) → picked pk w x pk1 w1 → interference w1 w2 → released_ok pk1 w2 pk' w' →
  next_ok pk w x pk' w'.
Proof.
  intros Hph [Hw Hwf Hphi Hm Hin Hun Hup Hless] Hw12 Hro.
  destruct (Hun Hph) as [_ Ht]. specialize (Hphi Hph).
  destruct Hro as [Hw2 Hwf' Hg Hbp Ht']. split; try done.
  - do 2 (etransitivity; [eassumption|]). done.
  - destruct Hg as [_ Hbk]. unfold phase_ok, backup_members in *. by rewrite Hbp, Hbk, Ht'.
  - rewrite <-Hm. by apply same_groups_members.
  - by rewrite Ht'.
  - assert (remaining (rrp pk') = remaining (rrp pk1)) as ->; [|done].
    destruct Hg as [Hg Hb]. unfold remaining, backup_members. by rewrite Hg, Hb, Hbp, Ht'.
Qed.

Lemma body_next pk w x pk' w' io ex io' :
  body_inv pk io w → next_ok pk w x pk' w' →
  (∀ g, getBody = Some g → replays g C io') →
  (getBody = None → was_sent rt ex = false → readable (req_Body baseReq) io' = Some C) →
  retry (decision_of t rt req ex) = true → body_inv pk' io' w'.
Proof.
  intros Hb Hn Hg Hu Hr. unfold body_inv in *. destruct getBody as [g|]; [by apply Hg|].
  destruct Hb as [_ Hone]. split.
  - destruct (was_sent rt ex) eqn:Ews; [|left; by apply Hu].
    destruct Hone as [[-> ->]|[Hgt|Hl]]; [by left| |right].
    + by rewrite (gated_sent ex Hgt Ews) in Hr.
    + intros y Hy Hd. rewrite (nx_members _ _ _ _ _ Hn) in Hy.
      rewrite (interference_Down _ _ y (nx_world _ _ _ _ _ Hn)) in Hd.
      rewrite (nx_tried _ _ _ _ _ Hn).
      rewrite (Hl y x Hy (nx_in _ _ _ _ _ Hn) Hd (nx_up _ _ _ _ _ Hn)). set_solver.
  - destruct Hone as [?|[?|Hl]]; [by left|by right; left|right; right].
    exact (lone_mono _ _ _ _ (nx_world _ _ _ _ _ Hn) (nx_members _ _ _ _ _ Hn) Hl).
Qed.

Lemma attempted_groups x pk io w ex kind s' io' w' :
  attempted x pk io w ex kind (inl s') io' w' →
  same_groups (rrp pk) (rrp (lp_pk s')) ∧ backupPhase (rrp (lp_pk s')) = backupPhase (rrp pk).
Proof.
  intros [_ _ (w2 & _ & Hc) _ _ _ _ _]. inversion Hc as [| |pk' _ Hro]; subst. split; apply Hro.
Qed.

(** The loop invariant after an attempt that is to be retried. *)
Lemma attempt_next s x pk io w io1 w1 ex kind s' io' w' :
  loop_inv s io w → picked (lp_pk s) w x pk w1 → io_frame D io io' →
  attempted x pk io1 w1 ex kind (inl s') io' w' →
  loop_inv s' io' w' ∧ next_ok (lp_pk s) w x (lp_pk s') w'.
Proof.
  intros [Hwf Hph HD Hb Hlast] Hp Hf [_ _ (w2 & Hw2 & Hc) _ _ Hlast' Hg Hu].
  inversion Hc as [| |pk' Hr Hro Ek Es]; subst. cbn [lp_pk lastResp held] in *.
  pose proof (released_next _ _ _ _ _ _ _ _ Hph Hp Hw2 Hro) as Hn. split; [|done].
  split; cbn [lp_pk lastResp lastErr]; try apply Hn.
  - etransitivity; [exact HD|by eapply io_frame_dom].
  - by eapply body_next.
  - done.
Qed.

(** Closing the previous response and selecting leave the body alone. *)
Lemma body_inv_frame pk io w io1 w1 :
  loop_env → io_frame D io io1 → (∀ s, off <$> streams io1 !! s = off <$> streams io !! s) →
  interference w w1 → body_inv pk io w → body_inv pk io1 w1.
Proof.
  intros He Hf Ho Hw Hb. unfold body_inv in *. destruct getBody as [g|] eqn:Eg.
  { eapply replays_frame; [exact Hf|by apply (le_getBody He)|done]. }
  destruct (le_stream He Eg) as [_ HD]. destruct Hb as [Hb Hone]. split.
  - destruct Hb as [Hb|Hs]; [left|right].
    + destruct (req_Body baseReq) as [b|]; [|done].
      eapply (readable_frame b C D); [exact Hf|exact HD| |exact Hb].
      intros s st E _. by rewrite Ho, E.
    + intros x Hx. rewrite (interference_Down w w1 x Hw). by apply Hs.
  - destruct Hone as [?|[?|Hl]]; [by left|by right; left|right; right].
    by eapply lone_mono.
Qed.

Lemma round_stopped s io w e i io' :
  loop_inv s io w → ctx_results req i = Some e → quiet D io io' →
  (∀ h, discharged (lastResp s) h io') →
  round_post s io w [] (inr (None, Some e)) io' w.
Proof.
  intros Hi Hctx (Hf & Ht & Hl) Hd. split; try done.
  - by apply (rs_stopped s e i).
  - left. split; [done|by exists i, e].
  - by rewrite Hl, app_nil_r.
  - by intros x ?%not_elem_of_nil.
  - by intros x ?%not_elem_of_nil.
Qed.

Lemma round_exhausted s io w pk w1 :
  pick (lp_pk s) w = Ret (None, pk, w1) ∧ pick_exact (rrp (lp_pk s)) w None (rrp pk) w1 →
  interference w w1 → round_post s io w [] (inr (given_up s)) (count_poll io) w1.
Proof.
  intros [E He] Hw. unfold given_up. split; try done.
  - destruct (is_some (lastResp s) || is_some (lastErr s)) eqn:El; [by constructor|].
    apply orb_false_iff in El as [E1 E2]. apply rs_none; by destruct (lastResp s), (lastErr s).
  - right. by exists None, pk, w1.
  - cbn. by rewrite app_nil_r.
  - apply frame_count_poll.
  - by intros x ?%not_elem_of_nil.
  - intros r b Er Eb. right. by rewrite Er.
  - by intros x ?%not_elem_of_nil.
Qed.

Lemma round_aborted s io w x pk w1 e io' w' :
  loop_inv s io w → picked (lp_pk s) w x pk w1 → interference w1 w' → io_frame D io io' →
  tmp io' = tmp io → log io' = log io ++ [EvPick x; EvRelease x Neutral] →
  backends ups !! x = None ∨ body_fails io →
  (∀ h, discharged (lastResp s) h io') →
  round_post s io w [EvPick x; EvRelease x Neutral] (inr (None, Some e)) io' w'.
Proof.
  intros [_ Hph _ _ _] Hp Hw Hf Ht Hl Hwhy Hd. split; try done.
  - constructor. destruct Hwhy as [?|?%body_fails_some]; auto.
  - right. exists (Some x), pk, w1. split_and!; [apply Hp|apply Hp|done..].
  - by intros y [= <-].
  - etransitivity; [apply (pi_world _ _ _ _ _ Hp)|done].
  - intros y. cbn. intros ->%list_elem_of_singleton.
    split_and!; [apply Hp|by apply (pi_untried _ _ _ _ _ Hp)|apply Hp].
  - intros ex. rewrite !elem_of_cons. intros [?|[?|?%not_elem_of_nil]]; done.
Qed.

Lemma round_attempted s io w x pk w1 io1 r io' w' ex kind :
  loop_inv s io w → picked (lp_pk s) w x pk w1 →
  io_frame D io io1 → tmp io1 = tmp io → log io1 = log io ++ [EvPick x] →
  (∀ h, discharged (lastResp s) h io1) →
  io_frame D io1 io' → tmp io' = tmp io1 → interference w1 w' →
  attempted x pk io1 w1 ex kind r io' w' →
  round_post s io w (events_of (MkAttempt x ex kind)) r io' w'.
Proof.
  intros Hi Hp Hf1 Ht1 Hl1 Hd1 Hf2 Ht2 Hw2 Had.
  assert (io_frame D io io') as Hf by (by etransitivity).
  split.
  - destruct (ad_concluded _ _ _ _ _ _ _ _ _ Had) as (w2 & _ & Hc).
    apply (rs_attempt s (MkAttempt x ex kind) pk w2 w'); [|exact Hc].
    by apply (ad_ok _ _ _ _ _ _ _ _ _ Had).
  - right. exists (Some x), pk, w1. split_and!; [apply Hp|apply Hp|done|].
    intros s' ->. pose proof (attempted_groups _ _ _ _ _ _ _ _ _ Had) as [Hg ?].
    split; [|done]. unfold same_groups in *. destruct Hg as [-> ->]. apply Hp.
  - by intros y [=].
  - rewrite (ad_log _ _ _ _ _ _ _ _ _ Had), Hl1, <-app_assoc. done.
  - done.
  - congruence.
  - etransitivity; [apply (pi_world _ _ _ _ _ Hp)|done].
  - intros y. cbn. intros ->%list_elem_of_singleton.
    split_and!; [apply Hp|by apply (pi_untried _ _ _ _ _ Hp), Hi|apply Hp].
  - exact (discharged_frame _ _ _ _ _ Hf2 (Hd1 _)).
  - intros ex'. unfold events_of. rewrite !elem_of_cons. cbn [at_ex at_peer at_kind].
    intros [?|[[= ->]|[?|?%not_elem_of_nil]]]; try done.
    split; [by apply (ad_resp _ _ _ _ _ _ _ _ _ Had)|by apply (ad_ctx _ _ _ _ _ _ _ _ _ Had)].
  - intros s' ->. destruct (attempt_next _ _ _ _ _ _ _ _ _ _ _ _ Hi Hp Hf Had) as [? Hn].
    split; [done|]. split; [apply Hn|]. split; [|apply Hn]. exists x. split; [done|apply Hn].
Qed.

Lemma round_spec s io w :
  loop_env → loop_inv s io w →
  wp (attempt_round t ups key req baseReq getBody s)
    (λ r io' w', ∃ evs, round_post s io w evs r io' w') io w.
Proof.
  intros He Hi. pose proof Hi as [Hwf Hph HD Hb Hlast]. unfold attempt_round.
  rewrite wp_bind, wp_ctx_Err. destruct (ctx_results req (polls io)) as [e|] eqn:Ectx.
  { wp_simpl. eapply wp_mono; [by apply (closeLast_spec D)|].
    intros [] io1 w1 (-> & Hq & _ & Hd). wp_simpl. exists []. eapply round_stopped; [done..| |done].
    etransitivity; [apply frame_count_poll|done]. }
  rewrite wp_bind, wp_on_picker. eapply wp_mono; [by apply pick_spec|].
  intros [x|] pk w1 [Hw1 Hp]; cbn [fst snd].
  2:{ wp_simpl. exists []. by eapply round_exhausted. }
  rewrite wp_bind, wp_event. set (io1 := add_event _ _).
  assert (io_frame D io io1) as Hf1 by (etransitivity; [apply frame_count_poll|apply frame_event]).
  assert (resp_ok D (lastResp s) io1) as Hlast1 by (by eapply resp_ok_frame).
  destruct (backends ups !! x) as [addr|] eqn:Eaddr.
  - rewrite wp_bind. eapply wp_mono; [by apply (closeLast_spec D)|].
    intros [] io2 w2 (-> & (Hf2 & Ht2 & Hl2) & [_ Ho2] & Hd).
    assert (io_frame D io io2) as Hf by (by etransitivity).
    eapply wp_mono.
    { apply (attempt_code_spec x addr (lp_pk s) pk io2 w1 He Eaddr).
      - etransitivity; [exact HD|by eapply io_frame_dom].
      - by eapply body_inv_frame.
      - intros Hs. apply (pi_untried _ _ _ _ _ Hp Hph). apply Hs; [apply Hp|].
        rewrite (interference_Down w w1 x Hw1). apply Hp.
      - apply Hp. }
    intros r io3 w3 (Hf3 & Ht3 & Hw3 & [(e & -> & Hl3 & Hget)|(ex & kind & Had)]).
    + exists [EvPick x; EvRelease x Neutral]. eapply round_aborted; try done;
        [..|right; by eapply body_fails_frame|].
      * by etransitivity.
      * by rewrite Ht3, Ht2.
      * rewrite Hl3, Hl2. cbn. by rewrite <-app_assoc.
      * intros h. exact (discharged_frame _ _ _ _ _ Hf3 (Hd h)).
    + eexists. by eapply round_attempted.
  - wp_simpl. eapply wp_mono; [by apply doneNeutral_spec, Hp|]. intros pk' io2 w2 [-> Hro].
    wp_simpl. eapply wp_mono; [by apply (closeLast_spec D); eapply resp_ok_frame; [apply (frame_event D)|]|].
    intros [] io3 w3 (-> & (Hf3 & Ht3 & Hl3) & _ & Hd). wp_simpl.
    exists [EvPick x; EvRelease x Neutral]. eapply round_aborted; try done; [..|by left].
    + apply Hro.
    + etransitivity; [exact Hf1|]. etransitivity; [apply frame_event|exact Hf3].
    + rewrite Hl3. cbn. by rewrite <-app_assoc.
Qed.

(** ** The loop *)

(** The rounds of a loop that returned [res]. *)
Inductive run : loop_state P → list Event → Results → Prop :=
  | run_end s evs res : round_shape s evs (inr res) → run s evs res
  | run_next s evs s' rest res :
      round_shape s evs (inl s') → run s' rest res → run s (evs ++ rest) res.

Record loop_post (s : loop_state P) (io : IO) (w : World) (evs : list Event) (res : Results)
    (io' : IO) (w' : World) : Prop := {
  lo_run : run s evs res;
  lo_log : log io' = log io ++ evs;
  lo_frame : io_frame D io io';
  lo_tmp : tmp io' = tmp io;
  lo_world : interference w w';
  lo_nodup : NoDup (picks evs);
  lo_picks : ∀ x, x ∈ picks evs → x ∈ members (lp_pk s) ∧ x ∉ tried (rrp (lp_pk s)) ∧
    Down (heap w !!! x) = false;
  lo_last : discharged (lastResp s) res.1 io';
  lo_served : ∀ ex, EvServe ex ∈ evs →
    discharged (result_of ex).1 res.1 io' ∧ ctx_discharged ex res.1 io';
}.

Lemma picks_app l1 l2 : picks (l1 ++ l2) = picks l1 ++ picks l2.
Proof. apply omap_app. Qed.

Lemma round_shape_picks s evs r : round_shape s evs r → (length (picks evs) ≤ 1)%nat.
Proof. intros []; cbn; lia. Qed.

(** A returning round ends the run; a round to be retried extends it. *)
Lemma loop_post_end s io w evs res io' w' :
  round_post s io w evs (inr res) io' w' → loop_post s io w evs res io' w'.
Proof.
  intros Hp. pose proof (round_shape_picks _ _ _ (rp_shape _ _ _ _ _ _ _ Hp)) as Hl.
  split; try apply Hp.
  - by apply run_end, (rp_shape _ _ _ _ _ _ _ Hp).
  - destruct (picks evs) as [|x [|y l]]; [constructor|apply NoDup_singleton|cbn in Hl; lia].
Qed.

Lemma loop_post_next s io w evs s1 io1 w1 rest res io' w' :
  round_post s io w evs (inl s1) io1 w1 → loop_post s1 io1 w1 rest res io' w' →
  loop_post s io w (evs ++ rest) res io' w'.
Proof.
  intros Hr Hl. destruct (rp_next _ _ _ _ _ _ _ Hr s1 eq_refl) as (Hi & Hm & (x & Ex & Ht) & Hless).
  pose proof (lo_picks _ _ _ _ _ _ _ Hl) as Hpk. rewrite Hm, Ht in Hpk.
  pose proof (rp_picks _ _ _ _ _ _ _ Hr) as Hx. rewrite Ex in Hx.
  split.
  - eapply run_next; [apply Hr|apply Hl].
  - by rewrite (lo_log _ _ _ _ _ _ _ Hl), (rp_log _ _ _ _ _ _ _ Hr), <-app_assoc.
  - etransitivity; [apply Hr|apply Hl].
  - by rewrite (lo_tmp _ _ _ _ _ _ _ Hl), (rp_tmp _ _ _ _ _ _ _ Hr).
  - etransitivity; [apply Hr|apply Hl].
  - rewrite picks_app, Ex. constructor; [|apply Hl]. intros Hin. destruct (Hpk x Hin). set_solver.
  - intros y. rewrite picks_app, Ex, elem_of_app. intros [Hy|Hy]; [by apply Hx|].
    destruct (Hpk y Hy) as (? & ? & Hd). split_and!; [done|set_solver|].
    by rewrite <-(interference_Down w w1 y (rp_world _ _ _ _ _ _ _ Hr)).
  - eapply discharged_trans; [|apply Hl].
    exact (discharged_frame _ _ _ _ _ (lo_frame _ _ _ _ _ _ _ Hl) (rp_last _ _ _ _ _ _ _ Hr)).
  - intros ex [Hin|Hin]%elem_of_app; [|by apply (lo_served _ _ _ _ _ _ _ Hl)].
    destruct (rp_served _ _ _ _ _ _ _ Hr ex Hin) as [Hd Hc].
    pose proof (lo_frame _ _ _ _ _ _ _ Hl) as Hf. split.
    + exact (discharged_trans _ _ _ _ (discharged_frame _ _ _ _ _ Hf Hd) (lo_last _ _ _ _ _ _ _ Hl)).
    + exact (ctx_discharged_trans _ _ _ _ (ctx_discharged_frame _ _ _ _ _ Hf Hc)
               (lo_last _ _ _ _ _ _ _ Hl)).
Qed.

Lemma attempt_loop_spec fuel s io w :
  loop_env → loop_inv s io w → (remaining (rrp (lp_pk s)) < fuel)%nat →
  wp (attempt_loop fuel t ups key req baseReq getBody s)
    (λ r io' w', ∃ res evs, r = Some res ∧ loop_post s io w evs res io' w') io w.
Proof.
  intros He. revert s io w. induction fuel as [|fuel IH]; intros s io w Hi Hfuel; [lia|].
  cbn [attempt_loop]. rewrite wp_bind. eapply wp_mono; [by apply round_spec|].
  intros [s1|res] io1 w1 [evs Hr].
  - destruct (rp_next _ _ _ _ _ _ _ Hr s1 eq_refl) as (Hi1 & _ & _ & Hless).
    eapply wp_mono; [apply IH; [done|lia]|]. intros r io2 w2 (res & rest & -> & Hl).
    exists res, (evs ++ rest). split; [done|]. by eapply loop_post_next.
  - wp_simpl. exists res, evs. split; [done|]. by apply loop_post_end.
Qed.
End round.
End attempts.
