(* ===== verification/Trip.v ===== *)
(** * What RoundTrip guarantees

    The whole of a request to a configured upstream: it ends, every selected
    peer is released before the next selection, a non-idempotent request is not
    replayed once it was sent, the body reaches every attempt intact, and
    nothing is left behind. *)

From S2P Require Import Prelude GoLib Peer RoundRobin Picker LeastConn IPHash Hash CHash Random Http Body ClientIP Balancers Config RoundTrip Attempts.
#[local] Open Scope Z_scope.

(** ** The hypotheses on a request and its upstream *)

Record trip_env (t : Transport) (ups : upstream) (req : Request) (rt : RoundTripper)
    (pk : AnyPicker) (C : list Z) (io : IO) (w : World) : Prop := {
  te_ok : initErr t = None;
  te_transport : is_some (transport t) = true;
  te_upstream : ∃ u, req_URL req = Some u ∧
    upstreams t !! MkKey (Scheme u) (URL_Host u) = Some ups;
  te_picker : newPicker ups req = Some pk;
  te_wf : picker_wf pk (heap w);
  te_lone : multipleUsablePeers ups = false → lone pk (heap w);
  te_rt : match ups_transport ups with Some r => Some r | None => transport t end = Some rt;
  te_rt_ok : RoundTripper_ok rt;
  te_body : prep_pre (maxBodyBuffer t) C req io;
  te_user : ∀ g, GetBody req = Some g → GetBody_ok g;
  te_ctx : ctx_monotone req;
  te_attempt_ctx : attempt_ctx req = None;
}.

(** The rounds of a request: none, when it fails before the first selection,
    or those of the loop, on a copy of the request. *)
Definition trip_run (t : Transport) (ups : upstream) (req : Request) (rt : RoundTripper)
    (pk : AnyPicker) (C : list Z) (evs : list Event) (res : Results) : Prop :=
  evs = [] ∧ res.1 = None ∧ is_some res.2 = true ∨
  ∃ baseReq getBody, same_request req baseReq ∧
    (GetBody req = None → from_user getBody = false) ∧
    run t ups req baseReq getBody rt C (MkLoop pk None None) evs res.

Record trip_post (t : Transport) (ups : upstream) (req : Request) (rt : RoundTripper)
    (pk : AnyPicker) (C : list Z) (io : IO) (w : World) (evs : list Event) (res : Results)
    (io' : IO) (w' : World) : Prop := {
  tr_run : trip_run t ups req rt pk C evs res;
  tr_log : log io' = log io ++ evs;
  tr_world : interference w w';
  tr_nodup : NoDup (picks evs);
  tr_picks : ∀ x, x ∈ picks evs → x ∈ members pk ∧ Down (heap w !!! x) = false;
  tr_served : ∀ ex, EvServe ex ∈ evs →
    discharged (result_of ex).1 res.1 io' ∧ ctx_discharged ex res.1 io';
  tr_shut : shut (req_Body req) io';
  tr_tmp : tmp io' = tmp io;
}.

(** ** Lemmas *)

Lemma newPicker_fresh ups req pk :
  newPicker ups req = Some pk → tried (rrp pk) = ∅ ∧ backupPhase (rrp pk) = false.
Proof.
  unfold newPicker. destruct (balancer ups) as [b|]; [|done]. intros [= <-].
  destruct b; cbn; repeat case_match; done.
Qed.

Lemma same_request_fields req req' :
  same_request req req' → Method req' = Method req ∧ req_URL req' = req_URL req ∧
    attempt_ctx req' = attempt_ctx req.
Proof. by intros (n & b & ->). Qed.

Lemma replay_needed t ups req :
  requestBodyMayNeedReplay t ups req = false →
  gated t req = true ∨ multipleUsablePeers ups = false.
Proof.
  unfold requestBodyMayNeedReplay, gated. destruct (multipleUsablePeers ups); cbn; [|by right].
  intros [E1%negb_false_iff E2]%orb_false_iff. left. by rewrite E1, E2.
Qed.

(** Nothing was attempted: the caller's body is closed. *)
Lemma trip_failed t ups req rt pk C io w io' e :
  log io' = log io → tmp io' = tmp io → shut (req_Body req) io' →
  trip_post t ups req rt pk C io w [] (None, Some e) io' w.
Proof.
  intros Hl Ht Hs. split; try done.
  - by left.
  - by rewrite Hl, app_nil_r.
  - constructor.
  - by intros x ?%not_elem_of_nil.
  - by intros x ?%not_elem_of_nil.
Qed.

Lemma failRoundTrip_spec t ups req rt pk C io io1 w e :
  body_ok (req_Body req) io → io_frame (spared (req_Body req) io) io io1 →
  log io1 = log io → tmp io1 = tmp io →
  wp (failRoundTrip (Some req) e) (λ r io' w',
    trip_post t ups req rt pk C io w [] r io' w' ∧ w' = w) io1 w.
Proof.
  intros Hb Hf Hl Ht. unfold failRoundTrip. wp_simpl. cbn [mbind option_bind].
  destruct (req_Body req) as [b|] eqn:Eb.
  - eapply wp_mono; [by apply (Close_body b io)|].
    intros [] io2 w2 (-> & (_ & Ht2 & Hl2) & Hs). wp_simpl. split; [|done].
    apply trip_failed; [congruence|congruence|by rewrite Eb].
  - wp_simpl. split; [|done]. apply trip_failed; [done|done|]. rewrite Eb. by intros s st.
Qed.

(** The environment of the loop, after the body was prepared. *)
Lemma trip_loop_env t ups req rt pk C io w g c req' io1 :
  trip_env t ups req rt pk C io w →
  prep_post (requestBodyMayNeedReplay t ups req) C req io (g, c, None) req' io1 →
  loop_env t ups req req' g rt (dom (streams io1)) ∧
  loop_inv t req req' g C (dom (streams io1)) (MkLoop pk None None) io1 w.
Proof.
  intros He Hp. destruct (same_request_fields _ _ (pp_request _ _ _ _ _ _ _ Hp)) as (Em & _ & Ec).
  pose proof (pp_getBody _ _ _ _ _ _ _ Hp) as Hg. cbn [fst snd] in Hg.
  pose proof (pp_stream _ _ _ _ _ _ _ Hp eq_refl) as Hs. cbn [fst snd] in Hs.
  destruct (newPicker_fresh _ _ _ (te_picker _ _ _ _ _ _ _ _ He)) as [Htr Hbp].
  split; split.
  - apply He.
  - apply He.
  - intros g' ->. destruct (Hg g' eq_refl eq_refl) as ([[Eu _]|[Eu _]] & _ & Hn); (split; [|done]).
    + by apply (te_user _ _ _ _ _ _ _ _ He).
    + by destruct g'.
  - intros ->. destruct (Hs eq_refl) as (HC & Hcl & _). split; [done|].
    intros s Es. unfold readable in HC. rewrite Es in HC. apply elem_of_dom.
    destruct (streams io1 !! s); [by eexists|done].
  - done.
  - apply He.
  - rewrite Ec. apply He.
  - apply He.
  - intros _ x _. cbn [lp_pk]. rewrite Htr. set_solver.
  - done.
  - unfold body_inv. destruct g as [g|].
    { by apply (Hg g eq_refl eq_refl). }
    destruct (Hs eq_refl) as (HC & _ & _). split; [by left|].
    destruct (pp_once _ _ _ _ _ _ _ Hp eq_refl eq_refl) as [E|E].
    + left. split; [done|]. rewrite E in HC. by injection HC as <-.
    + right. destruct (replay_needed _ _ _ E) as [?|Hm]; [by left|right].
      by apply (te_lone _ _ _ _ _ _ _ _ He).
  - done.
Qed.

Lemma trip_env_poll t ups req rt pk C io w :
  trip_env t ups req rt pk C io w → trip_env t ups req rt pk C (count_poll io) w.
Proof. intros []. split; try done. destruct te_body0. by split. Qed.

(** The loop and the deferred cleanup. *)
Lemma loop_and_cleanup fuel t ups key req rt pk C io w g c req' io1 :
  trip_env t ups req rt pk C io w → (remaining (rrp pk) < fuel)%nat →
  prep_post (requestBodyMayNeedReplay t ups req) C req io (g, c, None) req' io1 →
  wp (r ← attempt_loop fuel t ups key req req' g (MkLoop pk None None);
      match c with Some c => run_cleanup c | None => mret tt end;;
      mret r)
    (λ r io' w', ∃ res evs, r = Some res ∧ trip_post t ups req rt pk C io w evs res io' w') io1 w.
Proof.
  intros He Hfuel Hp. destruct (trip_loop_env _ _ _ _ _ _ _ _ _ _ _ _ He Hp) as [Henv Hinv].
  rewrite wp_bind. eapply wp_mono; [by apply attempt_loop_spec|].
  intros r io2 w2 (res & evs & -> & [Lrun Llog Lf Lt Lw Lnd Lp _ Ls]). rewrite wp_bind.
  pose proof (te_body _ _ _ _ _ _ _ _ He) as Hpre.
  eapply wp_mono.
  { apply (cleanup_spec _ _ _ _ _ _ _ _ w2 Hp eq_refl); [apply Hpre|apply Hpre|done..]. }
  intros [] io3 w3 (-> & Hs & Ht & Hl3 & Hf3). wp_simpl. exists res, evs. split; [done|].
  split; try done.
  - right. exists req', g. split; [apply Hp|]. split; [|done].
    intros Eg. unfold from_user. destruct g as [g|]; [|done].
    destruct (pp_getBody _ _ _ _ _ _ _ Hp g eq_refl eq_refl) as ([[E _]|[? _]] & _); [congruence|done].
  - by rewrite Hl3, Llog, (pp_log _ _ _ _ _ _ _ Hp).
  - intros x Hx. by destruct (Lp x Hx) as (? & _ & ?).
  - intros ex Hin. destruct (Ls ex Hin) as [Hd Hc].
    split; [by eapply discharged_frame|by eapply ctx_discharged_frame].
Qed.

Lemma RoundTrip_spec fuel t ups req rt pk C io w :
  trip_env t ups req rt pk C io w → (remaining (rrp pk) < fuel)%nat →
  wp (RoundTrip fuel (Some t) (Some req))
    (λ r io' w', ∃ res evs, r = Some res ∧ trip_post t ups req rt pk C io w evs res io' w') io w.
Proof.
  intros He0 Hfuel. pose proof (trip_env_poll _ _ _ _ _ _ _ _ He0) as He.
  pose proof (te_body _ _ _ _ _ _ _ _ He0) as Hpre.
  unfold RoundTrip. rewrite (te_ok _ _ _ _ _ _ _ _ He).
  destruct (te_upstream _ _ _ _ _ _ _ _ He) as (u & -> & Eups).
  pose proof (te_transport _ _ _ _ _ _ _ _ He) as Ht. destruct (transport t) as [rt0|]; [clear Ht|done].
  rewrite wp_bind, wp_ctx_Err. destruct (ctx_results req (polls io)) as [e|].
  { rewrite wp_bind. eapply wp_mono.
    { apply (failRoundTrip_spec t ups req rt pk C io); [apply Hpre|apply frame_count_poll|done..]. }
    intros r io1 w1 [Hp ->]. wp_simpl. by exists r, []. }
  rewrite Eups. unfold balanced_trip. rewrite (te_picker _ _ _ _ _ _ _ _ He), wp_bind.
  eapply wp_mono; [apply prepareBody_spec, He|].
  intros [[[g c] [e|]] req'] io1 w1 [-> Hp]; cbn [fst snd] in *.
  - wp_simpl. exists (None, Some e), []. split; [done|].
    destruct (pp_err _ _ _ _ _ _ _ Hp e eq_refl) as (_ & Hs & Htmp & _).
    apply trip_failed; [|done|done]. by rewrite (pp_log _ _ _ _ _ _ _ Hp).
  - eapply wp_mono; [by apply (loop_and_cleanup fuel t ups _ req rt pk C (count_poll io))|].
    intros r io2 w2 (res & evs & -> & Hpost). exists res, evs. split; [done|].
    destruct Hpost. by split.
Qed.

(** ** Reading the log *)

(** The peer held after the events, if selections and releases alternate and
    exchanges only happen while a peer is held. *)
Fixpoint holding (held : option PeerId) (evs : list Event) : option (option PeerId) :=
  match evs, held with
  | [], _ => Some held
  | EvPick x :: evs, None => holding (Some x) evs
  | EvServe _ :: evs, Some x => holding (Some x) evs
  | EvRelease y _ :: evs, Some x => if bool_decide (y = x) then holding None evs else None
  | _, _ => None
  end.

Definition exchanges (evs : list Event) : list Exchange :=
  omap (λ e, match e with EvServe ex => Some ex | _ => None end) evs.

Lemma elem_of_exchanges ex evs : ex ∈ exchanges evs ↔ EvServe ex ∈ evs.
Proof.
  unfold exchanges. rewrite list_elem_of_omap. split.
  - intros ([?|ex'|? ?] & Hin & [=]); by subst.
  - intros Hin. by exists (EvServe ex).
Qed.

Lemma holding_app h l1 l2 :
  holding h (l1 ++ l2) = holding h l1 ≫= λ h', holding h' l2.
Proof.
  revert h. induction l1 as [|[x|ex|x k] l1 IH]; intros [y|]; cbn; try done; try apply IH.
  case_match; [apply IH|done].
Qed.

Section reading.
Context (t : Transport) (ups : upstream) (req baseReq : Request) (getBody : option GetBodyFn).
Context (rt : RoundTripper) (C : list Z).
Notation shape := (round_shape (P := AnyPicker) t ups req baseReq getBody rt C).
Notation runs := (run (P := AnyPicker) t ups req baseReq getBody rt C).

Lemma shape_holding s evs r : shape s evs r → holding None evs = Some None.
Proof. intros []; cbn; by rewrite ?bool_decide_eq_true_2. Qed.

Lemma run_holding s evs res : runs s evs res → holding None evs = Some None.
Proof.
  induction 1 as [s evs res Hs|s evs s' rest res Hs _ IH]; [by eapply shape_holding|].
  by rewrite holding_app, (shape_holding _ _ _ Hs).
Qed.

(** An exchange that another one follows was to be retried. *)
Lemma run_retried s evs res l ex l' :
  runs s evs res → exchanges evs = l ++ ex :: l' → l' ≠ [] →
  retry (decision_of t rt req ex) = true.
Proof.
  intros Hr. revert l. induction Hr as [s evs res Hs|s evs s' rest res Hs _ IH]; intros l E Hl.
  - exfalso. assert (length (exchanges evs) ≤ 1)%nat as Hlen by (destruct Hs; cbn; lia).
    rewrite E, length_app in Hlen. destruct l'; [done|]. cbn in Hlen. lia.
  - unfold exchanges in E. rewrite omap_app in E. fold (exchanges rest) in E.
    inversion Hs as [| | | |a pk w w' r Hok Hc]; subst; cbn in E.
    inversion Hc; subst. destruct l as [|ex' l]; cbn in E; simplify_eq; [done|].
    by eapply IH.
Qed.

(** The result is that of the last exchange, or an error of its own. *)
Definition last_result (s : loop_state AnyPicker) (evs : list Event) (res : Results) : Prop :=
  (∃ ex, last (exchanges evs) = Some ex ∧ res = result_of ex) ∨
  (exchanges evs = [] ∧ is_some (lastResp s) || is_some (lastErr s) = true ∧
   res = (lastResp s, lastErr s)) ∨
  ∃ e, res = (None, Some e) ∧
    ((∃ i, ctx_results req i = Some e) ∨
     (picks evs = [] ∧ lastResp s = None ∧ lastErr s = None ∧ e = Retry ErrNoPeerAvailable) ∨
     ∃ l x, evs = l ++ [EvPick x; EvRelease x Neutral]).

Lemma run_result s evs res : runs s evs res → last_result s evs res.
Proof.
  induction 1 as [s evs res Hs|s evs s' rest res Hs _ IH].
  - inversion Hs as [e i Hctx| |H1 H2|x e|a pk w w' r Hok Hc]; subst.
    + right; right. exists e. split; [done|left; by exists i].
    + by right; left.
    + right; right. eexists. split; [done|]. right; left. by rewrite H1, H2.
    + right; right. exists e. split; [done|]. right; right. by exists [], x.
    + inversion Hc as [e He [i Hi]|Hr|]; subst.
      * right; right. exists e. split; [done|left; by exists i].
      * left. by exists (at_ex a).
  - inversion Hs as [| | | |a pk w w' r Hok Hc]; subst. inversion Hc; subst.
    unfold last_result. unfold exchanges. rewrite omap_app. cbn [omap list_omap events_of].
    fold (exchanges rest). change ([at_ex a] ++ ?l) with (at_ex a :: l).
    destruct IH as [(ex & El & ->)|[(En & _ & ->)|(e & -> & He)]].
    + left. exists ex. split; [|done]. destruct (exchanges rest); [done|]. done.
    + left. exists (at_ex a). rewrite En. split; [done|]. cbn [lastResp lastErr].
      by destruct (result_of (at_ex a)).
    + right; right. exists e. split; [done|].
      destruct He as [?|[(_ & E1 & E2 & _)|(l & x & ->)]]; [by left| |].
      * cbn in E1, E2. by destruct (result_of_some (at_ex a) E1).
      * right; right. exists (events_of a ++ l), x. by rewrite <-app_assoc.
Qed.
End reading.

(** ** A request to try the claims on

    Two backends, of which the first refuses; a POST-able body of three bytes
    that cannot seek. *)

Definition demo_serve (req : Request) : T Results := λ io w,
  if (default "" (URL_Host <$> req_URL req) =? "a")%string
  then Ret ((None, Some (New "connection refused")), io, w)
  else
    let s := fresh (dom (streams io)) in
    Ret ((Some (MkResponse 200 (Some (Obj s))), None),
         set_streams (<[s := MkStream [42] 0 false false]> (streams io)) io, w).
Definition demo_rt : RoundTripper := MkRoundTripper false demo_serve.

Definition demo_ups : upstream :=
  MkUpstream (Some (BRoundRobin demo_rr.1))
    (<[1%nat := MkBackend "http" "b"]> {[0%nat := MkBackend "http" "a"]})
    None AlgoRoundRobin true "" None.
Definition demo_key : upstreamKey := MkKey "http" "svc".
Definition demo_t : Transport :=
  MkTransport (Some demo_rt) {[demo_key := demo_ups]} 1000 0 100 None false None.
Definition demo_req (method : string) : Request :=
  MkRequest method (Some (MkURL "http" "svc" "/path")) "" ∅ "" (Some (Obj 0)) None 3
    (λ _, None) None None.
Definition demo_io : IO :=
  MkIO {[0%nat := MkStream [1; 2; 3] 0 false false]} ∅ (λ _, None) 0 0 0 ∅ ∅ [].
Definition demo_pk : AnyPicker := PRoundRobin (RoundRobin.NewPicker demo_rr.1).

Lemma demo_rt_ok : RoundTripper_ok demo_rt.
Proof.
  intros req io w.
  assert (∀ s st, streams io !! s = Some st →
    off <$> (<[fresh (dom (streams io)) := MkStream [42] 0 false false]> (streams io)) !! s
      = Some (off st)) as Hoff.
  { intros s st E. rewrite lookup_insert_ne; [by rewrite E|].
    intros <-. apply (is_fresh (dom (streams io))), elem_of_dom. by eexists. }
  unfold demo_rt, demo_serve, wp. cbn [serve]. destruct (_ =? "a")%string.
  - by split_and!.
  - cbn [fst snd streams set_streams]. split_and!; try done.
    + by apply frame_fresh, not_elem_of_dom, is_fresh.
    + intros resp b [= <-] [= <-] s [= <-]. split; [apply is_fresh|].
      eexists. split; [apply lookup_insert_eq|done].
Qed.

Lemma demo_env method :
  trip_env demo_t demo_ups (demo_req method) demo_rt demo_pk [1; 2; 3] demo_io demo_world.
Proof.
  split; try done.
  - exists (MkURL "http" "svc" "/path"). split; [done|]. by vm_compute.
  - exact demo_wf.
  - exact demo_rt_ok.
  - split; try done.
    intros s [= <-]. exists (MkStream [1; 2; 3] 0 false false). by vm_compute.
Qed.

(** Attempts and releases of a run. *)
Lemma run_served {P} `{PickerLaws P} t ups req baseReq getBody rt C (s : loop_state P) evs res ex :
  run t ups req baseReq getBody rt C s evs res → EvServe ex ∈ evs →
  ∃ a, at_ex a = ex ∧ attempt_ok ups baseReq getBody rt C a.
Proof.
  induction 1 as [s evs res Hs|s evs s' rest res Hs _ IH].
  - inversion Hs; subst; unfold events_of; rewrite ?elem_of_cons;
      [by intros ?%not_elem_of_nil..|by intros [?|[?|?%not_elem_of_nil]]|].
    intros [?|[[= ->]|[?|?%not_elem_of_nil]]]; try done. by exists a.
  - intros [Hin|?]%elem_of_app; [|by apply IH]. revert Hin.
    inversion Hs; subst; unfold events_of; rewrite ?elem_of_cons.
    intros [?|[[= ->]|[?|?%not_elem_of_nil]]]; try done. by exists a.
Qed.

(** The release that follows an exchange, as the decision says; a cancelled
    caller releases neutrally and ends the run. *)
Definition release_rule t (rt : RoundTripper) req (res : Results) (ex : Exchange)
    (kind : release_kind) (rest : list Event) : Prop :=
  kind = kind_of (decision_of t rt req ex) ∨
  kind = Neutral ∧ rest = [] ∧ is_some (result_of ex).2 = true ∧
  ∃ i e, ctx_results req i = Some e ∧ res = (None, Some e).

(** What surrounds an exchange: its peer was selected last, and is released next. *)
Lemma run_exchange {P} `{PickerLaws P} t ups req baseReq getBody rt C (s : loop_state P) evs res
    l ex l' :
  run t ups req baseReq getBody rt C s evs res → evs = l ++ EvServe ex :: l' →
  ∃ a rest, at_ex a = ex ∧ attempt_ok ups baseReq getBody rt C a ∧
    l' = EvRelease (at_peer a) (at_kind a) :: rest ∧
    holding None l = Some (Some (at_peer a)) ∧ release_rule t rt req res ex (at_kind a) rest.
Proof.
  intros Hr. revert l. induction Hr as [s evs res Hs|s evs s' later res Hs _ IH]; intros l E.
  - inversion Hs as [| | | |a pk w w' r Hok Hc]; subst;
      try (by repeat (destruct l as [|? l]; simplify_eq)).
    unfold events_of in *. destruct l as [|? [|? [|? l]]]; simplify_eq/=;
      [|by destruct l; simplify_eq/=].
    exists a, []. split_and!; [done..|]. inversion Hc as [e He [i Hi]|Hret|]; subst; [right|by left].
    split_and!; [done..|]. by exists i, e.
  - inversion Hs as [| | | |a pk w w' r Hok Hc]; subst.
    unfold events_of in *. destruct l as [|? [|? [|? l]]]; simplify_eq/=.
    + exists a, later. split_and!; [done..|]. inversion Hc; subst. by left.
    + destruct (IH l eq_refl) as (a' & rest & ? & ? & ? & ? & ?). exists a', rest.
      rewrite bool_decide_eq_true_2 by done. by split_and!.
Qed.

(** ** Claims *)

Section claims.
Context (t : Transport) (ups : upstream) (req : Request) (rt : RoundTripper).
Context (pk : AnyPicker) (C : list Z) (io : IO) (w : World).

(** C4: a request to a configured upstream ends, with any fuel above the
    number of selections its picker can make: RoundTrip returns without
    panicking, tries no peer twice and only configured peers that are up, and
    releases every peer it selected exactly once before it selects the next or
    returns; exchanges happen only while a peer is held. *)
Theorem RoundTrip_attempts (fuel : nat) :
  trip_env t ups req rt pk C io w → (remaining (rrp pk) < fuel)%nat →
  ∃ res io' w' evs, RoundTrip fuel (Some t) (Some req) io w = Ret (Some res, io', w') ∧
    log io' = log io ++ evs ∧ NoDup (picks evs) ∧
    (∀ x, x ∈ picks evs → x ∈ members pk ∧ Down (heap w !!! x) = false) ∧
    holding None evs = Some None.
Proof.
  intros He Hf. destruct (proj1 (wp_exists _ _ _ _) (RoundTrip_spec _ _ _ _ _ _ _ _ _ He Hf))
    as (r & io' & w' & E & res & evs & -> & Hp).
  exists res, io', w', evs. split_and!; [done|apply Hp|apply Hp|apply Hp|].
  destruct (tr_run _ _ _ _ _ _ _ _ _ _ _ _ Hp) as [(-> & _)|(b & g & _ & _ & Hr)]; [done|].
  by eapply run_holding.
Qed.

(** What RoundTrip returns: the response and error of the last exchange;
    or no response and an error of its own: the caller's context is done, no
    peer could be selected for a first attempt, or the last selected peer was
    given back unused (its body function failed or it has no address). *)
Theorem RoundTrip_result (fuel : nat) :
  trip_env t ups req rt pk C io w → (remaining (rrp pk) < fuel)%nat →
  ∃ res io' w' evs, RoundTrip fuel (Some t) (Some req) io w = Ret (Some res, io', w') ∧
    log io' = log io ++ evs ∧
    ((∃ ex, last (exchanges evs) = Some ex ∧ res = result_of ex) ∨
     ∃ e, res = (None, Some e) ∧
       ((∃ i, ctx_results req i = Some e) ∨ picks evs = [] ∨
        ∃ l x, evs = l ++ [EvPick x; EvRelease x Neutral])).
Proof.
  intros He Hf. destruct (proj1 (wp_exists _ _ _ _) (RoundTrip_spec _ _ _ _ _ _ _ _ _ He Hf))
    as (r & io' & w' & E & res & evs & -> & Hp).
  exists res, io', w', evs. split; [done|]. split; [apply Hp|].
  destruct (tr_run _ _ _ _ _ _ _ _ _ _ _ _ Hp) as [(-> & H1 & H2)|(b & g & _ & _ & Hr)].
  - right. destruct res as [[|] [e|]]; try done. exists e. split; [done|]. by right; left.
  - destruct (run_result _ _ _ _ _ _ _ _ _ _ Hr) as [?|[(_ & ? & _)|(e & -> & Hc)]];
      [by left|done|right]. exists e. split; [done|].
    destruct Hc as [?|[(? & _)|?]]; [by left|by right; left|by right; right].
Qed.

(** C5: a POST, LOCK or PATCH request is not replayed once it was sent, unless
    the transport allows it: every exchange that another one follows ended with
    an error of an [*http.Transport] before anything was written. *)
Theorem RoundTrip_non_idempotent (fuel : nat) :
  trip_env t ups req rt pk C io w → (remaining (rrp pk) < fuel)%nat →
  isNonIdempotentMethod (Method req) = true → retryNonIdempotent t = false →
  ∃ res io' w' evs, RoundTrip fuel (Some t) (Some req) io w = Ret (Some res, io', w') ∧
    log io' = log io ++ evs ∧
    ∀ l ex l', exchanges evs = l ++ ex :: l' → l' ≠ [] →
      standard rt = true ∧ ex_sent ex = false ∧ (result_of ex).1 = None.
Proof.
  intros He Hf Hm Hn. destruct (proj1 (wp_exists _ _ _ _) (RoundTrip_spec _ _ _ _ _ _ _ _ _ He Hf))
    as (r & io' & w' & E & res & evs & -> & Hp).
  exists res, io', w', evs. split; [done|]. split; [apply Hp|]. intros l ex l' Ex Hl.
  destruct (tr_run _ _ _ _ _ _ _ _ _ _ _ _ Hp) as [(-> & _)|(b & g & _ & _ & Hr)].
  { by destruct l. }
  pose proof (run_retried _ _ _ _ _ _ _ _ _ _ _ _ _ Hr Ex Hl) as Hretry.
  assert (gated t req = true) as Hg by (unfold gated; by rewrite Hm, Hn).
  destruct (was_sent rt ex) eqn:Ew; [by rewrite (gated_sent t req rt ex Hg Ew) in Hretry|].
  destruct (was_sent_false rt ex Ew) as [? ?]. split_and!; [done..|].
  unfold was_sent in Ew. apply orb_false_iff in Ew as [[Ew _]%orb_false_iff _].
  by destruct (result_of ex).1.
Qed.

(** C6: nothing is left behind: when RoundTrip returns, the request body is
    closed, every temporary file it made is closed and removed, every response
    an attempt received is closed unless it is the one returned, and the
    context derived for an attempt is cancelled unless the returned body
    cancels it when it is closed. *)
Theorem RoundTrip_resources (fuel : nat) :
  trip_env t ups req rt pk C io w → (remaining (rrp pk) < fuel)%nat →
  ∃ res io' w' evs, RoundTrip fuel (Some t) (Some req) io w = Ret (Some res, io', w') ∧
    log io' = log io ++ evs ∧ shut (req_Body req) io' ∧ tmp io' = tmp io ∧
    ∀ ex, EvServe ex ∈ evs →
      (∀ r b, (result_of ex).1 = Some r → resp_Body r = Some b →
         disposed b io' ∨ res.1 = Some r) ∧
      (∀ c, ex_ctx ex = Some c → c ∈ cancelled io' ∨
         ∃ r b, res.1 = Some r ∧ resp_Body r = Some (CancelCloser b c)).
Proof.
  intros He Hf. destruct (proj1 (wp_exists _ _ _ _) (RoundTrip_spec _ _ _ _ _ _ _ _ _ He Hf))
    as (r & io' & w' & E & res & evs & -> & Hp).
  exists res, io', w', evs. split_and!; [done|apply Hp..].
Qed.

(** C7: the body reaches every attempt whole: whatever earlier attempts read of
    it, each exchange could read exactly the bytes the caller's body had left,
    for a body that is seekable, buffered in memory, spilled to a file or
    handed over unread. *)
Theorem RoundTrip_replays_body (fuel : nat) :
  trip_env t ups req rt pk C io w → (remaining (rrp pk) < fuel)%nat →
  GetBody req = None →
  ∃ res io' w' evs, RoundTrip fuel (Some t) (Some req) io w = Ret (Some res, io', w') ∧
    log io' = log io ++ evs ∧ readable (req_Body req) io = Some C ∧
    ∀ ex, EvServe ex ∈ evs → ex_body ex = Some C.
Proof.
  intros He Hf Hg. destruct (proj1 (wp_exists _ _ _ _) (RoundTrip_spec _ _ _ _ _ _ _ _ _ He Hf))
    as (r & io' & w' & E & res & evs & -> & Hp).
  exists res, io', w', evs. split; [done|]. split; [apply Hp|]. split; [apply He|].
  intros ex Hin. destruct (tr_run _ _ _ _ _ _ _ _ _ _ _ _ Hp) as [(-> & _)|(b & g & _ & Hu & Hr)].
  { by apply not_elem_of_nil in Hin. }
  destruct (run_served _ _ _ _ _ _ _ _ _ _ _ Hr Hin) as (a & <- & Ha).
  by apply (ao_body _ _ _ _ _ _ Ha), Hu.
Qed.

(** C16: peer health: every exchange is one with the backend of the peer that
    was selected last and is held, and the next thing that happens is the release
    of this peer, of the kind that decideAttempt decides for the outcome of the
    exchange, except that an attempt whose caller has cancelled is released
    neutrally, ends the request and returns the context's error. *)
Theorem RoundTrip_health (fuel : nat) :
  trip_env t ups req rt pk C io w → (remaining (rrp pk) < fuel)%nat →
  ∃ res io' w' evs, RoundTrip fuel (Some t) (Some req) io w = Ret (Some res, io', w') ∧
    log io' = log io ++ evs ∧
    ∀ l ex l', evs = l ++ EvServe ex :: l' →
      ∃ x addr u kind rest, l' = EvRelease x kind :: rest ∧ holding None l = Some (Some x) ∧
        backends ups !! x = Some addr ∧ req_URL req = Some u ∧
        ex_to ex = MkURL (addr_scheme addr) (addr_host addr) (URL_rest u) ∧
        (kind = kind_of (decision_of t rt req ex) ∨
         kind = Neutral ∧ rest = [] ∧ is_some (result_of ex).2 = true ∧
         ∃ i e, ctx_results req i = Some e ∧ res = (None, Some e)).
Proof.
  intros He Hf. destruct (proj1 (wp_exists _ _ _ _) (RoundTrip_spec _ _ _ _ _ _ _ _ _ He Hf))
    as (r & io' & w' & E & res & evs & -> & Hp).
  exists res, io', w', evs. split; [done|]. split; [apply Hp|]. intros l ex l' Eevs.
  destruct (tr_run _ _ _ _ _ _ _ _ _ _ _ _ Hp) as [(-> & _)|(b & g & Hreq & _ & Hr)];
    [by destruct l|].
  destruct (run_exchange _ _ _ _ _ _ _ _ _ _ _ _ _ Hr Eevs) as (a & rest & <- & Ha & -> & Hh & Hk).
  destruct (te_upstream _ _ _ _ _ _ _ _ He) as (u & Eu & _).
  destruct (ao_to _ _ _ _ _ _ Ha) as (addr & Eaddr & Eto).
  exists (at_peer a), addr, u, (at_kind a), rest. split_and!; try done.
  apply Eto. by rewrite (proj1 (proj2 (same_request_fields _ _ Hreq))).
Qed.
End claims.

(** ** Witnesses *)

Lemma RoundTrip_attempts_witness :
  ∃ res io' w' evs,
    RoundTrip 3 (Some demo_t) (Some (demo_req "GET")) demo_io demo_world = Ret (Some res, io', w') ∧
    log io' = [] ++ evs ∧ NoDup (picks evs) ∧
    (∀ x, x ∈ picks evs → x ∈ members demo_pk ∧ Down (heap demo_world !!! x) = false) ∧
    holding None evs = Some None.
Proof.
  apply (RoundTrip_attempts demo_t demo_ups (demo_req "GET") demo_rt demo_pk [1; 2; 3]
    demo_io demo_world 3 (demo_env "GET")). vm_compute. lia.
Defined.

Lemma RoundTrip_result_witness :
  ∃ res io' w' evs,
    RoundTrip 3 (Some demo_t) (Some (demo_req "GET")) demo_io demo_world = Ret (Some res, io', w') ∧
    log io' = [] ++ evs ∧
    ((∃ ex, last (exchanges evs) = Some ex ∧ res = result_of ex) ∨
     ∃ e, res = (None, Some e) ∧
       ((∃ i, ctx_results (demo_req "GET") i = Some e) ∨ picks evs = [] ∨
        ∃ l x, evs = l ++ [EvPick x; EvRelease x Neutral])).
Proof.
  apply (RoundTrip_result demo_t demo_ups (demo_req "GET") demo_rt demo_pk [1; 2; 3]
    demo_io demo_world 3 (demo_env "GET")). vm_compute. lia.
Defined.

Lemma RoundTrip_non_idempotent_witness :
  ∃ res io' w' evs,
    RoundTrip 3 (Some demo_t) (Some (demo_req "POST")) demo_io demo_world = Ret (Some res, io', w') ∧
    log io' = [] ++ evs ∧
    ∀ l ex l', exchanges evs = l ++ ex :: l' → l' ≠ [] →
      standard demo_rt = true ∧ ex_sent ex = false ∧ (result_of ex).1 = None.
Proof.
  apply (RoundTrip_non_idempotent demo_t demo_ups (demo_req "POST") demo_rt demo_pk [1; 2; 3]
    demo_io demo_world 3 (demo_env "POST")); [vm_compute; lia|reflexivity|reflexivity].
Defined.

Lemma RoundTrip_resources_witness :
  ∃ res io' w' evs,
    RoundTrip 3 (Some demo_t) (Some (demo_req "PUT")) demo_io demo_world = Ret (Some res, io', w') ∧
    log io' = [] ++ evs ∧ shut (Some (Obj 0)) io' ∧ tmp io' = ∅ ∧
    ∀ ex, EvServe ex ∈ evs →
      (∀ r b, (result_of ex).1 = Some r → resp_Body r = Some b →
         disposed b io' ∨ res.1 = Some r) ∧
      (∀ c, ex_ctx ex = Some c → c ∈ cancelled io' ∨
         ∃ r b, res.1 = Some r ∧ resp_Body r = Some (CancelCloser b c)).
Proof.
  apply (RoundTrip_resources demo_t demo_ups (demo_req "PUT") demo_rt demo_pk [1; 2; 3]
    demo_io demo_world 3 (demo_env "PUT")). vm_compute. lia.
Defined.

Lemma RoundTrip_replays_body_witness :
  ∃ res io' w' evs,
    RoundTrip 3 (Some demo_t) (Some (demo_req "PUT")) demo_io demo_world = Ret (Some res, io', w') ∧
    log io' = [] ++ evs ∧ readable (Some (Obj 0)) demo_io = Some [1; 2; 3] ∧
    ∀ ex, EvServe ex ∈ evs → ex_body ex = Some [1; 2; 3].
Proof.
  apply (RoundTrip_replays_body demo_t demo_ups (demo_req "PUT") demo_rt demo_pk [1; 2; 3]
    demo_io demo_world 3 (demo_env "PUT")); [vm_compute; lia|reflexivity].
Defined.

Lemma RoundTrip_health_witness :
  ∃ res io' w' evs,
    RoundTrip 3 (Some demo_t) (Some (demo_req "GET")) demo_io demo_world = Ret (Some res, io', w') ∧
    log io' = [] ++ evs ∧
    ∀ l ex l', evs = l ++ EvServe ex :: l' →
      ∃ x addr u kind rest, l' = EvRelease x kind :: rest ∧ holding None l = Some (Some x) ∧
        backends demo_ups !! x = Some addr ∧ req_URL (demo_req "GET") = Some u ∧
        ex_to ex = MkURL (addr_scheme addr) (addr_host addr) (URL_rest u) ∧
        (kind = kind_of (decision_of demo_t demo_rt (demo_req "GET") ex) ∨
         kind = Neutral ∧ rest = [] ∧ is_some (result_of ex).2 = true ∧
         ∃ i e, ctx_results (demo_req "GET") i = Some e ∧ res = (None, Some e)).
Proof.
  apply (RoundTrip_health demo_t demo_ups (demo_req "GET") demo_rt demo_pk [1; 2; 3]
    demo_io demo_world 3 (demo_env "GET")). vm_compute. lia.
Defined.
