(* ===== verification/Exhaustion.v ===== *)
(** * What RoundTrip tried before it gave up

    The loop selects until an attempt settles the request.  When it stops
    because no peer can be selected, every configured peer was tried, or was
    turned down by a selection of this request: the rounds of the loop are
    steps between its states, and a selection in a state that is reached is a
    [Pick] that the program made. *)

From S2P Require Import Prelude GoLib Peer RoundRobin Picker LeastConn IPHash Hash CHash Random Http Body ClientIP Balancers Config RoundTrip Attempts Trip.
From stdpp Require Import relations.
#[local] Open Scope Z_scope.

(** ** The rounds of a loop *)

Section rounds.
Context {P : Type} `{PickerLaws P}.
Context (t : Transport) (ups : upstream) (key : upstreamKey) (req baseReq : Request).
Context (getBody : option GetBodyFn).

(** Where a round begins. *)
Definition conf : Type := loop_state P * IO * World.

(** A round after which the loop goes on. *)
Inductive next_round : conf → conf → Prop :=
  | next_round_intro s io w s' io' w' :
      attempt_round t ups key req baseReq getBody s io w = Ret (inl s', io', w') →
      next_round (s, io, w) (s', io', w').

(** A selection of the loop that found the peer down, saturated or in
    quarantine. *)
Definition turned_down (c : conf) (x : PeerId) : Prop :=
  ∃ s io w sel pk w', rtc next_round c (s, io, w) ∧ interference c.2 w ∧
    pick (lp_pk s) w = Ret (sel, pk, w') ∧
    unchoosable (heap w) x (clock w) (ticks w) (ticks w').

(** The loop passed over no peer of [xs] without a reason. *)
Definition covered (c : conf) (evs : list Event) (xs : list PeerId) : Prop :=
  ∀ x, x ∈ xs → x ∈ tried (rrp (lp_pk c.1.1)) ∨ x ∈ picks evs ∨ turned_down c x.

(** The last peer selected was given back without an exchange. *)
Definition unused (x : PeerId) (evs : list Event) : Prop :=
  ∃ l, evs = l ++ [EvPick x; EvRelease x Neutral].

(** How the loop ended: the caller's context is done; a selected peer was given
    back unused, as it has no address or the body function failed; the decision
    on the last exchange is final; or there was no peer left. *)
Inductive loop_ends (rt : RoundTripper) (c : conf) (evs : list Event) : Results → Prop :=
  | le_cancelled e i : ctx_results req i = Some e → loop_ends rt c evs (None, Some e)
  | le_unused x e :
      unused x evs → backends ups !! x = None ∨ body_fails getBody c.1.2 →
      loop_ends rt c evs (None, Some e)
  | le_settled ex :
      (∀ x, ¬ unused x evs) →
      last (exchanges evs) = Some ex → retry (decision_of t rt req ex) = false →
      loop_ends rt c evs (result_of ex)
  | le_exhausted :
      (∀ x, ¬ unused x evs) →
      (backupPhase (rrp (lp_pk c.1.1)) = false →
        covered c evs (Peers (primary (rrp (lp_pk c.1.1))))) →
      covered c evs (backup_members (rrp (lp_pk c.1.1))) →
      loop_ends rt c evs (from_option result_of (given_up c.1.1) (last (exchanges evs))).

Lemma unused_cons e x evs : unused x evs → unused x (e :: evs).
Proof. intros [l ->]. by exists (e :: l). Qed.

Lemma unused_attempt a x rest : unused x (events_of a ++ rest) ↔ unused x rest.
Proof.
  split; [|intros Hu; by do 3 apply unused_cons]. intros [l E].
  destruct l as [|? [|? [|? l]]]; cbn in E; simplify_eq. by exists l.
Qed.

Lemma turned_down_next c c' x :
  next_round c c' → interference c.2 c'.2 → turned_down c' x → turned_down c x.
Proof.
  intros Hc Hw (s & io & w & sel & pk & w' & Hr & ? & ?). exists s, io, w, sel, pk, w'.
  split; [by eapply rtc_l|]. split; [by etransitivity|done].
Qed.

(** The peers of a state after a round are those before it, one more tried. *)
Lemma covered_next c c' evs x rest xs :
  next_round c c' → interference c.2 c'.2 → picks evs = [x] →
  tried (rrp (lp_pk c'.1.1)) = {[x]} ∪ tried (rrp (lp_pk c.1.1)) →
  covered c' rest xs → covered c (evs ++ rest) xs.
Proof.
  intros Hc Hw Ep Et Hcov y Hy. rewrite picks_app, Ep, elem_of_app, list_elem_of_singleton.
  destruct (Hcov y Hy) as [Hy'|[?|?]].
  - rewrite Et in Hy'. set_solver.
  - auto.
  - right; right. by eapply turned_down_next.
Qed.

(** What a selection exhausted is covered. *)
Lemma exhausted_covered s io w evs xs tr sel pk w' :
  pick (lp_pk s) w = Ret (sel, pk, w') → exhausted xs tr w w' →
  tr = tried (rrp (lp_pk s)) → covered (s, io, w) evs xs.
Proof.
  intros E Hex -> x Hx. destruct (Hex x Hx) as [?|Hu]; [by left|right; right].
  exists s, io, w, sel, pk, w'. split; [apply rtc_refl|]. by split.
Qed.
End rounds.
Arguments conf P : clear implicits.

(** ** The loop *)

Section loop.
Context {P : Type} `{PickerLaws P}.
Context (t : Transport) (ups : upstream) (key : upstreamKey) (req baseReq : Request).
Context (getBody : option GetBodyFn) (rt : RoundTripper) (C : list Z) (D : gset nat).
Implicit Types (s : loop_state P).

Notation ends := (loop_ends (P := P) t ups key req baseReq getBody rt).
Notation post := (round_post (P := P) t ups req baseReq getBody rt C D).
Notation inv := (loop_inv (P := P) t req baseReq getBody C D).

(** A round that returns. *)
Lemma round_ends s io w evs res io' w' :
  inv s io w → post s io w evs (inr res) io' w' → ends (s, io, w) evs res.
Proof.
  intros Hi Hp.
  destruct (rp_selects _ _ _ _ _ _ _ _ _ _ _ _ _ _ _ Hp)
    as [(_ & i & e & E & [= ->])|([x|] & pk1 & w1 & E & He & Hpk & Hr)].
  - by eapply le_cancelled.
  - pose proof (rp_shape _ _ _ _ _ _ _ _ _ _ _ _ _ _ _ Hp) as Hs.
    inversion Hs as [| | |x' e Hwhy|a pk w2 w3 r Hok Hc]; subst; try done.
    + apply (le_unused _ _ _ _ _ _ _ _ _ x'); [by exists []|].
      by apply (rp_unused _ _ _ _ _ _ _ _ _ _ _ _ _ _ _ Hp).
    + inversion Hc as [e He' [i Hi']|Hret|]; subst.
      * by eapply le_cancelled.
      * apply le_settled; [|done..].
        intros y. rewrite <-(app_nil_r (events_of a)), unused_attempt. by intros [[|? []] [=]].
  - injection Hr as ->. destruct (pe_none _ _ _ _ _ He eq_refl) as [H1 H2].
    assert (exchanges evs = []) as Hex.
    { destruct (rp_shape _ _ _ _ _ _ _ _ _ _ _ _ _ _ _ Hp); done. }
    replace (given_up s) with (from_option result_of (given_up s) (last (exchanges evs)))
      by (by rewrite Hex).
    apply (le_exhausted _ _ _ _ _ _ _ (s, io, w)); cbn [fst snd].
    + intros y Hy. by destruct (rp_shape _ _ _ _ _ _ _ _ _ _ _ _ _ _ _ Hp), Hy as [[|? []] [=]].
    + intros Hb. eapply exhausted_covered; [exact E|by apply H1|done].
    + eapply exhausted_covered; [exact E|exact H2|]. apply phase_ok_base, Hi.
Qed.

(** With an attempt to be retried behind it, the loop gives up with its result. *)
Lemma given_up_result (a : Attempt) (s1 : loop_state P) pk w w' rest res :
  concluded t rt req pk w (at_ex a) w' (at_kind a) (inl s1) →
  from_option result_of (given_up s1) (last (exchanges rest)) =
  from_option result_of res (last (exchanges (events_of a ++ rest))).
Proof.
  unfold exchanges. rewrite omap_app, last_app. fold (exchanges rest).
  intros Hc. inversion Hc as [| |pk' Hr Hro]; subst. destruct (last (exchanges rest)); [done|].
  cbn. unfold given_up. cbn [lastResp lastErr]. pose proof (result_of_some (at_ex a)) as Hn.
  destruct (result_of (at_ex a)) as [[r|] [e|]]; try done. by destruct Hn.
Qed.

(** A round after which the loop goes on. *)
Lemma ends_next s io w evs s1 io1 w1 rest res :
  attempt_round t ups key req baseReq getBody s io w = Ret (inl s1, io1, w1) →
  post s io w evs (inl s1) io1 w1 → ends (s1, io1, w1) rest res →
  ends (s, io, w) (evs ++ rest) res.
Proof.
  intros Hround Hp Hends.
  pose proof (next_round_intro t ups key req baseReq getBody _ _ _ _ _ _ Hround) as Hnext.
  destruct (rp_next _ _ _ _ _ _ _ _ _ _ _ _ _ _ _ Hp s1 eq_refl) as (_ & _ & (x & Ex & Ht) & _).
  destruct (rp_selects _ _ _ _ _ _ _ _ _ _ _ _ _ _ _ Hp)
    as [(_ & i & e & _ & [=])|([y|] & pk1 & w2 & E & He & Hpk & Hr)]; [|done].
  destruct (Hr s1 eq_refl) as [[Hg Hb] Hph]. clear Hr.
  pose proof (rp_shape _ _ _ _ _ _ _ _ _ _ _ _ _ _ _ Hp) as Hs.
  inversion Hs as [| | | |a pk w3 w4 r Hok Hc]; subst.
  pose proof (λ xs, covered_next _ _ _ _ _ _ _ _ _ x rest xs Hnext
    (rp_world _ _ _ _ _ _ _ _ _ _ _ _ _ _ _ Hp) Ex Ht) as Hcov.
  inversion Hends as [e i Hctx|z e Hz Hwhy|ex Hun Hex Hret|Hun Hprim Hback]; subst.
  - by eapply le_cancelled.
  - apply (le_unused _ _ _ _ _ _ _ _ _ z); [by rewrite unused_attempt|].
    destruct Hwhy as [?|Hf]; [by left|right].
    by eapply body_fails_frame; [apply (rp_frame _ _ _ _ _ _ _ _ _ _ _ _ _ _ _ Hp)|].
  - apply le_settled; [by intros z; rewrite unused_attempt| |done].
    unfold exchanges. rewrite omap_app, last_app. fold (exchanges rest). by rewrite Hex.
  - cbn [fst snd] in *. rewrite (given_up_result a s1 pk w3 w4 rest (given_up s) Hc).
    apply (le_exhausted _ _ _ _ _ _ _ (s, io, w)); cbn [fst snd].
    + by intros z; rewrite unused_attempt.
    + intros Hb0. destruct (backupPhase (rrp pk1)) eqn:Eb;
        [|rewrite <-Hg; apply Hcov, Hprim; by rewrite Hph].
      eapply exhausted_covered; [exact E|by apply (pe_backup _ _ _ _ _ He y)|done].
    + unfold backup_members. rewrite <-Hb. by apply Hcov.
Qed.

Lemma attempt_loop_ends fuel s io w res io' w' :
  loop_env t ups req baseReq getBody rt D → inv s io w →
  attempt_loop fuel t ups key req baseReq getBody s io w = Ret (Some res, io', w') →
  ∃ evs, log io' = log io ++ evs ∧ ends (s, io, w) evs res.
Proof.
  intros He. revert s io w. induction fuel as [|fuel IH]; intros s io w Hi E; [done|].
  cbn [attempt_loop] in E. apply bind_inv in E as (r & io1 & w1 & E1 & E2).
  pose proof (round_spec t ups key req baseReq getBody rt C D s io w He Hi) as Hr.
  rewrite (wp_eq _ _ _ _ _ _ _ E1) in Hr. destruct Hr as [evs Hp]. destruct r as [s1|res1].
  - destruct (rp_next _ _ _ _ _ _ _ _ _ _ _ _ _ _ _ Hp s1 eq_refl) as (Hi1 & _).
    destruct (IH s1 io1 w1 Hi1 E2) as (rest & El & Hends). exists (evs ++ rest).
    split; [|by eapply ends_next].
    by rewrite El, (rp_log _ _ _ _ _ _ _ _ _ _ _ _ _ _ _ Hp), <-app_assoc.
  - injection E2 as <- <- <-. exists evs. split; [apply Hp|by eapply round_ends].
Qed.
End loop.

(** ** The request *)

Section trips.
Context (t : Transport) (ups : upstream) (req : Request) (rt : RoundTripper).
Context (pk : AnyPicker) (C : list Z) (io : IO) (w : World).

Notation preparation :=
  (prepareBody (maxBodyBuffer t) req (requestBodyMayNeedReplay t ups req) (count_poll io) w).

(** How a request ended, with the body as it was prepared. *)
Inductive trip_ends (evs : list Event) : Results → Prop :=
  | trip_cancelled e i : evs = [] → ctx_results req i = Some e → trip_ends evs (None, Some e)
  | trip_unprepared g c e req' io1 :
      preparation = Ret ((g, c, Some e, req'), io1, w) → evs = [] →
      req_Body req ≠ None → faulty io → trip_ends evs (None, Some e)
  | trip_looped g c baseReq io1 key res :
      preparation = Ret ((g, c, None, baseReq), io1, w) → same_request req baseReq →
      (∀ f, g = Some f → may_fail f io1 → may_fail f io) →
      (∀ f, g = Some f → GetBody req = Some f ∨ user_function f = false ∧ req_Body req ≠ None) →
      run t ups req baseReq g rt C (MkLoop pk None None) evs res →
      loop_ends t ups key req baseReq g rt (MkLoop pk None None, io1, w) evs res →
      trip_ends evs res.

Lemma balanced_trip_ends fuel key res io' w' :
  trip_env t ups req rt pk C io w → (remaining (rrp pk) < fuel)%nat →
  balanced_trip fuel t ups key req (count_poll io) w = Ret (Some res, io', w') →
  ∃ evs, log io' = log io ++ evs ∧ trip_ends evs res.
Proof.
  intros He0 Hfuel E. pose proof (trip_env_poll _ _ _ _ _ _ _ _ He0) as He.
  unfold balanced_trip in E. rewrite (te_picker _ _ _ _ _ _ _ _ He) in E.
  apply bind_inv in E as ([[[g c] err] base] & io1 & w1 & E1 & E).
  pose proof (prepareBody_spec _ C _ (requestBodyMayNeedReplay t ups req) _ w
    (te_body _ _ _ _ _ _ _ _ He)) as Hp.
  rewrite (wp_eq _ _ _ _ _ _ _ E1) in Hp. destruct Hp as [-> Hp].
  pose proof (pp_log _ _ _ _ _ _ _ Hp) as Hl. cbn [fst snd] in *.
  destruct err as [e|].
  { injection E as <- <- <-. exists []. rewrite app_nil_r. split; [exact Hl|].
    destruct (pp_err _ _ _ _ _ _ _ Hp e eq_refl) as (_ & _ & _ & ? & ?).
    by eapply trip_unprepared. }
  destruct (trip_loop_env _ _ _ _ _ _ _ _ _ _ _ _ He Hp) as [Henv Hinv].
  apply bind_inv in E as (r & io2 & w2 & E2 & E). apply bind_inv in E as (? & io3 & w3 & E3 & E).
  injection E as -> -> ->.
  pose proof (attempt_loop_spec _ _ key _ _ _ _ _ _ fuel _ _ _ Henv Hinv Hfuel) as Hloop.
  rewrite (wp_eq _ _ _ _ _ _ _ E2) in Hloop. destruct Hloop as (res' & evs' & [= ->] & Hloop).
  destruct (attempt_loop_ends _ _ key _ _ _ _ _ _ fuel _ _ _ _ _ _ Henv Hinv E2)
    as (evs & El & Hends).
  pose proof (te_body _ _ _ _ _ _ _ _ He) as Hpre.
  pose proof (cleanup_spec _ _ _ _ _ _ _ io2 w2 Hp eq_refl (pr_tmp _ _ _ _ Hpre)
    (pr_body _ _ _ _ Hpre) (lo_frame _ _ _ _ _ _ _ _ _ _ _ _ _ _ _ Hloop)
    (lo_tmp _ _ _ _ _ _ _ _ _ _ _ _ _ _ _ Hloop)) as Hc.
  cbn [fst snd] in Hc. rewrite (wp_eq _ _ _ _ _ _ _ E3) in Hc.
  destruct Hc as (-> & _ & _ & Hl3 & _).
  assert (evs' = evs) as ->.
  { pose proof (lo_log _ _ _ _ _ _ _ _ _ _ _ _ _ _ _ Hloop) as El'.
    rewrite El in El'. by apply app_inv_head in El'. }
  exists evs. split; [by rewrite Hl3, El, Hl|].
  eapply trip_looped; [exact E1|apply Hp| | |apply Hloop|exact Hends].
  - intros f _. apply (may_fail_frame _ _ (count_poll io) _ (pp_frame _ _ _ _ _ _ _ Hp)).
  - intros f ->. destruct (pp_getBody _ _ _ _ _ _ _ Hp f eq_refl eq_refl) as ([[? _]|?] & _); auto.
Qed.

Lemma RoundTrip_ends fuel res io' w' :
  trip_env t ups req rt pk C io w → (remaining (rrp pk) < fuel)%nat →
  RoundTrip fuel (Some t) (Some req) io w = Ret (Some res, io', w') →
  ∃ evs, log io' = log io ++ evs ∧ trip_ends evs res.
Proof.
  intros He Hfuel E. unfold RoundTrip in E. rewrite (te_ok _ _ _ _ _ _ _ _ He) in E.
  destruct (te_upstream _ _ _ _ _ _ _ _ He) as (u & Eu & Eups). rewrite Eu in E.
  pose proof (te_transport _ _ _ _ _ _ _ _ He) as Ht.
  destruct (transport t) as [rt0|] eqn:Ert; [clear Ht|done].
  apply bind_inv in E as (err & io1 & w1 & E1 & E). unfold ctx_Err in E1.
  injection E1 as <- <- <-.
  destruct (ctx_results req (polls io)) as [e|] eqn:Ectx; cbn [fst snd] in *.
  - pose proof (failRoundTrip_spec t ups req rt pk C io (count_poll io) w e
      (pr_body _ _ _ _ (te_body _ _ _ _ _ _ _ _ He)) (proj1 (frame_count_poll _ io)) eq_refl eq_refl) as Hf.
    apply bind_inv in E as (r & io2 & w2 & E2 & E). rewrite (wp_eq _ _ _ _ _ _ _ E2) in Hf.
    injection E as -> -> ->. destruct Hf as [Hf ->]. exists []. split; [apply Hf|].
    apply bind_inv in E2 as (? & ? & ? & _ & [= <- _ _]). by eapply trip_cancelled.
  - rewrite Eups in E. by eapply balanced_trip_ends.
Qed.

(** C15: RoundTrip gives up only when nothing is left to try. It returns an error
    of its own because the caller's context is done, because there was a body
    that could not be prepared in a world whose operations fail, or because the
    last selected peer was given back unused (it has no address, or the body
    function failed, which one of the transport does in such a world only); it returns the result of an exchange whose decision is
    final; or else every peer of the upstream, primary or backup, was tried, or
    was found down, saturated or in quarantine by a selection this request made,
    and then the result of the last attempt is returned, or ErrNoPeerAvailable
    without one. *)
Theorem RoundTrip_exhausts (fuel : nat) :
  trip_env t ups req rt pk C io w → (remaining (rrp pk) < fuel)%nat →
  ∃ res io' w' evs, RoundTrip fuel (Some t) (Some req) io w = Ret (Some res, io', w') ∧
    log io' = log io ++ evs ∧
    ((∃ e, res = (None, Some e) ∧
        ((∃ i, ctx_results req i = Some e) ∨
         (∃ g c req' io1, preparation = Ret ((g, c, Some e, req'), io1, w) ∧ evs = [] ∧
            req_Body req ≠ None ∧ faulty io) ∨
         ∃ x, unused x evs ∧
           (backends ups !! x = None ∨
            ∃ g c req' io1, preparation = Ret ((Some g, c, None, req'), io1, w) ∧
              may_fail g io))) ∨
     (∃ ex, last (exchanges evs) = Some ex ∧ res = result_of ex ∧
        retry (decision_of t rt req ex) = false) ∨
     (res = from_option result_of (None, Some (Retry ErrNoPeerAvailable)) (last (exchanges evs)) ∧
      ∃ g c baseReq io1 key, preparation = Ret ((g, c, None, baseReq), io1, w) ∧
        ∀ x, x ∈ members pk → x ∈ picks evs ∨
          turned_down t ups key req baseReq g (MkLoop pk None None, io1, w) x)).
Proof.
  intros He Hfuel. destruct (newPicker_fresh _ _ _ (te_picker _ _ _ _ _ _ _ _ He)) as [Htr Hph].
  destruct (proj1 (wp_exists _ _ _ _) (RoundTrip_spec _ _ _ _ _ _ _ _ _ He Hfuel))
    as (r & io' & w' & E & res & _ & -> & _).
  destruct (RoundTrip_ends _ _ _ _ He Hfuel E) as (evs & El & Hends).
  exists res, io', w', evs. split; [exact E|]. split; [exact El|].
  destruct Hends as [e i -> Hctx|g c e req' io1 Hp -> Hb Hbad|g c base io1 key res Hp _ Hfail _ _ Hends].
  - left. exists e. eauto.
  - left. exists e. split; [done|]. right; left. exists g, c, req', io1. done.
  - destruct Hends as [e i Hctx|x e Hx Hwhy|ex _ Hex Hret|_ Hprim Hback].
    + left. exists e. eauto.
    + left. exists e. split; [done|]. right; right. exists x. split; [done|].
      destruct Hwhy as [?|(f & -> & Hf)]; [by left|right]. exists f, c, base, io1. auto.
    + right; left. eauto.
    + right; right. split; [done|]. exists g, c, base, io1, key. split; [exact Hp|].
      intros x [Hx|Hx]%elem_of_app; [apply (Hprim Hph) in Hx|apply Hback in Hx];
        cbn [fst snd lp_pk] in Hx; rewrite Htr in Hx; (destruct Hx as [Hx|?]; [set_solver|done]).
Qed.
End trips.

(** Two backends, of which the first refuses. *)
Lemma RoundTrip_exhausts_witness :
  let prepare := prepareBody 100 (demo_req "PUT") true (count_poll demo_io) demo_world in
  ∃ res io' w' evs,
    RoundTrip 3 (Some demo_t) (Some (demo_req "PUT")) demo_io demo_world = Ret (Some res, io', w') ∧
    log io' = [] ++ evs ∧
    ((∃ e, res = (None, Some e) ∧
        ((∃ i, ctx_results (demo_req "PUT") i = Some e) ∨
         (∃ g c req' io1, prepare = Ret ((g, c, Some e, req'), io1, demo_world) ∧ evs = [] ∧
            req_Body (demo_req "PUT") ≠ None ∧ faulty demo_io) ∨
         ∃ x, unused x evs ∧
           (backends demo_ups !! x = None ∨
            ∃ g c req' io1, prepare = Ret ((Some g, c, None, req'), io1, demo_world) ∧
              may_fail g demo_io))) ∨
     (∃ ex, last (exchanges evs) = Some ex ∧ res = result_of ex ∧
        retry (decision_of demo_t demo_rt (demo_req "PUT") ex) = false) ∨
     (res = from_option result_of (None, Some (Retry ErrNoPeerAvailable)) (last (exchanges evs)) ∧
      ∃ g c baseReq io1 key, prepare = Ret ((g, c, None, baseReq), io1, demo_world) ∧
        ∀ x, x ∈ members demo_pk → x ∈ picks evs ∨
          turned_down demo_t demo_ups key (demo_req "PUT") baseReq g
            (MkLoop demo_pk None None, io1, demo_world) x)).
Proof.
  apply (RoundTrip_exhausts demo_t demo_ups (demo_req "PUT") demo_rt demo_pk [1; 2; 3]
    demo_io demo_world 3 (demo_env "PUT")). vm_compute. lia.
Defined.
