(* ===== verification/Failover.v ===== *)
(** * One healthy backend is enough

    What the retries are for: as long as one backend of the upstream answers,
    the caller of a request that may be repeated gets an answer, whatever the
    other backends do.  Service states it of a configuration. *)

From S2P Require Import Prelude GoLib Peer RoundRobin Picker LeastConn IPHash Hash CHash Random Http Body ClientIP Balancers Config RoundTrip Decisions Attempts Trip Exhaustion.
#[local] Open Scope Z_scope.

(** A peer that is always selectable: up, without [max_conns], and with the
    [max_fails] that switches the failure accounting off. *)
Definition unlimited (pr : Peer) : Prop :=
  Down pr = false ∧ MaxConns pr <= 0 ∧ MaxFails pr <= 0.

Lemma unlimited_choosable (h h' : Heap) x c t0 t1 :
  unlimited (h !!! x) → static (h' !!! x) = static (h !!! x) → ¬ unchoosable h' x c t0 t1.
Proof.
  intros (Hd & Hc & Hf) (_ & _ & Ed & Ec & Ef & _)%static_fields. unfold unchoosable.
  rewrite Ed, Hd. unfold conns_full, failed_out. rewrite Ec, Ef.
  rewrite !(proj2 (Z.ltb_ge 0 _)) by done. cbn [andb]. by intros [?|[?|(i & _ & ?)]].
Qed.

Lemma turned_down_limited {P} `{PickerLaws P} t ups key req baseReq getBody (c : conf P) x :
  turned_down t ups key req baseReq getBody c x → ¬ unlimited (heap c.2 !!! x).
Proof.
  intros (s & io & w & sel & pk & w' & _ & [_ [Hst _]] & _ & Hu) Hx.
  by apply (unlimited_choosable _ _ _ _ _ _ Hx (Hst x)) in Hu.
Qed.

(** Every answer of the backend settles the request. *)
Definition answers (t : Transport) (rt : RoundTripper) (addr : backendAddr) : Prop :=
  ∀ ex, served rt ex → Scheme (ex_to ex) = addr_scheme addr → URL_Host (ex_to ex) = addr_host addr →
    shouldRetry t (result_of ex).1 (result_of ex).2 = false.

Lemma retry_gate_open t req rt ex :
  gated t req = false →
  retry (decision_of t rt req ex) = shouldRetry t (result_of ex).1 (result_of ex).2.
Proof.
  unfold gated, decision_of, decideAttempt. intros Hg. rewrite <-andb_assoc, Hg, andb_false_r.
  destruct (shouldRetry _ _ _); [|done]. by destruct (result_of ex) as [[r|] [e|]]; cbn; repeat case_match.
Qed.

(** A peer that was selected was sent the request, unless it was given back. *)
Lemma run_pick {P} `{PickerLaws P} t ups req baseReq getBody rt C (s : loop_state P) evs res x :
  run t ups req baseReq getBody rt C s evs res → x ∈ picks evs →
  (∃ a, at_peer a = x ∧ at_ex a ∈ exchanges evs ∧ attempt_ok ups baseReq getBody rt C a) ∨
  unused x evs.
Proof.
  induction 1 as [s evs res Hs|s evs s' rest res Hs _ IH].
  - destruct Hs as [| | |y e|a pk w w' r Hok]; cbn [picks omap list_omap events_of];
      try (by intros ?%not_elem_of_nil); intros ->%list_elem_of_singleton.
    + right. by exists [].
    + left. exists a. split_and!; [done|by left|done].
  - inversion Hs as [| | | |a pk w w' r Hok]; subst. rewrite picks_app, elem_of_app.
    rewrite unused_attempt. unfold exchanges. rewrite omap_app.
    intros [->%list_elem_of_singleton|Hx]; [|destruct (IH Hx) as [(b & ? & ? & ?)|?]; [|by right]];
      left; [exists a|exists b]; (split_and!; [done|apply elem_of_app|done]).
    + left. by left.
    + by right.
Qed.

Section failover.
Context (t : Transport) (ups : upstream) (key : upstreamKey) (req baseReq : Request).
Context (getBody : option GetBodyFn) (rt : RoundTripper).
Context (pk : AnyPicker) (C : list Z) (x : PeerId) (addr : backendAddr).
Hypothesis gate_open : gated t req = false.
Hypothesis addr_x : backends ups !! x = Some addr.
Hypothesis backend_answers : answers t rt addr.

(** The exchange with that backend is the last one. *)
Lemma answered_last u s evs res :
  req_URL baseReq = Some u → run t ups req baseReq getBody rt C s evs res →
  (∀ y, ¬ unused y evs) → x ∈ picks evs →
  ∃ ex, last (exchanges evs) = Some ex ∧
    shouldRetry t (result_of ex).1 (result_of ex).2 = false.
Proof using gate_open addr_x backend_answers.
  intros Hu Hrun Hun Hx.
  destruct (run_pick _ _ _ _ _ _ _ _ _ _ _ Hrun Hx) as [(a & Ea & Hin & Ha)|[]%Hun].
  destruct (ao_to _ _ _ _ _ _ Ha) as (addr' & Eaddr & Hto). rewrite Ea, addr_x in Eaddr.
  injection Eaddr as <-. specialize (Hto u Hu).
  assert (shouldRetry t (result_of (at_ex a)).1 (result_of (at_ex a)).2 = false) as Hno
    by (apply backend_answers; [apply Ha|by rewrite Hto..]).
  exists (at_ex a). split; [|done]. apply list_elem_of_split in Hin as (l & l' & El).
  destruct l' as [|ex' l']; [by rewrite El, last_snoc|].
  pose proof (run_retried _ _ _ _ _ _ _ _ _ _ _ _ _ Hrun El) as Hr.
  rewrite retry_gate_open in Hr by done. rewrite Hr in Hno by done. done.
Qed.

Lemma loop_failover u io w evs res :
  req_URL baseReq = Some u → (∀ i, ctx_results req i = None) → ¬ body_fails getBody io →
  (∀ y, y ∈ picks evs → is_some (backends ups !! y) = true) →
  tried (rrp pk) = ∅ → backupPhase (rrp pk) = false →
  x ∈ members pk → unlimited (heap w !!! x) →
  run t ups req baseReq getBody rt C (MkLoop pk None None) evs res →
  loop_ends t ups key req baseReq getBody rt (MkLoop pk None None, io, w) evs res →
  ∃ ex, last (exchanges evs) = Some ex ∧ res = result_of ex ∧
    shouldRetry t (result_of ex).1 (result_of ex).2 = false.
Proof using gate_open addr_x backend_answers.
  intros Hu Hctx Hbody Hback Htr Hph Hx Hlim Hrun Hends.
  destruct Hends as [e i Hi|y e [l ->] Hwhy|ex _ Hex Hret|Hun Hprim Hbak].
  - by rewrite Hctx in Hi.
  - assert (is_some (backends ups !! y) = true) as Hy.
    { apply Hback. rewrite picks_app. apply elem_of_app. right. by left. }
    destruct Hwhy as [Hwhy|?]; [|done]. by rewrite Hwhy in Hy.
  - exists ex. split_and!; [done|done|]. by rewrite <-(retry_gate_open t req rt).
  - assert (x ∈ picks evs) as Hpick.
    { apply elem_of_app in Hx as [Hx|Hx]; [apply (Hprim Hph) in Hx|apply Hbak in Hx];
        cbn [fst snd lp_pk] in Hx; rewrite Htr in Hx;
        (destruct Hx as [?|[?|Hd]]; [set_solver|done|by apply turned_down_limited in Hd]). }
    destruct (answered_last u _ _ _ Hu Hrun Hun Hpick) as (ex & El & ?).
    exists ex. rewrite El. by split_and!.
Qed.
End failover.

(** The same of RoundTrip. *)
Lemma trip_failover (t : Transport) (ups : upstream) (req : Request) (rt : RoundTripper)
    (pk : AnyPicker) (C : list Z) (io : IO) (w : World) (fuel : nat) (x : PeerId)
    (addr : backendAddr) :
  trip_env t ups req rt pk C io w → (remaining (rrp pk) < fuel)%nat →
  req_Body req = None ∨ ¬ faulty io → (∀ g, GetBody req = Some g → ¬ may_fail g io) →
  (∀ i, ctx_results req i = None) → gated t req = false →
  (∀ y, y ∈ members pk → is_some (backends ups !! y) = true) →
  x ∈ members pk → unlimited (heap w !!! x) → backends ups !! x = Some addr →
  answers t rt addr →
  ∃ res io' w' evs ex, RoundTrip fuel (Some t) (Some req) io w = Ret (Some res, io', w') ∧
    log io' = log io ++ evs ∧ last (exchanges evs) = Some ex ∧ res = result_of ex ∧
    shouldRetry t res.1 res.2 = false.
Proof.
  intros He Hfuel Hbody Hget Hctx Hgate Hback Hx Hlim Haddr Hans.
  destruct (newPicker_fresh _ _ _ (te_picker _ _ _ _ _ _ _ _ He)) as [Htr Hph].
  destruct (proj1 (wp_exists _ _ _ _) (RoundTrip_spec _ _ _ _ _ _ _ _ _ He Hfuel))
    as (r & io' & w' & E & res & evs0 & -> & Hp).
  destruct (RoundTrip_ends _ _ _ _ _ C _ _ _ _ _ _ He Hfuel E) as (evs & El & Hends).
  assert (evs0 = evs) as ->.
  { pose proof (tr_log _ _ _ _ _ _ _ _ _ _ _ _ Hp) as El'. rewrite El in El'.
    by apply app_inv_head in El'. }
  destruct (te_upstream _ _ _ _ _ _ _ _ He) as (u & Eu & _).
  assert (∀ y, y ∈ picks evs → is_some (backends ups !! y) = true) as Hpicks.
  { intros y Hy. apply Hback. by apply (tr_picks _ _ _ _ _ _ _ _ _ _ _ _ Hp). }
  destruct Hends as [e i _ Hi|g c e req' io1 _ _ Hsome Hbad|
    g c base io1 key res Hprep Hsame Hfail Hown Hrun Hends].
  - by rewrite Hctx in Hi.
  - by destruct Hbody.
  - destruct (same_request_fields _ _ Hsame) as (_ & Eu' & _). rewrite Eu in Eu'.
    assert (¬ body_fails g io1) as Hnf.
    { intros (f & -> & Hf%(Hfail f eq_refl)).
      destruct (Hown f eq_refl) as [Eg|[Euf Hsome]]; [by apply (Hget f Eg)|].
      destruct f; [done|]. by destruct Hbody. }
    destruct (loop_failover t ups key req base g rt pk C x addr Hgate Haddr Hans u _ _ _ _ Eu' Hctx
      Hnf Hpicks Htr Hph Hx Hlim Hrun Hends) as (ex & Hl & -> & ?).
    by exists (result_of ex), io', w', evs, ex.
Qed.
