(* ===== verification/Contract.v ===== *)
(** * RoundTrip on the calls that reach no upstream

    A call is rejected by one of the guards of RoundTrip, or passed to the base
    RoundTripper when no upstream is registered for its URL, or it is the
    request of an upstream (Trip).  The body is closed whenever RoundTrip fails
    before it, as the contract of [http.RoundTripper] demands. *)

From S2P Require Import Prelude GoLib Peer RoundRobin Picker Http Body Balancers Config RoundTrip Attempts Trip.
#[local] Open Scope Z_scope.

(** The guards, in the order of the code, with the error each returns. *)
Inductive rejected : option Transport → option Request → IO → GoError → Prop :=
  | rejected_nil_transport req io : rejected None req io (Sentinel ErrNilRoundTripper)
  | rejected_init t req io e : initErr t = Some e → rejected (Some t) req io e
  | rejected_nil_request t io :
      initErr t = None → rejected (Some t) None io (Sentinel ErrNilRequest)
  | rejected_nil_URL t r io :
      initErr t = None → req_URL r = None → rejected (Some t) (Some r) io (Sentinel ErrNilRequestURL)
  | rejected_nil_base t r io u :
      initErr t = None → req_URL r = Some u → transport t = None →
      rejected (Some t) (Some r) io (Sentinel ErrNilRoundTripper)
  | rejected_cancelled t r io u rt e :
      initErr t = None → req_URL r = Some u → transport t = Some rt →
      ctx_results r (polls io) = Some e → rejected (Some t) (Some r) io e
  | rejected_no_balancer t r io u rt ups :
      initErr t = None → req_URL r = Some u → transport t = Some rt →
      ctx_results r (polls io) = None →
      upstreams t !! MkKey (Scheme u) (URL_Host u) = Some ups → balancer ups = None →
      rejected (Some t) (Some r) io (Sentinel ErrInvalidUpstreamConfig).

(** A request that passes the guards, with the base RoundTripper and the
    upstream of its URL. *)
Record admissible (t : Transport) (r : Request) (io : IO) (rt : RoundTripper) (u : URL)
    (found : option upstream) : Prop := {
  adm_init : initErr t = None;
  adm_URL : req_URL r = Some u;
  adm_base : transport t = Some rt;
  adm_ctx : ctx_results r (polls io) = None;
  adm_upstream : upstreams t !! MkKey (Scheme u) (URL_Host u) = found;
}.

Lemma call_cases t req io :
  (∃ e, rejected t req io e) ∨
  ∃ t' r rt u found, t = Some t' ∧ req = Some r ∧ admissible t' r io rt u found ∧
    match found with Some ups => is_some (balancer ups) = true | None => True end.
Proof.
  destruct t as [t|]; [|left; eexists; constructor].
  destruct (initErr t) as [e|] eqn:Ei; [left; eexists; by constructor|].
  destruct req as [r|]; [|left; eexists; by constructor].
  destruct (req_URL r) as [u|] eqn:Eu; [|left; eexists; by constructor].
  destruct (transport t) as [rt|] eqn:Et; [|left; eexists; by eapply rejected_nil_base].
  destruct (ctx_results r (polls io)) as [e|] eqn:Ec; [left; eexists; by eapply rejected_cancelled|].
  destruct (upstreams t !! MkKey (Scheme u) (URL_Host u)) as [ups|] eqn:Ep.
  - destruct (balancer ups) eqn:Eb; [|left; eexists; by eapply rejected_no_balancer].
    right. exists t, r, rt, u, (Some ups). rewrite Eb. by repeat split.
  - right. exists t, r, rt, u, None. by repeat split.
Qed.

(** A failure before the first exchange. *)
Definition failed_early (req : option Request) (e : GoError) (io : IO) (w : World)
    (r : option Results) (io' : IO) (w' : World) : Prop :=
  r = Some (None, Some e) ∧ w' = w ∧ log io' = log io ∧ tmp io' = tmp io ∧
  shut (req ≫= req_Body) io'.

Lemma fail_spec req e io io1 w :
  body_ok (req ≫= req_Body) io → io_frame (spared (req ≫= req_Body) io) io io1 →
  log io1 = log io → tmp io1 = tmp io →
  wp (r ← failRoundTrip req e; mret (Some r)) (failed_early req e io w) io1 w.
Proof.
  intros Hb Hf Hl Ht. unfold failRoundTrip, failed_early. wp_simpl.
  destruct (req ≫= req_Body) as [b|]; wp_simpl.
  - eapply wp_mono; [by apply (Close_body b io)|].
    intros [] io2 w2 (-> & (_ & Ht2 & Hl2) & Hs). wp_simpl.
    split_and!; congruence || done.
  - by split_and!.
Qed.

Lemma rejected_spec fuel t req io w e :
  body_ok (req ≫= req_Body) io → rejected t req io e →
  wp (RoundTrip fuel t req) (failed_early req e io w) io w.
Proof.
  intros Hb Hr.
  assert (∀ io1, quiet (spared (req ≫= req_Body) io) io io1 →
    wp (r ← failRoundTrip req e; mret (Some r)) (failed_early req e io w) io1 w) as Hfail.
  { intros io1 (Hf & Ht & Hl). by apply fail_spec. }
  pose proof (Hfail io (reflexivity io)) as Hnow.
  pose proof (Hfail (count_poll io) (frame_count_poll _ io)) as Hpolled. clear Hfail.
  destruct Hr as [req io|t req io e Ei|t io Ei|t r io Ei Eu|t r io u Ei Eu Et
                 |t r io u rt e Ei Eu Et Ec|t r io u rt ups Ei Eu Et Ec Ep Eb];
    unfold RoundTrip; rewrite ?Ei, ?Eu, ?Et; try exact Hnow;
    rewrite wp_bind, wp_ctx_Err, Ec; [exact Hpolled|].
  rewrite Ep. unfold balanced_trip, newPicker. by rewrite Eb.
Qed.

(** The exchange of a request that is passed through. *)
Lemma passed_spec fuel t r io w rt u :
  admissible t r io rt u None → RoundTripper_ok rt →
  wp (RoundTrip fuel (Some t) (Some r)) (λ res io' w', ∃ ex, res = Some (outcome ex) ∧
    exchanged rt r ∅ (count_poll io) w ex io' w') io w.
Proof.
  intros [Ei Eu Et Ec Ep] Hrt. unfold RoundTrip. rewrite Ei, Eu, Et.
  rewrite wp_bind, wp_ctx_Err, Ec, Ep, wp_bind. eapply wp_mono.
  { apply (roundTrip_spec rt r ∅); [done|set_solver|]. intros s _. set_solver. }
  intros res io' w' (ex & -> & Hx). wp_simpl. by exists ex.
Qed.

(** ** Claims *)

(** C18: the calls that reach no upstream. Every call is rejected, or passes the
    guards with an upstream for its URL that has a balancer, or without an
    upstream. A rejected call returns no response and the error of the first
    guard that fails, closes the request body, and neither selects a peer nor
    calls a RoundTripper. Without an upstream there is one exchange, with the
    caller's request, URL and body as they are, on the base RoundTripper;
    its result is returned, where no response and no error, or a response
    without a body, is an error. RoundTrip does not panic. *)
Theorem RoundTrip_without_upstream fuel t req io w :
  body_ok (req ≫= req_Body) io →
  ((∃ e, rejected t req io e) ∨
   ∃ t' r rt u found, t = Some t' ∧ req = Some r ∧ admissible t' r io rt u found ∧
     match found with Some ups => is_some (balancer ups) = true | None => True end) ∧
  (∀ e, rejected t req io e →
   ∃ io', RoundTrip fuel t req io w = Ret (Some (None, Some e), io', w) ∧
     log io' = log io ∧ tmp io' = tmp io ∧ shut (req ≫= req_Body) io') ∧
  (∀ t' r rt u, t = Some t' → req = Some r → admissible t' r io rt u None → RoundTripper_ok rt →
   ∃ ex io' w', RoundTrip fuel t req io w = Ret (Some (outcome ex), io', w') ∧
     log io' = log io ++ [EvServe ex] ∧ tmp io' = tmp io ∧ interference w w' ∧
     ex_to ex = u ∧ ex_body ex = readable (req_Body r) io ∧
     is_some (outcome ex).1 || is_some (outcome ex).2 = true ∧
     ∀ resp, (outcome ex).1 = Some resp → is_some (resp_Body resp) = true).
Proof.
  intros Hb. split; [apply call_cases|]. split.
  - intros e Hr. destruct (proj1 (wp_exists _ _ _ _) (rejected_spec fuel _ _ io w _ Hb Hr))
      as (r & io' & w' & E & -> & -> & ? & ? & ?). by exists io'.
  - intros t' r rt u -> -> Ha Hrt.
    destruct (proj1 (wp_exists _ _ _ _) (passed_spec fuel _ _ io w _ _ Ha Hrt))
      as (res & io' & w' & E & ex & -> & [X1 _ X3 X4 X5 _ X7 _ _ X9 _]).
    exists ex, io', w'. split_and!; try done.
    + by rewrite X5, (adm_URL _ _ _ _ _ _ Ha).
    + unfold outcome. by destruct (ex_resp ex) as [resp|], (ex_err ex); cbn; try done;
        destruct (resp_Body resp).
    + intros resp Hresp. by destruct (X9 resp Hresp) as (b & -> & _).
Qed.

(** ** A request to try the claim on

    The URL has no upstream; the base RoundTripper answers. *)
Definition demo_outside : Request :=
  MkRequest "GET" (Some (MkURL "http" "other" "/")) "" ∅ "" (Some (Obj 0)) None 3
    (λ _, None) None None.

Lemma RoundTrip_without_upstream_witness :
  ∃ ex io' w', RoundTrip 0 (Some demo_t) (Some demo_outside) demo_io demo_world =
      Ret (Some (outcome ex), io', w') ∧
    log io' = [] ++ [EvServe ex] ∧ tmp io' = tmp demo_io ∧ interference demo_world w' ∧
    ex_to ex = MkURL "http" "other" "/" ∧ ex_body ex = readable (Some (Obj 0)) demo_io ∧
    is_some (outcome ex).1 || is_some (outcome ex).2 = true ∧
    ∀ resp, (outcome ex).1 = Some resp → is_some (resp_Body resp) = true.
Proof.
  apply (proj2 (proj2 (RoundTrip_without_upstream 0 (Some demo_t) (Some demo_outside) demo_io
    demo_world (pr_body _ _ _ _ (te_body _ _ _ _ _ _ _ _ (demo_env "GET")))))
    demo_t demo_outside demo_rt (MkURL "http" "other" "/") eq_refl eq_refl); [|exact demo_rt_ok].
  constructor; vm_compute; reflexivity.
Defined.
