(* ===== verification/Traffic.v ===== *)
(** * Requests in the interleaving model

    What RoundTrip does to the shared peers is a sequence of the critical
    sections and releases of Concurrency, interleaved with those of the other
    requests: it starts and ends holding no peer, so the accounting of
    connections survives it. *)

From S2P Require Import Prelude GoLib Peer RoundRobin Picker SmoothWRR LeastConn Candidates IPHash Hash CHash Random Concurrency Http Body ClientIP Balancers Config RoundTrip Attempts Trip.
#[local] Open Scope Z_scope.

(** ** The pickers *)

Lemma zoom_Ret {P Q A} (get : P → Q) set (m : M Q A) p w a p' w' :
  zoom get set m p w = Ret (a, p', w') → ∃ q', m (get p) w = Ret (a, q', w') ∧ p' = set q' p.
Proof. unfold zoom. destruct (m (get p) w) as [[[a1 q'] w1]|]; [|done]. intros [= -> <- ->]. eauto. Qed.

Lemma as_any_Ret {P A} (inj : P → AnyPicker) (m : M P A) p w a v w' :
  as_any inj m p w = Ret (a, v, w') → ∃ p', m p w = Ret (a, p', w') ∧ v = inj p'.
Proof. unfold as_any. destruct (m p w) as [[[a1 p'] w1]|]; [|done]. intros [= -> <- ->]. eauto. Qed.

Lemma any_by_sections : by_sections AnyPicker.
Proof.
  intros v w r v' w' fl Hwf E.
  destruct v as [p|p|p|p|p|p]; apply as_any_Ret in E as (p' & E & ->); cbn [picker_wf any_laws any_wf] in Hwf.
  - by eapply rr_pick_reaches, E.
  - eapply lc_pick_reaches, E. apply Hwf.
  - by eapply ip_by_sections, E.
  - by eapply hash_by_sections, E.
  - by eapply chash_by_sections, E.
  - by eapply random_by_sections, E.
Qed.

(** A release of any picker is one of the system. *)
Definition releases (x : PeerId) (w w' : World) : Prop :=
  ∃ rr failed neutral rr', RoundRobin.done (Some x) failed neutral rr w = Ret (tt, rr', w').

Lemma any_release_releases x failed (v : AnyPicker) w u v' w' :
  release (Some x) failed v w = Ret (u, v', w') → releases x w w'.
Proof.
  intros E. destruct u.
  destruct v as [p|p|p|p|p|p]; apply as_any_Ret in E as (p' & E & _);
    [by eexists p, failed, false, p'|..]; apply zoom_Ret in E as (q & E & _);
    by eexists _, failed, false, q.
Qed.

Lemma any_neutral_releases x (v : AnyPicker) w u v' w' :
  release_neutral (Some x) v w = Ret (u, v', w') → releases x w w'.
Proof.
  intros E. destruct u.
  destruct v as [p|p|p|p|p|p]; apply as_any_Ret in E as (p' & E & _);
    [by eexists p, false, true, p'|..]; apply zoom_Ret in E as (q & E & _);
    by eexists _, false, true, q.
Qed.

(** ** Executions of the system *)

(** An execution; the order of the peers in flight does not matter. *)
Definition exec (w : World) (fl : list PeerId) (w' : World) (fl' : list PeerId) : Prop :=
  ∃ l, rtc sys_step (MkSys w fl) (MkSys w' l) ∧ l ≡ₚ fl'.

Lemma step_perm s s' l :
  sys_step s s' → inflight s ≡ₚ l →
  ∃ l', sys_step (MkSys (sys_world s) l) (MkSys (sys_world s') l') ∧ inflight s' ≡ₚ l'.
Proof.
  intros [sec w r w' fl Hok E|rr x failed neutral rr' w w' fl1 fl2 E] Hl; cbn in Hl |- *.
  - eexists. split; [by apply (step_section sec)|]. by rewrite Hl.
  - assert (x ∈ l) as Hx by (rewrite <-Hl; set_solver).
    apply list_elem_of_split in Hx as (l1 & l2 & ->). exists (l1 ++ l2). split.
    + by eapply step_release.
    + apply (Permutation_cons_inv (a := x)). by rewrite !Permutation_middle.
Qed.

Lemma steps_perm s s' l :
  rtc sys_step s s' → inflight s ≡ₚ l → exec (sys_world s) l (sys_world s') (inflight s').
Proof.
  intros Hs. revert l. induction Hs as [s|s1 s2 s3 H12 _ IH]; intros l Hl.
  - exists l. by split; [apply rtc_refl|].
  - destruct (step_perm _ _ _ H12 Hl) as (l2 & Hstep & Hl2). destruct (IH l2 Hl2) as (l3 & H3 & Hp).
    exists l3. split; [by eapply rtc_l|done].
Qed.

Lemma exec_refl w fl : exec w fl w fl.
Proof. exists fl. by split; [apply rtc_refl|]. Qed.

Lemma exec_trans w1 fl1 w2 fl2 w3 fl3 :
  exec w1 fl1 w2 fl2 → exec w2 fl2 w3 fl3 → exec w1 fl1 w3 fl3.
Proof.
  intros (l2 & H12 & P2) (l3 & H23 & P3). symmetry in P2.
  destruct (steps_perm _ _ l2 H23 P2) as (l & H & P). exists l.
  split; [by etransitivity|]. cbn in P. by rewrite P.
Qed.

#[export] Instance exec_proper w : Proper ((≡ₚ) ==> (=) ==> (≡ₚ) ==> iff) (exec w).
Proof.
  assert (∀ fl1 fl2 w' l1 l2, fl1 ≡ₚ fl2 → l1 ≡ₚ l2 → exec w fl1 w' l1 → exec w fl2 w' l2) as H.
  { intros fl1 fl2 w' l1 l2 Hf Hl (l & Hs & P). destruct (steps_perm _ _ fl2 Hs Hf) as (l' & ? & P').
    exists l'. split; [done|]. cbn in P'. by rewrite P', P. }
  intros fl1 fl2 Hf w' _ <- l1 l2 Hl. split; by apply H.
Qed.

(** The peers that others hold do not matter to a step. *)
Lemma steps_frame s s' mine :
  rtc sys_step s s' →
  rtc sys_step (MkSys (sys_world s) (inflight s ++ mine)) (MkSys (sys_world s') (inflight s' ++ mine)).
Proof.
  induction 1 as [s|s1 s2 s3 H12 _ IH]; [done|]. eapply rtc_l; [|exact IH].
  destruct H12; cbn; rewrite <-!app_assoc; [by apply (step_section s)|by eapply step_release].
Qed.

Lemma exec_frame w fl w' fl' mine : exec w fl w' fl' → exec w (mine ++ fl) w' (mine ++ fl').
Proof.
  intros (l & Hs & <-). rewrite !(Permutation_app_comm mine).
  exists (l ++ mine). split; [|done]. exact (steps_frame _ _ mine Hs).
Qed.

Lemma exec_section w fl r w' : reaches w fl r w' → exec w fl w' (option_list r ++ fl).
Proof. intros. by eexists. Qed.

Lemma exec_release x w w' fl : releases x w w' → exec w (x :: fl) w' fl.
Proof.
  intros (rr & failed & neutral & rr' & E). exists fl. split; [|done].
  apply rtc_once. by apply (step_release rr x failed neutral rr' w w' []).
Qed.

Lemma exec_hsame w fl w' fl' : exec w fl w' fl' → hsame (heap w) (heap w').
Proof. intros (l & Hs & _). by apply steps_hsame in Hs. Qed.

Lemma accounted_perm w l l' : l ≡ₚ l' → accounted (MkSys w l) → accounted (MkSys w l').
Proof.
  intros P [Hc Hm Hi]. assert (∀ x, holders x l' = holders x l) as E.
  { intros x. unfold holders. by rewrite P. }
  split; cbn in *; [intros x; by rewrite E|intros x; rewrite E; apply Hm|done].
Qed.

Lemma exec_accounted w fl w' fl' :
  exec w fl w' fl' → accounted (MkSys w fl) → accounted (MkSys w' fl').
Proof.
  intros (l & Hs & P) Ha. apply (accounted_perm _ l); [done|].
  remember (MkSys w fl) as s. remember (MkSys w' l) as s'. clear -Hs Ha.
  induction Hs as [|s1 s2 s3 H12 _ IH]; [done|]. apply IH. by apply (sys_step_spec s1).
Qed.

(** ** Operations that leave the peers alone *)

Definition silent {A} (m : T A) : Prop := ∀ io w a io' w', m io w = Ret (a, io', w') → w' = w.

Lemma silent_ret {A} (a : A) : silent (mret a : T A).
Proof. by intros io w a' io' w' [= _ _ ->]. Qed.

Lemma silent_bind {A B} (m : T A) (k : A → T B) :
  silent m → (∀ a, silent (k a)) → silent (m ≫= k).
Proof.
  intros Hm Hk io w b io' w' E. apply bind_inv in E as (a & io1 & w1 & E1 & E2).
  apply Hm in E1 as ->. by eapply Hk.
Qed.

Lemma silent_throw {A} why : silent (throw why : T A).
Proof. by intros io w a io' w'. Qed.
Lemma silent_self : silent (self : T IO).
Proof. by intros io w a io' w' [= _ _ ->]. Qed.
Lemma silent_update f : silent (update f : T unit).
Proof. by intros io w a io' w' [= _ _ ->]. Qed.
Lemma silent_io_op : silent io_op.
Proof. by intros io w a io' w' [= _ _ ->]. Qed.
Lemma silent_ctx_Err req : silent (ctx_Err req).
Proof. by intros io w a io' w' [= _ _ ->]. Qed.
Lemma silent_NewReader bs : silent (NewReader bs).
Proof. by intros io w a io' w' [= _ _ ->]. Qed.
Lemma silent_traceRequestSent req : silent (traceRequestSent req).
Proof. by intros io w a io' w' [= _ _ ->]. Qed.
Lemma silent_attach_timeout d req : silent (attach_timeout d req).
Proof. intros io w a io' w'. unfold attach_timeout. case_match; by intros [= _ _ ->]. Qed.
Lemma silent_load x : silent (load x : T Peer).
Proof. by intros io w a io' w' [= _ _ ->]. Qed.

Lemma silent_on_stream {A} s (f : Stream → GoError + (A * Stream)) : silent (on_stream s f).
Proof.
  apply silent_bind; [apply silent_io_op|]. intros [e|]; [apply silent_ret|].
  intros io w a io' w'. repeat case_match; intros [= _ _ ->]; done.
Qed.

Lemma silent_createBodyTempFile : silent createBodyTempFile.
Proof.
  unfold createBodyTempFile. apply silent_bind; [apply silent_io_op|].
  intros [e|]; [apply silent_ret|]. by intros io w a io' w' [= _ _ ->].
Qed.

Lemma silent_close_stream s : silent (close_stream s).
Proof. apply silent_update. Qed.
Lemma silent_cancel c : silent (cancel c).
Proof. apply silent_update. Qed.
Lemma silent_Remove s : silent (Remove s).
Proof. apply silent_update. Qed.
Lemma silent_event e : silent (event e).
Proof. apply silent_update. Qed.

#[local] Hint Resolve silent_ret silent_bind silent_throw silent_self silent_update silent_io_op
  silent_ctx_Err silent_NewReader silent_traceRequestSent silent_attach_timeout silent_load
  silent_on_stream silent_createBodyTempFile silent_close_stream silent_cancel silent_Remove
  silent_event : silent.
#[local] Ltac silence := repeat first [progress intros | progress eauto 2 with silent nocore
  | lazymatch goal with |- silent (mbind _ _) => apply silent_bind end | case_match].

Lemma silent_Close b : silent (Close b).
Proof. induction b; cbn [Close]; silence. Qed.
#[local] Hint Resolve silent_Close : silent.

Lemma silent_close_file s : silent (close_file s).
Proof. unfold close_file. silence. Qed.
#[local] Hint Resolve silent_close_file : silent.

Lemma silent_discard_file s : silent (discard_file s).
Proof. unfold discard_file. silence. Qed.
#[local] Hint Resolve silent_discard_file : silent.

Lemma silent_closeLast r : silent (closeLast r).
Proof. unfold closeLast. silence. Qed.

Lemma silent_failRoundTrip req e : silent (failRoundTrip req e).
Proof. unfold failRoundTrip. silence. Qed.

Lemma silent_run_cleanup c : silent (run_cleanup c).
Proof. destruct c; cbn [run_cleanup]; silence. Qed.

Lemma silent_settle_timeout c r e : silent (settle_timeout c r e).
Proof. unfold settle_timeout. silence. Qed.

Lemma silent_or_discard {A} s (m : T (GoError + A)) k :
  silent m → (∀ a, silent (k a)) → silent (or_discard s m k).
Proof. intros Hm Hk. unfold or_discard. silence. Qed.

Lemma silent_replay r : silent (call_GetBody (ReplayBody r)).
Proof. destruct r; cbn [call_GetBody]; unfold Seek; silence. Qed.

Lemma silent_readBody limit b : silent (readBody limit b).
Proof.
  unfold readBody, readBodyWithFactory, ReadLimited. silence.
  all: repeat (apply silent_or_discard; [unfold WriteStream, ReadRest, Seek; silence|intros]); silence.
Qed.
#[local] Hint Resolve silent_closeLast silent_failRoundTrip silent_run_cleanup
  silent_settle_timeout silent_replay silent_readBody : silent.

Lemma silent_prepareBody limit req rp : silent (prepareBody limit req rp).
Proof. unfold prepareBody, prepareSeeker, prepareSpilledBody, Seek, Stat. silence. Qed.
#[local] Hint Resolve silent_prepareBody : silent.

(** What every result of an operation satisfies. *)
Definition returns {A} (m : T A) (P : A → Prop) : Prop :=
  ∀ io w a io' w', m io w = Ret (a, io', w') → P a.

Lemma returns_ret {A} (a : A) (P : A → Prop) : P a → returns (mret a) P.
Proof. by intros HP io w a' io' w' [= <- _ _]. Qed.

Lemma returns_bind {A B} (m : T A) (k : A → T B) P : (∀ a, returns (k a) P) → returns (m ≫= k) P.
Proof. intros Hk io w b io' w' E. apply bind_inv in E as (a & io1 & w1 & _ & E). by eapply Hk. Qed.

#[local] Ltac returned := repeat first [progress intros
  | lazymatch goal with |- returns (mbind _ _) _ => apply returns_bind end
  | apply returns_ret | case_match].

(** prepareBody hands out the caller's GetBody or a function of its own. *)
Definition own_or_caller (req : Request) (r : Prepared * Request) : Prop :=
  ∀ f, r.1.1.1 = Some (UserGetBody f) → GetBody req = Some (UserGetBody f).

Lemma prepareBody_source limit req rp : returns (prepareBody limit req rp) (own_or_caller req).
Proof.
  unfold prepareBody, prepareSeeker, prepareSpilledBody, own_or_caller. returned; cbn in *; congruence.
Qed.

(** ** The environment of a request

    [Held w fl]: in the world [w] the other requests hold the peers [fl].  What
    this request does does not change that; while a RoundTripper or a GetBody of
    the caller runs, the others go on with steps of their own. *)
Record environment (Held : World → list PeerId → Prop) (rt : RoundTripper)
    (getBody : option GetBodyFn) : Prop := {
  ev_own : ∀ w fl w' mine mine',
    Held w fl → exec w (mine ++ fl) w' (mine' ++ fl) → Held w' fl;
  ev_serve : ∀ req io w fl r io' w', Held w fl → serve rt req io w = Ret (r, io', w') →
    ∃ fl', exec w fl w' fl' ∧ Held w' fl';
  ev_GetBody : ∀ f io w fl r io' w', getBody = Some (UserGetBody f) → Held w fl →
    f io w = Ret (r, io', w') → ∃ fl', exec w fl w' fl' ∧ Held w' fl';
}.

Section requests.
Context (Held : World → list PeerId → Prop) (rt : RoundTripper) (getBody : option GetBodyFn).
Hypothesis Henv : environment Held rt getBody.

(** [moves m mine Q io w]: run while this request holds [mine], [m] is an
    execution of the system after which it holds peers that satisfy [Q]. *)
Definition moves {A} (m : T A) (mine : list PeerId) (Q : A → list PeerId → World → Prop)
    (io : IO) (w : World) : Prop :=
  ∀ fl a io' w', Held w fl → m io w = Ret (a, io', w') →
  ∃ mine' fl', exec w (mine ++ fl) w' (mine' ++ fl') ∧ Held w' fl' ∧ Q a mine' w'.

Lemma moves_bind {A B} (m : T A) (k : A → T B) mine Q io w :
  moves m mine (λ a mine1 w1, hsame (heap w) (heap w1) → ∀ io1, moves (k a) mine1 Q io1 w1) io w →
  moves (m ≫= k) mine Q io w.
Proof.
  intros Hm fl b io' w' Hh E. apply bind_inv in E as (a & io1 & w1 & E1 & E2).
  destruct (Hm _ _ _ _ Hh E1) as (mine1 & fl1 & Hx & Hh1 & Hk).
  destruct (Hk (exec_hsame _ _ _ _ Hx) _ _ _ _ _ Hh1 E2) as (mine2 & fl2 & Hx2 & Hh2 & HQ).
  exists mine2, fl2. split; [by eapply exec_trans|done].
Qed.

Lemma moves_ret {A} (a : A) mine (Q : A → list PeerId → World → Prop) io w :
  Q a mine w → moves (mret a) mine Q io w.
Proof. intros HQ fl a' io' w' Hh [= <- <- <-]. exists mine, fl. by split; [apply exec_refl|]. Qed.

Lemma moves_silent {A} (m : T A) mine (Q : A → list PeerId → World → Prop) io w :
  silent m → (∀ a, Q a mine w) → moves m mine Q io w.
Proof.
  intros Hm HQ fl a io' w' Hh E. apply Hm in E as ->. exists mine, fl.
  split; [apply exec_refl|by split].
Qed.

(** A silent step, then the rest. *)
Lemma moves_then {A B} (m : T A) (k : A → T B) mine Q io w :
  silent m → (∀ a io1, moves (k a) mine Q io1 w) → moves (m ≫= k) mine Q io w.
Proof. intros Hm Hk. apply moves_bind, moves_silent; [done|]. intros a _ io1. apply Hk. Qed.

Lemma moves_env {A} (m : T A) mine (Q : A → list PeerId → World → Prop) io w :
  (∀ fl a io' w', Held w fl → m io w = Ret (a, io', w') → ∃ fl', exec w fl w' fl' ∧ Held w' fl') →
  (∀ a w', Q a mine w') → moves m mine Q io w.
Proof.
  intros Hm HQ fl a io' w' Hh E. destruct (Hm _ _ _ _ Hh E) as (fl' & Hx & Hh').
  exists mine, fl'. split; [by apply exec_frame|by split].
Qed.

Lemma moves_mono {A} (m : T A) mine (Q Q' : A → list PeerId → World → Prop) io w :
  moves m mine Q io w → (∀ a mine' w', hsame (heap w) (heap w') → Q a mine' w' → Q' a mine' w') →
  moves m mine Q' io w.
Proof.
  intros Hm HQ fl a io' w' Hh E. destruct (Hm _ _ _ _ Hh E) as (mine' & fl' & Hx & ? & ?).
  exists mine', fl'. split_and!; try done. apply HQ; [|done]. by eapply exec_hsame.
Qed.

(** *** The calls out of the package *)

Lemma moves_roundTrip req mine (Q : Results → list PeerId → World → Prop) io w :
  (∀ r w', Q r mine w') → moves (roundTrip (Some rt) req) mine Q io w.
Proof.
  intros HQ. unfold roundTrip, call. apply moves_bind.
  apply (moves_mono _ _ (λ _ mine' _, mine' = mine)).
  - apply moves_then; [apply silent_self|]. intros io0 io1. apply moves_bind.
    apply moves_env; [intros; by eapply (ev_serve _ _ _ Henv)|]. intros r w1 _ io2.
    apply moves_silent; [|done]. eauto with silent.
  - intros r ? w1 _ -> _ io1. apply moves_silent; [|by intros]. silence.
Qed.

Lemma moves_attach_body req mine (Q : (GoError + Request) → list PeerId → World → Prop) io w :
  (∀ r w', Q r mine w') → moves (attach_body getBody req) mine Q io w.
Proof.
  intros HQ. unfold attach_body. destruct getBody as [[f|r]|] eqn:Eg.
  - apply moves_bind, moves_env; [intros; by eapply (ev_GetBody _ _ _ Henv)|].
    intros r w1 _ io1. apply moves_silent; [|by intros]. silence.
  - apply moves_silent; [|by intros]. silence.
  - by apply moves_ret.
Qed.

Lemma moves_send d req mine (Q : nat * Request * Results → list PeerId → World → Prop) io w :
  (∀ r w', Q r mine w') → moves (send d (Some rt) req) mine Q io w.
Proof.
  intros HQ. unfold send. apply moves_then; [apply silent_attach_timeout|]. intros timed io1.
  apply moves_then; [apply silent_traceRequestSent|]. intros traced io2.
  apply moves_bind, moves_roundTrip. intros r w1 _ io3. apply moves_silent; [|by intros]. silence.
Qed.

(** *** The loop *)

Notation wf := (λ (v : AnyPicker) (w : World), picker_wf v (heap w)).

Lemma wf_hsame v w w' : hsame (heap w) (heap w') → wf v w → wf v w'.
Proof. intros Hs. by apply picker_wf_mono. Qed.

Lemma moves_pick v io w :
  wf v w → moves (on_picker pick v) [] (λ r mine' w', mine' = option_list r.1 ∧ wf r.2 w') io w.
Proof.
  intros Hwf fl [r v'] io' w' Hh E. unfold on_picker in E.
  destruct (pick v w) as [[[r1 v1] w1]|] eqn:Ep; [|done]. injection E as <- <- <- <-.
  pose proof (exec_section _ fl _ _ (any_by_sections v w r1 v1 w1 fl Hwf Ep)) as Hx.
  exists (option_list r1), fl. split; [exact Hx|]. split; [by eapply (ev_own _ _ _ Henv _ _ _ [])|].
  split; [done|]. pose proof (pick_law v w Hwf) as Hl. unfold wp in Hl. rewrite Ep in Hl. apply Hl.
Qed.

(** A release, reported or neutral, gives back the peer held. *)
Lemma moves_release v x e (m : M AnyPicker unit) io w :
  wf v w → (∀ v' w', m v w = Ret (tt, v', w') → releases x w w' ∧ wf v' w') →
  moves (r ← on_picker m v; event e;; mret r.2) [x] (λ v' mine' w', mine' = [] ∧ wf v' w') io w.
Proof.
  intros Hwf Hm. apply moves_bind. intros fl [[] v'] io' w' Hh E. unfold on_picker in E.
  destruct (m v w) as [[[[] v1] w1]|] eqn:Em; [|done]. injection E as <- <- <-.
  destruct (Hm _ _ eq_refl) as [Hr Hwf1]. pose proof (exec_release x w w1 fl Hr) as Hx.
  exists [], fl. split; [exact Hx|]. split; [by eapply (ev_own _ _ _ Henv _ _ _ [x] [])|].
  intros _ io1. apply moves_then; [apply silent_event|]. intros [] io2. by apply moves_ret.
Qed.

Lemma moves_done v x failed io w :
  wf v w → moves (RoundTrip.done v x failed) [x] (λ v' mine' w', mine' = [] ∧ wf v' w') io w.
Proof.
  intros Hwf. apply moves_release; [done|]. intros v' w' E.
  split; [by eapply any_release_releases|].
  pose proof (release_law v w x failed Hwf) as Hl. unfold wp in Hl. rewrite E in Hl. apply Hl.
Qed.

Lemma moves_doneNeutral v x io w :
  wf v w → moves (RoundTrip.doneNeutral v x) [x] (λ v' mine' w', mine' = [] ∧ wf v' w') io w.
Proof.
  intros Hwf. apply moves_release; [done|]. intros v' w' E.
  split; [by eapply any_neutral_releases|].
  pose proof (release_neutral_law v w x Hwf) as Hl. unfold wp in Hl. rewrite E in Hl. apply Hl.
Qed.

(** After a round: nothing is held, and the picker of the next one is well
    formed. *)
Definition rested (r : loop_state AnyPicker + Results) (mine : list PeerId) (w : World) : Prop :=
  mine = [] ∧ match r with inl s => wf (lp_pk s) w | inr _ => True end.

(** A neutral release and a return. *)
Lemma moves_give_back v x (k : T (loop_state AnyPicker + Results)) io w :
  wf v w → silent k → returns k (λ r, ∃ res, r = inr res) →
  moves (RoundTrip.doneNeutral v x;; k) [x] rested io w.
Proof.
  intros Hwf Hk Hr. apply moves_bind. eapply moves_mono; [by apply moves_doneNeutral|].
  intros v' ? w1 _ [-> _] _ io1 fl r io' w' Hh E. destruct (Hr _ _ _ _ _ E) as [res ->].
  apply Hk in E as ->. exists [], fl. by split; [apply exec_refl|].
Qed.

Lemma moves_conclude t req attemptReq flag v x resp err io w :
  wf v w → moves (conclude t req attemptReq (Some rt) flag v x resp err) [x] rested io w.
Proof.
  intros Hwf. unfold conclude. apply moves_then; [silence|]. intros [e|] io1.
  - apply moves_give_back; [done|silence|]. returned; by eexists.
  - apply moves_then; [apply silent_self|]. intros io2 io3. cbv zeta.
    set (d := decideAttempt _ _ _ _ _). apply moves_bind.
    apply (moves_mono _ _ (λ v' mine' w', mine' = [] ∧ wf v' w')).
    { destruct (neutral d); [by apply moves_doneNeutral|by apply moves_done]. }
    intros v' ? w1 _ [-> Hwf1] _ io4. destruct (negb (retry d)); by apply moves_ret.
Qed.

Lemma moves_attempt_round t ups key req baseReq s io w :
  match ups_transport ups with Some r => Some r | None => transport t end = Some rt →
  wf (lp_pk s) w → moves (attempt_round t ups key req baseReq getBody s) [] rested io w.
Proof.
  intros Hrt Hwf. unfold attempt_round. apply moves_then; [apply silent_ctx_Err|]. intros [e|] io1.
  { apply moves_then; [apply silent_closeLast|]. intros [] io2. by apply moves_ret. }
  apply moves_bind. eapply moves_mono; [by apply moves_pick|].
  intros [[x|] v] ? w1 _ [-> Hwf1] _ io2; cbn [fst snd option_list] in *; [|by apply moves_ret].
  apply moves_then; [apply silent_event|]. intros [] io3. destruct (backends ups !! x) as [addr|].
  - apply moves_then; [apply silent_closeLast|]. intros [] io4. apply moves_bind, moves_attach_body.
    intros [e|attemptReq] w2 Hs2 io5.
    + apply moves_give_back; [by eapply wf_hsame|apply silent_ret|]. returned; by eexists.
    + rewrite Hrt. apply moves_bind, moves_send. intros [[flag req'] [resp err]] w3 Hs3 io6.
      apply moves_conclude. eapply wf_hsame; [exact Hs3|by eapply wf_hsame].
  - apply moves_then; [apply silent_load|]. intros pr io4. apply moves_give_back; [done|silence|].
    returned; by eexists.
Qed.

Lemma moves_attempt_loop fuel t ups key req baseReq s io w :
  match ups_transport ups with Some r => Some r | None => transport t end = Some rt →
  wf (lp_pk s) w →
  moves (attempt_loop fuel t ups key req baseReq getBody s) [] (λ _ mine' _, mine' = []) io w.
Proof.
  intros Hrt. revert s io w. induction fuel as [|fuel IH]; intros s io w Hwf; cbn [attempt_loop].
  { by apply moves_ret. }
  apply moves_bind. eapply moves_mono; [by apply moves_attempt_round|].
  intros [s'|res] ? w1 _ [-> Hs] _ io1; [by apply IH|by apply moves_ret].
Qed.
End requests.

(** A silent step whose results satisfy [P], then the rest. *)
Lemma moves_knowing Held {A B} (m : T A) (k : A → T B) P mine Q io w :
  silent m → returns m P → (∀ a io1, P a → moves Held (k a) mine Q io1 w) →
  moves Held (m ≫= k) mine Q io w.
Proof.
  intros Hm HP Hk fl b io' w' Hh E. apply bind_inv in E as (a & io1 & w1 & E1 & E2).
  pose proof (HP _ _ _ _ _ E1) as Ha. apply Hm in E1 as ->. by eapply Hk.
Qed.

Section trips.
Context (t : Transport) (ups : upstream) (req : Request) (rt : RoundTripper).
Context (pk : AnyPicker) (C : list Z).
Context (Held : World → list PeerId → Prop).

Lemma moves_balanced_trip fuel key io w :
  newPicker ups req = Some pk → picker_wf pk (heap w) →
  match ups_transport ups with Some r => Some r | None => transport t end = Some rt →
  environment Held rt (GetBody req) →
  moves Held (balanced_trip fuel t ups key req) [] (λ _ mine' _, mine' = []) io w.
Proof.
  intros Epk Hwf Hrt [Ho Hs Hg]. unfold balanced_trip. rewrite Epk.
  eapply moves_knowing; [apply silent_prepareBody|apply prepareBody_source|].
  intros [[[g c] [e|]] req'] io1 Hsrc; [by apply moves_ret|].
  assert (environment Held rt g) as Henv.
  { split; [done|done|]. intros f io2 w2 fl r io3 w3 ->. apply Hg, Hsrc. done. }
  apply moves_bind. eapply moves_mono; [by apply (moves_attempt_loop Held rt g Henv)|].
  intros r ? w1 _ -> _ io2. apply moves_silent; [silence|done].
Qed.

Lemma moves_RoundTrip fuel io w :
  trip_env t ups req rt pk C io w → environment Held rt (GetBody req) →
  moves Held (RoundTrip fuel (Some t) (Some req)) [] (λ _ mine' _, mine' = []) io w.
Proof.
  intros He Henv. unfold RoundTrip. rewrite (te_ok _ _ _ _ _ _ _ _ He).
  destruct (te_upstream _ _ _ _ _ _ _ _ He) as (u & -> & Eups).
  pose proof (te_transport _ _ _ _ _ _ _ _ He) as Ht.
  destruct (transport t) as [rt0|] eqn:Ert; [clear Ht|done].
  apply moves_then; [apply silent_ctx_Err|]. intros [e|] io1.
  { apply moves_silent; [silence|done]. }
  rewrite Eups. apply moves_balanced_trip; [apply He..|done].
Qed.

(** The hypotheses on a request survive what others do to the peers. *)
Lemma trip_env_world io w w' :
  trip_env t ups req rt pk C io w → hsame (heap w) (heap w') → trip_env t ups req rt pk C io w'.
Proof.
  intros [] Hs. constructor; try assumption.
  - by apply (picker_wf_mono pk (heap w)).
  - intros Em x y Hx Hy. destruct Hs as [Hs _].
    rewrite (proj1 (proj2 (proj2 (static_fields _ _ (Hs x))))),
      (proj1 (proj2 (proj2 (static_fields _ _ (Hs y))))). by apply te_lone.
Qed.

(** ** Claims *)

(** C2: a request takes part in the interleaving model: whatever the other
    requests do while its RoundTripper and GetBody run, what RoundTrip does to
    the shared peers is an execution of the critical sections and releases of
    that model, at the end of which this request holds no peer. So the
    accounting holds on: if every connection count was the number of requests
    that hold the peer, within max_conns, it still is, and none has leaked. *)
Theorem RoundTrip_by_sections fuel io w fl :
  trip_env t ups req rt pk C io w → (remaining (rrp pk) < fuel)%nat →
  environment Held rt (GetBody req) → Held w fl →
  ∃ res io' w' fl', RoundTrip fuel (Some t) (Some req) io w = Ret (Some res, io', w') ∧
    exec w fl w' fl' ∧ Held w' fl' ∧
    (accounted (MkSys w fl) → accounted (MkSys w' fl')).
Proof.
  intros He Hf Henv Hh.
  destruct (proj1 (wp_exists _ _ _ _) (RoundTrip_spec _ _ _ _ _ _ _ _ _ He Hf))
    as (r & io' & w' & E & res & evs & -> & _).
  destruct (moves_RoundTrip fuel io w He Henv fl _ _ _ Hh E) as (? & fl' & Hx & Hh' & ->).
  exists res, io', w', fl'. split_and!; [done..|]. by apply exec_accounted.
Qed.
End trips.

(** ** A request to try the claim on

    Another request holds the second peer while this one runs; the RoundTripper
    leaves the peers alone. *)

Definition other_section : section := sec_rr (rr_primary demo_rr.1) (RoundRobin.NewPicker demo_rr.1).
Definition busy_world : World := next_world other_section demo_world.
Definition other_holds (w : World) (fl : list PeerId) : Prop := fl = [0%nat].

Lemma other_step : sys_step (MkSys demo_world []) (MkSys busy_world [0%nat]).
Proof.
  apply (step_section other_section demo_world (Some 0%nat) busy_world); [|vm_compute; reflexivity].
  split; [exact (gw_primary_ok _ _ _ demo_wf)|discriminate].
Qed.

Lemma busy_accounted : accounted (MkSys busy_world [0%nat]).
Proof.
  apply (sys_step_spec _ _ other_step), accounted_initial.
  split; [reflexivity|intros x; cbn [sys_world]..].
  - apply Z.eqb_eq. apply (heap_forall (λ pr, conns pr =? 0)); vm_compute; reflexivity.
  - assert (in_int (MaxConns (heap demo_world !!! x)) = true) as [?%Z.leb_le ?%Z.leb_le]%andb_true_iff
      by (apply (heap_forall (λ pr, in_int (MaxConns pr))); vm_compute; reflexivity).
    by split.
Qed.

Lemma busy_env method :
  trip_env demo_t demo_ups (demo_req method) demo_rt demo_pk [1; 2; 3] demo_io busy_world.
Proof.
  apply (trip_env_world _ _ _ _ _ _ _ demo_world); [apply demo_env|].
  apply (sys_step_spec _ _ other_step).
Qed.

Lemma other_environment : environment other_holds demo_rt None.
Proof.
  split.
  - by intros w fl w' mine mine' ->.
  - intros req io w fl r io' w' -> E. exists [0%nat]. split; [|done].
    assert (w' = w) as ->; [|apply exec_refl].
    cbn [serve demo_rt] in E. unfold demo_serve in E.
    destruct (_ =? "a")%string; by injection E as _ _ <-.
  - by intros.
Qed.

Lemma RoundTrip_by_sections_witness :
  ∃ res io' w' fl',
    RoundTrip 3 (Some demo_t) (Some (demo_req "PUT")) demo_io busy_world = Ret (Some res, io', w') ∧
    exec busy_world [0%nat] w' fl' ∧ fl' = [0%nat] ∧ accounted (MkSys w' fl').
Proof.
  destruct (RoundTrip_by_sections demo_t demo_ups (demo_req "PUT") demo_rt demo_pk [1; 2; 3]
    other_holds 3 demo_io busy_world [0%nat] (busy_env "PUT") ltac:(vm_compute; lia)
    other_environment eq_refl) as (res & io' & w' & fl' & E & Hx & Hh & Ha).
  exists res, io', w', fl'. exact (conj E (conj Hx (conj Hh (Ha busy_accounted)))).
Defined.
