(* ===== verification/Setup.v ===== *)
(** * A configured transport is ready to serve

    Registration and construction: which configurations are accepted, and that
    the upstreams of every transport the package builds satisfy what the
    selection algorithms and RoundTrip need of them. *)

From S2P Require Import Prelude GoLib Peer RoundRobin Picker SmoothWRR LeastConn Candidates IPHash Hash CHash Random Http ClientIP Balancers Config RoundTrip Attempts.
#[local] Open Scope Z_scope.
#[local] Open Scope go_scope.

(** ** Balancers *)

(** The round-robin state every balancer embeds. *)
Definition rr_of (b : Balancer) : RoundRobin :=
  match b with
  | BRoundRobin b => b
  | BLeastConn b => lc_rr b
  | BIPHash b => ih_rr b
  | BHash b => h_rr b
  | BHashConsistent b => hc_rr b
  | BRandom b => rd_rr b
  end.

Definition balancer_fields (b : Balancer) : Prop :=
  match b with
  | BIPHash b => hashable (rr_primary (ih_rr b)) ∧
      ∀ g, rr_backup (ih_rr b) = Some g → hashable g
  | BHash b => hashable (rr_primary (h_rr b))
  | BHashConsistent b => Z.of_nat (length (points b)) <= 2 ^ 62
  | BRandom b => range_peer <$> ranges b = Peers (rr_primary (rd_rr b))
  | _ => True
  end.

Definition balancer_wf (b : Balancer) (h : Heap) : Prop :=
  groups_wf (rr_primary (rr_of b)) (rr_backup (rr_of b)) h ∧ balancer_fields b.

Definition balancer_members (b : Balancer) : list PeerId :=
  Peers (rr_primary (rr_of b)) ++
  match rr_backup (rr_of b) with Some g => Peers g | None => [] end.

(** The algorithm a balancer runs. *)
Definition algo_of (b : Balancer) : Z :=
  match b with
  | BRoundRobin _ => AlgoRoundRobin
  | BLeastConn _ => AlgoLeastConn
  | BIPHash _ => AlgoIPHash
  | BHash _ => AlgoHash
  | BHashConsistent _ => AlgoHashConsistent
  | BRandom b => if two b then AlgoRandomTwo else AlgoRandom
  end.

(** The peers of a list that are backups, or not, in its order. *)
Definition peers_with (h : Heap) (bk : bool) (ps : list PeerId) : list PeerId :=
  filter (λ x, Backup (h !!! x) = bk) ps.

Definition backup_peers (rr : RoundRobin) : list PeerId :=
  match rr_backup rr with Some g => Peers g | None => [] end.

(** The balancer of the algorithm [a] for the peers [ps], as they are in [h]:
    its groups are the primary and the backup peers of the list, in the order of
    the list, with the sum of their weights, and the structure it searches, a
    ring or ranges, is the one of the primary peers. *)
Record assembled (rand : nat → Z → Z) (a : Z) (ps : list PeerId) (b : Balancer) (h : Heap)
    : Prop := {
  as_algo : algo_of b = a;
  as_primary : Peers (rr_primary (rr_of b)) = peers_with h false ps;
  as_backup : backup_peers (rr_of b) = peers_with h true ps;
  as_total : ∀ g, g = rr_primary (rr_of b) ∨ rr_backup (rr_of b) = Some g →
    TotalWeight g = sum_weights h (Peers g);
  as_search : match b with
    | BHashConsistent b => points b = ring_of (all_points h (Some <$> peers_with h false ps))
    | BRandom b => ranges b = ranges_loop h (peers_with h false ps) 0 ∧ intn b = rand
    | _ => True
    end;
}.

(** The picker of a request is well formed when its balancer is. *)
Lemma newPicker_wf ups b req h :
  balancer ups = Some b → balancer_wf b h →
  ∃ pk, newPicker ups req = Some pk ∧ picker_wf pk h ∧ members pk = balancer_members b.
Proof.
  intros Eb [Hg Hf]. unfold newPicker. rewrite Eb. eexists. split; [done|].
  destruct b as [b|b|b|b|b|b]; cbn [Balancers.NewPicker rr_of balancer_fields] in *;
    repeat case_match; (split; [|done]); cbn [picker_wf any_laws any_wf].
  all: try exact Hg; (split; [exact Hg|]); try exact Hf; try done.
  all: (split; [exact Hf|]); split; [by intros|cbn; unfold maxHashTries; lia].
Qed.

(** *** The weights of the groups *)

Lemma init_weight_pos pr : is_int (Weight pr) → 1 <= Weight (init pr).
Proof.
  intros Hw. rewrite (proj1 (init_weights pr)). destruct (Z.leb_spec (Weight pr) 0); lia.
Qed.

Lemma init_weight_sum_filter (h : Heap) (P : PeerId → Prop) `{∀ x, Decision (P x)} xs :
  (∀ x, x ∈ xs → is_int (Weight (h !!! x))) →
  Z.of_nat (length (filter P xs)) <= init_weight_sum h (filter P xs) <= init_weight_sum h xs.
Proof.
  unfold init_weight_sum. induction xs as [|x xs IH]; intros Hx; [done|].
  pose proof (init_weight_pos (h !!! x) (Hx x ltac:(by left))).
  specialize (IH ltac:(intros; apply Hx; by right)). rewrite filter_cons.
  case_decide; cbn [foldr length]; lia.
Qed.

Lemma group_peers_some (h : Heap) bk (ps : list PeerId) :
  group_peers h bk (Some <$> ps) = filter (λ x, Backup (h !!! x) = bk) ps.
Proof.
  unfold group_peers. f_equal. induction ps as [|x ps IH]; [done|]. cbn. by f_equal.
Qed.

(** A group of a configuration whose weights fit in 32 bits. *)
Lemma group_fits (h : Heap) bk ps g :
  (∀ x, x ∈ ps → is_int (Weight (h !!! x))) → init_weight_sum h ps < 2 ^ 32 →
  Peers g = group_peers h bk (Some <$> ps) →
  TotalWeight g = wrap_int (init_weight_sum h (Peers g)) →
  hashable g ∧ TotalWeight g = init_weight_sum h (Peers g) ∧ 0 <= TotalWeight g < 2 ^ 32.
Proof.
  intros Hps Hsum HP HT. rewrite group_peers_some in HP.
  pose proof (init_weight_sum_filter h (λ x, Backup (h !!! x) = bk) ps Hps) as Hf.
  rewrite <-HP in Hf. rewrite wrap_int_id in HT by (unfold is_int, min_int, max_int; lia).
  split_and!; [|done|lia..]. intros Hl. unfold wrap_u32. rewrite Z.mod_small by lia. lia.
Qed.

(** *** The ring *)

Lemma length_dedupe pts : (length (dedupe pts) ≤ length pts)%nat.
Proof.
  unfold dedupe. destruct pts as [|pt pts]; cbn; [done|]. apply le_n_S.
  generalize (pt_hash pt) as l. induction pts as [|q pts IH]; intros l; cbn; [done|].
  destruct (_ =? l); [specialize (IH l)|specialize (IH (pt_hash q))]; cbn; lia.
Qed.

Lemma length_ring_of pts : (length (ring_of pts) ≤ length pts)%nat.
Proof.
  unfold ring_of. etransitivity; [apply length_dedupe|].
  by rewrite (Permutation_length (SliceStable_perm pt_hash pts)).
Qed.

Lemma length_peer_points n k buf p : length (peer_points n k buf p) = n.
Proof. revert buf. induction n as [|n IH]; intros buf; cbn; [done|by rewrite IH]. Qed.

(** The capacity computed for the ring and the points generated for it. *)
Lemma ring_sizes (h : Heap) ps acc :
  (∀ x, x ∈ ps → 1 <= Weight (h !!! x)) → 0 <= acc → acc + 160 * sum_weights h ps < 2 ^ 60 →
  total_points h (Some <$> ps) acc = acc + 160 * sum_weights h ps ∧
  Z.of_nat (length (all_points h (Some <$> ps))) = 160 * sum_weights h ps ∧
  0 <= sum_weights h ps.
Proof.
  unfold sum_weights. revert acc. induction ps as [|x ps IH]; intros acc Hw Hacc Hsum.
  { cbn. lia. }
  cbn [foldr] in *. pose proof (Hw x ltac:(by left)) as Hx.
  assert (0 <= foldr (λ x acc, Weight (h !!! x) + acc) 0 ps) as Hnn.
  { clear -Hw. induction ps as [|y ps IH]; cbn; [done|].
    pose proof (Hw y ltac:(by right; left)). assert (∀ z, z ∈ x :: ps → 1 <= Weight (h !!! z)) as Hz.
    { intros z [->|Hz]%elem_of_cons; apply Hw; [by left|by do 2 right]. }
    specialize (IH Hz). lia. }
  cbn [fmap list_fmap total_points all_points skip_peer].
  rewrite (proj2 (Z.leb_gt _ _)) by lia. unfold consistentReplicas.
  replace (Weight (h !!! x) *! 160) with (160 * Weight (h !!! x)) by int_lia.
  replace (acc +! 160 * Weight (h !!! x)) with (acc + 160 * Weight (h !!! x)) by int_lia.
  destruct (IH (acc + 160 * Weight (h !!! x))) as (E1 & E2 & E3);
    [intros; apply Hw; by right|lia|lia|].
  unfold fmap in *. rewrite E1, length_app, length_peer_points. split_and!; lia.
Qed.

(** *** Construction *)

(** Peers as [registerExplicitUpstream] makes them: machine integers whose
    weights, after [init], add up to less than 2^32. *)
Record peers_fit (h : Heap) (ps : list PeerId) : Prop := {
  pf_typed : ∀ x, x ∈ ps → peer_typed (h !!! x);
  pf_sum : init_weight_sum h ps < 2 ^ 32;
}.

Record rr_built (h : Heap) (ps : list PeerId) (rr : RoundRobin) (h' : Heap) : Prop := {
  rb_wf : groups_wf (rr_primary rr) (rr_backup rr) h';
  rb_primary : hashable (rr_primary rr);
  rb_backup : ∀ g, rr_backup rr = Some g → hashable g;
  rb_members : ∀ x, x ∈ Peers (rr_primary rr) ++
    match rr_backup rr with Some g => Peers g | None => [] end ↔ x ∈ ps;
  rb_heap : ∀ q, h' !!! q = if decide (q ∈ ps) then init (h !!! q) else h !!! q;
  rb_sum : sum_weights h' (Peers (rr_primary rr)) < 2 ^ 32;
  rb_dom : dom h ⊆ dom h';
  rb_primary_peers : Peers (rr_primary rr) = peers_with h' false ps;
  rb_backup_peers : backup_peers rr = peers_with h' true ps;
  rb_total : ∀ g, g = rr_primary rr ∨ rr_backup rr = Some g → TotalWeight g = sum_weights h' (Peers g);
}.

Lemma BuildGroups_dom peers h : dom h ⊆ dom (BuildGroups peers h).2.
Proof.
  assert (∀ g b, dom h ⊆ dom (BuildGroups_loop peers g b h).2) as Hl.
  { revert h. induction peers as [|[x|] peers IH]; intros h g b; cbn [BuildGroups_loop]; [done| |done].
    case_match; (etransitivity; [|apply IH]); set_solver. }
  unfold BuildGroups. specialize (Hl (MkGroup [] 0 false) (MkGroup [] 0 false)).
  destruct (BuildGroups_loop _ _ _ _) as [[g b] h']. by case_match.
Qed.

Lemma elem_of_some (ps : list PeerId) x : Some x ∈ Some <$> ps ↔ x ∈ ps.
Proof. rewrite list_elem_of_fmap. naive_solver. Qed.

(** [init] leaves a peer in its group. *)
Lemma group_peers_with (h h' : Heap) bk ps :
  (∀ x, h' !!! x = if decide (Some x ∈ Some <$> ps) then init (h !!! x) else h !!! x) →
  group_peers h bk (Some <$> ps) = peers_with h' bk ps.
Proof.
  intros Hh. rewrite group_peers_some. apply list_filter_iff. intros x. rewrite Hh.
  case_decide; by rewrite ?init_Backup.
Qed.

Lemma NewRoundRobin_built h ps :
  peers_fit h ps → ∃ rr h', NewRoundRobin (Some <$> ps) h = (rr, h') ∧ rr_built h ps rr h'.
Proof.
  intros [Hty Hsum]. destruct (NewRoundRobin (Some <$> ps) h) as [rr h'] eqn:E.
  exists rr, h'. split; [done|].
  assert (groups_wf (rr_primary rr) (rr_backup rr) h') as Hwf.
  { apply (NewRoundRobin_wf (Some <$> ps) h); [|done]. intros x Hx%elem_of_some. by apply Hty. }
  assert (∀ x, x ∈ ps → is_int (Weight (h !!! x))) as HW by (intros x Hx; apply (Hty x Hx)).
  unfold NewRoundRobin in E. pose proof (BuildGroups_dom (Some <$> ps) h) as Hd.
  destruct (BuildGroups_facts (Some <$> ps) h) as (g & b & h1 & E1 & HP & HT & _ & HB & Hh).
  rewrite E1 in E, Hd. injection E as <- <-. cbn [rr_primary rr_backup] in *.
  assert (match b with Some g => Peers g | None => [] end = group_peers h true (Some <$> ps)) as HPb
    by (destruct b as [bg|]; [apply HB|done]).
  destruct (group_fits h false ps g HW Hsum HP HT) as (Hg & HTg & Hrange).
  assert (∀ bg, b = Some bg → hashable bg ∧ TotalWeight bg = init_weight_sum h (Peers bg)) as Hbg.
  { intros bg ->. destruct HB as (HPb' & _ & HTb & _).
    by destruct (group_fits h true ps bg HW Hsum HPb' HTb) as (? & ? & _). }
  assert (∀ bk, init_weight_sum h (group_peers h bk (Some <$> ps)) =
    sum_weights h1 (group_peers h bk (Some <$> ps))) as Hafter.
  { intros bk. apply (init_weight_sum_after (Some <$> ps)); [done|].
    by intros x [? _]%elem_of_group_peers. }
  split; cbn [rr_primary rr_backup]; try done.
  - intros bg Eb. by apply Hbg.
  - intros x. rewrite elem_of_app, HP, HPb, !elem_of_group_peers, elem_of_some.
    destruct (Backup (h !!! x)); naive_solver.
  - intros q. rewrite Hh. apply decide_ext, elem_of_some.
  - rewrite HP, <-Hafter, <-HP. lia.
  - by rewrite HP, <-(group_peers_with h).
  - unfold backup_peers. cbn [rr_backup]. by rewrite HPb, <-(group_peers_with h).
  - intros g' [->|Eb]; [by rewrite HTg, HP, Hafter|]. destruct (Hbg g' Eb) as [_ ->].
    subst b. by rewrite HPb, Hafter.
Qed.

Lemma NewHashConsistent_built h ps :
  peers_fit h ps → ∃ b h', NewHashConsistent (Some <$> ps) h = Ret (b, h') ∧
    rr_built h ps (hc_rr b) h' ∧ balancer_wf (BHashConsistent b) h' ∧
    points b = ring_of (all_points h' (Some <$> peers_with h' false ps)).
Proof.
  intros Hfit. destruct (NewRoundRobin_built h ps Hfit) as (rr & h' & E & Hb).
  assert (∀ x, x ∈ Peers (rr_primary rr) → 1 <= Weight (h' !!! x)) as Hw.
  { intros x Hx. apply (gw_primary_ok _ _ _ (rb_wf _ _ _ _ Hb) x Hx). }
  destruct (ring_sizes h' (Peers (rr_primary rr)) 0 Hw) as (Et & El & Hnn); [lia|..].
  { pose proof (rb_sum _ _ _ _ Hb). lia. }
  unfold NewHashConsistent, buildChashRing. rewrite E, Et.
  pose proof (rb_sum _ _ _ _ Hb) as Hs.
  assert (make_cap_ok (0 + 160 * sum_weights h' (Peers (rr_primary rr))) = true) as ->
    by (unfold make_cap_ok; apply andb_true_iff; rewrite !Z.leb_le; lia).
  eexists _, h'. split; [done|]. split; [done|].
  split; [|cbn [points]; by rewrite (rb_primary_peers _ _ _ _ Hb)].
  split; [apply Hb|]. cbn [balancer_fields points].
  pose proof (length_ring_of (all_points h' (Some <$> Peers (rr_primary rr)))). lia.
Qed.

Lemma ranges_peers h xs c : range_peer <$> ranges_loop h xs c = xs.
Proof. revert c. induction xs as [|x xs IH]; intros c; cbn; [done|]. by rewrite IH. Qed.

Lemma rr_built_assembled rand a h ps b h' :
  rr_built h ps (rr_of b) h' → algo_of b = a →
  match b with
  | BHashConsistent b => points b = ring_of (all_points h' (Some <$> peers_with h' false ps))
  | BRandom b => ranges b = ranges_loop h' (peers_with h' false ps) 0 ∧ intn b = rand
  | _ => True
  end → assembled rand a ps b h'.
Proof. intros [] Ha Hs. by split. Qed.

Lemma newRandom_built rand (tw : bool) a ps h rr h' :
  NewRoundRobin (Some <$> ps) h = (rr, h') → rr_built h ps rr h' →
  a = (if tw then AlgoRandomTwo else AlgoRandom) →
  ∃ b, newRandom (Some <$> ps) tw rand h = (b, h') ∧ rr_built h ps (rd_rr b) h' ∧
    balancer_wf (BRandom b) h' ∧ assembled rand a ps (BRandom b) h'.
Proof.
  intros E Hb ->. unfold newRandom. rewrite E. eexists. split; [done|]. split; [done|].
  split; [split; [apply Hb|apply ranges_peers]|]. apply (rr_built_assembled _ _ h); [done|by destruct tw|].
  cbn [ranges intn]. by rewrite (rb_primary_peers _ _ _ _ Hb).
Qed.

(** Every algorithm's balancer is built, without a panic. *)
Lemma newBalancer_built rand algo ps h :
  peers_fit h ps → supportedAlgorithm algo = true →
  ∃ b h', newBalancer rand algo ps h = Ret (b, h') ∧
    rr_built h ps (rr_of b) h' ∧ balancer_wf b h' ∧ assembled rand algo ps b h'.
Proof.
  intros Hfit Hsup. destruct (NewRoundRobin_built h ps Hfit) as (rr & h' & E & Hb).
  pose proof (rb_wf _ _ _ _ Hb) as Hwf. unfold newBalancer. unfold supportedAlgorithm in Hsup.
  destruct (Z.eqb_spec algo AlgoLeastConn) as [->|].
  { unfold NewLeastConn. rewrite E. exists (BLeastConn (MkLeastConn rr)), h'.
    do 3 (split; [done|]). by apply (rr_built_assembled _ _ h). }
  destruct (Z.eqb_spec algo AlgoIPHash) as [->|].
  { unfold NewIPHash. rewrite E. exists (BIPHash (MkIPHash rr)), h'. do 2 (split; [done|]).
    split; [split; [done|split; apply Hb]|]. by apply (rr_built_assembled _ _ h). }
  destruct (Z.eqb_spec algo AlgoHash) as [->|].
  { unfold NewHash. rewrite E. exists (BHash (MkHash rr)), h'. do 2 (split; [done|]).
    split; [split; [done|apply Hb]|]. by apply (rr_built_assembled _ _ h). }
  destruct (Z.eqb_spec algo AlgoHashConsistent) as [->|].
  { destruct (NewHashConsistent_built h ps Hfit) as (b & h1 & -> & H1 & H2 & H3).
    exists (BHashConsistent b), h1. do 3 (split; [done|]). by apply (rr_built_assembled _ _ h). }
  unfold NewRandom, NewRandomTwo.
  destruct (Z.eqb_spec algo AlgoRandom) as [->|].
  { destruct (newRandom_built rand false AlgoRandom ps h rr h' E Hb eq_refl) as (b & -> & ?).
    by exists (BRandom b), h'. }
  destruct (Z.eqb_spec algo AlgoRandomTwo) as [->|].
  { destruct (newRandom_built rand true AlgoRandomTwo ps h rr h' E Hb eq_refl) as (b & -> & ?).
    by exists (BRandom b), h'. }
  rewrite E. exists (BRoundRobin rr), h'. do 3 (split; [done|]).
  apply (rr_built_assembled _ _ h); [done| |done]. rewrite !orb_false_r in Hsup.
  by apply Z.eqb_eq in Hsup as ->.
Qed.

(** *** The same balancer over another heap with the same peers *)

Lemma peers_with_ext (h h' : Heap) bk ps :
  (∀ x, x ∈ ps → h' !!! x = h !!! x) → peers_with h' bk ps = peers_with h bk ps.
Proof.
  unfold peers_with. induction ps as [|x ps IH]; intros Hx; [done|].
  rewrite !filter_cons, IH by (intros; apply Hx; by right).
  by rewrite (Hx x (list_elem_of_here _ _)).
Qed.

Lemma sum_weights_ext (h h' : Heap) ps :
  (∀ x, x ∈ ps → h' !!! x = h !!! x) → sum_weights h' ps = sum_weights h ps.
Proof.
  unfold sum_weights. induction ps as [|x ps IH]; intros Hx; cbn [foldr]; [done|].
  by rewrite IH, (Hx x (list_elem_of_here _ _)) by (intros; apply Hx; by right).
Qed.

Lemma ranges_loop_ext (h h' : Heap) ps c :
  (∀ x, x ∈ ps → h' !!! x = h !!! x) → ranges_loop h' ps c = ranges_loop h ps c.
Proof.
  revert c. induction ps as [|x ps IH]; intros c Hx; cbn [ranges_loop]; [done|].
  by rewrite IH, (Hx x (list_elem_of_here _ _)) by (intros; apply Hx; by right).
Qed.

Lemma assembled_members rand a ps b h x :
  assembled rand a ps b h → x ∈ balancer_members b ↔ x ∈ ps.
Proof.
  intros []. unfold balancer_members. fold (backup_peers (rr_of b)).
  rewrite elem_of_app, as_primary0, as_backup0. unfold peers_with. rewrite !list_elem_of_filter.
  destruct (Backup (h !!! x)); naive_solver.
Qed.

Lemma assembled_extends rand a ps b (h h' : Heap) :
  (∀ x, x ∈ ps → h' !!! x = h !!! x) → assembled rand a ps b h → assembled rand a ps b h'.
Proof.
  intros Hx Ha. pose proof (λ x, assembled_members _ _ _ _ _ x Ha) as Hm. destruct Ha.
  assert (∀ bk x, x ∈ peers_with h bk ps → h' !!! x = h !!! x) as Hf
    by (intros bk x [_ ?]%list_elem_of_filter; auto).
  split; rewrite ?(peers_with_ext h h' _ ps Hx); try done.
  - intros g Hg. rewrite (as_total0 g Hg). symmetry. apply sum_weights_ext.
    intros x Hin. apply Hx, Hm. unfold balancer_members. rewrite elem_of_app.
    destruct Hg as [->|Eg]; [by left|right; by rewrite Eg].
  - destruct b; try done.
    + rewrite (all_points_ext h' h); [done|]. intros x Hin%elem_of_some. by eapply Hf.
    + by rewrite (ranges_loop_ext h h') by apply Hf.
Qed.

(** ** The servers of an upstream *)

(** The fields of a server are machine integers. *)
Definition server_typed (s : ServerConfig) : Prop :=
  is_int (sc_Weight s) ∧ is_int (sc_MaxConns s) ∧ is_int (sc_MaxFails s) ∧ is_int (sc_FailTimeout s).

Definition weight_total (servers : list ServerConfig) : Z :=
  foldr (λ s acc, (if sc_Weight s <=? 0 then 1 else sc_Weight s) + acc) 0 servers.

(** The weights of an upstream fit in the 32-bit arithmetic of the hashes. *)
Record config_fits (u : UpstreamConfig) : Prop := {
  cf_typed : ∀ s, s ∈ Servers u → server_typed s;
  cf_total : weight_total (Servers u) < 2 ^ 32;
}.

(** The effective algorithm, and whether it goes with the hash function. *)
Definition effective_algo (a : Z) (f : option HashFunc) : Z :=
  if is_some f && (a =? AlgoRoundRobin) then AlgoHash else a.
Definition hash_algo (a : Z) : bool := (a =? AlgoHash) || (a =? AlgoHashConsistent).
Definition algorithm_ok (a : Z) (f : option HashFunc) : bool :=
  supportedAlgorithm (effective_algo a f) && eqb (hash_algo (effective_algo a f)) (is_some f).

Section registration.
Context (url_Parse : string → option (string * string)) (rand : nat → Z → Z).
Notation absolute := (parse_absolute url_Parse).

Definition address_ok (addr : string) : bool :=
  negb (addr =? "")%string && (negb (Contains addr "://") || is_some (absolute addr)).
Definition server_ok (s : ServerConfig) : bool :=
  negb (is_some (validate s)) && address_ok (sc_Address s).

(** The address a server is reached at, when its own has no scheme. *)
Definition server_backend (scheme : string) (s : ServerConfig) : option backendAddr :=
  if Contains (sc_Address s) "://"
  then (λ '(sch, host), MkBackend sch host) <$> absolute (sc_Address s)
  else Some (MkBackend scheme (sc_Address s)).

(** What holds after the loop over the servers [ss], started in the heap [h0]. *)
Record servers_added (h0 : Heap) (ss : list ServerConfig) (cfg : upstreamConfig) (h : Heap)
    : Prop := {
  sa_old : ∀ x, x ∈ dom h0 → x ∈ dom h ∧ h !!! x = h0 !!! x;
  sa_peers : ∀ x, x ∈ cfg_peers cfg →
    x ∉ dom h0 ∧ x ∈ dom h ∧ is_some (cfg_addrs cfg !! x) = true ∧
    ∃ s, s ∈ ss ∧ h !!! x = server_peer s;
  sa_nodup : NoDup (cfg_peers cfg);
  sa_total : init_weight_sum h (cfg_peers cfg) <= weight_total ss;
  sa_err : cfg_err cfg = None ↔ forallb server_ok ss = true;
  sa_all : cfg_err cfg = None →
    (λ x, (h !!! x, cfg_addrs cfg !! x)) <$> cfg_peers cfg =
    (λ s, (server_peer s, server_backend (defaultScheme cfg) s)) <$> ss;
}.

Lemma sum_append (h h' : Heap) xs x :
  (∀ y, y ∈ xs → h' !!! y = h !!! y) →
  init_weight_sum h' (xs ++ [x]) = init_weight_sum h xs + Weight (init (h' !!! x)).
Proof.
  unfold init_weight_sum. induction xs as [|y xs IH]; intros Hy; cbn [app foldr]; [lia|].
  rewrite IH by (intros; apply Hy; by right). rewrite Hy by (by left). lia.
Qed.

Lemma weight_total_app ss s :
  weight_total (ss ++ [s]) =
  weight_total ss + if sc_Weight s <=? 0 then 1 else sc_Weight s.
Proof.
  unfold weight_total. induction ss as [|s1 ss IH]; cbn [app foldr]; [lia|]. rewrite IH. lia.
Qed.

Lemma addPeer_cases peer addr cfg :
  (address_ok addr = true ∧ ∃ a, addPeer url_Parse peer addr cfg = add_backend peer a cfg ∧
    ∀ s, sc_Address s = addr → server_backend (defaultScheme cfg) s = Some a) ∨
  (address_ok addr = false ∧ ∃ e, addPeer url_Parse peer addr cfg = addError e cfg).
Proof.
  unfold addPeer, address_ok, server_backend.
  destruct (addr =? "")%string; cbn; [right; eauto|].
  destruct (Contains addr "://") eqn:Ec; cbn.
  - destruct (absolute addr) as [[? ?]|] eqn:Ea; cbn; [left|right; eauto].
    split; [done|]. eexists. split; [done|]. intros srv ->. by rewrite Ec, Ea.
  - left. split; [done|]. eexists. split; [done|]. intros srv ->. by rewrite Ec.
Qed.

Lemma forallb_snoc {A} (f : A → bool) l x : forallb f (l ++ [x]) = forallb f l && f x.
Proof. rewrite forallb_app. cbn. by rewrite andb_true_r. Qed.

(** A rejected server adds an error, and possibly an unused peer. *)
Lemma add_rejected h0 ss s cfg h h' e :
  servers_added h0 ss cfg h → server_ok s = false →
  (∀ x, x ∈ dom h → x ∈ dom h' ∧ h' !!! x = h !!! x) →
  servers_added h0 (ss ++ [s]) (addError e cfg) h'.
Proof.
  intros [Ho Hp Hn Ht He Ha] Hs Hh. split; cbn [cfg_peers cfg_addrs cfg_err addError].
  - intros x Hx. destruct (Ho x Hx) as [Hd E]. destruct (Hh x Hd). split; [done|congruence].
  - intros x Hx. destruct (Hp x Hx) as (? & Hd & ? & s' & ? & E). destruct (Hh x Hd) as [? E'].
    split_and!; [done..|]. exists s'. split; [apply elem_of_app; by left|congruence].
  - done.
  - rewrite weight_total_app.
    assert (init_weight_sum h' (cfg_peers cfg) = init_weight_sum h (cfg_peers cfg)) as ->.
    { unfold init_weight_sum. clear -Hp Hh.
      induction (cfg_peers cfg) as [|x xs IH]; cbn [foldr]; [done|].
      rewrite IH by (intros; apply Hp; by right).
      destruct (Hp x ltac:(by left)) as (_ & Hd & _). by destruct (Hh x Hd) as [_ ->]. }
    destruct (Z.leb_spec (sc_Weight s) 0); lia.
  - rewrite forallb_snoc, Hs, andb_false_r. done.
  - done.
Qed.

Lemma add_accepted h0 ss s cfg h a :
  servers_added h0 ss cfg h → server_ok s = true → dom h0 ⊆ dom h →
  server_backend (defaultScheme cfg) s = Some a →
  let x := fresh (dom h) in
  servers_added h0 (ss ++ [s]) (add_backend x a cfg) (<[x := server_peer s]> h).
Proof.
  intros [Ho Hp Hn Ht He Ha] Hs Hdom Hback x. pose proof (is_fresh (dom h)) as Hf. fold x in Hf.
  assert (∀ y, y ∈ dom h → <[x := server_peer s]> h !!! y = h !!! y) as Hy.
  { intros y Hy. apply heap_insert_ne. by intros ->. }
  split; cbn [cfg_peers cfg_addrs cfg_err defaultScheme add_backend].
  - intros y Hin. destruct (Ho y Hin) as [Hd E]. split; [set_solver|]. by rewrite Hy.
  - intros y [Hin | ->%list_elem_of_singleton]%elem_of_app.
    + destruct (Hp y Hin) as (? & Hd & Hadr & s' & ? & E). split_and!; [done|set_solver| |].
      * rewrite lookup_insert_ne; [done|]. by intros ->.
      * exists s'. split; [apply elem_of_app; by left|]. by rewrite Hy.
    + split_and!; [set_solver..| |].
      * by rewrite lookup_insert_eq.
      * exists s. split; [apply elem_of_app; right; by left|]. apply heap_insert_eq.
  - apply NoDup_app. split_and!; [done| |apply NoDup_singleton].
    intros y Hin ->%list_elem_of_singleton. by destruct (Hp x Hin) as (_ & ? & _).
  - rewrite weight_total_app, (sum_append h).
    + rewrite heap_insert_eq, (proj1 (init_weights _)). cbn [Weight server_peer]. lia.
    + intros y Hin. apply Hy. by apply (Hp y Hin).
  - rewrite forallb_snoc, Hs, andb_true_r. done.
  - intros E. rewrite !fmap_app, <-(Ha E). f_equal.
    + apply list_fmap_ext. intros i y Hin%list_elem_of_lookup_2.
      destruct (Hp y Hin) as (_ & Hd & _). rewrite Hy, lookup_insert_ne; [done| |done].
      by intros ->.
    + cbn. by rewrite heap_insert_eq, lookup_insert_eq, Hback.
Qed.

Lemma add_server_added h0 ss s cfg h :
  servers_added h0 ss cfg h →
  let r := add_server url_Parse s cfg h in servers_added h0 (ss ++ [s]) r.1 r.2.
Proof.
  intros Hs. assert (dom h0 ⊆ dom h) as Hdom.
  { intros x Hx. by apply (sa_old _ _ _ _ Hs). }
  unfold add_server. destruct (validate s) as [err|] eqn:Ev; cbn [fst snd].
  { apply (add_rejected h0 ss s cfg h); [done| |done]. unfold server_ok. by rewrite Ev. }
  destruct (addPeer_cases (fresh (dom h)) (sc_Address s) cfg) as [(Ea & a & -> & Hb)|[Ea [e ->]]].
  - apply add_accepted; [done| |done|by apply Hb]. unfold server_ok. by rewrite Ev.
  - apply (add_rejected h0 ss s cfg h); [done| |].
    + unfold server_ok. by rewrite Ev.
    + intros x Hx. split; [set_solver|]. apply heap_insert_ne. intros <-.
      by apply (is_fresh (dom h)).
Qed.

Lemma add_servers_added h0 ss rest cfg h :
  servers_added h0 ss cfg h →
  let r := add_servers url_Parse rest cfg h in servers_added h0 (ss ++ rest) r.1 r.2.
Proof.
  revert ss cfg h. induction rest as [|s rest IH]; intros ss cfg h Hs; cbn [add_servers].
  { by rewrite app_nil_r. }
  pose proof (add_server_added h0 ss s cfg h Hs) as H1.
  destruct (add_server url_Parse s cfg h) as [cfg1 h1]. cbn [fst snd] in H1.
  specialize (IH (ss ++ [s]) cfg1 h1 H1). by rewrite <-app_assoc in IH.
Qed.

(** The fields of the configuration that the loop over the servers leaves. *)
Definition same_choice (c c' : upstreamConfig) : Prop :=
  defaultScheme c' = defaultScheme c ∧ cfg_algo c' = cfg_algo c ∧
  cfg_hashFunc c' = cfg_hashFunc c ∧ cfg_sslName c' = cfg_sslName c.

Lemma add_servers_choice rest cfg h :
  same_choice cfg (add_servers url_Parse rest cfg h).1.
Proof.
  revert cfg h. induction rest as [|s rest IH]; intros cfg h; cbn [add_servers]; [done|].
  assert (same_choice cfg (add_server url_Parse s cfg h).1) as H1.
  { unfold add_server. destruct (validate s); cbn [fst]; [done|].
    by destruct (addPeer_cases (fresh (dom h)) (sc_Address s) cfg) as [(_ & a & -> & _)|[_ [e ->]]]. }
  destruct (add_server url_Parse s cfg h) as [cfg1 h1]. cbn [fst] in H1.
  specialize (IH cfg1 h1). unfold same_choice in *.
  destruct H1 as (-> & -> & -> & ->) in IH. exact IH.
Qed.

(** *** normalize *)

Lemma normalize_spec cfg :
  let c := normalize cfg in
  cfg_peers c = cfg_peers cfg ∧ cfg_addrs c = cfg_addrs cfg ∧ cfg_hashFunc c = cfg_hashFunc cfg ∧
  cfg_sslName c = cfg_sslName cfg ∧
  cfg_algo c = effective_algo (cfg_algo cfg) (cfg_hashFunc cfg) ∧
  (cfg_err c = None ↔ cfg_err cfg = None ∧ algorithm_ok (cfg_algo cfg) (cfg_hashFunc cfg) = true).
Proof.
  unfold normalize, algorithm_ok, hash_algo, effective_algo.
  set (cond := is_some (cfg_hashFunc cfg) && (cfg_algo cfg =? AlgoRoundRobin)).
  set (c0 := if cond then set_cfg_algo AlgoHash cfg else cfg).
  assert (cfg_peers c0 = cfg_peers cfg ∧ cfg_addrs c0 = cfg_addrs cfg ∧
    cfg_hashFunc c0 = cfg_hashFunc cfg ∧ cfg_sslName c0 = cfg_sslName cfg ∧
    cfg_err c0 = cfg_err cfg ∧
    cfg_algo c0 = if cond then AlgoHash else cfg_algo cfg) as (<- & <- & <- & <- & <- & <-)
    by (unfold c0; by destruct cond).
  destruct (supportedAlgorithm (cfg_algo c0)); cbn [negb andb]; [|by split_and!; [..|naive_solver]].
  destruct (is_some (cfg_hashFunc c0)) eqn:Ef, (cfg_algo c0 =? AlgoHash) eqn:E1,
    (cfg_algo c0 =? AlgoHashConsistent) eqn:E2; cbn [andb orb negb addError cfg_algo cfg_hashFunc];
    rewrite ?E1, ?E2, ?Ef; cbn; split_and!; try done; naive_solver.
Qed.

(** *** Registration *)

Definition up_servers (u : UpstreamConfig) : nat :=
  length (filter (λ s, sc_Down s = false) (Servers u)).

(** The key under which a configuration is accepted. *)
Definition registration_key (u : UpstreamConfig) (m : gmap upstreamKey upstream)
    : option upstreamKey :=
  match absolute (Pattern u) with
  | None => None
  | Some (scheme, host) =>
      if forallb server_ok (Servers u) && algorithm_ok (Algorithm u) (uc_HashFunc u) &&
         (0 <? up_servers u)%nat && negb (is_some (m !! MkKey scheme host))
      then Some (MkKey scheme host) else None
  end.

(** What RoundTrip needs of an upstream. *)
Record ups_ready (ups : upstream) (b : Balancer) (h : Heap) : Prop := {
  ur_balancer : balancer ups = Some b;
  ur_wf : balancer_wf b h;
  ur_members : ∀ x, x ∈ balancer_members b → x ∈ dom h ∧ is_some (backends ups !! x) = true;
  ur_lone : multipleUsablePeers ups = false → ∀ x y,
    x ∈ balancer_members b → y ∈ balancer_members b →
    Down (h !!! x) = false → Down (h !!! y) = false → x = y;
}.

Lemma usable_count h cfg ss h0 :
  servers_added h0 ss cfg h → cfg_err cfg = None →
  count_usable h (cfg_peers cfg) = length (filter (λ s, sc_Down s = false) ss).
Proof.
  intros Hs He. unfold count_usable. pose proof (sa_all _ _ _ _ Hs He) as Ha.
  assert (∀ A (f : A → bool) l, length (filter (λ x, f x = false) l)
    = length (filter (λ b, b = false) (f <$> l))) as Hf.
  { intros A f l. induction l as [|x l IH]; [done|]. rewrite fmap_cons, !filter_cons.
    repeat case_decide; cbn; congruence. }
  rewrite (Hf _ (λ x, Down (h !!! x))), (Hf _ sc_Down). do 2 f_equal.
  apply (f_equal (fmap (λ p, Down p.1))) in Ha. by rewrite <-!list_fmap_compose in Ha.
Qed.

Lemma filter_lone {A} (P : A → Prop) `{∀ x, Decision (P x)} (l : list A) x y :
  (length (filter P l) ≤ 1)%nat → x ∈ l → y ∈ l → P x → P y → x = y.
Proof.
  intros Hl Hx Hy Px Py.
  assert (x ∈ filter P l) as Hfx by (by apply list_elem_of_filter).
  assert (y ∈ filter P l) as Hfy by (by apply list_elem_of_filter).
  destruct (filter P l) as [|a [|b l']]; cbn in Hl; [|set_solver|lia].
  by apply not_elem_of_nil in Hfx.
Qed.

Lemma servers_fit h0 u cfg h :
  config_fits u → servers_added h0 (Servers u) cfg h → peers_fit h (cfg_peers cfg).
Proof.
  intros [Hty Htot] Hs. split.
  - intros x Hx. destruct (sa_peers _ _ _ _ Hs x Hx) as (_ & _ & _ & s & Hin & ->).
    destruct (Hty s Hin) as (? & _ & ? & _).
    split_and!; cbn; try done; unfold is_int, min_int, max_int; lia.
  - pose proof (sa_total _ _ _ _ Hs). lia.
Qed.

Lemma built_ready h0 u cfg addrs h b h' hf al mu ssl :
  servers_added h0 (Servers u) cfg h → rr_built h (cfg_peers cfg) (rr_of b) h' → balancer_wf b h' →
  (∀ x, is_some (cfg_addrs cfg !! x) = true → is_some (addrs !! x) = true) →
  mu = (1 <? count_usable h (cfg_peers cfg))%nat →
  ups_ready (MkUpstream (Some b) addrs hf al mu ssl None) b h'.
Proof.
  intros Hs Hb Hwf Haddr ->. split; cbn [balancer backends multipleUsablePeers]; [done|done|..].
  - intros x Hx. apply (rb_members _ _ _ _ Hb) in Hx.
    destruct (sa_peers _ _ _ _ Hs x Hx) as (_ & Hd & Ha & _).
    split; [by apply (rb_dom _ _ _ _ Hb)|by apply Haddr].
  - intros Hmu x y Hx Hy. apply (rb_members _ _ _ _ Hb) in Hx, Hy.
    rewrite !(rb_heap _ _ _ _ Hb), !decide_True by done.
    destruct (init_keeps (h !!! x)) as (_ & -> & _). destruct (init_keeps (h !!! y)) as (_ & -> & _).
    apply Nat.ltb_ge in Hmu. by apply (filter_lone (λ x, Down (h !!! x) = false) (cfg_peers cfg)).
Qed.

Lemma inherit_addrs scheme h cfg x :
  is_some (cfg_addrs cfg !! x) = true →
  is_some (cfg_addrs (inherit_scheme scheme h cfg) !! x) = true.
Proof.
  unfold inherit_scheme. destruct (_ =? "")%string; [|done]. cbn [cfg_addrs].
  rewrite map_lookup_imap. by destruct (cfg_addrs cfg !! x).
Qed.

Lemma inherit_keeps scheme h cfg :
  let ci := inherit_scheme scheme h cfg in
  cfg_peers ci = cfg_peers cfg ∧ cfg_err ci = cfg_err cfg ∧ cfg_algo ci = cfg_algo cfg ∧
  cfg_hashFunc ci = cfg_hashFunc cfg ∧ cfg_sslName ci = cfg_sslName cfg.
Proof. unfold inherit_scheme. by destruct (_ =? "")%string. Qed.

Definition heap_extends (h h' : Heap) : Prop :=
  ∀ x, x ∈ dom h → x ∈ dom h' ∧ h' !!! x = h !!! x.

(** What a registration does to the transport: nothing but an error, or one
    upstream, whose peers are the servers after [init], in order, in a balancer
    of the algorithm in effect. *)
Definition registered (u : UpstreamConfig) (t : Transport) (h : Heap) (t' : Transport) (h' : Heap)
    : Prop :=
  heap_extends h h' ∧
  match registration_key u (upstreams t) with
  | None => ∃ e, t' = addInitError e t
  | Some k => ∃ ups b ps, t' = set_upstream k ups t ∧ ups_ready ups b h' ∧
      algo ups = effective_algo (Algorithm u) (uc_HashFunc u) ∧ hashFunc ups = uc_HashFunc u ∧
      sslName ups = SSLName u ∧ ups_transport ups = None ∧
      multipleUsablePeers ups = (1 <? up_servers u)%nat ∧
      NoDup ps ∧ assembled rand (algo ups) ps b h' ∧
      (λ x, (h' !!! x, backends ups !! x)) <$> ps =
      (λ s, (init (server_peer s), server_backend (key_scheme k) s)) <$> Servers u
  end.

Lemma backends_inherited (h h' : Heap) cfg scheme ss :
  (∀ q, q ∈ cfg_peers cfg → h' !!! q = init (h !!! q)) → defaultScheme cfg = ""%string →
  (λ x, (h !!! x, cfg_addrs cfg !! x)) <$> cfg_peers cfg =
  (λ s, (server_peer s, server_backend (defaultScheme cfg) s)) <$> ss →
  (λ x, (h' !!! x, cfg_addrs (inherit_scheme scheme h cfg) !! x)) <$> cfg_peers cfg =
  (λ s, (init (server_peer s), server_backend scheme s)) <$> ss.
Proof.
  unfold inherit_scheme. intros Hh E. rewrite E. cbn [cfg_addrs].
  rewrite (proj2 (String.eqb_eq _ _) eq_refl). cbn [cfg_addrs]. revert Hh ss.
  induction (cfg_peers cfg) as [|x ps IH]; intros Hh [|s ss]; try done.
  rewrite !fmap_cons. intros [= Es Eb Hss]. rewrite (Hh x (list_elem_of_here _ _)), Es. f_equal.
  - f_equal. rewrite map_lookup_imap, Eb, Es. cbn [Addr server_peer]. unfold server_backend.
    destruct (Contains (sc_Address s) "://"); [|done]. by destruct (absolute (sc_Address s)) as [[]|].
  - apply IH; [|done]. intros q Hq. apply Hh. by right.
Qed.

Lemma built_extends h0 ss cfg h rr h' :
  servers_added h0 ss cfg h → rr_built h (cfg_peers cfg) rr h' → heap_extends h0 h'.
Proof.
  intros Hs Hb x Hx. destruct (sa_old _ _ _ _ Hs x Hx) as [Hd E].
  split; [by apply (rb_dom _ _ _ _ Hb)|]. rewrite (rb_heap _ _ _ _ Hb), decide_False; [done|].
  intros Hin. by destruct (sa_peers _ _ _ _ Hs x Hin).
Qed.

(** Before the loop over the servers, and an upstream without one. *)
Lemma servers_none h cfg :
  cfg_peers cfg = [] → cfg_err cfg = None → servers_added h [] cfg h.
Proof.
  intros Hp He. split; rewrite ?Hp; cbn; try done; [by intros x ?%not_elem_of_nil|constructor].
Qed.

Lemma usable_none h (ps : list PeerId) : length ps = 0%nat → count_usable h ps = 0%nat.
Proof. by intros ->%length_zero_iff_nil. Qed.

Lemma registerExplicitUpstream_registered u t h :
  config_fits u →
  ∃ t' h', registerExplicitUpstream url_Parse rand u t h = Ret (t', h') ∧ registered u t h t' h'.
Proof.
  intros Hu. unfold registerExplicitUpstream, newUpstreamConfig.
  cbn [defaultScheme cfg_peers cfg_addrs cfg_err].
  set (cfg0 := MkConfig "" [] ∅ (Algorithm u) (uc_HashFunc u) (SSLName u) None).
  pose proof (add_servers_added h [] (Servers u) cfg0 h (servers_none h cfg0 eq_refl eq_refl)) as Hs.
  cbn [app] in Hs.
  destruct (add_servers_choice (Servers u) cfg0 h) as (Ed & Ea & Ef & El).
  destruct (add_servers url_Parse (Servers u) cfg0 h) as [cfg1 h1]. cbn [fst snd] in *.
  cbn [defaultScheme cfg0] in Ed.
  assert (heap_extends h h1) as Hext by exact (sa_old _ _ _ _ Hs).
  unfold registerUpstream, registered, registration_key.
  destruct (absolute (Pattern u)) as [[scheme host]|]; [|by eauto 6].
  set (ci := inherit_scheme scheme h1 cfg1).
  destruct (normalize_spec ci) as (Ep & Eadr & Ehf & Essl & Ealgo & Eerr).
  destruct (inherit_keeps scheme h1 cfg1) as (E1 & E2 & E3 & E4 & E5).
  fold ci in E1, E2, E3, E4, E5. rewrite ?E1, ?E2, ?E3, ?E4, ?E5, ?Ea, ?Ef, ?El in *.
  rewrite (sa_err _ _ _ _ Hs) in Eerr. cbn [cfg0 cfg_algo cfg_hashFunc cfg_sslName] in *.
  clearbody cfg0. destruct (cfg_err (normalize ci)) as [e|].
  { assert (forallb server_ok (Servers u) && algorithm_ok (Algorithm u) (uc_HashFunc u) = false) as ->.
    { apply not_true_iff_false. intros [? ?]%andb_true_iff. by destruct Eerr as [_ Eerr]; discriminate Eerr. }
    cbn [andb]. by eauto 6. }
  destruct (proj1 Eerr eq_refl) as [Hok Halg]. rewrite Hok, Halg, Ep. cbn [andb].
  assert (cfg_err cfg1 = None) as Hnone by (by apply (sa_err _ _ _ _ Hs)).
  pose proof (usable_count _ _ _ _ Hs Hnone) as Hcount. fold (up_servers u) in Hcount.
  rewrite Hcount.
  destruct (Nat.eqb_spec (length (cfg_peers cfg1)) 0) as [En|_].
  { rewrite (usable_none h1 _ En) in Hcount. rewrite <-Hcount. cbn. by eauto 6. }
  destruct (Nat.eqb_spec (up_servers u) 0) as [->|Hup]; [cbn; by eauto 6|].
  rewrite (proj2 (Nat.ltb_lt 0 (up_servers u))) by lia. cbn [andb].
  destruct (is_some (upstreams t !! MkKey scheme host)); cbn [negb]; [by eauto 6|].
  destruct (newBalancer_built rand (cfg_algo (normalize ci)) (cfg_peers cfg1) h1)
    as (b & h2 & -> & Hb & Hwf & Has);
    [by eapply servers_fit|by apply andb_true_iff in Halg as [? _]; rewrite Ealgo|].
  eexists _, h2. split; [done|]. split; [by eapply built_extends|].
  eexists _, b, (cfg_peers cfg1). split; [done|]. split.
  { eapply built_ready; [done..| |by rewrite Hcount].
    intros x Hx. rewrite Eadr. by apply inherit_addrs. }
  do 5 (split; [done|]). split; [apply Hs|]. split; [done|]. cbn [backends]. rewrite Eadr.
  apply backends_inherited; [|done|by apply Hs]. intros q Hq.
  by rewrite (rb_heap _ _ _ _ Hb), decide_True.
Qed.

(** ** Transport options *)

(** The options of the package; the fields of a Transport are not exported, so
    that a caller's own option can only combine these. *)
Inductive PackageOption :=
  | OptNil
  | OptRoundTripper (rt : option RoundTripper)
  | OptTimeout (d : Z)
  | OptConnectTimeout (d : Z)
  | OptMaxBodyBuffer (size : Z)
  | OptNextUpstream (cond : option NextUpstreamCondition)
  | OptNextUpstreamCodes (codes : list Z)
  | OptNonIdempotentRetries
  | OptUpstreams (us : list UpstreamConfig).

Definition option_of (o : PackageOption) : option TransportOption :=
  match o with
  | OptNil => None
  | OptRoundTripper rt => Some (WithRoundTripper rt)
  | OptTimeout d => Some (WithTimeout d)
  | OptConnectTimeout d => Some (WithConnectTimeout d)
  | OptMaxBodyBuffer size => Some (WithMaxBodyBuffer size)
  | OptNextUpstream cond => Some (WithNextUpstream cond)
  | OptNextUpstreamCodes codes => Some (WithNextUpstreamCodes codes)
  | OptNonIdempotentRetries => Some WithNonIdempotentRetries
  | OptUpstreams us => Some (WithUpstreams url_Parse rand us)
  end.

Definition option_fits (o : PackageOption) : Prop :=
  match o with OptUpstreams us => Forall config_fits us | _ => True end.

(** What every option keeps of the transport under construction. *)
Record building (t : Transport) (h : Heap) : Prop := {
  bd_ups : ∀ k ups, upstreams t !! k = Some ups →
    ups_transport ups = None ∧ ∃ b, ups_ready ups b h;
  bd_limit : 0 <= maxBodyBuffer t;
  bd_timeout : 0 <= timeout t;
  bd_connect : 0 <= connectTimeout t;
}.

#[export] Instance heap_extends_preorder : PreOrder heap_extends.
Proof.
  split; [done|]. intros a b c Hab Hbc x Hx. destruct (Hab x Hx) as [Hb E].
  destruct (Hbc x Hb). split; [done|congruence].
Qed.

Lemma groups_wf_local g b (h h' : Heap) :
  (∀ x, x ∈ Peers g ++ match b with Some bg => Peers bg | None => [] end → h' !!! x = h !!! x) →
  groups_wf g b h → groups_wf g b h'.
Proof.
  intros Hh [Hsg Hp Hpo Hbs Hbb Hbo].
  assert (∀ x, x ∈ Peers g → h' !!! x = h !!! x) as Hg.
  { intros x Hx. apply Hh, elem_of_app. by left. }
  assert (∀ bg x, b = Some bg → x ∈ Peers bg → h' !!! x = h !!! x) as Hb.
  { intros bg x -> Hx. apply Hh, elem_of_app. by right. }
  split; try done.
  - intros x Hx. rewrite (Hg x Hx). by apply Hp.
  - intros x Hx. rewrite (Hg x Hx). by apply Hpo.
  - intros bg x Eb Hx. rewrite (Hb bg x Eb Hx). by apply (Hbb bg).
  - intros bg Eb x Hx. rewrite (Hb bg x Eb Hx). by apply (Hbo bg).
Qed.

Lemma ups_ready_extends ups b h h' : heap_extends h h' → ups_ready ups b h → ups_ready ups b h'.
Proof.
  intros Hh []. assert (∀ x, x ∈ balancer_members b → h' !!! x = h !!! x) as Hx.
  { intros x Hx. by apply Hh, ur_members0. }
  split; [done|..].
  - destruct ur_wf0 as [Hg Hf]. split; [|done]. by apply (groups_wf_local _ _ h).
  - intros x Hin. destruct (ur_members0 x Hin). split; [by apply Hh|done].
  - intros Hm x y Hin Hin'. rewrite !Hx by done. by apply ur_lone0.
Qed.

Lemma building_error e t h : building t h → building (addInitError e t) h.
Proof. intros []. by split. Qed.

Lemma building_set u t h t' h' : registered u t h t' h' → building t h → building t' h'.
Proof.
  intros [Hh Hr] Hb. assert (building t h') as Hb'.
  { destruct Hb. split; try done. intros k ups Ek. destruct (bd_ups0 k ups Ek) as (? & b & Hu).
    split; [done|]. exists b. by eapply ups_ready_extends. }
  destruct (registration_key u (upstreams t)) as [k|].
  - destruct Hr as (ups & b & ps & -> & Hu & _ & _ & _ & Ht & _). destruct Hb'. split; try done.
    intros k' ups'. cbn [upstreams set_upstream].
    intros [[_ <-]|[_ ?]]%lookup_insert_Some; [by eauto|by eauto].
  - destruct Hr as [e ->]. by apply building_error.
Qed.

Lemma WithUpstreams_building us t h :
  Forall config_fits us → building t h →
  ∃ t' h', WithUpstreams url_Parse rand us t h = Ret (t', h') ∧ building t' h' ∧ heap_extends h h'.
Proof.
  intros Hf. revert t h. induction Hf as [|u us Hu _ IH]; intros t h Hb; cbn [WithUpstreams].
  { by exists t, h. }
  destruct (registerExplicitUpstream_registered u t h Hu) as (t1 & h1 & -> & Hr).
  destruct (IH t1 h1) as (t' & h' & -> & ? & ?); [by eapply building_set|].
  exists t', h'. split_and!; [done..|]. etransitivity; [apply Hr|done].
Qed.

Lemma option_building o f t h :
  option_fits o → option_of o = Some f → building t h →
  ∃ t' h', f t h = Ret (t', h') ∧ building t' h' ∧ heap_extends h h'.
Proof.
  intros Ho Ef Hb. assert (heap_extends h h) as Hh by done.
  destruct o as [|[rt|]|d|d|d|[c|]|codes| |us]; first [discriminate Ef|injection Ef as <-];
    [..|by apply WithUpstreams_building].
  all: unfold WithRoundTripper, WithTimeout, WithConnectTimeout, WithMaxBodyBuffer,
    WithNextUpstreamCodes, WithNextUpstream, WithNonIdempotentRetries.
  all: try destruct (Z.ltb_spec d 0).
  all: eexists _, h; split; [reflexivity|].
  all: split; [|exact Hh].
  all: try (by apply building_error).
  all: destruct Hb; by split.
Qed.

Lemma run_options_building opts t h :
  Forall option_fits opts → building t h →
  ∃ t' h', run_options (option_of <$> opts) t h = Ret (t', h') ∧ building t' h' ∧
    heap_extends h h'.
Proof.
  intros Hf. revert t h. induction Hf as [|o opts Ho _ IH]; intros t h Hb.
  { by exists t, h. }
  rewrite fmap_cons. destruct (option_of o) as [f|] eqn:Ef; cbn [run_options].
  - destruct (option_building o f t h Ho Ef Hb) as (t1 & h1 & -> & Hb1 & Hh1).
    destruct (IH t1 h1 Hb1) as (t' & h' & -> & ? & ?). exists t', h'. split_and!; [done..|].
    by etransitivity.
  - apply IH. by apply building_error.
Qed.

(** ** Server names *)

Section server_names.
Context (default_transport : Z → RoundTripper) (clone : RoundTripper → string → RoundTripper).

(** What the loop over the upstreams makes of one of them. *)
Definition named (ht : RoundTripper) (ups : upstream) : upstream :=
  if (sslName ups =? "")%string then ups
  else if standard ht then set_ups_transport (clone ht (sslName ups)) ups else ups.

Lemma ssl_upstream_fold l t ht :
  transport t = Some ht → NoDup l.*1 → (∀ k ups, (k, ups) ∈ l → upstreams t !! k = Some ups) →
  let t' := fold_left (ssl_upstream clone) l t in
  transport t' = Some ht ∧ maxBodyBuffer t' = maxBodyBuffer t ∧ timeout t' = timeout t ∧
  (∀ k ups, (k, ups) ∈ l → upstreams t' !! k = Some (named ht ups)) ∧
  (∀ k, k ∉ l.*1 → upstreams t' !! k = upstreams t !! k) ∧
  (initErr t' = None ↔ initErr t = None ∧
     Forall (λ ku, sslName ku.2 = ""%string ∨ standard ht = true) l).
Proof.
  revert t. induction l as [|[k ups] l IH]; intros t Ht Hn Hl t'.
  { split_and!; try done; [by intros k ups ?%not_elem_of_nil|]. split; [by split|by intros []]. }
  cbn [fmap list_fmap fst] in Hn. apply NoDup_cons in Hn as [Hk Hn].
  subst t'. cbn [fold_left]. set (t1 := ssl_upstream clone t (k, ups)).
  assert (transport t1 = Some ht ∧ maxBodyBuffer t1 = maxBodyBuffer t ∧ timeout t1 = timeout t ∧
    upstreams t1 = <[k := named ht ups]> (upstreams t) ∧
    (initErr t1 = None ↔ initErr t = None ∧ (sslName ups = ""%string ∨ standard ht = true)))
    as (T1 & T2 & T3 & T4 & T5).
  { pose proof (Hl k ups (list_elem_of_here _ _)) as Ek. unfold t1, ssl_upstream, named.
    rewrite Ht. destruct (String.eqb_spec (sslName ups) ""); [|destruct (standard ht)].
    - rewrite insert_id by done. naive_solver.
    - cbn. naive_solver.
    - rewrite insert_id by done. cbn. split_and!; [done..|]. naive_solver. }
  clearbody t1. destruct (IH t1) as (H1 & H2 & H3 & H4 & H5 & H6); [done..| |].
  { intros k' ups' Hin. rewrite T4, lookup_insert_ne; [apply Hl; by right|].
    intros <-. apply Hk. by apply (list_elem_of_fmap_2 fst) in Hin. }
  split_and!; [done|congruence..| | |].
  - intros k' ups' [[= -> ->]|Hin]%elem_of_cons; [|by apply H4].
    rewrite H5, T4 by done. apply lookup_insert_eq.
  - intros k' Hk'. cbn [fmap list_fmap fst] in Hk'. rewrite H5 by set_solver.
    rewrite T4, lookup_insert_ne by set_solver. done.
  - rewrite H6, T5, Forall_cons. naive_solver.
Qed.

(** An upstream that serves: every request gets a well-formed picker over
    peers that have an address, and the shortcut for one usable peer is taken
    only when there is one. *)
Definition serves (ups : upstream) (h : Heap) : Prop :=
  ∀ req, ∃ pk, newPicker ups req = Some pk ∧ picker_wf pk h ∧
    (∀ x, x ∈ members pk → is_some (backends ups !! x) = true) ∧
    (multipleUsablePeers ups = false → lone pk h).

Lemma ready_serves ups b h h' : ups_ready ups b h → hsame h h' → serves ups h'.
Proof.
  intros [Hb [Hg Hf] Hm Hl] [Hs Ho] req.
  assert (balancer_wf b h') as Hwf by (split; [by apply (groups_wf_mono _ _ h)|done]).
  destruct (newPicker_wf ups b req h' Hb Hwf) as (pk & Epk & Hpk & Em).
  exists pk. split_and!; [done|done| |].
  - intros x. rewrite Em. apply Hm.
  - intros E x y. rewrite Em, (proj1 (proj2 (proj2 (static_fields _ _ (Hs x))))).
    rewrite (proj1 (proj2 (proj2 (static_fields _ _ (Hs y))))). by apply Hl.
Qed.

Lemma serves_named ht ups h : serves ups h → serves (named ht ups) h.
Proof.
  unfold named. destruct (sslName ups =? "")%string; [done|]. by destruct (standard ht).
Qed.

Lemma default_transport_keeps t :
  let t' := with_default_transport default_transport t in
  (∃ ht, transport t' = Some ht) ∧ upstreams t' = upstreams t ∧ initErr t' = initErr t ∧
  maxBodyBuffer t' = maxBodyBuffer t ∧ timeout t' = timeout t.
Proof. unfold with_default_transport. destruct (transport t) as [ht|] eqn:E; eauto 6. Qed.

(** What is claimed of a transport [t] built with the error [err], whose peers
    are those of the heap [h]. *)
Definition built (t : Transport) (err : option GoError) (h : Heap) : Prop :=
  err = initErr t ∧ 0 <= maxBodyBuffer t ∧ 0 <= timeout t ∧
  ∃ ht, transport t = Some ht ∧
  ∀ k ups, upstreams t !! k = Some ups →
    (∀ h', hsame h h' → serves ups h') ∧
    (err = None → ups_transport ups =
       if (sslName ups =? "")%string then None else Some (clone ht (sslName ups))) ∧
    (err = None → sslName ups = ""%string ∨ standard ht = true).

Lemma NewTransportE_built opts (h : Heap) :
  Forall option_fits opts →
  ∃ t err h', NewTransportE default_transport clone (option_of <$> opts) h = Ret (t, err, h') ∧
    heap_extends h h' ∧ built t err h'.
Proof.
  intros Hf. unfold NewTransportE.
  set (t0 := MkTransport None ∅ 0 0 defaultMaxBodyBuffer None false None).
  destruct (run_options_building opts t0 h Hf) as (t & h' & -> & [Hups Hlim Htime _] & Hh).
  { split; try done. }
  pose proof (default_transport_keeps t) as Hk.
  set (t1 := with_default_transport default_transport t) in *. clearbody t1.
  destruct Hk as ([ht Eht] & Eu & Ee & El & Et). rewrite <-Eu in Hups.
  pose proof (ssl_upstream_fold (map_to_list (upstreams t1)) t1 ht Eht
    (NoDup_fst_map_to_list _) ltac:(by intros ? ? ?%elem_of_map_to_list)) as Hfold.
  set (t2 := fold_left _ _ _) in *. clearbody t2. destruct Hfold as (E2 & El2 & Et2 & Hin & Hout & Herr).
  exists t2, (initErr t2), h'. do 3 (split; [done|]). split; [lia|]. split; [lia|].
  exists ht. split; [done|]. intros k ups2 E.
  destruct (upstreams t1 !! k) as [ups|] eqn:Ek.
  2:{ rewrite Hout in E; [congruence|]. intros ((k' & u) & -> & Hu)%list_elem_of_fmap.
      apply elem_of_map_to_list in Hu. cbn in Ek. congruence. }
  assert ((k, ups) ∈ map_to_list (upstreams t1)) as Hu by (by apply elem_of_map_to_list).
  rewrite (Hin k ups Hu) in E. injection E as <-.
  destruct (Hups k ups Ek) as (Hnone & b & Hready).
  assert (sslName (named ht ups) = sslName ups) as Ename.
  { unfold named. destruct (sslName ups =? "")%string; [done|]. by destruct (standard ht). }
  split; [|rewrite Ename; split].
  - intros h'' Hs. by eapply serves_named, ready_serves.
  - intros [_ Hall]%Herr. rewrite Forall_forall in Hall. specialize (Hall _ Hu). cbn [snd] in Hall.
    unfold named. destruct (String.eqb_spec (sslName ups) ""); [done|].
    by destruct Hall as [?| ->].
  - intros [_ Hall]%Herr. rewrite Forall_forall in Hall. apply (Hall _ Hu).
Qed.

End server_names.

(** ** Claims *)

(** C19: registering an upstream, whose weights add up to less than 2^32 (a server
    without one counts 1), leaves existing peers alone and does one of two
    things. It accepts the configuration when its pattern is an absolute URL
    not yet taken, every server passes validation and has an address, the
    algorithm is known and has a hash function exactly if it hashes, and some
    server is up: one upstream is added, whose peers are the servers in order,
    after [init], each with the scheme and host of its own address or the
    scheme of the pattern, in a balancer of the algorithm in effect: its primary
    and backup groups are those of the servers in the order of the
    configuration, with their total weights, and the ring or the ranges are the
    ones of the primary group. Otherwise it only records an error. *)
Theorem registration_accepts u t h :
  config_fits u →
  ∃ t' h', registerExplicitUpstream url_Parse rand u t h = Ret (t', h') ∧ registered u t h t' h' ∧
    (initErr t = None → initErr t' = None ↔ is_some (registration_key u (upstreams t)) = true).
Proof.
  intros Hu. destruct (registerExplicitUpstream_registered u t h Hu) as (t' & h' & -> & Hr).
  exists t', h'. do 2 (split; [done|]). intros E. destruct Hr as [_ Hr].
  destruct (registration_key u (upstreams t)) as [k|].
  - by destruct Hr as (ups & b & ps & -> & _).
  - by destruct Hr as [e ->].
Qed.
End registration.

(** ** A configuration to try the claims on *)

Definition demo_parse (s : string) : option (string * string) :=
  if (s =? "http://svc")%string then Some ("http", "svc")%string
  else if (s =? "https://b:8443")%string then Some ("https", "b:8443")%string else None.
Definition demo_rand (n : nat) (k : Z) : Z := Z.of_nat n mod k.
Definition demo_config : UpstreamConfig :=
  ProxySSLName "svc.example" (uc_LeastConn (Upstream "http://svc"
    [Server "a:80" [Some (opt_Weight 5)]; Server "https://b:8443" [Some opt_Backup]])).

(** Its two servers, after registration. *)
Example demo_config_registered :
  match registerExplicitUpstream demo_parse demo_rand demo_config
          (MkTransport None ∅ 0 0 0 None false None) ∅ with
  | Ret (t, h) => initErr t = None ∧
      (λ ups, (algo ups, map_to_list (backends ups), sslName ups)) <$>
        upstreams t !! MkKey "http" "svc"
      = Some (AlgoLeastConn,
              [(1%nat, MkBackend "https" "b:8443"); (0%nat, MkBackend "http" "a:80")],
              "svc.example"%string)
  | Panic _ => False
  end.
Proof. by vm_compute. Qed.

Lemma demo_config_fits : config_fits demo_config.
Proof.
  split; [|done].
  intros s [->|[->|?%not_elem_of_nil]%elem_of_cons]%elem_of_cons; try done.
  all: unfold server_typed, is_int; by vm_compute.
Qed.

Lemma registration_accepts_witness :
  let t := MkTransport None ∅ 0 0 0 None false None in
  ∃ t' h', registerExplicitUpstream demo_parse demo_rand demo_config t ∅ = Ret (t', h') ∧
    registered demo_parse demo_rand demo_config t ∅ t' h' ∧
    (initErr t = None →
     initErr t' = None ↔ is_some (registration_key demo_parse demo_config (upstreams t)) = true).
Proof. intros t. exact (registration_accepts demo_parse demo_rand demo_config t ∅ demo_config_fits). Defined.
