(* ===== verification/Service.v ===== *)
(** * From configuration to answers

    The upstreams of a transport built by NewTransportE are those of its options,
    and it answers the requests to them: the hypotheses of the theorems on
    RoundTrip hold of every upstream it registered, and still hold after a
    request; one reliable server among those configured makes the answer one
    that need not be retried. *)

From S2P Require Import Prelude GoLib Peer RoundRobin Picker LeastConn IPHash Hash CHash Random Http Body ClientIP Balancers Config RoundTrip Attempts Trip Exhaustion Failover Setup.
#[local] Open Scope Z_scope.

(** What is left to assume of a request and of the code outside the package:
    the caller's body and context, and the RoundTripper in use. *)
Record request_ok (t : Transport) (ups : upstream) (req : Request) (C : list Z) (io : IO) : Prop := {
  rq_upstream : ∃ u, req_URL req = Some u ∧
    upstreams t !! MkKey (Scheme u) (URL_Host u) = Some ups;
  rq_rt : ∀ rt, match ups_transport ups with Some r => Some r | None => transport t end = Some rt →
    RoundTripper_ok rt;
  rq_body : prep_pre (maxBodyBuffer t) C req io;
  rq_user : ∀ g, GetBody req = Some g → GetBody_ok g;
  rq_ctx : ctx_monotone req;
  rq_attempt_ctx : attempt_ctx req = None;
}.

(** A run from the start of the loop returns a response or an error. *)
Lemma run_answers t ups req baseReq g rt C pk evs res :
  run t ups req baseReq g rt C (MkLoop pk None None) evs res → is_some res.1 || is_some res.2 = true.
Proof.
  intros [(ex & _ & ->)|[(_ & ? & _)|(e & -> & _)]]%run_result; [|done|done].
  destruct (result_of ex).1 eqn:H1; [done|]. destruct (result_of ex).2 eqn:H2; [done|].
  by destruct (result_of_some ex H1).
Qed.

(** A server that is never passed over: up, without [max_conns], and with
    [max_fails=0], which switches the failure accounting off. *)
Definition reliable (s : ServerConfig) : Prop :=
  sc_Down s = false ∧ sc_MaxConns s <= 0 ∧ sc_MaxFails s <= 0 ∧
  has (sc_explicit s) serverFieldMaxFails = true.

Lemma reliable_unlimited s : reliable s → unlimited (init (server_peer s)).
Proof.
  intros (Hd & Hc & Hf & He). destruct (init_keeps (server_peer s)) as (_ & Ed & Ec & _).
  unfold unlimited. rewrite Ed, Ec. split_and!; [done|done|].
  rewrite init_eq. cbn [MaxFails explicit server_peer]. by rewrite He, andb_false_r.
Qed.

(** A request that may be repeated: its caller does not cancel, it is not gated
    as non-idempotent, and its body can be had. *)
Record repeatable (t : Transport) (req : Request) (io : IO) : Prop := {
  rp_body : req_Body req = None ∨ ¬ faulty io;
  rp_getBody : ∀ g, GetBody req = Some g → ¬ may_fail g io;
  rp_ctx : ∀ i, ctx_results req i = None;
  rp_gate : isNonIdempotentMethod (Method req) && negb (retryNonIdempotent t) = false;
}.

(** The RoundTripper that serves an upstream. *)
Definition in_use (t : Transport) (ups : upstream) : option RoundTripper :=
  match ups_transport ups with Some rt => Some rt | None => transport t end.

Section service.
Context (url_Parse : string → option (string * string)) (rand : nat → Z → Z).
Context (default_transport : Z → RoundTripper) (clone : RoundTripper → string → RoundTripper).

(** The hypotheses of RoundTrip's theorems, for a transport as it was built. *)
Lemma built_trip_env t h ups req C io w :
  built clone t None h → request_ok t ups req C io → hsame h (heap w) →
  ∃ rt pk, trip_env t ups req rt pk C io w ∧
    ∀ x, x ∈ members pk → is_some (backends ups !! x) = true.
Proof.
  intros (Herr & _ & _ & ht & Eht & Hups) [(u & Eu & Ek) Hrt Hbody Huser Hctx Hatt] Hw.
  destruct (Hups _ _ Ek) as (Hserves & _ & _). destruct (Hserves _ Hw req) as (pk & Epk & Hwf & Hm & Hl).
  assert (∃ rt, match ups_transport ups with Some r => Some r | None => transport t end = Some rt)
    as [rt Ert] by (destruct (ups_transport ups); eauto).
  exists rt, pk. split; [|done]. split; try done.
  - by rewrite Eht.
  - by exists u.
  - by apply Hrt.
Qed.

(** ** What was configured is served *)

(** The upstream of a configuration is registered under the key of its pattern,
    with its servers as peers, in order, in a balancer of its algorithm. *)
Definition configured (u : UpstreamConfig) (k : upstreamKey) (t : Transport) (h : Heap) : Prop :=
  ∃ ups b ps, parse_absolute url_Parse (Pattern u) = Some (key_scheme k, key_host k) ∧
    upstreams t !! k = Some ups ∧ ups_ready ups b h ∧
    algo ups = effective_algo (Algorithm u) (uc_HashFunc u) ∧ hashFunc ups = uc_HashFunc u ∧
    sslName ups = SSLName u ∧ NoDup ps ∧ assembled rand (algo ups) ps b h ∧
    (λ x, (h !!! x, backends ups !! x)) <$> ps =
    (λ s, (init (server_peer s), server_backend url_Parse (key_scheme k) s)) <$> Servers u.

(** What a step of the construction keeps: peers, errors, upstreams. *)
Definition carries (t : Transport) (h : Heap) (t' : Transport) (h' : Heap) : Prop :=
  heap_extends h h' ∧ (initErr t' = None → initErr t = None) ∧
  ∀ k ups, upstreams t !! k = Some ups → upstreams t' !! k = Some ups.

Lemma carries_refl t h : carries t h t h.
Proof. by split_and!. Qed.

Lemma carries_trans t1 h1 t2 h2 t3 h3 :
  carries t1 h1 t2 h2 → carries t2 h2 t3 h3 → carries t1 h1 t3 h3.
Proof. intros (? & ? & ?) (? & ? & ?). split_and!; [by etransitivity|auto..]. Qed.

Lemma carries_error e t h : carries t h (addInitError e t) h.
Proof. by split_and!. Qed.

(** A step that registers the configurations [us], unless there is an error. *)
Record registers (us : list UpstreamConfig) (t : Transport) (h : Heap) (t' : Transport)
    (h' : Heap) : Prop := {
  rg_carries : carries t h t' h';
  rg_all : initErr t' = None → ∀ u, u ∈ us → ∃ k, configured u k t' h';
  rg_only : ∀ k, is_some (upstreams t' !! k) = true →
    is_some (upstreams t !! k) = true ∨ ∃ u, u ∈ us ∧ configured u k t' h';
}.

Lemma configured_carries u k t h t' h' :
  carries t h t' h' → configured u k t h → configured u k t' h'.
Proof.
  intros (Hh & _ & Hups) (ups & b & ps & Ep & Eu & Hr & Ea & Ef & El & Hnd & Hps & Hs).
  assert (∀ x, x ∈ ps → h' !!! x = h !!! x) as Hx.
  { intros x Hx. apply Hh, (ur_members _ _ _ Hr). by apply (assembled_members _ _ _ _ _ x Hps). }
  exists ups, b, ps. split; [done|]. split; [by apply Hups|].
  split; [by eapply ups_ready_extends|]. do 4 (split; [done|]).
  split; [by apply (assembled_extends _ _ _ _ h)|]. rewrite <-Hs.
  apply list_fmap_ext. intros i x Hin%list_elem_of_lookup_2. f_equal. by apply Hx.
Qed.

Lemma registers_nil t h t' h' :
  carries t h t' h' → upstreams t' = upstreams t → registers [] t h t' h'.
Proof. intros Hc E. split; [done|by intros _ u ?%not_elem_of_nil|]. intros k. rewrite E. by left. Qed.

Lemma registers_app us vs t h t1 h1 t' h' :
  registers us t h t1 h1 → registers vs t1 h1 t' h' → registers (us ++ vs) t h t' h'.
Proof.
  intros [Hc1 Ha1 Ho1] [Hc2 Ha2 Ho2]. split; [by eapply carries_trans|..].
  - intros E u [Hu|Hu]%elem_of_app; [|by apply Ha2].
    destruct (Ha1 (proj1 (proj2 Hc2) E) u Hu) as [k Hk]. exists k. by eapply configured_carries.
  - intros k Hk. destruct (Ho2 k Hk) as [Hk1|(u & Hu & ?)].
    + destruct (Ho1 k Hk1) as [?|(u & Hu & ?)]; [by left|right]. exists u.
      split; [apply elem_of_app; by left|by eapply configured_carries].
    + right. exists u. split; [apply elem_of_app; by right|done].
Qed.

Lemma registered_registers u t h t' h' :
  registered url_Parse rand u t h t' h' → registers [u] t h t' h'.
Proof.
  intros [Hh Hr].
  destruct (registration_key url_Parse u (upstreams t)) as [k|] eqn:Ek.
  2:{ destruct Hr as [e ->]. split; [by split_and!|done|by left]. }
  unfold registration_key in Ek.
  destruct (parse_absolute url_Parse (Pattern u)) as [[scheme host]|] eqn:Ep; [|done].
  destruct (_ && _) eqn:Eok; [|done]. injection Ek as <-.
  apply andb_true_iff in Eok as [_ Hnew].
  destruct Hr as (ups & b & ps & -> & Hready & Ha & Hf & Hl & _ & _ & Hnd & Hps & Hs).
  assert (configured u (MkKey scheme host) (set_upstream (MkKey scheme host) ups t) h') as Hu.
  { exists ups, b, ps. split; [done|]. split; [apply lookup_insert_eq|]. by split_and!. }
  split.
  - split_and!; [done..|]. intros k ups' E. cbn. rewrite lookup_insert_ne; [done|].
    intros <-. by rewrite E in Hnew.
  - intros _ u' ->%list_elem_of_singleton. eauto.
  - intros k. cbn [upstreams set_upstream]. destruct (decide (k = MkKey scheme host)) as [->|Hne].
    + right. exists u. split; [by left|done].
    + rewrite lookup_insert_ne by done. by left.
Qed.

Lemma WithUpstreams_registers us t h :
  Forall config_fits us →
  ∃ t' h', WithUpstreams url_Parse rand us t h = Ret (t', h') ∧ registers us t h t' h'.
Proof.
  intros Hf. revert t h. induction Hf as [|u us Hu _ IH]; intros t h; cbn [WithUpstreams].
  { exists t, h. split; [done|]. apply registers_nil; [apply carries_refl|done]. }
  destruct (registerExplicitUpstream_registered url_Parse rand u t h Hu) as (t1 & h1 & -> & Hr).
  destruct (IH t1 h1) as (t' & h' & -> & Hc). exists t', h'. split; [done|].
  by eapply (registers_app [u] us), Hc; apply registered_registers.
Qed.

(** The configurations among the options. *)
Definition option_configs (o : PackageOption) : list UpstreamConfig :=
  match o with OptUpstreams us => us | _ => [] end.

Lemma option_registers o f t h :
  option_fits o → option_of url_Parse rand o = Some f →
  ∃ t' h', f t h = Ret (t', h') ∧ registers (option_configs o) t h t' h'.
Proof.
  intros Ho Ef.
  destruct o as [|[rt|]|d|d|d|[c|]|codes| |us]; first [discriminate Ef|injection Ef as <-];
    [..|by apply WithUpstreams_registers].
  all: unfold WithRoundTripper, WithTimeout, WithConnectTimeout, WithMaxBodyBuffer,
    WithNextUpstreamCodes, WithNextUpstream, WithNonIdempotentRetries.
  all: try destruct (d <? 0).
  all: eexists _, h; split; [reflexivity|].
  all: apply registers_nil; [by split_and!|done].
Qed.

Lemma run_options_registers opts t h :
  Forall option_fits opts →
  ∃ t' h', run_options (option_of url_Parse rand <$> opts) t h = Ret (t', h') ∧
    registers (concat (option_configs <$> opts)) t h t' h'.
Proof.
  intros Hf. revert t h. induction Hf as [|o opts Ho _ IH]; intros t h.
  { exists t, h. split; [done|]. apply registers_nil; [apply carries_refl|done]. }
  rewrite !fmap_cons. destruct (option_of url_Parse rand o) as [f|] eqn:Ef; cbn [run_options concat].
  - destruct (option_registers o f t h Ho Ef) as (t1 & h1 & -> & Hc1).
    destruct (IH t1 h1) as (t' & h' & -> & Hc). exists t', h'.
    split; [done|by eapply registers_app].
  - destruct o; try discriminate Ef.
    destruct (IH (addInitError (New "cslb: nil transport option") t) h) as (t' & h' & -> & Hc).
    exists t', h'. split; [done|]. eapply (registers_app []), Hc.
    apply registers_nil; [apply carries_error|done].
Qed.

(** The upstreams of a transport are those configured. *)
Definition all_configured (opts : list PackageOption) (t : Transport) (h : Heap) : Prop :=
  (∀ us u, OptUpstreams us ∈ opts → u ∈ us → ∃ k, configured u k t h) ∧
  ∀ k, is_some (upstreams t !! k) = true →
    ∃ us u, OptUpstreams us ∈ opts ∧ u ∈ us ∧ configured u k t h.

Lemma elem_of_configs u opts :
  u ∈ concat (option_configs <$> opts) ↔ ∃ us, OptUpstreams us ∈ opts ∧ u ∈ us.
Proof.
  rewrite list_elem_of_In, in_concat. setoid_rewrite <-list_elem_of_In. split.
  - intros (us & (o & -> & Ho)%list_elem_of_fmap & Hu). destruct o; try by apply not_elem_of_nil in Hu.
    eauto.
  - intros (us & Ho & Hu). exists us. split; [|done].
    by apply (list_elem_of_fmap_2 option_configs) in Ho.
Qed.

(** The server names change the RoundTrippers only. *)
Lemma configured_named ht u k t t' h :
  (∀ k ups, upstreams t !! k = Some ups → upstreams t' !! k = Some (named clone ht ups)) →
  configured u k t h → configured u k t' h.
Proof.
  intros Hn (ups & b & ps & Ep & Eu & Hr & Ea & Ef & El & Hnd & Hps & Hs).
  exists (named clone ht ups), b, ps. split; [done|]. split; [by apply Hn|].
  assert (named clone ht ups = ups ∨ ∃ rt, named clone ht ups = set_ups_transport rt ups)
    as [-> |[rt ->]]; [|by do 6 (split; [done|])|split; [by destruct Hr|by do 5 (split; [done|])]].
  unfold named. destruct (_ =? "")%string; [by left|]. destruct (standard ht); eauto.
Qed.

Lemma NewTransportE_configured opts h0 t h :
  Forall option_fits opts →
  NewTransportE default_transport clone (option_of url_Parse rand <$> opts) h0 = Ret (t, None, h) →
  all_configured opts t h.
Proof.
  intros Hf. unfold NewTransportE.
  set (t0 := MkTransport None ∅ 0 0 defaultMaxBodyBuffer None false None).
  destruct (run_options_registers opts t0 h0 Hf) as (t1 & h1 & -> & [_ Hall Honly]).
  pose proof (default_transport_keeps default_transport t1) as Hk.
  set (t2 := with_default_transport default_transport t1) in *. clearbody t2.
  destruct Hk as ([ht Eht] & Eu & Ee & _). rewrite <-Eu in Honly.
  pose proof (ssl_upstream_fold clone (map_to_list (upstreams t2)) t2 ht Eht
    (NoDup_fst_map_to_list _) ltac:(by intros ? ? ?%elem_of_map_to_list)) as Hfold.
  set (t3 := fold_left _ _ _) in *. clearbody t3. destruct Hfold as (_ & _ & _ & Hin & Hout & Herr).
  intros [= -> Enone ->]. apply Herr in Enone as [Enone _]. rewrite Ee in Enone.
  assert (∀ u k, configured u k t1 h → configured u k t h) as Hnamed.
  { intros u k. apply (configured_named ht). intros k' ups E.
    apply Hin, elem_of_map_to_list. by rewrite Eu. }
  split.
  - intros us u Ho Hu. destruct (Hall Enone u) as [k Hk]; [|by eauto].
    apply elem_of_configs. eauto.
  - intros k Hk. destruct (upstreams t2 !! k) as [ups0|] eqn:E.
    + destruct (Honly k) as [?|(u & (us & Ho & Hu)%elem_of_configs & Hc)]; [by rewrite E|done|].
      exists us, u. split_and!; [done..|by apply Hnamed].
    + rewrite Hout in Hk; [by rewrite E in Hk|].
      intros ((k' & ups) & -> & Hin')%list_elem_of_fmap. apply elem_of_map_to_list in Hin'.
      cbn in E. congruence.
Qed.

(** ** Claims *)

(** C8: NewTransportE builds, from any options of the package whose weights fit
    in 32 bits, a transport without panicking: it has an underlying transport
    and limits that are not negative, returns its configuration error, leaves
    the peers of the heap alone, and each of its upstreams serves every request,
    now and after any requests: the picker is well formed, its peers have
    addresses, and only upstreams with one usable peer skip the body replay. An
    accepted server name is the one of the upstream's own transport. Without an
    error the upstreams are those of the options: each configuration is
    registered under the key of its pattern with its servers as peers, in order,
    in a balancer of the algorithm in effect (keyed hash in place of round-robin
    when there is a hash function), whose primary and backup groups are those of
    the servers, in order, with their total weights, and whose ring or ranges
    are those of the primary group; and there is no other upstream. *)
Theorem NewTransportE_serves opts (h : Heap) :
  Forall option_fits opts →
  ∃ t err h',
    NewTransportE default_transport clone (option_of url_Parse rand <$> opts) h = Ret (t, err, h') ∧
    heap_extends h h' ∧ built clone t err h' ∧ (err = None → all_configured opts t h').
Proof.
  intros Hf. destruct (NewTransportE_built url_Parse rand default_transport clone opts h Hf)
    as (t & err & h' & E & Hh & Hb).
  exists t, err, h'. do 3 (split; [done|]). intros ->. by eapply NewTransportE_configured.
Qed.

(** C1: a transport that NewTransportE built without an error answers every
    request to one of its upstreams, whatever happened to the peers since: with
    enough fuel RoundTrip returns a response or an error and does not panic;
    every peer it selects is up and has a backend address, and is released
    before the next selection or the return; the request body is closed; and the
    peers are left in a state in which the same holds of the next request. *)
Theorem built_transport_answers opts h0 t h ups req C io w :
  Forall option_fits opts →
  NewTransportE default_transport clone (option_of url_Parse rand <$> opts) h0 = Ret (t, None, h) →
  request_ok t ups req C io → hsame h (heap w) →
  ∃ fuel res io' w' evs, RoundTrip fuel (Some t) (Some req) io w = Ret (Some res, io', w') ∧
    is_some res.1 || is_some res.2 = true ∧ log io' = log io ++ evs ∧
    (∀ x, x ∈ picks evs → Down (heap w !!! x) = false ∧ is_some (backends ups !! x) = true) ∧
    holding None evs = Some None ∧ shut (req_Body req) io' ∧ hsame h (heap w').
Proof.
  intros Hf Ht Hreq Hw.
  destruct (NewTransportE_built url_Parse rand default_transport clone opts h0 Hf)
    as (t0 & err & h1 & E & _ & Hbuilt).
  rewrite E in Ht. injection Ht as -> -> ->.
  destruct (built_trip_env t h ups req C io w Hbuilt Hreq Hw) as (rt & pk & Henv & Hback).
  pose proof (RoundTrip_spec (S (remaining (rrp pk))) _ _ _ _ _ _ _ _ Henv (Nat.lt_succ_diag_r _)) as Hs.
  destruct (proj1 (wp_exists _ _ _ _) Hs) as (r & io' & w' & Er & res & evs & -> & Hp).
  exists (S (remaining (rrp pk))), res, io', w', evs. split; [exact Er|].
  destruct (tr_run _ _ _ _ _ _ _ _ _ _ _ _ Hp) as [(-> & H1 & H2)|(b & g & _ & _ & Hr)].
  - split; [by rewrite H2, orb_true_r|]. split; [apply Hp|].
    split; [by intros x ?%not_elem_of_nil|]. split; [done|]. split; [apply Hp|].
    etransitivity; [exact Hw|]. apply Hp.
  - split; [by eapply run_answers|]. split; [apply Hp|]. split.
    { intros x Hx. destruct (tr_picks _ _ _ _ _ _ _ _ _ _ _ _ Hp x Hx). split; [done|by apply Hback]. }
    split; [by eapply run_holding|]. split; [apply Hp|].
    etransitivity; [exact Hw|]. apply Hp.
Qed.

(** C3: failover: of a transport that NewTransportE built without an error, an
    upstream with one reliable server (up, without max_conns, with max_fails=0),
    primary or backup, whose backend answers with nothing to be retried, answers
    every request that may be repeated (its caller not cancelled, not gated as
    non-idempotent, its body there to be read: none, or no operation on it
    fails, and the caller's GetBody does not fail), whatever happened to the
    peers since, however the other backends fail, under any algorithm: RoundTrip
    returns the result of its last exchange, and it is one that the retry
    condition accepts. *)
Theorem configured_failover opts h0 t h us u s ups url addr req C io w :
  Forall option_fits opts →
  NewTransportE default_transport clone (option_of url_Parse rand <$> opts) h0 = Ret (t, None, h) →
  OptUpstreams us ∈ opts → u ∈ us → s ∈ Servers u → reliable s →
  req_URL req = Some url → parse_absolute url_Parse (Pattern u) = Some (Scheme url, URL_Host url) →
  server_backend url_Parse (Scheme url) s = Some addr →
  request_ok t ups req C io → repeatable t req io → hsame h (heap w) →
  (∀ rt, in_use t ups = Some rt → answers t rt addr) →
  ∃ fuel res io' w' evs ex, RoundTrip fuel (Some t) (Some req) io w = Ret (Some res, io', w') ∧
    log io' = log io ++ evs ∧ last (exchanges evs) = Some ex ∧ res = result_of ex ∧
    shouldRetry t res.1 res.2 = false.
Proof.
  intros Hf Ht Hopt Hu Hs Hrel Eurl Epat Eaddr Hreq [Hb Hg Hctx Hgate] Hw Hans.
  destruct (NewTransportE_configured opts h0 t h Hf Ht) as [Hall _].
  destruct (Hall us u Hopt Hu)
    as ([scheme host] & ups' & b & ps & Ep & Eups & Hready & _ & _ & _ & _ & Hps & Hpeers).
  cbn [key_scheme key_host] in *. rewrite Epat in Ep. injection Ep as <- <-.
  destruct (rq_upstream _ _ _ _ _ Hreq) as (url' & Eurl' & Eups').
  rewrite Eurl in Eurl'. injection Eurl' as <-. rewrite Eups in Eups'. injection Eups' as ->.
  destruct (NewTransportE_built url_Parse rand default_transport clone opts h0 Hf)
    as (t0 & err & h1 & E & _ & Hbuilt).
  rewrite E in Ht. injection Ht as -> -> ->.
  destruct (built_trip_env t h ups req C io w Hbuilt Hreq Hw) as (rt & pk & He & Hback).
  assert (∃ x, x ∈ ps ∧ h !!! x = init (server_peer s) ∧ backends ups !! x = Some addr)
    as (x & Hx & Epeer & Ebk).
  { apply (list_elem_of_fmap_2 (λ s, (init (server_peer s), server_backend url_Parse (Scheme url) s)))
      in Hs. rewrite <-Hpeers, Eaddr in Hs.
    apply list_elem_of_fmap in Hs as (x & [= E1 E2] & Hx). eauto. }
  destruct (newPicker_wf ups b req h (ur_balancer _ _ _ Hready) (ur_wf _ _ _ Hready))
    as (pk' & Epk & _ & Em).
  rewrite (te_picker _ _ _ _ _ _ _ _ He) in Epk. injection Epk as <-.
  exists (S (remaining (rrp pk))).
  apply (trip_failover t ups req rt pk C io w _ x addr He); try done; [lia| | |].
  - rewrite Em. by apply (assembled_members _ _ _ _ _ x Hps).
  - destruct (reliable_unlimited s Hrel) as (Hd & Hc & Hmf).
    destruct (static_fields _ _ (proj1 Hw x)) as (_ & _ & Ed & Ec & Ef & _).
    unfold unlimited. by rewrite Ed, Ec, Ef, Epeer.
  - apply Hans. exact (te_rt _ _ _ _ _ _ _ _ He).
Qed.
End service.

(** ** A transport to try the claims on

    Two servers, of which the first refuses and the second has [max_fails=0];
    requests with a body. *)

Definition service_server : ServerConfig := Server "b" [Some (opt_MaxFails 0)].
Definition service_options : list PackageOption :=
  [OptRoundTripper (Some demo_rt); OptMaxBodyBuffer 100;
   OptUpstreams [Upstream "http://svc" [Server "a" []; service_server]]].
Definition service_result : Prelude.outcome (Transport * option GoError * Heap) :=
  NewTransportE (λ _, demo_rt) (λ rt _, rt) (option_of demo_parse demo_rand <$> service_options) ∅.
Definition service_t : Transport :=
  match service_result with Ret (t, _, _) => t | Panic _ => demo_t end.
Definition service_h : Heap :=
  match service_result with Ret (_, _, h) => h | Panic _ => ∅ end.
Definition service_ups : upstream := default demo_ups (upstreams service_t !! demo_key).

Lemma service_built : service_result = Ret (service_t, None, service_h).
Proof. vm_compute. reflexivity. Qed.

Lemma service_fits : Forall option_fits service_options.
Proof.
  do 3 (constructor; [try done|]); [|constructor]. constructor; [|constructor]. split; [|done].
  intros s [->|[->|?%not_elem_of_nil]%elem_of_cons]%elem_of_cons; try done.
  all: unfold server_typed, is_int; by vm_compute.
Qed.

Lemma service_request m : request_ok service_t service_ups (demo_req m) [1; 2; 3] demo_io.
Proof.
  pose proof (demo_env m) as He. constructor.
  - exists (MkURL "http" "svc" "/path"). split; [reflexivity|]. vm_compute. reflexivity.
  - assert (ups_transport service_ups = None) as -> by (vm_compute; reflexivity).
    assert (transport service_t = Some demo_rt) as -> by (vm_compute; reflexivity).
    intros rt [= <-]. exact demo_rt_ok.
  - assert (maxBodyBuffer service_t = maxBodyBuffer demo_t) as -> by (vm_compute; reflexivity).
    exact (te_body _ _ _ _ _ _ _ _ He).
  - exact (te_user _ _ _ _ _ _ _ _ He).
  - exact (te_ctx _ _ _ _ _ _ _ _ He).
  - exact (te_attempt_ctx _ _ _ _ _ _ _ _ He).
Qed.

Lemma built_transport_answers_witness :
  let w := MkWorld service_h demo_clock 0 0 in
  ∃ fuel res io' w' evs,
    RoundTrip fuel (Some service_t) (Some (demo_req "POST")) demo_io w = Ret (Some res, io', w') ∧
    is_some res.1 || is_some res.2 = true ∧ log io' = log demo_io ++ evs ∧
    (∀ x, x ∈ picks evs →
       Down (heap w !!! x) = false ∧ is_some (backends service_ups !! x) = true) ∧
    holding None evs = Some None ∧ shut (req_Body (demo_req "POST")) io' ∧
    hsame service_h (heap w').
Proof.
  intros w. exact (built_transport_answers demo_parse demo_rand (λ _, demo_rt) (λ rt _, rt)
    service_options ∅ service_t service_h service_ups (demo_req "POST") [1; 2; 3] demo_io w
    service_fits service_built (service_request "POST") (hsame_refl service_h)).
Defined.

Lemma service_answers : answers service_t demo_rt (MkBackend "http" "b").
Proof.
  intros ex (req & io & w & io' & w' & Eto & E) _ Hh. cbn [addr_host] in Hh.
  assert (default "" (URL_Host <$> req_URL req) = "b") as Hb
    by (rewrite Eto in Hh; by destruct (req_URL req)).
  cbn [serve demo_rt] in E. unfold demo_serve in E. rewrite Hb in E. cbn in E.
  injection E as Er Ee _ _. unfold result_of, outcome. rewrite <-Er, <-Ee. cbn.
  by destruct (ex_ctx ex).
Qed.

Lemma service_repeatable : repeatable service_t (demo_req "PUT") demo_io.
Proof. split; [right; by intros [n Hn]|done..]. Qed.

Lemma configured_failover_witness :
  let w := MkWorld service_h demo_clock 0 0 in
  ∃ fuel res io' w' evs ex,
    RoundTrip fuel (Some service_t) (Some (demo_req "PUT")) demo_io w = Ret (Some res, io', w') ∧
    log io' = log demo_io ++ evs ∧ last (exchanges evs) = Some ex ∧ res = result_of ex ∧
    shouldRetry service_t res.1 res.2 = false.
Proof.
  intros w. apply (configured_failover demo_parse demo_rand (λ _, demo_rt) (λ rt _, rt)
    service_options ∅ service_t service_h _ _ service_server service_ups
    (MkURL "http" "svc" "/path") (MkBackend "http" "b") (demo_req "PUT") [1; 2; 3] demo_io w
    service_fits service_built (list_elem_of_further _ _ _ (list_elem_of_further _ _ _ (list_elem_of_here _ _)))
    (list_elem_of_here _ _)); try reflexivity.
  - right. by left.
  - split_and!; [reflexivity|vm_compute; congruence..|reflexivity].
  - exact (service_request "PUT").
  - exact service_repeatable.
  - assert (in_use service_t service_ups = Some demo_rt) as -> by (vm_compute; reflexivity).
    intros rt [= <-]. exact service_answers.
Defined.

Lemma NewTransportE_serves_witness :
  let clone := λ rt (_ : string), rt in
  let opts := [OptTimeout 5000; OptUpstreams [demo_config]] in
  ∃ t err h', NewTransportE (λ _, MkRoundTripper true (λ _ io w, Ret ((None, None), io, w))) clone
      (option_of demo_parse demo_rand <$> opts) ∅ = Ret (t, err, h') ∧ heap_extends ∅ h' ∧
    built clone t err h' ∧ (err = None → all_configured demo_parse demo_rand opts t h').
Proof.
  intros clone opts. apply (NewTransportE_serves demo_parse demo_rand _ clone opts ∅).
  do 2 (constructor; [done || (constructor; [apply demo_config_fits|constructor])|]). constructor.
Defined.
